(* ===== verification/_CoqProject ===== *)
-Q . S2P
Prelude.v
Digraph.v
GoLib.v
GoTypes.v
DigReflect.v
Errors.v
Group.v
InOut.v
Values.v
Clock.v
DotTypes.v
Dot.v
Result.v
Store.v
Options.v
Scenario.v
Param.v
Call.v
ResultProofs.v
Deps.v
Building.v
ParamProofs.v
CallProofs.v
Provide.v
Decorate.v
ProvideProofs.v
Invoke.v
Container.v
Fuel.v
Invariants.v
Reachable.v
Nesting.v
DigTest.v
Registering.v
DecoratorOnce.v
CallLog.v
Offers.v
ScopeTree.v
Reading.v
ProvideSpec.v
ProvideErrors.v
DecorateSpec.v
Soundness.v
RootContainer.v
Scoped.v
Typed.v
TypeSound.v
Progress.v
Visualize.v
Text.v
DotProofs.v
DotBuild.v
VisualizeProofs.v
Causes.v
Divergence.v
Findings.v
