(* ===== verification/Prelude.v ===== *)
(** * A verification library for uber-go/dig

    dig is a dependency injection container for Go.  A program registers
    constructors ([Provide]) and decorators ([Decorate]) with a container or with
    scopes below it, and runs functions whose parameters the container builds
    ([Invoke]); constructors run on demand and their results are cached.  This
    library models the package as it is written and proves what makes it correct.

    ** The parts of the program, and how they interact

    - provide.go, decorate.go, invoke.go hold the public operations.  [Provide] reads
      the parameter and result types of a constructor (param.go, result.go, inout.go,
      group.go), makes a node (constructor.go), adds it to the providers of its keys
      and to the dependency graph of a scope and of all scopes below (scope.go,
      graph.go), and checks these graphs for cycles (internal/graph).  [Decorate] does
      the same for decorators, without a graph.  [Invoke] checks that direct
      dependencies exist, checks the graph if that was deferred, builds the
      arguments and calls the function.
    - param.go builds values: it looks for a value in the scope and its ancestors, runs
      decorators and constructors, which in turn build their parameters.  Results go
      through the interface [containerWriter] to a staging area or to a scope.
    - error.go and cycle_error.go are the errors; visualize.go and internal/dot draw the
      container and the failures an error tells of; internal/digreflect names
      functions, internal/digclock tells the time, callback.go and
      before_callback.go report calls.

    ** How it is modelled

    Go code that changes state is a function of the state monad [SM] (Values.v): it
    returns an [outcome] (a result, an error, a panic, or [NoFuel]) and the state
    reached, also when it fails.  All objects that Go shares through pointers live
    in one [store] (Store.v): scopes, constructor nodes, decorator nodes and orders
    maps, referred to by index, plus the trace of calls of the user's functions.
    Go's types are trees over a table of declarations ([TypeTable], GoTypes.v); a
    [reflect.Value] is a [value].  What is not in the repository is a parameter: the
    class [Env] (Store.v) holds the program around dig, that is its types, what the
    runtime knows of its functions, what each function does when called, given the
    whole history, which callbacks panic, the readings of the clocks and the random
    permutations.  Its laws are that calls return values of their result types and that [Perm] returns
    permutations; Scenario.v has a concrete instance.

    File by file, in the order of dependency:

    - Prelude.v (this file): automation, relations without cycles, lists.
    - Digraph.v: internal/graph/graph.go, the depth-first search for cycles.
    - GoLib.v: the functions of Go's strings and strconv packages dig calls.
    - GoTypes.v: types as reflect shows them; keys (container.go); [In] and [Out].
    - DigReflect.v: internal/digreflect/func.go.
    - Errors.v: error.go, cycle_error.go, messages included.
    - Group.v: group.go.  InOut.v: inout.go.
    - Values.v: reflect values with the checks of [Set], [Append] and [Call], the
      state monad, digerror.
    - Clock.v: internal/digclock/clock.go.
    - DotTypes.v, Dot.v: internal/dot/graph.go.
    - Result.v: result.go, with [containerWriter] as a class.
    - Store.v: the state; scope.go, graph.go, container.go.  Options.v: the options of
      provide.go, decorate.go, invoke.go, callback.go, before_callback.go.
    - Param.v: param.go up to [Build].  Call.v: the [Build] methods, [Call] of
      constructor.go and decorate.go, the staging area, the invokers.
    - Provide.v, Decorate.v, Invoke.v: the public operations.  Container.v: the methods
      of [Container], which delegate to the root scope.  Visualize.v: visualize.go and
      the [updateGraph] methods of error.go.  Text.v: the [String] methods of scopes,
      constructors and options.
    - DigTest.v: internal/digtest/container.go, over the parameters [Testing] (package
      testing and [require.NoError]) and [TestingLaws] (what testify documents).
    - ResultProofs.v, ParamProofs.v, Deps.v, Building.v, CallProofs.v, ProvideProofs.v,
      Fuel.v, Invariants.v, Reachable.v, Nesting.v, Registering.v, DecoratorOnce.v,
      CallLog.v, Offers.v, ScopeTree.v, Reading.v, ProvideSpec.v, ProvideErrors.v,
      DecorateSpec.v, Soundness.v, RootContainer.v, Scoped.v, Typed.v, TypeSound.v,
      Progress.v, DotProofs.v, DotBuild.v, VisualizeProofs.v, Causes.v, Divergence.v: the
      theorems.  Findings.v: behaviour the sources do not intend, on concrete programs.

    ** What the theorems show

    - Programs with one scope (RootContainer.v): the graph stays sound through failed
      registrations, a successful [Provide] leaves it acyclic unless the check is
      deferred, every [Invoke] ends, with a result, an error or a panic, and
      a constructor that succeeded is never called again.
    - Programs with child scopes and decorators that neither export constructors nor
      defer the cycle check, in which no [Provide] panics and none fails in a scope that
      has children (Scoped.v): constructors only depend on constructors of
      their scope, which the check covers, and of scopes above; so every [Invoke] ends,
      and without decorators a constructor that succeeded is never called again.
      Findings.v has programs that export, that defer, or whose [Provide] fails in a scope
      with children, in which [Invoke] runs forever, and one with a decorator in
      which a constructor is called twice; Divergence.v says in general when [Invoke] runs
      forever.
    - All programs, with child scopes and decorators: every operation keeps the
      invariant of the store and registration ends (Reachable.v); the caches and the
      called marks of constructors and decorators are the replay of the log of calls, a
      refinement of an abstract log machine (CallLog.v); every error of [Invoke] is
      explained, along a chain of parameters, constructors and decorators, by a function
      that was called and failed, by missing types, a cycle or a bad input, and
      [RootCause] finds that end of the chain, if the user's errors wrap none of the
      package (Causes.v); a decorator is called at most once, also if it fails or
      depends on itself (DecoratorOnce.v).  The refinement is for containers without
      [DryRun].
    - All programs in which no decorator flattens a group: every stored value and every
      argument fits its type and no type check of reflect fails (TypeSound.v); if the
      runtime knows the program's functions, drawing a container never fails
      (VisualizeProofs.v).
    - Containers that are complete, that is every constructor and decorator has
      providers for its required parameters, without [DryRun], nameless groups and
      flattening decorators, with bounded chains of dependencies, in programs whose
      functions the runtime knows (Progress.v): [Invoke] succeeds when the user's functions
      do and no callback panics.  The providers registered for a key leave a value
      under it (Offers.v), unless a value group has an empty name (Findings.v).
    - Single operations: [Provide] that fails in a scope without children leaves nothing
      behind (ProvideProofs.v), its duplicate check, options and cycle check are
      characterised; Reading.v, ProvideSpec.v, ProvideErrors.v and DecorateSpec.v give the
      exact effect of reading parameters, of a successful and of a failed [Provide] and of
      [Decorate] on every scope of the tree; decorators cannot make [Invoke] run forever, whatever they
      depend on (Nesting.v); the wrappers for tests stop at the first error
      (DigTest.v); a call of a constructor provides its single values, and the callbacks of
      constructors and decorators run in their order, see the error that is returned and
      are not themselves protected from panics (CallProofs.v); results
      are extracted completely and the order of map iteration does not matter
      (ResultProofs.v); the shallow check finds exactly the missing parameters
      (ParamProofs.v); [Invoke] calls only what is needed (Invariants.v).
    - Components: cycle search (Digraph.v), embedding search (InOut.v), group tags,
      [RootCause], function names, the mock clock, scope trees, the DOT graph, its
      pruning and the picture of an error.

    ** Bounds and fuel

    - [Invoke] takes a bound on the depth of nested constructor and decorator calls
      ([knot]).  Fuel.v shows that it never changes an answer, RootContainer.v that
      some bound is always enough in programs with one scope, Scoped.v in programs with
      child scopes and decorators, Invariants.v that the longest chain of dependencies
      is enough, Nesting.v that the longest chain [h] of constructors and the number [d]
      of decorators are: [h + 1 + d * (h + 2)] nested calls.  Divergence.v says when no
      bound is enough, that is when the Go code recurses until its stack is exhausted, and
      Findings.v has programs with exported constructors, deferred checks or a failed
      registration where this happens.
    - Recursion over types is bounded by the rank of the type ([tt_rank]: named types
      only contain named types of smaller rank by value), over scopes by their
      number, in the cycle search by the number of nodes; theorems show that these
      never run out.
    - Durations are int64: what [Add] of the mock clock takes wraps to one, [Since]
      saturates at their bounds, and the seconds of an instant saturate at those of int64
      (Clock.v).  Other integers of the package count elements of lists and are natural
      numbers.

    ** Not modelled

    - doc.go, version.go, internal/digtest/doc.go (no behaviour).
    - What the system clock reads, the text of addresses and of the user's values, and
      how Go iterates over maps are parameters or shown not to matter; goroutines: the package has none and is documented as not
      safe for concurrent use.
    - User functions and callbacks that call back into the container while they run: what
      a function returns depends on the whole history, but it does not change the store.
    - A nil function of a function type as the argument of [Provide], [Decorate] or
      [Invoke]; the untyped nil is modelled.
    - The rule of assignability for identical underlying types, which no value that
      comes out of a container needs.

    ** What could come next

    The number of calls of constructors in containers with decorators, and programs that
    export constructors whose dependencies are all visible from the root. *)

From stdpp Require Export base tactics option list gmap strings sorting pretty.
From Stdlib Require Export Lia Ascii.
From Stdlib Require Import Relations.

#[export] Set Default Goal Selector "!".

(** ** Automation of the development *)

Create HintDb dig discriminated.
#[export] Hint Constructors Forall : dig.
#[export] Hint Extern 1 (_ < _) => lia : dig.
#[export] Hint Extern 1 (_ <= _) => lia : dig.

(** Case analysis on the scrutinee of every [match] of the goal and of the
    hypotheses, keeping the equation, until none is left. *)
Ltac break_match :=
  match goal with
  | |- context [match ?x with _ => _ end] =>
      first [ is_var x; destruct x | destruct x eqn:? ]
  | H : context [match ?x with _ => _ end] |- _ =>
      first [ is_var x; destruct x | destruct x eqn:? ]
  end.

Ltac break := repeat (break_match; simplify_eq/=).

(** Case analysis on the scrutinees of one hypothesis only. *)
Ltac break_hyp H :=
  repeat (match type of H with
          | context [match ?x with _ => _ end] =>
              first [ is_var x; destruct x | destruct x eqn:? ]
          end; simplify_eq/=).

Tactic Notation "break" "in" hyp(H) := break_hyp H.

(** ** Relations: one or more steps, and freedom from cycles *)

Section relations.
Context {A : Type} (R : A → A → Prop).

(** A walk: consecutive elements are related. *)
Fixpoint chain (l : list A) : Prop :=
  match l with
  | x :: (y :: _) as l' => R x y ∧ chain l'
  | _ => True
  end.

Lemma chain_cons x y l : chain (x :: y :: l) ↔ R x y ∧ chain (y :: l).
Proof. done. Qed.

Lemma chain_tail x l : chain (x :: l) → chain l.
Proof. destruct l; simpl; tauto. Qed.

Lemma chain_drop n l : chain l → chain (drop n l).
Proof.
  revert l; induction n as [|n IH]; intros [|x l]; simpl; auto.
  intros H. apply IH. by eapply chain_tail.
Qed.

(** A walk extended by an edge out of its last element. *)
Lemma chain_snoc l x y : chain (l ++ [x]) → R x y → chain (l ++ [x; y]).
Proof.
  induction l as [|a l IH]; [by simpl; auto|].
  destruct l as [|b l]; [by simpl; intros [? ?] ?; auto|].
  intros [? ?] ?. split; [done|]. by apply IH.
Qed.

Lemma chain_tc x l y : chain (x :: l ++ [y]) → clos_trans A R x y.
Proof.
  revert x; induction l as [|z l IH]; intros x; simpl.
  - intros [? _]. by constructor.
  - intros [? Hc]. eapply t_trans; [by constructor|]. by apply IH.
Qed.

(** Accessibility excludes cycles. *)
Lemma Acc_no_cycle (x : A) : Acc (λ v u, R u v) x → ¬ clos_trans A R x x.
Proof.
  induction 1 as [x _ IH]. intros Hx.
  apply clos_trans_t1n in Hx. inversion Hx as [y Hxy|y z Hxy Hyz]; subst.
  - apply (IH x Hxy). by constructor.
  - apply (IH y Hxy). eapply t_trans; [by apply clos_t1n_trans|by constructor].
Qed.
End relations.

(** ** Lists *)

Lemma elem_of_concat_map {A B} (f : A → list B) l y :
  y ∈ concat (map f l) ↔ ∃ x, x ∈ l ∧ y ∈ f x.
Proof. rewrite <- flat_map_concat_map, list_elem_of_In, in_flat_map. by setoid_rewrite list_elem_of_In. Qed.

(** The last element of a list, and an element of it. *)
Lemma app_cons_snoc {A} (l : list A) x pre y post :
  l ++ [x] = pre ++ y :: post →
  (post = [] ∧ pre = l ∧ x = y) ∨ ∃ post', post = post' ++ [x] ∧ l = pre ++ y :: post'.
Proof.
  induction post as [|z post _] using rev_ind; intros H.
  - left. apply app_inj_tail in H as [-> ->]. done.
  - right. exists post. rewrite app_comm_cons, app_assoc in H.
    apply app_inj_tail in H as [-> ->]. done.
Qed.

Lemma fmap_alter_same {A B} (g : A → B) f i (l : list A) :
  (∀ x, g (f x) = g x) → g <$> alter f i l = g <$> l.
Proof.
  intros H. revert i; induction l as [|x l IH]; intros [|i]; simpl; try done.
  - by rewrite H.
  - f_equal. apply IH.
Qed.

Lemma fmap_alter_at {A B} (g : A → B) f i (l : list A) x :
  l !! i = Some x → g (f x) = g x → g <$> alter f i l = g <$> l.
Proof.
  intros Hi Hx. apply list_eq. intros j. rewrite !list_lookup_fmap, list_lookup_alter.
  case_decide; [subst|done]. rewrite Hi. simpl. by rewrite Hx.
Qed.

Lemma sum_list_with_fmap {A B} (f : B → nat) (g : A → B) l :
  sum_list_with f (g <$> l) = sum_list_with (λ x, f (g x)) l.
Proof. induction l as [|x l IH]; csimpl; [done|]. by rewrite IH. Qed.

Lemma drop_cons_inv {A} i (l : list A) x l' :
  drop i l = x :: l' → l !! i = Some x ∧ drop (S i) l = l'.
Proof.
  revert l; induction i as [|i IH]; intros [|y l] H; simplify_eq/=; [done|]. by apply IH.
Qed.
