(* ===== verification/Digraph.v ===== *)
(** * Cycle detection: package [internal/graph] (graph.go)

    The depth-first search [IsAcyclic] over the [Graph] interface, with the
    [cycleInfo] slice threaded explicitly as the mutable state it is in the
    code.  The main results: on a graph whose edges stay in range the search
    always finishes without an index panic, answers [true] exactly when the
    edge relation has no cycle, and otherwise returns a genuine closed walk. *)

From Stdlib Require Import Relations.
From S2P Require Import Prelude.

(** The interface [Graph].  [EdgesFrom u = None] is the panic of an
    implementation asked for a node it does not have. *)
Record Graph := mkGraph {
  Order : nat;
  EdgesFrom : nat → option (list nat)
}.

(** [cycleNode] and the slice [cycleInfo]. *)
Record cycleNode := mkCycleNode { Visited : bool; OnStack : bool }.

Abbreviation cycleInfo := (list cycleNode).

Definition newCycleInfo (order : nat) : cycleInfo :=
  replicate order (mkCycleNode false false).

Definition clearOnStack (n : cycleNode) : cycleNode := mkCycleNode (Visited n) false.

Definition Reset (info : cycleInfo) : cycleInfo := clearOnStack <$> info.

(** What a run of the search ends with: a result, an index out of range (a Go
    panic), or the exhaustion of the recursion bound of the model. *)
Inductive run (A : Type) :=
| Done (a : A)
| IndexPanic
| OutOfFuel.
Arguments Done {A} _.
Arguments IndexPanic {A}.
Arguments OutOfFuel {A}.

(** The backward scan that cuts the path down to its cyclic suffix: the index
    of the last occurrence of [v]. *)
Fixpoint lastIndexOf (v : nat) (path : list nat) : option nat :=
  match path with
  | [] => None
  | x :: path' =>
      match lastIndexOf v path' with
      | Some i => Some (S i)
      | None => if decide (x = v) then Some 0 else None
      end
  end.

Definition pruneCycle (v : nat) (path : list nat) : list nat :=
  match lastIndexOf v path with
  | Some i => drop i path
  | None => path
  end.

(** The loop over [g.EdgesFrom(u)]; [rec] is the recursive call on a node that
    has not been visited. *)
Fixpoint visitEdges (rec : nat → cycleInfo → run (list nat * cycleInfo))
    (path : list nat) (es : list nat) (info : cycleInfo)
    : run (list nat * cycleInfo) :=
  match es with
  | [] => Done ([], info)
  | v :: es' =>
      match info !! v with
      | None => IndexPanic
      | Some nv =>
          if negb (Visited nv) then
            match rec v info with
            | Done ([], info') => visitEdges rec path es' info'
            | r => r
            end
          else if OnStack nv then Done (pruneCycle v path ++ [v], info)
          else visitEdges rec path es' info
      end
  end.

Fixpoint isAcyclic (fuel : nat) (g : Graph) (u : nat) (info : cycleInfo)
    (path : list nat) : run (list nat * cycleInfo) :=
  match fuel with
  | O => OutOfFuel
  | S fuel' =>
      match info !! u with
      | None => IndexPanic
      | Some nu =>
          if Visited nu then Done ([], info)
          else
            let info := <[u := mkCycleNode true true]> info in
            let path := path ++ [u] in
            match EdgesFrom g u with
            | None => IndexPanic
            | Some es =>
                match visitEdges (λ v i, isAcyclic fuel' g v i path) path es info with
                | Done ([], info') => Done ([], alter clearOnStack u info')
                | r => r
                end
            end
      end
  end.

(** The outer loop, from node [i] on; [k] is the number of nodes left.  Every
    descent of the search marks one more node, so one more than the order of
    the graph bounds its depth. *)
Fixpoint IsAcyclic_from (g : Graph) (k i : nat) (info : cycleInfo)
    : run (bool * list nat) :=
  match k with
  | O => Done (true, [])
  | S k' =>
      match isAcyclic (S (Order g)) g i (Reset info) [] with
      | Done ([], info') => IsAcyclic_from g k' (S i) info'
      | Done (cycle, _) => Done (false, cycle)
      | IndexPanic => IndexPanic
      | OutOfFuel => OutOfFuel
      end
  end.

Definition IsAcyclic (g : Graph) : run (bool * list nat) :=
  IsAcyclic_from g (Order g) 0 (newCycleInfo (Order g)).

(** ** Specification *)

(** The edge relation of a graph. *)
Definition edge (g : Graph) (u v : nat) : Prop :=
  ∃ es, EdgesFrom g u = Some es ∧ v ∈ es.

(** Every node below the order has edges, all to nodes below the order. *)
Definition wf_graph (g : Graph) : Prop :=
  ∀ u, u < Order g → ∃ es, EdgesFrom g u = Some es ∧ ∀ v, v ∈ es → v < Order g.

Definition acyclic (g : Graph) : Prop :=
  ∀ u, u < Order g → ¬ clos_trans nat (edge g) u u.

(** A closed walk: it starts and ends at the same node of the graph and follows
    edges. *)
Definition closed_walk (g : Graph) (c : list nat) : Prop :=
  ∃ v mid, v < Order g ∧ c = v :: mid ++ [v] ∧ chain (edge g) c.

(** A decidable version of [wf_graph], for concrete graphs. *)
Definition wf_graphb (g : Graph) : bool :=
  forallb (λ u, match EdgesFrom g u with
                | Some es => forallb (λ v, bool_decide (v < Order g)) es
                | None => false
                end) (seq 0 (Order g)).

Lemma wf_graphb_sound g : wf_graphb g = true → wf_graph g.
Proof.
  unfold wf_graphb. rewrite forallb_forall. intros H u Hu.
  specialize (H u). rewrite in_seq in H. specialize (H ltac:(lia)).
  destruct (EdgesFrom g u) as [es|]; [|done]. exists es. split; [done|].
  intros v Hv. rewrite forallb_forall in H.
  by eapply bool_decide_eq_true_1, H, list_elem_of_In.
Qed.

Lemma closed_walk_not_acyclic g c : closed_walk g c → ¬ acyclic g.
Proof.
  intros (v & mid & Hv & -> & Hc) Ha. apply (Ha v Hv). by eapply chain_tc.
Qed.

Lemma lastIndexOf_spec v path i :
  lastIndexOf v path = Some i → path !! i = Some v.
Proof.
  revert i; induction path as [|x path IH]; intros i; simpl; [done|].
  destruct (lastIndexOf v path) as [j|]; [intros [= <-]; simpl; by apply IH|].
  case_decide; [by intros [= <-]; subst|done].
Qed.

Lemma lastIndexOf_Some v path : v ∈ path → is_Some (lastIndexOf v path).
Proof.
  induction path as [|x path IH]; simpl; [by rewrite elem_of_nil|].
  rewrite elem_of_cons. intros [->|H].
  - destruct (lastIndexOf x path); [eauto|]. case_decide; [eauto|done].
  - destruct (IH H) as [i ->]. eauto.
Qed.

(** The search state between two steps: everything on the stack is on the
    current path, and every node that is finished reaches only finitely deep. *)
Section search.
Context (g : Graph).

Definition reaches_fin : nat → Prop := Acc (λ v u, edge g u v).

Record search_inv (info : cycleInfo) (path : list nat) : Prop := {
  inv_length : length info = Order g;
  inv_stack : ∀ v n, info !! v = Some n → OnStack n = true →
                     v ∈ path ∧ Visited n = true;
  inv_done : ∀ v n, info !! v = Some n → Visited n = true →
                    OnStack n = false → reaches_fin v
}.

(** The search only adds visited marks and leaves the stack as it found it. *)
Definition info_le (info info' : cycleInfo) : Prop :=
  Forall2 (λ n n', (Visited n = true → Visited n' = true) ∧ OnStack n' = OnStack n)
          info info'.

Lemma info_le_refl info : info_le info info.
Proof. unfold info_le. induction info; auto. Qed.

Lemma info_le_trans i1 i2 i3 : info_le i1 i2 → info_le i2 i3 → info_le i1 i3.
Proof.
  intros H; revert i3. induction H as [|n1 n2 i1 i2 [? ?] _ IH]; intros i3 H3;
    inversion H3 as [|? n3 ? i3' [? ?] ?]; subst; constructor; [|by apply IH].
  split; [auto|congruence].
Qed.

Lemma info_le_lookup i1 i2 v n :
  info_le i1 i2 → i1 !! v = Some n →
  ∃ n', i2 !! v = Some n' ∧ (Visited n = true → Visited n' = true) ∧
        OnStack n' = OnStack n.
Proof. intros H Hv. by apply (Forall2_lookup_l _ _ _ _ _ H Hv). Qed.

Fixpoint unvisited (info : cycleInfo) : nat :=
  match info with
  | [] => 0
  | n :: info' => (if Visited n then 0 else 1) + unvisited info'
  end.

Lemma unvisited_le i1 i2 : info_le i1 i2 → unvisited i2 <= unvisited i1.
Proof.
  induction 1 as [|n n' i1 i2 [Hn _] _ IH]; simpl; [done|].
  destruct (Visited n); [rewrite Hn by done; lia|]. destruct (Visited n'); lia.
Qed.

Lemma unvisited_mark info u n :
  info !! u = Some n → Visited n = false →
  unvisited (<[u := mkCycleNode true true]> info) < unvisited info.
Proof.
  revert u; induction info as [|m info IH]; intros [|u]; try done.
  - simpl. intros [= ->] ->. lia.
  - intros Hu Hn. specialize (IH u Hu Hn).
    change (<[S u := mkCycleNode true true]> (m :: info))
      with (m :: <[u := mkCycleNode true true]> info). cbn [unvisited]. lia.
Qed.

Lemma unvisited_bound info : unvisited info <= length info.
Proof. induction info as [|n info IH]; simpl; [done|]. destruct (Visited n); lia. Qed.

(** Lookups of the marked and of the finished info. *)
Lemma search_inv_mark info path u n :
  search_inv info path → info !! u = Some n → Visited n = false →
  search_inv (<[u := mkCycleNode true true]> info) (path ++ [u]).
Proof.
  intros [Hl Hs Hd] Hu Hn. split.
  - by rewrite length_insert.
  - intros v m Hv Hm. destruct (decide (u = v)) as [->|Hne].
    + rewrite list_lookup_insert_eq in Hv by (by eapply lookup_lt_Some).
      simplify_eq. set_solver.
    + rewrite list_lookup_insert_ne in Hv by done.
      destruct (Hs v m Hv Hm). set_solver.
  - intros v m Hv Hm Hm'. destruct (decide (u = v)) as [->|Hne].
    + rewrite list_lookup_insert_eq in Hv by (by eapply lookup_lt_Some).
      by simplify_eq.
    + rewrite list_lookup_insert_ne in Hv by done. eauto.
Qed.

Lemma search_inv_finish info path u :
  search_inv info (path ++ [u]) →
  (∀ v, edge g u v → reaches_fin v) →
  search_inv (alter clearOnStack u info) path.
Proof.
  intros [Hl Hs Hd] Hu. split.
  - by rewrite length_alter.
  - intros v m Hv Hm. destruct (decide (u = v)) as [->|Hne].
    + rewrite list_lookup_alter_eq in Hv.
      destruct (info !! v); simplify_eq/=.
    + rewrite list_lookup_alter_ne in Hv by done.
      destruct (Hs v m Hv Hm). set_solver.
  - intros v m Hv Hm Hm'. destruct (decide (u = v)) as [->|Hne]; [by constructor|].
    rewrite list_lookup_alter_ne in Hv by done. eauto.
Qed.

Lemma info_le_finish info info' u n :
  info !! u = Some n → OnStack n = false →
  info_le (<[u := mkCycleNode true true]> info) info' →
  info_le info (alter clearOnStack u info').
Proof.
  intros Hu Hn Hle. apply Forall2_same_length_lookup.
  split; [by rewrite length_alter, <- (Forall2_length _ _ _ Hle), length_insert|].
  intros v m m' Hm Hm'. destruct (decide (u = v)) as [->|Hne].
  - rewrite list_lookup_alter_eq in Hm'.
    destruct (info_le_lookup _ _ v (mkCycleNode true true) Hle) as (k & Hk & Hk' & _).
    { apply list_lookup_insert_eq. by eapply lookup_lt_Some. }
    rewrite Hk in Hm'. simplify_eq/=. auto.
  - rewrite list_lookup_alter_ne in Hm' by done.
    destruct (info_le_lookup _ _ v m Hle) as (k & Hk & ? & ?).
    { by rewrite list_lookup_insert_ne. }
    by simplify_eq.
Qed.

(** What one call of the search guarantees. *)
Definition search_post (u : nat) (info : cycleInfo) (path : list nat)
    (r : list nat * cycleInfo) : Prop :=
  match r.1 with
  | [] => search_inv r.2 path ∧ info_le info r.2 ∧
          ∃ n, r.2 !! u = Some n ∧ Visited n = true
  | c => closed_walk g c
  end.

Definition search_ok (fuel : nat) : Prop := ∀ u info path,
  u < Order g → search_inv info path → chain (edge g) (path ++ [u]) →
  unvisited info < fuel →
  ∃ r, isAcyclic fuel g u info path = Done r ∧ search_post u info path r.

Lemma pruneCycle_closed path u v :
  chain (edge g) (path ++ [u]) → edge g u v → v < Order g → v ∈ path ++ [u] →
  closed_walk g (pruneCycle v (path ++ [u]) ++ [v]).
Proof.
  intros Hc Huv Hlt' Hv. unfold pruneCycle.
  destruct (lastIndexOf_Some _ _ Hv) as [i Hi]. rewrite Hi.
  apply lastIndexOf_spec in Hi. pose proof (lookup_lt_Some _ _ _ Hi) as Hlt.
  rewrite length_app in Hlt; simpl in Hlt.
  pose proof (chain_drop _ i _ Hc) as Hd.
  rewrite drop_app_le in Hd |- * by lia.
  assert (Hch : chain (edge g) ((drop i path ++ [u]) ++ [v])).
  { rewrite <- app_assoc. by apply chain_snoc. }
  destruct (drop i path ++ [u]) as [|w l] eqn:Hl; [by destruct (drop i path)|].
  assert (w = v) as ->.
  { assert (drop i (path ++ [u]) !! 0 = Some v) as H0.
    { rewrite lookup_drop. by rewrite Nat.add_0_r. }
    rewrite drop_app_le, Hl in H0 by lia. by simplify_eq/=. }
  exists v, l. by split_and!.
Qed.

Lemma visitEdges_ok fuel u path es :
  search_ok fuel →
  chain (edge g) (path ++ [u]) →
  (∀ v, v ∈ es → edge g u v ∧ v < Order g) →
  ∀ info, search_inv info (path ++ [u]) → unvisited info < fuel →
  ∃ r, visitEdges (λ v i, isAcyclic fuel g v i (path ++ [u])) (path ++ [u]) es info
         = Done r ∧
       match r.1 with
       | [] => search_inv r.2 (path ++ [u]) ∧ info_le info r.2 ∧
               ∀ v, v ∈ es → reaches_fin v
       | c => closed_walk g c
       end.
Proof.
  intros IH Hch. induction es as [|v es IHes]; intros Hes info Hinv Hfuel; simpl.
  { exists ([], info). split_and!; auto using info_le_refl. simpl.
    split_and!; auto using info_le_refl. intros v. by rewrite elem_of_nil. }
  destruct (Hes v ltac:(set_solver)) as [Huv Hv].
  destruct (lookup_lt_is_Some_2 info v) as [nv Hnv]; [by rewrite (inv_length _ _ Hinv)|].
  rewrite Hnv.
  assert (Hrest : ∀ info', info_le info info' → search_inv info' (path ++ [u]) →
    reaches_fin v →
    ∃ r, visitEdges (λ v i, isAcyclic fuel g v i (path ++ [u])) (path ++ [u]) es info'
           = Done r ∧
       match r.1 with
       | [] => search_inv r.2 (path ++ [u]) ∧ info_le info r.2 ∧
               ∀ w, w ∈ v :: es → reaches_fin w
       | c => closed_walk g c
       end).
  { intros info' Hle Hinv' Hfin.
    destruct (IHes ltac:(set_solver) info' Hinv') as ([c i'] & -> & Hr).
    { pose proof (unvisited_le _ _ Hle). lia. }
    exists (c, i'). split; [done|]. destruct c; [|done]. simpl in *.
    destruct Hr as (? & ? & Hall). split_and!; [done|by eapply info_le_trans|].
    intros w. rewrite elem_of_cons. intros [->|?]; auto. }
  destruct (Visited nv) eqn:Hvis; simpl.
  - destruct (OnStack nv) eqn:Hon.
    + exists (pruneCycle v (path ++ [u]) ++ [v], info). split; [done|].
      destruct (inv_stack _ _ Hinv v nv Hnv Hon) as [Hin _].
      pose proof (pruneCycle_closed path u v Hch Huv Hv Hin) as Hcl. simpl.
      by destruct (pruneCycle v (path ++ [u]) ++ [v]) as [|] eqn:Hp;
        [destruct (pruneCycle v (path ++ [u]))|].
    + apply Hrest; auto using info_le_refl. by eapply inv_done.
  - destruct (IH v info (path ++ [u])) as ([c info'] & -> & Hp); auto.
    { rewrite <- app_assoc. by apply chain_snoc. }
    destruct c as [|x c]; [|by exists (x :: c, info')].
    destruct Hp as (Hinv' & Hle & n & Hn & Hn'). simpl in *.
    apply Hrest; auto. eapply (inv_done _ _ Hinv'); eauto.
    destruct (info_le_lookup _ _ v nv Hle Hnv) as (n2 & ? & _ & Heq). simplify_eq.
    rewrite Heq. destruct (OnStack nv) eqn:Hon; [|done].
    destruct (inv_stack _ _ Hinv v nv Hnv Hon). congruence.
Qed.

Lemma isAcyclic_ok : wf_graph g → ∀ fuel, search_ok fuel.
Proof.
  intros Hwf fuel. induction fuel as [|fuel IH]; intros u info path Hu Hinv Hch Hf;
    [lia|]. simpl.
  destruct (lookup_lt_is_Some_2 info u) as [nu Hnu]; [by rewrite (inv_length _ _ Hinv)|].
  rewrite Hnu. destruct (Visited nu) eqn:Hvis.
  { exists ([], info). split; [done|]. split_and!; eauto using info_le_refl. }
  destruct (Hwf u Hu) as (es & Hes & Hlt). rewrite Hes.
  destruct (visitEdges_ok fuel u path es IH Hch) with
    (info := <[u := mkCycleNode true true]> info) as ([c info'] & -> & Hr).
  { intros v Hv. split; [by exists es|auto]. }
  { by eapply search_inv_mark. }
  { pose proof (unvisited_mark info u nu Hnu Hvis). lia. }
  destruct c as [|x c]; [|by exists (x :: c, info')]. simpl in Hr.
  destruct Hr as (Hinv' & Hle & Hfin).
  exists ([], alter clearOnStack u info'). split; [done|]. split_and!; simpl.
  - apply search_inv_finish; [done|]. intros v (es' & Hes' & Hv).
    rewrite Hes in Hes'. simplify_eq. auto.
  - eapply info_le_finish; eauto. destruct (OnStack nu) eqn:Hon; [|done].
    destruct (inv_stack _ _ Hinv u nu Hnu Hon). congruence.
  - destruct (info_le_lookup _ _ u (mkCycleNode true true) Hle) as (k & Hk & Hk' & _).
    { apply list_lookup_insert_eq. by eapply lookup_lt_Some. }
    exists (clearOnStack k). rewrite list_lookup_alter_eq, Hk. split; [done|].
    simpl. auto.
Qed.

Lemma Reset_id info : search_inv info [] → Reset info = info.
Proof.
  intros [Hl Hs Hd]. unfold Reset. apply list_eq. intros i.
  rewrite list_lookup_fmap. destruct (info !! i) as [[vi on]|] eqn:Hi; [|done].
  simpl. destruct on; [|done]. destruct (Hs i _ Hi eq_refl). set_solver.
Qed.

Lemma IsAcyclic_from_ok : wf_graph g → ∀ k i info,
  i + k = Order g → search_inv info [] →
  (∀ j, j < i → reaches_fin j) →
  ∃ b c, IsAcyclic_from g k i info = Done (b, c) ∧
         if b then c = [] ∧ ∀ j, j < Order g → reaches_fin j
         else closed_walk g c.
Proof.
  intros Hwf k. induction k as [|k IH]; intros i info Hik Hinv Hdone; simpl.
  { exists true, []. split_and!; auto. intros j Hj. apply Hdone. lia. }
  rewrite Reset_id by done.
  destruct (isAcyclic_ok Hwf (S (Order g)) i info []) as ([c info'] & Hr & Hp);
    [lia|done|done| |].
  { pose proof (unvisited_bound info). rewrite (inv_length _ _ Hinv) in *. lia. }
  simpl in Hr. rewrite Hr. destruct c as [|x c].
  - destruct Hp as (Hinv' & _ & n & Hn & Hvis). simpl in *.
    apply IH; [lia|done|]. intros j Hj. destruct (decide (j = i)) as [->|];
      [|apply Hdone; lia].
    eapply (inv_done _ _ Hinv'); eauto. destruct (OnStack n) eqn:Hon; [|done].
    destruct (inv_stack _ _ Hinv' i n Hn Hon). set_solver.
  - by exists false, (x :: c).
Qed.

(** *** What a search without a cycle means, on any graph *)

(** A node that was visited from an open search is finished. *)
Lemma finished_fin info info' path u n :
  search_inv info path → search_inv info' path → info_le info info' →
  info !! u = Some n → Visited n = false ∨ OnStack n = false →
  (∃ n', info' !! u = Some n' ∧ Visited n' = true) → reaches_fin u.
Proof.
  intros Hinv Hinv' Hle Hu Hn (n' & Hu' & Hv). eapply (inv_done _ _ Hinv'); eauto.
  destruct (info_le_lookup _ _ u n Hle Hu) as (n2 & ? & _ & Heq). simplify_eq. rewrite Heq.
  destruct (OnStack n) eqn:Hon; [|done]. destruct (inv_stack _ _ Hinv u n Hu Hon). naive_solver congruence.
Qed.

Definition search_sound (path : list nat) (rec : nat → cycleInfo → run (list nat * cycleInfo)) : Prop :=
  ∀ u info info', rec u info = Done ([], info') → search_inv info path →
    search_inv info' path ∧ info_le info info' ∧ ∃ n, info' !! u = Some n ∧ Visited n = true.

Lemma visitEdges_sound path rec es info info' :
  search_sound path rec → visitEdges rec path es info = Done ([], info') → search_inv info path →
  search_inv info' path ∧ info_le info info' ∧ ∀ v, v ∈ es → reaches_fin v.
Proof.
  intros Hrec. revert info; induction es as [|v es IH]; intros info; simpl.
  { intros [= <-] Hinv. split_and!; auto using info_le_refl. intros v. by rewrite elem_of_nil. }
  destruct (info !! v) as [nv|] eqn:Hnv; [|done].
  destruct (Visited nv) eqn:Hvis; simpl.
  - destruct (OnStack nv) eqn:Hon; [intros [= Happ _]; by destruct (pruneCycle v path)|].
    intros Hes Hinv.
    destruct (IH info Hes Hinv) as (? & Hle & Hfin). split_and!; [done..|].
    intros w [->|?]%elem_of_cons; [exact (inv_done _ _ Hinv _ _ Hnv Hvis Hon)|auto].
  - destruct (rec v info) as [[[|] info1]| |] eqn:Hr; [|intros [=]..]. intros Hes Hinv.
    destruct (Hrec _ _ _ Hr Hinv) as (Hinv1 & Hle1 & Hv). destruct (IH info1 Hes Hinv1) as (? & Hle & Hfin).
    split_and!; [done|by eapply info_le_trans|]. intros w [->|?]%elem_of_cons; [|auto].
    eapply (finished_fin info info1); eauto.
Qed.

Lemma isAcyclic_sound fuel path : search_sound path (λ u i, isAcyclic fuel g u i path).
Proof.
  revert path; induction fuel as [|fuel IH]; intros path u info info'; [done|]. simpl.
  destruct (info !! u) as [nu|] eqn:Hnu; [|done]. destruct (Visited nu) eqn:Hvis.
  { intros [= <-] Hinv. split_and!; eauto using info_le_refl. }
  destruct (EdgesFrom g u) as [es|] eqn:Hes; [|done].
  destruct (visitEdges _ _ _ _) as [[[|] info1]| |] eqn:Hr; [|intros [=]..]. intros [= <-] Hinv.
  destruct (visitEdges_sound _ _ _ _ _ (IH (path ++ [u])) Hr) as (Hinv1 & Hle & Hfin);
    [by eapply search_inv_mark|]. split_and!.
  - apply search_inv_finish; [done|]. intros v (es' & Hes' & Hv). simplify_eq. auto.
  - eapply info_le_finish; eauto. destruct (OnStack nu) eqn:Hon; [|done].
    destruct (inv_stack _ _ Hinv u nu Hnu Hon). congruence.
  - destruct (info_le_lookup _ _ u (mkCycleNode true true) Hle) as (k & Hk & Hk' & _).
    { apply list_lookup_insert_eq. by eapply lookup_lt_Some. }
    exists (clearOnStack k). rewrite list_lookup_alter_eq, Hk. split; [done|]. simpl. auto.
Qed.

Lemma IsAcyclic_from_sound k i info c :
  i + k = Order g → search_inv info [] → (∀ j, j < i → reaches_fin j) →
  IsAcyclic_from g k i info = Done (true, c) → ∀ j, j < Order g → reaches_fin j.
Proof.
  revert i info; induction k as [|k IH]; intros i info Hik Hinv Hdone;
    [intros _ j Hj; apply Hdone; lia|].
  unfold IsAcyclic_from; fold IsAcyclic_from. rewrite Reset_id by done.
  destruct (isAcyclic _ g i info []) as [[[|] info']| |] eqn:Hr; [|intros [=]..]. intros Hfrom.
  destruct (isAcyclic_sound _ [] i info info' Hr Hinv) as (Hinv' & _ & n & Hn & Hvis).
  eapply (IH (S i) info'); [lia|done| |done]. intros j Hj. destruct (decide (j = i)) as [->|];
    [|apply Hdone; lia].
  eapply (inv_done _ _ Hinv'); eauto. destruct (OnStack n) eqn:Hon; [|done].
  destruct (inv_stack _ _ Hinv' i n Hn Hon). set_solver.
Qed.

Lemma search_inv_init : search_inv (newCycleInfo (Order g)) [].
Proof.
  unfold newCycleInfo. split; [apply length_replicate| |];
    intros v n Hv; apply lookup_replicate in Hv as [-> _]; done.
Qed.
End search.

(** When the search finds no cycle there is none, also in a graph whose edges lead out
    of it: the search follows every edge. *)
Lemma IsAcyclic_sound g c :
  IsAcyclic g = Done (true, c) → ∀ j, j < Order g → reaches_fin g j.
Proof. apply IsAcyclic_from_sound; [done|apply search_inv_init|lia]. Qed.

(** ** The search ends on every graph *)

(** A call that ends, and leaves no more nodes to visit than it found. *)
Definition ends (info : cycleInfo) (r : run (list nat * cycleInfo)) : Prop :=
  match r with
  | OutOfFuel => False
  | IndexPanic => True
  | Done (_, info') => unvisited info' <= unvisited info
  end.

Lemma unvisited_clear u info : unvisited (alter clearOnStack u info) = unvisited info.
Proof.
  revert u; induction info as [|n info IH]; intros [|u]; try done.
  change (alter clearOnStack (S u) (n :: info)) with (n :: alter clearOnStack u info).
  cbn [unvisited]. by rewrite IH.
Qed.

Lemma visitEdges_ends fuel rec path es info :
  (∀ v info, unvisited info < fuel → ends info (rec v info)) →
  unvisited info < fuel → ends info (visitEdges rec path es info).
Proof.
  intros Hrec. revert info; induction es as [|v es IH]; intros info Hf; simpl; [done|].
  destruct (info !! v) as [nv|]; [|done]. destruct (Visited nv); simpl.
  - destruct (OnStack nv); simpl; [lia|auto].
  - specialize (Hrec v info Hf). destruct (rec v info) as [[[|x c] info']| |]; simpl in *; try done.
    specialize (IH info' ltac:(lia)).
    destruct (visitEdges _ _ _ _) as [[c' info'']| |]; simpl in *; [lia|done..].
Qed.

Lemma isAcyclic_ends fuel g u info path :
  unvisited info < fuel → ends info (isAcyclic fuel g u info path).
Proof.
  revert u info path; induction fuel as [|fuel IH]; intros u info path Hf; [lia|]. simpl.
  destruct (info !! u) as [nu|] eqn:Hu; [|done].
  destruct (Visited nu) eqn:Hv; [by simpl|]. destruct (EdgesFrom g u) as [es|]; [|done].
  pose proof (unvisited_mark info u nu Hu Hv).
  pose proof (visitEdges_ends fuel (λ v i, isAcyclic fuel g v i (path ++ [u])) (path ++ [u]) es
                (<[u:=mkCycleNode true true]> info)) as He.
  specialize (He (λ v i Hi, IH v i _ Hi) ltac:(lia)).
  destruct (visitEdges _ _ _ _) as [[[|x c] info']| |]; simpl in *;
    try rewrite unvisited_clear; lia || done.
Qed.

Lemma IsAcyclic_ends g : IsAcyclic g ≠ OutOfFuel.
Proof.
  unfold IsAcyclic.
  assert (∀ k i info, unvisited info <= Order g → IsAcyclic_from g k i info ≠ OutOfFuel) as H.
  { induction k as [|k IH]; intros i info Hi; [done|].
    assert (unvisited (Reset info) = unvisited info) as Hr.
    { clear. induction info as [|n info IH]; simpl; [done|]. by rewrite IH. }
    pose proof (isAcyclic_ends (S (Order g)) g i (Reset info) [] ltac:(lia)) as He.
    unfold IsAcyclic_from; fold IsAcyclic_from.
    destruct (isAcyclic _ _ _ _ _) as [[[|x c] info']| |]; simpl in He; try done.
    apply IH. lia. }
  apply H. pose proof (unvisited_bound (newCycleInfo (Order g))) as Hb.
  unfold newCycleInfo in *. by rewrite length_replicate in Hb.
Qed.

(** ** The search only looks at the edges *)

Lemma visitEdges_ext rec rec' path es info :
  (∀ v i, rec v i = rec' v i) → visitEdges rec path es info = visitEdges rec' path es info.
Proof.
  intros H. revert info; induction es as [|v es IH]; intros info; simpl; [done|].
  destruct (info !! v) as [nv|]; [|done]. rewrite H. destruct (negb (Visited nv)).
  - destruct (rec' v info) as [[[|x c] info']| |]; auto.
  - destruct (OnStack nv); auto.
Qed.

Lemma isAcyclic_ext g g' fuel u info path :
  (∀ u, EdgesFrom g' u = EdgesFrom g u) →
  isAcyclic fuel g' u info path = isAcyclic fuel g u info path.
Proof.
  intros H. revert u info path; induction fuel as [|fuel IH]; intros u info path; simpl; [done|].
  destruct (info !! u) as [nu|]; [|done]. destruct (Visited nu); [done|]. rewrite H.
  destruct (EdgesFrom g u) as [es|]; [|done].
  by rewrite (visitEdges_ext _ (λ v i, isAcyclic fuel g v i (path ++ [u]))).
Qed.

Lemma IsAcyclic_ext g g' :
  Order g' = Order g → (∀ u, EdgesFrom g' u = EdgesFrom g u) → IsAcyclic g' = IsAcyclic g.
Proof.
  intros Ho He. unfold IsAcyclic. rewrite Ho.
  assert (∀ k i info, IsAcyclic_from g' k i info = IsAcyclic_from g k i info) as H; [|apply H].
  induction k as [|k IH]; intros i info; [done|]. cbn [IsAcyclic_from]. rewrite Ho, (isAcyclic_ext g g') by done.
  destruct (isAcyclic _ _ _ _ _) as [[[|x c] info']| |]; auto.
Qed.

(** The search always ends, with an answer that is right in both cases. *)
Lemma IsAcyclic_total g : wf_graph g →
  ∃ b c, IsAcyclic g = Done (b, c) ∧
         if b then c = [] ∧ ∀ j, j < Order g → reaches_fin g j
         else closed_walk g c.
Proof.
  intros Hwf. apply IsAcyclic_from_ok; auto using search_inv_init. lia.
Qed.

Lemma reaches_fin_acyclic g :
  (∀ j, j < Order g → reaches_fin g j) → acyclic g.
Proof. intros H u Hu. by apply Acc_no_cycle, H. Qed.

(** C11: on every graph whose edges stay in range, [IsAcyclic] returns (it
    neither runs out of its recursion bound nor panics on an index); it returns
    [true] with no cycle when the graph is acyclic, and otherwise [false]
    together with a closed walk along edges of the graph. *)
Theorem IsAcyclic_correct g : wf_graph g →
  (acyclic g ∧ IsAcyclic g = Done (true, [])) ∨
  (¬ acyclic g ∧ ∃ c, IsAcyclic g = Done (false, c) ∧ closed_walk g c).
Proof.
  intros Hwf. destruct (IsAcyclic_total g Hwf) as ([|] & c & Hr & Hb); [left|right].
  - destruct Hb as [-> Hb]. split; [by apply reaches_fin_acyclic|done].
  - eauto using closed_walk_not_acyclic.
Qed.

(** The three-node graph [1 -> 2 -> 1] reached from [0], as in the tests. *)
Definition example_graph : Graph :=
  mkGraph 3 (λ u, nth_error [[1]; [2]; [1]] u).

Lemma IsAcyclic_correct_witness :
  wf_graph example_graph ∧
  ((acyclic example_graph ∧ IsAcyclic example_graph = Done (true, [])) ∨
   (¬ acyclic example_graph ∧
    ∃ c, IsAcyclic example_graph = Done (false, c) ∧ closed_walk example_graph c)).
Proof.
  assert (H : wf_graph example_graph) by (apply wf_graphb_sound; reflexivity).
  split; [exact H|]. apply (IsAcyclic_correct example_graph H).
Defined.

Example IsAcyclic_example : IsAcyclic example_graph = Done (false, [1; 2; 1]).
Proof. reflexivity. Qed.
