(* ===== verification/GoLib.v ===== *)
(** * The parts of Go's string packages that dig uses

    Strings are byte strings.  [strings.Split], [Join], [Index], [LastIndex] and
    [ContainsRune] at the one-byte separators the sources use, plus
    [strconv.ParseBool], [strconv.Quote] (the verb [%q]) and
    [url.QueryUnescape].  Bytes from 128 up are taken to belong to printable
    runes, which [Quote] leaves alone. *)

From S2P Require Import Prelude.

Open Scope string_scope.
Open Scope list_scope.

#[export] Instance ascii_eq_decision : EqDecision ascii := ascii_dec.

(** ** package strings *)

(** [strings.Split(s, sep)] for a one-byte separator: never empty. *)
Fixpoint Split (sep : ascii) (s : string) : list string :=
  match s with
  | EmptyString => [""]
  | String c s' =>
      if decide (c = sep) then "" :: Split sep s'
      else match Split sep s' with
           | [] => [String c ""]
           | w :: ws => String c w :: ws
           end
  end.

Fixpoint Join (sep : string) (ws : list string) : string :=
  match ws with
  | [] => ""
  | [w] => w
  | w :: ws' => w +:+ sep +:+ Join sep ws'
  end.

Fixpoint ContainsRune (s : string) (r : ascii) : bool :=
  match s with
  | EmptyString => false
  | String c s' => if decide (c = r) then true else ContainsRune s' r
  end.

(** Index of the first occurrence of a byte. *)
Fixpoint IndexByte (s : string) (b : ascii) : option nat :=
  match s with
  | EmptyString => None
  | String c s' => if decide (c = b) then Some 0 else S <$> IndexByte s' b
  end.

(** Index of the last occurrence of a byte. *)
Fixpoint LastIndexByte (s : string) (b : ascii) : option nat :=
  match s with
  | EmptyString => None
  | String c s' =>
      match LastIndexByte s' b with
      | Some i => Some (S i)
      | None => if decide (c = b) then Some 0 else None
      end
  end.

Fixpoint HasPrefix (s p : string) : bool :=
  match p, s with
  | EmptyString, _ => true
  | String a p', String b s' => if decide (a = b) then HasPrefix s' p' else false
  | String _ _, EmptyString => false
  end.

(** [strings.Index(s, p)]: the first position at which [p] occurs. *)
Fixpoint Index (s p : string) : option nat :=
  if HasPrefix s p then Some 0
  else match s with
       | EmptyString => None
       | String _ s' => S <$> Index s' p
       end.

(** The slices [s[:i]] and [s[i:]]. *)
Fixpoint take_str (i : nat) (s : string) : string :=
  match i, s with
  | S i', String c s' => String c (take_str i' s')
  | _, _ => ""
  end.

Fixpoint drop_str (i : nat) (s : string) : string :=
  match i, s with
  | S i', String _ s' => drop_str i' s'
  | _, _ => s
  end.

(** ** package strconv *)

(** [strconv.ParseBool]; [None] is its [ErrSyntax]. *)
Definition ParseBool (s : string) : option bool :=
  if bool_decide (s ∈ ["1"; "t"; "T"; "TRUE"; "true"; "True"]) then Some true
  else if bool_decide (s ∈ ["0"; "f"; "F"; "FALSE"; "false"; "False"]) then Some false
  else None.

Definition hexDigit (n : nat) : ascii :=
  if Nat.ltb n 10 then ascii_of_nat (48 + n) else ascii_of_nat (87 + n).

Definition backslash : ascii := "092".
Definition dquote : ascii := "034".

(** One byte inside a quoted string. *)
Definition quoteByte (c : ascii) : string :=
  let n := nat_of_ascii c in
  if decide (c = backslash) then String backslash (String backslash "")
  else if decide (c = dquote) then String backslash (String dquote "")
  else match n with
       | 7 => String backslash "a"
       | 8 => String backslash "b"
       | 9 => String backslash "t"
       | 10 => String backslash "n"
       | 11 => String backslash "v"
       | 12 => String backslash "f"
       | 13 => String backslash "r"
       | _ => if Nat.ltb n 32 || Nat.eqb n 127 then
                String backslash (String "x" (String (hexDigit (n / 16))
                  (String (hexDigit (n mod 16)) "")))
              else String c ""
       end.

Fixpoint quoteBody (s : string) : string :=
  match s with
  | EmptyString => ""
  | String c s' => quoteByte c +:+ quoteBody s'
  end.

Definition Quote (s : string) : string :=
  String dquote (quoteBody s +:+ String dquote "").

(** Decimal rendering of an index, the verb [%d]. *)
Definition Itoa (n : nat) : string := pretty n.

(** ** package net/url *)

Definition unhex (c : ascii) : option nat :=
  let n := nat_of_ascii c in
  if Nat.leb 48 n && Nat.leb n 57 then Some (n - 48)
  else if Nat.leb 97 n && Nat.leb n 102 then Some (n - 87)
  else if Nat.leb 65 n && Nat.leb n 70 then Some (n - 55)
  else None.

(** [url.QueryUnescape]: ["+"] is a space, ["%XY"] a byte; [None] is an
    [EscapeError]. *)
Fixpoint QueryUnescape (s : string) : option string :=
  match s with
  | EmptyString => Some ""
  | String c s' =>
      if decide (c = "%"%char) then
        match s' with
        | String a (String b s'') =>
            x ← unhex a; y ← unhex b;
            String (ascii_of_nat (16 * x + y)) <$> QueryUnescape s''
        | _ => None
        end
      else if decide (c = "+"%char) then String " " <$> QueryUnescape s'
      else String c <$> QueryUnescape s'
  end.

(** ** Facts used by the components *)

Lemma str_app_cons c a b : String c a +:+ b = String c (a +:+ b).
Proof. done. Qed.

Lemma str_app_assoc a b c : (a +:+ b) +:+ c = a +:+ (b +:+ c).
Proof. induction a as [|x a IH]; [done|]. by rewrite !str_app_cons, IH. Qed.

Lemma Split_nonempty sep s : Split sep s ≠ [].
Proof.
  destruct s as [|c s]; simpl; [done|]. case_decide; [done|]. by destruct (Split sep s).
Qed.

(** A string with no separator is a single component. *)
Lemma Split_no_sep sep s : ContainsRune s sep = false → Split sep s = [s].
Proof.
  induction s as [|c s IH]; simpl; [done|]. case_decide; [done|].
  intros Hs. by rewrite IH.
Qed.

Lemma Split_app sep s s' :
  ContainsRune s sep = false → Split sep (s +:+ String sep s') = s :: Split sep s'.
Proof.
  induction s as [|c s IH]; simpl.
  - by rewrite decide_True.
  - case_decide; [done|]. intros Hs. by rewrite IH.
Qed.

(** Splitting undoes joining when no component holds the separator. *)
Lemma Split_Join sep w ws :
  Forall (λ v, ContainsRune v sep = false) (w :: ws) →
  Split sep (Join (String sep "") (w :: ws)) = w :: ws.
Proof.
  revert w; induction ws as [|v ws IH]; intros w; rewrite Forall_cons; intros [Hw Hws].
  - by apply Split_no_sep.
  - change (Join (String sep "") (w :: v :: ws))
      with (w +:+ String sep (Join (String sep "") (v :: ws))).
    rewrite Split_app by done. f_equal. by apply IH.
Qed.

(** Joining undoes splitting. *)
Lemma Join_Split sep s : Join (String sep "") (Split sep s) = s.
Proof.
  induction s as [|c s IH]; simpl; [done|]. case_decide as Hc; subst.
  - destruct (Split sep s) as [|w ws] eqn:Hs; [by apply Split_nonempty in Hs|].
    simpl in *. by rewrite IH.
  - destruct (Split sep s) as [|w ws] eqn:Hs; [by apply Split_nonempty in Hs|].
    rewrite <- IH. by destruct ws.
Qed.

Lemma Split_components sep s :
  Forall (λ w, ContainsRune w sep = false) (Split sep s).
Proof.
  induction s as [|c s IH]; simpl; [by repeat constructor|].
  case_decide; [by constructor|].
  destruct (Split sep s) as [|w ws]; [by repeat constructor; simpl; rewrite decide_False|].
  inversion IH; subst. constructor; [|done]. simpl. by rewrite decide_False.
Qed.

Lemma take_drop_str i s : take_str i s +:+ drop_str i s = s.
Proof.
  revert s; induction i as [|i IH]; intros [|c s]; simpl; try done.
  by rewrite str_app_cons, IH.
Qed.

Lemma IndexByte_Some s b i : IndexByte s b = Some i →
  s = take_str i s +:+ String b (drop_str (S i) s) ∧
  ContainsRune (take_str i s) b = false.
Proof.
  revert i; induction s as [|c s IH]; intros i; simpl; [done|].
  case_decide as Hc; [intros [= <-]; by subst|].
  intros (j & Hj & ->)%fmap_Some. destruct (IH j Hj) as [Hs Hn]. simpl.
  rewrite decide_False by done. split; [|done].
  rewrite str_app_cons. f_equal. exact Hs.
Qed.

Lemma IndexByte_None s b : IndexByte s b = None ↔ ContainsRune s b = false.
Proof.
  induction s as [|c s IH]; simpl; [done|]. case_decide; [done|].
  rewrite fmap_None. done.
Qed.

Lemma LastIndexByte_Some s b i : LastIndexByte s b = Some i →
  s = take_str i s +:+ String b (drop_str (S i) s) ∧
  ContainsRune (drop_str (S i) s) b = false.
Proof.
  revert i; induction s as [|c s IH]; intros i; simpl; [done|].
  destruct (LastIndexByte s b) as [j|] eqn:Hj.
  - intros [= <-]. destruct (IH j eq_refl) as [Hs Hn]. simpl. split; [|done].
    rewrite str_app_cons. f_equal. exact Hs.
  - case_decide as Hc; [|done]. intros [= <-]. subst. simpl. split; [done|].
    clear IH. induction s as [|d s IH]; simpl in *; [done|].
    destruct (LastIndexByte s b); [done|]. case_decide; [done|]. by apply IH.
Qed.
