(* ===== verification/GoTypes.v ===== *)
(** * Go types as package reflect shows them, and the container's keys

    A [reflect.Type] is either a type declared by the program, known by its
    identity, or a pointer, slice or array type built from another one.  What
    the declared types are (their fields, methods, ...) is the type table of
    the Go program that uses dig: an input of every function below, the class
    [TypeTable].  The table also carries the one well-formedness rule of the
    language that dig's recursions rely on: no struct contains itself by value. *)

From S2P Require Import Prelude GoLib.

Inductive kind :=
| Ptr | Slice | Array | Interface | Struct | FuncKind | Map | Chan | Basic.

#[export] Instance kind_eq_dec : EqDecision kind.
Proof. solve_decision. Defined.

(** The value of type [reflect.Type]. *)
Inductive rtype :=
| TDef (id : positive)
| TPtr (t : rtype)
| TSlice (t : rtype)
| TArray (len : nat) (t : rtype).

#[export] Instance rtype_eq_dec : EqDecision rtype.
Proof. solve_decision. Defined.

Fixpoint rtype_tree (t : rtype) : gen_tree positive :=
  match t with
  | TDef p => GenLeaf p
  | TPtr t => GenNode 0 [rtype_tree t]
  | TSlice t => GenNode 1 [rtype_tree t]
  | TArray n t => GenNode (2 + n) [rtype_tree t]
  end.

Fixpoint rtype_of_tree (g : gen_tree positive) : option rtype :=
  match g with
  | GenLeaf p => Some (TDef p)
  | GenNode 0 [g] => TPtr <$> rtype_of_tree g
  | GenNode 1 [g] => TSlice <$> rtype_of_tree g
  | GenNode (S (S n)) [g] => TArray n <$> rtype_of_tree g
  | _ => None
  end.

#[export] Program Instance rtype_countable : Countable rtype :=
  inj_countable rtype_tree rtype_of_tree _.
Next Obligation. induction x as [p|t IH|t IH|n t IH]; simpl; [done|..]; by rewrite IH. Qed.

(** [reflect.StructField]; a tag is the list of its key/value pairs. *)
Record structField := mkField {
  f_Name : string;
  f_PkgPath : string;
  f_Type : rtype;
  f_Tag : list (string * string);
  f_Anonymous : bool
}.

(** [StructTag.Get]: the empty string when the key is absent. *)
Fixpoint TagGet (tag : list (string * string)) (k : string) : string :=
  match tag with
  | [] => ""
  | (k', v) :: tag' => if decide (k' = k) then v else TagGet tag' k
  end.

Inductive underlying :=
| UBasic
| UMap (k v : rtype)
| UChan (t : rtype)
| UPtr (t : rtype)
| USlice (t : rtype)
| UArray (len : nat) (t : rtype)
| UStruct (fields : list structField)
| UInterface
| UFunc (ins outs : list rtype) (variadic : bool).

(** A declared type: how it prints, what it is, its method set and the method
    set of the pointer to it (methods by name and signature). *)
Record typeDesc := mkDesc {
  td_string : string;
  td_under : underlying;
  td_methods : list string;
  td_ptr_methods : list string
}.

(** ** The types declared by dig itself (inout.go) and the type [error] *)

Definition _inType : rtype := TDef 1.
Definition _outType : rtype := TDef 2.
Definition _errType : rtype := TDef 3.
Definition digSentinel : rtype := TDef 4.
Definition reflectRtype : rtype := TDef 5.
Definition _inPtrType : rtype := TPtr _inType.
Definition _outPtrType : rtype := TPtr _outType.

Definition sentinelField : structField :=
  mkField "_" "go.uber.org/dig" digSentinel [] false.

Definition declDesc (d : positive → typeDesc) (p : positive) : typeDesc :=
  match p with
  | 1%positive => mkDesc "dig.In" (UStruct [sentinelField]) [] []
  | 2%positive => mkDesc "dig.Out" (UStruct [sentinelField]) [] []
  | 3%positive => mkDesc "error" UInterface ["Error() string"] []
  | 4%positive => mkDesc "dig.digSentinel" (UStruct []) [] []
  | 5%positive => mkDesc "reflect.rtype" (UStruct []) [] []
  | _ => d p
  end.

(** The structure of a type over a table of declared types. *)
Definition under (d : positive → typeDesc) (t : rtype) : underlying :=
  match t with
  | TDef p => td_under (declDesc d p)
  | TPtr t => UPtr t
  | TSlice t => USlice t
  | TArray n t => UArray n t
  end.

Definition kind_of (u : underlying) : kind :=
  match u with
  | UBasic => Basic | UMap _ _ => Map | UChan _ => Chan | UPtr _ => Ptr
  | USlice _ => Slice | UArray _ _ => Array | UStruct _ => Struct
  | UInterface => Interface | UFunc _ _ _ => FuncKind
  end.

Definition fields_of (u : underlying) : list structField :=
  match u with UStruct fs => fs | _ => [] end.

(** The type table of a Go program.  [tt_rank_field] is the rule that a struct
    does not contain itself through fields of struct type. *)
Class TypeTable := {
  tt_decl : positive → typeDesc;
  tt_rank : rtype → nat;
  tt_rank_field : ∀ t f,
    f ∈ fields_of (under tt_decl t) →
    kind_of (under tt_decl (f_Type f)) = Struct →
    tt_rank (f_Type f) < tt_rank t
}.

Section reflect.
Context `{TT : TypeTable}.

Definition Kind (t : rtype) : kind := kind_of (under tt_decl t).

(** [t.NumField()] and [t.Field(i)], as the list of fields. *)
Definition Fields (t : rtype) : list structField := fields_of (under tt_decl t).

(** [t.Elem()]; [None] is its panic on a kind that has no element. *)
Definition Elem (t : rtype) : option rtype :=
  match under tt_decl t with
  | UPtr t | USlice t | UArray _ t | UChan t | UMap _ t => Some t
  | _ => None
  end.

(** [t.Len()] of an array type. *)
Definition ArrayLen (t : rtype) : option nat :=
  match under tt_decl t with UArray n _ => Some n | _ => None end.

(** [NumIn/In], [NumOut/Out] and [IsVariadic]; [None] is their panic on a type
    that is not a function. *)
Definition FuncSig (t : rtype) : option (list rtype * list rtype * bool) :=
  match under tt_decl t with UFunc i o v => Some (i, o, v) | _ => None end.

Fixpoint TypeString (t : rtype) : string :=
  match t with
  | TDef p => td_string (declDesc tt_decl p)
  | TPtr t => "*" +:+ TypeString t
  | TSlice t => "[]" +:+ TypeString t
  | TArray n t => "[" +:+ Itoa n +:+ "]" +:+ TypeString t
  end.

Definition methodSet (t : rtype) : list string :=
  match t with
  | TDef p => td_methods (declDesc tt_decl p)
  | TPtr (TDef p) =>
      match td_under (declDesc tt_decl p) with
      | UInterface | UPtr _ => []
      | _ => td_ptr_methods (declDesc tt_decl p)
      end
  | _ => []
  end.

(** [t.Implements(u)] for an interface type [u]. *)
Definition Implements (t u : rtype) : bool :=
  forallb (λ m, bool_decide (m ∈ methodSet t)) (methodSet u).

(** The error interface of inout.go. *)
Definition isError (t : rtype) : bool := Implements t _errType.

Lemma Fields_Struct t f : f ∈ Fields t → Kind t = Struct.
Proof.
  unfold Fields, Kind. destruct (under tt_decl t); simpl; try done;
    by rewrite elem_of_nil.
Qed.

Lemma rank_Fields t f :
  f ∈ Fields t → Kind (f_Type f) = Struct → tt_rank (f_Type f) < tt_rank t.
Proof. apply tt_rank_field. Qed.
End reflect.

(** ** Interface values

    An argument of type [interface{}]: nil, a [reflect.Type], a function, or any
    other value with its dynamic type and its rendering under [%v].  A function
    value has a code pointer, shared by all closures of one function literal,
    and an identity of its own. *)
Record funcval := mkFuncval { fv_type : rtype; fv_ptr : positive; fv_id : positive }.

#[export] Instance funcval_eq_dec : EqDecision funcval.
Proof. solve_decision. Defined.

Inductive iface :=
| INil
| IType (t : rtype)
| IFunc (f : funcval)
| IOther (t : rtype) (repr : string).

(** [reflect.TypeOf]; [None] is nil. *)
Definition TypeOf (i : iface) : option rtype :=
  match i with
  | INil => None
  | IType _ => Some (TPtr reflectRtype)
  | IFunc f => Some (fv_type f)
  | IOther t _ => Some t
  end.

(** ** Keys (container.go) *)

(** Unique identification of an object in the graph. *)
Record key := mkKey { k_t : rtype; k_name : string; k_group : string }.

#[export] Instance key_eq_dec : EqDecision key.
Proof. solve_decision. Defined.

#[export] Program Instance key_countable : Countable key :=
  inj_countable' (λ k, (k_t k, k_name k, k_group k))
                 (λ p, mkKey p.1.1 p.1.2 p.2) _.
Next Obligation. by intros []. Qed.

Definition valueKey (name : string) (t : rtype) : key := mkKey t name "".
Definition groupKey (group : string) (t : rtype) : key := mkKey t "" group.

Definition key_String `{TypeTable} (k : key) : string :=
  if bool_decide (k_name k ≠ "") then
    TypeString (k_t k) +:+ "[name=" +:+ Quote (k_name k) +:+ "]"
  else if bool_decide (k_group k ≠ "") then
    TypeString (k_t k) +:+ "[group=" +:+ Quote (k_group k) +:+ "]"
  else TypeString (k_t k).

(** ** Finite tables

    A table listed by declaration order, in which fields of struct type refer
    to earlier declarations: every Go program has such an order. *)

Definition emptyDesc : typeDesc := mkDesc "struct {}" UBasic [] [].

Fixpoint lookup_desc (l : list (positive * typeDesc)) (p : positive) : typeDesc :=
  match l with
  | [] => emptyDesc
  | (q, d) :: l' => if decide (q = p) then d else lookup_desc l' p
  end.

Definition type_rank (t : rtype) : nat :=
  match t with TDef p => match p with 4%positive => 0 | _ => Pos.to_nat p end | _ => 0 end.

Definition field_ranked (d : positive → typeDesc) (t : rtype) (f : structField) : bool :=
  match kind_of (under d (f_Type f)) with
  | Struct => bool_decide (type_rank (f_Type f) < type_rank t)
  | _ => true
  end.

Definition table_ok (l : list (positive * typeDesc)) : bool :=
  forallb (λ pd, forallb (field_ranked (lookup_desc l) (TDef pd.1))
                         (fields_of (td_under pd.2))) l.

Lemma lookup_desc_in l p f :
  f ∈ fields_of (td_under (lookup_desc l p)) →
  ∃ d, (p, d) ∈ l ∧ f ∈ fields_of (td_under d).
Proof.
  induction l as [|[q d] l IH]; simpl; [by rewrite elem_of_nil|].
  case_decide as Hq; subst; [set_solver|]. intros (d' & ? & ?)%IH. set_solver.
Qed.

Program Definition mkTable (l : list (positive * typeDesc)) (Hl : table_ok l = true)
    : TypeTable := {| tt_decl := lookup_desc l; tt_rank := type_rank |}.
Next Obligation.
  intros l Hl t f Hf Hk.
  assert (Hr : field_ranked (lookup_desc l) t f = true →
               type_rank (f_Type f) < type_rank t).
  { unfold field_ranked. rewrite Hk. by apply bool_decide_eq_true_1. }
  destruct t as [p| | |]; simpl in Hf; try by (apply elem_of_nil in Hf).
  assert (Hdecl : p ∈ [1; 2; 3; 4; 5]%positive ∨
                  declDesc (lookup_desc l) p = lookup_desc l p).
  { destruct p as [[p|[p|p|]|]|[p|[p|p|]|]|]; first [by right|left; set_solver]. }
  destruct Hdecl as [Hp|Hp].
  - repeat (apply elem_of_cons in Hp as [->|Hp]; [simpl in Hf;
      repeat (apply elem_of_cons in Hf as [->|Hf]; [by vm_compute; lia|]);
      by apply elem_of_nil in Hf|]). by apply elem_of_nil in Hp.
  - rewrite Hp in Hf. destruct (lookup_desc_in l p f Hf) as (d & Hin & Hfd).
    apply Hr. unfold table_ok in Hl. rewrite forallb_forall in Hl.
    specialize (Hl (p, d) (proj1 (list_elem_of_In _ _) Hin)). simpl in Hl.
    rewrite forallb_forall in Hl. by apply Hl, list_elem_of_In.
Qed.
