(* ===== verification/DigReflect.v ===== *)
(** * Function locations: package [internal/digreflect] (func.go)

    [splitFuncName] cuts the linker name of a function into its import path and
    its name; [Func] is the record the error messages and the DOT graph show.
    What the Go runtime knows about a program counter is a parameter. *)

From S2P Require Import Prelude GoLib.

Open Scope string_scope.
Open Scope list_scope.

Record Func := mkFunc {
  fn_Name : string;
  fn_Package : string;
  fn_File : string;
  fn_Line : nat
}.

#[export] Instance Func_eq_dec : EqDecision Func.
Proof. solve_decision. Defined.

Definition newline : ascii := "010".
Definition tab : ascii := "009".

(** [Func.Format]; [plus] is the flag of [%+v]. *)
Definition Func_Format (plus : bool) (f : Func) : string :=
  if plus then
    Quote (fn_Package f) +:+ "." +:+ fn_Name f +:+
    String newline (String tab (fn_File f +:+ ":" +:+ Itoa (fn_Line f)))
  else
    Quote (fn_Package f) +:+ "." +:+ fn_Name f +:+
    " (" +:+ fn_File f +:+ ":" +:+ Itoa (fn_Line f) +:+ ")".

(** A nil [*Func] under a format verb. *)
Definition OptFunc_Format (plus : bool) (f : option Func) : string :=
  match f with Some f => Func_Format plus f | None => "<nil>" end.

Definition _vendor : string := "/vendor/".

Definition splitFuncName (function : string) : string * string :=
  if bool_decide (function = "") then ("", "")
  else
    let idx := default 0 (LastIndexByte function "/") in
    let idx := match IndexByte (drop_str idx function) "." with
               | Some i => idx + i
               | None => idx
               end in
    let pname := take_str idx function in
    let fname := drop_str (idx + 1) function in
    let pname := match Index pname _vendor with
                 | Some (S i) => drop_str (S i + String.length _vendor) pname
                 | _ => pname
                 end in
    let pname := default pname (QueryUnescape pname) in
    (pname, fname).

(** What the Go runtime reports for a program counter: [runtime.FuncForPC] with
    its [Name] and [FileLine]. *)
Class Runtime := FuncForPC : positive → option (string * string * nat).

Definition InspectFuncPC `{Runtime} (pc : positive) : option Func :=
  match FuncForPC pc with
  | None => None
  | Some (name, fileName, lineNum) =>
      let '(pkgName, funcName) := splitFuncName name in
      Some (mkFunc funcName pkgName fileName lineNum)
  end.

(** ** What the split returns *)

Lemma IndexByte_app s b s' :
  ContainsRune s b = false → IndexByte (s +:+ String b s') b = Some (String.length s).
Proof.
  induction s as [|c s IH]; intros Hs; rewrite ?str_app_cons; simpl in *.
  - by rewrite decide_True.
  - case_decide; [done|]. by rewrite IH.
Qed.

Lemma LastIndexByte_no s b : ContainsRune s b = false → LastIndexByte s b = None.
Proof.
  induction s as [|c s IH]; simpl; [done|]. case_decide; [done|]. intros Hs.
  by rewrite IH.
Qed.

Lemma LastIndexByte_app s b s' :
  ContainsRune s' b = false →
  LastIndexByte (s +:+ String b s') b = Some (String.length s).
Proof.
  intros Hs'. induction s as [|c s IH]; rewrite ?str_app_cons; simpl.
  - change ("" +:+ String b s') with (String b s'). simpl.
    by rewrite LastIndexByte_no, decide_True.
  - by rewrite IH.
Qed.

Lemma take_str_app s s' : take_str (String.length s) (s +:+ s') = s.
Proof.
  induction s as [|c s IH]; rewrite ?str_app_cons; simpl; [by destruct s'|].
  by rewrite IH.
Qed.

Lemma drop_str_app n s s' : drop_str (String.length s + n) (s +:+ s') = drop_str n s'.
Proof. induction s as [|c s IH]; [done|]. by rewrite str_app_cons. Qed.

Lemma ContainsRune_app s s' b :
  ContainsRune (s +:+ s') b = ContainsRune s b || ContainsRune s' b.
Proof.
  induction s as [|c s IH]; rewrite ?str_app_cons; simpl; [done|]. by case_decide.
Qed.

Lemma str_length_app a b : String.length (a +:+ b) = String.length a + String.length b.
Proof. induction a as [|c a IH]; [done|]. rewrite str_app_cons. simpl. by rewrite IH. Qed.

(** A linker name [dir/base.fn], whose last path element [base] has no dot
    and whose function part has no slash (the dots of closures and methods are
    allowed in it), is split into the package [dir/base], freed of its vendor
    prefix and unescaped, and the function name [fn]. *)
Theorem splitFuncName_path dir base fn :
  ContainsRune base "/" = false → ContainsRune base "." = false →
  ContainsRune fn "/" = false →
  let pkg := dir +:+ "/" +:+ base in
  splitFuncName (pkg +:+ "." +:+ fn) =
    (let p := match Index pkg _vendor with
              | Some (S i) => drop_str (S i + String.length _vendor) pkg
              | _ => pkg
              end in default p (QueryUnescape p), fn).
Proof.
  intros Hb1 Hb2 Hf pkg. unfold splitFuncName.
  rewrite bool_decide_eq_false_2 by (unfold pkg; by destruct dir).
  assert (Hl : LastIndexByte (pkg +:+ "." +:+ fn) "/" = Some (String.length dir)).
  { unfold pkg. rewrite str_app_assoc.
    change (("/" +:+ base) +:+ "." +:+ fn) with (String "/" (base +:+ String "." fn)).
    apply LastIndexByte_app. rewrite ContainsRune_app, Hb1. simpl. done. }
  rewrite Hl. cbn [default from_option id].
  assert (Hd : drop_str (String.length dir) (pkg +:+ "." +:+ fn) =
               String "/" base +:+ String "." fn).
  { unfold pkg. rewrite str_app_assoc. rewrite <- (Nat.add_0_r (String.length dir)).
    by rewrite drop_str_app. }
  rewrite Hd, IndexByte_app by (simpl; by rewrite Hb2).
  assert (Hlen : String.length dir + String.length (String "/" base) = String.length pkg).
  { unfold pkg. rewrite str_length_app. done. }
  rewrite Hlen, take_str_app. f_equal. by rewrite drop_str_app.
Qed.

Lemma splitFuncName_path_witness :
  splitFuncName "github.com/me/vendor/go.uber.org/dig.New.func1" =
  ("go.uber.org/dig", "New.func1").
Proof.
  apply (splitFuncName_path "github.com/me/vendor/go.uber.org" "dig" "New.func1");
    reflexivity.
Defined.

Example splitFuncName_git :
  splitFuncName "foo/bar%2egit.MyFunction" = ("foo/bar.git", "MyFunction").
Proof. reflexivity. Qed.
