(* ===== verification/Errors.v ===== *)
(** * Errors (error.go, cycle_error.go, and the error of group.go)

    The error types of the package as one inductive type, next to [PanicError]
    and to errors that come from the user's functions, with [errors.Unwrap],
    [errors.As], [RootCause], the predicates of the public API and the messages
    that [formatError] prints.  [outcome] is what running Go code ends with. *)

From S2P Require Import Prelude GoLib GoTypes DigReflect.

Open Scope string_scope.
Open Scope list_scope.

(** The operations of [reflect] that check assignability; [Append] uses [Set]. *)
Inductive reflectOp := RSet | RCall.

(** A value passed to [panic]: by the user's code, with its rendering under [%q], a
    message of the Go runtime or of [digerror.BugPanicf], or the complaint of
    [reflect] that a value of one type cannot be used as another. *)
Inductive panicval :=
| PUser (id : Z) (quoted : string)
| PRuntime (msg : string)
| PIllTyped (op : reflectOp) (t u : rtype).

(** [missingType] and [cycleErrPathEntry]. *)
Record missingType := mkMissing { mt_Key : key; mt_suggestions : list key }.
Record cycleErrPathEntry := mkEntry { ce_Key : key; ce_Func : option Func }.

Inductive error :=
| UserError (id : Z) (msg : string) (wraps : option error)
| errInvalidInput (Message : string) (Cause : option error)
| errProvide (fn : option Func) (Reason : error)
| errConstructorFailed (fn : option Func) (Reason : error)
| errArgumentsFailed (fn : option Func) (Reason : error)
| errMissingDependencies (fn : option Func) (Reason : error)
| errParamSingleFailed (k : key) (Reason : error) (CtorID : positive)
| errParamGroupFailed (k : key) (Reason : error) (CtorID : positive)
| errMissingTypes (missing : list missingType)
| errCycleDetected (Path : list cycleErrPathEntry) (scope_name : string)
| errInvalidGroupOption (Option : string)
| PanicError (fn : option Func) (Panic : panicval).

Definition newErrInvalidInput (msg : string) (cause : option error) : error :=
  errInvalidInput msg cause.

(** [errors.Unwrap], through the [Unwrap] methods of error.go. *)
Definition Unwrap (e : error) : option error :=
  match e with
  | UserError _ _ w => w
  | errInvalidInput _ c => c
  | errProvide _ r | errConstructorFailed _ r | errArgumentsFailed _ r
  | errMissingDependencies _ r | errParamSingleFailed _ r _
  | errParamGroupFailed _ r _ => Some r
  | errMissingTypes _ | errCycleDetected _ _ | errInvalidGroupOption _
  | PanicError _ _ => None
  end.

(** Which errors implement the interface [Error] of the package. *)
Definition isDigError (e : error) : bool :=
  match e with UserError _ _ _ | PanicError _ _ => false | _ => true end.

Definition isErrMissingDependencies (e : error) : bool :=
  match e with errMissingDependencies _ _ => true | _ => false end.

Definition isErrCycleDetected (e : error) : bool :=
  match e with errCycleDetected _ _ => true | _ => false end.

(** Which errors implement [errVisualizer]. *)
Definition isErrVisualizer (e : error) : bool :=
  match e with
  | errParamSingleFailed _ _ _ | errParamGroupFailed _ _ _ | errMissingTypes _ => true
  | _ => false
  end.

(** The chain of wrapped errors, outermost first. *)
Fixpoint chain_of (e : error) : list error :=
  e :: match e with
       | UserError _ _ (Some r) | errInvalidInput _ (Some r)
       | errProvide _ r | errConstructorFailed _ r | errArgumentsFailed _ r
       | errMissingDependencies _ r | errParamSingleFailed _ r _
       | errParamGroupFailed _ r _ => chain_of r
       | _ => []
       end.

(** [errors.As] for a target described by a predicate: the first match. *)
Fixpoint errorsAs (P : error → bool) (e : error) : option error :=
  if P e then Some e
  else match e with
       | UserError _ _ (Some r) | errInvalidInput _ (Some r)
       | errProvide _ r | errConstructorFailed _ r | errArgumentsFailed _ r
       | errMissingDependencies _ r | errParamSingleFailed _ r _
       | errParamGroupFailed _ r _ => errorsAs P r
       | _ => None
       end.

(** The loop of [RootCause]: [err] is the current error and [de] the last dig
    error found. *)
Fixpoint RootCause_loop (fuel : nat) (err de : option error) : option (option error) :=
  match fuel with
  | O => None
  | S fuel =>
      match err with
      | None => Some de
      | Some e =>
          match errorsAs isDigError e with
          | Some de' => RootCause_loop fuel (Unwrap de') (Some de')
          | None => Some (Some e)
          end
      end
  end.

(** [RootCause]; nil is [None].  The outer option is the recursion bound. *)
Definition RootCause (err : option error) : option (option error) :=
  RootCause_loop (S (match err with Some e => length (chain_of e) | None => 0 end))
                 err None.

Definition IsCycleDetected (err : option error) : bool :=
  match err with Some e => bool_decide (is_Some (errorsAs isErrCycleDetected e)) | None => false end.

Definition CanVisualizeError (err : option error) : bool :=
  match err with
  | Some e => existsb isErrVisualizer (chain_of e)
  | None => false
  end.

(** ** Messages *)

Definition panic_q `{TypeTable} (p : panicval) : string :=
  match p with
  | PUser _ q => q
  | PRuntime m => Quote m
  | PIllTyped RSet t u =>
      Quote ("reflect.Set: value of type " +:+ TypeString t +:+ " is not assignable to type "
             +:+ TypeString u)
  | PIllTyped RCall t u =>
      Quote ("reflect: Call using " +:+ TypeString t +:+ " as type " +:+ TypeString u)
  end.

Section messages.
Context `{TypeTable}.

Fixpoint sug_list (i last : nat) (l : list key) : string :=
  match l with
  | [] => ""
  | sug :: l' =>
      (if Nat.ltb 0 i then ", " +:+ (if Nat.eqb i last then "or " else "") else "") +:+
      key_String sug +:+ sug_list (S i) last l'
  end.

(** [missingType.Format]. *)
Definition missingType_Format (plusV : bool) (mt : missingType) : string :=
  key_String (mt_Key mt) +:+
  match mt_suggestions mt with
  | [] => if plusV then " (did you mean to Provide it?)" else ""
  | [sug] =>
      (if plusV then " (did you mean to use " else " (did you mean ") +:+
      key_String sug +:+ "?)"
  | sugs =>
      (if plusV then " (did you mean to use one of " else " (did you mean ") +:+
      sug_list 0 (length sugs - 1) sugs +:+ "?)"
  end.

(** [errMissingTypes.writeMessage]. *)
Definition missingTypes_message (multiline : bool) (l : list missingType) : string :=
  (if Nat.eqb (length l) 1 then "missing type:" else "missing types:") +:+
  if multiline then
    String.concat "" (map (λ mt, String newline (String tab "- ") +:+
                                 missingType_Format true mt) l)
  else " " +:+ Join "; " (map (missingType_Format false) l).

(** [errCycleDetected.Error]. *)
Definition cycle_message (path : list cycleErrPathEntry) (name : string) : string :=
  (if bool_decide (name ≠ "") then "[scope " +:+ Quote name +:+ "]" +:+ String newline ""
   else "") +:+
  Join (String newline (String tab "depends on "))
    (map (λ en, key_String (ce_Key en) +:+ " provided by " +:+
                OptFunc_Format false (ce_Func en)) path).

(** The [writeMessage] methods; [plus] is true for the verb [%+v]. *)
Definition errInvalidInput_message (msg : string) : string := msg.
Definition errProvide_message (plus : bool) (f : option Func) : string :=
  "cannot provide function " +:+ OptFunc_Format plus f.
Definition errConstructorFailed_message (plus : bool) (f : option Func) : string :=
  "received non-nil error from function " +:+ OptFunc_Format plus f.
Definition errArgumentsFailed_message (plus : bool) (f : option Func) : string :=
  "could not build arguments for function " +:+ OptFunc_Format plus f.
Definition errMissingDependencies_message (plus : bool) (f : option Func) : string :=
  "missing dependencies for function " +:+ OptFunc_Format plus f.
Definition errParamSingleFailed_message (k : key) : string :=
  "failed to build " +:+ key_String k.
Definition errParamGroupFailed_message (k : key) : string :=
  "could not build value group " +:+ key_String k.
Definition errInvalidGroupOption_message (o : string) : string := "invalid option " +:+ Quote o.

Definition writeMessage (plus : bool) (e : error) : string :=
  match e with
  | errInvalidInput msg _ => errInvalidInput_message msg
  | errProvide f _ => errProvide_message plus f
  | errConstructorFailed f _ => errConstructorFailed_message plus f
  | errArgumentsFailed f _ => errArgumentsFailed_message plus f
  | errMissingDependencies f _ => errMissingDependencies_message plus f
  | errParamSingleFailed k _ _ => errParamSingleFailed_message k
  | errParamGroupFailed k _ _ => errParamGroupFailed_message k
  | errMissingTypes l => missingTypes_message plus l
  | errCycleDetected p n => cycle_message p n
  | errInvalidGroupOption o => errInvalidGroupOption_message o
  | UserError _ _ _ | PanicError _ _ => ""
  end.

(** [formatError]: the message, then the wrapped error under the same verb. *)
Fixpoint error_Format (plus : bool) (e : error) : string :=
  let sep := if plus then String ":" (String newline "") else ": " in
  match e with
  | UserError _ msg _ => msg
  | PanicError f p =>
      "panic: " +:+ panic_q p +:+ " in func: " +:+ OptFunc_Format plus f
  | errInvalidInput _ (Some r) | errProvide _ r | errConstructorFailed _ r
  | errArgumentsFailed _ r | errMissingDependencies _ r
  | errParamSingleFailed _ r _ | errParamGroupFailed _ r _ =>
      writeMessage plus e +:+ sep +:+ error_Format plus r
  | _ => writeMessage plus e
  end.
End messages.

(** ** What running Go code ends with *)

(** A result, a returned (non-nil) error, a panic, or the exhaustion of the
    recursion bound of the model. *)
Inductive outcome (A : Type) :=
| Ret (a : A)
| Err (e : error)
| Panic_ (p : panicval)
| NoFuel.
Arguments Ret {A} _.
Arguments Err {A} _.
Arguments Panic_ {A} _.
Arguments NoFuel {A}.

#[export] Instance outcome_ret : MRet outcome := λ A a, Ret a.
#[export] Instance outcome_bind : MBind outcome := λ A B f m,
  match m with
  | Ret a => f a
  | Err e => Err e
  | Panic_ p => Panic_ p
  | NoFuel => NoFuel
  end.

(** [if err != nil { return wrap(err) }]. *)
Definition map_err {A} (f : error → error) (m : outcome A) : outcome A :=
  match m with Err e => Err (f e) | _ => m end.

(** A reflect method that panics on the wrong kind. *)
Definition or_panic {A} (msg : string) (o : option A) : outcome A :=
  match o with Some a => Ret a | None => Panic_ (PRuntime msg) end.

(** Code that ends, and in which no type check of [reflect] fails. *)
Definition calm {A} (o : outcome A) : Prop :=
  match o with NoFuel | Panic_ (PIllTyped _ _ _) => False | _ => True end.
#[export] Hint Extern 0 (calm _) => exact I : core.

Lemma bind_ends {A B} (m : outcome A) (f : A → outcome B) :
  m ≠ NoFuel → (∀ a, m = Ret a → f a ≠ NoFuel) → m ≫= f ≠ NoFuel.
Proof. destruct m; simpl; naive_solver. Qed.

Lemma calm_ends {A} (o : outcome A) (F : Prop) : calm o → o = NoFuel → F.
Proof. by intros H ->. Qed.

Lemma bind_calm {A B} (m : outcome A) (f : A → outcome B) :
  calm m → (∀ a, m = Ret a → calm (f a)) → calm (m ≫= f).
Proof. destruct m; simpl; naive_solver. Qed.

Lemma map_err_calm {A} f (m : outcome A) : calm m → calm (map_err f m).
Proof. by destruct m. Qed.

Lemma or_panic_calm {A} msg (o : option A) : calm (or_panic msg o).
Proof. by destruct o. Qed.

(** ** The chain of wrapped errors *)

Lemma chain_of_Unwrap e :
  chain_of e = e :: match Unwrap e with Some r => chain_of r | None => [] end.
Proof. destruct e as [? ? []|? []| | | | | | | | | |]; done. Qed.

Lemma errorsAs_Unwrap P e :
  errorsAs P e =
  if P e then Some e else match Unwrap e with Some r => errorsAs P r | None => None end.
Proof. destruct e as [? ? []|? []| | | | | | | | | |]; done. Qed.

(** Induction along the chain. *)
Lemma error_chain_ind (Q : error → Prop) :
  (∀ e, match Unwrap e with Some r => Q r | None => True end → Q e) → ∀ e, Q e.
Proof.
  intros H. fix IH 1. intros e. apply H.
  destruct e as [? ? []|? []| | | | | | | | | |]; simpl; try exact I; apply IH.
Qed.

Lemma errorsAs_find P e : errorsAs P e = list_find P (chain_of e) ≫= λ p, Some p.2.
Proof.
  induction e as [e IH] using error_chain_ind.
  rewrite errorsAs_Unwrap, chain_of_Unwrap. simpl.
  destruct (P e); simpl; [done|]. destruct (Unwrap e) as [r|]; [|done]. rewrite IH.
  by destruct (list_find P (chain_of r)) as [[? ?]|].
Qed.

(** ** [RootCause]

    What the loop computes, on the list of wrapped errors: the error right below
    the innermost dig error, or that dig error itself when it ends the chain. *)
Fixpoint root_of (l : list error) : option error :=
  match l with
  | [] => None
  | e :: l' =>
      if existsb isDigError l' then root_of l'
      else if isDigError e then Some (default e (head l'))
      else Some e
  end.

Lemma errorsAs_dig_None e :
  errorsAs isDigError e = None ↔ existsb isDigError (chain_of e) = false.
Proof.
  induction e as [e IH] using error_chain_ind.
  rewrite errorsAs_Unwrap, chain_of_Unwrap. simpl.
  destruct (isDigError e); [done|]. destruct (Unwrap e); done.
Qed.

Lemma errorsAs_dig_Some e d :
  errorsAs isDigError e = Some d →
  isDigError d = true ∧ root_of (chain_of e) = root_of (chain_of d) ∧
  length (chain_of d) <= length (chain_of e).
Proof.
  induction e as [e IH] using error_chain_ind.
  rewrite errorsAs_Unwrap, (chain_of_Unwrap e). simpl.
  destruct (isDigError e) eqn:He.
  - intros [= <-]. rewrite (chain_of_Unwrap e). simpl. by rewrite He.
  - destruct (Unwrap e) as [r|]; [|done]. intros Hr.
    destruct (existsb isDigError (chain_of r)) eqn:Hx.
    + destruct (IH Hr) as (? & ? & ?). split_and!; [done|done|lia].
    + apply errorsAs_dig_None in Hx. congruence.
Qed.

Lemma RootCause_loop_spec fuel e de :
  length (chain_of e) < fuel →
  RootCause_loop fuel (Some e) de = Some (root_of (chain_of e)).
Proof.
  revert e de; induction fuel as [|fuel IH]; intros e de Hf; [lia|]. cbn [RootCause_loop].
  destruct (errorsAs isDigError e) as [d|] eqn:Hd.
  - destruct (errorsAs_dig_Some e d Hd) as (Hdig & -> & Hlen).
    rewrite (chain_of_Unwrap d) in Hlen |- *. simpl in Hlen |- *.
    destruct (Unwrap d) as [r|] eqn:Hr; simpl.
    + rewrite IH by lia. destruct (existsb isDigError (chain_of r)) eqn:Hx; [done|].
      rewrite Hdig. rewrite (chain_of_Unwrap r) in Hx |- *. simpl in Hx |- *.
      apply orb_false_iff in Hx as [-> ->]. done.
    + rewrite Hdig. destruct fuel; [lia|done].
  - apply errorsAs_dig_None in Hd. rewrite chain_of_Unwrap in Hd |- *. simpl in Hd |- *.
    apply orb_false_iff in Hd as [-> ->]. done.
Qed.

Lemma root_of_dig_prefix ds e rest :
  Forall (λ d, isDigError d = true) ds → isDigError e = false →
  Forall (λ d, isDigError d = false) rest →
  root_of (ds ++ e :: rest) = Some e.
Proof.
  intros Hds He Hrest.
  assert (Hr : existsb isDigError rest = false).
  { induction Hrest as [|x l Hx _ IH]; simpl; [done|]. by rewrite Hx. }
  induction Hds as [|d ds Hd Hds IH]; simpl; [by rewrite Hr, He|].
  destruct (existsb isDigError (ds ++ e :: rest)) eqn:Hx; [done|].
  rewrite Hd. destruct ds as [|d' ds]; [done|]. simpl in Hx.
  inversion Hds as [|? ? Hd']. by rewrite Hd' in Hx.
Qed.

Lemma root_of_all_dig l e :
  Forall (λ d, isDigError d = true) (l ++ [e]) → root_of (l ++ [e]) = Some e.
Proof.
  induction l as [|d l IH]; simpl; intros H; inversion H as [|? ? Hd Hl]; subst.
  - by rewrite Hd.
  - rewrite IH by done. destruct (existsb isDigError (l ++ [e])) eqn:Hx; [done|].
    destruct l; simpl in *; inversion Hl as [|? ? Hd']; by rewrite Hd' in Hx.
Qed.

Lemma root_of_some e l : is_Some (root_of (e :: l)).
Proof.
  revert e; induction l as [|e' l IH]; intros e; simpl; [by case_match|].
  case_match; [apply IH|]. case_match; eauto.
Qed.

(** C34: [RootCause] returns an error for every error.  When the errors of the package
    wrap an error of a user function that does not itself wrap one of the package
    again, it returns exactly that user error; when the chain holds nothing but
    errors of the package, it returns the innermost one. *)
Theorem RootCause_correct err :
  (∃ e, RootCause (Some err) = Some (Some e)) ∧
  ∀ ds e rest,
    chain_of err = ds ++ e :: rest → Forall (λ d, isDigError d = true) ds →
    (isDigError e = false ∧ Forall (λ d, isDigError d = false) rest) ∨
    (isDigError e = true ∧ rest = []) →
    RootCause (Some err) = Some (Some e).
Proof.
  unfold RootCause. rewrite RootCause_loop_spec by lia. split.
  - rewrite chain_of_Unwrap. destruct (root_of_some err (match Unwrap err with
      | Some r => chain_of r | None => [] end)) as [e He]. exists e. by rewrite He.
  - intros ds e rest Hc Hds He. rewrite Hc. f_equal. destruct He as [[He Hrest]|[He ->]].
    + by apply root_of_dig_prefix.
    + apply root_of_all_dig. apply Forall_app. auto using Forall_cons, Forall_nil.
Qed.

Lemma RootCause_correct_witness :
  RootCause (Some (errProvide None (errConstructorFailed None (UserError 7 "boom" None))))
  = Some (Some (UserError 7 "boom" None)).
Proof.
  apply (proj2 (RootCause_correct _)
           [errProvide None (errConstructorFailed None (UserError 7 "boom" None));
            errConstructorFailed None (UserError 7 "boom" None)]
           (UserError 7 "boom" None) []); [reflexivity| |].
  - by repeat constructor.
  - left. split; [reflexivity|constructor].
Defined.

(** The documentation of [RootCause] promises the first error of the chain
    that is not an error of the package; when a user function wraps an error of
    the package (from another container, say), the code skips the user's error
    and returns the inner error of the package instead. *)
Theorem RootCause_skips_user_error f id msg inner :
  isDigError inner = true → Unwrap inner = None →
  RootCause (Some (errConstructorFailed f (UserError id msg (Some inner)))) =
  Some (Some inner).
Proof.
  intros Hd Hu. unfold RootCause. rewrite RootCause_loop_spec by lia.
  cbn [chain_of]. rewrite (chain_of_Unwrap inner), Hu. simpl. by rewrite Hd.
Qed.

Lemma RootCause_skips_user_error_witness :
  RootCause (Some (errConstructorFailed None
    (UserError 1 "my: wrapped" (Some (errInvalidGroupOption "x"))))) =
  Some (Some (errInvalidGroupOption "x")).
Proof. apply RootCause_skips_user_error; reflexivity. Defined.
