(* ===== verification/Group.v ===== *)
(** * Value group tags (group.go)

    [parseGroupString] reads the value of a [group:".."] tag or of [dig.Group]:
    a name followed by comma separated options. *)

From S2P Require Import Prelude GoLib GoTypes DigReflect Errors.

Open Scope string_scope.
Open Scope list_scope.

Record group := mkGroup { g_Name : string; g_Flatten : bool; g_Soft : bool }.

Fixpoint parseGroupOptions (g : group) (cs : list string) : outcome group :=
  match cs with
  | [] => Ret g
  | c :: cs' =>
      if decide (c = "flatten") then
        parseGroupOptions (mkGroup (g_Name g) true (g_Soft g)) cs'
      else if decide (c = "soft") then
        parseGroupOptions (mkGroup (g_Name g) (g_Flatten g) true) cs'
      else Err (errInvalidGroupOption c)
  end.

Definition parseGroupString (s : string) : outcome group :=
  let components := Split "," s in
  match components with
  | [] => Panic_ (PRuntime "index out of range")
  | c :: cs => parseGroupOptions (mkGroup c false false) cs
  end.

(** The tag that writes a group. *)
Definition groupTag (g : group) : string :=
  Join "," (g_Name g :: (if g_Flatten g then ["flatten"] else []) ++
                        (if g_Soft g then ["soft"] else [])).

Definition validGroupOption (c : string) : bool :=
  bool_decide (c = "flatten" ∨ c = "soft").

Lemma bool_decide_elem_cons (x y : string) l :
  bool_decide (x ∈ y :: l) = bool_decide (x = y) || bool_decide (x ∈ l).
Proof. repeat case_bool_decide; set_solver. Qed.

Lemma parseGroupOptions_spec cs : ∀ g,
  parseGroupOptions g cs =
  match list_find (λ c, negb (validGroupOption c)) cs with
  | Some (_, c) => Err (errInvalidGroupOption c)
  | None => Ret (mkGroup (g_Name g) (g_Flatten g || bool_decide ("flatten" ∈ cs))
                         (g_Soft g || bool_decide ("soft" ∈ cs)))
  end.
Proof.
  induction cs as [|c cs IH]; intros [n f s].
  { simpl. by rewrite !orb_false_r. }
  cbn [parseGroupOptions list_find].
  destruct (decide (c = "flatten")) as [->|Hf];
    [|destruct (decide (c = "soft")) as [->|Hs]].
  1, 2: rewrite IH, !bool_decide_elem_cons; simpl;
    destruct (list_find (λ c, negb (validGroupOption c)) cs) as [[i c]|]; simpl;
    [done|by rewrite ?orb_true_r].
  assert (validGroupOption c = false) as -> by (apply bool_decide_eq_false_2; naive_solver).
  done.
Qed.

Lemma parseGroupString_calm s : calm (parseGroupString s).
Proof.
  unfold parseGroupString. destruct (Split "," s); [done|].
  rewrite parseGroupOptions_spec. by destruct (list_find _ _) as [[]|].
Qed.

(** [parseGroupString] never panics: it takes everything up to the first
    comma as the name, reports the first component after it that is neither
    [flatten] nor [soft], and otherwise sets exactly the flags that are named. *)
Theorem parseGroupString_spec s :
  ∃ name opts, Split "," s = name :: opts ∧
  parseGroupString s =
  match list_find (λ c, negb (validGroupOption c)) opts with
  | Some (_, c) => Err (errInvalidGroupOption c)
  | None => Ret (mkGroup name (bool_decide ("flatten" ∈ opts))
                              (bool_decide ("soft" ∈ opts)))
  end.
Proof.
  unfold parseGroupString. destruct (Split "," s) as [|name opts] eqn:Hs.
  - by apply Split_nonempty in Hs.
  - exists name, opts. split; [done|]. by rewrite parseGroupOptions_spec.
Qed.

(** C33: parsing undoes printing: the tag written for a group whose name has no
    comma is parsed back to that group. *)
Theorem parseGroupString_roundtrip g :
  ContainsRune (g_Name g) "," = false → parseGroupString (groupTag g) = Ret g.
Proof.
  intros Hn. unfold parseGroupString, groupTag. rewrite Split_Join.
  - destruct g as [n [] []]; reflexivity.
  - constructor; [done|]. destruct g as [n [] []]; by repeat constructor.
Qed.

Lemma parseGroupString_roundtrip_witness :
  parseGroupString "handlers,flatten,soft" = Ret (mkGroup "handlers" true true).
Proof.
  apply (parseGroupString_roundtrip (mkGroup "handlers" true true)); reflexivity.
Defined.
