(* ===== verification/InOut.v ===== *)
(** * Parameter and result structs (inout.go)

    [embedsType] is the breadth-first search for an embedded [dig.In] or
    [dig.Out]; its loop is run on a worklist whose total weight is finite
    because no struct embeds itself.  The main result is that the search decides
    the inductively defined embedding relation. *)

From S2P Require Import Prelude GoLib GoTypes DigReflect Errors.

Open Scope string_scope.
Open Scope list_scope.

(** Struct tags (container.go, group.go). *)
Definition _optionalTag := "optional".
Definition _nameTag := "name".
Definition _ignoreUnexportedTag := "ignore-unexported".
Definition _groupTag := "group".

Section inout.
Context `{TT : TypeTable}.

(** The types of the anonymous fields. *)
Definition embedded (t : rtype) : list rtype :=
  f_Type <$> filter (λ f, f_Anonymous f) (Fields t).

(** The loop over the queue; [None] is the exhaustion of the bound. *)
Fixpoint embedsType_loop (fuel : nat) (types : list rtype) (e : rtype) : option bool :=
  match fuel with
  | O => None
  | S fuel =>
      match types with
      | [] => Some false
      | t :: types =>
          if decide (t = e) then Some true
          else if decide (Kind t ≠ Struct) then embedsType_loop fuel types e
          else embedsType_loop fuel (types ++ embedded t) e
      end
  end.

(** How many types the search visits below one type. *)
Fixpoint embed_weight (n : nat) (t : rtype) : nat :=
  match n with
  | O => 1
  | S n => S (sum_list (embed_weight n <$> embedded t))
  end.

Definition weight (t : rtype) : nat := embed_weight (S (tt_rank t)) t.

(** [embedsType] on a [reflect.Type]. *)
Definition typeEmbeds (t e : rtype) : bool :=
  default false (embedsType_loop (S (weight t)) [t] e).

(** [embedsType]: the argument may also be nil or a value. *)
Definition embedsType (i : iface) (e : rtype) : bool :=
  match i with
  | INil => false
  | IType t => typeEmbeds t e
  | IFunc _ | IOther _ _ =>
      match TypeOf i with Some t => typeEmbeds t e | None => false end
  end.

Definition IsIn (o : iface) : bool := embedsType o _inType.
Definition IsOut (o : iface) : bool := embedsType o _outType.

(** The test [t.Kind() == reflect.Ptr && IsIn(t.Elem())] and its twin. *)
Definition ptrTo (P : iface → bool) (t : rtype) : bool :=
  bool_decide (Kind t = Ptr) &&
  match Elem t with Some t' => P (IType t') | None => false end.

(** The error of [strconv.ParseBool]. *)
Definition parseBoolError (tag : string) : error :=
  UserError (-1) ("strconv.ParseBool: parsing " +:+ Quote tag +:+ ": invalid syntax")
            (Some (UserError (-2) "invalid syntax" None)).

(** The common body of [isFieldOptional] and [isIgnoreUnexportedSet]. *)
Definition boolTag (f : structField) (tagName : string) : bool * option error :=
  let tag := TagGet (f_Tag f) tagName in
  if decide (tag = "") then (false, None)
  else match ParseBool tag with
       | Some b => (b, None)
       | None => (false, Some (newErrInvalidInput
           ("invalid value " +:+ Quote tag +:+ " for " +:+ Quote tagName +:+
            " tag on field " +:+ f_Name f) (Some (parseBoolError tag))))
       end.

Definition isFieldOptional (f : structField) : bool * option error :=
  boolTag f _optionalTag.

Definition isIgnoreUnexportedSet (f : structField) : bool * option error :=
  boolTag f _ignoreUnexportedTag.

(** ** Specification of the search *)

(** [t] is [e] or has an anonymous field whose type embeds [e]. *)
Inductive Embeds (e : rtype) : rtype → Prop :=
| Embeds_here : Embeds e e
| Embeds_field t f :
    f ∈ Fields t → f_Anonymous f = true → Embeds e (f_Type f) → Embeds e t.

Lemma elem_of_embedded t t' :
  t' ∈ embedded t ↔ ∃ f, f ∈ Fields t ∧ f_Anonymous f = true ∧ t' = f_Type f.
Proof.
  unfold embedded. rewrite list_elem_of_fmap. split.
  - intros (f & -> & [? ?]%list_elem_of_filter). exists f. by rewrite <- Is_true_true.
  - intros (f & ? & ? & ->). exists f. rewrite list_elem_of_filter.
    by rewrite Is_true_true.
Qed.

Lemma embedded_not_struct t : Kind t ≠ Struct → embedded t = [].
Proof.
  intros Hk. destruct (embedded t) as [|t' l] eqn:He; [done|].
  assert (t' ∈ embedded t) as (f & Hf & _)%elem_of_embedded by (rewrite He; set_solver).
  by apply Fields_Struct in Hf.
Qed.

Lemma embed_weight_not_struct n t : Kind t ≠ Struct → embed_weight n t = 1.
Proof. intros Hk. destruct n; simpl; by rewrite ?embedded_not_struct. Qed.

Lemma embed_weight_stable n : ∀ m t,
  tt_rank t < n → tt_rank t < m → embed_weight n t = embed_weight m t.
Proof.
  induction n as [|n IH]; intros [|m] t Hn Hm; [lia..|]. simpl. f_equal. f_equal.
  apply list_fmap_ext. intros i t' Hi.
  assert (t' ∈ embedded t) as (f & Hf & _ & ->)%elem_of_embedded
    by (by eapply list_elem_of_lookup_2).
  destruct (decide (Kind (f_Type f) = Struct)) as [Hk|Hk].
  - pose proof (rank_Fields t f Hf Hk). apply IH; lia.
  - by rewrite !embed_weight_not_struct.
Qed.

Lemma weight_unfold t : weight t = S (sum_list (weight <$> embedded t)).
Proof.
  unfold weight at 1. simpl. f_equal. f_equal. apply list_fmap_ext. intros i t' Hi.
  assert (t' ∈ embedded t) as (f & Hf & _ & ->)%elem_of_embedded
    by (by eapply list_elem_of_lookup_2).
  unfold weight. destruct (decide (Kind (f_Type f) = Struct)) as [Hk|Hk].
  - pose proof (rank_Fields t f Hf Hk). apply embed_weight_stable; lia.
  - by rewrite !embed_weight_not_struct.
Qed.

Lemma Embeds_unfold e t : Embeds e t ↔ t = e ∨ Exists (Embeds e) (embedded t).
Proof.
  rewrite Exists_exists. split.
  - destruct 1 as [|t f Hf Ha He]; [by left|]. right. exists (f_Type f).
    rewrite elem_of_embedded. eauto.
  - intros [->|(t' & (f & ? & ? & ->)%elem_of_embedded & ?)]; econstructor; eauto.
Qed.

Lemma embedsType_loop_spec e fuel : ∀ types,
  sum_list (weight <$> types) < fuel →
  ∃ b, embedsType_loop fuel types e = Some b ∧ (b = true ↔ Exists (Embeds e) types).
Proof.
  induction fuel as [|fuel IH]; intros types Hf; [lia|]. simpl.
  destruct types as [|t types]; [exists false; by rewrite Exists_nil|].
  change (weight t + sum_list (weight <$> types) < S fuel) in Hf.
  rewrite weight_unfold in Hf. setoid_rewrite Exists_cons.
  case_decide as Hte.
  { subst. exists true. split; [done|]. split; [|done]. intros _. left. constructor. }
  case_decide as Hk.
  - destruct (IH types) as (b & Hb & Hs); [lia|]. exists b. split; [done|].
    rewrite Hs. rewrite (Embeds_unfold e t), embedded_not_struct by done.
    rewrite Exists_nil. naive_solver.
  - destruct (IH (types ++ embedded t)) as (b & Hb & Hs).
    { rewrite fmap_app, sum_list_with_app. lia. }
    exists b. split; [done|]. rewrite Hs, Exists_app, (Embeds_unfold e t). naive_solver.
Qed.

Lemma typeEmbeds_spec t e : typeEmbeds t e = true ↔ Embeds e t.
Proof.
  unfold typeEmbeds.
  destruct (embedsType_loop_spec e (S (weight t)) [t]) as (b & -> & Hb).
  { change (weight t + 0 < S (weight t)). lia. }
  simpl. rewrite Hb, Exists_cons, Exists_nil. naive_solver.
Qed.

(** A type that embeds a struct type it is not equal to is a struct. *)
Lemma Embeds_struct e t : Embeds e t → Kind e = Struct → Kind t = Struct.
Proof. intros H He. destruct H; [done|]. by eapply Fields_Struct. Qed.

Lemma IsIn_struct t : IsIn (IType t) = true → Kind t = Struct.
Proof.
  intros H. apply (Embeds_struct _inType); [by apply typeEmbeds_spec|reflexivity].
Qed.

Lemma IsOut_struct t : IsOut (IType t) = true → Kind t = Struct.
Proof.
  intros H. apply (Embeds_struct _outType); [by apply typeEmbeds_spec|reflexivity].
Qed.
End inout.

(** C37: [embedsType], which [IsIn] and [IsOut] call, decides the embedding relation:
    it returns [true] exactly for the types that are the given type or embed it
    directly or through other embedded structs; the breadth-first search terminates
    on every type. *)
Theorem embedsType_correct `{TypeTable} t e :
  (embedsType (IType t) e = true ↔ Embeds e t) ∧
  ∃ b, embedsType_loop (S (weight t)) [t] e = Some b.
Proof.
  split; [apply typeEmbeds_spec|].
  destruct (embedsType_loop_spec e (S (weight t)) [t]) as (b & -> & _); [|eauto].
  change (weight t + 0 < S (weight t)). lia.
Qed.
