(* ===== verification/Values.v ===== *)
(** * Reflected values, and the state monad of the development

    [value] is a [reflect.Value] as far as dig looks into it: struct fields,
    slice elements, whether it holds a non-nil error, its static type.  [SM] is
    Go code over a mutable state: a state function whose result says how the
    code ended; the state survives errors and panics. *)

From S2P Require Import Prelude GoLib GoTypes DigReflect Errors.

Open Scope string_scope.
Open Scope list_scope.

Inductive value :=
| VInvalid                                     (* the zero reflect.Value, [_noValue] *)
| VZero (t : rtype)                            (* reflect.Zero(t) *)
| VObj (t : rtype) (id : Z)                    (* an object of the user *)
| VStruct (t : rtype) (fields : list value)
| VSlice (t : rtype) (elems : list value)
| VErr (t : rtype) (e : error).                (* a non-nil error of static type t *)

Definition _noValue : value := VInvalid.

Definition is_valid (v : value) : bool :=
  match v with VInvalid => false | _ => true end.

(** [v.Type()]; [None] is its panic on the zero Value. *)
Definition value_Type (v : value) : option rtype :=
  match v with
  | VInvalid => None
  | VZero t | VObj t _ | VStruct t _ | VSlice t _ | VErr t _ => Some t
  end.

Section values.
Context `{TT : TypeTable}.

(** [v.Field(i)]; [None] is its panic. *)
Definition value_Field (v : value) (i : nat) : option value :=
  match v with
  | VStruct _ fs => fs !! i
  | VZero t => VZero ∘ f_Type <$> Fields t !! i
  | _ => None
  end.

(** [v.Len()] and [v.Index(i)] of a slice, as the list of its elements. *)
Definition value_Elems (v : value) : option (list value) :=
  match v with
  | VSlice _ vs => Some vs
  | VZero t => if decide (Kind t = Slice) then Some [] else None
  | _ => None
  end.

(** [err, _ := v.Interface().(error)], nil as [None].  A nil of interface type
    is a nil error; a nil pointer of a concrete error type is not. *)
Definition value_error (v : value) : option error :=
  match v with
  | VErr _ e => Some e
  | VObj t id => if isError t then Some (UserError id "" None) else None
  | VZero t =>
      if decide (Kind t = Interface) then None
      else if isError t then Some (UserError 0 "<nil>" None) else None
  | VStruct t _ | VSlice t _ => if isError t then Some (UserError 0 "" None) else None
  | VInvalid => None
  end.

(** [reflect.New(t).Elem()] of a struct type: all fields zero. *)
Definition newStruct (t : rtype) : value :=
  VStruct t ((λ f, VZero (f_Type f)) <$> Fields t).

(** [t.AssignableTo(u)].  Values reach a parameter of another type only under a
    key of an interface type, never by the rule for unnamed types. *)
Definition assignableTo (t u : rtype) : bool :=
  bool_decide (t = u) || (bool_decide (Kind u = Interface) && Implements t u).

(** The check of [reflect] before [v] is used as a [u]. *)
Definition checkAssign (op : reflectOp) (v : value) (u : rtype) : outcome () :=
  match value_Type v with
  | Some t => if assignableTo t u then Ret () else Panic_ (PIllTyped op t u)
  | None => Panic_ (PRuntime "reflect: call of reflect.Value.Set on zero Value")
  end.

Fixpoint checkAssigns (op : reflectOp) (vs : list value) (us : list rtype) : outcome () :=
  match vs, us with
  | v :: vs', u :: us' => _ ← checkAssign op v u; checkAssigns op vs' us'
  | _, _ => Ret ()
  end.

(** [dest.Field(i).Set(v)] *)
Definition setField (dest : value) (i : nat) (v : value) : outcome value :=
  match dest with
  | VStruct t fs =>
      f ← or_panic "reflect: Field index out of range" (Fields t !! i);
      _ ← checkAssign RSet v (f_Type f);
      Ret (VStruct t (<[i := v]> fs))
  | _ => Panic_ (PRuntime "reflect: call of reflect.Value.Field on non-struct Value")
  end.

(** The values Go's type system lets a function return: structs carry one value
    per field, slices carry elements of their element type. *)
Fixpoint well_typed (v : value) : bool :=
  match v with
  | VInvalid => false
  | VZero _ => true
  | VObj t _ => bool_decide (Kind t ≠ Struct) && bool_decide (Kind t ≠ Slice)
  | VStruct t fs =>
      bool_decide (Kind t = Struct) &&
      bool_decide ((value_Type <$> fs) = ((λ f, Some (f_Type f)) <$> Fields t)) &&
      forallb well_typed fs
  | VSlice t vs =>
      bool_decide (Kind t = Slice) &&
      forallb (λ v, bool_decide (value_Type v = Elem t) && well_typed v) vs
  | VErr t _ => isError t && bool_decide (Kind t ≠ Struct) && bool_decide (Kind t ≠ Slice)
  end.
End values.

(** ** The state monad *)

Definition SM (S A : Type) : Type := S → outcome A * S.

#[export] Instance SM_ret S : MRet (SM S) := λ A a s, (Ret a, s).
#[export] Instance SM_bind S : MBind (SM S) := λ A B f m s,
  match m s with
  | (Ret a, s') => f a s'
  | (Err e, s') => (Err e, s')
  | (Panic_ p, s') => (Panic_ p, s')
  | (NoFuel, s') => (NoFuel, s')
  end.

Section SM.
Context {S : Type}.

Definition getS : SM S S := λ s, (Ret s, s).
Definition modifyS (f : S → S) : SM S () := λ s, (Ret (), f s).
Definition throw {A} (e : error) : SM S A := λ s, (Err e, s).
Definition panic {A} (msg : string) : SM S A := λ s, (Panic_ (PRuntime msg), s).
Definition liftO {A} (o : outcome A) : SM S A := λ s, (o, s).
Definition orPanic {A} (msg : string) (o : option A) : SM S A :=
  liftO (or_panic msg o).

(** The runtime's message for a read through a nil pointer. *)
Definition nilDeref : string := "invalid memory address or nil pointer dereference".

(** [if err != nil { return wrap(err) }]. *)
Definition wrapErr {A} (f : error → error) (m : SM S A) : SM S A :=
  λ s, let '(r, s') := m s in (map_err f r, s').

(** Run [m] and look at the error it returns, nil as [None]; panics and the
    bound pass through. *)
Definition tryErr {A} (m : SM S A) : SM S (A + error) :=
  λ s, match m s with
       | (Ret a, s') => (Ret (inl a), s')
       | (Err e, s') => (Ret (inr e), s')
       | (Panic_ p, s') => (Panic_ p, s')
       | (NoFuel, s') => (NoFuel, s')
       end.

(** Run [m], then [k] whatever way [m] ended: the shape of a deferred call. *)
Definition observe {A B} (m : SM S A) (k : outcome A → SM S B) : SM S B :=
  λ s, let '(r, s') := m s in k r s'.

(** A [for] loop over a list, left to right, stopping at the first error. *)
Definition forEach {A} (l : list A) (f : A → SM S ()) : SM S () :=
  (fix go l := match l with
               | [] => mret ()
               | x :: l' => _ ← f x; go l'
               end) l.

Definition forMap {A B} (l : list A) (f : A → SM S B) : SM S (list B) :=
  (fix go l := match l with
               | [] => mret []
               | x :: l' => y ← f x; ys ← go l'; mret (y :: ys)
               end) l.

Lemma forEach_nil {A} (f : A → SM S ()) : forEach [] f = mret ().
Proof. done. Qed.
Lemma forEach_cons {A} x l (f : A → SM S ()) :
  forEach (x :: l) f = (_ ← f x; forEach l f).
Proof. done. Qed.
Lemma forEach_app {A} l1 l2 (f : A → SM S ()) s :
  forEach (l1 ++ l2) f s = (_ ← forEach l1 f; forEach l2 f) s.
Proof.
  revert s; induction l1 as [|x l1 IH]; intros s; [done|].
  cbn [app]. rewrite !forEach_cons. unfold mbind, SM_bind in *.
  destruct (f x s) as [[]]; [apply IH|done..].
Qed.
Lemma forMap_nil {A B} (f : A → SM S B) : forMap [] f = mret [].
Proof. done. Qed.
Lemma forMap_cons {A B} x l (f : A → SM S B) :
  forMap (x :: l) f = (y ← f x; ys ← forMap l f; mret (y :: ys)).
Proof. done. Qed.
End SM.

Definition bugMessage (msg : string) : string :=
  "It looks like you have found a bug in dig. " +:+
  "Please file an issue at https://github.com/uber-go/dig/issues/new " +:+
  "and provide the following message: " +:+ msg.

(** [digerror.BugPanicf]. *)
Definition BugPanicf {S A} (msg : string) : SM S A := panic (bugMessage msg).

(** ** Reasoning about runs *)

Section runs.
Context {S : Type}.

Lemma bind_Ret {A B} (m : SM S A) (f : A → SM S B) s b s' :
  (m ≫= f) s = (Ret b, s') ↔
  ∃ a s1, m s = (Ret a, s1) ∧ f a s1 = (Ret b, s').
Proof.
  unfold mbind, SM_bind. destruct (m s) as [[a|e|p|] s1]; naive_solver.
Qed.

Lemma bind_step {A B} (m : SM S A) (f : A → SM S B) s a s' :
  m s = (Ret a, s') → (m ≫= f) s = f a s'.
Proof. intros Hm. unfold mbind, SM_bind. by rewrite Hm. Qed.

Lemma bind_panic {A B} (m : SM S A) (f : A → SM S B) s p s' :
  m s = (Panic_ p, s') → (m ≫= f) s = (Panic_ p, s').
Proof. intros Hm. unfold mbind, SM_bind. by rewrite Hm. Qed.

(** A run from a state: it moves the state along [R], and it exhausts the bound
    of the model only if [F] allows it. *)
Definition runs (R : S → S → Prop) (F : Prop) {A} (m : SM S A) (s : S) : Prop :=
  ((m s).1 = NoFuel → F) ∧ R s (m s).2.

Context (R : S → S → Prop) `{!PreOrder R} (F : Prop).
(** An invariant that moves along [R]. *)
Context (P : S → Prop) (P_stable : ∀ s s', P s → R s s' → P s').

Lemma runs_still {A} (m : SM S A) s : (m s).2 = s → (m s).1 ≠ NoFuel → runs R F m s.
Proof. intros H1 H2. split; [done|]. by rewrite H1. Qed.

Lemma runs_mret {A} (a : A) s : runs R F (mret a : SM S A) s.
Proof. by apply runs_still. Qed.

Lemma runs_liftO {A} (o : outcome A) s : (o = NoFuel → F) → runs R F (liftO o) s.
Proof. intros H. split; [done|]. simpl. reflexivity. Qed.

Lemma runs_throw {A} e s : runs R F (throw e : SM S A) s.
Proof. by apply runs_still. Qed.

Lemma runs_panic {A} msg s : runs R F (panic msg : SM S A) s.
Proof. by apply runs_still. Qed.

Lemma runs_getS s : runs R F getS s.
Proof. by apply runs_still. Qed.

Lemma runs_orPanic {A} msg (o : option A) s : runs R F (orPanic msg o) s.
Proof. by destruct o; apply runs_still. Qed.

Lemma runs_modifyS f s : R s (f s) → runs R F (modifyS f) s.
Proof. by split. Qed.

Lemma runs_bind {A B} (m : SM S A) (f : A → SM S B) s :
  runs R F m s → (∀ a s', m s = (Ret a, s') → R s s' → runs R F (f a) s') →
  runs R F (m ≫= f) s.
Proof.
  intros [H1 H2] Hf. unfold runs, mbind, SM_bind.
  destruct (m s) as [[a|e|p|] s1] eqn:Hm; simpl in *;
    [|split; [intros; (discriminate || auto)|done]..].
  destruct (Hf a s1 eq_refl H2) as [H3 H4]. split; [done|]. by etransitivity.
Qed.

Lemma runs_wrapErr {A} g (m : SM S A) s : runs R F m s → runs R F (wrapErr g m) s.
Proof.
  unfold runs, wrapErr. destruct (m s) as [[a|e|p|] s1]; simpl; naive_solver.
Qed.

Lemma runs_tryErr {A} (m : SM S A) s : runs R F m s → runs R F (tryErr m) s.
Proof.
  unfold runs, tryErr. destruct (m s) as [[a|e|p|] s1]; simpl; naive_solver.
Qed.

Lemma runs_observe {A B} (m : SM S A) (k : outcome A → SM S B) s :
  runs R F m s → (∀ r s', m s = (r, s') → (r = NoFuel → F) → R s s' → runs R F (k r) s') →
  runs R F (observe m k) s.
Proof.
  intros [H1 H2] Hk. unfold runs, observe. destruct (m s) as [r s1] eqn:Hm; simpl in *.
  destruct (Hk r s1 eq_refl H1 H2) as [H3 H4]. split; [done|]. by etransitivity.
Qed.

Lemma runs_forEach {A} (l : list A) (f : A → SM S ()) s :
  P s → (∀ x s, x ∈ l → P s → runs R F (f x) s) → runs R F (forEach l f) s.
Proof.
  revert s; induction l as [|x l IH]; intros s HP H; [apply runs_mret|].
  rewrite forEach_cons. apply runs_bind; [apply H; [set_solver|done]|].
  intros _ s' _ HR. apply IH; [exact (P_stable _ _ HP HR)|]. intros y s'' Hy. apply H. set_solver.
Qed.

Lemma runs_forMap {A B} (l : list A) (f : A → SM S B) s :
  P s → (∀ x s, x ∈ l → P s → runs R F (f x) s) → runs R F (forMap l f) s.
Proof.
  revert s; induction l as [|x l IH]; intros s HP H; [apply runs_mret|].
  rewrite forMap_cons. apply runs_bind; [apply H; [set_solver|done]|].
  intros y s' _ HR. apply runs_bind; [|intros; apply runs_mret].
  apply IH; [exact (P_stable _ _ HP HR)|]. intros z s'' Hz. apply H. set_solver.
Qed.

(** A first part of a run that moves the state along a smaller relation. *)
Lemma runs_sub (R' : S → S → Prop) {A} (m : SM S A) s :
  (∀ x y, R' x y → R x y) → runs R' F m s → runs R F m s.
Proof. intros H [H1 H2]. split; [done|]. by apply H. Qed.

Lemma runs_bind_sub (R' : S → S → Prop) {A B} (m : SM S A) (f : A → SM S B) s :
  (∀ x y, R' x y → R x y) → runs R' F m s →
  (∀ a s', m s = (Ret a, s') → R' s s' → runs R F (f a) s') → runs R F (m ≫= f) s.
Proof.
  intros H Hm Hf. apply runs_bind; [by apply (runs_sub R')|]. intros a s' Hr _.
  apply Hf; [done|]. destruct Hm as [_ Hm]. by rewrite Hr in Hm.
Qed.
End runs.

(** Loops whose body always returns, and what one round of a loop did. *)
Section loops.
Context {S A : Type}.

Lemma bind_total {B C} (m : SM S B) (f : B → SM S C) b c s :
  (∃ s1, m s = (Ret b, s1)) → (∀ s1, ∃ s2, f b s1 = (Ret c, s2)) →
  ∃ s2, (m ≫= f) s = (Ret c, s2).
Proof. intros [s1 H1] H2. destruct (H2 s1) as [s2 H2']. exists s2. apply bind_Ret. eauto. Qed.

Lemma forEach_total (l : list A) (f : A → SM S ()) :
  (∀ x s, x ∈ l → ∃ s', f x s = (Ret (), s')) →
  ∀ s, ∃ s', forEach l f s = (Ret (), s').
Proof.
  induction l as [|x l IH]; intros Hf s; [by eexists|]. rewrite forEach_cons.
  destruct (Hf x s) as [s1 H1]; [set_solver|].
  destruct (IH (λ y s Hy, Hf y s (list_elem_of_further _ _ _ Hy)) s1) as [s2 H2].
  exists s2. apply bind_Ret. eauto.
Qed.

Lemma forEach_moves (R : S → S → Prop) `{!PreOrder R} F (l : list A) (f : A → SM S ()) s r s' :
  (∀ x s, runs R F (f x) s) → forEach l f s = (r, s') → R s s'.
Proof.
  intros Hf Hl. destruct (runs_forEach R F (λ _, True) (λ _ _ _ _, I) l f s) as [_ HR]; auto.
  by rewrite Hl in HR.
Qed.

Lemma forEach_round (R : S → S → Prop) `{!PreOrder R} F (l : list A) (f : A → SM S ()) x s s' :
  (∀ x s, runs R F (f x) s) → x ∈ l → forEach l f s = (Ret (), s') →
  ∃ s1 s2, f x s1 = (Ret (), s2) ∧ R s2 s'.
Proof.
  intros Hf. revert s; induction l as [|y l IH]; intros s Hx; [set_solver|].
  rewrite forEach_cons, bind_Ret. intros ([] & s1 & H1 & H2).
  apply elem_of_cons in Hx as [->|Hx]; [|by eapply IH].
  exists s, s1. split; [done|]. by eapply forEach_moves.
Qed.
End loops.

(** ** The checks of [reflect] end *)

Section checks.
Context `{TT : TypeTable}.

Lemma checkAssign_ends op v u : checkAssign op v u ≠ NoFuel.
Proof. unfold checkAssign. by repeat case_match. Qed.

Lemma checkAssigns_ends op vs us : checkAssigns op vs us ≠ NoFuel.
Proof.
  revert us; induction vs as [|v vs IH]; intros [|u us]; simpl; try done.
  apply bind_ends; [apply checkAssign_ends|auto].
Qed.

Lemma setField_ends dest i v : setField dest i v ≠ NoFuel.
Proof.
  destruct dest; try done. simpl. apply bind_ends; [by destruct (_ !! _)|]. intros f _.
  apply bind_ends; [apply checkAssign_ends|done].
Qed.
End checks.

#[export] Hint Resolve runs_mret runs_throw runs_panic runs_getS runs_orPanic : dig.
#[export] Hint Extern 1 (runs _ _ (liftO (checkAssigns _ _ _)) _) =>
  apply runs_liftO; [apply _|intros Hno; by apply checkAssigns_ends in Hno] : dig.
#[export] Hint Extern 1 (runs _ _ (liftO (setField _ _ _)) _) =>
  apply runs_liftO; [apply _|intros Hno; by apply setField_ends in Hno] : dig.

(** One step along a run: decompose the computation, leave the rest. *)
Ltac run_step :=
  match goal with
  | |- runs _ _ (_ ≫= _) _ =>
      apply runs_bind; [apply _|..|let a := fresh "a" in let s := fresh "s" in
        let Hr := fresh "Hrun" in let HR := fresh "HR" in intros a s Hr HR]
  | |- runs _ _ (wrapErr _ _) _ => apply runs_wrapErr
  | |- runs _ _ (tryErr _) _ => apply runs_tryErr
  end.
