(* ===== verification/Clock.v ===== *)
(** * Clocks (internal/digclock/clock.go)

    An instant is the number of nanoseconds since a fixed origin.  A
    [time.Duration] is an [int64] of nanoseconds; [time.Time.Sub] saturates at its
    bounds.  An instant keeps its seconds in an [int64] and its nanoseconds apart, and
    [time.Time.Add] saturates the seconds.  What the system clock reads is a parameter of
    the environment; the mock clock is a cell with an instant. *)

From S2P Require Import Prelude GoLib GoTypes DigReflect Errors Values.

#[local] Open Scope Z_scope.

Definition minDuration : Z := - 2 ^ 63.
Definition maxDuration : Z := 2 ^ 63 - 1.

(** The [int64] that a number wraps to. *)
Definition int64 (z : Z) : Z := (z + 2 ^ 63) mod 2 ^ 64 - 2 ^ 63.

(** [Time.Sub]. *)
Definition Sub (t u : Z) : Z := Z.max minDuration (Z.min maxDuration (t - u)).

(** [Time.Add]: the nanoseconds carry into the seconds, which saturate. *)
Definition second : Z := 1000000000.
Definition maxSeconds : Z := 2 ^ 63 - 1.

Definition Add (t d : Z) : Z :=
  Z.max (- maxSeconds) (Z.min maxSeconds ((t + d) / second)) * second + (t + d) mod second.

(** [Since], for either clock, with the instant the clock reads. *)
Definition Since (now start : Z) : Z := Sub now start.

(** The mock clock. *)
Record Mock := mkMock { mock_now : Z }.

Definition NewMock (now : Z) : Mock := mkMock now.

Definition Mock_Now : SM Mock Z := m ← getS; mret (mock_now m).

Definition Mock_Since (t : Z) : SM Mock Z := now ← Mock_Now; mret (Since now t).

(** The argument is a [time.Duration]. *)
Definition Mock_Add (duration : Z) : SM Mock () :=
  let d := int64 duration in
  if decide (d < 0) then panic "cannot add negative duration"
  else modifyS (λ m, mkMock (Add (mock_now m) d)).

Lemma int64_id z : minDuration <= z <= maxDuration → int64 z = z.
Proof.
  unfold int64, minDuration, maxDuration. intros Hz. rewrite Z.mod_small; lia.
Qed.

Lemma int64_bounds z : minDuration <= int64 z <= maxDuration.
Proof.
  unfold int64, minDuration, maxDuration. pose proof (Z.mod_pos_bound (z + 2 ^ 63) (2 ^ 64)). lia.
Qed.

Lemma Sub_bounds t u : minDuration <= Sub t u <= maxDuration.
Proof. unfold Sub, minDuration, maxDuration. lia. Qed.

(** The last instant whose seconds have not saturated is before [lastSecond + second]. *)
Definition lastSecond : Z := maxSeconds * second.

Lemma Add_exact t d : - lastSecond <= t + d < lastSecond + second → Add t d = t + d.
Proof.
  unfold Add, lastSecond. intros Ht. assert (0 < second) as Hs by done.
  pose proof (Z.div_mod (t + d) second) as Hdm.
  assert (- maxSeconds <= (t + d) / second) by (apply Z.div_le_lower_bound; lia).
  assert ((t + d) / second < maxSeconds + 1) by (apply Z.div_lt_upper_bound; lia).
  rewrite Z.min_r, Z.max_r by lia. lia.
Qed.

Lemma Add_saturates t d : lastSecond <= t + d → lastSecond <= Add t d.
Proof.
  unfold Add, lastSecond. intros Ht. assert (0 < second) as Hs by done.
  assert (maxSeconds <= (t + d) / second) by (apply Z.div_le_lower_bound; lia).
  pose proof (Z.mod_pos_bound (t + d) second Hs). rewrite Z.min_l by lia.
  assert (Z.max (- maxSeconds) maxSeconds = maxSeconds) as -> by (unfold maxSeconds; lia). lia.
Qed.

Lemma Mock_Add_run d m :
  Mock_Add d m = if decide (int64 d < 0) then (Panic_ (PRuntime "cannot add negative duration"), m)
                 else (Ret (), mkMock (Add (mock_now m) (int64 d))).
Proof. unfold Mock_Add. cbv zeta. by destruct (decide (int64 d < 0)). Qed.

(** After a run of [Add] the clock has advanced by the sum, or its seconds have
    saturated. *)
Lemma Mock_Adds (ds : list Z) (m : Mock) :
  Forall (λ d, 0 <= d <= maxDuration) ds → - lastSecond <= mock_now m →
  ∃ now, forEach ds Mock_Add m = (Ret (), mkMock now) ∧
    (now = mock_now m + foldr Z.add 0 ds ∨
     lastSecond <= now ∧ lastSecond <= mock_now m + foldr Z.add 0 ds).
Proof.
  intros Hds. revert m; induction Hds as [|d ds Hd Hds IH]; intros m Hm.
  - exists (mock_now m). destruct m. rewrite forEach_nil. simpl in *. split; [done|left; lia].
  - assert (0 <= foldr Z.add 0 ds) as Hsum by (clear -Hds; induction Hds; simpl; lia).
    assert (int64 d = d) as Hi by (apply int64_id; unfold minDuration; lia).
    rewrite forEach_cons. erewrite bind_step; [|by rewrite Mock_Add_run, Hi, decide_False by lia].
    destruct (decide (mock_now m + d < lastSecond)) as [Hlt|Hge].
    + rewrite Add_exact by (unfold second; lia).
      destruct (IH (mkMock (mock_now m + d))) as (now & Hrun & Hnow); simpl in *; [lia|].
      exists now. split; [exact Hrun|]. destruct Hnow; [left|right]; lia.
    + pose proof (Add_saturates (mock_now m) d) as Hsat.
      destruct (IH (mkMock (Add (mock_now m) d))) as (now & Hrun & Hnow); simpl in *;
        [unfold lastSecond, maxSeconds, second in *; lia|].
      exists now. split; [exact Hrun|]. right. lia.
Qed.

(** C35: time on the mock clock.  After a run of [Add] with durations none of which
    is negative, what has elapsed since an earlier reading is the sum of the
    durations, cut at the largest duration, also when the clock itself saturates, if
    the earlier reading is at least the largest duration (292 years) before the last
    second of the clock; a negative duration panics and leaves the clock alone. *)
Theorem Mock_Since_spec (ds : list Z) (d : Z) (m : Mock) :
  Forall (λ d, 0 <= d <= maxDuration) ds → minDuration <= d < 0 →
  - lastSecond <= mock_now m <= lastSecond - maxDuration →
  ∃ m', forEach ds Mock_Add m = (Ret (), m') ∧
        (Mock_Since (mock_now m) m').1 = Ret (Z.min maxDuration (foldr Z.add 0 ds)) ∧
        Mock_Add d m' = (Panic_ (PRuntime "cannot add negative duration"), m').
Proof.
  intros Hds Hd Hm. destruct (Mock_Adds ds m Hds) as (now & Hrun & Hnow); [lia|].
  assert (0 <= foldr Z.add 0 ds) as Hsum by (clear -Hds; induction Hds; simpl; lia).
  exists (mkMock now). split; [exact Hrun|]. split.
  - unfold Mock_Since, Mock_Now, Since, Sub, getS, mbind, SM_bind, mret, SM_ret. simpl.
    f_equal. assert (0 <= maxDuration) by done. unfold minDuration. lia.
  - rewrite Mock_Add_run, int64_id by (unfold maxDuration; lia). by rewrite decide_True by lia.
Qed.

(** Three hours, then 292 years, 47 days and more. *)
Lemma Mock_Since_spec_witness :
  ∃ m', forEach [10800000000000; maxDuration] Mock_Add (NewMock 5) = (Ret (), m') ∧
        (Mock_Since 5 m').1 = Ret maxDuration ∧
        Mock_Add (-1) m' = (Panic_ (PRuntime "cannot add negative duration"), m').
Proof.
  apply (Mock_Since_spec [10800000000000; maxDuration] (-1) (NewMock 5)).
  - repeat constructor; unfold maxDuration; lia.
  - unfold minDuration. lia.
  - unfold lastSecond, maxSeconds, second, maxDuration. simpl. lia.
Defined.
