(* ===== verification/DotTypes.v ===== *)
(** * The nodes of the DOT graph (internal/dot, data types only) *)

From S2P Require Import Prelude GoLib GoTypes.

(** [dot.Node], embedded into parameters and results. *)
Record dotNode := mkNode { n_Type : rtype; n_Name : string; n_Group : string }.

Record dotParam := mkDotParam { dp_Node : dotNode; dp_Optional : bool }.

Record dotResult := mkDotResult { dr_Node : dotNode; dr_GroupIndex : nat }.

#[export] Instance dotNode_eq_dec : EqDecision dotNode.
Proof. solve_decision. Defined.

Definition newDotResult (n : dotNode) : dotResult := mkDotResult n 0.
