(* ===== verification/Dot.v ===== *)
(** * The DOT graph of a container (internal/dot/graph.go)

    Constructors and value groups of the DOT graph are shared mutable objects:
    they live in two arenas of [dotGraph] and are known by their position, as the
    pointers of the code.  Results are only written when they are added to their
    group, before anything else holds them, and are values here. *)

From S2P Require Import Prelude GoLib GoTypes DigReflect Errors Values DotTypes.

Open Scope string_scope.
Open Scope list_scope.

Inductive ErrorType := noError | rootCause | transitiveFailure.

#[export] Instance ErrorType_eq_dec : EqDecision ErrorType.
Proof. solve_decision. Defined.

(** [ErrorType.Color]. *)
Definition Color (s : ErrorType) : string :=
  match s with
  | rootCause => "red"
  | transitiveFailure => "orange"
  | noError => "black"
  end.

(** [nodeKey] has the fields of [key]. *)
Abbreviation nodeKey := key.

(** [Node.nodeKey]. *)
Definition node_nodeKey (n : dotNode) : nodeKey := mkKey (n_Type n) (n_Name n) (n_Group n).
Definition param_nodeKey (p : dotParam) : nodeKey := node_nodeKey (dp_Node p).
Definition result_nodeKey (r : dotResult) : nodeKey := node_nodeKey (dr_Node r).

Record dotCtor := mkDotCtor {
  dc_Name : string;
  dc_Package : string;
  dc_File : string;
  dc_Line : nat;
  dc_ID : positive;
  dc_Params : list dotParam;
  dc_GroupParams : list nat;
  dc_Results : list dotResult;
  dc_ErrorType : ErrorType
}.

Record dotGroup := mkDotGroup {
  dg_Type : rtype;
  dg_Name : string;
  dg_Results : list dotResult;
  dg_ErrorType : ErrorType
}.

(** [Group.nodeKey] and [NewGroup]. *)
Definition group_nodeKey (g : dotGroup) : nodeKey := mkKey (dg_Type g) "" (dg_Name g).
Definition NewGroup (k : nodeKey) : dotGroup := mkDotGroup (k_t k) (k_group k) [] noError.

Record FailedNodes := mkFailed {
  RootCauses : list dotResult;
  TransitiveFailures : list dotResult;
  failed_ctors : gset positive;
  failed_groups : gset nodeKey
}.

Record dotGraph := mkDotGraph {
  ctorArena : list dotCtor;
  groupArena : list dotGroup;
  Ctors : list nat;
  ctorMap : gmap positive nat;
  Groups : list nat;
  groupMap : gmap nodeKey nat;
  consumers : gmap nodeKey (list nat);
  Failed : FailedNodes
}.

Definition NewGraph : dotGraph := mkDotGraph [] [] [] ∅ [] ∅ ∅ (mkFailed [] [] ∅ ∅).

Definition upd_ctor (i : nat) (f : dotCtor → dotCtor) (g : dotGraph) : dotGraph :=
  mkDotGraph (alter f i (ctorArena g)) (groupArena g) (Ctors g) (ctorMap g) (Groups g)
    (groupMap g) (consumers g) (Failed g).
Definition upd_group (i : nat) (f : dotGroup → dotGroup) (g : dotGraph) : dotGraph :=
  mkDotGraph (ctorArena g) (alter f i (groupArena g)) (Ctors g) (ctorMap g) (Groups g)
    (groupMap g) (consumers g) (Failed g).
Definition upd_failed (f : FailedNodes → FailedNodes) (g : dotGraph) : dotGraph :=
  mkDotGraph (ctorArena g) (groupArena g) (Ctors g) (ctorMap g) (Groups g)
    (groupMap g) (consumers g) (f (Failed g)).

Definition setParams ps (c : dotCtor) : dotCtor :=
  mkDotCtor (dc_Name c) (dc_Package c) (dc_File c) (dc_Line c) (dc_ID c) ps
    (dc_GroupParams c) (dc_Results c) (dc_ErrorType c).
Definition setGroupParams gs (c : dotCtor) : dotCtor :=
  mkDotCtor (dc_Name c) (dc_Package c) (dc_File c) (dc_Line c) (dc_ID c) (dc_Params c)
    gs (dc_Results c) (dc_ErrorType c).
Definition setCtorError e (c : dotCtor) : dotCtor :=
  mkDotCtor (dc_Name c) (dc_Package c) (dc_File c) (dc_Line c) (dc_ID c) (dc_Params c)
    (dc_GroupParams c) (dc_Results c) e.
Definition setResults rs (g : dotGroup) : dotGroup :=
  mkDotGroup (dg_Type g) (dg_Name g) rs (dg_ErrorType g).
Definition setGroupError e (g : dotGroup) : dotGroup :=
  mkDotGroup (dg_Type g) (dg_Name g) (dg_Results g) e.

(** [Ctor.removeParam] and [Group.removeResult]. *)
Definition removeParam (k : nodeKey) (c : dotCtor) : dotCtor :=
  setParams (filter (λ p, k ≠ param_nodeKey p) (dc_Params c)) c.
Definition removeResult (r : dotResult) (g : dotGroup) : dotGroup :=
  setResults (filter (λ rg, dr_GroupIndex r ≠ dr_GroupIndex rg) (dg_Results g)) g.

(** ** Building the graph *)

(** [getGroup]: the group of a key, made on demand. *)
Definition getGroup (k : nodeKey) : SM dotGraph nat :=
  dg ← getS;
  match groupMap dg !! k with
  | Some g => mret g
  | None =>
      let g := length (groupArena dg) in
      _ ← modifyS (λ dg, mkDotGraph (ctorArena dg) (groupArena dg ++ [NewGroup k]) (Ctors dg)
                           (ctorMap dg) (Groups dg ++ [g]) (<[k := g]> (groupMap dg))
                           (consumers dg) (Failed dg));
      mret g
  end.

(** [addToGroup]: the result with its index in the group. *)
Definition addToGroup (r : dotResult) : SM dotGraph dotResult :=
  group ← getGroup (mkKey (n_Type (dr_Node r)) "" (n_Group (dr_Node r)));
  dg ← getS;
  g ← orPanic nilDeref (groupArena dg !! group);
  let r' := mkDotResult (dr_Node r) (length (dg_Results g)) in
  _ ← modifyS (upd_group group (λ g, setResults (dg_Results g ++ [r']) g));
  mret r'.

Section build.
Context `{TT : TypeTable}.

(** The first loop of [AddCtor]: the value groups among the parameters. *)
Fixpoint splitParams (paramList : list dotParam) : SM dotGraph (list dotParam * list nat) :=
  match paramList with
  | [] => mret ([], [])
  | param :: paramList' =>
      if decide (n_Group (dp_Node param) = "") then
        r ← splitParams paramList';
        let '(params, groupParams) := (r : list dotParam * list nat) in
        mret (param :: params, groupParams)
      else
        el ← orPanic "reflect: Elem of invalid type" (Elem (n_Type (dp_Node param)));
        group ← getGroup (mkKey el "" (n_Group (dp_Node param)));
        r ← splitParams paramList';
        let '(params, groupParams) := (r : list dotParam * list nat) in
        mret (params, group :: groupParams)
  end.

(** The second loop: grouped results enter their groups. *)
Definition groupResults (resultList : list dotResult) : SM dotGraph (list dotResult) :=
  forMap resultList (λ result,
    if decide (n_Group (dr_Node result) ≠ "") then addToGroup result else mret result).

Definition AddCtor (c : dotCtor) (paramList : list dotParam) (resultList : list dotResult)
    : SM dotGraph () :=
  r ← splitParams paramList;
  let '(params, groupParams) := (r : list dotParam * list nat) in
  results ← groupResults resultList;
  modifyS (λ dg,
    let i := length (ctorArena dg) in
    let c := mkDotCtor (dc_Name c) (dc_Package c) (dc_File c) (dc_Line c) (dc_ID c)
               params groupParams results (dc_ErrorType c) in
    mkDotGraph (ctorArena dg ++ [c]) (groupArena dg) (Ctors dg ++ [i])
      (<[dc_ID c := i]> (ctorMap dg)) (Groups dg) (groupMap dg)
      (foldl (λ m p, <[param_nodeKey p := default [] (m !! param_nodeKey p) ++ [i]]> m)
             (consumers dg) paramList)
      (Failed dg)).
End build.

(** ** Failures *)

Definition addRootCause (r : dotResult) (f : FailedNodes) : FailedNodes :=
  mkFailed (RootCauses f ++ [r]) (TransitiveFailures f) (failed_ctors f) (failed_groups f).
Definition addTransitiveFailure (r : dotResult) (f : FailedNodes) : FailedNodes :=
  mkFailed (RootCauses f) (TransitiveFailures f ++ [r]) (failed_ctors f) (failed_groups f).

Definition failNode (isRootCause : bool) (r : dotResult) (f : FailedNodes) : FailedNodes :=
  if isRootCause then addRootCause r f else addTransitiveFailure r f.

Definition failNodes (isRootCause : bool) (rs : list dotResult) (f : FailedNodes) : FailedNodes :=
  foldl (λ f r, failNode isRootCause r f) f rs.

Definition markCtor (id : positive) (f : FailedNodes) : FailedNodes :=
  mkFailed (RootCauses f) (TransitiveFailures f) ({[id]} ∪ failed_ctors f) (failed_groups f).
Definition markGroup (k : nodeKey) (f : FailedNodes) : FailedNodes :=
  mkFailed (RootCauses f) (TransitiveFailures f) (failed_ctors f) ({[k]} ∪ failed_groups f).

(** The failure is a root cause if there are no others. *)
Definition noRootCause (dg : dotGraph) : bool := bool_decide (RootCauses (Failed dg) = []).

Definition errorTypeOf (isRootCause : bool) : ErrorType :=
  if isRootCause then rootCause else transitiveFailure.

Definition AddMissingNodes (results : list dotResult) (dg : dotGraph) : dotGraph :=
  upd_failed (failNodes (noRootCause dg) results) dg.

Definition FailNodes (results : list dotResult) (id : positive) (dg : dotGraph) : dotGraph :=
  let isRootCause := noRootCause dg in
  let dg' := upd_failed (λ f, failNodes isRootCause results (markCtor id f)) dg in
  match ctorMap dg' !! id with
  | Some c => upd_ctor c (setCtorError (errorTypeOf isRootCause)) dg'
  | None => dg'
  end.

(** [FailGroupNodes].  The group is looked up, and made, before the constructor is
    known to exist. *)
Definition FailGroupNodes (name : string) (t : rtype) (id : positive) : SM dotGraph () :=
  dg ← getS;
  let isRootCause := noRootCause dg in
  let k := mkKey t "" name in
  group ← getGroup k;
  match ctorMap dg !! id with
  | None => mret ()
  | Some c =>
      cn ← orPanic nilDeref (ctorArena dg !! c);
      let results := filter (λ r, n_Type (dr_Node r) = t ∧ n_Group (dr_Node r) = name)
                            (dc_Results cn) in
      _ ← modifyS (upd_failed (λ f, failNodes isRootCause results (markGroup k (markCtor id f))));
      _ ← modifyS (upd_group group (setGroupError (errorTypeOf isRootCause)));
      modifyS (upd_ctor c (setCtorError (errorTypeOf isRootCause)))
  end.

(** ** Pruning *)

(** [pruneCtorParams] and [pruneGroupResults] for the results of one constructor. *)
Definition pruneCtorParams (c : dotCtor) (dg : dotGraph) : dotGraph :=
  foldl (λ dg r,
    foldl (λ dg ctor, upd_ctor ctor (removeParam (result_nodeKey r)) dg) dg
          (default [] (consumers dg !! result_nodeKey r))) dg (dc_Results c).

Definition pruneGroupResults (c : dotCtor) (dg : dotGraph) : dotGraph :=
  foldl (λ dg r,
    let k := result_nodeKey r in
    if decide (k_group k = "") then dg
    else match groupMap dg !! k with
         | Some g => upd_group g (removeResult r) dg
         | None => dg
         end) dg (dc_Results c).

Definition deleteCtor (id : positive) (dg : dotGraph) : dotGraph :=
  mkDotGraph (ctorArena dg) (groupArena dg) (Ctors dg) (delete id (ctorMap dg)) (Groups dg)
    (groupMap dg) (consumers dg) (Failed dg).

(** The loop of [pruneCtors]: the constructors that stay, and the graph. *)
Fixpoint pruneCtors_loop (failed : gset positive) (cs : list nat) (dg : dotGraph)
    : list nat * dotGraph :=
  match cs with
  | [] => ([], dg)
  | i :: cs' =>
      match ctorArena dg !! i with
      | None => pruneCtors_loop failed cs' dg
      | Some c =>
          if decide (dc_ID c ∈ failed) then
            let '(pruned, dg) := pruneCtors_loop failed cs' dg in (i :: pruned, dg)
          else
            pruneCtors_loop failed cs'
              (deleteCtor (dc_ID c) (pruneGroupResults c (pruneCtorParams c dg)))
      end
  end.

Definition pruneCtors (failed : gset positive) (dg : dotGraph) : dotGraph :=
  let '(pruned, dg) := pruneCtors_loop failed (Ctors dg) dg in
  mkDotGraph (ctorArena dg) (groupArena dg) pruned (ctorMap dg) (Groups dg) (groupMap dg)
    (consumers dg) (Failed dg).

(** [pruneCtorGroupParams]: the groups still in the map stay. *)
Definition groupPresent (dg : dotGraph) (gp : nat) : bool :=
  match groupArena dg !! gp with
  | Some g => bool_decide (is_Some (groupMap dg !! group_nodeKey g))
  | None => false
  end.

Definition pruneCtorGroupParams (dg : dotGraph) : dotGraph :=
  foldl (λ dg i, upd_ctor i (λ c,
    setGroupParams (List.filter (groupPresent dg) (dc_GroupParams c)) c) dg)
    dg (Ctors dg).

Fixpoint pruneGroups_loop (failed : gset nodeKey) (gs : list nat) (dg : dotGraph)
    : list nat * dotGraph :=
  match gs with
  | [] => ([], dg)
  | i :: gs' =>
      match groupArena dg !! i with
      | None => pruneGroups_loop failed gs' dg
      | Some g =>
          if decide (group_nodeKey g ∈ failed) then
            let '(pruned, dg) := pruneGroups_loop failed gs' dg in (i :: pruned, dg)
          else
            pruneGroups_loop failed gs'
              (mkDotGraph (ctorArena dg) (groupArena dg) (Ctors dg) (ctorMap dg) (Groups dg)
                 (delete (group_nodeKey g) (groupMap dg)) (consumers dg) (Failed dg))
      end
  end.

Definition pruneGroups (failed : gset nodeKey) (dg : dotGraph) : dotGraph :=
  let '(pruned, dg) := pruneGroups_loop failed (Groups dg) dg in
  pruneCtorGroupParams
    (mkDotGraph (ctorArena dg) (groupArena dg) (Ctors dg) (ctorMap dg) pruned (groupMap dg)
       (consumers dg) (Failed dg)).

Definition PruneSuccess (dg : dotGraph) : dotGraph :=
  let dg := pruneCtors (failed_ctors (Failed dg)) dg in
  pruneGroups (failed_groups (Failed dg)) dg.

(** ** Labels *)

Section labels.
Context `{TT : TypeTable}.

Definition dotParam_String (p : dotParam) : string :=
  let n := dp_Node p in
  if decide (n_Name n ≠ "") then TypeString (n_Type n) +:+ "[name=" +:+ n_Name n +:+ "]"
  else TypeString (n_Type n).

Definition dotResult_String (r : dotResult) : string :=
  let n := dr_Node r in
  if decide (n_Name n ≠ "") then TypeString (n_Type n) +:+ "[name=" +:+ n_Name n +:+ "]"
  else if decide (n_Group n ≠ "") then
    TypeString (n_Type n) +:+ "[group=" +:+ n_Group n +:+ "]" +:+ Itoa (dr_GroupIndex r)
  else TypeString (n_Type n).

Definition dotGroup_String (g : dotGroup) : string :=
  "[type=" +:+ TypeString (dg_Type g) +:+ " group=" +:+ dg_Name g +:+ "]".

(** A label with a second, smaller line. *)
Definition subLabel (t : rtype) (what name : string) : string :=
  "label=<" +:+ TypeString t +:+ "<BR /><FONT POINT-SIZE=" +:+ String dquote "10" +:+
  String dquote ">" +:+ what +:+ ": " +:+ name +:+ "</FONT>>".

Definition dotResult_Attributes (r : dotResult) : string :=
  let n := dr_Node r in
  if decide (n_Name n ≠ "") then subLabel (n_Type n) "Name" (n_Name n)
  else if decide (n_Group n ≠ "") then subLabel (n_Type n) "Group" (n_Group n)
  else "label=<" +:+ TypeString (n_Type n) +:+ ">".

Definition dotGroup_Attributes (g : dotGroup) : string :=
  "shape=diamond " +:+ subLabel (dg_Type g) "Group" (dg_Name g) +:+
  (if decide (dg_ErrorType g ≠ noError) then " color=" +:+ Color (dg_ErrorType g) else "").
End labels.
