(* ===== verification/Result.v ===== *)
(** * Results of constructors (result.go)

    How the result types of a constructor are read into a tree of [result]s,
    the walk over that tree, and the extraction of the produced values into a
    [containerWriter].  The writer is a class with two instances, the staging
    area of constructor.go (here) and the scope (Store.v). *)

From S2P Require Import Prelude GoLib GoTypes DigReflect Errors Group InOut Values.
From S2P Require Import DotTypes.

Open Scope string_scope.
Open Scope list_scope.

(** ** Data *)

Record resultObjectFieldOf (R : Type) := mkROF {
  rof_FieldName : string;
  rof_FieldIndex : nat;
  rof_Result : R
}.
Arguments mkROF {R} _ _ _.
Arguments rof_FieldName {R} _.
Arguments rof_FieldIndex {R} _.
Arguments rof_Result {R} _.

Record resultListOf (R : Type) := mkResultList {
  rl_ctype : rtype;
  rl_Results : list R;
  rl_resultIndexes : list Z
}.
Arguments mkResultList {R} _ _ _.
Arguments rl_ctype {R} _.
Arguments rl_Results {R} _.
Arguments rl_resultIndexes {R} _.

(** The implementations of the interface [result]. *)
Inductive result :=
| resultSingle (Name : string) (t : rtype) (As : list rtype)
| resultGrouped (Group : string) (t : rtype) (Flatten : bool) (As : list rtype)
| resultObject (t : rtype) (Fields : list (resultObjectFieldOf result))
| resultList_ (rl : resultListOf result).

Abbreviation resultObjectField := (resultObjectFieldOf result).
Abbreviation resultList := (resultListOf result).

Record resultOptions := mkResultOptions {
  ro_Name : string;
  ro_Group : string;
  ro_As : list iface
}.

(** Induction over the tree. *)
Section result_ind.
Context (P : result → Prop).
Context (Hsingle : ∀ n t a, P (resultSingle n t a)).
Context (Hgrouped : ∀ g t f a, P (resultGrouped g t f a)).
Context (Hobject : ∀ t fs, Forall (λ f, P (rof_Result f)) fs → P (resultObject t fs)).
Context (Hlist : ∀ rl, Forall P (rl_Results rl) → P (resultList_ rl)).

Fixpoint result_ind' (r : result) : P r :=
  match r with
  | resultSingle n t a => Hsingle n t a
  | resultGrouped g t f a => Hgrouped g t f a
  | resultObject t fs =>
      Hobject t fs
        ((fix go fs : Forall (λ f, P (rof_Result f)) fs :=
            match fs with
            | [] => Forall_nil_2 _
            | mkROF n i r :: fs' =>
                Forall_cons_2 (λ f, P (rof_Result f)) (mkROF n i r) fs'
                              (result_ind' r) (go fs')
            end) fs)
  | resultList_ (mkResultList c rs idxs) =>
      Hlist (mkResultList c rs idxs)
        ((fix go rs : Forall P rs :=
            match rs with
            | [] => Forall_nil_2 _
            | r :: rs' => Forall_cons_2 P r rs' (result_ind' r) (go rs')
            end) rs)
  end.
End result_ind.

(** ** Construction *)

Section build.
Context `{TT : TypeTable}.

Definition fail {A} (msg : string) : outcome A := Err (newErrInvalidInput msg None).

(** The loop over [opts.As] shared by the two forms of results: the interfaces
    the value is provided as, its own type skipped. *)
Fixpoint asTypesOf (t : rtype) (As : list iface) : outcome (list rtype) :=
  match As with
  | [] => Ret []
  | as_ :: As' =>
      at_ ← or_panic "nil pointer dereference" (TypeOf as_);
      ifaceType ← or_panic "reflect: Elem of invalid type" (Elem at_);
      if decide (ifaceType = t) then asTypesOf t As'
      else if negb (Implements t ifaceType) then
        fail ("invalid dig.As: " +:+ TypeString t +:+ " does not implement " +:+
              TypeString ifaceType)
      else rest ← asTypesOf t As'; Ret (ifaceType :: rest)
  end.

Definition newResultSingle (t : rtype) (opts : resultOptions) : outcome result :=
  asTypes ← asTypesOf t (ro_As opts);
  match asTypes with
  | [] => Ret (resultSingle (ro_Name opts) t [])
  | a :: asTypes => Ret (resultSingle (ro_Name opts) a asTypes)
  end.

(** The [opts.Group] case of [newResult]. *)
Definition newResultOfGroup (t : rtype) (opts : resultOptions) : outcome result :=
  g ← map_err (λ err, newErrInvalidInput
                 ("cannot parse group " +:+ Quote (ro_Group opts)) (Some err))
              (parseGroupString (ro_Group opts));
  asTypes ← asTypesOf t (ro_As opts);
  let '(ty, As) := match asTypes with
                   | [] => (t, [])
                   | a :: asTypes => (a, asTypes)
                   end in
  if g_Soft g then
    fail ("cannot use soft with result value groups: soft was used with group:" +:+
          Quote (g_Name g))
  else if g_Flatten g then
    if decide (Kind t ≠ Slice) then
      fail ("flatten can be applied to slices only: " +:+ TypeString t +:+
            " is not a slice")
    else
      ty' ← or_panic "reflect: Elem of invalid type" (Elem ty);
      Ret (resultGrouped (g_Name g) ty' true As)
  else Ret (resultGrouped (g_Name g) ty false As).

(** [newResultGrouped]: a field with a group tag. *)
Definition newResultGrouped (f : structField) : outcome result :=
  g ← parseGroupString (TagGet (f_Tag f) _groupTag);
  let name := TagGet (f_Tag f) _nameTag in
  let optional := (isFieldOptional f).1 in
  if g_Flatten g && bool_decide (Kind (f_Type f) ≠ Slice) then
    fail ("flatten can be applied to slices only: field " +:+ Quote (f_Name f) +:+
          " (" +:+ TypeString (f_Type f) +:+ ") is not a slice")
  else if g_Soft g then
    fail ("cannot use soft with result value groups: soft was used with group " +:+
          Quote (g_Name g))
  else if decide (name ≠ "") then
    fail ("cannot use named values with value groups: name:" +:+ Quote name +:+
          " provided with group:" +:+ Quote (g_Name g))
  else if optional then fail "value groups cannot be optional"
  else if g_Flatten g then
    ty ← or_panic "reflect: Elem of invalid type" (Elem (f_Type f));
    Ret (resultGrouped (g_Name g) ty true [])
  else Ret (resultGrouped (g_Name g) (f_Type f) false []).

(** [newResultObjectField]; [new] is [newResult] on the type of the field. *)
Definition newResultObjectField (new : rtype → resultOptions → outcome result)
    (idx : nat) (f : structField) (opts : resultOptions) : outcome resultObjectField :=
  r ← (if decide (f_PkgPath f ≠ "") then
         fail ("unexported fields not allowed in dig.Out, did you mean to export " +:+
               Quote (f_Name f) +:+ " (" +:+ TypeString (f_Type f) +:+ ")?")
       else if decide (TagGet (f_Tag f) _groupTag ≠ "") then newResultGrouped f
       else
         let name := TagGet (f_Tag f) _nameTag in
         let opts := if decide (name ≠ "")
                     then mkResultOptions name (ro_Group opts) (ro_As opts)
                     else opts in
         new (f_Type f) opts);
  Ret (mkROF (f_Name f) idx r).

(** The loop over the fields, from index [i] on. *)
Fixpoint newResultObjectFields (new : rtype → resultOptions → outcome result)
    (t : rtype) (opts : resultOptions) (i : nat) (fs : list structField)
    : outcome (list resultObjectField) :=
  match fs with
  | [] => Ret []
  | f :: fs' =>
      if decide (f_Type f = _outType) then newResultObjectFields new t opts (S i) fs'
      else
        rof ← map_err (λ err, newErrInvalidInput
                         ("bad field " +:+ Quote (f_Name f) +:+ " of " +:+
                          TypeString t) (Some err))
                      (newResultObjectField new i f opts);
        rofs ← newResultObjectFields new t opts (S i) fs';
        Ret (rof :: rofs)
  end.

Definition newResultObject (new : rtype → resultOptions → outcome result)
    (t : rtype) (opts : resultOptions) : outcome result :=
  if decide (ro_Name opts ≠ "") then
    fail ("cannot specify a name for result objects: " +:+ TypeString t +:+
          " embeds dig.Out")
  else if decide (ro_Group opts ≠ "") then
    fail ("cannot specify a group for result objects: " +:+ TypeString t +:+
          " embeds dig.Out")
  else
    fs ← newResultObjectFields new t opts 0 (Fields t);
    Ret (resultObject t fs).

(** [newResult]; the bound counts nested result objects. *)
Fixpoint newResult_ (fuel : nat) (t : rtype) (opts : resultOptions) : outcome result :=
  match fuel with
  | O => NoFuel
  | S fuel =>
      if IsIn (IType t) || ptrTo IsIn t || typeEmbeds t _inPtrType then
        fail ("cannot provide parameter objects: " +:+ TypeString t +:+
              " embeds a dig.In")
      else if isError t then
        fail "cannot return an error here, return it from the constructor instead"
      else if IsOut (IType t) then newResultObject (newResult_ fuel) t opts
      else if typeEmbeds t _outPtrType then
        fail ("cannot build a result object by embedding *dig.Out, embed dig.Out instead: "
              +:+ TypeString t +:+ " embeds *dig.Out")
      else if ptrTo IsOut t then
        fail ("cannot return a pointer to a result object, use a value instead: " +:+
              TypeString t +:+ " is a pointer to a struct that embeds dig.Out")
      else if decide (ro_Group opts ≠ "") then newResultOfGroup t opts
      else newResultSingle t opts
  end.

Definition newResult (t : rtype) (opts : resultOptions) : outcome result :=
  newResult_ (S (S (tt_rank t))) t opts.

(** The loop of [newResultList] over the outputs, from index [i] on; [resultIdx]
    is the number of results so far. *)
Fixpoint newResults (opts : resultOptions) (i resultIdx : nat) (outs : list rtype)
    : outcome (list result * list Z) :=
  match outs with
  | [] => Ret ([], [])
  | t :: outs' =>
      if isError t then
        '(rs, idxs) ← newResults opts (S i) resultIdx outs';
        Ret (rs, (-1)%Z :: idxs)
      else
        r ← map_err (λ err, newErrInvalidInput ("bad result " +:+ Itoa (i + 1)) (Some err))
                    (newResult t opts);
        '(rs, idxs) ← newResults opts (S i) (S resultIdx) outs';
        Ret (r :: rs, Z.of_nat resultIdx :: idxs)
  end.

Definition newResultList (ctype : rtype) (opts : resultOptions) : outcome resultList :=
  '(_, outs, _) ← or_panic "reflect: NumOut of non-func type" (FuncSig ctype);
  '(rs, idxs) ← newResults opts 0 0 outs;
  Ret (mkResultList ctype rs idxs).
End build.

(** ** The DOT view of results *)

Definition resultSingle_DotResult (name : string) (t : rtype) (As : list rtype)
    : list dotResult := (λ t, newDotResult (mkNode t name "")) <$> t :: As.
Definition resultGrouped_DotResult (group : string) (t : rtype) (As : list rtype)
    : list dotResult := (λ t, newDotResult (mkNode t "" group)) <$> t :: As.
Arguments resultSingle_DotResult _ _ _ /.
Arguments resultGrouped_DotResult _ _ _ /.

Fixpoint DotResult (r : result) : list dotResult :=
  match r with
  | resultSingle name t As => resultSingle_DotResult name t As
  | resultGrouped group t _ As => resultGrouped_DotResult group t As
  | resultObject _ fs => concat (map (λ f, DotResult (rof_Result f)) fs)
  | resultList_ rl => concat (map DotResult (rl_Results rl))
  end.

(** ** The walk over a tree of results *)

Section walk.
Context {V S : Type}.
(** The interface [resultVisitor]: a nil visitor is [None]; [S] is the state
    its methods share. *)
Context (Visit : V → result → S → option V * S).
Context (AnnotateWithField : V → resultObjectField → option V).
Context (AnnotateWithPosition : V → nat → option V).

Fixpoint walkResult (r : result) (v : V) (s : S) {struct r} : S :=
  match Visit v r s with
  | (None, s) => s
  | (Some w, s) =>
      match r with
      | resultSingle _ _ _ | resultGrouped _ _ _ _ => s
      | resultObject _ fs =>
          foldl (λ s f, match AnnotateWithField w f with
                        | Some v => walkResult (rof_Result f) v s
                        | None => s
                        end) s fs
      | resultList_ rl =>
          (foldl (λ '(s, i) r, (match AnnotateWithPosition w i with
                                | Some v => walkResult r v s
                                | None => s
                                end, Datatypes.S i)) (s, 0) (rl_Results rl)).1
      end
  end.
End walk.

(** ** Writing the produced values (the interface [containerWriter]) *)

Class containerWriter (W : Type) := {
  setValue : string → rtype → value → SM W ();
  setDecoratedValue : string → rtype → value → SM W ();
  submitGroupedValue : string → rtype → value → SM W ();
  submitDecoratedGroupedValue : string → rtype → value → SM W ()
}.

Section extract.
Context `{TT : TypeTable} {W : Type} `{CW : containerWriter W}.

(** The four methods [Extract]. *)
Definition resultSingle_Extract (name : string) (t : rtype) (As : list rtype)
    (decorated : bool) (v : value) : SM W () :=
  if decorated then setDecoratedValue name t v
  else _ ← setValue name t v;
       forEach As (λ asType, setValue name asType v).
#[global] Arguments resultSingle_Extract _ _ _ _ _ /.

Definition resultGrouped_Extract (group : string) (t : rtype) (flatten : bool)
    (As : list rtype) (decorated : bool) (v : value) : SM W () :=
  if negb decorated && negb flatten then
    _ ← submitGroupedValue group t v;
    forEach As (λ asType, submitGroupedValue group asType v)
  else if decorated then submitDecoratedGroupedValue group t v
  else
    vs ← orPanic "reflect: call of reflect.Value.Len" (value_Elems v);
    forEach vs (λ x, submitGroupedValue group t x).
#[global] Arguments resultGrouped_Extract _ _ _ _ _ _ /.

Fixpoint Extract (r : result) (decorated : bool) (v : value) : SM W () :=
  match r with
  | resultSingle name t As => resultSingle_Extract name t As decorated v
  | resultGrouped group t flatten As => resultGrouped_Extract group t flatten As decorated v
  | resultObject _ fs =>
      forEach fs (λ f,
        fv ← orPanic "reflect: Field index out of range" (value_Field v (rof_FieldIndex f));
        Extract (rof_Result f) decorated fv)
  | resultList_ _ => BugPanicf "resultList.Extract() must never be called"
  end.

(** [ExtractList], from output [i] on. *)
Fixpoint ExtractList_from (rl : resultList) (decorated : bool) (i : nat)
    (values : list value) : SM W () :=
  match values with
  | [] => mret ()
  | v :: values' =>
      resultIdx ← orPanic "index out of range" (rl_resultIndexes rl !! i);
      if decide (0 <= resultIdx)%Z then
        r ← orPanic "index out of range" (rl_Results rl !! Z.to_nat resultIdx);
        _ ← Extract r decorated v;
        ExtractList_from rl decorated (S i) values'
      else
        match value_error v with
        | Some err => throw err
        | None => ExtractList_from rl decorated (S i) values'
        end
  end.

Definition ExtractList (rl : resultList) (decorated : bool) (values : list value)
    : SM W () := ExtractList_from rl decorated 0 values.
End extract.

(** ** The keys of a decorator's results (decorate.go) *)

(** Number of results in a tree: the length of the search of [findResultKeys]. *)
Fixpoint result_size (r : result) : nat :=
  match r with
  | resultSingle _ _ _ | resultGrouped _ _ _ _ => 1
  | resultObject _ fs => S (sum_list_with (λ f, result_size (rof_Result f)) fs)
  | resultList_ rl => S (sum_list_with result_size (rl_Results rl))
  end.

Section resultKeys.
Context `{TT : TypeTable}.

Fixpoint findResultKeys_loop (fuel : nat) (q : list result) (keys : list key)
    : outcome (list key) :=
  match fuel with
  | O => NoFuel
  | S fuel =>
      match q with
      | [] => Ret keys
      | res :: q =>
          match res with
          | resultSingle name t _ =>
              findResultKeys_loop fuel q (keys ++ [valueKey name t])
          | resultGrouped group t _ _ =>
              if decide (Kind t ≠ Slice) then
                fail ("decorating a value group requires decorating the entire " +:+
                      "value group, not a single value")
              else
                el ← or_panic "reflect: Elem of invalid type" (Elem t);
                findResultKeys_loop fuel q (keys ++ [groupKey group el])
          | resultObject _ fs =>
              findResultKeys_loop fuel (q ++ (rof_Result <$> fs)) keys
          | resultList_ rl => findResultKeys_loop fuel (q ++ rl_Results rl) keys
          end
      end
  end.

Definition findResultKeys (r : resultList) : outcome (list key) :=
  findResultKeys_loop (S (result_size (resultList_ r))) [resultList_ r] [].
End resultKeys.
