(* ===== verification/Store.v ===== *)
(** * The container's state (scope.go, graph.go, container.go, and the node types
    of constructor.go, decorate.go and param.go)

    Scopes, constructor nodes, decorator nodes and the [orders] maps are shared
    mutable objects in the code; here they live in the lists of one [store],
    known by their position, and every operation is a computation over the
    store.  Slices of the code that are append-only are lists; maps are finite
    maps. *)

From S2P Require Import Prelude Digraph GoLib GoTypes DigReflect Errors Group InOut.
From S2P Require Import Values DotTypes Result.

Open Scope string_scope.
Open Scope list_scope.

(** ** Parameters (the types of param.go) *)

Record paramSingle := mkParamSingle {
  ps_Name : string;
  ps_Optional : bool;
  ps_Type : rtype
}.

(** [pt_orders] is the reference of the [orders] map. *)
Record paramGroupedSlice := mkParamGrouped {
  pt_Group : string;
  pt_Type : rtype;
  pt_Soft : bool;
  pt_orders : nat
}.

Record paramObjectFieldOf (P : Type) := mkPOF {
  pof_FieldName : string;
  pof_FieldIndex : nat;
  pof_Param : P
}.
Arguments mkPOF {P} _ _ _.
Arguments pof_FieldName {P} _.
Arguments pof_FieldIndex {P} _.
Arguments pof_Param {P} _.

(** The implementations of the interface [param] that build one value. *)
Inductive param :=
| PSingle (p : paramSingle)
| PGrouped (p : paramGroupedSlice)
| PObject (t : rtype) (fields : list (paramObjectFieldOf param)).

Abbreviation paramObjectField := (paramObjectFieldOf param).

Record paramList := mkParamList { pl_ctype : rtype; pl_Params : list param }.

Section param_ind.
Context (P : param → Prop).
Context (Hsingle : ∀ p, P (PSingle p)).
Context (Hgrouped : ∀ p, P (PGrouped p)).
Context (Hobject : ∀ t fs, Forall (λ f, P (pof_Param f)) fs → P (PObject t fs)).

Fixpoint param_ind' (p : param) : P p :=
  match p with
  | PSingle p => Hsingle p
  | PGrouped p => Hgrouped p
  | PObject t fs =>
      Hobject t fs
        ((fix go fs : Forall (λ f, P (pof_Param f)) fs :=
            match fs with
            | [] => Forall_nil_2 _
            | mkPOF n i p :: fs' =>
                Forall_cons_2 (λ f, P (pof_Param f)) (mkPOF n i p) fs'
                              (param_ind' p) (go fs')
            end) fs)
  end.
End param_ind.

(** ** Nodes *)

Record constructorNode := mkConstructorNode {
  cn_ctor : funcval;
  cn_location : option Func;
  cn_id : positive;
  cn_called : bool;
  cn_paramList : paramList;
  cn_resultList : resultList;
  cn_orders : nat;
  cn_s : nat;
  cn_origS : nat;
  cn_callback : option positive;
  cn_beforeCallback : option positive
}.

Inductive decoratorState := decoratorReady | decoratorOnStack | decoratorCalled.

#[export] Instance decoratorState_eq_dec : EqDecision decoratorState.
Proof. solve_decision. Defined.

Record decoratorNode := mkDecoratorNode {
  dn_dcor : funcval;
  dn_id : positive;
  dn_location : option Func;
  dn_state : decoratorState;
  dn_params : paramList;
  dn_results : resultList;
  dn_s : nat;
  dn_callback : option positive;
  dn_beforeCallback : option positive
}.

Definition set_called (n : constructorNode) : constructorNode :=
  mkConstructorNode (cn_ctor n) (cn_location n) (cn_id n) true (cn_paramList n)
    (cn_resultList n) (cn_orders n) (cn_s n) (cn_origS n) (cn_callback n)
    (cn_beforeCallback n).

Definition set_state (st : decoratorState) (n : decoratorNode) : decoratorNode :=
  mkDecoratorNode (dn_dcor n) (dn_id n) (dn_location n) st (dn_params n)
    (dn_results n) (dn_s n) (dn_callback n) (dn_beforeCallback n).

(** What a node of the dependency graph wraps (graph.go). *)
Inductive graphNode :=
| WCtor (n : nat)
| WGroup (p : paramGroupedSlice).

(** [snap] is -1 when no snapshot has been taken. *)
Record graphHolder := mkGraphHolder { gh_nodes : list graphNode; gh_snap : Z }.

Definition newGraphHolder : graphHolder := mkGraphHolder [] (-1).

(** [NewNode]: the new graph and the order of the node. *)
Definition NewNode (gh : graphHolder) (w : graphNode) : graphHolder * nat :=
  (mkGraphHolder (gh_nodes gh ++ [w]) (gh_snap gh), length (gh_nodes gh)).

Definition Snapshot (gh : graphHolder) : graphHolder :=
  mkGraphHolder (gh_nodes gh) (Z.of_nat (length (gh_nodes gh))).

Definition Rollback (gh : graphHolder) : graphHolder :=
  if decide (gh_snap gh < 0)%Z then gh
  else mkGraphHolder (take (Z.to_nat (gh_snap gh)) (gh_nodes gh)) (-1).

(** ** Scopes *)

Inductive invokerFn := defaultInvokerFn | dryInvokerFn.

(** A source of randomness: its seed and the number of permutations drawn. *)
Record randSource := mkRand { rand_seed : Z; rand_draws : nat }.

Record Scope := mkScope {
  sc_name : string;
  providers : gmap key (list nat);
  decorators : gmap key nat;
  nodes : list nat;
  decoratedValues : gmap key value;
  values : gmap key value;
  groups : gmap key (list value);
  decoratedGroups : gmap key value;
  sc_rand : randSource;
  isVerifiedAcyclic : bool;
  deferAcyclicVerification : bool;
  recoverFromPanics : bool;
  sc_invokerFn : invokerFn;
  gh : graphHolder;
  parentScope : option nat;
  childScopes : list nat;
  clockSrc : nat
}.

Definition set_providers f (s : Scope) : Scope :=
  let '(mkScope a b c d e g h i j k l m n o p q r) := s in
  mkScope a (f b) c d e g h i j k l m n o p q r.
Definition set_decorators f (s : Scope) : Scope :=
  let '(mkScope a b c d e g h i j k l m n o p q r) := s in
  mkScope a b (f c) d e g h i j k l m n o p q r.
Definition set_nodes f (s : Scope) : Scope :=
  let '(mkScope a b c d e g h i j k l m n o p q r) := s in
  mkScope a b c (f d) e g h i j k l m n o p q r.
Definition set_decoratedValues f (s : Scope) : Scope :=
  let '(mkScope a b c d e g h i j k l m n o p q r) := s in
  mkScope a b c d (f e) g h i j k l m n o p q r.
Definition set_values f (s : Scope) : Scope :=
  let '(mkScope a b c d e g h i j k l m n o p q r) := s in
  mkScope a b c d e (f g) h i j k l m n o p q r.
Definition set_groups f (s : Scope) : Scope :=
  let '(mkScope a b c d e g h i j k l m n o p q r) := s in
  mkScope a b c d e g (f h) i j k l m n o p q r.
Definition set_decoratedGroups f (s : Scope) : Scope :=
  let '(mkScope a b c d e g h i j k l m n o p q r) := s in
  mkScope a b c d e g h (f i) j k l m n o p q r.
Definition set_rand f (s : Scope) : Scope :=
  let '(mkScope a b c d e g h i j k l m n o p q r) := s in
  mkScope a b c d e g h i (f j) k l m n o p q r.
Definition set_isVerifiedAcyclic v (s : Scope) : Scope :=
  let '(mkScope a b c d e g h i j k l m n o p q r) := s in
  mkScope a b c d e g h i j v l m n o p q r.
Definition set_gh f (s : Scope) : Scope :=
  let '(mkScope a b c d e g h i j k l m n o p q r) := s in
  mkScope a b c d e g h i j k l m n (f o) p q r.
Definition set_childScopes f (s : Scope) : Scope :=
  let '(mkScope a b c d e g h i j k l m n o p q r) := s in
  mkScope a b c d e g h i j k l m n o p (f q) r.

(** ** Events and the environment *)

Inductive caller := ByCtor (n : nat) | ByDcor (n : nat) | ByInvoke.

#[export] Instance caller_eq_dec : EqDecision caller.
Proof. solve_decision. Defined.

(** What the user's code sees of a run: calls of its functions and callbacks. *)
Inductive event :=
| EvBefore (cb : positive) (name : string)
| EvCall (who : caller) (fn : funcval) (args : list value)
| EvCallback (cb : positive) (name : string) (err : option error) (runtime : Z).

Inductive callres :=
| Returned (vs : list value)
| Panicked (id : Z) (quoted : string).

(** The Go program around dig: its types, what the runtime knows about its
    functions, what those functions do (depending on everything that happened
    before), which callbacks panic and with what, the clocks and the random
    permutations.  The two laws are what the
    language and [math/rand] guarantee: a call returns values of the result
    types of the function, and [Perm(n)] is a permutation of [0..n-1]. *)
Class Env := {
  env_types :: TypeTable;
  env_runtime :: Runtime;
  env_call : list event → funcval → list value → callres;
  env_callback : list event → event → option (Z * string);
  env_now : nat → list event → Z;
  env_perm : randSource → nat → list nat;
  env_call_typed : ∀ tr f args vs ins outs var,
    FuncSig (fv_type f) = Some (ins, outs, var) →
    env_call tr f args = Returned vs →
    value_Type <$> vs = Some <$> outs ∧ forallb well_typed vs = true;
  env_perm_ok : ∀ r n, env_perm r n ≡ₚ seq 0 n
}.

(** [digreflect.InspectFunc]. *)
Definition InspectFunc `{Env} (f : funcval) : option Func := InspectFuncPC (fv_ptr f).

(** ** Introspection records filled on request (provide.go, invoke.go,
    decorate.go) *)

Record Input := mkInput {
  in_t : rtype; in_optional : bool; in_name : string; in_group : string }.
Record Output := mkOutput { out_t : rtype; out_name : string; out_group : string }.

Inductive info :=
| ProvideInfo (ID : positive) (Inputs : list Input) (Outputs : list Output)
| DecorateInfo (ID : positive) (Inputs : list Input) (Outputs : list Output)
| InvokeInfo (Inputs : list Input).

(** ** The store *)

Record store := mkStore {
  st_scopes : list Scope;
  st_ctors : list constructorNode;
  st_dcors : list decoratorNode;
  st_orders : list (gmap nat nat);
  st_infos : gmap positive info;
  st_trace : list event
}.

Definition upd_scopes f (st : store) : store :=
  mkStore (f (st_scopes st)) (st_ctors st) (st_dcors st) (st_orders st) (st_infos st)
          (st_trace st).
Definition upd_ctors f (st : store) : store :=
  mkStore (st_scopes st) (f (st_ctors st)) (st_dcors st) (st_orders st) (st_infos st)
          (st_trace st).
Definition upd_dcors f (st : store) : store :=
  mkStore (st_scopes st) (st_ctors st) (f (st_dcors st)) (st_orders st) (st_infos st)
          (st_trace st).
Definition upd_orders f (st : store) : store :=
  mkStore (st_scopes st) (st_ctors st) (st_dcors st) (f (st_orders st)) (st_infos st)
          (st_trace st).
Definition upd_infos f (st : store) : store :=
  mkStore (st_scopes st) (st_ctors st) (st_dcors st) (st_orders st) (f (st_infos st))
          (st_trace st).
Definition upd_trace f (st : store) : store :=
  mkStore (st_scopes st) (st_ctors st) (st_dcors st) (st_orders st) (st_infos st)
          (f (st_trace st)).

Definition emptyStore : store := mkStore [] [] [] [] ∅ [].

Abbreviation M := (SM store).

Definition getScope (s : nat) : M Scope :=
  st ← getS; orPanic nilDeref (st_scopes st !! s).
Definition getCtor (n : nat) : M constructorNode :=
  st ← getS; orPanic nilDeref (st_ctors st !! n).
Definition getDcor (d : nat) : M decoratorNode :=
  st ← getS; orPanic nilDeref (st_dcors st !! d).

Definition modScope (s : nat) (f : Scope → Scope) : M () :=
  modifyS (upd_scopes (alter f s)).
Definition modCtor (n : nat) (f : constructorNode → constructorNode) : M () :=
  modifyS (upd_ctors (alter f n)).
Definition modDcor (d : nat) (f : decoratorNode → decoratorNode) : M () :=
  modifyS (upd_dcors (alter f d)).
Definition logEvent (e : event) : M () := modifyS (upd_trace (λ tr, tr ++ [e])).

(** [make(map[*Scope]int)]. *)
Definition newOrders : M nat :=
  st ← getS; _ ← modifyS (upd_orders (λ l, l ++ [∅])); mret (length (st_orders st)).

(** A method of a scope that only touches the scope's own fields. *)
Definition zoomScope {A} (s : nat) (m : SM Scope A) : M A := λ st,
  match st_scopes st !! s with
  | None => (Panic_ (PRuntime nilDeref), st)
  | Some sc => let '(r, sc') := m sc in (r, upd_scopes <[s := sc']> st)
  end.

(** ** Reading and writing one scope *)

Definition getValue (sc : Scope) (name : string) (t : rtype) : option value :=
  values sc !! valueKey name t.
Definition getDecoratedValue (sc : Scope) (name : string) (t : rtype) : option value :=
  decoratedValues sc !! valueKey name t.
Definition getDecoratedValueGroup (sc : Scope) (name : string) (t : rtype) : option value :=
  decoratedGroups sc !! groupKey name t.

(** The entry of a map of slices; a missing key is the nil slice. *)
Definition getProviders (sc : Scope) (k : key) : list nat := default [] (providers sc !! k).
Definition getValueProviders (sc : Scope) (name : string) (t : rtype) : list nat :=
  getProviders sc (valueKey name t).
Definition getGroupProviders (sc : Scope) (name : string) (t : rtype) : list nat :=
  getProviders sc (groupKey name t).

Definition getDecorators (sc : Scope) (k : key) : option nat := decorators sc !! k.
Definition getValueDecorator (sc : Scope) (name : string) (t : rtype) : option nat :=
  getDecorators sc (valueKey name t).
Definition getGroupDecorator (sc : Scope) (name : string) (t : rtype) : option nat :=
  getDecorators sc (groupKey name t).

(** The scope as a [containerWriter]. *)
#[export] Instance Scope_writer : containerWriter Scope := {|
  setValue name t v := modifyS (set_values <[valueKey name t := v]>);
  setDecoratedValue name t v := modifyS (set_decoratedValues <[valueKey name t := v]>);
  submitGroupedValue name t v :=
    modifyS (set_groups (λ g, <[groupKey name t := default [] (g !! groupKey name t) ++ [v]]> g));
  submitDecoratedGroupedValue name t v :=
    modifyS (set_decoratedGroups <[groupKey name t := v]>)
|}.

Section scope.
Context `{E : Env}.

(** [shuffledCopy]: position [i] receives the item at the [i]th index of the
    permutation. *)
Definition shuffledCopy (items : list value) : SM Scope (list value) :=
  sc ← getS;
  _ ← modifyS (set_rand (λ r, mkRand (rand_seed r) (S (rand_draws r))));
  forMap (env_perm (sc_rand sc) (length items))
         (λ j, orPanic "index out of range" (items !! j)).

Definition getValueGroup (name : string) (t : rtype) : SM Scope (list value) :=
  sc ← getS; shuffledCopy (default [] (groups sc !! groupKey name t)).

(** Insertion of a type by name: [sort.Sort(byTypeName(..))]. *)
Fixpoint insertType (t : rtype) (l : list rtype) : list rtype :=
  match l with
  | [] => [t]
  | t' :: l' =>
      match String.compare (TypeString t) (TypeString t') with
      | Gt => t' :: insertType t l'
      | _ => t :: l
      end
  end.

Definition sortTypes (l : list rtype) : list rtype := foldr insertType [] l.

Definition knownTypes (sc : Scope) : list rtype :=
  sortTypes (elements (list_to_set (C := gset rtype) (k_t <$> (map_to_list (providers sc)).*1))).

(** [newScope]: a fresh scope, not yet part of a tree. *)
Definition newScope : M nat :=
  st ← getS;
  _ ← modifyS (upd_scopes (λ l, l ++ [
        mkScope "" ∅ ∅ [] ∅ ∅ ∅ ∅ (mkRand (env_now 0 (st_trace st)) 0)
                false false false defaultInvokerFn newGraphHolder None [] 0]));
  mret (length (st_scopes st)).
End scope.

(** ** The tree of scopes *)

(** [ancestors]: this scope first, then its parents up to the root.  A parent is
    created before its children, so the number of scopes bounds the walk. *)
Fixpoint ancestors_from (scs : list Scope) (fuel : nat) (s : option nat) : list nat :=
  match fuel, s with
  | S fuel, Some i =>
      match scs !! i with
      | Some sc => i :: ancestors_from scs fuel (parentScope sc)
      | None => []
      end
  | _, _ => []
  end.

Definition ancestors (scs : list Scope) (s : nat) : list nat :=
  ancestors_from scs (S s) (Some s).

(** [storesToRoot]: the same scopes, seen as stores. *)
Definition storesToRoot (s : nat) : M (list nat) :=
  st ← getS; mret (ancestors (st_scopes st) s).

(** [appendSubscopes]: the scope and all its descendants, in preorder. *)
Fixpoint appendSubscopes (scs : list Scope) (fuel : nat) (dest : list nat) (s : nat)
    : list nat :=
  match fuel with
  | O => dest
  | S fuel =>
      match scs !! s with
      | Some sc => foldl (appendSubscopes scs fuel) (dest ++ [s]) (childScopes sc)
      | None => dest
      end
  end.

Definition subscopes (scs : list Scope) (s : nat) : list nat :=
  appendSubscopes scs (length scs) [] s.

(** [rootScope]. *)
Fixpoint rootScope_from (scs : list Scope) (fuel : nat) (curr : nat) : nat :=
  match fuel with
  | O => curr
  | S fuel =>
      match scs !! curr with
      | Some sc => match parentScope sc with
                   | Some p => rootScope_from scs fuel p
                   | None => curr
                   end
      | None => curr
      end
  end.

Definition rootScope (scs : list Scope) (s : nat) : nat := rootScope_from scs (S s) s.

(** [getAllProviders], over this scope and its ancestors. *)
Definition getAllProviders (scs : list Scope) (s : nat) (k : key) : list nat :=
  concat (map (λ i, match scs !! i with
                    | Some sc => getProviders sc k
                    | None => []
                    end) (ancestors scs s)).
Definition getAllValueProviders (scs : list Scope) s name t : list nat :=
  getAllProviders scs s (valueKey name t).
Definition getAllGroupProviders (scs : list Scope) s name t : list nat :=
  getAllProviders scs s (groupKey name t).

(** The entry of an [orders] map; a missing scope is 0, as in Go. *)
Definition orderIn (st : store) (o : nat) (s : nat) : nat :=
  default 0 (st_orders st !! o ≫= λ m, m !! s).

(** [constructorNode.Order]. *)
Definition ctorOrder (st : store) (s n : nat) : nat :=
  match st_ctors st !! n with Some cn => orderIn st (cn_orders cn) s | None => 0 end.

(** [newGraphNode]: the node is added to the graph of the scope and of all its
    descendants, and its order in each is recorded in the map [orders]. *)
Fixpoint newGraphNode_ (fuel : nat) (s : nat) (w : graphNode) (orders : nat) : M () :=
  match fuel with
  | O => liftO NoFuel
  | S fuel =>
      sc ← getScope s;
      let '(gh', order) := NewNode (gh sc) w in
      _ ← modScope s (set_gh (λ _, gh'));
      _ ← modifyS (upd_orders (alter <[s := order]> orders));
      forEach (childScopes sc) (λ cs, newGraphNode_ fuel cs w orders)
  end.

Definition newGraphNode (s : nat) (w : graphNode) (orders : nat) : M () :=
  st ← getS; newGraphNode_ (S (length (st_scopes st))) s w orders.

(** [constructorNode.CopyOrder]. *)
Definition CopyOrder (n parent child : nat) : M () :=
  cn ← getCtor n;
  modifyS (λ st, upd_orders (alter <[child := orderIn st (cn_orders cn) parent]>
                                   (cn_orders cn)) st).

(** [Scope.Scope]: a child scope that inherits the settings and the graph. *)
Definition Scope_Scope `{Env} (s : nat) (name : string) : M nat :=
  child ← newScope;
  par ← getScope s;
  _ ← modScope child (λ c,
        mkScope name (providers c) (decorators c) (nodes c) (decoratedValues c)
          (values c) (groups c) (decoratedGroups c) (sc_rand c) (isVerifiedAcyclic c)
          (deferAcyclicVerification par) (recoverFromPanics par) (sc_invokerFn par)
          (gh c) (Some s) (childScopes c) (clockSrc par));
  _ ← forEach (gh_nodes (gh par)) (λ node,
        _ ← modScope child (set_gh (λ g, (NewNode g node).1));
        match node with
        | WCtor n => CopyOrder n s child
        | WGroup _ => mret ()
        end);
  _ ← modScope s (set_childScopes (λ l, l ++ [child]));
  mret child.

(** ** The graph of a scope (graph.go, [getParamOrder] of param.go) *)

Fixpoint getParamOrder (st : store) (s : nat) (p : param) : list nat :=
  match p with
  | PSingle p =>
      ctorOrder st s <$> getAllValueProviders (st_scopes st) s (ps_Name p) (ps_Type p)
  | PGrouped p => [orderIn st (pt_orders p) s]
  | PObject _ fs => concat (map (λ f, getParamOrder st s (pof_Param f)) fs)
  end.

(** [EdgesFrom]; [None] is the panic of [Lookup] on an invalid order, or of
    [Elem] on a type that is not a slice. *)
Definition EdgesFrom_gh `{TypeTable} (st : store) (s : nat) (u : nat) : option (list nat) :=
  sc ← st_scopes st !! s;
  w ← gh_nodes (gh sc) !! u;
  match w with
  | WCtor n =>
      cn ← st_ctors st !! n;
      Some (concat (map (getParamOrder st s) (pl_Params (cn_paramList cn))))
  | WGroup p =>
      el ← Elem (pt_Type p);
      Some (ctorOrder st s <$> getAllGroupProviders (st_scopes st) s (pt_Group p) el)
  end.

(** The graph holder of a scope as a [Graph]. *)
Definition scopeGraph `{TypeTable} (st : store) (s : nat) : Graph :=
  mkGraph (match st_scopes st !! s with Some sc => length (gh_nodes (gh sc)) | None => 0 end)
          (EdgesFrom_gh st s).

(** [graph.IsAcyclic(s.gh)]: [None] when acyclic, else the cycle. *)
Definition checkAcyclic `{TypeTable} (s : nat) : M (option (list nat)) :=
  st ← getS;
  match IsAcyclic (scopeGraph st s) with
  | Done (true, _) => mret None
  | Done (false, c) => mret (Some c)
  | IndexPanic => panic "index out of range"
  | OutOfFuel => liftO NoFuel
  end.

(** [cycleDetectedError]. *)
Definition cycleDetectedError (st : store) (s : nat) (cycle : list nat) : error :=
  let sc := st_scopes st !! s in
  let entry n :=
    match sc ≫= λ sc, gh_nodes (gh sc) !! n with
    | Some (WCtor c) =>
        match st_ctors st !! c with
        | Some cn => [mkEntry (mkKey (fv_type (cn_ctor cn)) "" "") (cn_location cn)]
        | None => []
        end
    | _ => []
    end in
  errCycleDetected (concat (map entry cycle))
                   (match sc with Some sc => sc_name sc | None => "" end).

(** ** Containers (container.go) *)

Inductive Option_ :=
| deferAcyclicVerificationOption
| recoverFromPanicsOption
| setRandOption (r : randSource)
| setClockOption (c : nat)
| dryRunOption (dry : bool).

Definition DeferAcyclicVerification : Option_ := deferAcyclicVerificationOption.
Definition RecoverFromPanics : Option_ := recoverFromPanicsOption.
Definition setRand (r : randSource) : Option_ := setRandOption r.
Definition setClock (c : nat) : Option_ := setClockOption c.
Definition DryRun (dry : bool) : Option_ := dryRunOption dry.

Definition deferAcyclicVerification_apply (s : Scope) : Scope :=
  let '(mkScope a b c d e g h i j k _ m n o p q r) := s in
  mkScope a b c d e g h i j k true m n o p q r.
Definition recoverFromPanics_apply (s : Scope) : Scope :=
  let '(mkScope a b c d e g h i j k l _ n o p q r) := s in
  mkScope a b c d e g h i j k l true n o p q r.
Definition setClock_apply (x : nat) (s : Scope) : Scope :=
  let '(mkScope a b c d e g h i j k l m n o p q _) := s in
  mkScope a b c d e g h i j k l m n o p q x.
Definition dryRun_apply (dry : bool) (s : Scope) : Scope :=
  let '(mkScope a b c d e g h i j k l m _ o p q r) := s in
  mkScope a b c d e g h i j k l m (if dry then dryInvokerFn else defaultInvokerFn) o p q r.

(** [setRandOption.applyOption] sets the source of randomness. *)
Definition applyOption (o : Option_) : Scope → Scope :=
  match o with
  | deferAcyclicVerificationOption => deferAcyclicVerification_apply
  | recoverFromPanicsOption => recoverFromPanics_apply
  | setRandOption r => set_rand (λ _, r)
  | setClockOption c => setClock_apply c
  | dryRunOption dry => dryRun_apply dry
  end.

(** [New]: a store with one scope, the root. *)
Definition New `{Env} (opts : list Option_) : M nat :=
  s ← newScope;
  _ ← forEach opts (λ o, modScope s (applyOption o));
  mret s.
