(* ===== verification/Options.v ===== *)
(** * The options of [Provide], [Decorate] and [Invoke] (provide.go, decorate.go,
    invoke.go, callback.go, before_callback.go)

    Each option type of the code is a constructor, with its [apply] method as a
    definition; callbacks and the records to fill are known by an identity. *)

From S2P Require Import Prelude Digraph GoLib GoTypes DigReflect Errors Group InOut.
From S2P Require Import Values DotTypes Result Store.

Open Scope string_scope.
Open Scope list_scope.

(** ** What the options set *)

Record provideOptions := mkProvideOptions {
  po_Name : string;
  po_Group : string;
  po_Info : option positive;
  po_As : list iface;
  po_Location : option Func;
  po_Exported : bool;
  po_Callback : option positive;
  po_BeforeCallback : option positive
}.

Definition noProvideOptions : provideOptions :=
  mkProvideOptions "" "" None [] None false None None.

Record decorateOptions := mkDecorateOptions {
  do_Info : option positive;
  do_Callback : option positive;
  do_BeforeCallback : option positive
}.

Definition noDecorateOptions : decorateOptions := mkDecorateOptions None None None.

Record invokeOptions := mkInvokeOptions { io_Info : option positive }.

(** ** Callbacks: one type for [Provide] and [Decorate] *)

Record withCallbackOption := mkWithCallback { wc_callback : option positive }.
Record withBeforeCallbackOption := mkWithBeforeCallback { wb_callback : option positive }.

Definition callback_applyProvide (o : withCallbackOption) (po : provideOptions)
    : provideOptions :=
  let '(mkProvideOptions n g i a l e _ b) := po in
  mkProvideOptions n g i a l e (wc_callback o) b.
Definition callback_applyDecorate (o : withCallbackOption) (po : decorateOptions)
    : decorateOptions :=
  mkDecorateOptions (do_Info po) (wc_callback o) (do_BeforeCallback po).

Definition before_applyProvide (o : withBeforeCallbackOption) (po : provideOptions)
    : provideOptions :=
  let '(mkProvideOptions n g i a l e c _) := po in
  mkProvideOptions n g i a l e c (wb_callback o).
Definition before_applyDecorate (o : withBeforeCallbackOption) (po : decorateOptions)
    : decorateOptions :=
  mkDecorateOptions (do_Info po) (do_Callback po) (wb_callback o).

(** ** Options of [Provide] *)

Inductive ProvideOption :=
| provideNameOption (o : string)
| provideGroupOption (o : string)
| fillProvideInfoOption (info : positive)
| provideAsOption (o : list iface)
| provideLocationOption (loc : option Func)
| provideExportOption (exported : bool)
| provideCallbackOption (o : withCallbackOption)
| provideBeforeCallbackOption (o : withBeforeCallbackOption).

Definition Name (name : string) : ProvideOption := provideNameOption name.
Definition Group_ (group : string) : ProvideOption := provideGroupOption group.
Definition FillProvideInfo (info : positive) : ProvideOption := fillProvideInfoOption info.
Definition As (i : list iface) : ProvideOption := provideAsOption i.
Definition LocationForPC `{Runtime} (pc : positive) : ProvideOption :=
  provideLocationOption (InspectFuncPC pc).
Definition Export (export : bool) : ProvideOption := provideExportOption export.
Definition WithProviderCallback (callback : option positive) : ProvideOption :=
  provideCallbackOption (mkWithCallback callback).
Definition WithProviderBeforeCallback (callback : option positive) : ProvideOption :=
  provideBeforeCallbackOption (mkWithBeforeCallback callback).

Definition name_apply (o : string) (opt : provideOptions) : provideOptions :=
  let '(mkProvideOptions _ g i a l e c b) := opt in mkProvideOptions o g i a l e c b.
Definition group_apply (o : string) (opt : provideOptions) : provideOptions :=
  let '(mkProvideOptions n _ i a l e c b) := opt in mkProvideOptions n o i a l e c b.
Definition fillProvideInfo_apply (info : positive) (opts : provideOptions) : provideOptions :=
  let '(mkProvideOptions n g _ a l e c b) := opts in
  mkProvideOptions n g (Some info) a l e c b.
Definition as_apply (o : list iface) (opts : provideOptions) : provideOptions :=
  let '(mkProvideOptions n g i a l e c b) := opts in
  mkProvideOptions n g i (a ++ o) l e c b.
Definition location_apply (loc : option Func) (opts : provideOptions) : provideOptions :=
  let '(mkProvideOptions n g i a _ e c b) := opts in mkProvideOptions n g i a loc e c b.
Definition export_apply (exported : bool) (opts : provideOptions) : provideOptions :=
  let '(mkProvideOptions n g i a l _ c b) := opts in
  mkProvideOptions n g i a l exported c b.

Definition applyProvideOption (o : ProvideOption) : provideOptions → provideOptions :=
  match o with
  | provideNameOption o => name_apply o
  | provideGroupOption o => group_apply o
  | fillProvideInfoOption info => fillProvideInfo_apply info
  | provideAsOption o => as_apply o
  | provideLocationOption loc => location_apply loc
  | provideExportOption e => export_apply e
  | provideCallbackOption o => callback_applyProvide o
  | provideBeforeCallbackOption o => before_applyProvide o
  end.

(** ** Options of [Decorate] and [Invoke] *)

Inductive DecorateOption :=
| fillDecorateInfoOption (info : positive)
| decorateCallbackOption (o : withCallbackOption)
| decorateBeforeCallbackOption (o : withBeforeCallbackOption).

Definition FillDecorateInfo (info : positive) : DecorateOption := fillDecorateInfoOption info.
Definition WithDecoratorCallback (callback : option positive) : DecorateOption :=
  decorateCallbackOption (mkWithCallback callback).
Definition WithDecoratorBeforeCallback (callback : option positive) : DecorateOption :=
  decorateBeforeCallbackOption (mkWithBeforeCallback callback).

Definition fillDecorateInfo_apply (info : positive) (opts : decorateOptions)
    : decorateOptions :=
  mkDecorateOptions (Some info) (do_Callback opts) (do_BeforeCallback opts).

Definition applyDecorateOption (o : DecorateOption) : decorateOptions → decorateOptions :=
  match o with
  | fillDecorateInfoOption info => fillDecorateInfo_apply info
  | decorateCallbackOption o => callback_applyDecorate o
  | decorateBeforeCallbackOption o => before_applyDecorate o
  end.

Inductive InvokeOption := fillInvokeInfoOption (info : positive).

Definition FillInvokeInfo (info : positive) : InvokeOption := fillInvokeInfoOption info.

Definition applyInvokeOption (o : InvokeOption) (_ : invokeOptions) : invokeOptions :=
  match o with fillInvokeInfoOption p => mkInvokeOptions (Some p) end.

(** ** Text of the options *)

Section text.
Context `{TT : TypeTable}.

Definition name_String (o : string) : string := "Name(" +:+ Quote o +:+ ")".
Definition group_String (o : string) : string := "Group(" +:+ Quote o +:+ ")".
Definition location_String (loc : option Func) : string :=
  "LocationForPC(" +:+ OptFunc_Format false loc +:+ ")".
Definition bool_String (b : bool) : string := if b then "true" else "false".
Definition export_String (exported : bool) : string := "Export(" +:+ bool_String exported +:+ ")".

(** [reflect.TypeOf(iface).Elem()] panics on nil and on a type without elements. *)
Fixpoint as_types (o : list iface) : outcome (list string) :=
  match o with
  | [] => Ret []
  | i :: o' =>
      t ← or_panic nilDeref (TypeOf i);
      el ← or_panic "reflect: Elem of invalid type" (Elem t);
      ts ← as_types o';
      Ret (TypeString el :: ts)
  end.
Definition as_String (o : list iface) : outcome string :=
  ts ← as_types o; Ret ("As(" +:+ Join ", " ts +:+ ")").
End text.
