(* ===== verification/Scenario.v ===== *)
(** * A concrete Go program around the container

    A small type table and an environment built from it, for the witnesses and
    the scenarios of the development.  [mkEnv] turns any behaviour of the user's
    functions into an environment: a behaviour that returns values of the wrong
    types, which no Go function can do, is replaced by zero values. *)

From S2P Require Import Prelude Digraph GoLib GoTypes DigReflect Errors Group InOut.
From S2P Require Import Values DotTypes Result Store.

Open Scope string_scope.
Open Scope list_scope.

Definition results_ok `{TypeTable} (outs : list rtype) (vs : list value) : bool :=
  bool_decide ((value_Type <$> vs) = (Some <$> outs)) && forallb well_typed vs.

Definition typedCall `{TypeTable} (beh : list event → funcval → list value → callres)
    (tr : list event) (f : funcval) (args : list value) : callres :=
  match FuncSig (fv_type f) with
  | Some (_, outs, _) =>
      match beh tr f args with
      | Returned vs => if results_ok outs vs then Returned vs else Returned (VZero <$> outs)
      | Panicked id quoted => Panicked id quoted
      end
  | None => Returned []
  end.

Lemma typedCall_typed `{TypeTable} beh tr f args vs ins outs var :
  FuncSig (fv_type f) = Some (ins, outs, var) → typedCall beh tr f args = Returned vs →
  value_Type <$> vs = Some <$> outs ∧ forallb well_typed vs = true.
Proof.
  unfold typedCall. intros ->. destruct (beh tr f args) as [ws|p]; [|done].
  destruct (results_ok outs ws) eqn:Hok; intros [= <-].
  - unfold results_ok in Hok. apply andb_true_iff in Hok as [Hok ?].
    by apply bool_decide_eq_true_1 in Hok.
  - split; [rewrite <- list_fmap_compose; by apply list_fmap_ext|].
    clear. induction outs as [|t outs IH]; [done|exact IH].
Qed.

Definition mkEnv (TT : TypeTable)
    (beh : list event → funcval → list value → callres) : Env := {|
  env_types := TT;
  env_runtime := λ pc, Some ("main.f" +:+ pretty (Pos.to_nat pc), "main.go", Pos.to_nat pc);
  env_call := typedCall beh;
  env_callback _ _ := None;
  env_now _ _ := 0%Z;
  env_perm _ n := seq 0 n;
  env_call_typed := typedCall_typed beh;
  env_perm_ok _ n := reflexivity (seq 0 n)
|}.

(** ** Types of the scenarios *)

Definition tA : rtype := TDef 10.
Definition tB : rtype := TDef 11.
Definition tC : rtype := TDef 12.
Definition tD : rtype := TDef 13.
(** [interface{}]. *)
Definition tAny : rtype := TDef 14.
(** [struct { dig.In; Xs []A `group:"g"` }]. *)
Definition tInG : rtype := TDef 20.
(** [struct { dig.In; A A `optional:"true"` }]. *)
Definition tInOpt : rtype := TDef 21.
(** [struct { dig.Out; X A `group:"g"` }]. *)
Definition tOutG : rtype := TDef 22.

(** [struct { dig.Out; X [][]A `group:"g,flatten"` }]. *)
Definition tOutFl : rtype := TDef 23.

(** [struct { dig.Out; X []A `group:"g"` }]. *)
Definition tOutGs : rtype := TDef 24.

Definition inField : structField := mkField "In" "" _inType [] true.
Definition outField : structField := mkField "Out" "" _outType [] true.

Definition basicDesc (name : string) : typeDesc := mkDesc name UBasic [] [].
Definition funcDesc (ins outs : list rtype) : typeDesc :=
  mkDesc "func" (UFunc ins outs false) [] [].

Definition scenarioTypes : list (positive * typeDesc) :=
  [ (10, basicDesc "main.A"); (11, basicDesc "main.B"); (12, basicDesc "main.C");
    (13, basicDesc "main.D");
    (14, mkDesc "interface {}" UInterface [] []);
    (20, mkDesc "main.InG"
           (UStruct [inField; mkField "Xs" "" (TSlice tA) [("group", "g")] false]) [] []);
    (21, mkDesc "main.InOpt"
           (UStruct [inField; mkField "A" "" tA [("optional", "true")] false]) [] []);
    (22, mkDesc "main.OutG"
           (UStruct [outField; mkField "X" "" tA [("group", "g")] false]) [] []);
    (23, mkDesc "main.OutFl"
           (UStruct [outField; mkField "X" "" (TSlice (TSlice tA)) [("group", "g,flatten")] false])
           [] []);
    (24, mkDesc "main.OutGs"
           (UStruct [outField; mkField "X" "" (TSlice tA) [("group", "g")] false]) [] []);
    (* functions *)
    (40, funcDesc [] [tA]);               (* func() A *)
    (41, funcDesc [tA] [tB]);             (* func(A) B *)
    (42, funcDesc [tB] [tA]);             (* func(B) A *)
    (43, funcDesc [tA] []);               (* func(A) *)
    (44, funcDesc [tB] []);               (* func(B) *)
    (45, funcDesc [] [tA; _errType]);     (* func() (A, error) *)
    (46, funcDesc [tInG] [tB]);           (* func(InG) B *)
    (47, funcDesc [tA] [tA; _errType]);   (* func(A) (A, error) *)
    (48, funcDesc [] [TSlice tA]);        (* func() []A *)
    (49, funcDesc [tInOpt] []);           (* func(InOpt) *)
    (50, funcDesc [tInG] []);             (* func(InG) *)
    (51, funcDesc [] [tOutG]);            (* func() OutG *)
    (52, funcDesc [tB] [tC]);             (* func(B) C *)
    (53, funcDesc [tC] [tB]);             (* func(C) B *)
    (54, funcDesc [tD] [tC]);             (* func(D) C *)
    (55, funcDesc [tA] [tD]);             (* func(A) D *)
    (56, funcDesc [] [tA; tB]);           (* func() (A, B) *)
    (57, funcDesc [] [tB]);               (* func() B *)
    (58, funcDesc [tA] [tA; tB]);         (* func(A) (A, B) *)
    (59, funcDesc [tA] [tA]);             (* func(A) A *)
    (60, funcDesc [tA; tB] [tA]);         (* func(A, B) A *)
    (61, funcDesc [tInG] [tOutFl]);       (* func(InG) OutFl *)
    (62, funcDesc [tInG] [tOutG]);        (* func(InG) OutG *)
    (63, funcDesc [tInG] [tOutGs])        (* func(InG) OutGs *)
  ]%positive.

Definition scenarioTable : TypeTable := mkTable scenarioTypes eq_refl.
#[local] Existing Instance scenarioTable.

(** The function with type [ty], code pointer and identity [id]. *)
Definition fn (ty id : positive) : iface := IFunc (mkFuncval (TDef ty) id id).

(** Every function returns fresh-looking objects: its own identity. *)
Definition plain : list event → funcval → list value → callres := λ _ f _,
  match FuncSig (fv_type f) with
  | Some (_, outs, _) =>
      Returned ((λ t, if isError t then VZero t
                      else match Kind t with
                           | Struct | Slice => VZero t
                           | _ => VObj t (Z.pos (fv_id f))
                           end) <$> outs)
  | None => Returned []
  end.

Definition plainEnv : Env := mkEnv scenarioTable plain.

(** A scope with nothing in it. *)
Definition blankScope : Scope :=
  mkScope "" ∅ ∅ [] ∅ ∅ ∅ ∅ (mkRand 0 0) false false false defaultInvokerFn newGraphHolder
          None [] 0.
