(* ===== verification/Param.v ===== *)
(** * Parameters of constructors (param.go), and missing dependencies (invoke.go,
    error.go)

    How the parameter types of a function are read into [param]s, which creates
    a graph node for every value group that is consumed; and the shallow check
    that the direct dependencies of a function are available. *)

From S2P Require Import Prelude Digraph GoLib GoTypes DigReflect Errors Group InOut.
From S2P Require Import Values DotTypes Result Store.

Open Scope string_scope.
Open Scope list_scope.

Section new.
Context `{E : Env}.

Definition failM {A} (msg : string) : M A := throw (newErrInvalidInput msg None).

(** [newParamGroupedSlice]. *)
Definition newParamGroupedSlice (f : structField) (c : nat) : M paramGroupedSlice :=
  g ← liftO (parseGroupString (TagGet (f_Tag f) _groupTag));
  orders ← newOrders;
  let pg := mkParamGrouped (g_Name g) (f_Type f) (g_Soft g) orders in
  let name := TagGet (f_Tag f) _nameTag in
  let optional := (isFieldOptional f).1 in
  if decide (Kind (f_Type f) ≠ Slice) then
    failM ("value groups may be consumed as slices only: field " +:+ Quote (f_Name f) +:+
           " (" +:+ TypeString (f_Type f) +:+ ") is not a slice")
  else if g_Flatten g then
    failM ("cannot use flatten in parameter value groups: field " +:+ Quote (f_Name f) +:+
           " (" +:+ TypeString (f_Type f) +:+ ") specifies flatten")
  else if decide (name ≠ "") then
    failM ("cannot use named values with value groups: name:" +:+ Quote name +:+
           " requested with group:" +:+ Quote (g_Name g))
  else if optional then failM "value groups cannot be optional"
  else
    _ ← newGraphNode c (WGroup pg) orders;
    mret pg.

(** [newParamObjectField]; [new] is [newParam] on the type of the field. *)
Definition newParamObjectField (new : rtype → nat → M param)
    (idx : nat) (f : structField) (c : nat) : M paramObjectField :=
  p ← (if decide (f_PkgPath f ≠ "") then
         failM ("unexported fields not allowed in dig.In, did you mean to export " +:+
                Quote (f_Name f) +:+ " (" +:+ TypeString (f_Type f) +:+ ")?")
       else if decide (TagGet (f_Tag f) _groupTag ≠ "") then
         pg ← newParamGroupedSlice f c; mret (PGrouped pg)
       else new (f_Type f) c);
  p ← (match p with
       | PSingle ps =>
           let '(optional, err) := isFieldOptional f in
           match err with
           | Some err => throw err
           | None => mret (PSingle (mkParamSingle (TagGet (f_Tag f) _nameTag) optional
                                                  (ps_Type ps)))
           end
       | _ => mret p
       end);
  mret (mkPOF (f_Name f) idx p).

(** The loop over the fields of a parameter object, from index [i] on. *)
Fixpoint newParamObjectFields (new : rtype → nat → M param) (ignoreUnexported : bool)
    (t : rtype) (i : nat) (fs : list structField) (c : nat) : M (list paramObjectField) :=
  match fs with
  | [] => mret []
  | f :: fs' =>
      if decide (f_Type f = _inType) then
        newParamObjectFields new ignoreUnexported t (S i) fs' c
      else if bool_decide (f_PkgPath f ≠ "") && ignoreUnexported then
        newParamObjectFields new ignoreUnexported t (S i) fs' c
      else
        pof ← wrapErr (λ err, newErrInvalidInput
                         ("bad field " +:+ Quote (f_Name f) +:+ " of " +:+
                          TypeString t) (Some err))
                      (newParamObjectField new i f c);
        pofs ← newParamObjectFields new ignoreUnexported t (S i) fs' c;
        mret (pof :: pofs)
  end.

(** The first loop of [newParamObject]: the tag of the embedded [dig.In]. *)
Definition ignoreUnexportedOf (fs : list structField) : bool * option error :=
  match list_find (λ f, f_Type f = _inType) fs with
  | Some (_, f) => isIgnoreUnexportedSet f
  | None => (false, None)
  end.

Definition newParamObject (new : rtype → nat → M param) (t : rtype) (c : nat) : M param :=
  let '(ignoreUnexported, err) := ignoreUnexportedOf (Fields t) in
  match err with
  | Some err => throw err
  | None =>
      fs ← newParamObjectFields new ignoreUnexported t 0 (Fields t) c;
      mret (PObject t fs)
  end.

(** [newParam]; the bound counts nested parameter objects. *)
Fixpoint newParam_ (fuel : nat) (t : rtype) (c : nat) : M param :=
  match fuel with
  | O => liftO NoFuel
  | S fuel =>
      if IsOut (IType t) || ptrTo IsOut t || typeEmbeds t _outPtrType then
        failM ("cannot depend on result objects: " +:+ TypeString t +:+
               " embeds a dig.Out")
      else if IsIn (IType t) then newParamObject (newParam_ fuel) t c
      else if typeEmbeds t _inPtrType then
        failM ("cannot build a parameter object by embedding *dig.In, " +:+
               "embed dig.In instead: " +:+ TypeString t +:+ " embeds *dig.In")
      else if ptrTo IsIn t then
        failM ("cannot depend on a pointer to a parameter object, " +:+
               "use a value instead: " +:+ TypeString t +:+
               " is a pointer to a struct that embeds dig.In")
      else mret (PSingle (mkParamSingle "" false t))
  end.

Definition newParam (t : rtype) (c : nat) : M param := newParam_ (S (S (tt_rank t))) t c.

(** The loop of [newParamList] over the arguments, from index [i] on. *)
Fixpoint newParams (i : nat) (args : list rtype) (c : nat) : M (list param) :=
  match args with
  | [] => mret []
  | t :: args' =>
      p ← wrapErr (λ err, newErrInvalidInput ("bad argument " +:+ Itoa (i + 1)) (Some err))
                  (newParam t c);
      ps ← newParams (S i) args' c;
      mret (p :: ps)
  end.

(** [newParamList]: the last argument of a variadic function is left out. *)
Definition newParamList (ctype : rtype) (c : nat) : M paramList :=
  sig ← orPanic "reflect: NumIn of non-func type" (FuncSig ctype);
  let '(ins, _, variadic) := (sig : list rtype * list rtype * bool) in
  let numArgs := if variadic then length ins - 1 else length ins in
  ps ← newParams 0 (take numArgs ins) c;
  mret (mkParamList ctype ps).
End new.

(** ** Views of parameters *)

Section views.
Context `{TT : TypeTable}.

Definition paramSingle_DotParam (p : paramSingle) : list dotParam :=
  [mkDotParam (mkNode (ps_Type p) (ps_Name p) "") (ps_Optional p)].
Definition paramGroupedSlice_DotParam (p : paramGroupedSlice) : list dotParam :=
  [mkDotParam (mkNode (pt_Type p) "" (pt_Group p)) false].

Fixpoint DotParam (p : param) : list dotParam :=
  match p with
  | PSingle p => paramSingle_DotParam p
  | PGrouped p => paramGroupedSlice_DotParam p
  | PObject _ fs => concat (map (λ f, DotParam (pof_Param f)) fs)
  end.

Definition paramList_DotParam (pl : paramList) : list dotParam :=
  concat (map DotParam (pl_Params pl)).

Definition paramSingle_String (p : paramSingle) : string :=
  let opts := (if ps_Optional p then ["optional"] else []) ++
              (if decide (ps_Name p ≠ "") then ["name=" +:+ Quote (ps_Name p)] else []) in
  match opts with
  | [] => TypeString (ps_Type p)
  | _ => TypeString (ps_Type p) +:+ "[" +:+ Join ", " opts +:+ "]"
  end.

Definition paramGroupedSlice_String (p : paramGroupedSlice) : string :=
  match Elem (pt_Type p) with Some t => TypeString t | None => "" end +:+
  "[group=" +:+ Quote (pt_Group p) +:+ "]".

Fixpoint param_String (p : param) : string :=
  match p with
  | PSingle p => paramSingle_String p
  | PGrouped p => paramGroupedSlice_String p
  | PObject _ fs => Join " " (map (λ f, param_String (pof_Param f)) fs)
  end.

(** [fmt.Sprint] of a slice of strings. *)
Definition paramList_String (pl : paramList) : string :=
  "[" +:+ Join " " (map param_String (pl_Params pl)) +:+ "]".

(** The introspection records of provide.go, invoke.go and decorate.go. *)
Definition inputsOf (ps : list dotParam) : list Input :=
  (λ p, mkInput (n_Type (dp_Node p)) (dp_Optional p) (n_Name (dp_Node p))
                (n_Group (dp_Node p))) <$> ps.
Definition outputsOf (rs : list dotResult) : list Output :=
  (λ r, mkOutput (n_Type (dr_Node r)) (n_Name (dr_Node r)) (n_Group (dr_Node r))) <$> rs.

(** [Input.String] and [Output.String]. *)
Definition bracketed (t : rtype) (toks : list string) : string :=
  match toks with
  | [] => TypeString t
  | _ => TypeString t +:+ "[" +:+ Join ", " toks +:+ "]"
  end.
Definition tagTok (k v : string) : list string :=
  if decide (v ≠ "") then [k +:+ " = " +:+ Quote v] else [].
Definition Input_String (i : Input) : string :=
  bracketed (in_t i) ((if in_optional i then ["optional"] else []) ++
                      tagTok "name" (in_name i) ++ tagTok "group" (in_group i)).
Definition Output_String (o : Output) : string :=
  bracketed (out_t o) (tagTok "name" (out_name o) ++ tagTok "group" (out_group o)).
End views.

(** ** Missing dependencies *)

Section missing.
Context `{E : Env}.

(** The types suggested for a missing one by its shape. *)
Definition shapeSuggestions (t : rtype) : list rtype :=
  TPtr t ::
  (if decide (Kind t = Ptr) then option_list (Elem t) else []) ++
  (if decide (Kind t = Slice) then
     match Elem t with
     | Some el => TSlice (TPtr el) ::
         (if decide (Kind el = Ptr) then TSlice <$> option_list (Elem el) else [])
     | None => []
     end
   else []) ++
  (if decide (Kind t = Array) then
     match Elem t, ArrayLen t with
     | Some el, Some n => TArray n (TPtr el) ::
         (if decide (Kind el = Ptr) then TArray n <$> option_list (Elem el) else [])
     | _, _ => []
     end
   else []).

(** The types suggested because one implements the other. *)
Definition implSuggestions (t : rtype) (known : list rtype) : list rtype :=
  if decide (Kind t = Interface) then filter (λ t', Implements t' t) known
  else filter (λ t', bool_decide (Kind t' = Interface) && Implements t t') known.

Definition newErrMissingTypes (sc : Scope) (k : key) : list missingType :=
  let suggestions :=
    sortTypes (shapeSuggestions (k_t k) ++ implSuggestions (k_t k) (knownTypes sc)) in
  [mkMissing k ((λ t, mkKey t (k_name k) (k_group k)) <$>
     filter (λ t, negb (bool_decide (getValueProviders sc (k_name k) t = []))) suggestions)].

(** [findMissingDependencies] for one parameter, in scope [c]. *)
Fixpoint missingOf (scs : list Scope) (c : nat) (sc : Scope) (p : param)
    : list paramSingle :=
  match p with
  | PSingle p =>
      let allProviders := getAllValueProviders scs c (ps_Name p) (ps_Type p) in
      let hasDecoratedValue := getDecoratedValue sc (ps_Name p) (ps_Type p) in
      if bool_decide (allProviders = []) && bool_decide (hasDecoratedValue = None) &&
         negb (ps_Optional p)
      then [p] else []
  | PObject _ fs => concat (map (λ f, missingOf scs c sc (pof_Param f)) fs)
  | PGrouped _ => []
  end.

Definition findMissingDependencies (scs : list Scope) (c : nat) (sc : Scope)
    (params : list param) : list paramSingle :=
  concat (map (missingOf scs c sc) params).

(** [shallowCheckDependencies]. *)
Definition shallowCheckDependencies (c : nat) (pl : paramList) : M () :=
  sc ← getScope c;
  st ← getS;
  let missing := findMissingDependencies (st_scopes st) c sc (pl_Params pl) in
  match concat (map (λ d, newErrMissingTypes sc (valueKey (ps_Name d) (ps_Type d)))
                    missing) with
  | [] => mret ()
  | err => throw (errMissingTypes err)
  end.
End missing.
