(* ===== verification/Call.v ===== *)
(** * Building values and calling constructors and decorators (constructor.go, the
    [Build] methods of param.go, [decoratorNode.Call] of decorate.go)

    Building a parameter calls constructors and decorators, which build their
    own parameters: [callees] is the pair of functions this recursion goes
    through, every method below is written over it, and [knot] ties them
    together.  The bound of [knot] counts nested calls. *)

From S2P Require Import Prelude Digraph GoLib GoTypes DigReflect Errors Group InOut.
From S2P Require Import Values Clock DotTypes Result Store Param.

Open Scope string_scope.
Open Scope list_scope.

(** ** The staging area of constructor.go *)

Record stagingContainerWriter := mkStaging {
  sw_values : gmap key value;
  sw_groups : gmap key (list value)
}.

Definition newStagingContainerWriter : stagingContainerWriter := mkStaging ∅ ∅.

#[export] Instance staging_writer : containerWriter stagingContainerWriter := {|
  setValue name t v :=
    modifyS (λ sr, mkStaging (<[valueKey name t := v]> (sw_values sr)) (sw_groups sr));
  setDecoratedValue _ _ _ :=
    BugPanicf "stagingContainerWriter.setDecoratedValue must never be called";
  submitGroupedValue group t v :=
    modifyS (λ sr, mkStaging (sw_values sr)
      (<[groupKey group t := default [] (sw_groups sr !! groupKey group t) ++ [v]]>
         (sw_groups sr)));
  submitDecoratedGroupedValue _ _ _ :=
    BugPanicf "stagingContainerWriter.submitDecoratedGroupedValue must never be called"
|}.

(** [Commit], visiting the maps in the orders given. *)
Definition CommitIn {W} `{containerWriter W} (vs : list (key * value))
    (gs : list (key * list value)) : SM W () :=
  _ ← forEach vs (λ kv, setValue (k_name kv.1) (k_t kv.1) kv.2);
  forEach gs (λ kvs, forEach kvs.2 (λ v, submitGroupedValue (k_group kvs.1) (k_t kvs.1) v)).

(** Go visits a map in an unspecified order: this is the order of [gmap]. *)
Definition Commit {W} `{containerWriter W} (sr : stagingContainerWriter) : SM W () :=
  CommitIn (map_to_list (sw_values sr)) (map_to_list (sw_groups sr)).

(** ** Calls of the user's functions (container.go) *)

Section invoker.
Context `{E : Env}.

(** What [fn.Call(args)] checks before it calls [fn]: the number of arguments,
    that none is the zero Value, and their types; arguments for the variadic
    parameter go into a slice. *)
Definition checkCall (fn : funcval) (args : list value) : outcome () :=
  '(ins, _, variadic) ← or_panic "reflect: call of Call on non-func Value" (FuncSig (fv_type fn));
  let n := if (variadic : bool) then length ins - 1 else length ins in
  if Nat.ltb (length args) n then Panic_ (PRuntime "reflect: Call with too few input arguments")
  else if negb variadic && Nat.ltb n (length args) then
    Panic_ (PRuntime "reflect: Call with too many input arguments")
  else if negb (forallb is_valid args) then
    Panic_ (PRuntime "reflect: Call using zero Value argument")
  else
    _ ← checkAssigns RCall (take n args) (take n ins);
    match ins !! n ≫= Elem with
    | Some el => checkAssigns RCall (drop n args) (replicate (length args - n) el)
    | None => Ret ()
    end.

Definition defaultInvoker (who : caller) (fn : funcval) (args : list value)
    : M (list value) :=
  _ ← liftO (checkCall fn args);
  st ← getS;
  _ ← logEvent (EvCall who fn args);
  match env_call (st_trace st) fn args with
  | Returned vs => mret vs
  | Panicked id quoted => liftO (Panic_ (PUser id quoted))
  end.

(** Zero values for the results, without calling the function. *)
Definition dryInvoker (fn : funcval) : M (list value) :=
  sig ← orPanic "reflect: NumOut of non-func type" (FuncSig (fv_type fn));
  let '(_, outs, _) := (sig : list rtype * list rtype * bool) in
  mret (VZero <$> outs).

Definition invoke_with (inv : invokerFn) (who : caller) (fn : funcval)
    (args : list value) : M (list value) :=
  match inv with
  | defaultInvokerFn => defaultInvoker who fn args
  | dryInvokerFn => dryInvoker fn
  end.

(** ** Deferred functions *)

(** [fmt.Sprintf("%v.%v", location.Package, location.Name)]. *)
Definition qualifiedName (loc : option Func) : option string :=
  (λ f, fn_Package f +:+ "." +:+ fn_Name f) <$> loc.

Definition clockNow (c : nat) : M Z :=
  sc ← getScope c; st ← getS; mret (env_now (clockSrc sc) (st_trace st)).

(** A callback of the user: it is told of the event, and returns or panics. *)
Definition runCallback (ev : event) : M () :=
  st ← getS;
  _ ← logEvent ev;
  match env_callback (st_trace st) ev with
  | None => mret ()
  | Some (id, quoted) => liftO (Panic_ (PUser id quoted))
  end.

Definition callBefore (cb : option positive) (loc : option Func) : M () :=
  match cb with
  | None => mret ()
  | Some cb => name ← orPanic nilDeref (qualifiedName loc); runCallback (EvBefore cb name)
  end.

(** The error the named result holds when the deferred callback runs: nil while
    an unrecovered panic is under way. *)
Definition errOf {A} (r : outcome A) : option error :=
  match r with Err e => Some e | _ => None end.

(** [if callback != nil { start := Now(); defer func() { callback(..) }() }]. *)
Definition deferCallback (cb : option positive) (loc : option Func) (c : nat)
    (m : M ()) : M () :=
  match cb with
  | None => m
  | Some cb =>
      start ← clockNow c;
      observe m (λ r,
        match r with
        | NoFuel => liftO NoFuel
        | _ =>
            name ← orPanic nilDeref (qualifiedName loc);
            now ← clockNow c;
            _ ← runCallback (EvCallback cb name (errOf r) (Since now start));
            liftO r
        end)
  end.

(** [if recoverFromPanics { defer func() { if p := recover(); .. }() }]. *)
Definition deferRecover (recoverFromPanics : bool) (loc : option Func) (m : M ())
    : M () :=
  observe m (λ r,
    match r with
    | Panic_ p => if recoverFromPanics then throw (PanicError loc p) else liftO r
    | _ => liftO r
    end).
End invoker.

(** ** Building parameters *)

(** The methods [Call] of constructor and decorator nodes, on a node and the
    scope they are called with. *)
Record callees := mkCallees {
  callC : nat → nat → M ();
  callD : nat → nat → M ()
}.

Section build.
Context `{E : Env} (R : callees).

(** *** paramSingle *)

(** The first decorated value from the scope up to the root. *)
Fixpoint firstDecorated (scs : list Scope) (stores : list nat) (ps : paramSingle)
    : option value :=
  match stores with
  | [] => None
  | s :: stores' =>
      match scs !! s ≫= λ sc, getDecoratedValue sc (ps_Name ps) (ps_Type ps) with
      | Some v => Some v
      | None => firstDecorated scs stores' ps
      end
  end.

(** The first decorator that is not being run already, with its scope. *)
Fixpoint findDecorator (st : store) (stores : list nat) (ps : paramSingle)
    : option (nat * nat) :=
  match stores with
  | [] => None
  | s :: stores' =>
      match st_scopes st !! s ≫= λ sc, getValueDecorator sc (ps_Name ps) (ps_Type ps) with
      | None => findDecorator st stores' ps
      | Some d =>
          match st_dcors st !! d with
          | Some dn => if decide (dn_state dn = decoratorOnStack)
                       then findDecorator st stores' ps else Some (d, s)
          | None => findDecorator st stores' ps
          end
      end
  end.

(** [buildWithDecorators]; [None] is [found = false]. *)
Definition buildWithDecorators (ps : paramSingle) (c : nat) : M (option value) :=
  stores ← storesToRoot c;
  st ← getS;
  match findDecorator st stores ps with
  | None => mret None
  | Some (d, decoratingScope) =>
      _ ← wrapErr (λ err, errParamSingleFailed (valueKey (ps_Name ps) (ps_Type ps)) err 1)
                  (callD R d decoratingScope);
      sc ← getScope decoratingScope;
      mret (Some (default _noValue (getDecoratedValue sc (ps_Name ps) (ps_Type ps))))
  end.

(** What the search from a scope up to the root finds: a cached value, or the
    first scope that has providers. *)
Inductive provision :=
| Cached (v : value)
| Provided (s : nat) (ns : list nat)
| Absent.

Fixpoint findProvision (scs : list Scope) (stores : list nat) (ps : paramSingle)
    : provision :=
  match stores with
  | [] => Absent
  | s :: stores' =>
      match scs !! s with
      | None => findProvision scs stores' ps
      | Some sc =>
          match getValue sc (ps_Name ps) (ps_Type ps) with
          | Some v => Cached v
          | None =>
              match getValueProviders sc (ps_Name ps) (ps_Type ps) with
              | [] => findProvision scs stores' ps
              | ns => Provided s ns
              end
          end
      end
  end.

(** The loop over the providers: [Some v] is the early return of a zero value
    for an optional parameter. *)
Fixpoint callProviders (ps : paramSingle) (ns : list nat) : M (option value) :=
  match ns with
  | [] => mret None
  | n :: ns' =>
      cn ← getCtor n;
      r ← tryErr (callC R n (cn_origS cn));
      match r with
      | inl _ => callProviders ps ns'
      | inr err =>
          if bool_decide (is_Some (errorsAs isErrMissingDependencies err)) && ps_Optional ps
          then mret (Some (VZero (ps_Type ps)))
          else throw (errParamSingleFailed (valueKey (ps_Name ps) (ps_Type ps)) err (cn_id cn))
      end
  end.

Definition paramSingle_Build (ps : paramSingle) (c : nat) : M value :=
  found ← buildWithDecorators ps c;
  match found with
  | Some v => mret v
  | None =>
      stores ← storesToRoot c;
      st ← getS;
      match firstDecorated (st_scopes st) stores ps with
      | Some v => mret v
      | None =>
          match findProvision (st_scopes st) stores ps with
          | Cached v => mret v
          | Absent =>
              if ps_Optional ps then mret (VZero (ps_Type ps))
              else
                sc ← getScope c;
                throw (errMissingTypes
                         (newErrMissingTypes sc (valueKey (ps_Name ps) (ps_Type ps))))
          | Provided providingContainer ns =>
              early ← callProviders ps ns;
              match early with
              | Some v => mret v
              | None =>
                  sc ← getScope providingContainer;
                  mret (default _noValue (getValue sc (ps_Name ps) (ps_Type ps)))
              end
          end
      end
  end.

(** *** paramGroupedSlice *)

Fixpoint firstDecoratedGroup (scs : list Scope) (stores : list nat)
    (pt : paramGroupedSlice) : option value :=
  match stores with
  | [] => None
  | s :: stores' =>
      match scs !! s ≫= λ sc, getDecoratedValueGroup sc (pt_Group pt) (pt_Type pt) with
      | Some v => Some v
      | None => firstDecoratedGroup scs stores' pt
      end
  end.

(** [callGroupDecorators], from the root down to the scope. *)
Definition callGroupDecorators (pt : paramGroupedSlice) (c : nat) : M () :=
  el ← orPanic "reflect: Elem of invalid type" (Elem (pt_Type pt));
  stores ← storesToRoot c;
  forEach (reverse stores) (λ s,
    sc ← getScope s;
    match getGroupDecorator sc (pt_Group pt) el with
    | None => mret ()
    | Some d =>
        dn ← getDcor d;
        if decide (dn_state dn = decoratorOnStack) then mret ()
        else wrapErr (λ err, errParamGroupFailed (groupKey (pt_Group pt) el) err (dn_id dn))
                     (callD R d s)
    end).

(** [callGroupProviders]: the number of providers visited. *)
Definition callGroupProviders (pt : paramGroupedSlice) (c : nat) : M nat :=
  el ← orPanic "reflect: Elem of invalid type" (Elem (pt_Type pt));
  stores ← storesToRoot c;
  counts ← forMap stores (λ s,
    sc ← getScope s;
    let ns := getGroupProviders sc (pt_Group pt) el in
    _ ← forEach ns (λ n,
          cn ← getCtor n;
          wrapErr (λ err, errParamGroupFailed (groupKey (pt_Group pt) el) err (cn_id cn))
                  (callC R n (cn_origS cn)));
    mret (length ns));
  mret (sum_list counts).

Definition paramGroupedSlice_Build (pt : paramGroupedSlice) (c : nat) : M value :=
  _ ← callGroupDecorators pt c;
  stores ← storesToRoot c;
  st ← getS;
  match firstDecoratedGroup (st_scopes st) stores pt with
  | Some items => mret items
  | None =>
      _ ← (if pt_Soft pt then mret 0 else callGroupProviders pt c);
      el ← orPanic "reflect: Elem of invalid type" (Elem (pt_Type pt));
      stores ← storesToRoot c;
      vss ← forMap stores (λ s,
        vs ← zoomScope s (getValueGroup (pt_Group pt) el);
        _ ← liftO (checkAssigns RSet vs (replicate (length vs) el));
        mret vs);
      mret (VSlice (pt_Type pt) (concat vss))
  end.

(** *** paramObject and paramList *)

Definition isSoftGroup (p : param) : bool :=
  match p with PGrouped p => pt_Soft p | _ => false end.

Fixpoint buildFields (dest : value) (fields : list (paramObjectField * M value))
    : M value :=
  match fields with
  | [] => mret dest
  | (f, b) :: fields' =>
      v ← b;
      dest ← liftO (setField dest (pof_FieldIndex f) v);
      buildFields dest fields'
  end.

(** [paramObject.Build]: the soft value groups come after the other fields. *)
Definition paramObject_Build (t : rtype) (fields : list (paramObjectField * M value))
    : M value :=
  let softGroupsQueue := filter (λ fb, isSoftGroup (pof_Param fb.1)) fields in
  let others := filter (λ fb, negb (isSoftGroup (pof_Param fb.1))) fields in
  buildFields (newStruct t) (others ++ softGroupsQueue).

Fixpoint param_Build (p : param) (c : nat) : M value :=
  match p with
  | PSingle p => paramSingle_Build p c
  | PGrouped p => paramGroupedSlice_Build p c
  | PObject t fs => paramObject_Build t (map (λ f, (f, param_Build (pof_Param f) c)) fs)
  end.

Definition BuildList (pl : paramList) (c : nat) : M (list value) :=
  forMap (pl_Params pl) (λ p, param_Build p c).

(** ** Calling a constructor *)

(** The end of [constructorNode.Call]: the results go to a staging area first,
    and from there to the scope of the constructor. *)
Definition storeResults (n : nat) (cn : constructorNode) (results : list value) : M () :=
  match ExtractList (cn_resultList cn) false results newStagingContainerWriter with
  | (Ret _, receiver) =>
      _ ← zoomScope (cn_s cn) (Commit receiver);
      modCtor n set_called
  | (Err err, _) => throw (errConstructorFailed (cn_location cn) err)
  | (Panic_ p, _) => liftO (Panic_ p)
  | (NoFuel, _) => liftO NoFuel
  end.

(** What follows the deferred functions in [constructorNode.Call]. *)
Definition constructorBody (n : nat) (cn : constructorNode) (c : nat)
    (args : list value) : M () :=
  sc ← getScope c;
  results ← invoke_with (sc_invokerFn sc) (ByCtor n) (cn_ctor cn) args;
  storeResults n cn results.

Definition constructorNode_Call (n c : nat) : M () :=
  cn ← getCtor n;
  if cn_called cn then mret ()
  else
    _ ← wrapErr (errMissingDependencies (cn_location cn))
                (shallowCheckDependencies c (cn_paramList cn));
    args ← wrapErr (errArgumentsFailed (cn_location cn)) (BuildList (cn_paramList cn) c);
    _ ← callBefore (cn_beforeCallback cn) (cn_location cn);
    ns ← getScope (cn_s cn);
    deferCallback (cn_callback cn) (cn_location cn) c
      (deferRecover (recoverFromPanics ns) (cn_location cn)
         (constructorBody n cn c args)).

(** ** Calling a decorator *)

(** The results go directly into the scope of the decorator. *)
Definition decoratorBody (d : nat) (dn : decoratorNode) (s : nat)
    (args : list value) : M () :=
  sc ← getScope s;
  results ← invoke_with (sc_invokerFn sc) (ByDcor d) (dn_dcor dn) args;
  _ ← zoomScope (dn_s dn) (ExtractList (dn_results dn) true results);
  modDcor d (set_state decoratorCalled).

Definition decoratorNode_Call (d s : nat) : M () :=
  dn ← getDcor d;
  if decide (dn_state dn = decoratorCalled) then mret ()
  else
    _ ← modDcor d (set_state decoratorOnStack);
    _ ← wrapErr (errMissingDependencies (dn_location dn))
                (shallowCheckDependencies s (dn_params dn));
    args ← wrapErr (errArgumentsFailed (dn_location dn)) (BuildList (dn_params dn) (dn_s dn));
    _ ← callBefore (dn_beforeCallback dn) (dn_location dn);
    ns ← getScope (dn_s dn);
    deferCallback (dn_callback dn) (dn_location dn) s
      (deferRecover (recoverFromPanics ns) (dn_location dn)
         (decoratorBody d dn s args)).
End build.

(** ** The recursion *)

Fixpoint knot `{Env} (fuel : nat) : callees :=
  match fuel with
  | O => mkCallees (λ _ _, liftO NoFuel) (λ _ _, liftO NoFuel)
  | S fuel =>
      let R := knot fuel in mkCallees (constructorNode_Call R) (decoratorNode_Call R)
  end.
