(* ===== verification/ResultProofs.v ===== *)
(** * What reading and extracting results guarantees (result.go, constructor.go)

    Reading the results of a function ends; the index table of a result list
    fits the outputs of the function; extracting well-typed results never
    panics, and fills every key the constructor provides; committing the staging
    area does not depend on the order in which its maps are visited. *)

From S2P Require Import Prelude Digraph GoLib GoTypes DigReflect Errors Group InOut.
From S2P Require Import Values DotTypes Result Store Scenario Param Call.

Open Scope string_scope.
Open Scope list_scope.

(** ** Reading results ends *)

Section ends.
Context `{TT : TypeTable}.

Hint Resolve map_err_calm or_panic_calm parseGroupString_calm : core.

Lemma asTypesOf_calm t As : calm (asTypesOf t As).
Proof.
  induction As as [|a As IH]; simpl; [done|].
  apply bind_calm; [auto|intros at_ _]. apply bind_calm; [auto|intros it _].
  repeat case_match; try done. by apply bind_calm.
Qed.
Hint Resolve asTypesOf_calm : core.

Lemma newResultSingle_calm t opts : calm (newResultSingle t opts).
Proof. apply bind_calm; [auto|]. by intros [] _. Qed.

Lemma newResultOfGroup_calm t opts : calm (newResultOfGroup t opts).
Proof.
  apply bind_calm; [auto|intros g _]. apply bind_calm; [auto|intros ts _].
  repeat case_match; try done; by apply bind_calm.
Qed.

Lemma newResultGrouped_calm f : calm (newResultGrouped f).
Proof.
  apply bind_calm; [auto|intros g _]. cbv zeta.
  repeat case_match; try done; by apply bind_calm.
Qed.

Lemma newResult__calm fuel t opts :
  0 < fuel → (Kind t = Struct → S (tt_rank t) < fuel) → calm (newResult_ fuel t opts).
Proof.
  revert t opts; induction fuel as [|fuel IH]; intros t opts Hf Hrank; [lia|]. simpl.
  case_match; [done|]. case_match; [done|]. case_match eqn:Hout.
  - specialize (Hrank (IsOut_struct _ Hout)). unfold newResultObject.
    do 2 (case_match; [done|]). apply bind_calm; [|done].
    assert (∀ fs i, fs ⊆ Fields t →
              calm (newResultObjectFields (newResult_ fuel) t opts i fs)) as Hall; [|by apply Hall].
    induction fs as [|f fs IHfs]; intros i Hfs; simpl; [done|].
    assert (fs ⊆ Fields t) by set_solver. case_match; [auto|].
    apply bind_calm; [apply map_err_calm|intros; by apply bind_calm; auto].
    apply bind_calm; [|done]. case_match; [done|].
    case_match; [apply newResultGrouped_calm|]. apply IH; [lia|]. intros Hs.
    pose proof (rank_Fields t f ltac:(set_solver) Hs). lia.
  - do 2 (case_match; [done|]). case_match; auto using newResultOfGroup_calm, newResultSingle_calm.
Qed.

Lemma newResultList_calm ctype opts : calm (newResultList ctype opts).
Proof.
  apply bind_calm; [auto|intros [[ins outs] var] _].
  apply bind_calm; [|by intros []]. generalize 0 at 1. generalize 0.
  induction outs as [|t outs IH]; intros i idx; simpl; [done|]. case_match.
  - apply bind_calm; [auto|by intros []].
  - apply bind_calm; [apply map_err_calm, newResult__calm; lia|intros r _].
    apply bind_calm; [auto|by intros []].
Qed.

(** Every step of the search for keys takes one result off the queue and puts
    smaller ones on it. *)
Lemma findResultKeys_loop_calm fuel q keys :
  sum_list_with result_size q < fuel → calm (findResultKeys_loop fuel q keys).
Proof.
  revert q keys; induction fuel as [|fuel IH]; intros q keys Hf; [lia|]. simpl.
  destruct q as [|r q]; [done|]. simpl in Hf.
  destruct r as [n t As|g t fl As|t fs|rl]; simpl in Hf.
  - apply IH. lia.
  - case_match; [done|]. apply bind_calm; [auto|]. intros. apply IH. lia.
  - apply IH. rewrite sum_list_with_app, sum_list_with_fmap. lia.
  - apply IH. rewrite sum_list_with_app. lia.
Qed.

Lemma findResultKeys_calm rl : calm (findResultKeys rl).
Proof. apply findResultKeys_loop_calm. simpl. lia. Qed.
End ends.

(** ** Writers *)

(** A writer whose methods move it along [R] and end. *)
Class writer_runs (W : Type) `{containerWriter W} (R : W → W → Prop) : Prop := {
  setValue_runs n t v w : runs R False (setValue n t v) w;
  setDecoratedValue_runs n t v w : runs R False (setDecoratedValue n t v) w;
  submitGroupedValue_runs n t v w : runs R False (submitGroupedValue n t v) w;
  submitDecoratedGroupedValue_runs n t v w :
    runs R False (submitDecoratedGroupedValue n t v) w
}.

Definition anything {W : Type} (_ _ : W) : Prop := True.

#[export] Instance anything_preorder W : PreOrder (@anything W).
Proof. by split. Qed.

#[export] Instance staging_runs : writer_runs stagingContainerWriter anything.
Proof. by split. Qed.

Section extract.
Context `{TT : TypeTable} {W : Type} `{CW : containerWriter W} (R : W → W → Prop).
Context `{!PreOrder R} `{!writer_runs W R}.

Let loop {A} (l : list A) (f : A → SM W ()) w :
  (∀ x w, x ∈ l → runs R False (f x) w) → runs R False (forEach l f) w.
Proof. intros H. apply (runs_forEach R False (λ _, True)); auto. Qed.

Lemma Extract_runs r decorated v w : runs R False (Extract r decorated v) w.
Proof.
  revert v w; induction r as [n t As|g t fl As|t fs IH|rl IH] using result_ind';
    intros v w; simpl.
  - destruct decorated; [apply setDecoratedValue_runs|].
    run_step; [apply setValue_runs|]. apply loop. intros. apply setValue_runs.
  - destruct decorated; simpl; [apply submitDecoratedGroupedValue_runs|].
    destruct fl; simpl.
    + run_step; [auto with dig|]. apply loop. intros. apply submitGroupedValue_runs.
    + run_step; [apply submitGroupedValue_runs|].
      apply loop. intros. apply submitGroupedValue_runs.
  - apply loop. intros f w' Hf. rewrite Forall_forall in IH.
    run_step; [auto with dig|]. by apply IH.
  - unfold BugPanicf. auto with dig.
Qed.

Lemma ExtractList_from_runs rl decorated i vs w :
  runs R False (ExtractList_from rl decorated i vs) w.
Proof.
  revert i w; induction vs as [|v vs IH]; intros i w; simpl; [auto with dig|].
  run_step; [auto with dig|]. case_decide.
  - run_step; [auto with dig|]. run_step; [apply Extract_runs|]. apply IH.
  - destruct (value_error v); [auto with dig|apply IH].
Qed.

Lemma ExtractList_runs rl decorated vs w : runs R False (ExtractList rl decorated vs) w.
Proof. apply ExtractList_from_runs. Qed.

Lemma CommitIn_runs vs gs w : runs R False (CommitIn vs gs) w.
Proof.
  unfold CommitIn. run_step.
  - apply loop. intros. apply setValue_runs.
  - apply loop. intros kvs w' _. apply loop. intros. apply submitGroupedValue_runs.
Qed.
End extract.

(** ** The results that fit a type *)

Section fits.
Context `{TT : TypeTable}.

(** A result that can be extracted from the values of type [t]. *)
Fixpoint fits (r : result) (t : rtype) : Prop :=
  match r with
  | resultSingle _ _ _ => True
  | resultGrouped _ _ flatten _ => flatten = true → Kind t = Slice
  | resultObject _ fs =>
      Kind t = Struct ∧
      foldr (λ f P, (∃ sf, Fields t !! rof_FieldIndex f = Some sf ∧
                           fits (rof_Result f) (f_Type sf)) ∧ P) True fs
  | resultList_ _ => False
  end.

Lemma outcome_bind_Ret {A B} (m : outcome A) (f : A → outcome B) b :
  m ≫= f = Ret b ↔ ∃ a, m = Ret a ∧ f a = Ret b.
Proof. destruct m; simpl; naive_solver. Qed.

Lemma map_err_Ret {A} f (m : outcome A) a : map_err f m = Ret a ↔ m = Ret a.
Proof. by destruct m. Qed.

Lemma newResultGrouped_fits f r : newResultGrouped f = Ret r → fits r (f_Type f).
Proof.
  unfold newResultGrouped. rewrite outcome_bind_Ret. intros (g & _ & H). cbv zeta in H.
  destruct (g_Flatten g) eqn:Hf; simpl in H.
  - destruct (bool_decide _) eqn:Hk; [done|].
    apply bool_decide_eq_false, dec_stable in Hk. repeat case_match; try done.
    apply outcome_bind_Ret in H as (ty & _ & [= <-]). by intros _.
  - repeat case_match; simplify_eq. done.
Qed.

Lemma newResultOfGroup_fits t opts r : newResultOfGroup t opts = Ret r → fits r t.
Proof.
  unfold newResultOfGroup. rewrite outcome_bind_Ret. intros (g & _ & H).
  apply outcome_bind_Ret in H as (ts & _ & H).
  destruct (match ts with [] => _ | _ => _ end) as [ty As].
  destruct (g_Soft g); [done|]. destruct (g_Flatten g); [|by simplify_eq].
  case_decide as Hk; [done|]. 
  apply outcome_bind_Ret in H as (ty' & _ & [= <-]). by intros _.
Qed.

(** The fields of a result object, for any relation [P] between results and types
    and any condition [K] on the options that naming keeps. *)
Lemma newResultObjectFields_all (P : result → rtype → Prop) (K : resultOptions → Prop)
    new t opts i fs rofs :
  K opts → (∀ o n, K o → K (mkResultOptions n (ro_Group o) (ro_As o))) →
  (∀ f r, newResultGrouped f = Ret r → P r (f_Type f)) →
  (∀ f o r, K o → new (f_Type f) o = Ret r → P r (f_Type f)) →
  (∀ j f, fs !! j = Some f → Fields t !! (i + j) = Some f) →
  newResultObjectFields new t opts i fs = Ret rofs →
  foldr (λ f R, (∃ sf, Fields t !! rof_FieldIndex f = Some sf ∧
                       P (rof_Result f) (f_Type sf)) ∧ R) True rofs.
Proof.
  intros HK Hname Hgrouped Hnew. revert i rofs; induction fs as [|f fs IH]; intros i rofs Hfs; simpl;
    [by intros [= <-]|].
  assert (∀ j f, fs !! j = Some f → Fields t !! (S i + j) = Some f) as Hfs'.
  { intros j f' Hj. rewrite Nat.add_succ_comm. by apply Hfs. }
  case_decide; [by apply IH|]. rewrite outcome_bind_Ret. intros (rof & Hrof & Hrest).
  apply outcome_bind_Ret in Hrest as (rofs' & Hrofs & [= <-]). apply map_err_Ret in Hrof.
  unfold newResultObjectField in Hrof.
  apply outcome_bind_Ret in Hrof as (r & Hr & [= <-]). simpl.
  split; [|by eapply IH]. exists f. split; [rewrite <- (Nat.add_0_r i); by apply Hfs|].
  case_decide; [done|]. case_decide; [by apply Hgrouped|].
  eapply Hnew; [|exact Hr]. case_decide; auto.
Qed.

Lemma newResult__fits fuel t opts r : newResult_ fuel t opts = Ret r → fits r t.
Proof.
  revert t opts r; induction fuel as [|fuel IH]; intros t opts r; [done|]. simpl.
  case_match; [done|]. case_match; [done|]. case_match eqn:Hout.
  - apply IsOut_struct in Hout. unfold newResultObject.
    do 2 (case_match; [done|]). rewrite outcome_bind_Ret. intros (fs & Hfs & [= <-]). simpl.
    split; [done|].
    by apply (newResultObjectFields_all fits (λ _, True) (newResult_ fuel) t opts 0 (Fields t));
      eauto using newResultGrouped_fits.
  - do 2 (case_match; [done|]). case_match; [by apply newResultOfGroup_fits|].
    unfold newResultSingle. rewrite outcome_bind_Ret.
    intros ([|a As] & _ & [= <-]); done.
Qed.

(** *** The index table of a result list *)

(** From the output [j] on with [k] results before: what the loop records. *)
Record table_ok (opts : resultOptions) (k : nat) (outs : list rtype)
    (rs : list result) (idxs : list Z) : Prop := {
  table_length : length idxs = length outs;
  table_entry : ∀ j t, outs !! j = Some t → ∃ idx, idxs !! j = Some idx ∧
    if isError t then idx = (-1)%Z
    else (Z.of_nat k <= idx)%Z ∧
         ∃ r, rs !! (Z.to_nat idx - k) = Some r ∧ newResult t opts = Ret r;
  table_onto : ∀ m, m < length rs → ∃ j, idxs !! j = Some (Z.of_nat (k + m))
}.

Lemma newResults_table opts i k outs rs idxs :
  newResults opts i k outs = Ret (rs, idxs) → table_ok opts k outs rs idxs.
Proof.
  revert i k rs idxs; induction outs as [|t outs IH]; intros i k rs idxs; simpl.
  { intros [= <- <-]. split; [done|done|]. simpl. lia. }
  destruct (isError t) eqn:Herr; rewrite outcome_bind_Ret.
  - intros ([rs' idxs'] & H & [= <- <-]). destruct (IH _ _ _ _ H) as [Hl Hj Hm]. split.
    + simpl. congruence.
    + intros [|j] t' Ht'; [|by apply Hj]. simplify_eq/=. exists (-1)%Z. by rewrite Herr.
    + intros m Hlt. destruct (Hm m Hlt) as [j Hj']. by exists (S j).
  - intros (r & Hr & H). apply map_err_Ret in Hr.
    apply outcome_bind_Ret in H as ([rs' idxs'] & H & [= <- <-]).
    destruct (IH _ _ _ _ H) as [Hl Hj Hm]. split; [simpl; congruence| |].
    + intros [|j] t' Ht'.
      * simplify_eq/=. exists (Z.of_nat k). rewrite Herr. split; [done|].
        split; [lia|]. exists r. by rewrite Nat2Z.id, Nat.sub_diag.
      * destruct (Hj j t' Ht') as (idx & Hidx & Hcase). exists idx. split; [done|].
        destruct (isError t'); [done|]. destruct Hcase as (Hle & r' & Hr' & Hnew).
        split; [lia|]. exists r'. split; [|done].
        replace (Z.to_nat idx - k) with (S (Z.to_nat idx - S k)) by lia. done.
    + intros [|m] Hlt; simpl in Hlt; [exists 0; by rewrite Nat.add_0_r|].
      destruct (Hm m) as [j Hj']; [lia|]. exists (S j). simpl. rewrite Hj'. do 2 f_equal. lia.
Qed.

Lemma newResultList_table ctype opts rl ins outs var :
  FuncSig ctype = Some (ins, outs, var) → newResultList ctype opts = Ret rl →
  table_ok opts 0 outs (rl_Results rl) (rl_resultIndexes rl).
Proof.
  intros Hsig. unfold newResultList. rewrite Hsig. simpl. rewrite outcome_bind_Ret.
  intros ([rs idxs] & H & [= <-]). by eapply newResults_table.
Qed.
End fits.

(** ** Extraction of well-typed results *)

(** The value keys a result provides: its own type and those of [dig.As]. *)
Fixpoint value_keys (r : result) : list key :=
  match r with
  | resultSingle name t As => valueKey name <$> t :: As
  | resultGrouped _ _ _ _ => []
  | resultObject _ fs => concat (map (λ f, value_keys (rof_Result f)) fs)
  | resultList_ rl => concat (map value_keys (rl_Results rl))
  end.

(** The staging area only gains keys. *)
Definition staged (w w' : stagingContainerWriter) : Prop :=
  ∀ k, is_Some (sw_values w !! k) → is_Some (sw_values w' !! k).

#[export] Instance staged_preorder : PreOrder staged.
Proof. split; [by intros w k|]. intros w1 w2 w3 H1 H2 k Hk. auto. Qed.

#[export] Instance staged_runs : writer_runs stagingContainerWriter staged.
Proof.
  split; intros n t v w; split; try done; simpl; try reflexivity; intros k Hk; simpl; [|done].
  destruct (decide (valueKey n t = k)) as [<-|Hne]; [by rewrite lookup_insert_eq|].
  by rewrite lookup_insert_ne.
Qed.

(** A writer whose methods for plain ([b = false]) or decorated results return. *)
Class writer_total (W : Type) `{containerWriter W} (b : bool) : Prop := {
  setValue_total n t v w : b = false → ∃ w', setValue n t v w = (Ret (), w');
  submitGroupedValue_total n t v w : b = false → ∃ w', submitGroupedValue n t v w = (Ret (), w');
  setDecoratedValue_total n t v w : b = true → ∃ w', setDecoratedValue n t v w = (Ret (), w');
  submitDecoratedGroupedValue_total n t v w : b = true →
    ∃ w', submitDecoratedGroupedValue n t v w = (Ret (), w')
}.

#[export] Instance staging_total : writer_total stagingContainerWriter false.
Proof. split; intros; [by eexists..|done|done]. Qed.

#[export] Instance Scope_total b : writer_total Scope b.
Proof. split; intros; by eexists. Qed.

Section typed.
Context `{TT : TypeTable}.

Definition typed (v : value) (t : rtype) : Prop :=
  value_Type v = Some t ∧ well_typed v = true.

Lemma Field_typed t v i sf :
  Kind t = Struct → typed v t → Fields t !! i = Some sf →
  ∃ fv, value_Field v i = Some fv ∧ typed fv (f_Type sf).
Proof.
  intros Hk [Hv Hwt] Hi.
  destruct v as [|t'|t' id|t' fs|t' vs|t' e]; simplify_eq/=; try congruence.
  - rewrite Hi. by exists (VZero (f_Type sf)).
  - apply andb_true_iff in Hwt as [Hk' _]. by apply bool_decide_eq_true in Hk'.
  - apply andb_true_iff in Hwt as [Hwt Hall]. apply andb_true_iff in Hwt as [_ Hty].
    apply bool_decide_eq_true in Hty.
    apply (f_equal (lookup i)) in Hty. rewrite !list_lookup_fmap, Hi in Hty.
    destruct (fs !! i) as [fv|] eqn:Hf; simplify_eq/=. exists fv. split; [done|].
    split; [congruence|]. rewrite forallb_forall in Hall.
    apply Hall, list_elem_of_In. by eapply list_elem_of_lookup_2.
  - apply andb_true_iff in Hwt as [Hk' _]. apply bool_decide_eq_true in Hk'. congruence.
  - apply andb_true_iff in Hwt as [Hwt _]. apply andb_true_iff in Hwt as [_ Hk'].
    by apply bool_decide_eq_true in Hk'.
Qed.

Lemma Elems_typed t v : Kind t = Slice → typed v t → ∃ vs, value_Elems v = Some vs.
Proof.
  intros Hk [Hv Hwt].
  destruct v as [|t'|t' id|t' fs|t' vs|t' e]; simplify_eq/=; rewrite ?Hk in *.
  - by eexists.
  - by rewrite andb_false_r in Hwt.
  - done.
  - by eexists.
  - by rewrite andb_false_r in Hwt.
Qed.

Context {W : Type} `{CW : containerWriter W} (b : bool) `{!writer_total W b}.

Lemma Extract_total r t v w :
  fits r t → typed v t → ∃ w', Extract r b v w = (Ret (), w').
Proof.
  revert t v w; induction r as [n ty As|g ty fl As|ty fs IH|rl IH] using result_ind';
    intros t v w Hfits Hv; simpl in Hfits |- *; [| | |done].
  - destruct b; [by apply setDecoratedValue_total|].
    apply (bind_total _ _ ()); [by apply setValue_total|].
    apply forEach_total. intros. by apply setValue_total.
  - destruct b; simpl; [by apply submitDecoratedGroupedValue_total|]. destruct fl; simpl.
    + destruct (Elems_typed t v) as [vs Hvs]; [auto|done|]. rewrite Hvs.
      apply (bind_total _ _ vs); [by eexists|].
      apply forEach_total. intros. by apply submitGroupedValue_total.
    + apply (bind_total _ _ ()); [by apply submitGroupedValue_total|].
      apply forEach_total. intros. by apply submitGroupedValue_total.
  - destruct Hfits as [Hk Hfs]. apply forEach_total. intros f w1 Hf.
    assert (∃ sf, Fields t !! rof_FieldIndex f = Some sf ∧
                  fits (rof_Result f) (f_Type sf)) as (sf & Hsf & Hfit).
    { clear IH. induction fs as [|f' fs IHfs]; [set_solver|]. destruct Hfs as [? ?].
      apply elem_of_cons in Hf as [->|]; auto. }
    destruct (Field_typed t v _ sf Hk Hv Hsf) as (fv & Hfv & Hty).
    rewrite Forall_forall in IH. rewrite Hfv.
    apply (bind_total _ _ fv); [by eexists|]. intros. by eapply IH.
Qed.

(** The first non-nil error among the error outputs. *)
Definition first_error (outs : list rtype) (vs : list value) : option error :=
  head (omap (λ tv, if isError tv.1 then value_error tv.2 else None) (zip outs vs)).

(** Extraction of the outputs of a function, on results of its output types:
    the first error of an error output ends it, nothing else does. *)
Lemma ExtractList_from_total opts rl outs i outs' vs w :
  table_ok opts 0 outs (rl_Results rl) (rl_resultIndexes rl) →
  drop i outs = outs' → Forall2 typed vs outs' →
  ∃ w', ExtractList_from rl b i vs w =
        (match first_error outs' vs with Some e => Err e | None => Ret () end, w').
Proof.
  intros Htab. revert i outs' w; induction vs as [|v vs IH]; intros i outs' w Hdrop Hty.
  { destruct outs'; [by eexists|by inversion Hty]. }
  destruct outs' as [|t outs'']; [by inversion Hty|].
  inversion Hty as [|? ? ? ? Hv Hvs]; subst. apply drop_cons_inv in Hdrop as [Hi Hdrop].
  simpl. destruct (table_entry _ _ _ _ _ Htab i t Hi) as (idx & Hidx & Hcase).
  rewrite Hidx. unfold mbind, SM_bind. simpl. unfold first_error. simpl.
  destruct (isError t) eqn:Herr.
  - subst idx. simpl. destruct (value_error v) as [e|]; [by eexists|]. by apply IH.
  - destruct Hcase as (Hle & r & Hr & Hnew). rewrite decide_True by done.
    rewrite Nat.sub_0_r in Hr. rewrite Hr. simpl.
    destruct (Extract_total r t v w) as [w1 H1]; [by eapply newResult__fits|done|].
    rewrite H1. by apply IH.
Qed.
End typed.

(** ** The keys a decorator decorates *)

(** The single and grouped results inside a result. *)
Fixpoint result_leaves (r : result) : list result :=
  match r with
  | resultObject _ fs => concat (map (λ f, result_leaves (rof_Result f)) fs)
  | resultList_ rl => concat (map result_leaves (rl_Results rl))
  | _ => [r]
  end.

Definition leaf_key (r : result) (k : key) : Prop :=
  match r with
  | resultSingle name t _ => k = valueKey name t
  | resultGrouped group _ _ _ => ∃ el, k = groupKey group el
  | _ => False
  end.

Definition decorates_key (rl : resultList) (k : key) : Prop :=
  ∃ r, r ∈ result_leaves (resultList_ rl) ∧ leaf_key r k.

Lemma findResultKeys_loop_decorates `{TypeTable} fuel q acc keys k :
  findResultKeys_loop fuel q acc = Ret keys → k ∈ keys →
  k ∈ acc ∨ ∃ r, r ∈ concat (map result_leaves q) ∧ leaf_key r k.
Proof.
  revert q acc; induction fuel as [|fuel IH]; intros q acc; [done|]. simpl.
  destruct q as [|r q]; [intros [= <-]; by left|].
  assert (∀ acc' k', findResultKeys_loop fuel q (acc' ++ [k']) = Ret keys → leaf_key r k' →
            k ∈ keys → acc' = acc → result_leaves r = [r] →
            k ∈ acc ∨ ∃ r', r' ∈ concat (map result_leaves (r :: q)) ∧ leaf_key r' k) as Hleaf.
  { intros acc' k' Hrun Hk' Hk -> Hr. simpl. rewrite Hr.
    destruct (IH _ _ Hrun Hk) as [[?|Heq%list_elem_of_singleton]%elem_of_app|(r' & ? & ?)];
      [by left|right; exists r|right; exists r'; split; [by right|done]].
    subst k'. split; [by left|done]. }
  destruct r as [n t As|g t fl As|t fs|rl]; simpl.
  - intros Hrun Hk. eapply Hleaf; [exact Hrun|done..].
  - case_decide; [done|]. destruct (Elem t) as [el|]; [|done]. simpl. intros Hrun Hk.
    eapply Hleaf; [exact Hrun|by eexists|done..].
  - intros Hrun Hk. destruct (IH _ _ Hrun Hk) as [?|(r' & Hr & ?)]; [by left|right; exists r'].
    split; [|done]. rewrite map_app, concat_app, elem_of_app in Hr. rewrite elem_of_app.
    unfold fmap in Hr. rewrite <-list_fmap_compose in Hr. unfold compose in Hr. tauto.
  - intros Hrun Hk. destruct (IH _ _ Hrun Hk) as [?|(r' & Hr & ?)]; [by left|right; exists r'].
    split; [|done]. rewrite map_app, concat_app, elem_of_app in Hr. rewrite elem_of_app. tauto.
Qed.

Lemma findResultKeys_decorates `{TypeTable} rl keys k :
  findResultKeys rl = Ret keys → k ∈ keys → decorates_key rl k.
Proof.
  intros Hrun Hk. destruct (findResultKeys_loop_decorates _ _ _ _ _ Hrun Hk)
    as [?%elem_of_nil|(r & Hr & ?)]; [done|]. exists r. split; [|done].
  simpl in Hr. by rewrite app_nil_r in Hr.
Qed.

(** ** Every provided value arrives *)

Section cover.
Context `{TT : TypeTable}.
Implicit Types w : stagingContainerWriter.

Lemma Extract_covers r v w w' k :
  Extract r false v w = (Ret (), w') → k ∈ value_keys r → is_Some (sw_values w' !! k).
Proof.
  revert v w w'; induction r as [n ty As|g ty fl As|ty fs IH|rl IH] using result_ind';
    intros v w w'; simpl; [| | |by intros [=]].
  - rewrite bind_Ret. intros ([] & w1 & [= <-] & Hloop).
    assert (∀ t w w', setValue n t v w = (Ret (), w') →
                      is_Some (sw_values w' !! valueKey n t)) as Hset.
    { intros t w0 w1 [= <-]. simpl. by rewrite lookup_insert_eq. }
    intros [->|Hk]%elem_of_cons.
    + apply (forEach_moves staged False) in Hloop; [|intros t w1; exact (setValue_runs n t v w1)].
      apply Hloop. simpl. by rewrite lookup_insert_eq.
    + apply list_elem_of_fmap in Hk as (t & -> & Ht).
      destruct (forEach_round staged False As (λ asType, setValue n asType v) t _ _
                  ltac:(intros; apply setValue_runs) Ht Hloop) as (w1 & w2 & H1 & H2).
      apply H2. by eapply Hset.
  - by intros _ ?%elem_of_nil.
  - intros Hloop (f & Hf & Hk)%elem_of_concat_map.
    eapply (forEach_round staged False) in Hloop as (w1 & w2 & H1 & H2); [| |done].
    2: { intros. run_step; [apply runs_orPanic; apply _|]. apply (Extract_runs staged). }
    apply bind_Ret in H1 as (fv & w1' & _ & H1). apply H2.
    rewrite Forall_forall in IH. by eapply IH.
Qed.

End cover.

(** Extraction of a list visits every result: what extracting one of them achieves, and
    no later write undoes, holds at the end. *)
Section reach.
Context `{TT : TypeTable} {W : Type} `{CW : containerWriter W} (R : W → W → Prop).
Context `{!PreOrder R} `{!writer_runs W R} (decorated : bool) (P : W → Prop).
Context (P_stable : ∀ w w', P w → R w w' → P w').

Lemma ExtractList_from_reaches rl i vs w w' j v m r :
  (∀ w w', Extract r decorated v w = (Ret (), w') → P w') →
  ExtractList_from rl decorated i vs w = (Ret (), w') →
  vs !! j = Some v → rl_resultIndexes rl !! (i + j) = Some (Z.of_nat m) →
  rl_Results rl !! m = Some r → P w'.
Proof.
  intros HP. revert i j w; induction vs as [|v0 vs IH]; intros i j w Hrun Hj Hidx Hr; [done|].
  simpl in Hrun. apply bind_Ret in Hrun as (idx & w1 & Hi & Hrun).
  destruct (rl_resultIndexes rl !! i) as [idx'|] eqn:Hi'; [|done].
  injection Hi as -> <-. destruct j as [|j].
  - injection Hj as ->. rewrite Nat.add_0_r in Hidx. assert (idx = Z.of_nat m) as -> by congruence.
    rewrite decide_True, Nat2Z.id, Hr in Hrun by lia.
    apply bind_Ret in Hrun as (r' & w2 & [= <- <-] & Hrun).
    apply bind_Ret in Hrun as ([] & w3 & Hex & Hrun).
    destruct (ExtractList_from_runs R rl decorated (S i) vs w3) as [_ HR].
    rewrite Hrun in HR. eapply P_stable; [by eapply HP|done].
  - rewrite <- Nat.add_succ_comm in Hidx. case_decide.
    + apply bind_Ret in Hrun as (r' & w2 & _ & Hrun).
      apply bind_Ret in Hrun as ([] & w3 & _ & Hrun). by eapply IH.
    + destruct (value_error v0); [done|]. by eapply IH.
Qed.

Lemma ExtractList_reaches opts outs rl vs w w' r :
  table_ok opts 0 outs (rl_Results rl) (rl_resultIndexes rl) → length vs = length outs →
  (∀ v w w', Extract r decorated v w = (Ret (), w') → P w') →
  ExtractList rl decorated vs w = (Ret (), w') → r ∈ rl_Results rl → P w'.
Proof.
  intros Htab Hlen HP Hrun [m Hm]%list_elem_of_lookup.
  destruct (table_onto _ _ _ _ _ Htab m) as [j Hj]; [by eapply lookup_lt_Some|].
  pose proof (lookup_lt_Some _ _ _ Hj) as Hlt.
  rewrite (table_length _ _ _ _ _ Htab), <- Hlen in Hlt.
  apply lookup_lt_is_Some in Hlt as [v Hv].
  by apply (ExtractList_from_reaches rl 0 vs w w' j v m r (HP v)).
Qed.
End reach.

Lemma ExtractList_covers `{TypeTable} opts outs rl vs w w' k :
  table_ok opts 0 outs (rl_Results rl) (rl_resultIndexes rl) → length vs = length outs →
  ExtractList rl false vs w = (Ret (), w') → k ∈ value_keys (resultList_ rl) →
  is_Some (sw_values w' !! k).
Proof.
  intros Htab Hlen Hrun Hk. simpl in Hk. apply elem_of_concat_map in Hk as (r & Hr & Hk).
  eapply (ExtractList_reaches staged false (λ w, is_Some (sw_values w !! k)));
    [intros w1 w2 Hw Hst; by apply Hst|done..| |done|done].
  intros v w1 w2 Hex. by eapply Extract_covers.
Qed.

(** C20: extraction of the results of a constructor.  When [newResultList] accepted
    the type of the constructor and its results have the output types, extracting
    them into the staging area neither panics nor blocks: it returns the first
    non-nil error among the error outputs, and without one it returns normally,
    with every value key of the constructor present in the staging area. *)
Theorem ExtractList_correct `{TypeTable} ctype opts rl ins outs var vs :
  FuncSig ctype = Some (ins, outs, var) → newResultList ctype opts = Ret rl →
  Forall2 typed vs outs →
  ∃ w, ExtractList rl false vs newStagingContainerWriter =
         (match first_error outs vs with Some e => Err e | None => Ret () end, w) ∧
       (first_error outs vs = None →
        ∀ k, k ∈ value_keys (resultList_ rl) → is_Some (sw_values w !! k)).
Proof.
  intros Hsig Hrl Hty. pose proof (newResultList_table _ _ _ _ _ _ Hsig Hrl) as Htab.
  destruct (ExtractList_from_total false opts rl outs 0 outs vs newStagingContainerWriter
              Htab eq_refl Hty) as [w Hw].
  exists w. split; [exact Hw|]. intros Hnone k Hk. rewrite Hnone in Hw.
  eapply ExtractList_covers; [done| |exact Hw|done]. by eapply Forall2_length.
Qed.

Section extract_example.
#[local] Existing Instance scenarioTable.

(** [func() (A, error)] returning an object and a nil error. *)
Lemma ExtractList_correct_witness :
  ∃ rl, newResultList (TDef 45) (mkResultOptions "" "" []) = Ret rl ∧
  ∃ w, ExtractList rl false [VObj tA 1; VZero _errType] newStagingContainerWriter =
         (match first_error [tA; _errType] [VObj tA 1; VZero _errType] with
          | Some e => Err e | None => Ret () end, w) ∧
       (first_error [tA; _errType] [VObj tA 1; VZero _errType] = None →
        ∀ k, k ∈ value_keys (resultList_ rl) → is_Some (sw_values w !! k)).
Proof.
  eexists. split; [vm_compute; reflexivity|].
  apply (ExtractList_correct (TDef 45) (mkResultOptions "" "" []) _ [] [tA; _errType] false).
  - reflexivity.
  - vm_compute. reflexivity.
  - repeat constructor.
Defined.
End extract_example.

(** ** Committing the staging area *)

(** The keys of the staging area: values have no group, groups have no name. *)
Definition staging_keys (sr : stagingContainerWriter) : Prop :=
  (∀ k v, sw_values sr !! k = Some v → k = valueKey (k_name k) (k_t k)) ∧
  (∀ k vs, sw_groups sr !! k = Some vs → k = groupKey (k_group k) (k_t k)).

Definition keeps_keys (a b : stagingContainerWriter) : Prop := staging_keys a → staging_keys b.

#[export] Instance keeps_keys_preorder : PreOrder keeps_keys.
Proof. split; [by intros a Ha|]. intros a b c H1 H2 Ha. auto. Qed.

#[export] Instance keeps_keys_runs : writer_runs stagingContainerWriter keeps_keys.
Proof.
  split; intros n t v w; split; try done; intros [Hv Hg]; split; simpl; try done.
  - intros k v'. rewrite lookup_insert_Some. intros [[<- _]|[_ ?]]; [done|eauto].
  - intros k vs'. rewrite lookup_insert_Some. intros [[<- _]|[_ ?]]; [done|eauto].
Qed.

(** What one key does to the maps of a scope. *)
Definition putGroup (k : key) (vs : list value) (g : gmap key (list value))
    : gmap key (list value) :=
  match vs with [] => g | _ => <[k := default [] (g !! k) ++ vs]> g end.

Definition commitValues (vs : list (key * value)) (m : gmap key value) : gmap key value :=
  foldr (λ kv, <[valueKey (k_name kv.1) (k_t kv.1) := kv.2]>) m vs.
Definition commitGroups (gs : list (key * list value)) (m : gmap key (list value))
    : gmap key (list value) :=
  foldr (λ kvs, putGroup (groupKey (k_group kvs.1) (k_t kvs.1)) kvs.2) m gs.

Section commit.
Lemma set_values_id f sc : (∀ m, f m = m) → set_values f sc = sc.
Proof. intros Hf. destruct sc; simpl. by rewrite Hf. Qed.
Lemma set_groups_id f sc : (∀ m, f m = m) → set_groups f sc = sc.
Proof. intros Hf. destruct sc; simpl. by rewrite Hf. Qed.

Lemma set_values_ext f g sc : (∀ m, f m = g m) → set_values f sc = set_values g sc.
Proof. intros Hf. destruct sc; simpl. by rewrite Hf. Qed.
Lemma set_groups_ext f g sc : (∀ m, f m = g m) → set_groups f sc = set_groups g sc.
Proof. intros Hf. destruct sc; simpl. by rewrite Hf. Qed.

Lemma forEach_values (vs : list (key * value)) (sc : Scope) :
  forEach vs (λ kv, setValue (k_name kv.1) (k_t kv.1) kv.2) sc =
  (Ret (), set_values (commitValues (reverse vs)) sc).
Proof.
  induction vs as [|kv vs IH] using rev_ind; [by rewrite set_values_id|].
  rewrite forEach_app. unfold mbind, SM_bind. rewrite IH, reverse_snoc.
  by destruct sc.
Qed.

Lemma submit_all group t vs (sc : Scope) :
  forEach vs (λ v, submitGroupedValue group t v) sc =
  (Ret (), set_groups (putGroup (groupKey group t) vs) sc).
Proof.
  induction vs as [|v vs IH] using rev_ind; [by rewrite set_groups_id|].
  rewrite forEach_app. unfold mbind, SM_bind. rewrite IH. clear IH.
  assert (∀ g, <[groupKey group t :=
                   default [] (putGroup (groupKey group t) vs g !! groupKey group t) ++ [v]]>
                 (putGroup (groupKey group t) vs g) =
               putGroup (groupKey group t) (vs ++ [v]) g) as Hg.
  { intros g. unfold putGroup. destruct vs as [|v' vs]; simpl; [done|].
    rewrite lookup_insert_eq. simpl. by rewrite insert_insert_eq, <- app_assoc. }
  rewrite forEach_cons, forEach_nil. destruct sc. unfold mbind, SM_bind. simpl. by rewrite <- Hg.
Qed.

Lemma forEach_groups (gs : list (key * list value)) (sc : Scope) :
  forEach gs (λ kvs, forEach kvs.2 (λ v, submitGroupedValue (k_group kvs.1) (k_t kvs.1) v)) sc =
  (Ret (), set_groups (commitGroups (reverse gs)) sc).
Proof.
  induction gs as [|kvs gs IH] using rev_ind; [by rewrite set_groups_id|].
  rewrite forEach_app. unfold mbind, SM_bind. rewrite IH, reverse_snoc, forEach_cons.
  unfold mbind, SM_bind. rewrite submit_all. by destruct sc.
Qed.

Lemma CommitIn_eq vs gs sc :
  CommitIn vs gs sc =
  (Ret (), set_groups (commitGroups (reverse gs)) (set_values (commitValues (reverse vs)) sc)).
Proof.
  unfold CommitIn. unfold mbind at 1, SM_bind. by rewrite forEach_values, forEach_groups.
Qed.

(** Different keys commute. *)
Lemma commitValues_perm vs vs' m :
  vs ≡ₚ vs' → NoDup ((λ kv, valueKey (k_name kv.1) (k_t kv.1)) <$> vs) →
  commitValues vs m = commitValues vs' m.
Proof.
  intros Hp Hnd. unfold commitValues.
  apply (foldr_permutation eq); [..|done]; try apply _.
  intros j1 [k1 v1] j2 [k2 v2] b Hne H1 H2. simpl. apply insert_insert_ne. intros Heq.
  apply Hne. apply (NoDup_lookup _ _ _ (valueKey (k_name k1) (k_t k1)) Hnd);
    rewrite list_lookup_fmap; [by rewrite H1|by rewrite H2, Heq].
Qed.

Lemma putGroup_comm k1 k2 vs1 vs2 g :
  k1 ≠ k2 → putGroup k1 vs1 (putGroup k2 vs2 g) = putGroup k2 vs2 (putGroup k1 vs1 g).
Proof.
  intros Hne. unfold putGroup. destruct vs1, vs2; try done.
  rewrite !lookup_insert_ne by done. by apply insert_insert_ne.
Qed.

Lemma commitGroups_perm gs gs' m :
  gs ≡ₚ gs' → NoDup ((λ kvs, groupKey (k_group kvs.1) (k_t kvs.1)) <$> gs) →
  commitGroups gs m = commitGroups gs' m.
Proof.
  intros Hp Hnd. unfold commitGroups.
  apply (foldr_permutation eq); [..|done]; try apply _.
  intros j1 [k1 v1] j2 [k2 v2] b Hne H1 H2. simpl. apply putGroup_comm. intros Heq.
  apply Hne. apply (NoDup_lookup _ _ _ (groupKey (k_group k1) (k_t k1)) Hnd);
    rewrite list_lookup_fmap; [by rewrite H1|by rewrite H2, Heq].
Qed.

Lemma staging_keys_NoDup sr vs gs :
  staging_keys sr → vs ≡ₚ map_to_list (sw_values sr) → gs ≡ₚ map_to_list (sw_groups sr) →
  NoDup ((λ kv, valueKey (k_name kv.1) (k_t kv.1)) <$> vs) ∧
  NoDup ((λ kvs, groupKey (k_group kvs.1) (k_t kvs.1)) <$> gs).
Proof.
  intros [Hv Hg] Hvs Hgs.
  rewrite (Forall_fmap_ext_1 (λ kv : key * value, valueKey (k_name kv.1) (k_t kv.1)) fst vs).
  2: { apply Forall_forall. intros [k v] Hk. rewrite Hvs, elem_of_map_to_list in Hk.
       symmetry. by eapply Hv. }
  rewrite (Forall_fmap_ext_1 (λ kvs : key * list value, groupKey (k_group kvs.1) (k_t kvs.1)) fst gs).
  2: { apply Forall_forall. intros [k v] Hk. rewrite Hgs, elem_of_map_to_list in Hk.
       symmetry. by eapply Hg. }
  rewrite Hvs, Hgs. split; apply NoDup_fst_map_to_list.
Qed.
End commit.

Lemma ExtractList_keys `{TypeTable} rl results r sr :
  ExtractList rl false results newStagingContainerWriter = (r, sr) → staging_keys sr.
Proof.
  intros Hex.
  pose proof (ExtractList_runs keeps_keys rl false results newStagingContainerWriter) as [_ HR].
  rewrite Hex in HR. apply HR. split; intros k v; simpl; by rewrite lookup_empty.
Qed.

(** C21: [Commit] does not depend on the order in which Go visits the two maps of
    the staging area: whatever the enumerations of the maps filled by an
    extraction, the scope ends up the same. *)
Theorem Commit_order_irrelevant `{TypeTable} rl results r sr vs gs (sc : Scope) :
  ExtractList rl false results newStagingContainerWriter = (r, sr) →
  vs ≡ₚ map_to_list (sw_values sr) → gs ≡ₚ map_to_list (sw_groups sr) →
  CommitIn vs gs sc = Commit sr sc.
Proof.
  intros Hex Hvs Hgs.
  pose proof (ExtractList_keys _ _ _ _ Hex) as Hkeys.
  destruct (staging_keys_NoDup _ _ _ Hkeys Hvs Hgs) as [Hnv Hng].
  unfold Commit. rewrite !CommitIn_eq. f_equal.
  rewrite (set_values_ext _ (commitValues (reverse (map_to_list (sw_values sr))))).
  - apply set_groups_ext. intros m. apply commitGroups_perm; by rewrite !reverse_Permutation.
  - intros m. apply commitValues_perm; by rewrite !reverse_Permutation.
Qed.

(** [func() (A, B)]: the two keys in reverse order. *)
Definition example_results : resultList :=
  mkResultList (TDef 56) [resultSingle "" tA []; resultSingle "" tB []] [0; 1]%Z.

Definition example_staging : outcome () * stagingContainerWriter :=
  ExtractList (TT := scenarioTable) example_results false [VObj tA 1; VObj tB 2] newStagingContainerWriter.

Section commit_example.
#[local] Existing Instance scenarioTable.

Lemma Commit_order_irrelevant_witness :
  newResultList (TDef 56) (mkResultOptions "" "" []) = Ret example_results ∧
  example_staging.1 = Ret () ∧
  CommitIn (reverse (map_to_list (sw_values example_staging.2)))
           (reverse (map_to_list (sw_groups example_staging.2))) blankScope =
  Commit example_staging.2 blankScope.
Proof.
  split; [vm_compute; reflexivity|]. split; [reflexivity|].
  exact (Commit_order_irrelevant example_results [VObj tA 1; VObj tB 2] (Ret ())
           example_staging.2 _ _ blankScope eq_refl
           (reverse_Permutation _) (reverse_Permutation _)).
Defined.
End commit_example.
