(* ===== verification/Deps.v ===== *)
(** * Dependencies at run time

    The part of the store that building values never changes (the [skeleton]),
    the constructors and decorators that building a parameter may call
    ([param_deps], [node_deps]), and the depth of that relation.  [eff] says
    what a run may do to the store: which functions it may call, and that a
    constructor that has been called is not called again. *)

From S2P Require Import Prelude Digraph GoLib GoTypes DigReflect Errors Group InOut.
From S2P Require Import Values DotTypes Result Store Param Call.

Open Scope string_scope.
Open Scope list_scope.

(** ** The skeleton *)

(** Of the graph of a scope, building only leaves the constructors alone: reading
    the parameters of a function adds the value groups it consumes. *)
Definition is_ctor_node (w : graphNode) : bool :=
  match w with WCtor _ => true | WGroup _ => false end.

Definition ctor_nodes (g : graphHolder) : list graphNode :=
  filter (λ w, is_ctor_node w) (gh_nodes g).

Definition skel_scope (sc : Scope) : Scope :=
  mkScope (sc_name sc) (providers sc) (decorators sc) (nodes sc) ∅ ∅ ∅ ∅ (mkRand 0 0)
    false (deferAcyclicVerification sc) (recoverFromPanics sc) (sc_invokerFn sc)
    (mkGraphHolder (ctor_nodes (gh sc)) (-1)) (parentScope sc) (childScopes sc)
    (clockSrc sc).

(** Scopes that differ in their values only. *)
Definition skel_eq (x y : Scope) : Prop :=
  skel_scope y = skel_scope x ∧ gh y = gh x ∧ isVerifiedAcyclic y = isVerifiedAcyclic x.

#[export] Instance skel_eq_preorder : PreOrder skel_eq.
Proof. split; [done|]. intros x y z (? & ? & ?) (? & ? & ?). split_and!; congruence. Qed.

Definition skel_ctor (cn : constructorNode) : constructorNode :=
  mkConstructorNode (cn_ctor cn) (cn_location cn) (cn_id cn) false (cn_paramList cn)
    (cn_resultList cn) (cn_orders cn) (cn_s cn) (cn_origS cn) (cn_callback cn)
    (cn_beforeCallback cn).

Definition skel_dcor (dn : decoratorNode) : decoratorNode := set_state decoratorReady dn.

Definition skeleton (st : store) : store :=
  mkStore (skel_scope <$> st_scopes st) (skel_ctor <$> st_ctors st)
          (skel_dcor <$> st_dcors st) [] ∅ [].

(** ** Dependencies *)

(** A constructor node or a decorator node. *)
Abbreviation node := (nat + nat)%type.

(** What a key may call in one scope: its decorator, and its providers unless
    they are only wanted softly. *)
Definition key_deps (scs : list Scope) (k : key) (soft : bool) (s : nat) : list node :=
  match scs !! s with
  | Some sc => (inr <$> option_list (decorators sc !! k)) ++
               (if soft then [] else inl <$> getProviders sc k)
  | None => []
  end.

Fixpoint param_deps `{TypeTable} (st : store) (c : nat) (p : param) : list node :=
  match p with
  | PSingle ps =>
      concat (map (key_deps (st_scopes st) (valueKey (ps_Name ps) (ps_Type ps)) false)
                  (ancestors (st_scopes st) c))
  | PGrouped pt =>
      match Elem (pt_Type pt) with
      | Some el =>
          concat (map (key_deps (st_scopes st) (groupKey (pt_Group pt) el) (pt_Soft pt))
                      (ancestors (st_scopes st) c))
      | None => []
      end
  | PObject _ fs => concat (map (λ f, param_deps st c (pof_Param f)) fs)
  end.

Definition list_deps `{TypeTable} (st : store) (c : nat) (pl : paramList) : list node :=
  concat (map (param_deps st c) (pl_Params pl)).

(** What a node may call: a constructor resolves its parameters from the scope it
    was provided to, a decorator from its own scope and never through itself. *)
Definition node_deps `{TypeTable} (st : store) (x : node) : list node :=
  match x with
  | inl n => match st_ctors st !! n with
             | Some cn => list_deps st (cn_origS cn) (cn_paramList cn)
             | None => []
             end
  | inr d => match st_dcors st !! d with
             | Some dn => filter (λ y, y ≠ inr d) (list_deps st (dn_s dn) (dn_params dn))
             | None => []
             end
  end.

(** No chain of dependencies from [x] is longer than [h]. *)
Fixpoint dep_depth `{TypeTable} (h : nat) (st : store) (x : node) : bool :=
  match h with
  | O => false
  | S h => forallb (dep_depth h st) (node_deps st x)
  end.

(** Every node of the store, and the bound on all chains. *)
Definition all_nodes (st : store) : list node :=
  (inl <$> seq 0 (length (st_ctors st))) ++ (inr <$> seq 0 (length (st_dcors st))).

Definition deps_bounded `{TypeTable} (h : nat) (st : store) : bool :=
  forallb (dep_depth h st) (all_nodes st).

(** ** The dependencies only look at the skeleton *)

Lemma ancestors_from_skel scs fuel s :
  ancestors_from (skel_scope <$> scs) fuel s = ancestors_from scs fuel s.
Proof.
  revert s; induction fuel as [|fuel IH]; intros [s|]; simpl; try done.
  rewrite list_lookup_fmap. destruct (scs !! s) as [sc|]; simpl; [|done]. by rewrite IH.
Qed.

Lemma ancestors_skel scs s : ancestors (skel_scope <$> scs) s = ancestors scs s.
Proof. apply ancestors_from_skel. Qed.

Lemma key_deps_skel scs k soft s :
  key_deps (skel_scope <$> scs) k soft s = key_deps scs k soft s.
Proof. unfold key_deps. rewrite list_lookup_fmap. by destruct (scs !! s). Qed.

Lemma getAllProviders_skel scs s k :
  getAllProviders (skel_scope <$> scs) s k = getAllProviders scs s k.
Proof.
  unfold getAllProviders. rewrite ancestors_skel. f_equal. apply map_ext. intros i.
  rewrite list_lookup_fmap. by destruct (scs !! i).
Qed.

(** Stores with the same skeleton have the same providers. *)
Lemma getAllProviders_same st st' s k :
  skeleton st' = skeleton st →
  getAllProviders (st_scopes st') s k = getAllProviders (st_scopes st) s k.
Proof.
  intros H. rewrite <- (getAllProviders_skel (st_scopes st')), <- (getAllProviders_skel (st_scopes st)).
  change (getAllProviders (st_scopes (skeleton st')) s k =
          getAllProviders (st_scopes (skeleton st)) s k). by rewrite H.
Qed.

Section deps.
Context `{TT : TypeTable}.

Lemma param_deps_skel st c p : param_deps (skeleton st) c p = param_deps st c p.
Proof.
  induction p as [ps|pt|t fs IH] using param_ind'; simpl.
  - rewrite ancestors_skel. f_equal. apply map_ext. intros. apply key_deps_skel.
  - destruct (Elem (pt_Type pt)); [|done].
    rewrite ancestors_skel. f_equal. apply map_ext. intros. apply key_deps_skel.
  - f_equal. by apply Forall_fmap_ext_1.
Qed.

Lemma list_deps_skel st c pl : list_deps (skeleton st) c pl = list_deps st c pl.
Proof. unfold list_deps. f_equal. apply map_ext. intros. apply param_deps_skel. Qed.

Lemma node_deps_skel st x : node_deps (skeleton st) x = node_deps st x.
Proof.
  destruct x as [n|d]; simpl; rewrite list_lookup_fmap.
  - destruct (st_ctors st !! n); simpl; [apply list_deps_skel|done].
  - destruct (st_dcors st !! d); simpl; [|done]. by rewrite list_deps_skel.
Qed.

Lemma dep_depth_skel h st x : dep_depth h (skeleton st) x = dep_depth h st x.
Proof.
  revert x; induction h as [|h IH]; intros x; simpl; [done|].
  rewrite node_deps_skel. induction (node_deps st x) as [|y l IHl]; simpl; [done|].
  by rewrite IH, IHl.
Qed.

(** Stores with the same skeleton have the same dependencies. *)
Lemma node_deps_same st st' x :
  skeleton st' = skeleton st → node_deps st' x = node_deps st x.
Proof. intros H. by rewrite <- (node_deps_skel st'), H, node_deps_skel. Qed.

Lemma deps_bounded_same h st st' :
  skeleton st' = skeleton st → deps_bounded h st = deps_bounded h st'.
Proof.
  intros H. assert (∀ s, deps_bounded h (skeleton s) = deps_bounded h s) as Hs.
  { intros s. unfold deps_bounded, all_nodes. simpl. rewrite !length_fmap.
    induction (_ ++ _) as [|x l IH]; simpl; [done|]. by rewrite dep_depth_skel, IH. }
  by rewrite <- Hs, <- H, Hs.
Qed.

Lemma param_deps_same st st' c p :
  skeleton st' = skeleton st → param_deps st' c p = param_deps st c p.
Proof. intros H. by rewrite <- (param_deps_skel st'), H, param_deps_skel. Qed.

Lemma dep_depth_mono h h' st x :
  h <= h' → dep_depth h st x = true → dep_depth h' st x = true.
Proof.
  revert h' x; induction h as [|h IH]; intros [|h'] x Hle; simpl; try done; [lia|].
  rewrite !forallb_forall. intros H y Hy. apply IH; [lia|auto].
Qed.

(** [y] is [x], or is called while [x] is. *)
Inductive reach (st : store) : node → node → Prop :=
| reach_refl x : reach st x x
| reach_step x y z : y ∈ node_deps st x → reach st y z → reach st x z.

(** [z] is called strictly below [x]. *)
Definition below (st : store) (x z : node) : Prop :=
  ∃ y, y ∈ node_deps st x ∧ reach st y z.

Lemma reach_trans st x y z : reach st x y → reach st y z → reach st x z.
Proof. induction 1; eauto using reach. Qed.

Lemma reach_depth st h x y :
  dep_depth h st x = true → reach st x y → dep_depth h st y = true.
Proof.
  intros Hx Hr. induction Hr as [|x y z Hy Hr IH]; [done|]. apply IH.
  destruct h as [|h]; [done|]. simpl in Hx. rewrite forallb_forall in Hx.
  apply (dep_depth_mono h); [lia|]. by apply Hx, list_elem_of_In.
Qed.

(** A node of bounded depth is not called while it is being called. *)
Lemma below_irrefl st h x : dep_depth h st x = true → ¬ below st x x.
Proof.
  revert x; induction h as [|h IH]; intros x Hx; [done|].
  intros (y & Hy & Hr). simpl in Hx. rewrite forallb_forall in Hx.
  specialize (Hx y (proj1 (list_elem_of_In _ _) Hy)).
  pose proof (reach_depth st h y x Hx Hr) as Hx'. apply (IH x Hx'). by exists y.
Qed.

Lemma reach_same st st' x y :
  skeleton st' = skeleton st → reach st x y → reach st' x y.
Proof.
  intros H Hr. induction Hr as [|x y z Hy Hr IH]; [constructor|].
  eapply reach_step; [|done]. by rewrite (node_deps_same st).
Qed.
End deps.

(** ** Effects of a run *)

Definition called (st : store) (n : nat) : bool :=
  match st_ctors st !! n with Some cn => cn_called cn | None => false end.

Definition dstate (st : store) (d : nat) : option decoratorState :=
  dn_state <$> st_dcors st !! d.

(** A constructor or decorator may be called if it belongs to [D] and has not been
    called. *)
Definition event_ok (D : node → Prop) (st : store) (ev : event) : Prop :=
  match ev with
  | EvCall (ByCtor n) _ _ => D (inl n) ∧ called st n = false
  | EvCall (ByDcor d) _ _ => D (inr d) ∧ dstate st d = Some decoratorReady
  | _ => True
  end.

Definition is_ctor_call (n : nat) (ev : event) : bool :=
  match ev with EvCall (ByCtor m) _ _ => bool_decide (m = n) | _ => false end.

(** The call of a constructor with these arguments, after the events [tr],
    returns results that can be extracted: no panic, no error. *)
Definition succeeded `{Env} (rl : resultList) (tr : list event) (fn : funcval)
    (args : list value) : Prop :=
  ∃ vs, env_call tr fn args = Returned vs ∧
        (ExtractList rl false vs newStagingContainerWriter).1 = Ret ().

(** Every constructor is called at most until it succeeds. *)
Definition once `{Env} (st : store) : Prop :=
  ∀ pre post n fn args cn,
    st_trace st = pre ++ EvCall (ByCtor n) fn args :: post →
    st_ctors st !! n = Some cn →
    succeeded (cn_resultList cn) pre fn args →
    called st n = true ∧ Forall (λ ev, is_ctor_call n ev = false) post.

(** What a run may do to the store when it may only call nodes of [D]. *)
Record eff `{Env} (D : node → Prop) (st st' : store) : Prop := {
  eff_skel : skeleton st' = skeleton st;
  eff_trace : ∃ new, st_trace st' = st_trace st ++ new ∧ Forall (event_ok D st) new;
  eff_called : ∀ n, called st n = true → called st' n = true;
  eff_called_frame : ∀ n, ¬ D (inl n) → called st' n = called st n;
  eff_onstack : ∀ d, dstate st d = Some decoratorOnStack → dstate st' d = Some decoratorOnStack;
  eff_dcalled : ∀ d, dstate st d = Some decoratorCalled → dstate st' d = Some decoratorCalled;
  eff_dframe : ∀ d, ¬ D (inr d) → dstate st' d = dstate st d;
  eff_once : once st → once st'
}.

Section effects.
Context `{E : Env}.

Lemma dstate_skel st st' d :
  skeleton st' = skeleton st → is_Some (dstate st d) ↔ is_Some (dstate st' d).
Proof.
  intros H. apply (f_equal st_dcors) in H. simpl in H.
  assert (length (st_dcors st') = length (st_dcors st)) as Hl.
  { by rewrite <- (length_fmap skel_dcor), H, length_fmap. }
  unfold dstate. rewrite !fmap_is_Some, !lookup_lt_is_Some. by rewrite Hl.
Qed.

(** Once a decorator has left its ready state it never returns to it. *)
Lemma eff_ready D st st' d :
  eff D st st' → dstate st' d = Some decoratorReady → dstate st d = Some decoratorReady.
Proof.
  intros He Hd. destruct (dstate st d) as [s|] eqn:Hs.
  - destruct s; [done| |].
    + apply (eff_onstack _ _ _ He) in Hs. congruence.
    + apply (eff_dcalled _ _ _ He) in Hs. congruence.
  - assert (is_Some (dstate st d)) as [? ?]; [|congruence].
    apply (dstate_skel st st'); [apply He|by rewrite Hd].
Qed.

Lemma event_ok_back D st st' ev : eff D st st' → event_ok D st' ev → event_ok D st ev.
Proof.
  intros He. destruct ev as [cb nm|[n|d|] f args|cb nm e t]; simpl; try done.
  - intros [? Hc]. split; [done|]. destruct (called st n) eqn:Hn; [|done].
    apply (eff_called _ _ _ He) in Hn. congruence.
  - intros [? Hd]. split; [done|]. by eapply eff_ready.
Qed.

#[export] Instance eff_preorder D : PreOrder (eff D).
Proof.
  split.
  - intros st. split; try done. exists []. by rewrite app_nil_r.
  - intros s1 s2 s3 H12 H23. split.
    + by rewrite (eff_skel _ _ _ H23), (eff_skel _ _ _ H12).
    + destruct (eff_trace _ _ _ H12) as (n1 & Ht1 & Hn1).
      destruct (eff_trace _ _ _ H23) as (n2 & Ht2 & Hn2).
      exists (n1 ++ n2). split; [by rewrite Ht2, Ht1, app_assoc|]. apply Forall_app. split; [done|].
      eapply Forall_impl; [done|]. intros. by eapply event_ok_back.
    + intros n Hn. by apply H23, H12.
    + intros n Hn. rewrite (eff_called_frame _ _ _ H23) by done.
      by apply (eff_called_frame _ _ _ H12).
    + intros d Hd. by apply H23, H12.
    + intros d Hd. by apply H23, H12.
    + intros d Hd. rewrite (eff_dframe _ _ _ H23) by done. by apply (eff_dframe _ _ _ H12).
    + intros Ho. by apply H23, H12.
Qed.

(** Widening the set of nodes that may be called. *)
Lemma eff_weaken (D D' : node → Prop) st st' :
  (∀ x, D x → D' x) → eff D st st' → eff D' st st'.
Proof.
  intros HD [Hs (new & Ht & Hn) Hc Hcf Ho Hdc Hdf Honce]. split; auto.
  exists new. split; [done|]. eapply Forall_impl; [done|].
  intros [cb nm|[n|d|] f args|cb nm e t]; simpl; naive_solver.
Qed.

Lemma runs_weaken (D D' : node → Prop) F {A} (m : M A) st :
  (∀ x, D x → D' x) → runs (eff D) F m st → runs (eff D') F m st.
Proof. intros HD [? ?]. split; [done|]. by eapply eff_weaken. Qed.

(** ** Effects of single steps *)

(** A step that leaves the nodes and the trace alone. *)
Lemma eff_quiet D st st' :
  skel_scope <$> st_scopes st' = skel_scope <$> st_scopes st →
  st_ctors st' = st_ctors st → st_dcors st' = st_dcors st → st_trace st' = st_trace st →
  eff D st st'.
Proof.
  destruct st, st'; simpl. intros Hs -> -> ->. split; simpl; try (by intros).
  - unfold skeleton. simpl. by rewrite Hs.
  - exists []. by rewrite app_nil_r.
Qed.

Lemma eff_scopes D st f :
  skel_scope <$> f (st_scopes st) = skel_scope <$> st_scopes st →
  eff D st (upd_scopes f st).
Proof. intros H. by apply eff_quiet. Qed.

(** A method of a scope that leaves the scope's skeleton alone. *)
Lemma runs_zoomScope D F {A} s (m : SM Scope A) st :
  (∀ sc, runs skel_eq F m sc) → runs (eff D) F (zoomScope s m) st.
Proof.
  intros H. unfold runs, zoomScope. destruct (st_scopes st !! s) as [sc|] eqn:Hs.
  - destruct (H sc) as [H1 [H2 _]]. destruct (m sc) as [r sc']; simpl in *.
    split; [done|]. apply eff_scopes. rewrite list_fmap_insert, H2.
    rewrite <- list_fmap_insert. by rewrite list_insert_id.
  - simpl. split; [intros; discriminate|reflexivity].
Qed.

(** *** Keeping [once] *)

Lemma set_called_lookup (l : list constructorNode) (n m : nat) cn' :
  alter set_called n l !! m = Some cn' →
  ∃ cn, l !! m = Some cn ∧ cn_resultList cn' = cn_resultList cn ∧
        (cn_called cn = true → cn_called cn' = true) ∧ (n = m → cn_called cn' = true).
Proof.
  rewrite list_lookup_alter. case_decide; [subst|naive_solver].
  destruct (l !! m) as [cn|]; simpl; [|done]. intros [= <-]. by exists cn.
Qed.

(** Marking a constructor as called, or not, without an event. *)
Lemma once_mark st st' n :
  st_trace st' = st_trace st → st_ctors st' = alter set_called n (st_ctors st) →
  once st → once st'.
Proof.
  intros Ht Hc Ho pre post m fn args cn' Htr Hm Hsucc. rewrite Hc in Hm.
  destruct (set_called_lookup _ _ _ _ Hm) as (cn & Hcn & Hrl & Hcalled & _).
  rewrite Ht in Htr. rewrite Hrl in Hsucc.
  destruct (Ho pre post m fn args cn Htr Hcn Hsucc) as [H1 H2]. split; [|done].
  unfold called in *. rewrite Hc, Hm. rewrite Hcn in H1. auto.
Qed.

Lemma once_log st ev :
  (∀ n, is_ctor_call n ev = false) → once st → once (upd_trace (λ tr, tr ++ [ev]) st).
Proof.
  intros Hev Ho pre post n fn args cn Htr Hn Hsucc. simpl in Htr.
  apply app_cons_snoc in Htr as [(_ & _ & ->)|(post' & -> & Htr)].
  - specialize (Hev n). simpl in Hev. by apply bool_decide_eq_false in Hev.
  - destruct (Ho pre post' n fn args cn Htr Hn Hsucc). split; [done|].
    apply Forall_app. split; [done|]. by constructor.
Qed.

(** One call of a constructor that had not succeeded before: afterwards either
    it has failed, or it is marked as called. *)
Lemma once_call st st' n cn fn args (b : bool) :
  called st n = false → st_ctors st !! n = Some cn →
  st_ctors st' = (if b then alter set_called n (st_ctors st) else st_ctors st) →
  st_trace st' = st_trace st ++ [EvCall (ByCtor n) fn args] →
  (b = false → ¬ succeeded (cn_resultList cn) (st_trace st) fn args) →
  once st → once st'.
Proof.
  intros Hfresh Hn Hc Ht Hb Ho pre post m fn' args' cn' Htr Hm Hsucc.
  assert (∃ cm, st_ctors st !! m = Some cm ∧ cn_resultList cn' = cn_resultList cm ∧
                (cn_called cm = true → cn_called cn' = true) ∧
                (b = true → n = m → cn_called cn' = true)) as (cm & Hcm & Hrl & Hc1 & Hc2).
  { rewrite Hc in Hm. destruct b; [|by exists cn'].
    apply set_called_lookup in Hm. naive_solver. }
  rewrite Hrl in Hsucc. rewrite Ht in Htr.
  apply app_cons_snoc in Htr as [(-> & -> & Heq)|(post' & -> & Htr)].
  - simplify_eq. split; [|done]. unfold called. rewrite Hm.
    destruct b; [auto|]. exfalso. by apply Hb.
  - destruct (Ho pre post' m fn' args' cm Htr Hcm Hsucc) as [H1 H2].
    assert (n ≠ m) as Hne by congruence. split.
    + unfold called in *. rewrite Hm. rewrite Hcm in H1. auto.
    + apply Forall_app. split; [done|]. constructor; [|done]. simpl.
      by apply bool_decide_eq_false.
Qed.

(** *** Events and states of nodes *)

Lemma eff_log D st ev :
  event_ok D st ev → (∀ n, is_ctor_call n ev = false) →
  eff D st (upd_trace (λ tr, tr ++ [ev]) st).
Proof.
  intros H Hev. split; try done.
  - exists [ev]. split; [done|]. by constructor.
  - by apply once_log.
Qed.

Lemma called_alter st st' n m :
  st_ctors st' = alter set_called n (st_ctors st) →
  called st' m = if decide (n = m) then bool_decide (m < length (st_ctors st)) else called st m.
Proof.
  intros Hc. unfold called; rewrite Hc. case_decide as Hn.
  - subst m. rewrite list_lookup_alter_eq. destruct (st_ctors st !! n) eqn:Hl; simpl.
    + symmetry. apply bool_decide_eq_true. eapply lookup_lt_Some; eauto.
    + symmetry. apply bool_decide_eq_false. apply lookup_ge_None in Hl. lia.
  - by rewrite list_lookup_alter_ne.
Qed.

Lemma called_lt st n : called st n = true → n < length (st_ctors st).
Proof.
  unfold called. destruct (st_ctors st !! n) eqn:Hc; [|done].
  intros _. eapply lookup_lt_Some; eauto.
Qed.

(** The effect of calling a constructor, with its event [evs] if any. *)
Lemma eff_ctor (D : node → Prop) st st' n (b : bool) evs :
  D (inl n) →
  skel_scope <$> st_scopes st' = skel_scope <$> st_scopes st →
  st_ctors st' = (if b then alter set_called n (st_ctors st) else st_ctors st) →
  st_dcors st' = st_dcors st →
  st_trace st' = st_trace st ++ evs → Forall (event_ok D st) evs →
  (once st → once st') →
  eff D st st'.
Proof.
  intros HD Hs Hc Hd Ht Hev Ho. split; try done.
  - unfold skeleton. rewrite Hs, Hc, Hd.
    destruct b; [by rewrite (fmap_alter_same skel_ctor set_called)|done].
  - by exists evs.
  - intros m Hm. destruct b; [|unfold called in *; by rewrite Hc].
    rewrite (called_alter _ _ _ _ Hc). case_decide; [|done]. subst m.
    apply bool_decide_eq_true. by apply called_lt.
  - intros m Hm. destruct b; [|unfold called in *; by rewrite Hc].
    rewrite (called_alter _ _ _ _ Hc). case_decide; [|done]. by subst.
  - intros d. unfold dstate. by rewrite Hd.
  - intros d. unfold dstate. by rewrite Hd.
  - intros d _. unfold dstate. by rewrite Hd.
Qed.

Lemma dstate_alter st d s e :
  dstate (upd_dcors (alter (set_state s) d) st) e =
  if decide (d = e) then (λ _, s) <$> dstate st e else dstate st e.
Proof.
  unfold dstate; simpl. case_decide as Hn.
  - subst e. rewrite list_lookup_alter_eq. by destruct (st_dcors st !! d).
  - by rewrite list_lookup_alter_ne.
Qed.

(** From a state where the decorator is ready, its state may move freely. *)
Lemma eff_set_state (D : node → Prop) st st1 d s :
  D (inr d) → dstate st d = Some decoratorReady → eff D st st1 →
  eff D st (upd_dcors (alter (set_state s) d) st1).
Proof.
  intros HD Hd [Hs Ht Hc Hcf Ho Hdc Hdf Honce]. split; try done.
  - rewrite <- Hs. unfold skeleton. simpl. by rewrite (fmap_alter_same skel_dcor (set_state s)).
  - intros e He. rewrite dstate_alter. case_decide; [congruence|auto].
  - intros e He. rewrite dstate_alter. case_decide; [congruence|auto].
  - intros e He. rewrite dstate_alter. case_decide; [by subst|auto].
Qed.

Lemma eff_log_dcor (D : node → Prop) st st1 d fn args :
  D (inr d) → dstate st d = Some decoratorReady → eff D st st1 →
  eff D st (upd_trace (λ tr, tr ++ [EvCall (ByDcor d) fn args]) st1).
Proof.
  intros HD Hd [Hs (new & Ht & Hn) Hc Hcf Ho Hdc Hdf Honce]. split; try done.
  - exists (new ++ [EvCall (ByDcor d) fn args]). simpl. rewrite Ht, app_assoc.
    split; [done|]. apply Forall_app. split; [done|]. by repeat constructor.
  - intros H. by apply once_log, Honce.
Qed.
End effects.
