(* ===== verification/Building.v ===== *)
(** * Building values terminates and calls every constructor once

    What the methods of Call.v do to the store, from the writers up to the
    recursion of [knot]: with a bound on the chains of dependencies, building a
    parameter always returns, only calls nodes the parameter depends on, and
    never calls a constructor again after it has succeeded. *)

From S2P Require Import Prelude Digraph GoLib GoTypes DigReflect Errors Group InOut.
From S2P Require Import Values Clock DotTypes Result Store Param Call ResultProofs Deps.

Open Scope string_scope.
Open Scope list_scope.

(** ** Scopes as writers *)

#[export] Instance Scope_runs : writer_runs Scope skel_eq.
Proof. by split; intros n t v []. Qed.

(** ** Deferred functions and the invoker *)

Section steps.
Context `{E : Env}.
Context (Q : store → store → Prop) `{!PreOrder Q}.

Lemma getScope_still s st : (getScope s st).2 = st.
Proof. unfold getScope, mbind, SM_bind. simpl. by destruct (st_scopes st !! s). Qed.
Lemma getCtor_still s st : (getCtor s st).2 = st.
Proof. unfold getCtor, mbind, SM_bind. simpl. by destruct (st_ctors st !! s). Qed.
Lemma getDcor_still s st : (getDcor s st).2 = st.
Proof. unfold getDcor, mbind, SM_bind. simpl. by destruct (st_dcors st !! s). Qed.

Lemma getScope_Ret s st sc st' :
  getScope s st = (Ret sc, st') → st' = st ∧ st_scopes st !! s = Some sc.
Proof. unfold getScope, mbind, SM_bind. simpl. by destruct (st_scopes st !! s); simpl; intros [=]; subst. Qed.
Lemma getCtor_Ret s st cn st' :
  getCtor s st = (Ret cn, st') → st' = st ∧ st_ctors st !! s = Some cn.
Proof. unfold getCtor, mbind, SM_bind. simpl. by destruct (st_ctors st !! s); simpl; intros [=]; subst. Qed.
Lemma getDcor_Ret s st dn st' :
  getDcor s st = (Ret dn, st') → st' = st ∧ st_dcors st !! s = Some dn.
Proof. unfold getDcor, mbind, SM_bind. simpl. by destruct (st_dcors st !! s); simpl; intros [=]; subst. Qed.

Lemma runs_getScope F s st : runs Q F (getScope s) st.
Proof. unfold getScope. run_step; auto with dig. Qed.
Lemma runs_getCtor F s st : runs Q F (getCtor s) st.
Proof. unfold getCtor. run_step; auto with dig. Qed.
Lemma runs_getDcor F s st : runs Q F (getDcor s) st.
Proof. unfold getDcor. run_step; auto with dig. Qed.

Lemma clockNow_Ret c st z st' : clockNow c st = (Ret z, st') → st' = st.
Proof.
  unfold clockNow. rewrite bind_Ret. intros (sc & s1 & H1 & H2).
  apply getScope_Ret in H1 as [-> _]. by inversion H2.
Qed.
Lemma runs_clockNow F c st : runs Q F (clockNow c) st.
Proof. unfold clockNow. run_step; [apply runs_getScope|]. run_step; auto with dig. Qed.

(** Callback events may always be logged. *)
Context (Qlog : ∀ ev st, (∀ who fn args, ev ≠ EvCall who fn args) →
                         Q st (upd_trace (λ tr, tr ++ [ev]) st)).

Lemma runCallback_Ret ev st st' :
  runCallback ev st = (Ret (), st') → st' = upd_trace (λ tr, tr ++ [ev]) st.
Proof.
  unfold runCallback, mbind, SM_bind. simpl. destruct (env_callback _ _) as [[]|]; by intros [=].
Qed.

Lemma runs_runCallback F ev st :
  (∀ who fn args, ev ≠ EvCall who fn args) → runs Q F (runCallback ev) st.
Proof.
  intros Hev. unfold runCallback. run_step; [auto with dig|].
  run_step; [apply runs_modifyS; by apply Qlog|]. break; [by apply runs_liftO|auto with dig].
Qed.

Lemma runs_callBefore F cb loc st : runs Q F (callBefore cb loc) st.
Proof.
  destruct cb; simpl; [|auto with dig]. run_step; [auto with dig|]. by apply runs_runCallback.
Qed.

Lemma runs_deferCallback F cb loc c m st :
  runs Q F m st → runs Q F (deferCallback cb loc c m) st.
Proof.
  intros Hm. destruct cb as [cb|]; simpl; [|done].
  run_step; [apply runs_clockNow|]. apply clockNow_Ret in Hrun as ->.
  apply runs_observe; [done..|]. intros r s' _ HF _.
  assert (runs Q F (name ← orPanic nilDeref (qualifiedName loc);
                    now ← clockNow c;
                    _ ← runCallback (EvCallback cb name (errOf r) (Since now a));
                    liftO r) s') as H.
  { run_step; [auto with dig|]. run_step; [apply runs_clockNow|].
    run_step; [by apply runs_runCallback|]. by apply runs_liftO. }
  by destruct r.
Qed.

Lemma runs_deferRecover F b loc m st :
  runs Q F m st → runs Q F (deferRecover b loc m) st.
Proof.
  intros Hm. apply runs_observe; [done..|]. intros r s' _ HF _.
  destruct r as [| |p|]; try (by apply runs_liftO).
  destruct b; [auto with dig|by apply runs_liftO].
Qed.

Lemma runs_shallowCheck F c pl st : runs Q F (shallowCheckDependencies c pl) st.
Proof.
  unfold shallowCheckDependencies. run_step; [apply runs_getScope|].
  run_step; [auto with dig|]. break; auto with dig.
Qed.

Lemma storesToRoot_Ret c st l st' :
  storesToRoot c st = (Ret l, st') → st' = st ∧ l = ancestors (st_scopes st) c.
Proof. intros H. by inversion H. Qed.

Lemma orPanic_Ret {X} msg (o : option X) x (st st' : store) :
  orPanic msg o st = (Ret x, st') → st' = st ∧ o = Some x.
Proof. destruct o; intros H; by inversion H. Qed.

Lemma getS_Ret (st st1 st' : store) : getS st = (Ret st1, st') → st1 = st ∧ st' = st.
Proof. intros H. by inversion H. Qed.

Lemma checkCall_ends fn args : checkCall fn args ≠ NoFuel.
Proof.
  unfold checkCall. apply bind_ends; [by destruct (FuncSig _)|]. intros [[ins outs] var] _.
  repeat case_match; try done; apply bind_ends; auto using checkAssigns_ends.
Qed.

Lemma runs_invoke_with F inv who fn args st :
  (∀ s, Q s (upd_trace (λ tr, tr ++ [EvCall who fn args]) s)) →
  runs Q F (invoke_with inv who fn args) st.
Proof.
  intros Hlog. destruct inv; simpl.
  - unfold defaultInvoker.
    run_step; [apply runs_liftO; [apply _|]; intros Hno; by apply checkCall_ends in Hno|].
    run_step; [auto with dig|]. run_step; [by apply runs_modifyS|].
    destruct (env_call _ _ _); [auto with dig|by apply runs_liftO].
  - unfold dryInvoker. run_step; [auto with dig|].
    destruct a as [[ins outs] var]. auto with dig.
Qed.

Lemma runs_storesToRoot F c st : runs Q F (storesToRoot c) st.
Proof. unfold storesToRoot. run_step; auto with dig. Qed.
End steps.

#[export] Hint Resolve eff_preorder skel_eq_preorder runs_getScope runs_getCtor runs_getDcor
  runs_clockNow runs_shallowCheck runs_storesToRoot : dig.

(** Where a computation that only reads the store leaves it. *)
Ltac read_step :=
  repeat match goal with
  | H : getScope _ _ = (Ret _, _) |- _ => apply getScope_Ret in H as [-> H]
  | H : getCtor _ _ = (Ret _, _) |- _ => apply getCtor_Ret in H as [-> H]
  | H : getDcor _ _ = (Ret _, _) |- _ => apply getDcor_Ret in H as [-> H]
  | H : orPanic _ _ _ = (Ret _, _) |- _ => apply orPanic_Ret in H as [-> H]
  | H : storesToRoot _ _ = (Ret _, _) |- _ => apply storesToRoot_Ret in H as [-> ->]
  | H : getS _ = (Ret _, _) |- _ => apply getS_Ret in H as [-> ->]
  end.

(** One step that only reads the store. *)
Ltac read := run_step; [by auto with dig|]; read_step.

(** ** What the searches of [Build] find *)

Lemma findDecorator_Some st stores ps d s :
  findDecorator st stores ps = Some (d, s) →
  s ∈ stores ∧ dstate st d ≠ Some decoratorOnStack ∧
  inr d ∈ key_deps (st_scopes st) (valueKey (ps_Name ps) (ps_Type ps)) false s.
Proof.
  induction stores as [|s' stores IH]; simpl; [done|]. unfold key_deps.
  destruct (st_scopes st !! s') as [sc|] eqn:Hs; simpl; [|naive_solver set_solver].
  unfold getValueDecorator, getDecorators.
  destruct (decorators sc !! _) as [d'|] eqn:Hd; [|naive_solver set_solver].
  destruct (st_dcors st !! d') as [dn|] eqn:Hdn; [|naive_solver set_solver].
  case_decide; [naive_solver set_solver|]. intros [= -> ->].
  split; [set_solver|]. rewrite Hs, Hd. split; [|set_solver].
  unfold dstate. rewrite Hdn. simpl. congruence.
Qed.

Lemma findProvision_Provided scs stores ps s ns :
  findProvision scs stores ps = Provided s ns →
  s ∈ stores ∧ ∀ n, n ∈ ns →
  inl n ∈ key_deps scs (valueKey (ps_Name ps) (ps_Type ps)) false s.
Proof.
  induction stores as [|s' stores IH]; simpl; [done|]. unfold key_deps.
  destruct (scs !! s') as [sc|] eqn:Hs; simpl; [|naive_solver set_solver].
  destruct (getValue sc _ _); [done|]. unfold getValueProviders.
  destruct (getProviders sc _) as [|n0 ns0] eqn:Hp; [naive_solver set_solver|].
  intros [= -> <-]. split; [set_solver|]. intros n Hn.
  rewrite Hs, Hp, elem_of_app. right. by apply list_elem_of_fmap_2.
Qed.

Lemma findProvision_absent scs stores ps :
  findProvision scs stores ps = Absent →
  ∀ s sc, s ∈ stores → scs !! s = Some sc → getValueProviders sc (ps_Name ps) (ps_Type ps) = [].
Proof.
  induction stores as [|s0 stores IH]; simpl; [by intros _ s sc ?%elem_of_nil|].
  intros H s sc [->|Hs]%elem_of_cons Hsc.
  - rewrite Hsc in H. destruct (getValue sc _ _); [done|]. by destruct (getValueProviders sc _ _).
  - destruct (scs !! s0) as [sc0|]; [|by eapply IH]. destruct (getValue sc0 _ _); [done|].
    destruct (getValueProviders sc0 _ _); [by eapply IH|done].
Qed.

(** What is not found in the scopes up to the root has no provider there. *)
Lemma findProvision_unprovided scs c ps :
  findProvision scs (ancestors scs c) ps = Absent →
  getAllValueProviders scs c (ps_Name ps) (ps_Type ps) = [].
Proof.
  intros Hf. apply concat_nil_Forall, Forall_fmap, Forall_forall. intros s Hs. simpl.
  destruct (scs !! s) as [sc|] eqn:Hsc; [|done]. by eapply findProvision_absent.
Qed.

(** ** Shuffling a value group *)

(** Scopes that differ in how often their random source was used. *)
Definition rand_eq (x y : Scope) : Prop :=
  set_rand (λ _, mkRand 0 0) y = set_rand (λ _, mkRand 0 0) x.

#[export] Instance rand_eq_preorder : PreOrder rand_eq.
Proof. split; [done|]. intros x y z ? ?. unfold rand_eq in *. congruence. Qed.
#[export] Hint Resolve rand_eq_preorder : dig.

Lemma rand_eq_skel x y : rand_eq x y → skel_eq x y.
Proof. destruct x, y. intros [=]; subst. done. Qed.

Lemma runs_getValueGroup `{E : Env} F name t sc : runs rand_eq F (getValueGroup name t) sc.
Proof.
  unfold getValueGroup, shuffledCopy. run_step; [auto with dig|].
  run_step; [auto with dig|]. run_step; [apply runs_modifyS; by destruct s0|].
  apply (runs_forMap rand_eq F (λ _, True)); auto with dig.
Qed.

Lemma runs_zoomGroup `{E : Env} D F s name t st :
  runs (eff D) F (zoomScope s (getValueGroup name t)) st.
Proof.
  apply runs_zoomScope. intros.
  apply (runs_sub _ _ rand_eq); [exact rand_eq_skel|apply runs_getValueGroup].
Qed.

(** ** Building parameters, given what the nested calls do *)

(** The nested calls move the store along [Q] and may only reach nodes of [D]; the
    parameters depend on nodes of [A], which are in [D] or are decorators that are
    being run; [P] holds of every state in between. *)
Section build.
Context `{E : Env} (R : callees) (K : store) (D A : node → Prop) (P : store → Prop).
Context (Q : store → store → Prop) `{!PreOrder Q} (F : Prop).
Context (Q_group : ∀ s name t st, runs Q F (zoomScope s (getValueGroup name t)) st).
Context (P_stable : ∀ s s', P s → Q s s' → P s').
Context (P_skel : ∀ s, P s → skeleton s = skeleton K).
Context (P_allowed : ∀ s y, P s → A y →
           D y ∨ ∃ d, y = inr d ∧ dstate s d = Some decoratorOnStack).
Context (HC : ∀ st n cn, P st → D (inl n) → st_ctors st !! n = Some cn →
                         runs Q F (callC R n (cn_origS cn)) st).
Context (HD : ∀ st d s, P st → D (inr d) → dstate st d ≠ Some decoratorOnStack →
                        runs Q F (callD R d s) st).

Let allowed_ctor s n : P s → A (inl n) → D (inl n).
Proof. intros HP HA. destruct (P_allowed s _ HP HA) as [|(? & ? & ?)]; done. Qed.

Let allowed_dcor s d : P s → A (inr d) → dstate s d ≠ Some decoratorOnStack → D (inr d).
Proof. intros HP HA Hd. destruct (P_allowed s _ HP HA) as [|(? & [= <-] & ?)]; done. Qed.

Let key_allowed s c st k soft y :
  P st → (∀ y, y ∈ concat (map (key_deps (st_scopes K) k soft)
                               (ancestors (st_scopes K) c)) → A y) →
  s ∈ ancestors (st_scopes st) c → y ∈ key_deps (st_scopes st) k soft s → A y.
Proof.
  intros HP HA Hs Hy. apply HA, elem_of_concat_map. exists s.
  pose proof (f_equal st_scopes (P_skel _ HP)) as Hk. simpl in Hk.
  rewrite <- ancestors_skel, <- key_deps_skel, <- Hk, ancestors_skel, key_deps_skel.
  done.
Qed.

Let runs_callC st n cn :
  P st → A (inl n) → st_ctors st !! n = Some cn →
  runs Q F (callC R n (cn_origS cn)) st.
Proof. eauto. Qed.

Lemma runs_callProviders ps ns st :
  P st → (∀ n, n ∈ ns → A (inl n)) → runs Q F (callProviders R ps ns) st.
Proof.
  revert st; induction ns as [|n ns IH]; intros st HP Hns; simpl; [auto with dig|].
  read. run_step; [apply runs_tryErr, runs_callC; auto; apply Hns; set_solver|].
  destruct a0 as [u|err]; [|break; auto with dig].
  apply IH; [by eapply P_stable|]. intros. apply Hns. set_solver.
Qed.

Lemma runs_buildWithDecorators ps c st :
  P st → (∀ y, y ∈ param_deps K c (PSingle ps) → A y) →
  runs Q F (buildWithDecorators R ps c) st.
Proof.
  intros HP HA. unfold buildWithDecorators. do 2 read.
  destruct (findDecorator _ _ _) as [[d ds]|] eqn:Hf; [|auto with dig].
  apply findDecorator_Some in Hf as (Hs & Hd & Hk).
  run_step; [apply runs_wrapErr, HD; eauto|]. run_step; auto with dig.
Qed.

Lemma runs_paramSingle ps c st :
  P st → (∀ y, y ∈ param_deps K c (PSingle ps) → A y) →
  runs Q F (paramSingle_Build R ps c) st.
Proof.
  intros HP HA. unfold paramSingle_Build.
  run_step; [by apply runs_buildWithDecorators|]. destruct a as [v|]; [auto with dig|].
  assert (P s) as HPs by (by eapply P_stable). do 2 read.
  destruct (firstDecorated _ _ _); [auto with dig|].
  destruct (findProvision _ _ _) as [v|s' ns|] eqn:Hf; [auto with dig| |].
  - apply findProvision_Provided in Hf as [Hs' Hns].
    run_step; [apply runs_callProviders; eauto|].
    destruct a; [auto with dig|]. run_step; auto with dig.
  - destruct (ps_Optional ps); [auto with dig|]. run_step; auto with dig.
Qed.

Let ancestors_P s s' c : P s → P s' → ancestors (st_scopes s) c = ancestors (st_scopes s') c.
Proof.
  intros HP HP'. rewrite <- (ancestors_skel (st_scopes s)), <- (ancestors_skel (st_scopes s')).
  change (ancestors (st_scopes (skeleton s)) c = ancestors (st_scopes (skeleton s')) c).
  by rewrite (P_skel _ HP), (P_skel _ HP').
Qed.

Let group_allowed pt el c y soft :
  Elem (pt_Type pt) = Some el → (pt_Soft pt = true → soft = true) →
  (∀ y, y ∈ param_deps K c (PGrouped pt) → A y) →
  y ∈ concat (map (key_deps (st_scopes K) (groupKey (pt_Group pt) el) soft)
                  (ancestors (st_scopes K) c)) → A y.
Proof.
  intros Hel Hsoft HA Hy. apply HA. simpl. rewrite Hel.
  apply elem_of_concat_map in Hy as (s & Hs & Hy). apply elem_of_concat_map.
  exists s. split; [done|]. revert Hy. unfold key_deps.
  destruct (st_scopes K !! s); [|done]. rewrite !elem_of_app. intros [|Hy]; [by left|right].
  destruct soft; [set_solver|]. destruct (pt_Soft pt); [naive_solver|done].
Qed.

Lemma runs_callGroupDecorators pt c st :
  P st → (∀ y, y ∈ param_deps K c (PGrouped pt) → A y) →
  runs Q F (callGroupDecorators R pt c) st.
Proof.
  intros HP HA. unfold callGroupDecorators. do 2 read.
  rename a into el, Hrun into Hel.
  apply (runs_forEach Q F P); [done..|]. intros ds s1 Hds HP1.
  rewrite elem_of_reverse, (ancestors_P _ s1) in Hds by done. read.
  destruct (getGroupDecorator _ _ _) as [d|] eqn:Hd; [|auto with dig]. read.
  destruct (decide _) as [|Hstate]; [auto with dig|]. apply runs_wrapErr.
  assert (dstate s1 d ≠ Some decoratorOnStack) as Hd'.
  { unfold dstate. rewrite Hrun0. simpl. congruence. }
  apply HD; [done| |done]. eapply allowed_dcor; [done| |done].
  eapply (key_allowed ds c s1 (groupKey (pt_Group pt) el) true); [done| |done|].
  - intros y. by eapply group_allowed.
  - unfold key_deps. rewrite Hrun. unfold getGroupDecorator, getDecorators in Hd.
    rewrite Hd. set_solver.
Qed.

Lemma runs_callGroupProviders pt c st :
  P st → pt_Soft pt = false → (∀ y, y ∈ param_deps K c (PGrouped pt) → A y) →
  runs Q F (callGroupProviders R pt c) st.
Proof.
  intros HP Hsoft HA. unfold callGroupProviders. do 2 read.
  rename a into el, Hrun into Hel. run_step; [|auto with dig].
  apply (runs_forMap Q F P); [done..|]. intros ds s1 Hds HP1. read.
  run_step; [|auto with dig].
  apply (runs_forEach Q F P); [done..|]. intros n s2 Hn HP2.
  read. apply runs_wrapErr, runs_callC; [done| |done].
  rewrite (ancestors_P _ s1) in Hds by done.
  eapply (key_allowed ds c s1 (groupKey (pt_Group pt) el) false); [done| |done|].
  - intros y. eapply group_allowed; [done| |done]. congruence.
  - unfold key_deps. rewrite Hrun, elem_of_app. right. by apply list_elem_of_fmap_2.
Qed.

Lemma runs_paramGrouped pt c st :
  P st → (∀ y, y ∈ param_deps K c (PGrouped pt) → A y) →
  runs Q F (paramGroupedSlice_Build R pt c) st.
Proof.
  intros HP HA. unfold paramGroupedSlice_Build.
  run_step; [by apply runs_callGroupDecorators|].
  assert (P s) as HPs by (by eapply P_stable). do 2 read.
  destruct (firstDecoratedGroup _ _ _); [auto with dig|]. run_step.
  - destruct (pt_Soft pt) eqn:Hsoft; [auto with dig|]. by apply runs_callGroupProviders.
  - do 2 read. run_step; [|auto with dig].
    apply (runs_forMap Q F (λ _, True)); try done.
    intros. run_step; [apply Q_group|].
    run_step; auto with dig.
Qed.

Lemma runs_buildFields fields dest st :
  P st → (∀ f b st, (f, b) ∈ fields → P st → runs Q F b st) →
  runs Q F (buildFields dest fields) st.
Proof.
  revert dest st; induction fields as [|[f b] fields IH]; intros dest st HP H; simpl;
    [auto with dig|].
  run_step; [apply (H f); [set_solver|done]|]. run_step; [auto with dig|].
  apply IH.
  - eapply P_stable; [|done]. by eapply P_stable.
  - intros f' b' st' Hf. apply (H f'). set_solver.
Qed.

Lemma runs_param p c st :
  P st → (∀ y, y ∈ param_deps K c p → A y) → runs Q F (param_Build R p c) st.
Proof.
  revert st; induction p as [ps|pt|t fs IH] using param_ind'; intros st HP HA;
    [by apply runs_paramSingle|by apply runs_paramGrouped|].
  simpl. apply runs_buildFields; [done|]. intros f b st' Hin HP'.
  assert ((f, b) ∈ map (λ f, (f, param_Build R (pof_Param f) c)) fs) as Hf.
  { apply elem_of_app in Hin as [Hin|Hin]; by apply list_elem_of_filter in Hin as [_ Hin]. }
  apply list_elem_of_fmap in Hf as (f' & [= -> ->] & Hf').
  rewrite Forall_forall in IH. apply IH; [done..|].
  intros y Hy. apply HA. simpl. apply elem_of_concat_map. by exists f'.
Qed.

Lemma runs_BuildList pl c st :
  P st → (∀ y, y ∈ list_deps K c pl → A y) → runs Q F (BuildList R pl c) st.
Proof.
  intros HP HA. apply (runs_forMap Q F P); [done..|].
  intros p s Hp HPs. apply runs_param; [done|].
  intros y Hy. apply HA. apply elem_of_concat_map. by exists p.
Qed.
End build.

(** ** One constructor *)

Section constructor.
Context `{E : Env}.

(** Committing to a scope always ends well. *)
Lemma CommitIn_Scope vs gs (sc : Scope) : ∃ sc', CommitIn vs gs sc = (Ret (), sc').
Proof.
  unfold CommitIn.
  pose proof (forEach_total (S := Scope) vs (λ kv, setValue (k_name kv.1) (k_t kv.1) kv.2)) as Hv.
  pose proof (forEach_total (S := Scope) gs (λ kvs, forEach kvs.2
                (λ v, submitGroupedValue (k_group kvs.1) (k_t kvs.1) v))) as Hg.
  destruct (Hv ltac:(intros; by eexists) sc) as [sc1 H1].
  destruct (Hg ltac:(intros; apply forEach_total; intros; by eexists) sc1) as [sc2 H2].
  exists sc2. apply bind_Ret. eauto.
Qed.

(** The end of a call: [st1] is [st] after the events [evs]. *)
Lemma storeResults_eff (D : node → Prop) st st1 n cn results evs :
  D (inl n) → cn_s cn < length (st_scopes st) →
  st1 = upd_trace (λ tr, tr ++ evs) st → Forall (event_ok D st) evs →
  (∀ st' (b : bool),
     st_ctors st' = (if b then alter set_called n (st_ctors st) else st_ctors st) →
     st_trace st' = st_trace st ++ evs →
     (b = false →
      (ExtractList (cn_resultList cn) false results newStagingContainerWriter).1 ≠ Ret ()) →
     once st → once st') →
  (storeResults n cn results st1).1 ≠ NoFuel ∧ eff D st (storeResults n cn results st1).2.
Proof.
  intros HD Hs -> Hev Honce. unfold storeResults.
  destruct (ExtractList_runs anything (cn_resultList cn) false results
              newStagingContainerWriter) as [Hfuel _].
  destruct (ExtractList _ _ _ _) as [[[]|e|p|] receiver]; simpl in *; [| | |naive_solver].
  - apply lookup_lt_is_Some in Hs as [sc Hsc]. unfold mbind, SM_bind, zoomScope. simpl.
    rewrite Hsc. unfold Commit.
    destruct (CommitIn_Scope (map_to_list (sw_values receiver))
                             (map_to_list (sw_groups receiver)) sc) as [sc' Hc].
    pose proof (CommitIn_runs skel_eq (map_to_list (sw_values receiver))
                  (map_to_list (sw_groups receiver)) sc) as [_ [Hskel _]].
    rewrite Hc in *. simpl in *. split; [done|].
    apply (eff_ctor D st _ n true evs); try done; [|by apply (Honce _ true)].
    simpl. rewrite list_fmap_insert, Hskel, <- list_fmap_insert.
    by rewrite list_insert_id.
  - split; [done|]. apply (eff_ctor D st _ n false evs); try done. by apply (Honce _ false).
  - split; [done|]. apply (eff_ctor D st _ n false evs); try done. by apply (Honce _ false).
Qed.

Lemma runs_constructorBody (D : node → Prop) n cn cn' c args st :
  D (inl n) → called st n = false → st_ctors st !! n = Some cn' →
  cn_resultList cn' = cn_resultList cn → cn_s cn < length (st_scopes st) →
  runs (eff D) False (constructorBody n cn c args) st.
Proof.
  intros HD Hfresh Hn Hrl Hs. unfold constructorBody. read.
  destruct (sc_invokerFn a); simpl.
  - unfold defaultInvoker.
    pose proof (checkCall_ends (cn_ctor cn) args) as Hends. unfold runs, mbind, SM_bind, liftO.
    destruct (checkCall (cn_ctor cn) args) as [[]|e|p|]; simpl; [|by split..|done].
    assert (Forall (event_ok D st) [EvCall (ByCtor n) (cn_ctor cn) args]) as Hev
      by (by repeat constructor).
    destruct (env_call _ _ _) as [vs|p] eqn:Hcall; simpl.
    + apply (storeResults_eff D st _ n cn vs [EvCall (ByCtor n) (cn_ctor cn) args]);
        try done. intros st' b Hc Ht Hb. eapply once_call; try done.
      intros Hb' (vs' & Hcall' & Hex). rewrite Hrl in Hex. rewrite Hcall in Hcall'. injection Hcall' as <-. by apply Hb in Hex.
    + split; [done|]. eapply (eff_ctor D st _ n false); try done.
      eapply (once_call _ _ n cn' _ _ false); try done.
      intros _ (vs' & Hcall' & Hex). congruence.
  - unfold dryInvoker. run_step; [run_step; [auto with dig|]|].
    { destruct a0 as [[ins outs] var]. auto with dig. }
    assert (s = st) as ->.
    { revert Hrun0. unfold mbind, SM_bind. simpl.
      destruct (FuncSig _) as [[[??]?]|]; intros H; by inversion H. }
    apply (storeResults_eff D st st n cn a0 []); try done.
    + destruct st; unfold upd_trace; simpl. by rewrite app_nil_r.
    + intros st' b Hc Ht _. rewrite app_nil_r in Ht. destruct b; [by eapply once_mark|].
      unfold once, called. by rewrite Hc, Ht.
Qed.
End constructor.

(** ** The recursion *)

(** The scope of every constructor exists. *)
Definition homes_ok (st : store) : Prop :=
  ∀ n cn, st_ctors st !! n = Some cn → cn_s cn < length (st_scopes st).

Section knot.
Context `{E : Env}.

Lemma ctor_same st K n cn :
  skeleton st = skeleton K → st_ctors st !! n = Some cn →
  ∃ ck, st_ctors K !! n = Some ck ∧ skel_ctor ck = skel_ctor cn.
Proof.
  intros Hk Hn. apply (f_equal (λ s, st_ctors s !! n)) in Hk. simpl in Hk.
  rewrite !list_lookup_fmap, Hn in Hk. destruct (st_ctors K !! n) as [ck|]; [|done].
  apply (inj Some) in Hk. by exists ck.
Qed.

Lemma dcor_same st K d dn :
  skeleton st = skeleton K → st_dcors st !! d = Some dn →
  ∃ dk, st_dcors K !! d = Some dk ∧ skel_dcor dk = skel_dcor dn.
Proof.
  intros Hk Hd. apply (f_equal (λ s, st_dcors s !! d)) in Hk. simpl in Hk.
  rewrite !list_lookup_fmap, Hd in Hk. destruct (st_dcors K !! d) as [dk|]; [|done].
  apply (inj Some) in Hk. by exists dk.
Qed.

Lemma scopes_length st K : skeleton st = skeleton K → length (st_scopes st) = length (st_scopes K).
Proof.
  intros Hk. apply (f_equal (λ s, length (st_scopes s))) in Hk. simpl in Hk.
  by rewrite !length_fmap in Hk.
Qed.

Lemma eff_log_free D ev st :
  (∀ who fn args, ev ≠ EvCall who fn args) → eff D st (upd_trace (λ tr, tr ++ [ev]) st).
Proof. intros Hev. apply eff_log; destruct ev; naive_solver. Qed.

Section step.
Context (R : callees) (K : store) (x : node).
(** What the recursion guarantees of the nodes below [x]. *)
Context (HC : ∀ st n cn, skeleton st = skeleton K → below K x (inl n) →
           st_ctors st !! n = Some cn →
           runs (eff (below K x)) False (callC R n (cn_origS cn)) st).
Context (HD : ∀ st d s, skeleton st = skeleton K → below K x (inr d) →
           dstate st d ≠ Some decoratorOnStack →
           runs (eff (below K x)) False (callD R d s) st).
Context (Hhomes : homes_ok K) (Hirrefl : ¬ below K x x).

Let below_eff st st' : eff (below K x) st st' → eff (reach K x) st st'.
Proof. apply eff_weaken. intros y (z & Hz & Hr). by eapply reach_step. Qed.

Lemma runs_ctor_step n cn st :
  x = inl n → skeleton st = skeleton K → st_ctors st !! n = Some cn →
  runs (eff (reach K x)) False (constructorNode_Call R n (cn_origS cn)) st.
Proof.
  intros -> Hk Hn. unfold constructorNode_Call. read.
  rewrite Hn in Hrun. injection Hrun as <-.
  destruct (cn_called cn) eqn:Hcalled; [auto with dig|].
  destruct (ctor_same _ _ _ _ Hk Hn) as (ck & Hck & Hsame).
  assert (called st n = false) as Hfresh by (unfold called; by rewrite Hn).
  apply (runs_bind_sub _ _ (eff (below K (inl n)))); [done|apply runs_wrapErr; auto with dig|].
  intros _ s1 _ H1.
  apply (runs_bind_sub _ _ (eff (below K (inl n)))); [done| |].
  { apply runs_wrapErr, (runs_BuildList R K (below K (inl n)) (below K (inl n))
      (λ s, skeleton s = skeleton K) (eff (below K (inl n))));
      auto using runs_zoomGroup, eff_preorder.
    - intros s s' Hs He. by rewrite (eff_skel _ _ _ He).
    - by rewrite (eff_skel _ _ _ H1).
    - intros y Hy. exists y. split; [|constructor]. simpl. rewrite Hck.
      by injection Hsame as _ _ _ -> _ _ _ -> _ _. }
  intros args s2 _ H2.
  apply (runs_bind_sub _ _ (eff (below K (inl n)))); [done| |].
  { apply runs_callBefore; [apply _|]. intros. by apply eff_log_free. }
  intros _ s3 _ H3.
  assert (eff (below K (inl n)) st s3) as Heff by (by do 2 (etransitivity; [eassumption|])).
  clear H1 H2 H3. read.
  apply runs_deferCallback; [apply _|intros; by apply eff_log_free|].
  apply runs_deferRecover; [apply _|].
  assert (skeleton s3 = skeleton K) as Hk3 by (by rewrite (eff_skel _ _ _ Heff)).
  destruct (ctor_same K s3 n ck (eq_sym Hk3) Hck) as (cn3 & Hcn3 & Hsame3).
  apply (runs_constructorBody _ n cn cn3); [constructor| |done| |].
  - rewrite (eff_called_frame _ _ _ Heff); done.
  - by apply (f_equal cn_resultList (x := skel_ctor cn3) (y := skel_ctor cn)); congruence.
  - rewrite (scopes_length _ _ Hk3).
    replace (cn_s cn) with (cn_s ck) by (by injection Hsame). by eapply Hhomes.
Qed.

(** The arguments of a decorator that is on the stack. *)
Lemma runs_dcor_args d dn st s1 :
  x = inr d → skeleton st = skeleton K → st_dcors st !! d = Some dn →
  skeleton s1 = skeleton K → dstate s1 d = Some decoratorOnStack →
  runs (eff (below K (inr d))) False (BuildList R (dn_params dn) (dn_s dn)) s1.
Proof.
  intros -> Hk Hdn Hk1 Hon.
  set (P := λ s, skeleton s = skeleton K ∧ dstate s d = Some decoratorOnStack).
  assert (∀ s s', P s → eff (below K (inr d)) s s' → P s') as P_stable.
  { intros s2 s3 [HP1 HP2] He.
    split; [by rewrite (eff_skel _ _ _ He)|by apply (eff_onstack _ _ _ He)]. }
  destruct (dcor_same _ _ _ _ Hk Hdn) as (dk & Hdk & Hsame).
  apply (runs_BuildList R K (below K (inr d)) (λ y, below K (inr d) y ∨ y = inr d) P
           (eff (below K (inr d)))); auto using runs_zoomGroup, eff_preorder.
  - intros s2 HP2. apply HP2.
  - intros s2 y [_ HP2] [Hy| ->]; [by left|right]. by exists d.
  - intros s2 n cn [HP2 _]. by apply HC.
  - intros s2 e s3 [HP2 _]. by apply HD.
  - by split.
  - intros y Hy. destruct (decide (y = inr d)) as [->|Hne]; [by right|left].
    exists y. split; [|constructor]. simpl. rewrite Hdk.
    injection Hsame as _ _ _ -> _ -> _ _. by apply list_elem_of_filter.
Qed.

(** The state of the decorator changes twice, so effects are followed from the
    state [st] where it was ready. *)
Lemma runs_dcor_step d s st :
  x = inr d → skeleton st = skeleton K → dstate st d ≠ Some decoratorOnStack →
  runs (eff (reach K x)) False (decoratorNode_Call R d s) st.
Proof.
  pose proof runs_dcor_args as Hargs. intros -> Hk Hd. set (D := reach K (inr d)).
  pose (Q := λ a b, eff D st a → eff D st b).
  assert (PreOrder Q) as HQ by (split; unfold Q; [by intros ?|intros ?; auto]).
  assert (∀ a b, eff D a b → Q a b) as HQeff by (intros a b He Ha; by etransitivity).
  assert (∀ a b, eff (below K (inr d)) a b → Q a b) as HQbelow by auto.
  assert (D (inr d)) as HDd by constructor.
  assert (∀ ev st, (∀ who fn args, ev ≠ EvCall who fn args) →
                   Q st (upd_trace (λ tr, tr ++ [ev]) st)) as HQlog.
  { intros. by apply HQeff, eff_log_free. }
  cut (runs Q False (decoratorNode_Call R d s) st).
  { intros [H1 H2]. split; [done|]. by apply H2. }
  unfold decoratorNode_Call. read. rename a into dn, Hrun into Hdn. clear HR.
  assert (dstate st d = Some (dn_state dn)) as Hst by (unfold dstate; by rewrite Hdn).
  destruct (decide _) as [|Hnc]; [auto with dig|].
  assert (dstate st d = Some decoratorReady) as Hready by (destruct (dn_state dn); congruence).
  assert (∀ q a, Q a (upd_dcors (alter (set_state q) d) a)) as HQset.
  { intros q a Ha. by apply eff_set_state. }
  run_step; [by apply runs_modifyS|]. injection Hrun as <- <-. clear HR.
  set (st0 := upd_dcors (alter (set_state decoratorOnStack) d) st).
  assert (skeleton st0 = skeleton K ∧ dstate st0 d = Some decoratorOnStack) as [Hk0 Hon0].
  { split; [|by unfold st0; rewrite dstate_alter, decide_True, Hst by done].
    rewrite <- Hk. by apply (eff_skel D), eff_set_state. }
  apply (runs_bind_sub _ _ (eff (below K (inr d)))); [done|apply runs_wrapErr; auto with dig|].
  intros _ s1 _ H1. run_step.
  { apply runs_wrapErr, (runs_sub _ _ (eff (below K (inr d)))); [done|].
    apply (Hargs d dn st s1); try done; [by rewrite (eff_skel _ _ _ H1)|].
    by apply (eff_onstack _ _ _ H1). }
  run_step; [by apply runs_callBefore|]. run_step; [auto with dig|].
  apply runs_deferCallback; [done..|]. apply runs_deferRecover; [done|].
  unfold decoratorBody. run_step; [auto with dig|].
  run_step; [apply runs_invoke_with; [done|]; intros s' Hs'; by apply eff_log_dcor|].
  run_step; [|by apply runs_modifyS].
  apply (runs_sub _ _ (eff D)); [done|]. apply runs_zoomScope.
  intros. apply (ExtractList_runs skel_eq).
Qed.
End step.

(** With a bound on the chains of dependencies below a node, calling it ends,
    and only calls what it depends on. *)
Lemma knot_runs K h fuel :
  homes_ok K → h <= fuel →
  (∀ st n cn, dep_depth h K (inl n) = true → skeleton st = skeleton K →
              st_ctors st !! n = Some cn →
              runs (eff (reach K (inl n))) False (callC (knot fuel) n (cn_origS cn)) st) ∧
  (∀ st d s, dep_depth h K (inr d) = true → skeleton st = skeleton K →
             dstate st d ≠ Some decoratorOnStack →
             runs (eff (reach K (inr d))) False (callD (knot fuel) d s) st).
Proof.
  intros Hhomes. revert fuel; induction h as [|h IH]; intros fuel Hle; [by split|].
  destruct fuel as [|fuel]; [lia|]. destruct (IH fuel) as [IHC IHD]; [lia|]. clear IH.
  assert (∀ x y, dep_depth (S h) K x = true → below K x y →
                 dep_depth h K y = true ∧ ∀ z, reach K y z → below K x z) as Hbelow.
  { intros x y Hx (z & Hz & Hr). simpl in Hx. rewrite forallb_forall in Hx. split.
    - eapply reach_depth; [|done]. by apply Hx, list_elem_of_In.
    - intros w Hw. exists z. split; [done|]. by eapply reach_trans. }
  split.
  - intros st n cn Hdep Hk Hn. apply runs_ctor_step; try done.
    + intros st' m cm Hk' Hm Hcm. destruct (Hbelow _ _ Hdep Hm) as [Hm1 Hm2].
      apply (runs_weaken (reach K (inl m))); auto.
    + intros st' d s Hk' Hd Hst. destruct (Hbelow _ _ Hdep Hd) as [Hd1 Hd2].
      apply (runs_weaken (reach K (inr d))); auto.
    + by eapply below_irrefl.
  - intros st d s Hdep Hk Hst. apply runs_dcor_step; try done.
    + intros st' m cm Hk' Hm Hcm. destruct (Hbelow _ _ Hdep Hm) as [Hm1 Hm2].
      apply (runs_weaken (reach K (inl m))); auto.
    + intros st' e s' Hk' He Hst'. destruct (Hbelow _ _ Hdep He) as [He1 He2].
      apply (runs_weaken (reach K (inr e))); auto.
    + by eapply below_irrefl.
Qed.

(** The nodes a list of parameters may call. *)
Definition list_reach (K : store) (c : nat) (pl : paramList) (z : node) : Prop :=
  ∃ y, y ∈ list_deps K c pl ∧ reach K y z.

Lemma BuildList_runs K h fuel pl c st :
  homes_ok K → h <= fuel → skeleton st = skeleton K →
  (∀ y, y ∈ list_deps K c pl → dep_depth h K y = true) →
  runs (eff (list_reach K c pl)) False (BuildList (knot fuel) pl c) st.
Proof.
  intros Hhomes Hle Hk Hdep. destruct (knot_runs K h fuel Hhomes Hle) as [HC HD].
  assert (∀ y, list_reach K c pl y →
               dep_depth h K y = true ∧ ∀ z, reach K y z → list_reach K c pl z) as Hreach.
  { intros y (z & Hz & Hr). split; [eapply reach_depth; [by apply Hdep|done]|].
    intros w Hw. exists z. split; [done|]. by eapply reach_trans. }
  apply (runs_BuildList _ K (list_reach K c pl) (list_reach K c pl) (λ s, skeleton s = skeleton K)
           (eff (list_reach K c pl))); auto using runs_zoomGroup, eff_preorder.
  - intros s s' Hs He. by rewrite (eff_skel _ _ _ He).
  - intros s n cn Hs Hn Hcn. destruct (Hreach _ Hn). apply (runs_weaken (reach K (inl n))); auto.
  - intros s d ds Hs Hd Hst. destruct (Hreach _ Hd). apply (runs_weaken (reach K (inr d))); auto.
  - intros y Hy. exists y. split; [done|constructor].
Qed.
End knot.

(** ** What holds without a bound on the dependencies *)

(** Whatever happens, building leaves the registrations alone, forgets no call and
    only adds to the trace. *)
Record built (a b : store) : Prop := {
  built_skel : skeleton b = skeleton a;
  built_called : ∀ n, called a n = true → called b n = true;
  built_trace : ∃ new, st_trace b = st_trace a ++ new
}.

#[export] Instance built_preorder : PreOrder built.
Proof.
  split.
  - intros a. split; [done|done|]. exists []. by rewrite app_nil_r.
  - intros a b c [H1 H2 [n1 H3]] [H4 H5 [n2 H6]]. split; [congruence|auto|].
    exists (n1 ++ n2). by rewrite H6, H3, app_assoc.
Qed.
#[export] Hint Resolve built_preorder : dig.

Section frame.
Context `{E : Env}.

(** A relation that the single effects of building move along. *)
Class building (Q : store → store → Prop) : Prop := {
  building_preorder :: PreOrder Q;
  building_skel : ∀ a b, Q a b → skeleton b = skeleton a;
  building_log : ∀ ev st, Q st (upd_trace (λ tr, tr ++ [ev]) st);
  building_modCtor : ∀ n st, Q st (upd_ctors (alter set_called n) st);
  building_modDcor : ∀ d q st, q ≠ decoratorReady → Q st (upd_dcors (alter (set_state q) d) st);
  building_zoom : ∀ F X s (m : SM Scope X) st,
    (∀ sc, runs skel_eq F m sc) → runs Q F (zoomScope s m) st
}.

Hint Resolve building_preorder : dig.

(** The same, for what happens outside of the calls of decorators themselves. *)
Definition dcor_event (ev : event) : bool :=
  match ev with EvCall (ByDcor _) _ _ => true | _ => false end.

Class building_base (Q : store → store → Prop) : Prop := {
  base_preorder :: PreOrder Q;
  base_log : ∀ ev st, dcor_event ev = false → Q st (upd_trace (λ tr, tr ++ [ev]) st);
  base_modCtor : ∀ n st, Q st (upd_ctors (alter set_called n) st);
  base_zoom : ∀ F X s (m : SM Scope X) st,
    (∀ sc, runs skel_eq F m sc) → runs Q F (zoomScope s m) st
}.

Hint Resolve base_preorder : dig.

#[export] Instance building_is_base Q : building Q → building_base Q.
Proof. intros H. split; [apply _|intros; apply building_log|apply building_modCtor|apply building_zoom]. Qed.

Lemma eff_built D a b : eff D a b → built a b.
Proof. intros He. destruct (eff_trace _ _ _ He) as (new & ? & _). split; [apply He..|eauto]. Qed.

#[export] Instance built_building : building built.
Proof.
  split; [apply _|by intros ?? []|..].
  - intros ev st. split; [done|done|]. by exists [ev].
  - intros n st. split.
    + unfold skeleton. simpl. by rewrite (fmap_alter_same skel_ctor set_called).
    + intros m Hm. rewrite (called_alter st (upd_ctors (alter set_called n) st) n m eq_refl).
      case_decide; [|done]. apply bool_decide_eq_true. by apply called_lt.
    + exists []. by rewrite app_nil_r.
  - intros d q st _. split; [|done|exists []; by rewrite app_nil_r].
    unfold skeleton. simpl. by rewrite (fmap_alter_same skel_dcor (set_state q)).
  - intros F X s m st Hm. apply (runs_sub _ _ (eff (λ _, True))); [intros; by eapply eff_built|].
    by apply runs_zoomScope.
Qed.

Lemma skel_eq_any {A} F (m : SM Scope A) sc : runs skel_eq False m sc → runs skel_eq F m sc.
Proof. intros [H1 H2]. split; [by intros ?%H1|done]. Qed.

(** Calls, given how the arguments are built. *)
Section ctor_calls.
Context (Q : store → store → Prop) `{HQ : !building_base Q} (R : callees) (F : Prop).

Lemma calls_constructorBody n cn c args st : runs Q F (constructorBody n cn c args) st.
Proof.
  unfold constructorBody. run_step; [auto with dig|].
  run_step; [apply runs_invoke_with; [apply _|]; intros; by apply base_log|]. unfold storeResults.
  destruct (ExtractList_runs anything (cn_resultList cn) false a0 newStagingContainerWriter) as [Hends _].
  destruct (ExtractList _ _ _ _) as [[u|e|p|] sr]; auto with dig; try (by apply runs_liftO; [apply _|]).
  run_step; [apply base_zoom; intros; apply skel_eq_any, (CommitIn_runs skel_eq)|].
  apply runs_modifyS, base_modCtor.
Qed.

Lemma calls_Call n c st :
  (∀ cn s, st_ctors st !! n = Some cn → Q st s → runs Q F (BuildList R (cn_paramList cn) c) s) →
  runs Q F (constructorNode_Call R n c) st.
Proof.
  intros Hargs. unfold constructorNode_Call. read. rename Hrun into Hn.
  destruct (cn_called a); [auto with dig|].
  run_step; [apply runs_wrapErr; auto with dig|].
  run_step; [apply runs_wrapErr; by apply Hargs|].
  run_step; [apply runs_callBefore; [apply _|intros; apply base_log; by destruct ev; naive_solver]|].
  run_step; [auto with dig|].
  apply runs_deferCallback; [apply _|intros; apply base_log; by destruct ev; naive_solver|].
  apply runs_deferRecover; [apply _|]. apply calls_constructorBody.
Qed.

Lemma base_group s name t st : runs Q F (zoomScope s (getValueGroup name t)) st.
Proof.
  apply base_zoom. intros.
  apply (runs_sub _ _ rand_eq); [exact rand_eq_skel|apply runs_getValueGroup].
Qed.
End ctor_calls.

Section calls.
Context (Q : store → store → Prop) `{HQ : !building Q} (R : callees) (F : Prop).

Lemma calls_decoratorBody d dn s args st : runs Q F (decoratorBody d dn s args) st.
Proof.
  unfold decoratorBody. run_step; [auto with dig|].
  run_step; [apply runs_invoke_with; [apply _|]; intros; apply building_log|].
  run_step; [apply building_zoom; intros; apply skel_eq_any, (ExtractList_runs skel_eq)|].
  by apply runs_modifyS, building_modDcor.
Qed.

Lemma calls_CallD d s st :
  (∀ dn s1, st_dcors st !! d = Some dn → dn_state dn ≠ decoratorCalled →
     Q (upd_dcors (alter (set_state decoratorOnStack) d) st) s1 →
     runs Q F (BuildList R (dn_params dn) (dn_s dn)) s1) →
  runs Q F (decoratorNode_Call R d s) st.
Proof.
  intros Hargs. unfold decoratorNode_Call. read. rename Hrun into Hd. case_decide; [auto with dig|].
  run_step; [by apply runs_modifyS, building_modDcor|]. injection Hrun as _ <-.
  run_step; [apply runs_wrapErr; auto with dig|].
  run_step; [apply runs_wrapErr; by apply Hargs|].
  run_step; [apply runs_callBefore; [apply _|intros; apply building_log]|].
  run_step; [auto with dig|].
  apply runs_deferCallback; [apply _|intros; apply building_log|].
  apply runs_deferRecover; [apply _|]. apply calls_decoratorBody.
Qed.
End calls.

Section step.
Context (Q : store → store → Prop) `{HQ : !building Q} (R : callees).

Lemma building_group F s name t st : runs Q F (zoomScope s (getValueGroup name t)) st.
Proof. apply base_group. apply _. Qed.

Context (HC : ∀ st n c, runs Q True (callC R n c) st).
Context (HD : ∀ st d s, runs Q True (callD R d s) st).

Lemma built_BuildList pl c st : runs Q True (BuildList R pl c) st.
Proof.
  apply (runs_BuildList R st (λ _, True) (λ _, True) (λ s, skeleton s = skeleton st) Q);
    auto using building_preorder, building_group.
  intros s s' Hs Hb. by rewrite (building_skel _ _ Hb).
Qed.

Lemma built_Call n c st : runs Q True (constructorNode_Call R n c) st.
Proof. apply calls_Call; [apply _|]. intros. apply built_BuildList. Qed.

Lemma built_CallD d s st : runs Q True (decoratorNode_Call R d s) st.
Proof. apply calls_CallD; [apply _|]. intros. apply built_BuildList. Qed.
End step.

Lemma knot_built Q `{!building Q} fuel :
  (∀ st n c, runs Q True (callC (knot fuel) n c) st) ∧
  (∀ st d s, runs Q True (callD (knot fuel) d s) st).
Proof.
  induction fuel as [|fuel [IHC IHD]].
  - split; intros; simpl; by apply runs_liftO; [apply _|].
  - split; intros; [by apply built_Call|by apply built_CallD].
Qed.

(** *** Only the nodes a parameter depends on are called *)

Definition by_node (D : node → Prop) (ev : event) : Prop :=
  match ev with
  | EvCall (ByCtor n) _ _ => D (inl n)
  | EvCall (ByDcor d) _ _ => D (inr d)
  | _ => True
  end.

Record limited (D : node → Prop) (a b : store) : Prop := {
  limited_skel : skeleton b = skeleton a;
  limited_trace : ∃ new, st_trace b = st_trace a ++ new ∧ Forall (by_node D) new
}.

#[export] Instance limited_preorder D : PreOrder (limited D).
Proof.
  split.
  - intros a. split; [done|]. exists []. by rewrite app_nil_r.
  - intros a b c [H1 (n1 & H2 & H3)] [H4 (n2 & H5 & H6)]. split; [congruence|].
    exists (n1 ++ n2). rewrite H5, H2, app_assoc. split; [done|]. by apply Forall_app.
Qed.
Hint Resolve limited_preorder : dig.

Lemma limited_log D ev st : by_node D ev → limited D st (upd_trace (λ tr, tr ++ [ev]) st).
Proof. intros Hev. split; [done|]. exists [ev]. split; [done|]. by constructor. Qed.

Lemma limited_log_free D ev st :
  (∀ who fn args, ev ≠ EvCall who fn args) → limited D st (upd_trace (λ tr, tr ++ [ev]) st).
Proof. intros Hev. apply limited_log. by destruct ev; [|destruct (Hev who fn args)|]. Qed.

Lemma limited_quiet D st st' : skeleton st' = skeleton st → st_trace st' = st_trace st → limited D st st'.
Proof. intros H1 H2. split; [done|]. exists []. by rewrite app_nil_r. Qed.

Lemma eff_limited D a b : eff D a b → limited D a b.
Proof.
  intros He. split; [apply He|]. destruct (eff_trace _ _ _ He) as (new & Ht & Hnew). exists new.
  split; [done|]. eapply Forall_impl; [exact Hnew|]. intros [cb nm|[m|d|] f args|cb nm e t]; simpl; tauto.
Qed.

Section limited.
Context (K : store) (D : node → Prop) (D_closed : ∀ x y, D x → y ∈ node_deps K x → D y).

Lemma limited_zoom F X s (m : SM Scope X) st :
  (∀ sc, runs skel_eq F m sc) → runs (limited D) F (zoomScope s m) st.
Proof. intros Hm. apply (runs_sub _ _ (eff D)); [apply eff_limited|by apply runs_zoomScope]. Qed.

Section calls.
Context (R : callees).
Context (HC : ∀ st n cn, skeleton st = skeleton K → D (inl n) → st_ctors st !! n = Some cn →
           runs (limited D) True (callC R n (cn_origS cn)) st).
Context (HD : ∀ st d s, skeleton st = skeleton K → D (inr d) →
           runs (limited D) True (callD R d s) st).

Lemma limited_BuildList pl c st :
  skeleton st = skeleton K → (∀ y, y ∈ list_deps K c pl → D y) →
  runs (limited D) True (BuildList R pl c) st.
Proof.
  intros Hk HA. apply (runs_BuildList R K D D (λ s, skeleton s = skeleton K)); auto with dig.
  - intros. apply limited_zoom. intros.
    apply (runs_sub _ _ rand_eq); [exact rand_eq_skel|apply runs_getValueGroup].
  - intros s s' Hs Hl. by rewrite (limited_skel _ _ _ Hl).
Qed.

Lemma limited_Call n cn st :
  skeleton st = skeleton K → D (inl n) → st_ctors st !! n = Some cn →
  runs (limited D) True (constructorNode_Call R n (cn_origS cn)) st.
Proof.
  intros Hk Hn Hcn. unfold constructorNode_Call. read. rewrite Hcn in Hrun. injection Hrun as <-.
  destruct (cn_called cn); [auto with dig|].
  run_step; [apply runs_wrapErr; auto with dig|]. run_step.
  { apply runs_wrapErr, limited_BuildList; [by rewrite (limited_skel _ _ _ HR0)|].
    intros y Hy. apply (D_closed (inl n)); [done|].
    destruct (ctor_same _ _ _ _ Hk Hcn) as (ck & Hck & Hsame). simpl. rewrite Hck.
    by injection Hsame as _ _ _ -> _ _ _ -> _ _. }
  run_step; [apply runs_callBefore; [apply _|intros; by apply limited_log_free]|]. read.
  apply runs_deferCallback; [apply _|intros; by apply limited_log_free|].
  apply runs_deferRecover; [apply _|]. unfold constructorBody. read.
  run_step; [apply runs_invoke_with; [apply _|]; intros; by apply limited_log|]. unfold storeResults.
  destruct (ExtractList _ _ _ _) as [[u|e|p|] sr]; auto with dig; try (by apply runs_liftO; [apply _|]).
  run_step; [apply limited_zoom; intros; apply skel_eq_any, (CommitIn_runs skel_eq)|].
  apply runs_modifyS, limited_quiet; [|done].
  unfold skeleton. simpl. by rewrite (fmap_alter_same skel_ctor set_called).
Qed.

Lemma limited_CallD d s st :
  skeleton st = skeleton K → D (inr d) → runs (limited D) True (decoratorNode_Call R d s) st.
Proof.
  intros Hk Hd.
  assert (∀ q st, limited D st (upd_dcors (alter (set_state q) d) st)) as Hset.
  { intros q s'. apply limited_quiet; [|done]. unfold skeleton. simpl.
    by rewrite (fmap_alter_same skel_dcor (set_state q)). }
  unfold decoratorNode_Call. read. rename a into dn. case_decide; [auto with dig|].
  run_step; [by apply runs_modifyS|]. run_step; [apply runs_wrapErr; auto with dig|]. run_step.
  { apply runs_wrapErr, limited_BuildList.
    - by rewrite (limited_skel _ _ _ HR1), (limited_skel _ _ _ HR0).
    - intros y Hy. destruct (decide (y = inr d)) as [->|Hne]; [done|].
      apply (D_closed (inr d)); [done|]. destruct (dcor_same _ _ _ _ Hk Hrun) as (dk & Hdk & Hsame).
      simpl. rewrite Hdk. injection Hsame as _ _ _ -> _ -> _ _. by apply list_elem_of_filter. }
  run_step; [apply runs_callBefore; [apply _|intros; by apply limited_log_free]|]. read.
  apply runs_deferCallback; [apply _|intros; by apply limited_log_free|].
  apply runs_deferRecover; [apply _|]. unfold decoratorBody. read.
  run_step; [apply runs_invoke_with; [apply _|]; intros; by apply limited_log|].
  run_step; [apply limited_zoom; intros; apply skel_eq_any, (ExtractList_runs skel_eq)|].
  by apply runs_modifyS.
Qed.
End calls.

Lemma knot_limited fuel :
  (∀ st n cn, skeleton st = skeleton K → D (inl n) → st_ctors st !! n = Some cn →
     runs (limited D) True (callC (knot fuel) n (cn_origS cn)) st) ∧
  (∀ st d s, skeleton st = skeleton K → D (inr d) →
     runs (limited D) True (callD (knot fuel) d s) st).
Proof.
  induction fuel as [|fuel [IHC IHD]].
  - split; intros; simpl; by apply runs_liftO; [apply _|].
  - split; intros; [by apply limited_Call|by apply limited_CallD].
Qed.
End limited.

(** Building touches neither the graphs nor the orders. *)
Record framed (a b : store) : Prop := {
  framed_built : built a b;
  framed_orders : st_orders b = st_orders a;
  framed_graphs : (λ sc, (gh sc, isVerifiedAcyclic sc)) <$> st_scopes b =
                  (λ sc, (gh sc, isVerifiedAcyclic sc)) <$> st_scopes a
}.

#[export] Instance framed_building : building framed.
Proof.
  split.
  - split; [by split|]. intros a b c [? ? ?] [? ? ?]. split; [by etransitivity|congruence..].
  - intros a b []. by apply building_skel.
  - intros. split; [apply building_log|done..].
  - intros. split; [apply building_modCtor|done..].
  - intros. split; [by apply building_modDcor|done..].
  - intros F X s m st Hm. destruct (building_zoom (Q := built) F X s m st Hm) as [H1 H2].
    split; [done|]. split; [done|..]; clear H1 H2; unfold zoomScope;
      destruct (st_scopes st !! s) as [sc|] eqn:Hs; try done;
      destruct (Hm sc) as [_ (_ & Hg & Hv)]; destruct (m sc) as [r sc']; [done|].
    simpl in *. rewrite list_fmap_insert, Hg, Hv.
    rewrite <- (list_fmap_insert (λ sc, (gh sc, isVerifiedAcyclic sc))). by rewrite list_insert_id.
Qed.
End frame.
#[export] Hint Resolve limited_preorder : dig.
