(* ===== verification/ParamProofs.v ===== *)
(** * Reading the parameters of a function (param.go)

    [newParamList] always ends, and it does to the store what creating the graph
    nodes of the consumed value groups does: the lemmas are stated for any
    relation along which those steps move the store. *)

From S2P Require Import Prelude Digraph GoLib GoTypes DigReflect Errors Group InOut.
From S2P Require Import Values DotTypes Result Store Param Call Deps Building.

Open Scope string_scope.
Open Scope list_scope.

Section params.
Context `{E : Env} (c : nat).
Context (R : store → store → Prop) `{!PreOrder R} (F : Prop) (P : store → Prop).
Context (P_stable : ∀ s s', P s → R s s' → P s').
Context (orders_runs : ∀ st, runs R F newOrders st).
Context (group_runs : ∀ pt o st, P st → runs R F (newGraphNode c (WGroup pt) o) st).

Lemma newParamGroupedSlice_runs f st :
  P st → runs R F (newParamGroupedSlice f c) st.
Proof.
  intros Hk. unfold newParamGroupedSlice, failM.
  run_step; [apply runs_liftO; [apply _|]; by apply calm_ends, parseGroupString_calm|].
  run_step; [apply orders_runs|].
  repeat (case_match; [by auto with dig|]). run_step; [|auto with dig].
  apply group_runs. eauto.
Qed.

(** The recursion goes through struct fields, whose rank is smaller. *)
Definition new_runs (new : rtype → nat → M param) (t : rtype) : Prop :=
  ∀ f st, f ∈ Fields t → P st → runs R F (new (f_Type f) c) st.

Lemma newParamObjectFields_runs new ign t i fs st :
  new_runs new t → fs ⊆ Fields t → P st →
  runs R F (newParamObjectFields new ign t i fs c) st.
Proof.
  intros Hnew. revert i st; induction fs as [|f fs IH]; intros i st Hfs Hk; simpl;
    [auto with dig|].
  assert (fs ⊆ Fields t) as Hfs' by set_solver.
  case_match; [auto|]. case_match; [auto|].
  run_step; [apply runs_wrapErr|run_step; [eauto|auto with dig]].
  unfold newParamObjectField, failM. run_step.
  - repeat (case_match; [by auto with dig|]). case_match.
    + run_step; [by apply newParamGroupedSlice_runs|auto with dig].
    + apply Hnew; [set_solver|done].
  - run_step; [|auto with dig]. break; auto with dig.
Qed.

Lemma newParam__runs fuel t st :
  0 < fuel → (Kind t = Struct → S (tt_rank t) < fuel) → P st →
  runs R F (newParam_ fuel t c) st.
Proof.
  revert t st; induction fuel as [|fuel IH]; intros t st Hf Hrank Hk; [lia|].
  simpl. unfold failM. case_match; [auto with dig|]. case_match eqn:Hin.
  - apply IsIn_struct in Hin. specialize (Hrank Hin). unfold newParamObject.
    destruct (ignoreUnexportedOf _) as [ign [err|]]; [auto with dig|].
    run_step; [|auto with dig]. apply newParamObjectFields_runs; [|done..].
    intros f s Hfield Hs. apply IH; [lia| |done].
    intros Hstruct. pose proof (rank_Fields _ _ Hfield Hstruct). lia.
  - repeat (case_match; [by auto with dig|]). auto with dig.
Qed.

Lemma newParamList_runs ctype st :
  P st → runs R F (newParamList ctype c) st.
Proof.
  intros Hk. unfold newParamList. read. destruct a as [[ins outs] variadic].
  run_step; [|auto with dig]. revert Hk. 
  generalize 0, (take (if variadic then length ins - 1 else length ins) ins).
  clear Hrun HR. intros i l. revert i st.
  induction l as [|t l IH]; intros i st Hk; simpl; [auto with dig|].
  run_step; [apply runs_wrapErr, newParam__runs; [lia|lia|done]|].
  run_step; [eauto|auto with dig].
Qed.
End params.

(** ** The shallow check *)

(** The single parameters of a parameter that must be available. *)
Fixpoint required (p : param) : list paramSingle :=
  match p with
  | PSingle ps => if ps_Optional ps then [] else [ps]
  | PGrouped _ => []
  | PObject _ fs => concat (map (λ f, required (pof_Param f)) fs)
  end.

(** Somewhere up to the root something provides the value, or the scope itself has
    it decorated. *)
Definition available (scs : list Scope) (c : nat) (sc : Scope) (ps : paramSingle) : Prop :=
  getAllValueProviders scs c (ps_Name ps) (ps_Type ps) ≠ [] ∨
  is_Some (getDecoratedValue sc (ps_Name ps) (ps_Type ps)).

Lemma missingOf_spec scs c sc p ps :
  ps ∈ missingOf scs c sc p ↔ ps ∈ required p ∧ ¬ available scs c sc ps.
Proof.
  induction p as [q|pt|t fs IH] using param_ind'; simpl.
  - unfold available. destruct (ps_Optional q); simpl; [rewrite andb_false_r; set_solver|].
    rewrite andb_true_r, list_elem_of_singleton.
    set (ps' := getAllValueProviders scs c (ps_Name q) (ps_Type q)).
    set (dv := getDecoratedValue sc (ps_Name q) (ps_Type q)).
    destruct (decide (ps' = [] ∧ dv = None)) as [[H1 H2]|Hn].
    + rewrite !bool_decide_eq_true_2 by done. simpl. rewrite list_elem_of_singleton.
      split; [|naive_solver]. intros ->. fold ps' dv. rewrite H1, H2.
      split; [done|]. intros [?|[? ?]]; congruence.
    + assert (bool_decide (ps' = []) && bool_decide (dv = None) = false) as ->.
      { apply andb_false_iff. rewrite !bool_decide_eq_false.
        destruct (decide (ps' = [])); [right; naive_solver|by left]. }
      split; [set_solver|]. intros [-> Ha]. exfalso. apply Hn. fold ps' dv in Ha. split.
      * destruct (decide (ps' = [])); [done|]. exfalso. apply Ha. by left.
      * destruct dv; [|done]. exfalso. apply Ha. right. by eexists.
  - set_solver.
  - rewrite !elem_of_concat_map. rewrite Forall_forall in IH. split.
    + intros (f & Hf & Hin). apply IH in Hin as [? ?]; [|done]. eauto.
    + intros [(f & Hf & Hin) Hn]. exists f. split; [done|]. by apply IH.
Qed.

Lemma shallowCheckDependencies_ok `{E : Env} c pl st sc :
  st_scopes st !! c = Some sc →
  let r := shallowCheckDependencies c pl st in
  r.2 = st ∧
  (r.1 = Ret () ↔ ∀ p ps, p ∈ pl_Params pl → ps ∈ required p →
                          available (st_scopes st) c sc ps) ∧
  (r.1 = Ret () ∨ ∃ ms, r.1 = Err (errMissingTypes ms) ∧ ms ≠ []).
Proof.
  intros Hsc. unfold shallowCheckDependencies, getScope, mbind, SM_bind. simpl. rewrite Hsc.
  simpl. unfold findMissingDependencies.
  set (missing := concat (map (missingOf (st_scopes st) c sc) (pl_Params pl))).
  assert (missing = [] ↔ ∀ p ps, p ∈ pl_Params pl → ps ∈ required p →
                                 available (st_scopes st) c sc ps) as Hiff.
  { split.
    - intros Hm p ps Hp Hr. assert (Decision (available (st_scopes st) c sc ps)) as [Ha|Hn];
        [unfold available; apply _|done|].
      assert (ps ∈ missing) as Hin; [|rewrite Hm in Hin; set_solver].
      apply elem_of_concat_map. exists p. split; [done|]. by apply missingOf_spec.
    - intros Hall. apply elem_of_nil_inv. intros ps (p & Hp & Hin)%elem_of_concat_map.
      apply missingOf_spec in Hin as [Hr Hn]. apply Hn. by eapply Hall. }
  destruct missing as [|ps missing].
  - simpl. split; [done|]. split; [|by left]. split; [by intros _; apply Hiff|done].
  - simpl. split; [done|]. split; [|right; by eexists].
    split; [done|]. intros Hall. by apply Hiff in Hall.
Qed.

(** C32: the shallow check before a constructor, decorator or invoked function.  It
    changes nothing, and it passes exactly when every required single parameter,
    also inside parameter objects, has a provider in the scope or above, or a
    decorated value in the scope; otherwise the error is [errMissingTypes]. *)
Theorem shallowCheckDependencies_spec `{E : Env} c pl st sc :
  st_scopes st !! c = Some sc →
  let r := shallowCheckDependencies c pl st in
  r.2 = st ∧
  (r.1 = Ret () ↔ ∀ p ps, p ∈ pl_Params pl → ps ∈ required p →
                          available (st_scopes st) c sc ps) ∧
  (r.1 = Ret () ∨ ∃ ms, r.1 = Err (errMissingTypes ms) ∧ ms ≠ []).
Proof. apply shallowCheckDependencies_ok. Qed.
