(* ===== verification/CallProofs.v ===== *)
(** * What a call of a constructor guarantees (constructor.go, container.go)

    The deferred functions seen from outside, and the state after a successful
    call: the constructor is marked as called and every value it provides is in
    its scope. *)

From S2P Require Import Prelude Digraph GoLib GoTypes DigReflect Errors Group InOut.
From S2P Require Import Values DotTypes Result Store Scenario Param Call ResultProofs.
From S2P Require Import Clock Deps Building.

Open Scope string_scope.
Open Scope list_scope.

(** ** Inversion of successful runs *)

Section inversion.
Context `{E : Env}.

Lemma wrapErr_Ret {S A} f (m : SM S A) s a s' :
  wrapErr f m s = (Ret a, s') → m s = (Ret a, s').
Proof. unfold wrapErr. destruct (m s) as [[]]; simpl; intros [=]; by subst. Qed.

Lemma deferRecover_Ret b loc m st st' :
  deferRecover b loc m st = (Ret (), st') → m st = (Ret (), st').
Proof.
  unfold deferRecover, observe. destruct (m st) as [[]]; try done.
  destruct b; intros [=].
Qed.

(** A callback does not touch scopes and nodes. *)
Lemma deferCallback_Ret cb loc c m st st' :
  deferCallback cb loc c m st = (Ret (), st') →
  ∃ st1, m st = (Ret (), st1) ∧ st_scopes st' = st_scopes st1 ∧ st_ctors st' = st_ctors st1.
Proof.
  destruct cb as [cb|]; simpl; [|eauto]. rewrite bind_Ret.
  intros (start & s1 & H1 & H2). apply clockNow_Ret in H1 as ->.
  unfold observe in H2. destruct (m st) as [[[]|e|p|] s2] eqn:Hm.
  all: try (apply bind_Ret in H2 as (name & s3 & H3 & H2); apply orPanic_Ret in H3 as [-> _];
            apply bind_Ret in H2 as (now & s4 & H4 & H2); apply clockNow_Ret in H4 as ->;
            apply bind_Ret in H2 as ([] & s5 & ->%runCallback_Ret & H2)); try done.
  injection H2 as <-. by exists s2.
Qed.

Lemma typed_results tr fn args vs ins outs var :
  FuncSig (fv_type fn) = Some (ins, outs, var) → env_call tr fn args = Returned vs →
  Forall2 typed vs outs.
Proof.
  intros Hsig Hcall. destruct (env_call_typed tr fn args vs ins outs var Hsig Hcall) as [Hty Hwt].
  rewrite forallb_forall in Hwt.
  apply (f_equal length) in Hty as Hlen. rewrite !length_fmap in Hlen.
  apply Forall2_same_length_lookup. split; [done|]. intros i v t Hv Ht. split.
  - apply (f_equal (lookup i)) in Hty. rewrite !list_lookup_fmap, Hv, Ht in Hty. by simplify_eq/=.
  - apply Hwt, list_elem_of_In. by eapply list_elem_of_lookup_2.
Qed.

(** A call returns values of the output types. *)
Lemma invoke_with_Ret inv who fn args st vs st' ins outs var :
  FuncSig (fv_type fn) = Some (ins, outs, var) →
  invoke_with inv who fn args st = (Ret vs, st') →
  Forall2 typed vs outs ∧ st_scopes st' = st_scopes st ∧ st_ctors st' = st_ctors st.
Proof.
  intros Hsig. destruct inv; simpl.
  - unfold defaultInvoker, mbind, SM_bind, liftO. destruct (checkCall fn args); [|by intros [=]..].
    simpl. destruct (env_call _ _ _) as [vs'|p] eqn:Hcall; intros [=].
    subst. split; [by eapply typed_results|done].
  - unfold dryInvoker. rewrite Hsig. intros [= <- <-]. split; [|done].
    apply Forall2_fmap_l, Forall_Forall2_diag, Forall_true. intros t. done.
Qed.
End inversion.

(** ** A successful call *)

(** A committed key is in the map. *)
Lemma commitValues_lookup (vs : list (key * value)) m k v :
  (k, v) ∈ vs → k = valueKey (k_name k) (k_t k) → is_Some (commitValues vs m !! k).
Proof.
  intros Hin Hk. induction vs as [|kv vs IH]; [set_solver|]. simpl.
  destruct (decide (valueKey (k_name kv.1) (k_t kv.1) = k)) as [->|Hne];
    [by rewrite lookup_insert_eq|].
  rewrite lookup_insert_ne by done. apply IH.
  apply elem_of_cons in Hin as [<-|?]; [|done]. simpl in Hne. congruence.
Qed.

Section call.
Context `{E : Env}.

(** The values of a constructor, once its results are stored. *)
Definition provided (st : store) (cn : constructorNode) : Prop :=
  ∃ sc, st_scopes st !! cn_s cn = Some sc ∧
  ∀ k, k ∈ value_keys (resultList_ (cn_resultList cn)) → is_Some (values sc !! k).

Lemma storeResults_Ret n cn opts results st st' ins outs var :
  FuncSig (fv_type (cn_ctor cn)) = Some (ins, outs, var) →
  newResultList (fv_type (cn_ctor cn)) opts = Ret (cn_resultList cn) →
  Forall2 typed results outs →
  storeResults n cn results st = (Ret (), st') →
  provided st' cn ∧ st_ctors st' = alter set_called n (st_ctors st).
Proof.
  intros Hsig Hnew Hty. unfold storeResults.
  destruct (ExtractList _ _ _ _) as [[[]|e|p|] sr] eqn:Hex; try (by intros [=]).
  unfold mbind, SM_bind, zoomScope, Commit.
  destruct (st_scopes st !! cn_s cn) as [sc|] eqn:Hsc; [|by intros [=]].
  rewrite CommitIn_eq. intros [= <-]. simpl. split; [|done].
  eexists. split.
  { simpl. apply list_lookup_insert_eq. by eapply lookup_lt_Some. }
  intros k Hk.
  assert (staging_keys sr) as [Hkeys _] by (by eapply ExtractList_keys).
  destruct (ExtractList_covers opts outs (cn_resultList cn) results
              newStagingContainerWriter sr k) as [v Hv];
    [by eapply newResultList_table|by eapply Forall2_length|done|done|].
  destruct sc; simpl. eapply (commitValues_lookup _ _ _ v); [|by eapply Hkeys].
  by rewrite elem_of_reverse, elem_of_map_to_list.
Qed.

Lemma constructorNode_Call_Ret R n c cn opts st st' ins outs var :
  FuncSig (fv_type (cn_ctor cn)) = Some (ins, outs, var) →
  newResultList (fv_type (cn_ctor cn)) opts = Ret (cn_resultList cn) →
  st_ctors st !! n = Some cn → cn_called cn = false →
  constructorNode_Call R n c st = (Ret (), st') →
  provided st' cn ∧ ∃ l, st_ctors st' = alter set_called n l.
Proof.
  intros Hsig Hnew Hn Hcalled. unfold constructorNode_Call. rewrite bind_Ret.
  intros (cn' & s1 & H1 & H). apply getCtor_Ret in H1 as [-> H1]. simplify_eq.
  rewrite Hcalled in H.
  apply bind_Ret in H as (? & s2 & _ & H). apply bind_Ret in H as (args & s3 & _ & H).
  apply bind_Ret in H as (? & s4 & _ & H). apply bind_Ret in H as (ns & s5 & _ & H).
  apply deferCallback_Ret in H as (s6 & H & Hsc & Hct). apply deferRecover_Ret in H.
  unfold constructorBody in H. apply bind_Ret in H as (sc & s7 & H7 & H).
  apply getScope_Ret in H7 as [-> _]. apply bind_Ret in H as (results & s8 & H8 & H).
  eapply invoke_with_Ret in H8 as (Hty & _ & _); [|done].
  eapply storeResults_Ret in H as [(sc' & ? & ?) Hl]; [|done..].
  split; [|exists (st_ctors s8); congruence]. exists sc'. by rewrite Hsc.
Qed.
End call.

(** C19: a successful call of a constructor.  Whatever its dependencies and the bound
    on nested calls, when a constructor is called and the call returns without error, it
    is marked as called; and if it had not been called before, every single value it
    provides, under its own type and those of [dig.As], is in its scope: the
    value a parameter looks up afterwards cannot be absent. *)
Theorem constructor_call_provides `{E : Env} fuel n cn opts ins outs var st st' :
  st_ctors st !! n = Some cn →
  FuncSig (fv_type (cn_ctor cn)) = Some (ins, outs, var) →
  newResultList (fv_type (cn_ctor cn)) opts = Ret (cn_resultList cn) →
  callC (knot fuel) n (cn_origS cn) st = (Ret (), st') →
  called st' n = true ∧ (cn_called cn = false → provided st' cn).
Proof.
  intros Hn Hsig Hnew Hrun. destruct (knot_built built fuel) as [HC _].
  destruct (HC st n (cn_origS cn)) as [_ Hb]. rewrite Hrun in Hb. simpl in Hb.
  destruct (cn_called cn) eqn:Hcalled.
  - split; [|done]. apply (built_called _ _ Hb). unfold called. by rewrite Hn.
  - destruct fuel as [|fuel]; [done|]. simpl in Hrun.
    destruct (constructorNode_Call_Ret (knot fuel) n _ cn opts st st' ins outs var
                Hsig Hnew Hn Hcalled Hrun) as [Hp [l Hl]].
    split; [|done]. destruct (ctor_same _ _ _ _ (eq_sym (built_skel _ _ Hb)) Hn) as (cn' & Hcn' & _).
    unfold called. rewrite Hcn'. rewrite Hl in Hcn'.
    apply set_called_lookup in Hcn' as (? & _ & _ & _ & Hc). auto.
Qed.

(** ** Callbacks and recovery *)

Section callbacks.
Context `{E : Env}.

(** What a caller gets to see of the outcome [r] of the code behind the deferred
    functions. *)
Definition recovered (recover : bool) (loc : Func) (r : outcome ()) : outcome () :=
  match r with
  | Panic_ p => if recover then Err (PanicError (Some loc) p) else r
  | _ => r
  end.

Definition funcName (loc : Func) : string := fn_Package loc +:+ "." +:+ fn_Name loc.

Definition told_before (before : option positive) (loc : Func) : list event :=
  match before with Some b => [EvBefore b (funcName loc)] | None => [] end.

(** The call ends with [r'] and [tr'] if its outcome was [r] after the events [tr]: the
    callback is told of the error that is returned, and may itself panic. *)
Definition finishes (cb : option positive) (loc : Func) (elapsed : Z) (tr : list event)
    (r r' : outcome ()) (tr' : list event) : Prop :=
  match cb with
  | None => r' = r ∧ tr' = tr
  | Some cb =>
      let ev := EvCallback cb (funcName loc) (errOf r) elapsed in
      tr' = tr ++ [ev] ∧
      r' = match env_callback tr ev with None => r | Some (id, q) => Panic_ (PUser id q) end
  end.

(** A call that gets as far as the function, after the events [tr]: what the function did
    ([did]) decides the outcome [r'] and the events [tr']. *)
Definition called_back (before cb : option positive) (loc : Func) (recover : bool)
    (now : list event → Z) (call : event) (did : list event → outcome ()) (tr : list event)
    (r' : outcome ()) (tr' : list event) : Prop :=
  let tr1 := tr ++ told_before before loc in
  let tr2 := tr1 ++ [call] in
  match before ≫= λ b, env_callback tr (EvBefore b (funcName loc)) with
  | Some (id, q) => r' = Panic_ (PUser id q) ∧ tr' = tr1
  | None => finishes cb loc (Since (now tr2) (now tr1)) tr2 (recovered recover loc (did tr1)) r' tr'
  end.

Lemma clockNow_at c sc st :
  st_scopes st !! c = Some sc → clockNow c st = (Ret (env_now (clockSrc sc) (st_trace st)), st).
Proof. intros Hx. unfold clockNow, getScope, mbind, SM_bind. simpl. by rewrite Hx. Qed.

Lemma runCallback_run ev st :
  runCallback ev st =
  (match env_callback (st_trace st) ev with None => Ret () | Some (id, q) => Panic_ (PUser id q) end,
   upd_trace (λ tr, tr ++ [ev]) st).
Proof. unfold runCallback, mbind, SM_bind. simpl. by destruct (env_callback _ _) as [[]|]. Qed.

(** The deferred functions around [m]. *)
Lemma deferred_run cb loc c recover m st r st1 sc sc1 :
  m st = (r, st1) → r ≠ NoFuel → st_scopes st !! c = Some sc → st_scopes st1 !! c = Some sc1 →
  let res := deferCallback cb (Some loc) c (deferRecover recover (Some loc) m) st in
  finishes cb loc (Since (env_now (clockSrc sc1) (st_trace st1)) (env_now (clockSrc sc) (st_trace st)))
    (st_trace st1) (recovered recover loc r) res.1 (st_trace res.2).
Proof.
  intros Hm Hr Hsc Hsc1.
  assert (deferRecover recover (Some loc) m st = (recovered recover loc r, st1)) as Hrec.
  { unfold deferRecover, observe. rewrite Hm. destruct r; try done. by destruct recover. }
  assert (recovered recover loc r ≠ NoFuel) as Hr' by (destruct r; [done|done|by destruct recover|done]).
  destruct cb as [cb|]; simpl; [|by rewrite Hrec].
  rewrite (bind_step _ _ _ _ _ (clockNow_at _ _ _ Hsc)). unfold observe. rewrite Hrec.
  set (r' := recovered recover loc r) in *. clearbody r'.
  assert (∀ (r' : outcome ()),
    (name ← orPanic nilDeref (qualifiedName (Some loc)); now ← clockNow c;
     _ ← runCallback (EvCallback cb name (errOf r') (Since now (env_now (clockSrc sc) (st_trace st))));
     liftO r') st1 =
    let ev := EvCallback cb (funcName loc) (errOf r')
                (Since (env_now (clockSrc sc1) (st_trace st1)) (env_now (clockSrc sc) (st_trace st))) in
    (match env_callback (st_trace st1) ev with None => r' | Some (id, q) => Panic_ (PUser id q) end,
     upd_trace (λ tr, tr ++ [ev]) st1)) as Hend.
  { intros r2. rewrite (bind_step _ _ st1 (funcName loc) st1) by done.
    rewrite (bind_step _ _ _ _ _ (clockNow_at _ _ _ Hsc1)). unfold mbind, SM_bind.
    rewrite runCallback_run. by destruct (env_callback _ _) as [[]|]. }
  destruct r'; try done; by rewrite Hend.
Qed.

(** The scopes of a state keep their clocks. *)
Lemma clock_same st st' c sc :
  skeleton st' = skeleton st → st_scopes st !! c = Some sc →
  ∃ sc', st_scopes st' !! c = Some sc' ∧ clockSrc sc' = clockSrc sc.
Proof.
  intros Hk Hc. apply (f_equal (λ s, st_scopes s !! c)) in Hk. simpl in Hk.
  rewrite !list_lookup_fmap, Hc in Hk. destruct (st_scopes st' !! c) as [sc'|]; [|done].
  exists sc'. split; [done|]. by injection Hk.
Qed.

(** What follows the arguments of a call: the before-callback, and the deferred functions
    around a body that calls the function. *)
Lemma call_end before cb loc c home m st sc ns call did :
  st_scopes st !! c = Some sc → st_scopes st !! home = Some ns →
  (∀ s, st_scopes s = st_scopes st → (m s).1 = did (st_trace s) ∧
        st_trace (m s).2 = st_trace s ++ [call] ∧ skeleton (m s).2 = skeleton s) →
  (∀ tr, did tr ≠ NoFuel) →
  let res := (_ ← callBefore before (Some loc); ns ← getScope home;
              deferCallback cb (Some loc) c (deferRecover (recoverFromPanics ns) (Some loc) m)) st in
  called_back before cb loc (recoverFromPanics ns) (env_now (clockSrc sc)) call did (st_trace st)
              res.1 (st_trace res.2).
Proof.
  intros Hc Hh Hm Hdid. unfold called_back. set (tr1 := st_trace st ++ told_before before loc).
  set (s1 := upd_trace (λ _, tr1) st).
  assert (callBefore before (Some loc) st =
    (match before ≫= λ b, env_callback (st_trace st) (EvBefore b (funcName loc)) with
     | None => Ret () | Some (id, q) => Panic_ (PUser id q) end, s1)) as Hb.
  { destruct before as [b|]; simpl.
    - rewrite (bind_step _ _ st (funcName loc) st) by done. by rewrite runCallback_run.
    - unfold s1, tr1. simpl. rewrite app_nil_r. by destruct st. }
  destruct (before ≫= _) as [[id q]|]; [by rewrite (bind_panic _ _ _ _ _ Hb)|].
  rewrite (bind_step _ _ _ _ _ Hb).
  rewrite (bind_step _ _ s1 ns s1); [|unfold getScope, mbind, SM_bind; simpl; by rewrite Hh].
  destruct (Hm s1 eq_refl) as (H1 & H2 & H3). destruct (m s1) as [r s2] eqn:Hrun. simpl in H1, H2, H3.
  destruct (clock_same _ _ c sc H3 Hc) as (sc2 & Hsc2 & Hclk).
  pose proof (deferred_run cb loc c (recoverFromPanics ns) m s1 r s2 sc sc2 Hrun) as Hd.
  rewrite Hclk, H2, H1 in Hd. apply Hd; [apply Hdid|done|done].
Qed.
End callbacks.

(** What the function of a constructor did, and what comes of its results. *)
Definition constructor_did `{E : Env} (cn : constructorNode) (loc : Func) (args : list value)
    (tr : list event) : outcome () :=
  match env_call tr (cn_ctor cn) args with
  | Panicked id q => Panic_ (PUser id q)
  | Returned vs => map_err (errConstructorFailed (Some loc))
                     (ExtractList (cn_resultList cn) false vs newStagingContainerWriter).1
  end.

(** The results of a decorator go to its scope [sc] directly, and its errors are not
    wrapped. *)
Definition decorator_did `{E : Env} (dn : decoratorNode) (sc : Scope) (args : list value)
    (tr : list event) : outcome () :=
  match env_call tr (dn_dcor dn) args with
  | Panicked id q => Panic_ (PUser id q)
  | Returned vs => (ExtractList (dn_results dn) true vs sc).1
  end.

Section callback_bodies.
Context `{E : Env}.

Lemma invoke_default who fn args st :
  checkCall fn args = Ret () →
  invoke_with defaultInvokerFn who fn args st =
  (match env_call (st_trace st) fn args with
   | Returned vs => Ret vs | Panicked id q => Panic_ (PUser id q) end,
   upd_trace (λ tr, tr ++ [EvCall who fn args]) st).
Proof.
  intros Hc. simpl. unfold defaultInvoker. rewrite Hc. unfold mbind, SM_bind. simpl.
  by destruct (env_call _ _ _).
Qed.

Lemma storeResults_run n cn loc vs st ns :
  cn_location cn = Some loc → st_scopes st !! cn_s cn = Some ns →
  (storeResults n cn vs st).1 =
    map_err (errConstructorFailed (Some loc))
            (ExtractList (cn_resultList cn) false vs newStagingContainerWriter).1 ∧
  st_trace (storeResults n cn vs st).2 = st_trace st.
Proof.
  intros Hloc Hns. unfold storeResults. rewrite Hloc.
  destruct (ExtractList _ _ _ _) as [[[]|e|p|] sr]; try done. simpl.
  destruct (CommitIn_Scope (map_to_list (sw_values sr)) (map_to_list (sw_groups sr)) ns) as [sc' Hcom].
  unfold mbind, SM_bind, zoomScope, Commit. rewrite Hns, Hcom. done.
Qed.

Lemma constructorBody_run n cn c args loc st sc ns :
  cn_location cn = Some loc → st_scopes st !! c = Some sc → sc_invokerFn sc = defaultInvokerFn →
  checkCall (cn_ctor cn) args = Ret () → st_scopes st !! cn_s cn = Some ns →
  let res := constructorBody n cn c args st in
  res.1 = constructor_did cn loc args (st_trace st) ∧
  st_trace res.2 = st_trace st ++ [EvCall (ByCtor n) (cn_ctor cn) args] ∧
  skeleton res.2 = skeleton st.
Proof.
  intros Hloc Hc Hinv Hcheck Hns res.
  assert (skeleton res.2 = skeleton st) as Hsk.
  { unfold res. by destruct (calls_constructorBody built True n cn c args st) as [_ [? _ _]]. }
  apply and_assoc. split; [|done]. clear Hsk. unfold res, constructorBody, constructor_did.
  rewrite (bind_step _ _ st sc st) by (unfold getScope, mbind, SM_bind; simpl; by rewrite Hc).
  rewrite Hinv. unfold mbind, SM_bind. rewrite invoke_default by done.
  destruct (env_call _ _ _) as [vs|id q]; [|done].
  set (s1 := upd_trace _ st). by destruct (storeResults_run n cn loc vs s1 ns) as [-> ->].
Qed.

Lemma decoratorBody_run d dn s args st sc ns :
  st_scopes st !! s = Some sc → sc_invokerFn sc = defaultInvokerFn →
  checkCall (dn_dcor dn) args = Ret () → st_scopes st !! dn_s dn = Some ns →
  let res := decoratorBody d dn s args st in
  res.1 = decorator_did dn ns args (st_trace st) ∧
  st_trace res.2 = st_trace st ++ [EvCall (ByDcor d) (dn_dcor dn) args] ∧
  skeleton res.2 = skeleton st.
Proof.
  intros Hc Hinv Hcheck Hns res.
  assert (skeleton res.2 = skeleton st) as Hsk.
  { unfold res. by destruct (calls_decoratorBody built True d dn s args st) as [_ [? _ _]]. }
  apply and_assoc. split; [|done]. clear Hsk. unfold res, decoratorBody, decorator_did.
  rewrite (bind_step _ _ st sc st) by (unfold getScope, mbind, SM_bind; simpl; by rewrite Hc).
  rewrite Hinv. unfold mbind, SM_bind. rewrite invoke_default by done.
  destruct (env_call _ _ _) as [vs|id q]; [|done]. unfold zoomScope. simpl. rewrite Hns.
  by destruct (ExtractList _ _ _ _) as [[[]|e|p|] sc'].
Qed.

Lemma constructor_did_ends cn loc args tr : constructor_did cn loc args tr ≠ NoFuel.
Proof.
  unfold constructor_did. destruct (env_call _ _ _) as [vs|id q]; [|done].
  destruct (ExtractList_runs anything (cn_resultList cn) false vs newStagingContainerWriter) as [Hends _].
  destruct (ExtractList _ _ _ _) as [[u|e|p|] sr]; done.
Qed.

Lemma decorator_did_ends dn sc args tr : decorator_did dn sc args tr ≠ NoFuel.
Proof.
  unfold decorator_did. destruct (env_call _ _ _) as [vs|id q]; [|done].
  destruct (ExtractList_runs skel_eq (dn_results dn) true vs sc) as [Hends _].
  intros Hn. by destruct (Hends Hn).
Qed.
End callback_bodies.

(** C30: callbacks of constructors.  When the arguments of a constructor with a known
    location are built and fit, in a scope without [DryRun], the before-callback is told first; if it panics, the constructor is not called.  Otherwise
    the constructor is called, its results are stored, and whatever came of that the
    callback is told once, after everything else, the name, the elapsed time and the very
    error that the call returns.  A panic of the constructor or of storing its results
    becomes a [PanicError], which the callback sees, when the scope recovers from panics;
    otherwise it goes on after the callback has been told of no error.  A panic of the
    callback itself is never recovered. *)
Theorem constructor_callbacks `{E : Env} R n cn c st args s1 loc sc ns :
  st_ctors st !! n = Some cn → cn_called cn = false → cn_location cn = Some loc →
  shallowCheckDependencies c (cn_paramList cn) st = (Ret (), st) →
  BuildList R (cn_paramList cn) c st = (Ret args, s1) →
  st_scopes s1 !! c = Some sc → sc_invokerFn sc = defaultInvokerFn →
  checkCall (cn_ctor cn) args = Ret () → st_scopes s1 !! cn_s cn = Some ns →
  let res := constructorNode_Call R n c st in
  called_back (cn_beforeCallback cn) (cn_callback cn) loc (recoverFromPanics ns)
    (env_now (clockSrc sc)) (EvCall (ByCtor n) (cn_ctor cn) args)
    (constructor_did cn loc args) (st_trace s1) res.1 (st_trace res.2).
Proof.
  intros Hn Hfresh Hloc Hshallow Hargs Hc Hinv Hcheck Hns. unfold constructorNode_Call.
  rewrite (bind_step _ _ st cn st) by (unfold getCtor, mbind, SM_bind; simpl; by rewrite Hn).
  rewrite Hfresh, (bind_step _ _ st () st) by (unfold wrapErr; by rewrite Hshallow).
  rewrite (bind_step _ _ st args s1) by (unfold wrapErr; by rewrite Hargs). rewrite Hloc.
  apply (call_end _ _ loc c (cn_s cn) _ s1 sc ns _ (constructor_did cn loc args));
    [done..| |apply constructor_did_ends].
  intros s Hs. by apply (constructorBody_run n cn c args loc s sc ns); rewrite ?Hs.
Qed.

(** C31: callbacks of decorators.  The same, under the same conditions, for decorators,
    whose results go straight to their scope: the before-callback, the decorator, the callback with the error that is
    returned, recovery from panics of the decorator but not of the callback. *)
Theorem decorator_callbacks `{E : Env} R d dn s st args s1 loc sc ns :
  st_dcors st !! d = Some dn → dn_state dn ≠ decoratorCalled → dn_location dn = Some loc →
  let st0 := upd_dcors (alter (set_state decoratorOnStack) d) st in
  shallowCheckDependencies s (dn_params dn) st0 = (Ret (), st0) →
  BuildList R (dn_params dn) (dn_s dn) st0 = (Ret args, s1) →
  st_scopes s1 !! s = Some sc → sc_invokerFn sc = defaultInvokerFn →
  checkCall (dn_dcor dn) args = Ret () → st_scopes s1 !! dn_s dn = Some ns →
  let res := decoratorNode_Call R d s st in
  called_back (dn_beforeCallback dn) (dn_callback dn) loc (recoverFromPanics ns)
    (env_now (clockSrc sc)) (EvCall (ByDcor d) (dn_dcor dn) args)
    (decorator_did dn ns args) (st_trace s1) res.1 (st_trace res.2).
Proof.
  intros Hd Hst Hloc st0 Hshallow Hargs Hc Hinv Hcheck Hns. unfold decoratorNode_Call.
  rewrite (bind_step _ _ st dn st) by (unfold getDcor, mbind, SM_bind; simpl; by rewrite Hd).
  rewrite decide_False, (bind_step _ _ st () st0) by done.
  rewrite (bind_step _ _ st0 () st0) by (unfold wrapErr; by rewrite Hshallow).
  rewrite (bind_step _ _ st0 args s1) by (unfold wrapErr; by rewrite Hargs). rewrite Hloc.
  apply (call_end _ _ loc s (dn_s dn) _ s1 sc ns _ (decorator_did dn ns args));
    [done..| |apply decorator_did_ends].
  intros s' Hs. by apply (decoratorBody_run d dn s args s' sc ns); rewrite ?Hs.
Qed.

(** ** Value groups *)

Section groups.
Context `{E : Env}.

Lemma forMap_lookup {S A} (msg : string) (items : list A) (idx : list nat) (s : S) :
  Forall (λ j, j < length items) idx →
  ∃ l, forMap idx (λ j, orPanic msg (items !! j)) s = (Ret l, s) ∧
       Some <$> l = (λ j, items !! j) <$> idx.
Proof.
  induction 1 as [|j idx Hj _ IH]; [by exists []|].
  destruct IH as (l & Hl & Heq). apply lookup_lt_is_Some in Hj as [x Hx].
  exists (x :: l). rewrite forMap_cons, Hx. unfold mbind, SM_bind. simpl. rewrite Hl.
  split; [done|].
  change (Some x :: (Some <$> l) = items !! j :: ((λ j, items !! j) <$> idx)). by rewrite Hx, Heq.
Qed.

Lemma omap_Some {A} (l : list A) : omap id (Some <$> l) = l.
Proof. induction l as [|x l IH]; csimpl; [done|]. by rewrite IH. Qed.

Lemma lookup_seq_all {A} (l : list A) : (λ j, l !! j) <$> seq 0 (length l) = Some <$> l.
Proof.
  apply list_eq. intros i. rewrite !list_lookup_fmap.
  destruct (decide (i < length l)) as [Hi|Hi].
  - rewrite lookup_seq_lt by done. simpl. by apply lookup_lt_is_Some in Hi as [x ->].
  - rewrite lookup_seq_ge by lia. by rewrite lookup_ge_None_2 by lia.
Qed.
End groups.

Lemma getValueGroup_ok `{E : Env} name t sc :
  ∃ l, getValueGroup name t sc =
         (Ret l, set_rand (λ r, mkRand (rand_seed r) (S (rand_draws r))) sc) ∧
       l ≡ₚ default [] (groups sc !! groupKey name t).
Proof.
  set (items := default [] (groups sc !! groupKey name t)).
  unfold getValueGroup, shuffledCopy. unfold mbind, SM_bind. simpl. fold items.
  pose proof (env_perm_ok (sc_rand sc) (length items)) as Hperm.
  destruct (forMap_lookup "index out of range" items (env_perm (sc_rand sc) (length items))
              (set_rand (λ r, mkRand (rand_seed r) (S (rand_draws r))) sc)) as (l & Hl & Heq).
  { rewrite Hperm. apply Forall_forall. intros j Hj. apply elem_of_seq in Hj. lia. }
  exists l. split; [exact Hl|].
  rewrite <- (omap_Some l), <- (omap_Some items), Heq, <- lookup_seq_all. by rewrite Hperm.
Qed.

(** A value group is handed out as a permutation of the values submitted to it,
    whatever the source of randomness: nothing is lost, duplicated or made up, and
    of the scope only the state of the random source changes. *)
Theorem getValueGroup_permutation `{E : Env} name t sc :
  ∃ l, getValueGroup name t sc =
         (Ret l, set_rand (λ r, mkRand (rand_seed r) (S (rand_draws r))) sc) ∧
       l ≡ₚ default [] (groups sc !! groupKey name t).
Proof. apply getValueGroup_ok. Qed.

(** ** Resolving a single value *)

Section resolve.
Context `{E : Env} (R : callees) (ps : paramSingle) (c : nat) (st : store).
Let k : key := valueKey (ps_Name ps) (ps_Type ps).

(** The scope has no decorator and no decorated value for the key. *)
Definition undecorated (sc : Scope) : Prop :=
  decorators sc !! k = None ∧ decoratedValues sc !! k = None.

(** The scope neither holds the value nor can produce it. *)
Definition silent (sc : Scope) : Prop := values sc !! k = None ∧ getProviders sc k = [].

Definition on (l : list nat) (P : Scope → Prop) : Prop :=
  ∀ i sc, i ∈ l → st_scopes st !! i = Some sc → P sc.

Lemma findDecorator_none l : on l undecorated → findDecorator st l ps = None.
Proof.
  induction l as [|i l IH]; intros Hl; simpl; [done|].
  assert (on l undecorated) as Hl' by (intros j sc Hj; apply (Hl j sc); set_solver).
  destruct (st_scopes st !! i) as [sc|] eqn:Hi; simpl; [|auto].
  destruct (Hl i sc ltac:(set_solver) Hi) as [Hd _].
  unfold getValueDecorator, getDecorators. fold k. rewrite Hd. auto.
Qed.

Lemma firstDecorated_none l : on l undecorated → firstDecorated (st_scopes st) l ps = None.
Proof.
  induction l as [|i l IH]; intros Hl; simpl; [done|].
  assert (on l undecorated) as Hl' by (intros j sc Hj; apply (Hl j sc); set_solver).
  destruct (st_scopes st !! i) as [sc|] eqn:Hi; simpl; [|auto].
  destruct (Hl i sc ltac:(set_solver) Hi) as [_ Hd].
  unfold getDecoratedValue. fold k. rewrite Hd. auto.
Qed.

Lemma findProvision_silent pre l :
  on pre silent → findProvision (st_scopes st) (pre ++ l) ps = findProvision (st_scopes st) l ps.
Proof.
  induction pre as [|i pre IH]; intros Hpre; simpl; [done|].
  assert (on pre silent) as Hpre' by (intros j sc Hj; apply (Hpre j sc); set_solver).
  destruct (st_scopes st !! i) as [sc|] eqn:Hi; [|auto].
  destruct (Hpre i sc ltac:(set_solver) Hi) as [Hv Hp].
  unfold getValue, getValueProviders. fold k. rewrite Hv, Hp. auto.
Qed.

(** Without decorators, what [Build] does is what the search finds. *)
Lemma paramSingle_Build_undecorated :
  on (ancestors (st_scopes st) c) undecorated →
  paramSingle_Build R ps c st =
  match findProvision (st_scopes st) (ancestors (st_scopes st) c) ps with
  | Cached v => (Ret v, st)
  | Absent =>
      (if ps_Optional ps then mret (VZero (ps_Type ps))
       else sc ← getScope c; throw (errMissingTypes (newErrMissingTypes sc k))) st
  | Provided s ns =>
      (early ← callProviders R ps ns;
       match early with
       | Some v => mret v
       | None => sc ← getScope s; mret (default _noValue (getValue sc (ps_Name ps) (ps_Type ps)))
       end) st
  end.
Proof.
  intros Hund. unfold paramSingle_Build.
  assert (storesToRoot c st = (Ret (ancestors (st_scopes st) c), st)) as Hstores by done.
  rewrite (bind_step _ _ st None st).
  - rewrite (bind_step _ _ st _ st Hstores), (bind_step getS _ st st st eq_refl).
    rewrite firstDecorated_none by done. by destruct (findProvision _ _ _).
  - unfold buildWithDecorators.
    rewrite (bind_step _ _ st _ st Hstores), (bind_step getS _ st st st eq_refl).
    by rewrite findDecorator_none.
Qed.
End resolve.

#[export] Instance undecorated_dec ps sc : Decision (undecorated ps sc).
Proof. unfold undecorated. apply _. Defined.
#[export] Instance silent_dec ps sc : Decision (silent ps sc).
Proof. unfold silent. apply _. Defined.

(** [on], decided. *)
Lemma on_forallb st l P `{!∀ sc, Decision (P sc)} :
  forallb (λ i, match st_scopes st !! i with
                | Some sc => bool_decide (P sc)
                | None => true
                end) l = true → on st l P.
Proof.
  rewrite forallb_forall. intros Hl i sc Hi Hsc. specialize (Hl i (proj1 (list_elem_of_In _ _) Hi)).
  rewrite Hsc in Hl. by apply bool_decide_eq_true in Hl.
Qed.

(** The nearest scope wins.  Without decorators for a value, a parameter whose
    value is cached in a scope on the way to the root gets that value, unchanged
    and without any call, if no scope closer to it holds or provides the value. *)
Theorem paramSingle_nearest `{E : Env} R ps c st pre s post sc v :
  ancestors (st_scopes st) c = pre ++ s :: post →
  on st (pre ++ s :: post) (undecorated ps) → on st pre (silent ps) →
  st_scopes st !! s = Some sc → values sc !! valueKey (ps_Name ps) (ps_Type ps) = Some v →
  paramSingle_Build R ps c st = (Ret v, st).
Proof.
  intros Hanc Hund Hpre Hsc Hv. rewrite paramSingle_Build_undecorated by (by rewrite Hanc).
  rewrite Hanc, findProvision_silent by done. simpl. rewrite Hsc. unfold getValue. by rewrite Hv.
Qed.

(** A value nobody provides.  Without decorators, cached values or providers up
    to the root, an optional parameter gets the zero value of its type and a
    required one the error [errMissingTypes] for its key; nothing is called. *)
Theorem paramSingle_absent `{E : Env} R ps c st sc :
  st_scopes st !! c = Some sc →
  on st (ancestors (st_scopes st) c) (undecorated ps) →
  on st (ancestors (st_scopes st) c) (silent ps) →
  paramSingle_Build R ps c st =
  (if ps_Optional ps then Ret (VZero (ps_Type ps))
   else Err (errMissingTypes (newErrMissingTypes sc (valueKey (ps_Name ps) (ps_Type ps)))), st).
Proof.
  intros Hsc Hund Hsil. rewrite paramSingle_Build_undecorated by done.
  rewrite <- (app_nil_r (ancestors _ _)), findProvision_silent by done. simpl.
  destruct (ps_Optional ps); [done|].
  unfold getScope, mbind, SM_bind. simpl. by rewrite Hsc.
Qed.
