(* ===== verification/Provide.v ===== *)
(** * Provide (provide.go, and [newConstructorNode] of constructor.go)

    The validation of the options and of the results of a constructor, and the
    registration of a constructor in a scope: snapshot, new node,
    providers, cycle check in every affected scope, rollback on error. *)

From S2P Require Import Prelude Digraph GoLib GoTypes DigReflect Errors Group InOut.
From S2P Require Import Values DotTypes Result Store Options Param.

Open Scope string_scope.
Open Scope list_scope.

Definition backquote : ascii := "`".

Section validate.
Context `{TT : TypeTable}.

(** The loop of [Validate] over [As]. *)
Fixpoint validateAs (As : list iface) : outcome () :=
  match As with
  | [] => Ret ()
  | i :: As' =>
      match TypeOf i with
      | None => fail "invalid dig.As(nil): argument must be a pointer to an interface"
      | Some t =>
          if decide (Kind t ≠ Ptr) then
            fail ("invalid dig.As(" +:+ TypeString t +:+
                  "): argument must be a pointer to an interface")
          else
            pointingTo ← or_panic "reflect: Elem of invalid type" (Elem t);
            if decide (Kind pointingTo ≠ Interface) then
              fail ("invalid dig.As(*" +:+ TypeString pointingTo +:+
                    "): argument must be a pointer to an interface")
            else validateAs As'
      end
  end.

Definition Validate (o : provideOptions) : outcome () :=
  if bool_decide (po_Group o ≠ "") && bool_decide (po_Name o ≠ "") then
    fail ("cannot use named values with value groups: name:" +:+ Quote (po_Name o) +:+
          " provided with group:" +:+ Quote (po_Group o))
  else if ContainsRune (po_Name o) backquote then
    fail ("invalid dig.Name(" +:+ Quote (po_Name o) +:+
          "): names cannot contain backquotes")
  else if ContainsRune (po_Group o) backquote then
    fail ("invalid dig.Group(" +:+ Quote (po_Group o) +:+
          "): group names cannot contain backquotes")
  else validateAs (po_As o).
End validate.

(** ** The keys a constructor provides *)

(** The state the copies of a [connectionVisitor] share; the visitor itself is the
    path to the current result. *)
Record cvState := mkCV { cv_err : option error; cv_keyPaths : gmap key string }.

Section connection.
Context `{TT : TypeTable}.
(** The providers a key has in the scope, as printed locations. *)
Context (provided : key → list string).

(** [checkKey]: the path is recorded in any case. *)
Definition checkKey (k : key) (path : string) (st : cvState) : option error * cvState :=
  let st' := mkCV (cv_err st) (<[k := path]> (cv_keyPaths st)) in
  let cannot reason :=
    Some (newErrInvalidInput ("cannot provide " +:+ key_String k +:+ " from " +:+ path)
            (Some (newErrInvalidInput ("already provided by " +:+ reason) None))) in
  match cv_keyPaths st !! k with
  | Some conflict => (cannot conflict, st')
  | None =>
      match provided k with
      | [] => (None, st')
      | locs => (cannot (Join "; " locs), st')
      end
  end.

(** The keys of a single result, one after the other, up to the first error. *)
Fixpoint checkKeys (ks : list key) (path : string) (st : cvState) : option error * cvState :=
  match ks with
  | [] => (None, st)
  | k :: ks' =>
      match checkKey k path st with
      | (Some err, st') => (Some err, st')
      | (None, st') => checkKeys ks' path st'
      end
  end.

(** [connectionVisitor.Visit]. *)
Definition cvVisit (cv : list string) (res : result) (st : cvState)
    : option (list string) * cvState :=
  match cv_err st with
  | Some _ => (None, st)
  | None =>
      let path := Join "." cv in
      match res with
      | resultSingle name t asTypes =>
          match checkKeys (valueKey name <$> t :: asTypes) path st with
          | (Some err, st') => (None, mkCV (Some err) (cv_keyPaths st'))
          | (None, st') => (Some cv, st')
          end
      | resultGrouped group t _ asTypes =>
          (Some cv, mkCV None (foldl (λ m k, <[k := path]> m) (cv_keyPaths st)
                                     (groupKey group <$> t :: asTypes)))
      | _ => (Some cv, st)
      end
  end.

Definition cvField (cv : list string) (f : resultObjectField) : option (list string) :=
  Some (cv ++ [rof_FieldName f]).

Definition cvPosition (cv : list string) (i : nat) : option (list string) :=
  Some (cv ++ ["[" +:+ Itoa i +:+ "]"]).

(** [findAndValidateResults]. *)
Definition findAndValidateResults (rl : resultList) : outcome (gset key) :=
  let st := walkResult cvVisit cvField cvPosition (resultList_ rl) [] (mkCV None ∅) in
  match cv_err st with
  | Some err => Err err
  | None => Ret (dom (cv_keyPaths st))
  end.
End connection.

(** The locations of the providers of a key in one scope. *)
Definition providerLocations (st : store) (s : nat) (k : key) : list string :=
  match st_scopes st !! s with
  | Some sc =>
      map (λ n, match st_ctors st !! n with
                | Some cn => OptFunc_Format false (cn_location cn)
                | None => ""
                end) (getProviders sc k)
  | None => []
  end.

(** ** Registration *)

Section provide.
Context `{E : Env}.

Record constructorOptions := mkConstructorOptions {
  co_ResultName : string;
  co_ResultGroup : string;
  co_ResultAs : list iface;
  co_Location : option Func;
  co_Callback : option positive;
  co_BeforeCallback : option positive
}.

Definition newConstructorNode (ctor : funcval) (s origS : nat)
    (opts : constructorOptions) : M nat :=
  params ← newParamList (fv_type ctor) s;
  results ← liftO (newResultList (fv_type ctor)
              (mkResultOptions (co_ResultName opts) (co_ResultGroup opts) (co_ResultAs opts)));
  let location := match co_Location opts with
                  | Some l => Some l
                  | None => InspectFunc ctor
                  end in
  orders ← newOrders;
  st ← getS;
  let n := length (st_ctors st) in
  _ ← modifyS (upd_ctors (λ l, l ++ [
        mkConstructorNode ctor location (fv_ptr ctor) false params results orders s origS
                          (co_Callback opts) (co_BeforeCallback opts)]));
  _ ← newGraphNode s (WCtor n) orders;
  mret n.

(** The loop that adds the node to the providers of its keys. *)
Definition addProviders (s n : nat) (keys : list key) : M () :=
  forEach keys (λ k,
    modScope s (set_providers (λ m, <[k := default [] (m !! k) ++ [n]]> m))).

(** The loop over the affected scopes.  The loop variable is called [s] in the
    code, as is the scope that received the provider: what is restored when a
    cycle is found is the map of the scope the cycle was found in. *)
Definition verifyScopes (oldProviders : list (key * list nat)) (allScopes : list nat)
    : M () :=
  forEach allScopes (λ s,
    _ ← modScope s (set_isVerifiedAcyclic false);
    sc ← getScope s;
    if deferAcyclicVerification sc then mret ()
    else
      r ← checkAcyclic s;
      match r with
      | None => modScope s (set_isVerifiedAcyclic true)
      | Some cycle =>
          _ ← forEach oldProviders (λ ko, modScope s (set_providers <[ko.1 := ko.2]>));
          st ← getS;
          throw (newErrInvalidInput "this function introduces a cycle"
                   (Some (cycleDetectedError st s cycle)))
      end).

(** The body of [provide] after the snapshots. *)
Definition provideBody (ctor : funcval) (opts : provideOptions) (s origScope : nat)
    (allScopes : list nat) : M () :=
  n ← newConstructorNode ctor s origScope
        (mkConstructorOptions (po_Name opts) (po_Group opts) (po_As opts)
           (po_Location opts) (po_Callback opts) (po_BeforeCallback opts));
  cn ← getCtor n;
  st ← getS;
  keys ← liftO (findAndValidateResults (providerLocations st s) (cn_resultList cn));
  if decide (keys = ∅) then
    failM (TypeString (fv_type ctor) +:+ " must provide at least one non-error type")
  else
    sc ← getScope s;
    let oldProviders := (λ k, (k, getProviders sc k)) <$> elements keys in
    _ ← addProviders s n (elements keys);
    _ ← verifyScopes oldProviders allScopes;
    _ ← modScope s (set_nodes (λ l, l ++ [n]));
    match po_Info opts with
    | None => mret ()
    | Some p =>
        modifyS (upd_infos <[p := ProvideInfo (cn_id cn)
          (inputsOf (paramList_DotParam (cn_paramList cn)))
          (outputsOf (DotResult (resultList_ (cn_resultList cn))))]>)
    end.

(** [Scope.provide]: on a returned error the graphs go back to the snapshot. *)
Definition provide (s0 : nat) (ctor : funcval) (opts : provideOptions) : M () :=
  st ← getS;
  let s := if po_Exported opts then rootScope (st_scopes st) s0 else s0 in
  let allScopes := subscopes (st_scopes st) s in
  _ ← forEach allScopes (λ sc, modScope sc (set_gh Snapshot));
  observe (provideBody ctor opts s s0 allScopes) (λ r,
    match r with
    | Err err =>
        _ ← forEach allScopes (λ sc, modScope sc (set_gh Rollback));
        throw err
    | _ => liftO r
    end).

(** How a value prints under [%v]. *)
Definition iface_repr (i : iface) : string :=
  match i with
  | INil => "<nil>"
  | IType t => TypeString t
  | IFunc _ => ""
  | IOther _ r => r
  end.

(** [Scope.Provide]. *)
Definition Provide (s : nat) (constructor : iface) (opts : list ProvideOption) : M () :=
  match TypeOf constructor with
  | None => failM "can't provide an untyped nil"
  | Some ctype =>
      match constructor with
      | IFunc ctor =>
          if decide (Kind ctype ≠ FuncKind) then
            failM ("must provide constructor function, got " +:+ iface_repr constructor +:+
                   " (type " +:+ TypeString ctype +:+ ")")
          else
            let options := foldl (λ p o, applyProvideOption o p) noProvideOptions opts in
            _ ← liftO (Validate options);
            wrapErr (errProvide (match po_Location options with
                                 | Some l => Some l
                                 | None => InspectFunc ctor
                                 end))
                    (provide s ctor options)
      | _ =>
          failM ("must provide constructor function, got " +:+ iface_repr constructor +:+
                 " (type " +:+ TypeString ctype +:+ ")")
      end
  end.
End provide.
