(* ===== verification/Decorate.v ===== *)
(** * Decorate (decorate.go)

    The registration of a decorator.  Its results name the keys it decorates;
    each key of a scope has at most one decorator. *)

From S2P Require Import Prelude Digraph GoLib GoTypes DigReflect Errors Group InOut.
From S2P Require Import Values DotTypes Result Store Options Param.

Open Scope string_scope.
Open Scope list_scope.

Section decorate.
Context `{E : Env}.

(** [newDecoratorNode].  The decorator must be a function: the reflect calls
    panic on anything else. *)
Definition newDecoratorNode (dcor : iface) (s : nat) (opts : decorateOptions) : M nat :=
  match dcor with
  | IFunc f =>
      pl ← newParamList (fv_type f) s;
      rl ← liftO (newResultList (fv_type f) (mkResultOptions "" "" []));
      st ← getS;
      _ ← modifyS (upd_dcors (λ l, l ++ [
            mkDecoratorNode f (fv_ptr f) (InspectFunc f) decoratorReady pl rl s
                            (do_Callback opts) (do_BeforeCallback opts)]));
      mret (length (st_dcors st))
  | _ => panic "reflect: call of reflect.Value.Pointer on a value that is not a function"
  end.

(** The loop over the keys: the keys before a conflict stay decorated. *)
Definition addDecorators (s d : nat) (dtype : rtype) (keys : list key) : M () :=
  forEach keys (λ k,
    sc ← getScope s;
    match decorators sc !! k with
    | Some _ =>
        failM ("cannot decorate using function " +:+ TypeString dtype +:+ ": " +:+
               key_String k +:+ " already decorated")
    | None => modScope s (set_decorators <[k := d]>)
    end).

(** [Scope.Decorate]. *)
Definition Decorate (s : nat) (decorator : iface) (opts : list DecorateOption) : M () :=
  let options := foldl (λ p o, applyDecorateOption o p) noDecorateOptions opts in
  d ← newDecoratorNode decorator s options;
  dn ← getDcor d;
  keys ← liftO (findResultKeys (dn_results dn));
  _ ← addDecorators s d (fv_type (dn_dcor dn)) keys;
  match do_Info options with
  | None => mret ()
  | Some p =>
      modifyS (upd_infos <[p := DecorateInfo (dn_id dn)
        (inputsOf (paramList_DotParam (dn_params dn)))
        (outputsOf (DotResult (resultList_ (dn_results dn))))]>)
  end.
End decorate.
