(* ===== verification/ProvideProofs.v ===== *)
(** * What Provide guarantees (provide.go)

    Which result lists the connection visitor accepts; that a rejected
    constructor leaves no trace in the registrations of the container; what a
    successful registration adds. *)

From S2P Require Import Prelude Digraph GoLib GoTypes DigReflect Errors Group InOut.
From S2P Require Import Values DotTypes Result Store Scenario Param Call ResultProofs.
From S2P Require Import Options Deps Building ParamProofs Provide.

Open Scope string_scope.
Open Scope list_scope.

(** ** The connection visitor *)

(** The value-group keys a result provides. *)
Fixpoint group_keys (r : result) : list key :=
  match r with
  | resultSingle _ _ _ => []
  | resultGrouped group t _ asTypes => groupKey group <$> t :: asTypes
  | resultObject _ fs => concat (map (λ f, group_keys (rof_Result f)) fs)
  | resultList_ rl => concat (map group_keys (rl_Results rl))
  end.

Section connection.
Context `{TT : TypeTable} (provided : key → list string).

(** What visiting results with value keys [vk] and group keys [gk] does. *)
Definition visited (vk gk : list key) (st st' : cvState) : Prop :=
  match cv_err st with
  | Some _ => st' = st
  | None =>
      match cv_err st' with
      | None =>
          (∀ k, k ∈ dom (cv_keyPaths st') ↔ k ∈ dom (cv_keyPaths st) ∨ k ∈ vk ∨ k ∈ gk) ∧
          NoDup vk ∧ ∀ k, k ∈ vk → provided k = [] ∧ k ∉ dom (cv_keyPaths st)
      | Some _ =>
          ¬ (NoDup vk ∧ ∀ k, k ∈ vk → provided k = [] ∧ k ∉ dom (cv_keyPaths st) ∧ k ∉ gk)
      end
  end.

Lemma visited_nil st : visited [] [] st st.
Proof.
  unfold visited. destruct (cv_err st); [done|].
  split; [set_solver|split; [constructor|set_solver]].
Qed.

Lemma visited_app vk1 gk1 vk2 gk2 st st1 st2 :
  visited vk1 gk1 st st1 → visited vk2 gk2 st1 st2 →
  visited (vk1 ++ vk2) (gk1 ++ gk2) st st2.
Proof.
  unfold visited. destruct (cv_err st) as [e|] eqn:He.
  { intros ->. by rewrite He. }
  destruct (cv_err st1) as [e1|] eqn:He1.
  - intros H1 ->. rewrite He1. intros [Hnd Hk]. apply H1.
    apply NoDup_app in Hnd as (Hnd & _ & _). split; [done|]. set_solver.
  - intros (Hdom1 & Hnd1 & Hk1). destruct (cv_err st2) as [e2|].
    + intros H2 [Hnd Hk]. apply H2. apply NoDup_app in Hnd as (_ & Hdis & Hnd2).
      split; [done|]. intros k Hk2.
      destruct (Hk k) as (? & ? & ?); [set_solver|]. split; [done|]. rewrite Hdom1. set_solver.
    + intros (Hdom2 & Hnd2 & Hk2). split; [|split].
      * intros k. rewrite Hdom2, Hdom1. set_solver.
      * apply NoDup_app. split; [done|]. split; [|done]. intros k H1 H2.
        destruct (Hk2 k H2) as [_ Hn]. rewrite Hdom1 in Hn. set_solver.
      * intros k [Hk|Hk]%elem_of_app; [by apply Hk1|].
        destruct (Hk2 k Hk) as [? Hn]. rewrite Hdom1 in Hn. set_solver.
Qed.

Lemma checkKeys_visited ks path st :
  cv_err st = None →
  match checkKeys provided ks path st with
  | (None, st') => visited ks [] st st'
  | (Some err, st') => visited ks [] st (mkCV (Some err) (cv_keyPaths st'))
  end.
Proof.
  revert st; induction ks as [|k ks IH]; intros st Herr; simpl; [apply visited_nil|].
  assert (∀ err p, cv_keyPaths st !! k ≠ None ∨ provided k ≠ [] →
            visited (k :: ks) [] st (mkCV (Some err) p)) as Hbad.
  { intros err p Hk. unfold visited. rewrite Herr. simpl. intros [_ Hall].
    destruct (Hall k) as (? & Hn & _); [set_solver|].
    apply not_elem_of_dom in Hn. naive_solver. }
  unfold checkKey. destruct (cv_keyPaths st !! k) eqn:Hl; [by apply Hbad; left|].
  destruct (provided k) as [|l ls] eqn:Hp; [|by apply Hbad; right].
  specialize (IH (mkCV (cv_err st) (<[k:=path]> (cv_keyPaths st))) Herr).
  assert (visited [k] [] st (mkCV (cv_err st) (<[k:=path]> (cv_keyPaths st)))) as H1.
  { unfold visited. rewrite Herr. simpl. split; [|split].
    - intros k'. rewrite dom_insert. set_solver.
    - apply NoDup_singleton.
    - intros k' ->%list_elem_of_singleton. split; [done|]. by apply not_elem_of_dom. }
  destruct (checkKeys _ _ _ _) as [[err|] st'];
    exact (visited_app [k] [] ks [] _ _ _ H1 IH).
Qed.

Lemma group_visited gs path st :
  cv_err st = None →
  visited [] gs st (mkCV None (foldl (λ m k, <[k := path]> m) (cv_keyPaths st) gs)).
Proof.
  intros Herr. unfold visited. rewrite Herr. simpl. split; [|split; [constructor|set_solver]].
  generalize (cv_keyPaths st) as m. induction gs as [|g gs IH]; intros m k; simpl; [set_solver|].
  rewrite IH, dom_insert. set_solver.
Qed.

Lemma walkResult_visited r cv st :
  visited (value_keys r) (group_keys r) st
          (walkResult (cvVisit provided) cvField cvPosition r cv st).
Proof.
  revert cv st; induction r as [n t asTypes|g t fl asTypes|t fs IH|rl IH] using result_ind';
    intros cv st; destruct (cv_err st) as [e|] eqn:Herr.
  1, 3, 5, 7: by simpl; unfold cvVisit; rewrite Herr; unfold visited; rewrite Herr.
  - simpl. unfold cvVisit. rewrite Herr.
    pose proof (checkKeys_visited (valueKey n <$> t :: asTypes) (Join "." cv) st Herr) as H.
    by destruct (checkKeys _ _ _ _) as [[err|] st'].
  - simpl. unfold cvVisit. rewrite Herr. by apply group_visited.
  - simpl. unfold cvVisit at 1. rewrite Herr. clear Herr. revert st.
    induction fs as [|f fs IHfs]; intros st; simpl; [apply visited_nil|].
    inversion IH as [|? ? Hf Hfs]; subst.
    eapply visited_app; [apply (Hf (cv ++ [rof_FieldName f]))|]. by apply IHfs.
  - simpl. unfold cvVisit at 1. rewrite Herr. clear Herr. destruct rl as [ct rs idxs].
    simpl in *. generalize 0 as i. revert st.
    induction rs as [|r rs IHrs]; intros st i; simpl; [apply visited_nil|].
    inversion IH as [|? ? Hr Hrs]; subst.
    eapply visited_app; [apply (Hr (cv ++ ["[" +:+ Itoa i +:+ "]"]))|]. by apply IHrs.
Qed.
End connection.

Lemma findAndValidateResults_ok `{TT : TypeTable} provided rl :
  match findAndValidateResults provided rl with
  | Ret keys =>
      (∀ k, k ∈ keys ↔ k ∈ value_keys (resultList_ rl) ∨ k ∈ group_keys (resultList_ rl)) ∧
      NoDup (value_keys (resultList_ rl)) ∧
      ∀ k, k ∈ value_keys (resultList_ rl) → provided k = []
  | Err _ =>
      ¬ (NoDup (value_keys (resultList_ rl)) ∧
         ∀ k, k ∈ value_keys (resultList_ rl) →
              provided k = [] ∧ k ∉ group_keys (resultList_ rl))
  | _ => False
  end.
Proof.
  unfold findAndValidateResults.
  pose proof (walkResult_visited provided (resultList_ rl) [] (mkCV None ∅)) as H.
  unfold visited in H. simpl cv_err in H at 1. cbv iota beta in H.
  destruct (cv_err (walkResult _ _ _ _ _ _)) as [err|].
  - intros [Hnd Hk]. apply H. split; [done|]. intros k Hin.
    destruct (Hk k Hin). split; [done|]. simpl. set_solver.
  - destruct H as (Hdom & Hnd & Hk). split; [|split; [done|]].
    + intros k. rewrite Hdom. simpl. set_solver.
    + intros k Hin. by apply Hk.
Qed.

(** C22: [findAndValidateResults] accepts a result list only if no two of its values
    share a key and none of its value keys is already provided in the scope, and
    then returns exactly the keys of its values and value groups; it rejects a
    list only if two values share a key, or a value key is already provided or
    is also the key of a value group of the list. *)
Theorem findAndValidateResults_spec `{TT : TypeTable} provided rl :
  match findAndValidateResults provided rl with
  | Ret keys =>
      (∀ k, k ∈ keys ↔ k ∈ value_keys (resultList_ rl) ∨ k ∈ group_keys (resultList_ rl)) ∧
      NoDup (value_keys (resultList_ rl)) ∧
      ∀ k, k ∈ value_keys (resultList_ rl) → provided k = []
  | Err _ =>
      ¬ (NoDup (value_keys (resultList_ rl)) ∧
         ∀ k, k ∈ value_keys (resultList_ rl) →
              provided k = [] ∧ k ∉ group_keys (resultList_ rl))
  | _ => False
  end.
Proof. apply findAndValidateResults_ok. Qed.

(** ** The options *)

(** An argument of [dig.As]: a pointer to an interface. *)
Definition asInterface `{TypeTable} (i : iface) : Prop :=
  ∃ t el, TypeOf i = Some t ∧ Kind t = Ptr ∧ Elem t = Some el ∧ Kind el = Interface.

Lemma validateAs_spec `{TypeTable} l : validateAs l = Ret () ↔ Forall asInterface l.
Proof.
  induction l as [|i l IH]; simpl; [done|]. rewrite Forall_cons, <- IH. unfold asInterface.
  destruct (TypeOf i) as [t|]; [|split; [done|naive_solver]].
  case_decide as Hk; [split; [done|naive_solver]|].
  destruct (Elem t) as [el|] eqn:Hel; simpl; [|split; [done|naive_solver]].
  case_decide as Hi; [split; [done|naive_solver]|]. split; [|naive_solver].
  intros ?. split; [|done]. exists t, el. done.
Qed.

(** The options of [Provide] are accepted exactly when they do not combine a
    name with a group, neither contains a backquote, and every argument of
    [dig.As] is a pointer to an interface. *)
Theorem Validate_spec `{TypeTable} o :
  Validate o = Ret () ↔
  (po_Group o = "" ∨ po_Name o = "") ∧
  ContainsRune (po_Name o) backquote = false ∧ ContainsRune (po_Group o) backquote = false ∧
  Forall asInterface (po_As o).
Proof.
  rewrite <- validateAs_spec. unfold Validate.
  destruct (bool_decide (po_Group o ≠ "") && bool_decide (po_Name o ≠ "")) eqn:Hgn.
  - apply andb_true_iff in Hgn as [Hg Hn]. apply bool_decide_eq_true in Hg, Hn.
    split; [done|naive_solver].
  - assert (po_Group o = "" ∨ po_Name o = "") as Hor.
    { apply andb_false_iff in Hgn as [Hg|Hn]; [left|right];
        by apply bool_decide_eq_false, dec_stable in Hg || apply bool_decide_eq_false, dec_stable in Hn. }
    destruct (ContainsRune (po_Name o) backquote); [naive_solver|].
    destruct (ContainsRune (po_Group o) backquote); naive_solver.
Qed.

(** ** Errors leave the registrations alone *)

Lemma findAndValidateResults_calm `{TypeTable} locs rl : calm (findAndValidateResults locs rl).
Proof. unfold findAndValidateResults. by destruct (cv_err _). Qed.

Lemma Validate_calm `{TypeTable} o : calm (Validate o).
Proof.
  unfold Validate. destruct (_ && _); [done|]. do 2 (destruct (ContainsRune _ _); [done|]).
  induction (po_As o) as [|i l IH]; simpl; [done|].
  destruct (TypeOf i); [|done]. case_decide; [done|]. apply bind_calm; [apply or_panic_calm|].
  intros t _. by case_decide.
Qed.

Lemma bind_Err {S A B} (m : SM S A) (f : A → SM S B) s e s' :
  (m ≫= f) s = (Err e, s') ↔
  m s = (Err e, s') ∨ ∃ a s1, m s = (Ret a, s1) ∧ f a s1 = (Err e, s').
Proof. unfold mbind, SM_bind. destruct (m s) as [[a|e'|p|] s1]; naive_solver. Qed.

(** What may be seen of a scope by looking things up in it, and what of its graph
    comes before the snapshot. *)
Record same_view (sc sc' : Scope) : Prop := {
  view_providers : ∀ k, getProviders sc' k = getProviders sc k;
  view_decorators : decorators sc' = decorators sc;
  view_nodes : nodes sc' = nodes sc;
  view_values : values sc' = values sc;
  view_groups : groups sc' = groups sc;
  view_decoratedValues : decoratedValues sc' = decoratedValues sc;
  view_decoratedGroups : decoratedGroups sc' = decoratedGroups sc;
  view_defer : deferAcyclicVerification sc' = deferAcyclicVerification sc;
  view_parent : parentScope sc' = parentScope sc;
  view_children : childScopes sc' = childScopes sc
}.

#[export] Instance same_view_preorder : PreOrder same_view.
Proof.
  split; [by intros sc; split|].
  intros a b c [] []. split; intros; etrans; eauto.
Qed.

(** The graph has grown, the snapshot has not moved. *)
Definition gh_grew (g g' : graphHolder) : Prop :=
  gh_snap g' = gh_snap g ∧ ∃ ext, gh_nodes g' = gh_nodes g ++ ext.

#[export] Instance gh_grew_preorder : PreOrder gh_grew.
Proof.
  split; [by intros g; split; [|exists []; rewrite app_nil_r]|].
  intros a b c [? [e1 H1]] [? [e2 H2]]. split; [congruence|].
  exists (e1 ++ e2). by rewrite H2, H1, app_assoc.
Qed.

(** Only the graph of scope [s] has grown, up to restored providers. *)
Definition grew (s : nat) (st st' : store) : Prop :=
  (∀ i, i ≠ s → st_scopes st' !! i = st_scopes st !! i) ∧
  ∀ sc, st_scopes st !! s = Some sc →
    ∃ sc', st_scopes st' !! s = Some sc' ∧ same_view sc sc' ∧ gh_grew (gh sc) (gh sc').

#[export] Instance grew_preorder s : PreOrder (grew s).
Proof.
  split.
  - intros st. split; [done|]. intros sc Hsc. exists sc. split; [done|]. by split.
  - intros a b c [H1 H2] [H3 H4]. split; [intros i Hi; rewrite H3 by done; auto|].
    intros sc Hsc. destruct (H2 sc Hsc) as (sc1 & Hsc1 & ? & ?).
    destruct (H4 sc1 Hsc1) as (sc2 & Hsc2 & ? & ?). exists sc2.
    split; [done|]. split; by etransitivity.
Qed.

#[export] Hint Resolve grew_preorder : dig.

(** A step of the code that only touches scope [s]. *)
Lemma grew_alter s f st :
  (∀ sc, st_scopes st !! s = Some sc → same_view sc (f sc) ∧ gh_grew (gh sc) (gh (f sc))) →
  grew s st (upd_scopes (alter f s) st).
Proof.
  intros Hf. split; simpl.
  - intros i Hi. by rewrite list_lookup_alter_ne.
  - intros sc Hsc. exists (f sc). rewrite list_lookup_alter_eq, Hsc. split; [done|]. auto.
Qed.

Section childless.
Context `{E : Env} (s : nat).

(** A scope without children, which is where a new node stays. *)
Definition childless (st : store) : Prop :=
  ∃ sc, st_scopes st !! s = Some sc ∧ childScopes sc = [].

Lemma childless_grew st st' : childless st → grew s st st' → childless st'.
Proof.
  intros (sc & Hsc & Hch) [_ H]. destruct (H sc Hsc) as (sc' & Hsc' & Hv & _).
  exists sc'. split; [done|]. by rewrite (view_children _ _ Hv).
Qed.
Hint Resolve childless_grew : core.

Lemma runs_grew_newGraphNode w o st :
  childless st → runs (grew s) True (newGraphNode s w o) st.
Proof.
  intros (sc & Hsc & Hch). unfold newGraphNode. read. simpl.
  run_step; [apply runs_getScope; apply _|]. apply getScope_Ret in Hrun as [-> Hsc'].
  assert (a = sc) as -> by congruence. run_step.
  { apply runs_modifyS, grew_alter. intros sc' ?. assert (sc' = sc) as -> by congruence.
    destruct sc; simpl. by split; [split|split; [|eexists]]. }
  run_step; [apply runs_modifyS; by split; [|intros sc' ?; exists sc'; split; [|split]]|].
  rewrite Hch. apply runs_mret. apply _.
Qed.

Lemma grew_scopes_eq st st' : st_scopes st' = st_scopes st → grew s st st'.
Proof.
  intros H. unfold grew. rewrite H. split; [done|].
  intros sc Hsc. exists sc. split; [done|]. split; reflexivity.
Qed.

Lemma runs_grew_newOrders st : runs (grew s) True newOrders st.
Proof.
  unfold newOrders. run_step; [auto with dig|].
  run_step; [by apply runs_modifyS, grew_scopes_eq|auto with dig].
Qed.

Lemma runs_grew_newConstructorNode ctor origS opts st :
  childless st → runs (grew s) True (newConstructorNode ctor s origS opts) st.
Proof.
  intros Hch. unfold newConstructorNode. run_step.
  { apply (newParamList_runs s (grew s) True childless); eauto using runs_grew_newOrders.
    intros. by apply runs_grew_newGraphNode. }
  run_step; [apply runs_liftO; [apply _|by intros]|]. run_step; [apply runs_grew_newOrders|].
  run_step; [auto with dig|]. run_step; [by apply runs_modifyS, grew_scopes_eq|].
  run_step; [|auto with dig]. apply runs_grew_newGraphNode.
  injection Hrun1 as <- <-. eauto.
Qed.
End childless.

(** *** Providers added and restored *)

(** A loop that changes one scope again and again. *)
Lemma forEach_modScope {A} (l : list A) s (f : A → Scope → Scope) st :
  forEach l (λ x, modScope s (f x)) st =
  (Ret (), upd_scopes (alter (λ sc, foldl (λ sc x, f x sc) sc l) s) st).
Proof.
  revert st; induction l as [|x l IH]; intros st.
  - rewrite forEach_nil. unfold upd_scopes. destruct st; simpl.
    by rewrite list_alter_id.
  - rewrite forEach_cons. unfold mbind, SM_bind, modScope, modifyS at 1.
    rewrite IH. unfold upd_scopes. simpl. by rewrite list_alter_alter_eq.
Qed.

(** The scope after the keys [ks] got the provider [n], and after they went back to
    what they had. *)
Definition withProvider (n : nat) (ks : list key) (sc : Scope) : Scope :=
  foldl (λ sc k, set_providers (λ m, <[k := default [] (m !! k) ++ [n]]> m) sc) sc ks.
Definition withoutProvider (old : list (key * list nat)) (sc : Scope) : Scope :=
  foldl (λ sc ko, set_providers <[ko.1 := ko.2]> sc) sc old.

Lemma restored_view n (ks : list key) sc :
  let sc' := withoutProvider ((λ k, (k, getProviders sc k)) <$> ks)
               (set_isVerifiedAcyclic false (withProvider n ks sc)) in
  same_view sc sc' ∧ gh sc' = gh sc.
Proof.
  assert (∀ {A} (l : list A) (g : A → gmap key (list nat) → gmap key (list nat)) sc,
    foldl (λ sc x, set_providers (g x) sc) sc l =
    set_providers (λ m, foldl (λ m x, g x m) m l) sc) as Hfold.
  { intros A l g. induction l as [|x l IH]; intros [] ; simpl; [done|]. by rewrite IH. }
  unfold withoutProvider, withProvider. rewrite (Hfold _ ks), (Hfold _ _ (λ ko, <[ko.1 := ko.2]>)).
  destruct sc as [nm pv dc nd dv vs gr dg rd iv df rc inv g pa ch ck]. simpl. split; [|done].
  split; try done. intros k. unfold getProviders. simpl.
  assert (∀ (l : list key) (m : gmap key (list nat)), k ∉ l → foldl (λ m x, <[x := default [] (m !! x) ++ [n]]> m) m l !! k
            = m !! k) as Hadd.
  { induction l as [|x l IH]; intros m Hk; simpl; [done|].
    rewrite IH by set_solver. by rewrite lookup_insert_ne by set_solver. }
  assert (∀ (l : list key) (m : gmap key (list nat)),
    foldl (λ m ko, <[ko.1 := ko.2]> m) m ((λ k, (k, default [] (pv !! k))) <$> l) !! k =
    if decide (k ∈ l) then Some (default [] (pv !! k)) else m !! k) as Hres.
  { induction l as [|x l IH]; intros m; [by rewrite decide_False by set_solver|].
    rewrite fmap_cons. cbn [foldl fst snd]. rewrite IH. destruct (decide (k ∈ l)); [by rewrite decide_True by set_solver|].
    destruct (decide (k = x)) as [->|Hne].
    - by rewrite lookup_insert_eq, decide_True by set_solver.
    - rewrite lookup_insert_ne, decide_False by set_solver. done. }
  rewrite Hres. destruct (decide (k ∈ ks)); [done|]. by rewrite Hadd.
Qed.

(** *** The body of [provide] *)

Section provide.
Context `{E : Env}.

Lemma orPanic_Err {S A} msg (o : option A) (s : S) e s' : orPanic msg o s ≠ (Err e, s').
Proof. by destruct o. Qed.

Lemma getScope_Err i st e st' : getScope i st ≠ (Err e, st').
Proof. unfold getScope. rewrite bind_Err. intros [[=]|(? & ? & _ & H)]. by apply orPanic_Err in H. Qed.
Lemma getCtor_Err i st e st' : getCtor i st ≠ (Err e, st').
Proof. unfold getCtor. rewrite bind_Err. intros [[=]|(? & ? & _ & H)]. by apply orPanic_Err in H. Qed.

Lemma checkAcyclic_still s st : (checkAcyclic s st).2 = st.
Proof. unfold checkAcyclic, mbind, SM_bind. simpl. by destruct (IsAcyclic _) as [[[]]| |]. Qed.

Lemma checkAcyclic_Err s st e st' : checkAcyclic s st ≠ (Err e, st').
Proof. unfold checkAcyclic, mbind, SM_bind. simpl. by destruct (IsAcyclic _) as [[[]]| |]. Qed.

(** The one scope is checked: an error means its providers were restored. *)
Lemma verifyScopes_Err old s st e st' :
  verifyScopes old [s] st = (Err e, st') →
  st_scopes st' = alter (λ sc, withoutProvider old (set_isVerifiedAcyclic false sc)) s
                        (st_scopes st).
Proof.
  unfold verifyScopes. rewrite forEach_cons, forEach_nil, bind_Err.
  intros [H|(? & ? & _ & [=])].
  apply bind_Err in H as [[=]|([] & s1 & [= <-] & H)].
  apply bind_Err in H as [H|(sc & s2 & H2 & H)]; [by apply getScope_Err in H|].
  apply getScope_Ret in H2 as [-> _]. destruct (deferAcyclicVerification sc); [done|].
  apply bind_Err in H as [H|([cycle|] & s3 & H3 & H)]; [by apply checkAcyclic_Err in H| |done].
  pose proof (checkAcyclic_still s (upd_scopes (alter (set_isVerifiedAcyclic false) s) st)) as Hs.
  rewrite H3 in Hs. simpl in Hs. subst s3.
  pose proof (forEach_modScope old s (λ ko, set_providers <[ko.1 := ko.2]>)) as Hloop.
  apply bind_Err in H as [H|([] & s4 & H4 & H)]; [by rewrite Hloop in H|].
  rewrite Hloop in H4. injection H4 as <-.
  apply bind_Err in H as [[=]|(? & s5 & [= <- <-] & [= <- <-])]. simpl.
  by rewrite list_alter_alter_eq.
Qed.

Lemma provideBody_Err ctor opts s s0 st e st' :
  childless s st → provideBody ctor opts s s0 [s] st = (Err e, st') → grew s st st'.
Proof.
  intros Hch. unfold provideBody, failM. rewrite bind_Err.
  match goal with |- context [newConstructorNode ctor s s0 ?o] =>
    destruct (runs_grew_newConstructorNode s ctor s0 o st Hch) as [_ Hg] end.
  intros [H|(n & s1 & H1 & H)]; [by rewrite H in Hg|]. rewrite H1 in Hg. simpl in Hg.
  apply bind_Err in H as [H|(cn & s2 & H2 & H)]; [by apply getCtor_Err in H|].
  apply getCtor_Ret in H2 as [-> _].
  apply bind_Err in H as [[=]|(? & ? & [= <- <-] & H)].
  apply bind_Err in H as [[= _ <-]|(keys & s3 & [= _ <-] & H)]; [done|].
  case_decide; [by injection H as _ <-|].
  apply bind_Err in H as [H|(sc & s4 & H4 & H)]; [by apply getScope_Err in H|].
  apply getScope_Ret in H4 as [-> Hsc].
  pose proof (forEach_modScope (elements keys) s
                (λ k, set_providers (λ m, <[k := default [] (m !! k) ++ [n]]> m)) s1) as Hadd.
  apply bind_Err in H as [H|([] & s5 & H5 & H)]; [unfold addProviders in H; by rewrite Hadd in H|].
  unfold addProviders in H5. rewrite Hadd in H5. injection H5 as <-. clear Hadd.
  apply bind_Err in H as [H|(? & s6 & _ & H)].
  - apply verifyScopes_Err in H. etransitivity; [exact Hg|].
    destruct (restored_view n (elements keys) sc) as [Hv Hgh]. simpl in H.
    rewrite list_alter_alter_eq in H. split.
    + intros i Hi. by rewrite H, list_lookup_alter_ne.
    + intros sc0 Hsc0. assert (sc0 = sc) as -> by congruence.
      eexists. rewrite H, list_lookup_alter_eq, Hsc. split; [done|]. split; [done|].
      simpl in Hgh |- *. unfold withProvider in Hgh. rewrite Hgh. reflexivity.
  - apply bind_Err in H as [[=]|(? & s7 & _ & H)]. by destruct (po_Info opts).
Qed.

Lemma providerLocations_nil st s sc k :
  st_scopes st !! s = Some sc → providerLocations st s k = [] → getProviders sc k = [].
Proof. unfold providerLocations. intros ->. by destruct (getProviders sc k). Qed.

(** The scope that receives the constructor. *)
Definition provideTarget (st : store) (s : nat) (opts : list ProvideOption) : nat :=
  if po_Exported (foldl (λ p o, applyProvideOption o p) noProvideOptions opts)
  then rootScope (st_scopes st) s else s.

Lemma subscopes_childless st s : childless s st → subscopes (st_scopes st) s = [s].
Proof.
  intros (sc & Hsc & Hch). unfold subscopes.
  destruct (length (st_scopes st)) as [|n] eqn:Hl.
  - apply lookup_lt_Some in Hsc. lia.
  - simpl. by rewrite Hsc, Hch.
Qed.

(** What an error of [provide] leaves of a scope. *)
Definition untouched (st st' : store) : Prop :=
  ∀ i sc, st_scopes st !! i = Some sc →
    ∃ sc', st_scopes st' !! i = Some sc' ∧ same_view sc sc' ∧ gh_nodes (gh sc') = gh_nodes (gh sc).

Lemma provide_Err s0 ctor opts st e st' :
  let s := if po_Exported opts then rootScope (st_scopes st) s0 else s0 in
  childless s st → provide s0 ctor opts st = (Err e, st') → untouched st st'.
Proof.
  intros s Hch. unfold provide. rewrite bind_Err. intros [[=]|(? & ? & [= <- <-] & H)].
  fold s in H. rewrite (subscopes_childless _ _ Hch) in H. cbv zeta in H.
  pose proof (forEach_modScope [s] s (λ _, set_gh Snapshot)) as Hsnap.
  destruct Hch as (sc & Hsc & Hch).
  apply bind_Err in H as [[=]|([] & s1 & [= <-] & H)]. clear Hsnap. unfold observe in H.
  set (st1 := upd_scopes (alter (set_gh Snapshot) s) st) in H.
  assert (st_scopes st1 !! s = Some (set_gh Snapshot sc)) as Hsc1.
  { simpl. by rewrite list_lookup_alter_eq, Hsc. }
  destruct (provideBody _ _ _ _ _ _) as [[?|err|?|] s2] eqn:Hb; try done.
  apply provideBody_Err in Hb as [Hother Hs];
    [|exists (set_gh Snapshot sc); split; [done|by destruct sc]].
  apply bind_Err in H as [[=]|([] & s3 & [= <-] & [= _ <-])].
  destruct (Hs _ Hsc1) as (sc2 & Hsc2 & Hv & Hsnap & ext & Hext).
  intros i sci Hi. simpl. destruct (decide (i = s)) as [->|Hne].
  - assert (sci = sc) as -> by congruence. rewrite list_lookup_alter_eq, Hsc2.
    exists (set_gh Rollback sc2). split; [done|]. split.
    + etransitivity; [|etransitivity; [exact Hv|]]; [by destruct sc|by destruct sc2].
    + destruct sc, sc2; simpl in *. unfold Rollback. rewrite Hsnap, Hext. simpl.
      rewrite decide_False by lia. simpl. by rewrite Nat2Z.id, take_app_length.
  - exists sci. rewrite list_lookup_alter_ne by done. rewrite Hother by done.
    simpl. rewrite list_lookup_alter_ne by done. split; [done|]. split; [reflexivity|done].
Qed.

Lemma Provide_untouched s constructor opts st e st' :
  childless (provideTarget st s opts) st →
  Provide s constructor opts st = (Err e, st') →
  untouched st st'.
Proof.
  intros Hch. unfold provideTarget in Hch. unfold Provide, failM.
  assert (untouched st st) as Hrefl.
  { intros i sc Hi. exists sc. split; [done|]. split; [reflexivity|done]. }
  destruct (TypeOf constructor) as [t|]; [|by intros [= _ <-]].
  destruct constructor as [|t'|f|t' r]; try (by intros [= _ <-]).
  case_decide; [by intros [= _ <-]|]. cbv zeta. rewrite bind_Err.
  intros [[= _ <-]|([] & s1 & [= _ <-] & Hw)]; [done|].
  unfold wrapErr in Hw. destruct (provide _ _ _ _) as [[?|err|?|] s2] eqn:Hp; try done.
  injection Hw as _ <-. by eapply provide_Err.
Qed.
End provide.


(** ** A successful registration leaves an acyclic graph *)

(** What the dependency graph of a scope is computed from. *)
Definition graph_part (sc : Scope) : gmap key (list nat) * option nat * graphHolder :=
  (providers sc, parentScope sc, gh sc).

Record agree (a b : store) : Prop := {
  agree_scopes : graph_part <$> st_scopes b = graph_part <$> st_scopes a;
  agree_ctors : st_ctors b = st_ctors a;
  agree_orders : st_orders b = st_orders a
}.

#[export] Instance agree_preorder : PreOrder agree.
Proof. split; [by intros a|]. intros a b c [] []. split; congruence. Qed.

Lemma agree_alter s f st :
  (∀ sc, graph_part (f sc) = graph_part sc) → agree st (upd_scopes (alter f s) st).
Proof. intros Hf. split; [|done..]. simpl. by apply fmap_alter_same. Qed.

Section agree.
Context `{TT : TypeTable}.

Lemma agree_lookup a b i : agree a b →
  match st_scopes b !! i, st_scopes a !! i with
  | Some sb, Some sa =>
      providers sb = providers sa ∧ parentScope sb = parentScope sa ∧ gh sb = gh sa
  | None, None => True
  | _, _ => False
  end.
Proof.
  intros H. pose proof (f_equal (lookup i) (agree_scopes _ _ H)) as Hi.
  rewrite !list_lookup_fmap in Hi.
  destruct (st_scopes b !! i), (st_scopes a !! i); try done. by injection Hi.
Qed.

Lemma agree_ancestors a b fuel s : agree a b →
  ancestors_from (st_scopes b) fuel s = ancestors_from (st_scopes a) fuel s.
Proof.
  intros H. revert s; induction fuel as [|fuel IH]; intros [s|]; simpl; try done.
  pose proof (agree_lookup a b s H) as Hs.
  destruct (st_scopes b !! s) as [sb|], (st_scopes a !! s) as [sa|]; try done.
  destruct Hs as (_ & -> & _). by rewrite IH.
Qed.

Lemma agree_getAllProviders a b s k : agree a b →
  getAllProviders (st_scopes b) s k = getAllProviders (st_scopes a) s k.
Proof.
  intros H. unfold getAllProviders, ancestors. rewrite (agree_ancestors a b _ _ H). f_equal.
  apply map_ext. intros i. pose proof (agree_lookup a b i H) as Hi.
  destruct (st_scopes b !! i) as [sb|], (st_scopes a !! i) as [sa|]; try done.
  unfold getProviders. by destruct Hi as (-> & _).
Qed.

Lemma agree_order a b s n : agree a b → ctorOrder b s n = ctorOrder a s n.
Proof. intros [_ Hc Ho]. unfold ctorOrder, orderIn. by rewrite Hc, Ho. Qed.

Lemma agree_edges a b s u : agree a b → EdgesFrom_gh b s u = EdgesFrom_gh a s u.
Proof.
  intros H. unfold EdgesFrom_gh. pose proof (agree_lookup a b s H) as Hs.
  destruct (st_scopes b !! s) as [sb|], (st_scopes a !! s) as [sa|]; try done.
  destruct Hs as (_ & _ & Hgh). simpl. rewrite Hgh.
  destruct (gh_nodes (gh sa) !! u) as [[n|pt]|]; simpl; [|..|done].
  - rewrite (agree_ctors _ _ H). destruct (st_ctors a !! n) as [cn|]; simpl; [|done].
    do 2 f_equal. apply map_ext. intros p.
    induction p as [ps|pt|t fs IH] using param_ind'; simpl.
    + unfold getAllValueProviders. rewrite (agree_getAllProviders a b _ _ H).
      apply list_fmap_ext. intros. by apply agree_order.
    + unfold orderIn. by rewrite (agree_orders _ _ H).
    + f_equal. by apply Forall_fmap_ext_1.
  - destruct (Elem (pt_Type pt)) as [el|]; simpl; [|done]. f_equal.
    unfold getAllGroupProviders. rewrite (agree_getAllProviders a b _ _ H).
    apply list_fmap_ext. intros. by apply agree_order.
Qed.

Lemma agree_IsAcyclic a b s : agree a b → IsAcyclic (scopeGraph b s) = IsAcyclic (scopeGraph a s).
Proof.
  intros H. apply IsAcyclic_ext; simpl; [|intros; by apply agree_edges].
  pose proof (agree_lookup a b s H) as Hs.
  destruct (st_scopes b !! s) as [sb|], (st_scopes a !! s) as [sa|]; try done.
  by destruct Hs as (_ & _ & ->).
Qed.
End agree.

Section verified.
Context `{E : Env}.

(** The check of a scope that does not defer it has passed. *)
Definition checked (st : store) (x : nat) : Prop :=
  ∀ sc, st_scopes st !! x = Some sc → deferAcyclicVerification sc = false →
        ∃ c, IsAcyclic (scopeGraph st x) = Done (true, c).

(** The flags [deferAcyclicVerification] never change. *)
Definition same_defer (a b : store) : Prop :=
  deferAcyclicVerification <$> st_scopes b = deferAcyclicVerification <$> st_scopes a.

Lemma checked_agree a b x : agree a b → same_defer a b → checked a x → checked b x.
Proof.
  intros Hag Hd Hx sc Hsc Hdef. rewrite (agree_IsAcyclic a b x Hag).
  apply (f_equal (lookup x)) in Hd. rewrite !list_lookup_fmap, Hsc in Hd.
  destruct (st_scopes a !! x) as [sa|] eqn:Hsa; [|done]. simpl in Hd.
  apply (Hx sa); [done|]. congruence.
Qed.

Lemma same_defer_alter s f st :
  (∀ sc, deferAcyclicVerification (f sc) = deferAcyclicVerification sc) →
  same_defer st (upd_scopes (alter f s) st).
Proof. intros Hf. unfold same_defer. simpl. by apply fmap_alter_same. Qed.

Lemma verifyScopes_Ret old l a b :
  verifyScopes old l a = (Ret (), b) →
  agree a b ∧ same_defer a b ∧ ∀ x, x ∈ l → checked b x.
Proof.
  revert a; induction l as [|s l IH]; intros a; unfold verifyScopes.
  { intros [= <-]. split; [reflexivity|]. split; [done|set_solver]. }
  rewrite forEach_cons, bind_Ret. intros ([] & s1 & H1 & Hl). apply IH in Hl as (Ha1 & Hd1 & Hl).
  assert (∀ v st, agree st (upd_scopes (alter (set_isVerifiedAcyclic v) s) st) ∧
                  same_defer st (upd_scopes (alter (set_isVerifiedAcyclic v) s) st)) as Hset.
  { intros v st. split; [apply agree_alter|apply same_defer_alter]; by intros []. }
  apply bind_Ret in H1 as ([] & s2 & [= <-] & H1).
  destruct (Hset false a) as [Ha2 Hd2]. revert H1 Ha2 Hd2.
  set (a' := upd_scopes (alter (set_isVerifiedAcyclic false) s) a). intros H1 Ha2 Hd2.
  apply bind_Ret in H1 as (sc & s3 & H3 & H1). apply getScope_Ret in H3 as [-> Hsc].
  assert (agree a' s1 ∧ same_defer a' s1 ∧ checked s1 s) as (Ha3 & Hd3 & Hs).
  { destruct (deferAcyclicVerification sc) eqn:Hdef.
    - injection H1 as <-. split; [reflexivity|]. split; [done|].
      intros sc' Hsc' Hdef'. congruence.
    - apply bind_Ret in H1 as (r & s4 & H4 & H1).
      pose proof (checkAcyclic_still s a') as Hst. rewrite H4 in Hst. simpl in Hst. subst s4.
      destruct r as [c|].
      + apply bind_Ret in H1 as ([] & s5 & _ & H1). by apply bind_Ret in H1 as (? & ? & _ & [=]).
      + injection H1 as <-. destruct (Hset true a') as [Ha4 Hd4]. split; [done|]. split; [done|].
        apply (checked_agree a'); [done..|]. intros _ _ _. unfold checkAcyclic in H4.
        unfold mbind, SM_bind in H4. simpl in H4.
        destruct (IsAcyclic (scopeGraph a' s)) as [[[|] c]| |]; try done. by exists c. }
  split; [by repeat (etransitivity; [eassumption|])|].
  split; [unfold same_defer in *; congruence|].
  intros y [->|Hy]%elem_of_cons; [|by apply Hl]. by apply (checked_agree s1).
Qed.

Lemma provideBody_Ret ctor opts s s0 l st st' :
  provideBody ctor opts s s0 l st = (Ret (), st') → ∀ x, x ∈ l → checked st' x.
Proof.
  unfold provideBody, failM. rewrite bind_Ret. intros (n & s1 & _ & H).
  apply bind_Ret in H as (cn & s2 & _ & H). apply bind_Ret in H as (? & s3 & _ & H).
  apply bind_Ret in H as (keys & s4 & _ & H). case_decide; [done|].
  apply bind_Ret in H as (sc & s5 & _ & H). apply bind_Ret in H as ([] & s6 & _ & H).
  apply bind_Ret in H as ([] & s7 & Hv & H). apply verifyScopes_Ret in Hv as (_ & _ & Hl).
  apply bind_Ret in H as ([] & s8 & [= <-] & H). intros y Hy.
  assert (checked (upd_scopes (alter (set_nodes (λ l, l ++ [n])) s) s7) y) as Hc.
  { apply (checked_agree s7); [apply agree_alter|apply same_defer_alter|auto]; by intros []. }
  destruct (po_Info opts); injection H as <-; [|done].
  apply (checked_agree (upd_scopes (alter (set_nodes (λ l, l ++ [n])) s) s7)); [by split|done|done].
Qed.

Lemma Provide_checked s constructor opts st st' :
  Provide s constructor opts st = (Ret (), st') →
  ∀ x, x ∈ subscopes (st_scopes st) (provideTarget st s opts) → checked st' x.
Proof.
  unfold Provide, failM, provideTarget. destruct (TypeOf constructor) as [t|]; [|done].
  destruct constructor as [|t'|f|t' r]; try done. case_decide; [done|]. cbv zeta.
  rewrite bind_Ret. intros (? & s1 & [= _ <-] & Hw).
  unfold wrapErr in Hw. destruct (provide _ _ _ _) as [[[]|err|?|] s2] eqn:Hp; try done.
  injection Hw as <-. unfold provide in Hp.
  apply bind_Ret in Hp as (? & s3 & [= <- <-] & Hp). apply bind_Ret in Hp as ([] & s4 & _ & Hp).
  unfold observe in Hp. destruct (provideBody _ _ _ _ _ _) as [[[]|?|?|] s5] eqn:Hb; try done.
  - injection Hp as <-. by eapply provideBody_Ret.
  - by apply bind_Ret in Hp as (? & ? & _ & [=]).
Qed.
End verified.

(** A successful [Provide] leaves no cycle behind.  In every scope the new
    constructor is visible from (the receiving scope and all scopes below it)
    whose cycle check is not deferred, the dependency graph after the call is
    acyclic. *)
Theorem Provide_acyclic `{E : Env} s constructor opts st st' x sc :
  Provide s constructor opts st = (Ret (), st') →
  x ∈ subscopes (st_scopes st) (provideTarget st s opts) →
  st_scopes st' !! x = Some sc → deferAcyclicVerification sc = false →
  wf_graph (scopeGraph st' x) → acyclic (scopeGraph st' x).
Proof.
  intros Hp Hx Hsc Hd Hwf. destruct (Provide_checked _ _ _ _ _ Hp x Hx sc Hsc Hd) as [c Hc].
  destruct (IsAcyclic_total _ Hwf) as (b & c' & Hr & Hb). rewrite Hc in Hr.
  injection Hr as <- <-. destruct Hb as [_ Hb]. by apply reaches_fin_acyclic.
Qed.

Section provide_example.
#[local] Existing Instance plainEnv.

(** A container with [func(A) B]; then [func(B) A] closes a cycle. *)
Definition beforeCycle : store := (Provide 0 (fn 41 1) [] (New [] emptyStore).2).2.


Lemma Provide_acyclic_witness :
  (Provide 0 (fn 40 2) [] beforeCycle).1 = Ret () ∧
  acyclic (scopeGraph (Provide 0 (fn 40 2) [] beforeCycle).2 0).
Proof.
  assert ((Provide 0 (fn 40 2) [] beforeCycle).1 = Ret ()) as Hr by (vm_compute; reflexivity).
  split; [exact Hr|].
  apply (Provide_acyclic 0 (fn 40 2) [] beforeCycle _ 0
           (default blankScope (st_scopes (Provide 0 (fn 40 2) [] beforeCycle).2 !! 0))).
  - rewrite <- Hr. apply surjective_pairing.
  - vm_compute. left.
  - vm_compute. reflexivity.
  - vm_compute. reflexivity.
  - apply wf_graphb_sound. vm_compute. reflexivity.
Defined.
End provide_example.
