(* ===== verification/Invoke.v ===== *)
(** * Invoke (invoke.go) *)

From S2P Require Import Prelude Digraph GoLib GoTypes DigReflect Errors Group InOut.
From S2P Require Import Values DotTypes Result Store Options Param Call Provide.

Open Scope string_scope.
Open Scope list_scope.

Section invoke.
Context `{E : Env}.

(** The part of [Invoke] a deferred [recover] protects: the introspection
    record, the call, and the error the function returned. *)
Definition invokeBody (s : nat) (f : funcval) (pl : paramList) (args : list value)
    (opts : list InvokeOption) : M () :=
  let options := foldl (λ p o, applyInvokeOption o p) (mkInvokeOptions None) opts in
  _ ← (match io_Info options with
       | None => mret ()
       | Some p => modifyS (upd_infos <[p := InvokeInfo (inputsOf (paramList_DotParam pl))]>)
       end);
  sc ← getScope s;
  returned ← invoke_with (sc_invokerFn sc) ByInvoke f args;
  match last returned with
  | None => mret ()
  | Some v =>
      t ← orPanic "reflect: call of reflect.Value.Type on zero Value" (value_Type v);
      if isError t then
        match value_error v with
        | Some err => throw err
        | None => mret ()
        end
      else mret ()
  end.

(** The cycle check before the first invocation. *)
Definition verifyAcyclic (s : nat) : M () :=
  sc ← getScope s;
  if isVerifiedAcyclic sc then mret ()
  else
    r ← checkAcyclic s;
    match r with
    | Some cycle =>
        st ← getS;
        throw (newErrInvalidInput "cycle detected in dependency graph"
                 (Some (cycleDetectedError st s cycle)))
    | None => modScope s (set_isVerifiedAcyclic true)
    end.

(** [Scope.Invoke]; [fuel] bounds the depth of nested calls. *)
Definition Invoke (fuel : nat) (s : nat) (function : iface) (opts : list InvokeOption)
    : M () :=
  match TypeOf function with
  | None => failM "can't invoke an untyped nil"
  | Some ftype =>
      match function with
      | IFunc f =>
          if decide (Kind ftype ≠ FuncKind) then
            failM ("can't invoke non-function " +:+ iface_repr function +:+
                   " (type " +:+ TypeString ftype +:+ ")")
          else
            pl ← newParamList ftype s;
            _ ← wrapErr (errMissingDependencies (InspectFunc f))
                        (shallowCheckDependencies s pl);
            _ ← verifyAcyclic s;
            args ← wrapErr (errArgumentsFailed (InspectFunc f))
                           (BuildList (knot fuel) pl s);
            sc ← getScope s;
            deferRecover (recoverFromPanics sc) (InspectFunc f)
                         (invokeBody s f pl args opts)
      | _ =>
          failM ("can't invoke non-function " +:+ iface_repr function +:+
                 " (type " +:+ TypeString ftype +:+ ")")
      end
  end.
End invoke.
