(* ===== verification/Container.v ===== *)
(** * Containers (container.go, provide.go, decorate.go, invoke.go)

    A [Container] holds its root scope, and its methods are those of this scope. *)

From S2P Require Import Prelude Digraph GoLib GoTypes DigReflect Errors Group InOut.
From S2P Require Import Values DotTypes Result Store Options Param Call Provide Decorate Invoke.

Open Scope string_scope.
Open Scope list_scope.

(** [type Container struct]: the root scope. *)
Record Container := mkContainer { c_scope : nat }.

Section container.
Context `{E : Env}.

Definition Container_Provide (c : Container) (constructor : iface) (opts : list ProvideOption) : M () :=
  Provide (c_scope c) constructor opts.

Definition Container_Decorate (c : Container) (decorator : iface) (opts : list DecorateOption) : M () :=
  Decorate (c_scope c) decorator opts.

Definition Container_Invoke (fuel : nat) (c : Container) (function : iface)
    (opts : list InvokeOption) : M () :=
  Invoke fuel (c_scope c) function opts.

Definition Container_Scope (c : Container) (name : string) : M nat := Scope_Scope (c_scope c) name.
End container.
