(* ===== verification/Fuel.v ===== *)
(** * The bound on nested calls does not matter

    [knot] and [Invoke] carry a bound on nested calls.  A run that does not
    exhaust its bound is the same run under every larger bound: the bound only
    decides whether the model gives an answer, never which one. *)

From S2P Require Import Prelude Digraph GoLib GoTypes DigReflect Errors Group InOut.
From S2P Require Import Values DotTypes Result Store Param Call Provide Invoke.

Open Scope string_scope.
Open Scope list_scope.

(** ** One computation gives every answer of another *)

Section refines.
Context {S : Type}.

Definition refines {A} (m m' : SM S A) : Prop := ∀ s, (m s).1 = NoFuel ∨ m' s = m s.

#[export] Instance refines_preorder A : PreOrder (@refines A).
Proof.
  split; [by right|]. intros a b c Hab Hbc s.
  destruct (Hab s) as [|Hs]; [by left|]. destruct (Hbc s) as [Hn|Hn]; [left|right]; congruence.
Qed.

Lemma refines_bind {A B} (m m' : SM S A) (f f' : A → SM S B) :
  refines m m' → (∀ a, refines (f a) (f' a)) → refines (m ≫= f) (m' ≫= f').
Proof.
  intros Hm Hf s. unfold mbind, SM_bind. destruct (Hm s) as [Hn|Hn].
  - left. destruct (m s) as [[]]; done.
  - rewrite Hn. destruct (m s) as [[a|e|p|] s1]; [apply Hf|by right..].
Qed.

Lemma refines_wrapErr {A} g (m m' : SM S A) : refines m m' → refines (wrapErr g m) (wrapErr g m').
Proof.
  intros Hm s. unfold wrapErr. destruct (Hm s) as [Hn|Hn]; [left|right; by rewrite Hn].
  destruct (m s) as [[]]; done.
Qed.

Lemma refines_tryErr {A} (m m' : SM S A) : refines m m' → refines (tryErr m) (tryErr m').
Proof.
  intros Hm s. unfold tryErr. destruct (Hm s) as [Hn|Hn]; [left|right; by rewrite Hn].
  destruct (m s) as [[]]; done.
Qed.

Lemma refines_observe {A B} (m m' : SM S A) (k : outcome A → SM S B) :
  refines m m' → (∀ s, (k NoFuel s).1 = NoFuel) → refines (observe m k) (observe m' k).
Proof.
  intros Hm Hk s. unfold observe. destruct (Hm s) as [Hn|Hn]; [left|right; by rewrite Hn].
  destruct (m s) as [r s1]; simpl in *; subst r. apply Hk.
Qed.

Lemma refines_forEach {A} (l : list A) (f f' : A → SM S ()) :
  (∀ x, refines (f x) (f' x)) → refines (forEach l f) (forEach l f').
Proof.
  intros Hf. induction l as [|x l IH]; [reflexivity|]. rewrite !forEach_cons.
  by apply refines_bind.
Qed.

Lemma refines_forMap {A B} (l : list A) (f f' : A → SM S B) :
  (∀ x, refines (f x) (f' x)) → refines (forMap l f) (forMap l f').
Proof.
  intros Hf. induction l as [|x l IH]; [reflexivity|]. rewrite !forMap_cons.
  apply refines_bind; [done|]. intros y. by apply refines_bind.
Qed.
End refines.

#[local] Ltac mono :=
  repeat first
    [ assumption
    | match goal with
      | |- refines ?m ?m => reflexivity
      | |- refines (_ ≫= _) _ => apply refines_bind; [|intros ?]
      | |- refines (wrapErr _ _) _ => apply refines_wrapErr
      | |- refines (tryErr _) _ => apply refines_tryErr
      | |- refines (forEach _ _) _ => apply refines_forEach; intros ?
      | |- refines (forMap _ _) _ => apply refines_forMap; intros ?
      end
    | match goal with |- refines (match ?x with _ => _ end) _ => destruct x end ].

Section mono.
Context `{E : Env} (R R' : callees).
Context (HC : ∀ n c, refines (callC R n c) (callC R' n c)).
Context (HD : ∀ d s, refines (callD R d s) (callD R' d s)).
#[local] Hint Resolve HC HD : core.

Lemma callProviders_mono ps ns : refines (callProviders R ps ns) (callProviders R' ps ns).
Proof. induction ns as [|n ns IH]; simpl; [reflexivity|]. mono; auto. Qed.
#[local] Hint Resolve callProviders_mono : core.

Lemma paramSingle_mono ps c : refines (paramSingle_Build R ps c) (paramSingle_Build R' ps c).
Proof. unfold paramSingle_Build, buildWithDecorators. mono; auto. Qed.

Lemma paramGrouped_mono pt c :
  refines (paramGroupedSlice_Build R pt c) (paramGroupedSlice_Build R' pt c).
Proof. unfold paramGroupedSlice_Build, callGroupDecorators, callGroupProviders. mono; auto. Qed.

Definition fields_mono : list (paramObjectField * M value) →
    list (paramObjectField * M value) → Prop :=
  Forall2 (λ x y, x.1 = y.1 ∧ refines x.2 y.2).

Lemma buildFields_mono dest l l' :
  fields_mono l l' → refines (buildFields dest l) (buildFields dest l').
Proof.
  intros Hl. revert dest; induction Hl as [|[f b] [f' b'] l l' [Hf Hb] _ IH]; intros dest; simpl in *;
    [reflexivity|]. subst f'. apply refines_bind; [done|]. intros v.
  apply refines_bind; [reflexivity|]. intros d. apply IH.
Qed.

Lemma fields_mono_filter (P : paramObjectField → bool) l l' :
  fields_mono l l' → fields_mono (filter (λ fb, P fb.1) l) (filter (λ fb, P fb.1) l').
Proof.
  induction 1 as [|[f b] [f' b'] l l' [Hf Hb] _ IH]; [constructor|]. simpl in Hf. subst f'.
  rewrite !filter_cons. simpl. destruct (P f) eqn:HP.
  - by constructor.
  - done.
Qed.

Lemma param_mono p c : refines (param_Build R p c) (param_Build R' p c).
Proof.
  induction p as [ps|pt|t fs IH] using param_ind'; simpl.
  - apply paramSingle_mono.
  - apply paramGrouped_mono.
  - unfold paramObject_Build. apply buildFields_mono.
    assert (fields_mono (map (λ f, (f, param_Build R (pof_Param f) c)) fs)
                        (map (λ f, (f, param_Build R' (pof_Param f) c)) fs)) as Hfs.
    { induction IH as [|f fs Hf _ IHf]; simpl; by constructor. }
    apply Forall2_app; [by apply (fields_mono_filter (λ f, negb (isSoftGroup (pof_Param f))))|].
    by apply (fields_mono_filter (λ f, isSoftGroup (pof_Param f))).
Qed.

Lemma BuildList_mono pl c : refines (BuildList R pl c) (BuildList R' pl c).
Proof. apply refines_forMap. intros. apply param_mono. Qed.

Lemma constructorNode_Call_mono n c :
  refines (constructorNode_Call R n c) (constructorNode_Call R' n c).
Proof. unfold constructorNode_Call. mono. apply BuildList_mono. Qed.

Lemma decoratorNode_Call_mono d s :
  refines (decoratorNode_Call R d s) (decoratorNode_Call R' d s).
Proof. unfold decoratorNode_Call. mono. apply BuildList_mono. Qed.
End mono.

Section fuel.
Context `{E : Env}.

Lemma knot_mono h h' : h <= h' →
  (∀ n c, refines (callC (knot h) n c) (callC (knot h') n c)) ∧
  (∀ d s, refines (callD (knot h) d s) (callD (knot h') d s)).
Proof.
  revert h'; induction h as [|h IH]; intros h' Hle; [by split; intros; left|].
  destruct h' as [|h']; [lia|]. destruct (IH h') as [HC HD]; [lia|].
  split; intros; [by apply constructorNode_Call_mono|by apply decoratorNode_Call_mono].
Qed.

Lemma Invoke_mono h h' s function opts :
  h <= h' → refines (Invoke h s function opts) (Invoke h' s function opts).
Proof.
  intros Hle. destruct (knot_mono h h' Hle) as [HC HD]. unfold Invoke. mono.
  by apply BuildList_mono.
Qed.

Lemma Invoke_more h h' s function opts st :
  h <= h' → (Invoke h s function opts st).1 ≠ NoFuel →
  Invoke h' s function opts st = Invoke h s function opts st.
Proof.
  intros Hle Hn. destruct (Invoke_mono h h' s function opts Hle st) as [H|H]; [contradiction|exact H].
Qed.

(** Two bounds that both give an answer give the same. *)
Lemma Invoke_agree h h' s function opts st :
  (Invoke h s function opts st).1 ≠ NoFuel → (Invoke h' s function opts st).1 ≠ NoFuel →
  Invoke h s function opts st = Invoke h' s function opts st.
Proof.
  intros H1 H2. destruct (Nat.le_ge_cases h h') as [Hle|Hle].
  - symmetry. apply (Invoke_more _ _ _ _ _ _ Hle H1).
  - apply (Invoke_more _ _ _ _ _ _ Hle H2).
Qed.
End fuel.

(** The bound of the model is not part of the behaviour: two bounds on nested calls
    under which [Invoke] gives an answer give the same answer and leave the same
    container, and every bound above one that gives an answer gives it too. *)
Theorem Invoke_fuel_irrelevant `{E : Env} h h' s function opts st :
  (Invoke h s function opts st).1 ≠ NoFuel →
  (h <= h' ∨ (Invoke h' s function opts st).1 ≠ NoFuel) →
  Invoke h' s function opts st = Invoke h s function opts st.
Proof.
  intros Hn [Hle|Hn'].
  - apply (Invoke_more _ _ _ _ _ _ Hle Hn).
  - apply (Invoke_agree _ _ _ _ _ _ Hn' Hn).
Qed.
