(* ===== verification/Invariants.v ===== *)
(** * The invariant of a container, and the operations on it end

    [wf_store]: scopes form a tree in which parents come before their children,
    and every reference from a scope or a node leads to an existing object.
    Reading the parameters of a function, registration and invocation all keep
    it, and end. *)

From S2P Require Import Prelude Digraph GoLib GoTypes DigReflect Errors Group InOut.
From S2P Require Import Values DotTypes Result Store Param Call ResultProofs Deps.
From S2P Require Import Building ParamProofs Provide Decorate Invoke.

Open Scope string_scope.
Open Scope list_scope.

(** ** The invariant *)

Record wf_store (st : store) : Prop := {
  wf_children : ∀ s sc c, st_scopes st !! s = Some sc → c ∈ childScopes sc →
    s < c ∧ ∃ cc, st_scopes st !! c = Some cc ∧ parentScope cc = Some s;
  wf_parent : ∀ s sc p, st_scopes st !! s = Some sc → parentScope sc = Some p →
    p < s ∧ ∃ pc, st_scopes st !! p = Some pc ∧ s ∈ childScopes pc;
  wf_nodup : ∀ s sc, st_scopes st !! s = Some sc → NoDup (childScopes sc);
  wf_homes : homes_ok st;
  wf_origins : ∀ n cn, st_ctors st !! n = Some cn → cn_origS cn < length (st_scopes st);
  wf_providers : ∀ s sc k n, st_scopes st !! s = Some sc → n ∈ getProviders sc k →
    n < length (st_ctors st);
  wf_nodes : ∀ s sc n, st_scopes st !! s = Some sc → n ∈ nodes sc → n < length (st_ctors st);
  wf_graph_nodes : ∀ s sc n, st_scopes st !! s = Some sc → WCtor n ∈ gh_nodes (gh sc) →
    n < length (st_ctors st);
  wf_decorators : ∀ s sc k d, st_scopes st !! s = Some sc → decorators sc !! k = Some d →
    ∃ dn, st_dcors st !! d = Some dn ∧ dn_s dn = s ∧ decorates_key (dn_results dn) k
}.

Lemma scope_same st K s sc :
  skeleton st = skeleton K → st_scopes st !! s = Some sc →
  ∃ sk, st_scopes K !! s = Some sk ∧ skel_scope sk = skel_scope sc.
Proof.
  intros Hk Hs. apply (f_equal (λ x, st_scopes x !! s)) in Hk. simpl in Hk.
  rewrite !list_lookup_fmap, Hs in Hk. destruct (st_scopes K !! s) as [sk|]; [|done].
  apply (inj Some) in Hk. by exists sk.
Qed.

Lemma ctors_length st K : skeleton st = skeleton K → length (st_ctors st) = length (st_ctors K).
Proof.
  intros Hk. apply (f_equal (λ s, length (st_ctors s))) in Hk. simpl in Hk.
  by rewrite !length_fmap in Hk.
Qed.

Lemma elem_of_ctor_nodes n g : WCtor n ∈ ctor_nodes g ↔ WCtor n ∈ gh_nodes g.
Proof. unfold ctor_nodes. rewrite list_elem_of_filter. naive_solver. Qed.

(** What the invariant looks at in a scope. *)
Lemma scope_skel st K s sc :
  skeleton st = skeleton K → st_scopes st !! s = Some sc →
  ∃ sk, st_scopes K !! s = Some sk ∧
    childScopes sk = childScopes sc ∧ parentScope sk = parentScope sc ∧
    providers sk = providers sc ∧ nodes sk = nodes sc ∧
    ctor_nodes (gh sk) = ctor_nodes (gh sc) ∧ decorators sk = decorators sc.
Proof.
  intros Hk Hs. destruct (scope_same _ _ _ _ Hk Hs) as (sk & ? & Hsame). exists sk.
  split_and!; [done|exact (f_equal childScopes Hsame)|exact (f_equal parentScope Hsame)|
    exact (f_equal providers Hsame)|exact (f_equal nodes Hsame)|
    exact (f_equal (λ s, gh_nodes (gh s)) Hsame)|exact (f_equal decorators Hsame)].
Qed.

(** The invariant only looks at the skeleton. *)
Lemma wf_skel st K : skeleton st = skeleton K → wf_store K → wf_store st.
Proof.
  intros Hk [Hc Hp Hn Hh Ho Hpr Hno Hg Hd].
  pose proof (scopes_length _ _ Hk) as Hls. pose proof (ctors_length _ _ Hk) as Hlc.
  pose proof (λ s sc, scope_skel st K s sc Hk) as Hfwd.
  pose proof (λ s sc, scope_skel K st s sc (eq_sym Hk)) as Hbwd. split.
  - intros s sc c Hs Hin. destruct (Hfwd _ _ Hs) as (sk & Hsk & Hch & _). rewrite <- Hch in Hin.
    destruct (Hc _ _ _ Hsk Hin) as (? & cc & Hcc & Hpar). split; [done|].
    destruct (Hbwd _ _ Hcc) as (c' & ? & ? & ? & _). exists c'. split; [done|congruence].
  - intros s sc p Hs Hpar. destruct (Hfwd _ _ Hs) as (sk & Hsk & _ & Hps & _).
    rewrite <- Hps in Hpar. destruct (Hp _ _ _ Hsk Hpar) as (? & pc & Hpc & Hin).
    split; [done|]. destruct (Hbwd _ _ Hpc) as (p' & ? & Hch & _). exists p'.
    split; [done|]. by rewrite Hch.
  - intros s sc Hs. destruct (Hfwd _ _ Hs) as (sk & Hsk & <- & _). eauto.
  - intros n cn Hcn. rewrite Hls. destruct (ctor_same _ _ _ _ Hk Hcn) as (ck & Hck & Hsame).
    replace (cn_s cn) with (cn_s ck) by exact (f_equal cn_s Hsame). by eapply Hh.
  - intros n cn Hcn. rewrite Hls. destruct (ctor_same _ _ _ _ Hk Hcn) as (ck & Hck & Hsame).
    replace (cn_origS cn) with (cn_origS ck) by exact (f_equal cn_origS Hsame). eauto.
  - intros s sc k n Hs Hin. destruct (Hfwd _ _ Hs) as (sk & Hsk & _ & _ & Hpv & _).
    rewrite Hlc. eapply Hpr; [done|]. unfold getProviders in *. by rewrite Hpv.
  - intros s sc n Hs Hin. destruct (Hfwd _ _ Hs) as (sk & Hsk & _ & _ & _ & Hnd & _).
    rewrite Hlc. eapply Hno; [done|]. by rewrite Hnd.
  - intros s sc n Hs Hin. destruct (Hfwd _ _ Hs) as (sk & Hsk & _ & _ & _ & _ & Hgh & _).
    rewrite Hlc. eapply Hg; [done|]. apply elem_of_ctor_nodes. rewrite Hgh.
    by apply elem_of_ctor_nodes.
  - intros s sc k d Hs Hin. destruct (Hfwd _ _ Hs) as (sk & Hsk & _ & _ & _ & _ & _ & Hdc).
    rewrite <- Hdc in Hin. destruct (Hd _ _ _ _ Hsk Hin) as (dk & Hdk & Hds & Hdec).
    destruct (dcor_same _ _ _ _ (eq_sym Hk) Hdk) as (dn & ? & Hsame). exists dn.
    split; [done|]. rewrite <- Hds. split; [exact (f_equal dn_s Hsame)|].
    by replace (dn_results dn) with (dn_results dk) by exact (f_equal dn_results (eq_sym Hsame)).
Qed.

(** ** Reading parameters *)

Section params.
Context `{E : Env} (D : node → Prop) (K : store) (HK : wf_store K).

Let kept (st : store) : Prop := skeleton st = skeleton K.
Let kept_stable s s' : kept s → eff D s s' → kept s'.
Proof. intros Hs He. unfold kept. by rewrite (eff_skel _ _ _ He). Qed.
Hint Resolve kept_stable : core.

Lemma runs_newGraphNode_ fuel s pt o st :
  kept st → length (st_scopes K) - s < fuel →
  runs (eff D) False (newGraphNode_ fuel s (WGroup pt) o) st.
Proof.
  revert s st; induction fuel as [|fuel IH]; intros s st Hk Hf; [lia|]. simpl.
  read. rename a into sc. pose proof (lookup_lt_Some _ _ _ Hrun) as Hlt.
  pose proof (wf_skel _ _ Hk HK) as Hwf. rewrite (scopes_length _ _ Hk) in Hlt.
  run_step.
  { apply runs_modifyS, eff_scopes. eapply fmap_alter_at; [done|].
    destruct sc as [??????????????? gh ??]. unfold skel_scope, ctor_nodes. simpl.
    by rewrite filter_app, app_nil_r. }
  run_step; [by apply runs_modifyS, eff_quiet|].
  apply (runs_forEach (eff D) False kept); eauto.
  intros c s2 Hc Hk2. apply IH; [done|].
  destruct (wf_children _ Hwf _ _ _ Hrun Hc) as [Hsc _]. lia.
Qed.

Lemma runs_newGraphNode s pt o st :
  kept st → runs (eff D) False (newGraphNode s (WGroup pt) o) st.
Proof.
  intros Hk. unfold newGraphNode. read. apply runs_newGraphNode_; [done|].
  rewrite (scopes_length _ _ Hk). lia.
Qed.

Lemma runs_newOrders F st : runs (eff D) F newOrders st.
Proof.
  unfold newOrders. read. run_step; [by apply runs_modifyS, eff_quiet|auto with dig].
Qed.

Lemma runs_newParamList ctype c st :
  kept st → runs (eff D) False (newParamList ctype c) st.
Proof.
  apply newParamList_runs; eauto; [apply _|intros; apply runs_newOrders|].
  intros. by apply runs_newGraphNode.
Qed.
End params.

(** ** Invoke *)

Section invoke.
Context `{E : Env}.

Lemma dep_depth_all h st x :
  0 < h → deps_bounded h st = true → dep_depth h st x = true.
Proof.
  intros Hh Hb. unfold deps_bounded in Hb. rewrite forallb_forall in Hb.
  destruct x as [n|d].
  - destruct (decide (n < length (st_ctors st))) as [Hn|Hn].
    + apply Hb, in_or_app. left. apply in_map, in_seq. lia.
    + destruct h; [lia|]. simpl. by rewrite lookup_ge_None_2 by lia.
  - destruct (decide (d < length (st_dcors st))) as [Hd|Hd].
    + apply Hb, in_or_app. right. apply in_map, in_seq. lia.
    + destruct h; [lia|]. simpl. by rewrite lookup_ge_None_2 by lia.
Qed.

Lemma runs_checkAcyclic D F s st : runs (eff D) F (checkAcyclic s) st.
Proof.
  unfold checkAcyclic. read. pose proof (IsAcyclic_ends (scopeGraph st s)).
  destruct (IsAcyclic _) as [[[] c]| |]; auto with dig. done.
Qed.

Lemma runs_verifyAcyclic D F s st : runs (eff D) F (verifyAcyclic s) st.
Proof.
  unfold verifyAcyclic. read. destruct (isVerifiedAcyclic a); [auto with dig|].
  run_step; [apply runs_checkAcyclic|]. destruct a0.
  - run_step; auto with dig.
  - apply runs_modifyS, eff_scopes, fmap_alter_same. by intros [].
Qed.

Lemma runs_invokeBody D F s f pl args opts st :
  runs (eff D) F (invokeBody s f pl args opts) st.
Proof.
  unfold invokeBody. run_step.
  { case_match; [by apply runs_modifyS, eff_quiet|auto with dig]. }
  run_step; [auto with dig|].
  run_step; [apply (runs_invoke_with (eff D)); intros; by apply eff_log|].
  destruct (last _) as [v|]; [|auto with dig]. run_step; [auto with dig|].
  destruct (isError _); [destruct (value_error v)|]; auto with dig.
Qed.

(** What one invocation does, when only nodes of [D] are reached from the
    parameters of the function. *)
Lemma Invoke_runs (D : node → Prop) h fuel s function opts st :
  wf_store st → 0 < h → h <= fuel → deps_bounded h st = true →
  (∀ t pl st1 z, TypeOf function = Some t → newParamList t s st = (Ret pl, st1) →
                 list_reach st s pl z → D z) →
  runs (eff D) False (Invoke fuel s function opts) st.
Proof.
  intros Hwf Hh Hle Hb HD. unfold Invoke, failM.
  destruct (TypeOf function) as [ftype|] eqn:Hty; [|auto with dig].
  destruct function as [|t|f|t r]; try (by auto with dig).
  case_match; [by auto with dig|].
  run_step; [by apply (runs_newParamList D st Hwf)|]. rename a into pl.
  run_step; [apply runs_wrapErr; auto with dig|].
  run_step; [apply runs_verifyAcyclic|].
  run_step.
  { apply runs_wrapErr, (runs_weaken (list_reach st s pl)); [intros z; by apply (HD ftype pl _ z eq_refl Hrun)|].
    apply (BuildList_runs st h); [apply Hwf|done| |].
    - by rewrite (eff_skel _ _ _ HR1), (eff_skel _ _ _ HR0), (eff_skel _ _ _ HR).
    - intros y _. by apply dep_depth_all. }
  run_step; [auto with dig|].
  apply runs_deferRecover; [apply _|]. apply runs_invokeBody.
Qed.
End invoke.

(** [Invoke] ends.  When no chain of dependencies between the constructors and
    decorators of a well-formed container is longer than [h], invoking a function
    never needs more than [h] nested calls: the run ends with a result, an error
    or a panic of the user's code. *)
Theorem Invoke_terminates `{E : Env} h fuel s function opts st :
  wf_store st → 0 < h → deps_bounded h st = true → h <= fuel →
  (Invoke fuel s function opts st).1 ≠ NoFuel.
Proof.
  intros Hwf Hh Hb Hle.
  destruct (Invoke_runs (λ _, True) h fuel s function opts st Hwf Hh Hle Hb) as [Hf _]; [done|].
  intros Hn. by apply Hf.
Qed.

(** Constructors run at most once.  If every constructor that has succeeded so
    far was not called again afterwards, and is marked as called, the same holds
    after [Invoke]; and no constructor that was marked as called is called. *)
Theorem Invoke_at_most_once `{E : Env} h fuel s function opts st :
  wf_store st → 0 < h → deps_bounded h st = true → h <= fuel → once st →
  let st' := (Invoke fuel s function opts st).2 in
  once st' ∧
  ∃ new, st_trace st' = st_trace st ++ new ∧
         ∀ n, called st n = true → Forall (λ ev, is_ctor_call n ev = false) new.
Proof.
  intros Hwf Hh Hb Hle Ho.
  destruct (Invoke_runs (λ _, True) h fuel s function opts st Hwf Hh Hle Hb) as [_ He]; [done|].
  split; [by apply He|]. destruct (eff_trace _ _ _ He) as (new & Ht & Hnew).
  exists new. split; [done|]. intros n Hn. eapply Forall_impl; [exact Hnew|].
  intros [cb nm|[m|d|] f args|cb nm e t]; simpl; try done.
  intros [_ Hm]. apply bool_decide_eq_false. congruence.
Qed.

(** *** Laziness, without a bound on the dependencies *)

Lemma Invoke_limited `{E : Env} (D : node → Prop) fuel s function opts st :
  wf_store st → (∀ x y, D x → y ∈ node_deps st x → D y) →
  (∀ t pl st1 z, TypeOf function = Some t → newParamList t s st = (Ret pl, st1) →
                 z ∈ list_deps st s pl → D z) →
  runs (limited D) True (Invoke fuel s function opts) st.
Proof.
  intros Hwf HD Hdeps. unfold Invoke, failM.
  assert (∀ {A} (m : M A) st, runs (eff D) True m st → runs (limited D) True m st) as Hsub.
  { intros A m s' Hm. apply (runs_sub _ _ (eff D)); [apply eff_limited|done]. }
  destruct (TypeOf function) as [ftype|] eqn:Hty; [|auto with dig].
  destruct function as [|t|f|t r]; try (by auto with dig).
  case_match; [by auto with dig|].
  run_step.
  { apply Hsub. destruct (runs_newParamList D st Hwf ftype s st) as [H1 H2]; [done|].
    split; [by intros|done]. }
  rename a into pl. run_step; [apply runs_wrapErr; auto with dig|].
  run_step; [apply Hsub, runs_verifyAcyclic|].
  destruct (knot_limited st D HD fuel) as [HC HDc]. run_step.
  { apply runs_wrapErr, (limited_BuildList st D (knot fuel) HC HDc).
    - by rewrite (limited_skel _ _ _ HR1), (limited_skel _ _ _ HR0), (limited_skel _ _ _ HR).
    - intros y Hy. by apply (Hdeps ftype pl _ y eq_refl Hrun). }
  run_step; [auto with dig|].
  apply runs_deferRecover; [apply _|]. apply Hsub, runs_invokeBody.
Qed.

(** C23: [Invoke] is lazy.  Whatever the dependencies and the bound on nested calls, and
    however it ends, it only calls constructors and decorators that the
    parameters of the function depend on, directly or through other functions,
    and it never changes what is registered: scopes, providers, decorators and
    nodes are the same afterwards. *)
Theorem Invoke_lazy `{E : Env} fuel s f opts pl st1 st :
  wf_store st → newParamList (fv_type f) s st = (Ret pl, st1) →
  let st' := (Invoke fuel s (IFunc f) opts st).2 in
  skeleton st' = skeleton st ∧
  ∃ new, st_trace st' = st_trace st ++ new ∧
    ∀ ev, ev ∈ new → match ev with
                     | EvCall (ByCtor n) _ _ => list_reach st s pl (inl n)
                     | EvCall (ByDcor d) _ _ => list_reach st s pl (inr d)
                     | _ => True
                     end.
Proof.
  intros Hwf Hpl.
  destruct (Invoke_limited (list_reach st s pl) fuel s (IFunc f) opts st Hwf) as [_ [Hk (new & Ht & Hnew)]].
  - intros x y (z & Hz & Hr) Hy. exists z. split; [done|]. eapply reach_trans; [exact Hr|].
    eapply reach_step; [done|constructor].
  - intros t pl' st1' z [= <-] Hpl' Hz. rewrite Hpl in Hpl'. injection Hpl' as <- <-.
    exists z. split; [done|constructor].
  - split; [done|]. exists new. split; [done|]. rewrite Forall_forall in Hnew. apply Hnew.
Qed.
