(* ===== verification/Reachable.v ===== *)
(** * Every operation keeps the invariant, and ends

    [New], [Scope], [Provide], [Decorate] and [Invoke] take well-formed stores to
    well-formed stores, whatever way they end; hence every store that a program
    reaches through them is well-formed.  Registration always ends. *)

From S2P Require Import Prelude Digraph GoLib GoTypes DigReflect Errors Group InOut.
From S2P Require Import Values DotTypes Result Store Scenario Param Call ResultProofs.
From S2P Require Import Options Deps Building ParamProofs CallProofs Provide Decorate.
From S2P Require Import ProvideProofs Invoke Invariants.

Open Scope string_scope.
Open Scope list_scope.

(** ** Single steps *)

(** The references of one scope lead to existing nodes. *)
Record scope_ok (st : store) (s : nat) (sc : Scope) : Prop := {
  ok_providers : ∀ k n, n ∈ getProviders sc k → n < length (st_ctors st);
  ok_nodes : ∀ n, n ∈ nodes sc → n < length (st_ctors st);
  ok_graph : ∀ n, WCtor n ∈ gh_nodes (gh sc) → n < length (st_ctors st);
  ok_decorators : ∀ k d, decorators sc !! k = Some d →
    ∃ dn, st_dcors st !! d = Some dn ∧ dn_s dn = s ∧ decorates_key (dn_results dn) k
}.

Lemma wf_scope_ok st s sc : wf_store st → st_scopes st !! s = Some sc → scope_ok st s sc.
Proof. intros [] Hs. split; eauto. Qed.

(** Changing one scope, but not its place in the tree. *)
Lemma wf_alter st s f :
  wf_store st →
  (∀ sc, st_scopes st !! s = Some sc →
     parentScope (f sc) = parentScope sc ∧ childScopes (f sc) = childScopes sc ∧
     scope_ok st s (f sc)) →
  wf_store (upd_scopes (alter f s) st).
Proof.
  intros Hwf Hf.
  assert (∀ i sc', alter f s (st_scopes st) !! i = Some sc' →
            ∃ sc, st_scopes st !! i = Some sc ∧ parentScope sc' = parentScope sc ∧
                  childScopes sc' = childScopes sc ∧ scope_ok st i sc') as Hback.
  { intros i sc'. rewrite list_lookup_alter. case_decide.
    - subst i. destruct (st_scopes st !! s) as [sc|] eqn:Hs; [|done]. intros [= <-].
      exists sc. destruct (Hf sc eq_refl) as (? & ? & ?). done.
    - intros Hi. exists sc'. split_and!; try done. by apply wf_scope_ok. }
  assert (∀ i sc, st_scopes st !! i = Some sc →
            ∃ sc', alter f s (st_scopes st) !! i = Some sc' ∧
                   parentScope sc' = parentScope sc ∧ childScopes sc' = childScopes sc) as Hfwd.
  { intros i sc Hi. rewrite list_lookup_alter. case_decide; [subst i|by exists sc].
    rewrite Hi. exists (f sc). destruct (Hf sc Hi) as (? & ? & ?). done. }
  split; simpl.
  - intros i sc' c Hi Hc. destruct (Hback _ _ Hi) as (sc & Hsc & _ & Hch & _).
    rewrite Hch in Hc. destruct (wf_children _ Hwf _ _ _ Hsc Hc) as (? & cc & Hcc & Hp).
    split; [done|]. destruct (Hfwd _ _ Hcc) as (cc' & ? & Hpp & _). exists cc'.
    split; [done|]. congruence.
  - intros i sc' p Hi Hp. destruct (Hback _ _ Hi) as (sc & Hsc & Hpp & _).
    rewrite Hpp in Hp. destruct (wf_parent _ Hwf _ _ _ Hsc Hp) as (? & pc & Hpc & Hin).
    split; [done|]. destruct (Hfwd _ _ Hpc) as (pc' & ? & _ & Hch). exists pc'.
    split; [done|]. by rewrite Hch.
  - intros i sc' Hi. destruct (Hback _ _ Hi) as (sc & Hsc & _ & -> & _). by eapply wf_nodup.
  - intros n cn Hn. simpl. rewrite length_alter. by eapply (wf_homes _ Hwf).
  - intros n cn Hn. rewrite length_alter. by eapply wf_origins.
  - intros i sc' k n Hi. destruct (Hback _ _ Hi) as (? & _ & _ & _ & Hok). by apply Hok.
  - intros i sc' n Hi. destruct (Hback _ _ Hi) as (? & _ & _ & _ & Hok). by apply Hok.
  - intros i sc' n Hi. destruct (Hback _ _ Hi) as (? & _ & _ & _ & Hok). by apply Hok.
  - intros i sc' k d Hi. destruct (Hback _ _ Hi) as (? & _ & _ & _ & Hok). by apply Hok.
Qed.

Lemma wf_add_ctor st cn :
  wf_store st → cn_s cn < length (st_scopes st) → cn_origS cn < length (st_scopes st) →
  wf_store (upd_ctors (λ l, l ++ [cn]) st).
Proof.
  intros [Hc Hp Hn Hh Ho Hpr Hno Hg Hd] Hs Ho'. split; simpl; try done.
  - intros n cn'. unfold homes_ok in Hh. intros [?|[_ [? <-]%list_lookup_singleton_Some]]%lookup_app_Some; eauto.
  - intros n cn' [?|[_ [? <-]%list_lookup_singleton_Some]]%lookup_app_Some; eauto.
  - intros s sc k n Hsc Hin. rewrite length_app. specialize (Hpr _ _ _ _ Hsc Hin). lia.
  - intros s sc n Hsc Hin. rewrite length_app. specialize (Hno _ _ _ Hsc Hin). lia.
  - intros s sc n Hsc Hin. rewrite length_app. specialize (Hg _ _ _ Hsc Hin). lia.
Qed.

Lemma wf_add_dcor st dn : wf_store st → wf_store (upd_dcors (λ l, l ++ [dn]) st).
Proof.
  intros [Hc Hp Hn Hh Ho Hpr Hno Hg Hd]. split; simpl; try done.
  intros s sc k d Hsc Hk. destruct (Hd _ _ _ _ Hsc Hk) as (dn' & Hdn & ?).
  exists dn'. split; [|done]. by apply lookup_app_l_Some.
Qed.

(** ** Registration moves the store along [grow] *)

Definition grow (a b : store) : Prop :=
  wf_store a →
  wf_store b ∧ length (st_scopes b) = length (st_scopes a) ∧
  length (st_ctors a) <= length (st_ctors b) ∧
  ∀ d dn, st_dcors a !! d = Some dn →
    ∃ dn', st_dcors b !! d = Some dn' ∧ dn_s dn' = dn_s dn ∧ dn_results dn' = dn_results dn.

#[export] Instance grow_preorder : PreOrder grow.
Proof.
  split; [intros a Ha; split_and!; eauto|].
  intros a b c Hab Hbc Ha. destruct (Hab Ha) as (Hb & Hl & Hc & Hd).
  destruct (Hbc Hb) as (Hc' & Hl' & Hc2 & Hd'). split_and!; [done|congruence|lia|].
  intros d dn Hdn. destruct (Hd _ _ Hdn) as (dn1 & H1 & ? & ?).
  destruct (Hd' _ _ H1) as (dn2 & ? & ? & ?). exists dn2. split_and!; [done|congruence..].
Qed.
#[export] Hint Resolve grow_preorder : dig.

Lemma eff_grow `{E : Env} D a b : eff D a b → grow a b.
Proof.
  intros He Ha. pose proof (eff_skel _ _ _ He) as Hk. split_and!.
  - by eapply wf_skel.
  - by apply scopes_length.
  - rewrite (ctors_length _ _ Hk). lia.
  - intros d dn Hd. destruct (dcor_same _ _ _ _ (eq_sym Hk) Hd) as (dk & ? & Hs).
    exists dk. split; [done|]. exact (conj (f_equal dn_s Hs) (f_equal dn_results Hs)).
Qed.

Lemma grow_alter s f st :
  (∀ sc, wf_store st → st_scopes st !! s = Some sc →
     parentScope (f sc) = parentScope sc ∧ childScopes (f sc) = childScopes sc ∧
     scope_ok st s (f sc)) →
  grow st (upd_scopes (alter f s) st).
Proof.
  intros Hf Hwf. split_and!; simpl; eauto; [|by rewrite length_alter].
  apply wf_alter; auto.
Qed.

(** ** Provide *)

Section registration.
Context `{E : Env}.

(** [valid s n]: the scope [s] exists, and [n] is not beyond the constructors. *)
Definition valid (s n : nat) (st : store) : Prop :=
  wf_store st ∧ s < length (st_scopes st) ∧ n <= length (st_ctors st).

Lemma valid_grow s n a b : valid s n a → grow a b → valid s n b.
Proof. intros (Hw & Hs & Hn) Hg. destruct (Hg Hw) as (? & ? & ? & _). split_and!; [done|lia|lia]. Qed.
Hint Resolve valid_grow : core.

Lemma grow_quiet a b :
  skel_scope <$> st_scopes b = skel_scope <$> st_scopes a →
  st_ctors b = st_ctors a → st_dcors b = st_dcors a → st_trace b = st_trace a → grow a b.
Proof. intros. by apply (eff_grow (λ _, True)), eff_quiet. Qed.

Lemma runs_eff_grow {A} (m : M A) st : runs (eff (λ _, True)) False m st → runs grow False m st.
Proof. apply runs_sub. intros a b. apply eff_grow. Qed.

Lemma grow_newParamList ctype c st : wf_store st → runs grow False (newParamList ctype c) st.
Proof. intros Hwf. apply runs_eff_grow. by apply (runs_newParamList _ st). Qed.

(** A constructor node enters the graph of its scope and of the scopes below. *)
Lemma grow_newGraphNode_ fuel s n o L st :
  valid 0 (S n) st → length (st_scopes st) = L → L - s < fuel →
  runs grow False (newGraphNode_ fuel s (WCtor n) o) st.
Proof.
  revert s st; induction fuel as [|fuel IH]; intros s st Hv HL Hf; [lia|]. simpl. read.
  rename a into sc. pose proof (lookup_lt_Some _ _ _ Hrun) as Hlt. destruct Hv as (Hwf & H0 & Hn).
  assert (grow st (upd_scopes (alter (set_gh (λ _, mkGraphHolder (gh_nodes (gh sc) ++ [WCtor n])
                                                     (gh_snap (gh sc)))) s) st)) as Hg.
  { apply grow_alter. intros sc' _ Hsc'. assert (sc' = sc) as -> by congruence.
    pose proof (wf_scope_ok _ _ _ Hwf Hrun) as [H1 H2 H3 H4].
    destruct sc; simpl in *. split_and!; [done..|]. split; try done.
    intros m [Hm|Hm]%elem_of_app; [by apply H3|].
    apply list_elem_of_singleton in Hm as [= ->]. lia. }
  run_step; [by apply runs_modifyS|]. injection Hrun0 as <- <-.
  run_step; [by apply runs_modifyS, grow_quiet|]. injection Hrun0 as <- <-.
  apply (runs_forEach grow False (λ st, valid 0 (S n) st ∧ length (st_scopes st) = L)).
  - intros a b [Hv Hl] Hab. split; [by eauto|]. destruct Hv as (Hw & _).
    destruct (Hab Hw) as (_ & -> & _). done.
  - split; [|simpl; by rewrite length_alter].
    destruct (Hg Hwf) as (? & ? & ? & _). split_and!; simpl in *; [|lia|done].
    eapply wf_skel; [|done]. done.
  - intros c s2 Hc [Hv2 Hl2]. apply IH; [done..|].
    destruct (wf_children _ Hwf _ _ _ Hrun Hc) as [Hsc _]. lia.
Qed.

Lemma grow_newConstructorNode ctor s origS opts st :
  valid s 0 st → origS < length (st_scopes st) →
  runs grow False (newConstructorNode ctor s origS opts) st.
Proof.
  intros Hv Ho. unfold newConstructorNode.
  run_step; [apply grow_newParamList; apply Hv|].
  assert (valid s 0 s0) as Hv0 by eauto.
  assert (origS < length (st_scopes s0)) as Ho0.
  { destruct Hv as (Hw & _). by destruct (HR Hw) as (_ & -> & _). }
  run_step; [apply runs_liftO; [apply _|]; by apply calm_ends, newResultList_calm|].
  injection Hrun0 as _ <-.
  run_step; [apply runs_eff_grow, runs_newOrders|]. injection Hrun0 as <- <-.
  read. destruct Hv0 as (Hw0 & Hs0 & _).
  assert (wf_store (upd_orders (λ l, l ++ [∅]) s0)) as Hw1 by (by eapply wf_skel; [|exact Hw0]).
  match goal with |- context [mkConstructorNode ?a ?b ?c ?d ?e ?f ?g ?h ?i ?j ?k] =>
    pose proof (wf_add_ctor _ (mkConstructorNode a b c d e f g h i j k) Hw1 Hs0 Ho0) as Hw2 end.
  run_step.
  { apply runs_modifyS. intros _. split_and!; [exact Hw2|done|simpl; rewrite length_app; lia|eauto]. }
  injection Hrun0 as <- <-. run_step; [|auto with dig]. unfold newGraphNode. read.
  eapply grow_newGraphNode_; [|done|simpl; lia].
  split_and!; [exact Hw2|simpl; lia|]. simpl. rewrite length_app. simpl. lia.
Qed.

(** Providers and nodes that exist may be added. *)
Lemma grow_addProviders s n keys st :
  valid s (S n) st → runs grow False (addProviders s n keys) st.
Proof.
  intros Hv. apply (runs_forEach grow False (valid s (S n))); eauto.
  intros k st' _ (Hw & Hs & Hn). apply runs_modifyS, grow_alter. intros sc _ Hsc.
  pose proof (wf_scope_ok _ _ _ Hw Hsc) as [H1 H2 H3 H4].
  destruct sc; simpl in *. split_and!; [done..|]. split; try done.
  unfold getProviders in *. simpl in *. intros k' m.
  destruct (decide (k = k')) as [<-|Hne]; [|rewrite lookup_insert_ne by done; by apply H1].
  rewrite lookup_insert_eq. simpl. intros [Hm|Hm]%elem_of_app; [by eapply H1|].
  apply list_elem_of_singleton in Hm as ->. lia.
Qed.

Lemma grow_set_gh s f st :
  (∀ g w, w ∈ gh_nodes (f g) → w ∈ gh_nodes g) →
  grow st (upd_scopes (alter (set_gh f) s) st).
Proof.
  intros Hf. apply grow_alter. intros sc Hw Hsc.
  pose proof (wf_scope_ok _ _ _ Hw Hsc) as [H1 H2 H3 H4].
  destruct sc; simpl in *. split_and!; [done..|]. split; try done. eauto.
Qed.

(** The check of the affected scopes, and the providers it may put back. *)
Lemma grow_verifyScopes old scs n st :
  valid 0 n st → (∀ ko m, ko ∈ old → m ∈ ko.2 → m < n) →
  runs grow False (verifyScopes old scs) st.
Proof.
  intros Hv Hold. apply (runs_forEach grow False (valid 0 n)); eauto.
  intros s st1 _ Hv1. run_step.
  { apply runs_modifyS, (eff_grow (λ _, True)), eff_scopes, fmap_alter_same. by intros []. }
  assert (valid 0 n s0) as Hv2 by eauto. clear Hrun. read.
  destruct (deferAcyclicVerification a0); [auto with dig|].
  run_step; [apply runs_eff_grow, runs_checkAcyclic|].
  assert (valid 0 n s1) as Hv3 by eauto. destruct a1 as [cycle|].
  - run_step; [|run_step; auto with dig].
    apply (runs_forEach grow False (valid 0 n)); eauto.
    intros [k ns] st2 Hk (Hw & H0 & Hn). apply runs_modifyS, grow_alter. intros sc _ Hsc.
    pose proof (wf_scope_ok _ _ _ Hw Hsc) as [H1 H2 H3 H4].
    destruct sc; simpl in *. split_and!; [done..|]. split; try done.
    unfold getProviders in *. simpl in *. intros k' m.
    destruct (decide (k = k')) as [<-|Hne]; [|rewrite lookup_insert_ne by done; by apply H1].
    rewrite lookup_insert_eq. simpl. intros Hm. specialize (Hold _ _ Hk Hm). lia.
  - apply runs_modifyS, (eff_grow (λ _, True)), eff_scopes, fmap_alter_same. by intros [].
Qed.

Lemma grow_provideBody ctor opts s s0 scs st :
  valid s 0 st → s0 < length (st_scopes st) →
  runs grow False (provideBody ctor opts s s0 scs) st.
Proof.
  intros Hv Hs0. unfold provideBody, failM. run_step; [by apply grow_newConstructorNode|].
  rename a into n. assert (valid s 0 s1) as Hv1 by eauto. clear Hrun HR. do 2 read.
  rename a into cn. pose proof (lookup_lt_Some _ _ _ Hrun) as Hn.
  run_step.
  { apply runs_liftO; [apply _|]. by apply calm_ends, findAndValidateResults_calm. }
  injection Hrun0 as _ <-. case_decide; [auto with dig|]. read.
  assert (valid s (S n) s1) as Hv2 by (destruct Hv1 as (? & ? & _); split_and!; [done|done|lia]).
  run_step; [by apply grow_addProviders|].
  assert (valid s (S n) s2) as Hv3 by eauto. destruct Hv1 as (Hw1 & _).
  run_step.
  { match goal with H : grow s1 s2 |- _ => destruct (H Hw1) as (Hw2 & Hl & Hc & _) end.
    apply (grow_verifyScopes _ _ (length (st_ctors s1))).
    - destruct Hv3 as (? & ? & ?). split_and!; [done|lia|done].
    - intros ko m Hko Hm. apply list_elem_of_fmap in Hko as (k & -> & _).
      by eapply (wf_providers _ Hw1). }
  assert (valid s (S n) s3) as Hv4 by eauto.
  run_step.
  { apply runs_modifyS, grow_alter. intros sc _ Hsc. destruct Hv4 as (Hw4 & _ & Hn4).
    pose proof (wf_scope_ok _ _ _ Hw4 Hsc) as [H1 H2 H3 H4].
    destruct sc; simpl in *. split_and!; [done..|]. split; try done. simpl.
    intros m [Hm|Hm]%elem_of_app; [by apply H2|]. apply list_elem_of_singleton in Hm as ->. lia. }
  destruct (po_Info opts); [by apply runs_modifyS, grow_quiet|auto with dig].
Qed.

Lemma rootScope_from_lt scs fuel s : s < length scs →
  (∀ i sc p, scs !! i = Some sc → parentScope sc = Some p → p < length scs) →
  rootScope_from scs fuel s < length scs.
Proof.
  intros Hs Hp. revert s Hs; induction fuel as [|fuel IH]; intros s Hs; simpl; [done|].
  destruct (scs !! s) as [sc|] eqn:Hsc; [|done].
  destruct (parentScope sc) as [p|] eqn:Hpar; [|done]. apply IH. by eapply Hp.
Qed.

Lemma wf_parent_lt st i sc p :
  wf_store st → st_scopes st !! i = Some sc → parentScope sc = Some p → p < length (st_scopes st).
Proof.
  intros Hwf Hi Hp. destruct (wf_parent _ Hwf _ _ _ Hi Hp) as [_ (pc & Hpc & _)].
  by eapply lookup_lt_Some.
Qed.

Lemma grow_Provide s constructor opts st :
  wf_store st → s < length (st_scopes st) → runs grow False (Provide s constructor opts) st.
Proof.
  intros Hwf Hs. unfold Provide, failM.
  destruct (TypeOf constructor) as [t|]; [|auto with dig].
  destruct constructor as [|t'|f|t' r]; try (by auto with dig).
  case_decide; [auto with dig|]. cbv zeta. run_step.
  { apply runs_liftO; [apply _|]. by apply calm_ends, Validate_calm. }
  injection Hrun as _ <-. apply runs_wrapErr. unfold provide. read. cbv zeta.
  match goal with |- context [subscopes _ ?t] => set (target := t) end.
  assert (valid target 0 st) as Hv.
  { split_and!; [done| |lia]. subst target. case_match; [|done].
    apply rootScope_from_lt; [done|]. intros. by eapply wf_parent_lt. }
  assert (∀ l f st, (∀ g w, w ∈ gh_nodes (f g) → w ∈ gh_nodes g) →
            runs grow False (forEach l (λ sc, modScope sc (set_gh f))) st) as Hgh.
  { intros l g st' Hg. apply (runs_forEach grow False (λ _, True)); try done.
    intros. by apply runs_modifyS, grow_set_gh. }
  run_step; [by apply Hgh|]. assert (valid target 0 s0) as Hv0 by eauto.
  apply runs_observe; [apply _| |].
  - apply grow_provideBody; [done|]. by destruct (HR1 Hwf) as (_ & -> & _).
  - intros r s' _ Hr _. destruct r as [|err| |]; try (by apply runs_liftO; [apply _|]).
    run_step; [|auto with dig]. apply Hgh. intros g w. unfold Rollback.
    case_decide; [done|]. simpl. apply subseteq_take.
Qed.
End registration.

(** ** Decorate *)

Section decorate.
Context `{E : Env}.

Definition decorates (s d : nat) (rl : resultList) (st : store) : Prop :=
  wf_store st ∧ ∃ dn, st_dcors st !! d = Some dn ∧ dn_s dn = s ∧ dn_results dn = rl.

Lemma decorates_grow s d rl a b : decorates s d rl a → grow a b → decorates s d rl b.
Proof.
  intros (Hw & dn & Hd & Hs & Hr) Hg. destruct (Hg Hw) as (? & _ & _ & Hdn).
  split; [done|]. destruct (Hdn _ _ Hd) as (dn' & ? & ? & ?). exists dn'.
  split_and!; [done|congruence..].
Qed.

Lemma grow_newDecoratorNode dcor s opts st :
  wf_store st → runs grow False (newDecoratorNode dcor s opts) st.
Proof.
  intros Hwf. destruct dcor as [|t|f|t r]; simpl; auto with dig.
  run_step; [by apply grow_newParamList|].
  run_step; [apply runs_liftO; [apply _|]; by apply calm_ends, newResultList_calm|].
  injection Hrun0 as _ <-. read. run_step; [|auto with dig]. apply runs_modifyS. intros Hw.
  split_and!; [by apply wf_add_dcor|done|done|]. intros d dn Hd. exists dn.
  split; [|done]. simpl. by apply lookup_app_l_Some.
Qed.

Lemma newDecoratorNode_Ret dcor s opts st d st' :
  newDecoratorNode dcor s opts st = (Ret d, st') →
  ∃ dn, st_dcors st' !! d = Some dn ∧ dn_s dn = s.
Proof.
  destruct dcor as [|t|f|t r]; simpl; try done. rewrite bind_Ret. intros (pl & s1 & _ & H).
  apply bind_Ret in H as (rl & s2 & _ & H). apply bind_Ret in H as (s3 & s4 & H4 & H).
  apply getS_Ret in H4 as [-> ->]. apply bind_Ret in H as ([] & s5 & [= <-] & [= <- <-]).
  eexists. simpl. rewrite lookup_app_r by done. rewrite Nat.sub_diag. by split.
Qed.

Lemma grow_Decorate s decorator opts st :
  wf_store st → runs grow False (Decorate s decorator opts) st.
Proof.
  intros Hwf. unfold Decorate, addDecorators, failM.
  run_step; [by apply grow_newDecoratorNode|]. rename a into d.
  assert (∃ dn, st_dcors s0 !! d = Some dn ∧ dn_s dn = s) as (dn0 & Hdn0 & Hs0)
    by (by eapply newDecoratorNode_Ret).
  read. assert (a = dn0) as -> by congruence. subst s.
  run_step; [apply runs_liftO; [apply _|]; by apply calm_ends, findResultKeys_calm|].
  injection Hrun1 as Hkeys <-.
  assert (decorates (dn_s dn0) d (dn_results dn0) s0) as Hd by (split; [by apply HR|by exists dn0]).
  run_step; [|case_match; [by apply runs_modifyS, grow_quiet|auto with dig]].
  apply (runs_forEach grow False (decorates (dn_s dn0) d (dn_results dn0)));
    [by intros; eapply decorates_grow|done|].
  intros k st1 Hk (Hw & dn & Hdn & Hs & Hr). read. case_match; [auto with dig|].
  assert (decorates_key (dn_results dn) k) as Hdec by (rewrite Hr; by eapply findResultKeys_decorates).
  apply runs_modifyS, grow_alter. intros sc _ Hsc.
  pose proof (wf_scope_ok _ _ _ Hw Hsc) as [H1 H2 H3 H4].
  destruct sc; simpl in *. split_and!; [done..|]. split; try done. simpl.
  intros k' d'. rewrite lookup_insert_Some. intros [[<- <-]|[_ ?]]; eauto.
Qed.
End decorate.

(** ** New and Scope *)

(** A fresh scope under an existing one, registered with its parent. *)
Definition addChild (s : nat) (child : Scope) (st : store) : store :=
  upd_scopes (λ l, alter (set_childScopes (λ c, c ++ [length l])) s l ++ [child]) st.

Lemma addChild_lookup s child st i sc' :
  st_scopes (addChild s child st) !! i = Some sc' →
  (i = length (st_scopes st) ∧ sc' = child) ∨
  ∃ sc, st_scopes st !! i = Some sc ∧ parentScope sc' = parentScope sc ∧
        providers sc' = providers sc ∧ nodes sc' = nodes sc ∧ gh sc' = gh sc ∧
        decorators sc' = decorators sc ∧
        childScopes sc' =
          childScopes sc ++ (if decide (i = s) then [length (st_scopes st)] else []).
Proof.
  simpl. intros [Hi|[Hge [Hi <-]%list_lookup_singleton_Some]]%lookup_app_Some.
  - right. rewrite list_lookup_alter in Hi. destruct (decide (s = i)) as [<-|Hne].
    + destruct (st_scopes st !! s) as [sc|] eqn:Hs; [|done]. injection Hi as <-.
      exists sc. rewrite decide_True by done. by destruct sc.
    + exists sc'. rewrite decide_False by done. by rewrite app_nil_r.
  - left. rewrite length_alter in *. split; [lia|done].
Qed.

Lemma addChild_old s child st i sc :
  st_scopes st !! i = Some sc →
  ∃ sc', st_scopes (addChild s child st) !! i = Some sc' ∧
         parentScope sc' = parentScope sc ∧
         childScopes sc' =
           childScopes sc ++ (if decide (i = s) then [length (st_scopes st)] else []).
Proof.
  intros Hi. simpl. pose proof (lookup_lt_Some _ _ _ Hi) as Hlt.
  rewrite lookup_app_l by (by rewrite length_alter). rewrite list_lookup_alter, Hi.
  destruct (decide (s = i)) as [<-|Hne].
  - exists (set_childScopes (λ c, c ++ [length (st_scopes st)]) sc).
    rewrite decide_True by done. rewrite Hi. by destruct sc.
  - exists sc. rewrite decide_False by done. by rewrite app_nil_r.
Qed.

(** The new scope hangs below [s], with nothing registered. *)
Section add_child.
Context (s : nat) (child : Scope) (st : store).

Lemma addChild_length : length (st_scopes (addChild s child st)) = S (length (st_scopes st)).
Proof. simpl. rewrite length_app, length_alter. simpl. lia. Qed.

Lemma addChild_new : st_scopes (addChild s child st) !! length (st_scopes st) = Some child.
Proof. simpl. rewrite lookup_app_r by (by rewrite length_alter). by rewrite length_alter, Nat.sub_diag. Qed.

Context (Hwf : wf_store st) (Hs : s < length (st_scopes st)).
Context (Hpar : parentScope child = Some s) (Hch : childScopes child = []).

Lemma addChild_children i sc' c :
  st_scopes (addChild s child st) !! i = Some sc' → c ∈ childScopes sc' →
  i < c ∧ ∃ cc, st_scopes (addChild s child st) !! c = Some cc ∧ parentScope cc = Some i.
Proof.
  intros Hi Hc. pose proof addChild_new as Hnew.
  destruct (addChild_lookup _ _ _ _ _ Hi) as [[-> ->]|(sc & Hsc & _ & _ & _ & _ & _ & Hch')].
  { rewrite Hch in Hc. set_solver. }
  rewrite Hch' in Hc. apply elem_of_app in Hc as [Hc|Hc].
  - destruct (wf_children _ Hwf _ _ _ Hsc Hc) as (? & cc & Hcc & Hp). split; [done|].
    destruct (addChild_old s child st _ _ Hcc) as (cc' & ? & ? & _). exists cc'.
    split; [done|congruence].
  - destruct (decide (i = s)) as [->|]; [|set_solver].
    apply list_elem_of_singleton in Hc as ->. split; [done|]. by exists child.
Qed.

Lemma addChild_parent i sc' p :
  st_scopes (addChild s child st) !! i = Some sc' → parentScope sc' = Some p →
  p < i ∧ ∃ pc, st_scopes (addChild s child st) !! p = Some pc ∧ i ∈ childScopes pc.
Proof.
  intros Hi Hp.
  destruct (addChild_lookup _ _ _ _ _ Hi) as [[-> ->]|(sc & Hsc & Hpp & _)].
  - assert (p = s) as -> by congruence. split; [done|].
    destruct (lookup_lt_is_Some_2 _ _ Hs) as [ps Hps].
    destruct (addChild_old s child st _ _ Hps) as (ps' & ? & _ & Hcs). exists ps'.
    split; [done|]. rewrite Hcs, decide_True by done. set_solver.
  - rewrite Hpp in Hp. destruct (wf_parent _ Hwf _ _ _ Hsc Hp) as (? & pc & Hpc & Hin).
    split; [done|]. destruct (addChild_old s child st _ _ Hpc) as (pc' & ? & _ & Hcs).
    exists pc'. split; [done|]. rewrite Hcs. set_solver.
Qed.

Lemma addChild_nodup i sc' :
  st_scopes (addChild s child st) !! i = Some sc' → NoDup (childScopes sc').
Proof.
  intros Hi.
  destruct (addChild_lookup _ _ _ _ _ Hi) as [[-> ->]|(sc & Hsc & _ & _ & _ & _ & _ & ->)].
  { rewrite Hch. constructor. }
  apply NoDup_app. split; [by eapply wf_nodup|].
  destruct (decide (i = s)) as [->|]; split; try (by constructor); try apply NoDup_singleton; [|set_solver].
  intros c Hc. destruct (wf_children _ Hwf _ _ _ Hsc Hc) as (_ & cc & Hcc & _).
  apply lookup_lt_Some in Hcc. rewrite list_elem_of_singleton. lia.
Qed.
End add_child.

Lemma wf_addChild s child st :
  wf_store st → s < length (st_scopes st) →
  parentScope child = Some s → childScopes child = [] → providers child = ∅ →
  nodes child = [] → decorators child = ∅ →
  (∀ n, WCtor n ∈ gh_nodes (gh child) → n < length (st_ctors st)) →
  wf_store (addChild s child st).
Proof.
  intros Hwf Hs Hpar Hch Hpv Hnd Hdc Hgh. pose proof (addChild_length s child st) as Hlen.
  split; [by apply addChild_children|by apply addChild_parent|by apply addChild_nodup|..].
  - intros n cn Hn. rewrite Hlen. pose proof (wf_homes _ Hwf n cn Hn). lia.
  - intros n cn Hn. rewrite Hlen. pose proof (wf_origins _ Hwf n cn Hn). lia.
  - intros i sc' k n Hi Hin.
    destruct (addChild_lookup _ _ _ _ _ Hi) as [[-> ->]|(sc & Hsc & _ & Hpv' & _)].
    + unfold getProviders in Hin. rewrite Hpv, lookup_empty in Hin. set_solver.
    + unfold getProviders in Hin. rewrite Hpv' in Hin. by eapply (wf_providers _ Hwf).
  - intros i sc' n Hi Hin.
    destruct (addChild_lookup _ _ _ _ _ Hi) as [[-> ->]|(sc & Hsc & _ & _ & Hnd' & _)].
    + rewrite Hnd in Hin. set_solver.
    + rewrite Hnd' in Hin. by eapply (wf_nodes _ Hwf).
  - intros i sc' n Hi Hin.
    destruct (addChild_lookup _ _ _ _ _ Hi) as [[-> ->]|(sc & Hsc & _ & _ & _ & Hgh' & _)]; [auto|].
    rewrite Hgh' in Hin. by eapply (wf_graph_nodes _ Hwf).
  - intros i sc' k d Hi Hk.
    destruct (addChild_lookup _ _ _ _ _ Hi) as [[-> ->]|(sc & Hsc & _ & _ & _ & _ & Hdc' & _)].
    + by rewrite Hdc, lookup_empty in Hk.
    + rewrite Hdc' in Hk. by eapply (wf_decorators _ Hwf).
Qed.

Section scope.
Context `{E : Env}.

(** Nothing has happened but to the orders in scope [x]. *)
Record reordered (x : nat) (a b : store) : Prop := {
  ro_ctors : st_ctors b = st_ctors a;
  ro_dcors : st_dcors b = st_dcors a;
  ro_trace : st_trace b = st_trace a;
  ro_length : length (st_orders b) = length (st_orders a);
  ro_order : ∀ o y, y ≠ x → orderIn b o y = orderIn a o y
}.

#[export] Instance reordered_preorder x : PreOrder (reordered x).
Proof.
  split; [by intros a; split|]. intros a b c [] []. split; try congruence.
  intros o y Hy. by rewrite ro_order1, ro_order0.
Qed.

Lemma orderIn_set o x v st o' y :
  y ≠ x → orderIn (upd_orders (alter <[x := v]> o) st) o' y = orderIn st o' y.
Proof.
  intros Hy. unfold orderIn. simpl. rewrite list_lookup_alter. case_decide; [subst o'|done].
  destruct (st_orders st !! o) as [m|]; [|done]. simpl. by rewrite lookup_insert_ne.
Qed.

(** The loop that copies the graph of the parent: it only adds nodes of the
    parent to the graph of the child. *)
Lemma copyGraph_Ret s child l0 a l :
  (∀ n, WCtor n ∈ l → n < length (st_ctors a)) → l ⊆ l0 →
  ∃ b f, forEach l (λ node,
           _ ← modScope child (set_gh (λ g, (NewNode g node).1));
           match node with
           | WCtor n => CopyOrder n s child
           | WGroup _ => mret ()
           end) a = (Ret (), b) ∧
    st_scopes b = alter (set_gh f) child (st_scopes a) ∧ reordered child a b ∧
    (∀ g w, w ∈ gh_nodes (f g) → w ∈ gh_nodes g ∨ w ∈ l0).
Proof.
  revert a; induction l as [|w l IH]; intros a Hl Hsub.
  { exists a, (λ g, g). split_and!; eauto; [|reflexivity]. rewrite list_alter_id; [done|]. by intros []. }
  rewrite forEach_cons.
  set (a1 := upd_scopes (alter (set_gh (λ g, (NewNode g w).1)) child) a).
  assert (∃ a2, (_ ← modScope child (set_gh (λ g, (NewNode g w).1));
                 match w with WCtor n => CopyOrder n s child | WGroup _ => mret () end) a
                = (Ret (), a2) ∧ st_scopes a2 = st_scopes a1 ∧ reordered child a a2)
    as (a2 & H1 & Hs2 & Hr2).
  { unfold mbind, SM_bind at 1. simpl. destruct w as [n|pt]; [|by eexists].
    destruct (lookup_lt_is_Some_2 (st_ctors a) n) as [cn Hcn]; [apply Hl; set_solver|].
    unfold CopyOrder, getCtor, mbind, SM_bind. simpl. rewrite Hcn. simpl. eexists.
    split_and!; [done..|]. split; try done; simpl; [by rewrite length_alter|].
    intros o y Hy. by rewrite orderIn_set. }
  destruct (IH a2) as (b & f & H2 & Hs & Hr & Hf).
  { rewrite (ro_ctors _ _ _ Hr2). set_solver. }
  { set_solver. }
  exists b, (λ g, f (NewNode g w).1). split_and!; [|by rewrite Hs, Hs2; simpl;
    rewrite list_alter_alter_eq; apply list_alter_ext; [by intros []|]|by etransitivity|].
  - apply bind_Ret. eauto.
  - intros g w' Hw'. apply Hf in Hw' as [Hw'|?]; [|by right]. simpl in Hw'.
    apply elem_of_app in Hw' as [?| ->%list_elem_of_singleton]; [by left|right; set_solver].
Qed.

Lemma Scope_Scope_wf s name st :
  wf_store st → s < length (st_scopes st) →
  ∃ child st', Scope_Scope s name st = (Ret (length (st_scopes st)), st') ∧
    wf_store st' ∧ st_scopes st' = st_scopes (addChild s child st) ∧
    reordered (length (st_scopes st)) st st' ∧ providers child = ∅ ∧ decorators child = ∅ ∧
    ∀ par, st_scopes st !! s = Some par →
      deferAcyclicVerification child = deferAcyclicVerification par.
Proof.
  intros Hwf Hs. destruct (lookup_lt_is_Some_2 _ _ Hs) as [par Hpar].
  set (fresh := mkScope "" ∅ ∅ [] ∅ ∅ ∅ ∅ (mkRand (env_now 0 (st_trace st)) 0)
                  false false false defaultInvokerFn newGraphHolder None [] 0).
  set (child := mkScope name ∅ ∅ [] ∅ ∅ ∅ ∅ (mkRand (env_now 0 (st_trace st)) 0) false
                  (deferAcyclicVerification par) (recoverFromPanics par) (sc_invokerFn par)
                  newGraphHolder (Some s) [] (clockSrc par)).
  set (st1 := upd_scopes (λ l, l ++ [fresh]) st).
  set (a := upd_scopes (λ l, l ++ [child]) st).
  destruct (copyGraph_Ret s (length (st_scopes st)) (gh_nodes (gh par)) a (gh_nodes (gh par)))
    as (b & f & Hloop & Hb & Hr & Hf); [|done|].
  { intros n Hn. by eapply (wf_graph_nodes _ Hwf). }
  exists (set_gh f child). eexists. split.
  { unfold Scope_Scope. apply bind_Ret. exists (length (st_scopes st)), st1.
    split; [reflexivity|]. apply bind_Ret. exists par, st1. split.
    { unfold getScope, mbind, SM_bind. simpl. by rewrite lookup_app_l, Hpar. }
    apply bind_Ret. exists (), a. split.
    { unfold modScope, modifyS, a, st1, upd_scopes. simpl.
      by rewrite alter_app_r_alt, Nat.sub_diag by done. }
    apply bind_Ret. exists (), b. split; [exact Hloop|]. apply bind_Ret.
    eexists _, _. split; reflexivity. }
  assert (st_scopes (upd_scopes (alter (set_childScopes (λ l, l ++ [length (st_scopes st)])) s) b)
          = st_scopes (addChild s (set_gh f child) st)) as Heq.
  { simpl. rewrite Hb. simpl. rewrite alter_app_r_alt, Nat.sub_diag by done. simpl.
    by rewrite alter_app_l by done. }
  assert (wf_store (addChild s (set_gh f child) st)) as Hwf'.
  { apply wf_addChild; try done. simpl. intros n Hn.
    apply Hf in Hn as [Hn|Hn]; [set_solver|]. by eapply (wf_graph_nodes _ Hwf). }
  destruct Hr as [Hc Hd Htr Hl Ho]. split; [|split; [done|]].
  - eapply wf_skel; [|exact Hwf']. unfold skeleton. rewrite Heq. by simpl; rewrite Hc, Hd.
  - split; [by split|]. split_and!; [done..|]. by intros ? [= <-]%(eq_trans (eq_sym Hpar)).
Qed.
End scope.

(** ** Programs *)

Section programs.
Context `{E : Env}.

Lemma Invoke_built fuel s function opts st :
  wf_store st → runs built True (Invoke fuel s function opts) st.
Proof.
  intros Hwf. unfold Invoke, failM.
  assert (∀ {A} (m : M A) st, runs (eff (λ _, True)) False m st → runs built True m st) as Hsub.
  { intros A m st' [H1 H2]. split; [done|]. by eapply eff_built. }
  destruct (TypeOf function) as [ftype|]; [|auto with dig].
  destruct function as [|t|f|t r]; try (by auto with dig). case_decide; [auto with dig|].
  run_step; [by apply Hsub, (runs_newParamList _ st Hwf)|].
  run_step; [apply runs_wrapErr; auto with dig|].
  run_step; [apply Hsub, runs_verifyAcyclic|].
  run_step; [apply runs_wrapErr, (built_BuildList built); by apply (knot_built built)|].
  run_step; [auto with dig|].
  apply runs_deferRecover; [apply _|]. apply Hsub, runs_invokeBody.
Qed.

Lemma wf_newScope st : wf_store st → wf_store (newScope st).2.
Proof.
  intros [Hc Hp Hn Hh Ho Hpr Hno Hg Hd]. simpl.
  match goal with |- wf_store (upd_scopes (λ l, l ++ [?f]) _) => set (fresh := f) end.
  assert (∀ i sc, (st_scopes st ++ [fresh]) !! i = Some sc →
                  st_scopes st !! i = Some sc ∨ (i = length (st_scopes st) ∧ sc = fresh)) as Hcase.
  { intros i sc [?|[? [? <-]%list_lookup_singleton_Some]]%lookup_app_Some; [by left|right].
    split; [lia|done]. }
  assert (∀ i sc, st_scopes st !! i = Some sc → (st_scopes st ++ [fresh]) !! i = Some sc) as Hold.
  { intros. by apply lookup_app_l_Some. }
  split; simpl.
  - intros s sc c [Hs|[-> ->]]%Hcase Hin; [|set_solver].
    destruct (Hc _ _ _ Hs Hin) as (? & cc & ? & ?). eauto 6.
  - intros s sc p [Hs|[-> ->]]%Hcase Hin; [|done].
    destruct (Hp _ _ _ Hs Hin) as (? & pc & ? & ?). eauto 6.
  - intros s sc [Hs|[-> ->]]%Hcase; [eauto|constructor].
  - intros n cn Hcn. simpl. rewrite length_app. specialize (Hh _ _ Hcn). lia.
  - intros n cn Hcn. rewrite length_app. specialize (Ho _ _ Hcn). lia.
  - intros s sc k n [Hs|[-> ->]]%Hcase Hin; [eauto|set_solver].
  - intros s sc n [Hs|[-> ->]]%Hcase Hin; [eauto|set_solver].
  - intros s sc n [Hs|[-> ->]]%Hcase Hin; [eauto|set_solver].
  - intros s sc k d [Hs|[-> ->]]%Hcase Hin; [eauto|]. simpl in Hin. by rewrite lookup_empty in Hin.
Qed.

Lemma New_wf opts st : wf_store st → wf_store (New opts st).2.
Proof.
  intros Hwf%wf_newScope. unfold New.
  assert (runs grow False (_ ← forEach opts (λ o, modScope (length (st_scopes st)) (applyOption o));
                           mret (length (st_scopes st))) (newScope st).2) as [_ Hg].
  { run_step; [|auto with dig]. apply (runs_forEach grow False (λ _, True)); try done.
    intros o st' _ _. apply runs_modifyS, grow_alter. intros sc Hw Hsc.
    pose proof (wf_scope_ok _ _ _ Hw Hsc) as [H1 H2 H3 H4].
    destruct sc, o; simpl in *; by split_and!. }
  by apply Hg.
Qed.

(** The calls a program makes on a container.  [fuel] is the bound of the model on
    nested calls. *)
Inductive op :=
| OpNew (opts : list Option_)
| OpScope (s : nat) (name : string)
| OpProvide (s : nat) (constructor : iface) (opts : list ProvideOption)
| OpDecorate (s : nat) (decorator : iface) (opts : list DecorateOption)
| OpInvoke (fuel : nat) (s : nat) (function : iface) (opts : list InvokeOption).

Definition run_op (o : op) : M () :=
  match o with
  | OpNew opts => _ ← New opts; mret ()
  | OpScope s name => _ ← Scope_Scope s name; mret ()
  | OpProvide s c opts => Provide s c opts
  | OpDecorate s d opts => Decorate s d opts
  | OpInvoke fuel s f opts => Invoke fuel s f opts
  end.

(** The receiver of the call exists. *)
Definition op_ok (o : op) (st : store) : Prop :=
  match o with
  | OpNew _ => True
  | OpScope s _ | OpProvide s _ _ | OpDecorate s _ _ | OpInvoke _ s _ _ =>
      s < length (st_scopes st)
  end.

#[export] Instance op_ok_dec o st : Decision (op_ok o st).
Proof. destruct o; simpl; apply _. Defined.

(** The stores a program reaches, whatever way its calls end. *)
Inductive reachable : store → Prop :=
| reachable_empty : reachable emptyStore
| reachable_op o st : reachable st → op_ok o st → reachable (run_op o st).2.


(** A sequence of calls. *)
Definition run_ops (os : list op) (st : store) : store := foldl (λ st o, (run_op o st).2) st os.

(** The outcomes of a sequence of calls, one after the other. *)
Fixpoint outcomes (os : list op) (st : store) : list (outcome ()) :=
  match os with
  | [] => []
  | o :: os' => let '(r, st') := run_op o st in r :: outcomes os' st'
  end.

Fixpoint ops_ok (os : list op) (st : store) : bool :=
  match os with
  | [] => true
  | o :: os' => bool_decide (op_ok o st) && ops_ok os' (run_op o st).2
  end.

Lemma emptyStore_wf : wf_store emptyStore.
Proof. split; simpl; try done; intros i ? ?; by rewrite ?lookup_nil. Qed.

Lemma run_op_wf o st : wf_store st → op_ok o st → wf_store (run_op o st).2.
Proof.
  assert (∀ {A} (m : M A) st, ((_ ← m; mret ()) st).2 = (m st).2) as Hbind.
  { intros A m st'. unfold mbind, SM_bind. by destruct (m st') as [[]]. }
  intros Hwf Hok. destruct o as [opts|s nm|s c opts|s d opts|fuel s f opts]; simpl in *.
  - rewrite Hbind. by apply New_wf.
  - rewrite Hbind. destruct (Scope_Scope_wf s nm st Hwf Hok) as (ch & st' & -> & ? & _). done.
  - destruct (grow_Provide s c opts st Hwf Hok) as [_ Hg]. by apply Hg.
  - destruct (grow_Decorate s d opts st Hwf) as [_ Hg]. by apply Hg.
  - destruct (Invoke_built fuel s f opts st Hwf) as [_ Hb].
    eapply wf_skel; [apply Hb|done].
Qed.

Lemma run_ops_wf os st : wf_store st → ops_ok os st = true → wf_store (run_ops os st).
Proof.
  revert st; induction os as [|o os IH]; intros st Hwf Hok; [done|]. simpl in Hok.
  apply andb_true_iff in Hok as [Ho Hos]. apply bool_decide_eq_true in Ho.
  apply IH; [by apply run_op_wf|done].
Qed.

Lemma run_ops_reachable os st : reachable st → ops_ok os st = true → reachable (run_ops os st).
Proof.
  revert st; induction os as [|o os IH]; intros st Hr Hok; [done|]. simpl in Hok.
  apply andb_true_iff in Hok as [Ho Hos]. apply bool_decide_eq_true in Ho.
  apply IH; [by constructor|done].
Qed.
End programs.

(** C6: the container invariant.  In every store a program reaches through [New],
    [Scope], [Provide], [Decorate] and [Invoke], however these calls end, the
    scopes form trees in which parents precede their children and know them, every
    constructor, decorator or scope that is referred to exists, and a decorator
    registered for a key names the key in its results. *)
Theorem reachable_wf `{E : Env} st : reachable st → wf_store st.
Proof. induction 1; [apply emptyStore_wf|by apply run_op_wf]. Qed.

(** C24: registration ends: on an existing scope of a well-formed container, [Provide]
    and [Decorate] end with a result, an error or a panic: none of the recursions over
    types, results, scopes or the dependency graph runs forever; [Scope] returns the new
    scope. *)
Theorem registration_terminates `{E : Env} s st constructor popts decorator dopts name :
  wf_store st → s < length (st_scopes st) →
  (Provide s constructor popts st).1 ≠ NoFuel ∧
  (Decorate s decorator dopts st).1 ≠ NoFuel ∧
  (Scope_Scope s name st).1 = Ret (length (st_scopes st)).
Proof.
  intros Hwf Hs. destruct (grow_Provide s constructor popts st Hwf Hs) as [H1 _].
  destruct (grow_Decorate s decorator dopts st Hwf) as [H2 _].
  destruct (Scope_Scope_wf s name st Hwf Hs) as (ch & st' & -> & _).
  split; [by intros ?%H1|]. split; [by intros ?%H2|done].
Qed.

(** ** Examples *)

Section reachable_example.
#[local] Existing Instance plainEnv.

(** A container with [func() A] and [func(A) B], and a child scope. *)
Definition exampleOps : list op :=
  [OpNew []; OpProvide 0 (fn 40 1) []; OpProvide 0 (fn 41 2) []; OpScope 0 "child"].
Definition exampleStore : store := run_ops exampleOps emptyStore.

Lemma exampleStore_wf : wf_store exampleStore.
Proof. apply run_ops_wf; [apply emptyStore_wf|vm_compute; reflexivity]. Qed.

Lemma reachable_wf_witness : reachable exampleStore ∧ wf_store exampleStore.
Proof.
  assert (reachable exampleStore) as Hr
    by (apply run_ops_reachable; [constructor|vm_compute; reflexivity]).
  split; [exact Hr|apply (reachable_wf exampleStore Hr)].
Defined.

Lemma registration_terminates_witness :
  (Provide 1 (fn 42 3) [] exampleStore).1 ≠ NoFuel ∧
  (Decorate 0 (fn 59 4) [] exampleStore).1 ≠ NoFuel ∧
  (Scope_Scope 0 "other" exampleStore).1 = Ret (length (st_scopes exampleStore)).
Proof.
  pose proof exampleStore_wf as Hwf.
  destruct (registration_terminates 1 exampleStore (fn 42 3) [] (fn 59 4) [] "other" Hwf)
    as (H1 & _ & _); [vm_compute; lia|].
  destruct (registration_terminates 0 exampleStore (fn 42 3) [] (fn 59 4) [] "other" Hwf)
    as (_ & H2 & H3); [vm_compute; lia|].
  exact (conj H1 (conj H2 H3)).
Defined.

Lemma exampleStore_bounded : deps_bounded 3 exampleStore = true.
Proof. vm_compute. reflexivity. Qed.

Lemma Invoke_terminates_witness : (Invoke 3 1 (fn 44 5) [] exampleStore).1 ≠ NoFuel.
Proof.
  apply (Invoke_terminates 3 3 1 (fn 44 5) [] exampleStore exampleStore_wf);
    [lia|exact exampleStore_bounded|lia].
Defined.

Lemma once_no_events st : st_trace st = [] → once st.
Proof. intros Ht pre post n f args cn Htr. rewrite Ht in Htr. by destruct pre. Qed.

Lemma Invoke_at_most_once_witness :
  let st' := (Invoke 3 1 (fn 44 5) [] exampleStore).2 in
  once st' ∧
  ∃ new, st_trace st' = st_trace exampleStore ++ new ∧
         ∀ n, called exampleStore n = true → Forall (λ ev, is_ctor_call n ev = false) new.
Proof.
  apply (Invoke_at_most_once 3 3 1 (fn 44 5) [] exampleStore exampleStore_wf);
    [lia|exact exampleStore_bounded|lia|apply once_no_events; vm_compute; reflexivity].
Defined.

(** [func(B)] invoked in the child scope. *)
Definition exampleParams : paramList :=
  mkParamList (TDef 44) [PSingle (mkParamSingle "" false tB)].

Lemma Invoke_lazy_witness :
  let st' := (Invoke 3 1 (fn 44 5) [] exampleStore).2 in
  skeleton st' = skeleton exampleStore ∧
  ∃ new, st_trace st' = st_trace exampleStore ++ new ∧
    ∀ ev, ev ∈ new → match ev with
                     | EvCall (ByCtor n) _ _ => list_reach exampleStore 1 exampleParams (inl n)
                     | EvCall (ByDcor d) _ _ => list_reach exampleStore 1 exampleParams (inr d)
                     | _ => True
                     end.
Proof.
  apply (Invoke_lazy 3 1 (mkFuncval (TDef 44) 5 5) [] exampleParams exampleStore exampleStore
           exampleStore_wf). vm_compute. reflexivity.
Defined.

(** The constructor [func(A) B], called. *)
Definition exampleCtor : constructorNode :=
  default (mkConstructorNode (mkFuncval (TDef 40) 1 1) None 1 false (mkParamList (TDef 40) [])
             (mkResultList (TDef 40) [] []) 0 0 0 None None) (st_ctors exampleStore !! 1).

Lemma constructor_call_provides_witness :
  (callC (knot 3) 1 0 exampleStore).1 = Ret () ∧
  called (callC (knot 3) 1 0 exampleStore).2 1 = true ∧
  (cn_called exampleCtor = false → provided (callC (knot 3) 1 0 exampleStore).2 exampleCtor).
Proof.
  assert ((callC (knot 3) 1 0 exampleStore).1 = Ret ()) as Hr by (vm_compute; reflexivity).
  split; [exact Hr|].
  apply (constructor_call_provides 3 1 exampleCtor (mkResultOptions "" "" []) [tA] [tB] false
           exampleStore).
  - vm_compute. reflexivity.
  - vm_compute. reflexivity.
  - vm_compute. reflexivity.
  - rewrite <- Hr. apply surjective_pairing.
Defined.

(** The child scope asks for [B] after the root has built it. *)
Definition builtStore : store := (Invoke 3 0 (fn 44 5) [] exampleStore).2.

Lemma paramSingle_nearest_witness :
  paramSingle_Build (knot 3) (mkParamSingle "" false tB) 1 builtStore =
  (Ret (VObj tB 2), builtStore).
Proof.
  apply (paramSingle_nearest (knot 3) (mkParamSingle "" false tB) 1 builtStore [1] 0 []
           (default blankScope (st_scopes builtStore !! 0))).
  - vm_compute. reflexivity.
  - apply (on_forallb builtStore _ (undecorated (mkParamSingle "" false tB))). vm_compute. reflexivity.
  - apply (on_forallb builtStore _ (silent (mkParamSingle "" false tB))). vm_compute. reflexivity.
  - vm_compute. reflexivity.
  - vm_compute. reflexivity.
Defined.

(** Nobody provides [C]. *)
Lemma paramSingle_absent_witness :
  paramSingle_Build (knot 3) (mkParamSingle "" true tC) 1 builtStore = (Ret (VZero tC), builtStore).
Proof.
  apply (paramSingle_absent (knot 3) (mkParamSingle "" true tC) 1 builtStore
           (default blankScope (st_scopes builtStore !! 1))).
  - vm_compute. reflexivity.
  - apply (on_forallb builtStore _ (undecorated (mkParamSingle "" true tC))). vm_compute. reflexivity.
  - apply (on_forallb builtStore _ (silent (mkParamSingle "" true tC))). vm_compute. reflexivity.
Defined.

Lemma shallowCheckDependencies_spec_witness :
  let r := shallowCheckDependencies 1 exampleParams exampleStore in
  r.2 = exampleStore ∧
  (r.1 = Ret () ↔ ∀ p ps, p ∈ pl_Params exampleParams → ps ∈ required p →
     available (st_scopes exampleStore) 1 (default blankScope (st_scopes exampleStore !! 1)) ps) ∧
  (r.1 = Ret () ∨ ∃ ms, r.1 = Err (errMissingTypes ms) ∧ ms ≠ []).
Proof.
  apply (shallowCheckDependencies_spec 1 exampleParams exampleStore
           (default blankScope (st_scopes exampleStore !! 1))).
  vm_compute. reflexivity.
Defined.
End reachable_example.

(** *** Callbacks *)

Section callback_example.

(** The constructor and the decorator with identity 9 panic. *)
Definition panicEnv : Env := mkEnv scenarioTable (λ _ f _,
  if decide (fv_id f = 9%positive) then Panicked 1 "boom" else Returned []).
#[local] Existing Instance panicEnv.

(** [func() A] panics in a container that recovers; callbacks 8 and 7 watch it. *)
Definition panicStore : store :=
  run_ops [OpNew [RecoverFromPanics];
           OpProvide 0 (fn 40 9) [WithProviderCallback (Some 7%positive);
                                  WithProviderBeforeCallback (Some 8%positive)]] emptyStore.

Definition panicCtor : constructorNode :=
  default (mkConstructorNode (mkFuncval (TDef 40) 1 1) None 1 false (mkParamList (TDef 40) [])
             (mkResultList (TDef 40) [] []) 0 0 0 None None) (st_ctors panicStore !! 0).

Definition funcAt (o : option Func) : Func := default (mkFunc "" "" "" 0) o.
Definition scopeAt (st : store) (s : nat) : Scope := default blankScope (st_scopes st !! s).

Lemma constructor_callbacks_witness :
  let res := constructorNode_Call (knot 1) 0 0 panicStore in
  let err := PanicError (cn_location panicCtor) (PUser 1 "boom") in
  st_trace res.2 =
    [EvBefore 8 "main.f9"; EvCall (ByCtor 0) (mkFuncval (TDef 40) 9 9) [];
     EvCallback 7 "main.f9" (Some err) 0] ∧
  res.1 = Err err.
Proof.
  exact (constructor_callbacks (knot 1) 0 panicCtor 0 panicStore [] panicStore
    (funcAt (cn_location panicCtor)) (scopeAt panicStore 0) (scopeAt panicStore 0)
    ltac:(vm_compute; reflexivity) ltac:(vm_compute; reflexivity) ltac:(vm_compute; reflexivity)
    ltac:(vm_compute; reflexivity) ltac:(vm_compute; reflexivity) ltac:(vm_compute; reflexivity)
    ltac:(vm_compute; reflexivity) ltac:(vm_compute; reflexivity) ltac:(vm_compute; reflexivity)).
Defined.

(** The decorator [func(A) A] panics; the scope does not recover. *)
Definition panicDecorated : store :=
  run_ops [OpNew []; OpProvide 0 (fn 40 1) [];
           OpDecorate 0 (fn 59 9) [WithDecoratorCallback (Some 7%positive)]] emptyStore.

Definition panicDcor : decoratorNode :=
  default (mkDecoratorNode (mkFuncval (TDef 59) 1 1) 1 None decoratorReady (mkParamList (TDef 59) [])
             (mkResultList (TDef 59) [] []) 0 None None) (st_dcors panicDecorated !! 0).

Definition panicBuilt : store :=
  (BuildList (knot 1) (dn_params panicDcor) 0
     (upd_dcors (alter (set_state decoratorOnStack) 0) panicDecorated)).2.

Lemma decorator_callbacks_witness :
  let res := decoratorNode_Call (knot 1) 0 0 panicDecorated in
  st_trace res.2 =
    [EvCall (ByCtor 0) (mkFuncval (TDef 40) 1 1) [];
     EvCall (ByDcor 0) (mkFuncval (TDef 59) 9 9) [VZero tA];
     EvCallback 7 "main.f9" None 0] ∧
  res.1 = Panic_ (PUser 1 "boom").
Proof.
  exact (decorator_callbacks (knot 1) 0 panicDcor 0 panicDecorated [VZero tA] panicBuilt
    (funcAt (dn_location panicDcor)) (scopeAt panicBuilt 0) (scopeAt panicBuilt 0)
    ltac:(vm_compute; reflexivity) ltac:(vm_compute; discriminate) ltac:(vm_compute; reflexivity)
    ltac:(vm_compute; reflexivity) ltac:(vm_compute; reflexivity) ltac:(vm_compute; reflexivity)
    ltac:(vm_compute; reflexivity) ltac:(vm_compute; reflexivity) ltac:(vm_compute; reflexivity)).
Defined.
End callback_example.
