(* ===== verification/Nesting.v ===== *)
(** * Nested calls end, whatever the decorators depend on (decorate.go, param.go)

    The cycle check only sees constructors and value groups; decorators may depend on
    each other, on the values they decorate and on constructors that use these.
    Building parameters still ends: a decorator that is running is skipped, so that
    along a chain of nested calls each decorator starts at most once, and between
    two of them the chain follows the dependencies of constructors. *)

From S2P Require Import Prelude Digraph GoLib GoTypes DigReflect Errors Group InOut.
From S2P Require Import Values DotTypes Result Store Options Scenario Param Call ResultProofs.
From S2P Require Import Deps Building ParamProofs Provide Decorate ProvideProofs Invoke.
From S2P Require Import Invariants Reachable.

Open Scope string_scope.
Open Scope list_scope.

(** ** Dependencies between constructors *)

(** The constructors that a constructor may call for its parameters. *)
Definition ctor_deps `{TypeTable} (st : store) (n : nat) : list nat :=
  omap (λ y : node, match y with inl m => Some m | inr _ => None end) (node_deps st (inl n)).

(** No chain of constructors from [n] is longer than [h]. *)
Fixpoint ctor_depth `{TypeTable} (h : nat) (st : store) (n : nat) : bool :=
  match h with
  | O => false
  | S h => forallb (ctor_depth h st) (ctor_deps st n)
  end.

Definition ctors_bounded `{TypeTable} (h : nat) (st : store) : bool :=
  forallb (ctor_depth h st) (seq 0 (length (st_ctors st))).

Section depth.
Context `{TT : TypeTable}.

Lemma elem_of_ctor_deps st n m : m ∈ ctor_deps st n ↔ inl m ∈ node_deps st (inl n).
Proof.
  unfold ctor_deps. rewrite list_elem_of_omap. split.
  - intros ([k|d] & Hin & [= <-]). done.
  - intros Hin. by exists (inl m).
Qed.

Lemma ctor_depth_mono h h' st n : h <= h' → ctor_depth h st n = true → ctor_depth h' st n = true.
Proof.
  revert h' n; induction h as [|h IH]; intros [|h'] n Hle; simpl; try done; [lia|].
  rewrite !forallb_forall. intros H y Hy. apply IH; [lia|auto].
Qed.

(** A bound on all chains bounds the chains of constructors. *)
Lemma dep_ctor_depth h st n : dep_depth h st (inl n) = true → ctor_depth h st n = true.
Proof.
  revert n; induction h as [|h IH]; intros n; [done|].
  cbn [dep_depth ctor_depth]. rewrite !forallb_forall. intros H m Hm. apply IH, H, list_elem_of_In.
  by apply elem_of_ctor_deps, list_elem_of_In.
Qed.

Lemma ctor_depth_all h st n : 0 < h → ctors_bounded h st = true → ctor_depth h st n = true.
Proof.
  intros Hh Hb. unfold ctors_bounded in Hb. rewrite forallb_forall in Hb.
  destruct (decide (n < length (st_ctors st))) as [Hn|Hn]; [apply Hb, in_seq; lia|].
  destruct h; [lia|]. simpl. unfold ctor_deps. simpl. by rewrite lookup_ge_None_2 by lia.
Qed.
End depth.

(** ** The decorators that have not started *)

Definition readies (st : store) : nat :=
  length (filter (λ dn, dn_state dn = decoratorReady) (st_dcors st)).

(** No decorator gets ready. *)
Definition no_readier (x y : decoratorNode) : Prop :=
  dn_state y = decoratorReady → dn_state x = decoratorReady.

Record settles (a b : store) : Prop := {
  settles_skel : skeleton b = skeleton a;
  settles_states : Forall2 no_readier (st_dcors a) (st_dcors b)
}.

#[export] Instance no_readier_preorder : PreOrder no_readier.
Proof. split; unfold no_readier; [by intros x|by intros x y z ? ? ?%H0%H]. Qed.

#[export] Instance settles_preorder : PreOrder settles.
Proof.
  split; [by intros a; split|]. intros a b c [H1 H2] [H3 H4]. split; [congruence|by etransitivity].
Qed.

Lemma readies_le l l' :
  Forall2 no_readier l l' →
  length (filter (λ dn, dn_state dn = decoratorReady) l') <=
  length (filter (λ dn, dn_state dn = decoratorReady) l).
Proof.
  induction 1 as [|x y l l' Hxy _ IH]; [done|]. rewrite !filter_cons.
  destruct (decide (dn_state y = decoratorReady)) as [Hy|Hy].
  - rewrite decide_True by auto. simpl. lia.
  - case_decide; simpl; lia.
Qed.

Lemma settles_readies a b : settles a b → readies b <= readies a.
Proof. intros [_ H]. by apply readies_le. Qed.

(** Starting a decorator. *)
Lemma readies_start d dn st :
  st_dcors st !! d = Some dn → dn_state dn = decoratorReady →
  readies (upd_dcors (alter (set_state decoratorOnStack) d) st) < readies st.
Proof.
  unfold readies. simpl. generalize (st_dcors st). intros l. revert d.
  induction l as [|x l IH]; intros [|d] Hd Hr; try done.
  - injection Hd as ->. simpl. rewrite !filter_cons. simpl. rewrite decide_True by done. simpl. lia.
  - specialize (IH d Hd Hr). change (alter (set_state decoratorOnStack) (S d) (x :: l))
      with (x :: alter (set_state decoratorOnStack) d l). rewrite !filter_cons. case_decide; simpl; lia.
Qed.

Section nesting.
Context `{E : Env}.

#[export] Instance settles_building : building settles.
Proof.
  split; [apply _|by intros a b []|..].
  - intros ev st. by split; [apply (building_log (Q := built))|].
  - intros n st. by split; [apply (building_modCtor (Q := built))|].
  - intros d q st Hq. split; [by apply (building_modDcor (Q := built))|]. simpl.
    apply Forall2_same_length_lookup. split; [by rewrite length_alter|].
    intros i x y Hx Hy. rewrite list_lookup_alter in Hy.
    case_decide; [|by rewrite Hx in Hy; injection Hy as <-].
    subst i. rewrite Hx in Hy. injection Hy as <-. by intros ?.
  - intros F X s m st Hm. destruct (building_zoom (Q := built) F X s m st Hm) as [H1 H2].
    split; [done|]. split; [apply H2|]. unfold zoomScope. destruct (st_scopes st !! s); [|done].
    by destruct (m s0).
Qed.

(** ** The bound on nested calls *)

(** With [r] decorators that have not started and chains of constructors no longer
    than [h], from a constructor whose own chain is no longer than [k]. *)
Definition ctor_fuel (h k r : nat) : nat := S k + r * (h + 2).
Definition dcor_fuel (h r : nat) : nat := S (r * (h + 2)).

Section knot.
Context (K : store) (h : nat) (Hh : ∀ n, ctor_depth h K n = true).

(** Where [m] decorators are left to start. *)
Definition within (r : nat) (st : store) : Prop := skeleton st = skeleton K ∧ readies st <= r.

Lemma within_settles r a b : within r a → settles a b → within r b.
Proof.
  intros [Hk Hr] Hs. split; [by rewrite (settles_skel _ _ Hs)|].
  pose proof (settles_readies _ _ Hs). lia.
Qed.

(** The arguments of a node, when its constructors are no deeper than [k] and the
    nested calls have enough fuel for them. *)
Lemma nested_BuildList R r (C : nat → Prop) pl c st :
  (∀ st n cn, within r st → C n → st_ctors st !! n = Some cn →
     runs settles False (callC R n (cn_origS cn)) st) →
  (∀ st d s, within r st → dstate st d ≠ Some decoratorOnStack →
     runs settles False (callD R d s) st) →
  (∀ m, inl m ∈ list_deps K c pl → C m) → within r st →
  runs settles False (BuildList R pl c) st.
Proof.
  intros HC HD Hdeps Hst.
  apply (runs_BuildList R K (λ y, match y with inl m => C m | inr _ => True end)
           (λ y, match y with inl m => C m | inr _ => True end) (within r) settles);
    auto using building_group, settles_building.
  - apply within_settles.
  - by intros s [].
  - intros [m|d] Hy; [by apply Hdeps|done].
Qed.

Definition ctor_ok (r k : nat) : Prop := ∀ fuel st n cn,
  ctor_fuel h k r <= fuel → within r st → ctor_depth k K n = true → st_ctors st !! n = Some cn →
  runs settles False (callC (knot fuel) n (cn_origS cn)) st.

Definition dcor_ok (r : nat) : Prop := ∀ fuel st d s,
  dcor_fuel h r <= fuel → within r st → dstate st d ≠ Some decoratorOnStack →
  runs settles False (callD (knot fuel) d s) st.

(** A decorator leaves one decorator less to start. *)
Lemma dcor_step r : (∀ r', r' < r → ctor_ok r' h ∧ dcor_ok r') → dcor_ok r.
Proof.
  intros IH fuel st d s Hfuel [Hk Hr] Hd. unfold dcor_fuel in Hfuel.
  destruct fuel as [|fuel]; [lia|]. simpl. apply calls_CallD; [apply _|].
  intros dn s1 Hdn Hnc Hs1.
  assert (dn_state dn = decoratorReady) as Hready.
  { unfold dstate in Hd. rewrite Hdn in Hd. simpl in Hd. by destruct (dn_state dn). }
  pose proof (readies_start d dn st Hdn Hready) as Hlt. destruct r as [|r]; [lia|].
  destruct (IH r) as [IHC IHD]; [lia|].
  assert (within r s1) as Hin.
  { eapply within_settles; [|exact Hs1]. split; [|lia].
    rewrite <- Hk. by apply (building_modDcor (Q := built)). }
  apply (nested_BuildList _ r (λ _, True)); try done; intros.
  - apply IHC; try done. unfold ctor_fuel. lia.
  - apply IHD; try done. unfold dcor_fuel. lia.
Qed.

(** A constructor calls decorators, and constructors that are less deep. *)
Lemma ctor_step r k : dcor_ok r → ctor_ok r k → ctor_ok r (S k).
Proof.
  intros HD HC fuel st n cn Hfuel Hin Hdep Hn. unfold ctor_fuel in *.
  destruct fuel as [|fuel]; [lia|]. simpl. apply calls_Call; [apply _|].
  intros cn' s1 Hn' Hs1. assert (cn' = cn) as -> by congruence.
  apply (nested_BuildList _ r (λ m, ctor_depth k K m = true)).
  - intros. apply HC; try done. unfold ctor_fuel. lia.
  - intros. apply HD; try done. unfold dcor_fuel. lia.
  - intros m Hm. destruct (ctor_same st K n cn (proj1 Hin) Hn) as (ck & Hck & Heq).
    cbn [ctor_depth] in Hdep. rewrite forallb_forall in Hdep.
    apply Hdep, list_elem_of_In, elem_of_ctor_deps. simpl. rewrite Hck.
    by injection Heq as _ _ _ -> _ _ _ -> _ _.
  - by eapply within_settles.
Qed.

Lemma knot_nested r : dcor_ok r ∧ ∀ k, ctor_ok r k.
Proof.
  induction r as [r IH] using lt_wf_ind.
  assert (dcor_ok r) as HD by (apply dcor_step; intros r' Hr'; by destruct (IH r' Hr')).
  split; [done|]. induction k as [|k IHk]; [by intros fuel st n cn|by apply ctor_step].
Qed.

Lemma nested_arguments fuel pl c st :
  ctor_fuel h h (readies st) <= fuel → skeleton st = skeleton K →
  runs settles False (BuildList (knot fuel) pl c) st.
Proof.
  intros Hfuel Hk. destruct (knot_nested (readies st)) as [HD HC]. unfold ctor_fuel in Hfuel.
  apply (nested_BuildList _ (readies st) (λ _, True)); try done.
  - intros. by apply (HC h).
  - intros. apply HD; try done. unfold dcor_fuel. lia.
Qed.
End knot.

Lemma readies_length st : readies st <= length (st_dcors st).
Proof. apply length_filter. Qed.

(** Stores with the same registrations. *)
Definition same_skeleton (a b : store) : Prop := skeleton b = skeleton a.

#[export] Instance same_skeleton_preorder : PreOrder same_skeleton.
Proof. split; [done|]. intros a b c Hab Hbc. unfold same_skeleton in *. congruence. Qed.
#[local] Hint Resolve same_skeleton_preorder : dig.

Lemma runs_eff_skeleton {A} F (m : M A) st :
  runs (eff (λ _, True)) F m st → runs same_skeleton F m st.
Proof. apply runs_sub. intros a b He. apply He. Qed.

Lemma Invoke_nested h fuel s function opts st :
  wf_store st → 0 < h → ctors_bounded h st = true →
  ctor_fuel h h (length (st_dcors st)) <= fuel →
  runs same_skeleton False (Invoke fuel s function opts) st.
Proof.
  intros Hwf Hh Hb Hle. unfold Invoke, failM.
  destruct (TypeOf function) as [ftype|] eqn:Hty; [|auto with dig].
  destruct function as [|t|f|t r]; try (by auto with dig).
  case_match; [by auto with dig|].
  run_step; [by apply runs_eff_skeleton, (runs_newParamList _ st Hwf)|].
  run_step; [apply runs_wrapErr; auto with dig|].
  run_step; [apply runs_eff_skeleton, runs_verifyAcyclic|].
  assert (skeleton s2 = skeleton st) as Hk by (unfold same_skeleton in *; congruence).
  run_step.
  { apply runs_wrapErr, (runs_sub _ _ settles); [by intros ?? []|].
    apply (nested_arguments st h); [by intros; apply ctor_depth_all| |done].
    etransitivity; [|exact Hle]. unfold ctor_fuel.
    pose proof (readies_length s2). pose proof (f_equal (length ∘ st_dcors) Hk) as Hl.
    simpl in Hl. rewrite !length_fmap in Hl. rewrite <- Hl. nia. }
  run_step; [auto with dig|]. apply runs_deferRecover; [apply _|].
  apply runs_eff_skeleton, runs_invokeBody.
Qed.
End nesting.

(** C16: [Invoke] ends with any decorators.  When no chain of dependencies between the
    constructors of a well-formed container is longer than [h], invoking a function
    never needs more than [h + 1 + d * (h + 2)] nested calls for [d] decorators, on
    whatever values the decorators depend, on themselves and on each other
    included. *)
Theorem Invoke_decorated_terminates `{E : Env} h fuel s function opts st :
  wf_store st → 0 < h → ctors_bounded h st = true →
  ctor_fuel h h (length (st_dcors st)) <= fuel →
  (Invoke fuel s function opts st).1 ≠ NoFuel.
Proof.
  intros Hwf Hh Hb Hle Hn.
  by destruct (Invoke_nested h fuel s function opts st Hwf Hh Hb Hle) as [[] _].
Qed.

(** ** Examples *)

Section nesting_example.
#[local] Existing Instance plainEnv.

(** [func() A], [func(A) B], and a decorator [func(A, B) A], which depends on itself
    through [func(A) B]. *)
Definition nestedOps : list op :=
  [OpNew []; OpProvide 0 (fn 40 1) []; OpProvide 0 (fn 41 2) []; OpDecorate 0 (fn 60 3) []].

Lemma nestedOps_wf : wf_store (run_ops nestedOps emptyStore).
Proof. apply run_ops_wf; [apply emptyStore_wf|vm_compute; reflexivity]. Qed.

Lemma Invoke_decorated_terminates_witness :
  deps_bounded 100 (run_ops nestedOps emptyStore) = false ∧
  (Invoke 7 0 (fn 44 4) [] (run_ops nestedOps emptyStore)).1 ≠ NoFuel.
Proof.
  split; [vm_compute; reflexivity|].
  apply (Invoke_decorated_terminates 2 7 0 (fn 44 4) [] (run_ops nestedOps emptyStore) nestedOps_wf);
    [lia|vm_compute; reflexivity|vm_compute; lia].
Defined.
End nesting_example.
