(* ===== verification/DigTest.v ===== *)
(** * Containers for tests (internal/digtest/container.go)

    [digtest.Container] and [digtest.Scope] wrap a container or scope together with
    the running test, and halt the test when a call returns an error.  The package
    [testing] and [require.NoError] of testify are parameters: a state of the test,
    and what they do to it. *)

From S2P Require Import Prelude Digraph GoLib GoTypes DigReflect Errors Group InOut.
From S2P Require Import Values DotTypes Result Store Options Scenario Param Call ResultProofs.
From S2P Require Import Deps Building ParamProofs Provide Decorate ProvideProofs Invoke Container.
From S2P Require Import Invariants Reachable.

Open Scope string_scope.
Open Scope list_scope.

(** [testing.TB], and [require.NoError], which says whether the test goes on. *)
Class Testing := {
  TB : Type;
  tstate : Type;
  Helper : TB → tstate → tstate;
  NoError : TB → option error → string → tstate → bool * tstate
}.

(** What testify documents: the test goes on exactly if there is no error. *)
Class TestingLaws (T : Testing) : Prop := {
  NoError_nil t msg ts : (NoError t None msg ts).1 = true;
  NoError_err t e msg ts : (NoError t (Some e) msg ts).1 = false
}.

Section digtest.
Context `{E : Env} `{T : Testing}.

(** The container and the test. *)
Record world := mkWorld { w_store : store; w_test : tstate }.

(** A step of a test: [None] when the test was halted ([runtime.Goexit]). *)
Definition TM (A : Type) : Type := SM world (option A).

#[export] Instance TM_ret : MRet TM := λ A a w, (Ret (Some a), w).
#[export] Instance TM_bind : MBind TM := λ A B f m w,
  match m w with
  | (Ret (Some a), w') => f a w'
  | (Ret None, w') => (Ret None, w')
  | (Err e, w') => (Err e, w')
  | (Panic_ p, w') => (Panic_ p, w')
  | (NoFuel, w') => (NoFuel, w')
  end.

Definition inStore {A} (m : M A) : TM A := λ w,
  let '(r, st) := m (w_store w) in
  (match r with Ret a => Ret (Some a) | Err e => Err e | Panic_ p => Panic_ p | NoFuel => NoFuel end,
   mkWorld st (w_test w)).

(** [t.Helper()], the call, and [require.NoError(t, err, msg)]. *)
Definition required (t : TB) (m : M ()) (msg : string) : TM () := λ w,
  let ts := Helper t (w_test w) in
  match m (w_store w) with
  | (Ret _, st) => let '(ok, ts') := NoError t None msg ts in
                   (Ret (if ok then Some () else None), mkWorld st ts')
  | (Err e, st) => let '(ok, ts') := NoError t (Some e) msg ts in
                   (Ret (if ok then Some () else None), mkWorld st ts')
  | (Panic_ p, st) => (Panic_ p, mkWorld st ts)
  | (NoFuel, st) => (NoFuel, mkWorld st ts)
  end.

(** [digtest.Container] and [digtest.Scope]: a container or a scope, and the test. *)
Record testContainer := mkTestContainer { tc_Container : Container; tc_t : TB }.
Record testScope := mkTestScope { ts_scope : nat; ts_t : TB }.

Definition test_New (t : TB) (opts : list Option_) : TM testContainer :=
  c ← inStore (New opts); mret (mkTestContainer (mkContainer c) t).

Definition Container_RequireProvide (c : testContainer) (f : iface) (opts : list ProvideOption) : TM () :=
  required (tc_t c) (Container_Provide (tc_Container c) f opts) "failed to provide".
Definition Scope_RequireProvide (s : testScope) (f : iface) (opts : list ProvideOption) : TM () :=
  required (ts_t s) (Provide (ts_scope s) f opts) "failed to provide".

Definition Container_RequireInvoke (fuel : nat) (c : testContainer) (f : iface)
    (opts : list InvokeOption) : TM () :=
  required (tc_t c) (Container_Invoke fuel (tc_Container c) f opts) "failed to invoke".
Definition Scope_RequireInvoke (fuel : nat) (s : testScope) (f : iface)
    (opts : list InvokeOption) : TM () :=
  required (ts_t s) (Invoke fuel (ts_scope s) f opts) "failed to invoke".

Definition Container_RequireDecorate (c : testContainer) (f : iface) (opts : list DecorateOption) : TM () :=
  required (tc_t c) (Container_Decorate (tc_Container c) f opts) "failed to decorate".
Definition Scope_RequireDecorate (s : testScope) (f : iface) (opts : list DecorateOption) : TM () :=
  required (ts_t s) (Decorate (ts_scope s) f opts) "failed to decorate".

Definition test_Container_Scope (c : testContainer) (name : string) : TM testScope :=
  s ← inStore (Container_Scope (tc_Container c) name); mret (mkTestScope s (tc_t c)).
Definition test_Scope_Scope (s : testScope) (name : string) : TM testScope :=
  c ← inStore (Scope_Scope (ts_scope s) name); mret (mkTestScope c (ts_t s)).

(** ** Tests *)

(** A call of a test.  It is made on a container or scope that an earlier call returned,
    referred to by its position among those. *)
Inductive test_call :=
| TNew (opts : list Option_)
| TScope (h : nat) (name : string)
| TProvide (h : nat) (f : iface) (opts : list ProvideOption)
| TDecorate (h : nat) (f : iface) (opts : list DecorateOption)
| TInvoke (h : nat) (fuel : nat) (f : iface) (opts : list InvokeOption).

(** What [New] and [Scope] of digtest return. *)
Inductive wrapper := wContainer (c : testContainer) | wScope (s : testScope).

Definition wrapper_Scope (v : wrapper) (name : string) : TM testScope :=
  match v with wContainer c => test_Container_Scope c name | wScope s => test_Scope_Scope s name end.
Definition wrapper_RequireProvide (v : wrapper) f opts : TM () :=
  match v with
  | wContainer c => Container_RequireProvide c f opts
  | wScope s => Scope_RequireProvide s f opts
  end.
Definition wrapper_RequireDecorate (v : wrapper) f opts : TM () :=
  match v with
  | wContainer c => Container_RequireDecorate c f opts
  | wScope s => Scope_RequireDecorate s f opts
  end.
Definition wrapper_RequireInvoke (v : wrapper) fuel f opts : TM () :=
  match v with
  | wContainer c => Container_RequireInvoke fuel c f opts
  | wScope s => Scope_RequireInvoke fuel s f opts
  end.

Definition nilReceiver : panicval := PRuntime nilDeref.
Definition onWrapper {A} (ws : list wrapper) (h : nat) (k : wrapper → TM A) : TM A :=
  match ws !! h with Some v => k v | None => λ w, (Panic_ nilReceiver, w) end.

(** One call through the wrappers [ws], and the wrappers the test has afterwards. *)
Definition test_step (t : TB) (ws : list wrapper) (o : test_call) : TM (list wrapper) :=
  match o with
  | TNew opts => c ← test_New t opts; mret (ws ++ [wContainer c])
  | TScope h name => onWrapper ws h (λ v, s ← wrapper_Scope v name; mret (ws ++ [wScope s]))
  | TProvide h f opts => onWrapper ws h (λ v, _ ← wrapper_RequireProvide v f opts; mret ws)
  | TDecorate h f opts => onWrapper ws h (λ v, _ ← wrapper_RequireDecorate v f opts; mret ws)
  | TInvoke h fuel f opts => onWrapper ws h (λ v, _ ← wrapper_RequireInvoke v fuel f opts; mret ws)
  end.

Fixpoint run_test (t : TB) (ws : list wrapper) (os : list test_call) : TM (list wrapper) :=
  match os with
  | [] => mret ws
  | o :: os' => ws' ← test_step t ws o; run_test t ws' os'
  end.

(** ** The same calls on the package itself *)

Inductive handle := hContainer (c : Container) | hScope (s : nat).

Definition handle_Scope (v : handle) (name : string) : M nat :=
  match v with hContainer c => Container_Scope c name | hScope s => Scope_Scope s name end.
Definition handle_Provide (v : handle) f opts : M () :=
  match v with hContainer c => Container_Provide c f opts | hScope s => Provide s f opts end.
Definition handle_Decorate (v : handle) f opts : M () :=
  match v with hContainer c => Container_Decorate c f opts | hScope s => Decorate s f opts end.
Definition handle_Invoke (v : handle) fuel f opts : M () :=
  match v with hContainer c => Container_Invoke fuel c f opts | hScope s => Invoke fuel s f opts end.

Definition onHandle {A} (hs : list handle) (h : nat) (k : handle → M A) : M A :=
  match hs !! h with Some v => k v | None => liftO (Panic_ nilReceiver) end.

Definition plain_step (hs : list handle) (o : test_call) : M (list handle) :=
  match o with
  | TNew opts => c ← New opts; mret (hs ++ [hContainer (mkContainer c)])
  | TScope h name => onHandle hs h (λ v, s ← handle_Scope v name; mret (hs ++ [hScope s]))
  | TProvide h f opts => onHandle hs h (λ v, _ ← handle_Provide v f opts; mret hs)
  | TDecorate h f opts => onHandle hs h (λ v, _ ← handle_Decorate v f opts; mret hs)
  | TInvoke h fuel f opts => onHandle hs h (λ v, _ ← handle_Invoke v fuel f opts; mret hs)
  end.

(** A program that stops at the first error. *)
Fixpoint run_plain (hs : list handle) (os : list test_call) : M (list handle) :=
  match os with
  | [] => mret hs
  | o :: os' => hs' ← plain_step hs o; run_plain hs' os'
  end.

(** A wrapper holds the test [t] and what the package returned. *)
Definition wraps (t : TB) (v : wrapper) (h : handle) : Prop :=
  match v, h with
  | wContainer c, hContainer c' => tc_Container c = c' ∧ tc_t c = t
  | wScope s, hScope s' => ts_scope s = s' ∧ ts_t s = t
  | _, _ => False
  end.

Context {HT : TestingLaws T}.

(** How a test ends whose calls end with [r]: an error halts it. *)
Definition ends_as {A B} (P : A → B → Prop) (r : outcome B) (r' : outcome (option A)) : Prop :=
  match r, r' with
  | Ret b, Ret (Some a) => P a b
  | Err _, Ret None => True
  | Panic_ p, Panic_ p' => p' = p
  | NoFuel, NoFuel => True
  | _, _ => False
  end.

(** The test [m'] does to the container what [m] does, and ends accordingly. *)
Definition mirrors {A B} (P : A → B → Prop) (m' : TM A) (m : M B) : Prop := ∀ w,
  w_store (m' w).2 = (m (w_store w)).2 ∧ ends_as P (m (w_store w)).1 (m' w).1.

Lemma mirrored_required t m msg : mirrors (λ _ _, True) (required t m msg) m.
Proof.
  intros w. unfold required. destruct (m (w_store w)) as [[[]|e|p|] st]; try done.
  - pose proof (NoError_nil t msg (Helper t (w_test w))) as He.
    destruct (NoError _ _ _ _) as [ok ts]. simpl in *. by subst ok.
  - pose proof (NoError_err t e msg (Helper t (w_test w))) as He.
    destruct (NoError _ _ _ _) as [ok ts]. simpl in *. by subst ok.
Qed.

Lemma mirrored_ret {A B} (P : A → B → Prop) a b : P a b → mirrors P (mret a) (mret b).
Proof. by intros HP w. Qed.

Lemma mirrored_bind {A A' B B'} (P : A → A' → Prop) (Q : B → B' → Prop) m m' f f' :
  mirrors P m m' → (∀ a a', P a a' → mirrors Q (f a) (f' a')) → mirrors Q (m ≫= f) (m' ≫= f').
Proof.
  intros Hm Hf w. unfold mbind, TM_bind, SM_bind. destruct (Hm w) as [Hs He].
  destruct (m w) as [[[a|]|e|p|] w']; destruct (m' (w_store w)) as [[a'|e'|p'|] st]; simpl in *;
    try done; subst; try done. by apply Hf.
Qed.

(** [New] and [Scope] return no errors. *)
Definition errorless {A} (m : M A) : Prop := ∀ st e, (m st).1 ≠ Err e.

Lemma errorless_bind {A B} (m : M A) (f : A → M B) :
  errorless m → (∀ a, errorless (f a)) → errorless (m ≫= f).
Proof.
  intros Hm Hf st e. unfold mbind, SM_bind. specialize (Hm st).
  destruct (m st) as [[a|e'|p|] s1]; [apply Hf|by destruct (Hm e')|done..].
Qed.

Lemma errorless_forEach {A} (l : list A) (f : A → M ()) :
  (∀ x, errorless (f x)) → errorless (forEach l f).
Proof.
  intros Hf. induction l as [|x l IH]; [done|]. intros st e. rewrite forEach_cons.
  by apply errorless_bind.
Qed.

Lemma errorless_getScope s : errorless (getScope s).
Proof. intros st e. unfold getScope, mbind, SM_bind. simpl. by destruct (st_scopes st !! s). Qed.

Lemma errorless_New opts : errorless (New opts).
Proof. apply errorless_bind; [done|]. intros c. apply errorless_bind; [by apply errorless_forEach|done]. Qed.

Lemma errorless_Scope s name : errorless (Scope_Scope s name).
Proof.
  apply errorless_bind; [done|]. intros c. apply errorless_bind; [apply errorless_getScope|]. intros par.
  apply errorless_bind; [done|]. intros _. apply errorless_bind; [|done].
  apply errorless_forEach. intros w. apply errorless_bind; [done|]. intros _. destruct w as [n|]; [|done].
  apply errorless_bind; [|done]. intros st e. unfold getCtor, mbind, SM_bind. simpl.
  by destruct (st_ctors st !! n).
Qed.

(** The wrapper of what the package returns. *)
Lemma mirrored_wrapped {A B} (P : B → A → Prop) (m : M A) (k : A → B) :
  errorless m → (∀ a, P (k a) a) → mirrors P (a ← inStore m; mret (k a)) m.
Proof.
  intros Hm HP w. specialize (Hm (w_store w)). unfold mbind, TM_bind, inStore.
  destruct (m (w_store w)) as [[a|e|p|] st]; try done; [|by destruct (Hm e)]. split; [done|apply HP].
Qed.

Lemma mirrored_at {A B} (P : A → B → Prop) t ws hs h k k' :
  Forall2 (wraps t) ws hs → (∀ v v', wraps t v v' → mirrors P (k v) (k' v')) →
  mirrors P (onWrapper ws h k) (onHandle hs h k').
Proof.
  intros Hws Hk. unfold onWrapper, onHandle.
  destruct (ws !! h) as [v|] eqn:Hv.
  - destruct (Forall2_lookup_l _ _ _ _ _ Hws Hv) as (v' & -> & Hvv). by apply Hk.
  - apply lookup_ge_None in Hv. rewrite (lookup_ge_None_2 hs h); [by intros w|].
    by rewrite <-(Forall2_length _ _ _ Hws).
Qed.

(** One call: the container does what it does without the wrapper, and the wrappers
    that are returned hold what the package returned. *)
Lemma mirrored_step t ws hs o :
  Forall2 (wraps t) ws hs → mirrors (Forall2 (wraps t)) (test_step t ws o) (plain_step hs o).
Proof.
  intros Hws. destruct o as [opts|h name|h f opts|h f opts|h fuel f opts]; simpl.
  - apply (mirrored_bind (λ c c', tc_Container c = mkContainer c' ∧ tc_t c = t)).
    + by apply mirrored_wrapped; [apply errorless_New|].
    + intros c c' Hc. apply mirrored_ret. apply Forall2_app; [done|]. by constructor.
  - eapply mirrored_at; [done|]. intros v v' Hv. apply (mirrored_bind (λ s s', ts_scope s = s' ∧ ts_t s = t)).
    + destruct v as [c|s], v' as [c'|s']; try done; destruct Hv as [<- <-]; simpl;
        by apply mirrored_wrapped; [apply errorless_Scope|].
    + intros s s' Hs. apply mirrored_ret. apply Forall2_app; [done|]. by constructor.
  - eapply mirrored_at; [done|]. intros v v' Hv. eapply mirrored_bind; [|intros; by apply mirrored_ret].
    destruct v, v'; try done; destruct Hv as [<- _]; apply mirrored_required.
  - eapply mirrored_at; [done|]. intros v v' Hv. eapply mirrored_bind; [|intros; by apply mirrored_ret].
    destruct v, v'; try done; destruct Hv as [<- _]; apply mirrored_required.
  - eapply mirrored_at; [done|]. intros v v' Hv. eapply mirrored_bind; [|intros; by apply mirrored_ret].
    destruct v, v'; try done; destruct Hv as [<- _]; apply mirrored_required.
Qed.

Lemma mirrored_run t ws hs os :
  Forall2 (wraps t) ws hs → mirrors (Forall2 (wraps t)) (run_test t ws os) (run_plain hs os).
Proof.
  revert ws hs; induction os as [|o os IH]; intros ws hs Hws; [by apply mirrored_ret|].
  eapply mirrored_bind; [by apply mirrored_step|]. auto.
Qed.
End digtest.

(** C36: the wrappers for tests are transparent and strict.  A test that makes its calls
    through the wrappers that digtest's [New] and [Scope] return does to the container
    exactly what the same calls of the package do up to the first that returns an error.
    If none does, the test runs to its end and its wrappers hold the containers and scopes
    that the package returned, and the test; if one does, the test is halted there; a
    panic of a call goes through. *)
Theorem digtest_spec `{E : Env} `{T : Testing} t os w :
  TestingLaws T →
  let plain := run_plain [] os (w_store w) in
  let test := run_test t [] os w in
  w_store test.2 = plain.2 ∧
  match plain.1 with
  | Ret hs => ∃ ws, test.1 = Ret (Some ws) ∧ Forall2 (wraps t) ws hs
  | Err _ => test.1 = Ret None
  | Panic_ p => test.1 = Panic_ p
  | NoFuel => test.1 = NoFuel
  end.
Proof.
  intros HT plain test. destruct (mirrored_run t [] [] os (List.Forall2_nil _) w) as [Hs He].
  fold plain test in Hs, He. split; [done|].
  destruct plain as [[hs|e|p|] st], test as [[[ws|]|e'|p'|] w']; simpl in *; try done; subst; eauto.
Qed.

(** ** Examples *)

Section digtest_example.
#[local] Existing Instance plainEnv.

(** Tests that record the messages of their failures. *)
Definition recording : Testing := {|
  TB := unit;
  tstate := list string;
  Helper _ ts := ts;
  NoError _ err msg ts := match err with None => (true, ts) | Some _ => (false, ts ++ [msg]) end
|}.

Lemma recording_laws : TestingLaws recording.
Proof. by split. Qed.

(** [func() A] is provided to a child scope; it can be invoked there and not in the
    container, so that the test is halted before its last call. *)
Definition scopeTest : list test_call :=
  [TNew []; TScope 0 "child"; TProvide 1 (fn 40 1) []; TInvoke 1 5 (fn 43 3) []].
Definition failingTest : list test_call :=
  scopeTest ++ [TInvoke 0 5 (fn 43 4) []; TInvoke 1 5 (fn 43 5) []].

Definition testStart : @world recording := @mkWorld recording emptyStore ([] : list string).

Lemma digtest_spec_witness :
  (∃ ws, (run_test (T := recording) () [] scopeTest testStart).1 = Ret (Some ws) ∧
         Forall2 (wraps (T := recording) ()) ws [hContainer (mkContainer 0); hScope 1]) ∧
  (run_test (T := recording) () [] failingTest testStart).1 = Ret None ∧
  w_test (run_test (T := recording) () [] failingTest testStart).2 = ["failed to invoke"].
Proof.
  split; [|split; [|vm_compute; reflexivity]].
  - destruct (digtest_spec (T := recording) () scopeTest testStart recording_laws) as [_ H].
    replace ((run_plain [] scopeTest (w_store testStart)).1)
      with (Ret [hContainer (mkContainer 0); hScope 1] : outcome (list handle)) in H
      by (vm_compute; reflexivity). exact H.
  - destruct (digtest_spec (T := recording) () failingTest testStart recording_laws) as [_ H].
    destruct ((run_plain [] failingTest (w_store testStart)).1) as [hs|e|p|] eqn:Hp; [|exact H|..];
      exfalso; vm_compute in Hp; discriminate Hp.
Defined.
End digtest_example.
