(* ===== verification/Registering.v ===== *)
(** * What registration does to the store, one effect at a time

    [Provide], [Decorate] and the reading of parameters change the store in a few
    ways: fields of scopes, order maps, new nodes.  A relation that these single
    effects respect is respected by the operations. *)

From S2P Require Import Prelude Digraph GoLib GoTypes DigReflect Errors Group InOut.
From S2P Require Import Values DotTypes Result Store Options Param Call ResultProofs.
From S2P Require Import Deps Building ParamProofs Provide Decorate ProvideProofs Invoke.

Open Scope string_scope.
Open Scope list_scope.

(** What only [provide] and building change in a scope. *)
Definition kept (sc : Scope) :
    gmap key (list nat) * gmap key value * gmap key value * gmap key (list value) *
    gmap key value * invokerFn :=
  (providers sc, values sc, decoratedValues sc, groups sc, decoratedGroups sc, sc_invokerFn sc).

Class registering (Q : store → store → Prop) : Prop := {
  registering_preorder :: PreOrder Q;
  registering_scope : ∀ s f st, (∀ sc, kept (f sc) = kept sc) → Q st (upd_scopes (alter f s) st);
  registering_same : ∀ a b, st_trace b = st_trace a → st_scopes b = st_scopes a →
    st_ctors b = st_ctors a → st_dcors b = st_dcors a → Q a b;
  registering_ctor : ∀ cn st, cn_called cn = false → Q st (upd_ctors (λ l, l ++ [cn]) st);
  registering_dcor : ∀ dn st, dn_state dn = decoratorReady → Q st (upd_dcors (λ l, l ++ [dn]) st)
}.
#[export] Hint Resolve registering_preorder : dig.

Section registering.
Context `{E : Env} (Q : store → store → Prop) `{HQ : !registering Q}.

Lemma reg_modScope F s f st : (∀ sc, kept (f sc) = kept sc) → runs Q F (modScope s f) st.
Proof. intros Hf. apply runs_modifyS. by apply registering_scope. Qed.

Lemma reg_set_gh F s f st : runs Q F (modScope s (set_gh f)) st.
Proof. apply reg_modScope. by intros []. Qed.
Lemma reg_set_verified F s b st : runs Q F (modScope s (set_isVerifiedAcyclic b)) st.
Proof. apply reg_modScope. by intros []. Qed.
Lemma reg_set_nodes F s f st : runs Q F (modScope s (set_nodes f)) st.
Proof. apply reg_modScope. by intros []. Qed.
Lemma reg_set_decorators F s f st : runs Q F (modScope s (set_decorators f)) st.
Proof. apply reg_modScope. by intros []. Qed.
Lemma reg_infos F f st : runs Q F (modifyS (upd_infos f)) st.
Proof. apply runs_modifyS. by apply registering_same. Qed.
Lemma reg_orders F f st : runs Q F (modifyS (upd_orders f)) st.
Proof. apply runs_modifyS. by apply registering_same. Qed.
Hint Resolve reg_set_gh reg_set_verified reg_set_nodes reg_set_decorators reg_infos reg_orders : dig.

Lemma reg_newGraphNode_ fuel s w o st : runs Q True (newGraphNode_ fuel s w o) st.
Proof.
  revert s st; induction fuel as [|fuel IH]; intros s st; simpl; [by apply runs_liftO; [apply _|]|].
  read. run_step; [auto with dig|]. run_step; [auto with dig|].
  apply (runs_forEach Q True (λ _, True)); auto.
Qed.

Lemma reg_newGraphNode s w o st : runs Q True (newGraphNode s w o) st.
Proof. unfold newGraphNode. read. apply reg_newGraphNode_. Qed.

Lemma reg_newOrders st : runs Q True newOrders st.
Proof. unfold newOrders. read. run_step; auto with dig. Qed.

Lemma reg_newParamList t s st : runs Q True (newParamList t s) st.
Proof.
  apply (newParamList_runs s Q True (λ _, True)); auto using reg_newOrders.
  intros. apply reg_newGraphNode.
Qed.

Lemma reg_newConstructorNode ctor s s0 o st : runs Q True (newConstructorNode ctor s s0 o) st.
Proof.
  unfold newConstructorNode. run_step; [apply reg_newParamList|].
  run_step; [by apply runs_liftO; [apply _|]|]. run_step; [apply reg_newOrders|]. read.
  run_step; [by apply runs_modifyS, registering_ctor|].
  run_step; [apply reg_newGraphNode|auto with dig].
Qed.

Lemma reg_checkAcyclic s st : runs Q True (checkAcyclic s) st.
Proof. split; [done|]. by rewrite checkAcyclic_still. Qed.

Lemma reg_verifyAcyclic s st : runs Q True (verifyAcyclic s) st.
Proof.
  unfold verifyAcyclic. run_step; [auto with dig|]. destruct (isVerifiedAcyclic _); [auto with dig|].
  run_step; [apply reg_checkAcyclic|]. destruct a0; [run_step; auto with dig|auto with dig].
Qed.

Lemma reg_Decorate s d opts st : runs Q True (Decorate s d opts) st.
Proof.
  unfold Decorate, failM. cbv zeta. run_step.
  - unfold newDecoratorNode. destruct d; try (by auto with dig).
    run_step; [apply reg_newParamList|]. run_step; [by apply runs_liftO; [apply _|]|]. read.
    run_step; [by apply runs_modifyS, registering_dcor|auto with dig].
  - run_step; [auto with dig|]. run_step; [by apply runs_liftO; [apply _|]|]. run_step.
    + unfold addDecorators, failM. apply (runs_forEach Q True (λ _, True)); auto. intros k st1 _ _.
      run_step; [auto with dig|]. destruct (decorators _ !! _); auto with dig.
    + destruct (do_Info _); auto with dig.
Qed.

(** [Provide], given what its body does. *)
Lemma reg_Provide s c opts st :
  (∀ ctor o s1 s0 l st, runs Q True (provideBody ctor o s1 s0 l) st) →
  runs Q True (Provide s c opts) st.
Proof.
  intros Hbody.
  assert (∀ l f st, runs Q True (forEach l (λ sc, modScope sc (set_gh f))) st) as Hgh.
  { intros. apply (runs_forEach Q True (λ _, True)); auto with dig. }
  unfold Provide, failM. destruct (TypeOf c); [|auto with dig].
  destruct c; try (by auto with dig). case_decide; [auto with dig|]. cbv zeta.
  run_step; [by apply runs_liftO; [apply _|]|]. apply runs_wrapErr. unfold provide. read.
  cbv zeta. run_step; [apply Hgh|]. apply runs_observe; [apply _|apply Hbody|].
  intros res s2 _ _ _. destruct res; try (by apply runs_liftO; [apply _|]).
  run_step; [apply Hgh|auto with dig].
Qed.

(** [provideBody], for a relation that does not look at the providers. *)
Section providers.
Context (HP : ∀ s f st, runs Q True (modScope s (set_providers f)) st).

Lemma reg_verifyScopes old l st : runs Q True (verifyScopes old l) st.
Proof.
  apply (runs_forEach Q True (λ _, True)); auto. intros s st1 _ _.
  run_step; [auto with dig|]. run_step; [auto with dig|].
  destruct (deferAcyclicVerification _); [auto with dig|].
  run_step; [apply reg_checkAcyclic|].
  destruct a1; [|auto with dig]. run_step; [|run_step; auto with dig].
  apply (runs_forEach Q True (λ _, True)); auto with dig.
Qed.

Lemma reg_provideBody ctor opts s s0 l st : runs Q True (provideBody ctor opts s s0 l) st.
Proof.
  unfold provideBody, failM. run_step; [apply reg_newConstructorNode|]. do 2 read.
  run_step; [by apply runs_liftO; [apply _|]|]. case_decide; [auto with dig|]. read.
  run_step; [apply (runs_forEach Q True (λ _, True)); auto with dig|].
  run_step; [apply reg_verifyScopes|]. run_step; [auto with dig|].
  destruct (po_Info _); auto with dig.
Qed.
End providers.
End registering.
#[export] Hint Resolve reg_set_gh reg_set_verified reg_set_nodes reg_set_decorators reg_infos
  reg_orders : dig.
#[export] Hint Extern 0 (registering _) => apply _ : dig.
