(* ===== verification/DecoratorOnce.v ===== *)
(** * Decorators run at most once (decorate.go)

    The state of a decorator goes from ready over running to called and never back; a
    decorator is only entered when it is ready.  So over the whole life of a container
    the function of a decorator is called at most once, whatever the program does and
    however its calls end. *)

From S2P Require Import Prelude Digraph GoLib GoTypes DigReflect Errors Group InOut.
From S2P Require Import Values Clock DotTypes Result Store Options Scenario Param Call ResultProofs.
From S2P Require Import Deps Building ParamProofs Provide Decorate ProvideProofs Invoke.
From S2P Require Import Invariants Reachable Registering.

Open Scope string_scope.
Open Scope list_scope.

(** ** Counting *)

(** The calls of a decorator in a part of the history. *)
Definition is_dcor_call (d : nat) (ev : event) : bool :=
  match ev with EvCall (ByDcor e) _ _ => bool_decide (e = d) | _ => false end.

Definition dcalls (d : nat) (tr : list event) : nat := length (filter (λ ev, is_dcor_call d ev) tr).

Lemma dcalls_app d l l' : dcalls d (l ++ l') = dcalls d l + dcalls d l'.
Proof. unfold dcalls. by rewrite filter_app, length_app. Qed.

Lemma dcalls_other d ev : dcor_event ev = false → dcalls d [ev] = 0.
Proof. by destruct ev as [|[]|]. Qed.

Lemma dcalls_self d e fn args : dcalls d [EvCall (ByDcor e) fn args] = if decide (d = e) then 1 else 0.
Proof.
  unfold dcalls. rewrite filter_cons. simpl. destruct (decide (d = e)) as [->|Hne].
  - by rewrite bool_decide_true, decide_True.
  - by rewrite bool_decide_false, decide_False by naive_solver.
Qed.

(** Whether the decorator may still be called: it is ready, or does not exist yet. *)
Definition ready (st : store) (d : nat) : nat :=
  if decide (dstate st d = Some decoratorOnStack ∨ dstate st d = Some decoratorCalled) then 0 else 1.

(** From [a] to [b], every decorator has been called as often as it was ready, plus [x]
    times. *)
Record spends (x : nat → nat) (a b : store) : Prop := {
  sp_skel : skeleton b = skeleton a;
  sp_calls : ∃ new, st_trace b = st_trace a ++ new ∧ ∀ d, dcalls d new + ready b d <= ready a d + x d
}.

Abbreviation spend := (spends (λ _, 0)).

Lemma spends_trans x y a b c : spends x a b → spends y b c → spends (λ d, x d + y d) a c.
Proof.
  intros [H1 (l & Ht & Hl)] [H2 (l' & Ht' & Hl')]. split; [congruence|]. exists (l ++ l').
  split; [by rewrite Ht', Ht, app_assoc|]. intros d. rewrite dcalls_app.
  specialize (Hl d). specialize (Hl' d). lia.
Qed.

Lemma spends_weaken x y a b : (∀ d, x d <= y d) → spends x a b → spends y a b.
Proof.
  intros Hxy [H1 (l & Ht & Hl)]. split; [done|]. exists l. split; [done|].
  intros d. specialize (Hl d). specialize (Hxy d). lia.
Qed.

#[export] Instance spend_preorder : PreOrder spend.
Proof.
  split.
  - intros a. split; [done|]. exists []. split; [by rewrite app_nil_r|]. intros d. unfold dcalls. simpl. lia.
  - intros a b c H1 H2. eapply spends_weaken; [|by eapply spends_trans]. done.
Qed.

#[local] Hint Resolve spend_preorder : dig.

(** Nothing that concerns decorators. *)
Lemma spend_quiet a b new :
  skeleton b = skeleton a → st_dcors b = st_dcors a → st_trace b = st_trace a ++ new →
  Forall (λ ev, dcor_event ev = false) new → spend a b.
Proof.
  intros Hk Hd Ht Hnew. split; [done|]. exists new. split; [done|]. intros d.
  assert (dcalls d new = 0) as ->.
  { clear Ht. induction Hnew as [|ev new Hev _ IH]; [done|].
    change (ev :: new) with ([ev] ++ new). by rewrite dcalls_app, IH, dcalls_other. }
  unfold ready, dstate. rewrite Hd. lia.
Qed.

Section decorators.
Context `{E : Env}.

#[export] Instance spend_building : building_base spend.
Proof.
  split; [apply _|..].
  - intros ev st Hev. by apply (spend_quiet _ _ [ev]); [..|repeat constructor].
  - intros n st. apply (spend_quiet _ _ []); [apply (building_modCtor (Q := built))|done|by rewrite app_nil_r|done].
  - intros F X s m st Hm. destruct (building_zoom (Q := built) F X s m st Hm) as [H1 H2].
    split; [done|]. apply (spend_quiet _ _ []); [apply H2|..|done]; unfold zoomScope;
      (destruct (st_scopes st !! s); [destruct (m s0)|]); by rewrite ?app_nil_r.
Qed.

(** ** One call of a decorator *)

Lemma spend_runs {A} (m : M A) st : runs spend True m st → spend st (m st).2.
Proof. by intros [_ H]. Qed.

(** Some steps that spend nothing, then one that does. *)
Lemma spends_bind {A B} x (m : M A) (f : A → M B) st :
  spend st (m st).2 → (∀ a st', m st = (Ret a, st') → spends x st' (f a st').2) →
  spends x st ((m ≫= f) st).2.
Proof.
  intros Hm Hf. unfold mbind, SM_bind. destruct (m st) as [[a|e|p|] s1]; simpl in *;
    [|by eapply spends_weaken; [|exact Hm]; intros; simpl; lia..].
  eapply spends_weaken; [|by eapply spends_trans; [exact Hm|apply Hf]]. intros; simpl; lia.
Qed.

Lemma spends_then {A B} x (m : M A) (f : A → M B) st :
  spends x st (m st).2 → (∀ a st', spend st' (f a st').2) → spends x st ((m ≫= f) st).2.
Proof.
  intros Hm Hf. unfold mbind, SM_bind. destruct (m st) as [[a|e|p|] s1]; simpl in *; try done.
  eapply spends_weaken; [|by eapply spends_trans; [exact Hm|apply Hf]]. intros; simpl; lia.
Qed.

Lemma spends_deferRecover x b loc m st :
  spends x st (m st).2 → spends x st (deferRecover b loc m st).2.
Proof. intros Hm. unfold deferRecover, observe. destruct (m st) as [[u|e|p|] s1]; try done. by destruct b. Qed.

Lemma spends_deferCallback x cb loc c m st :
  spends x st (m st).2 → spends x st (deferCallback cb loc c m st).2.
Proof.
  intros Hm. destruct cb as [cb|]; [|done]. cbn [deferCallback].
  apply spends_bind; [apply (runs_clockNow spend True)|]. intros start st' ->%clockNow_Ret.
  unfold observe. destruct (m st) as [r s1]. simpl in Hm.
  assert (spend s1 ((name ← orPanic nilDeref (qualifiedName loc); now ← clockNow c;
                     _ ← runCallback (EvCallback cb name (errOf r) (Since now start)); liftO r) s1).2) as Hs.
  { apply spend_runs.
    run_step; [auto with dig|]. run_step; [auto with dig|].
    run_step; [apply runs_runCallback; [apply _|intros; apply base_log; by destruct ev; naive_solver|done]|].
    by apply runs_liftO; [apply _|]. }
  assert (spends x st s1 → ∀ s2, spend s1 s2 → spends x st s2) as Hgo.
  { intros H1 s2 H2. eapply spends_weaken; [|by eapply spends_trans]. intros; simpl; lia. }
  destruct r; try done; by apply Hgo.
Qed.

(** One call of decorator [d]. *)
Definition one (d e : nat) : nat := if decide (e = d) then 1 else 0.

Lemma ready_started d dn st :
  st_dcors st !! d = Some dn → ready (upd_dcors (alter (set_state decoratorOnStack) d) st) d = 0.
Proof.
  intros Hd. unfold ready. rewrite decide_True; [done|]. left. unfold dstate. simpl.
  by rewrite list_lookup_alter_eq, Hd.
Qed.

Lemma ready_set d q st e :
  q ≠ decoratorReady → ready (upd_dcors (alter (set_state q) d) st) e <= ready st e.
Proof.
  intros Hq. unfold ready. rewrite dstate_alter. destruct (decide (d = e)) as [->|]; [|done].
  destruct (dstate st e) as [q'|]; simpl; [|done].
  case_decide as H1; case_decide; try lia. destruct H1. destruct q; auto. done.
Qed.

Lemma spends_invoke d inv fn args st : spends (one d) st (invoke_with inv (ByDcor d) fn args st).2.
Proof.
  assert (∀ b, spend st b → spends (one d) st b) as Hw.
  { intros b. apply spends_weaken. intros; simpl; lia. }
  destruct inv; simpl.
  - unfold defaultInvoker.
    apply spends_bind; [by apply (runs_liftO spend True)|]. intros u st' Hr. unfold liftO in Hr.
    injection Hr as _ <-. apply spends_bind; [reflexivity|]. intros s1 s2 [= <- <-].
    apply spends_then; [|intros a st'; by destruct (env_call _ _ _)].
    split; [done|]. exists [EvCall (ByDcor d) fn args]. split; [done|]. intros e.
    rewrite dcalls_self. unfold one, ready, dstate. simpl. lia.
  - apply Hw. unfold dryInvoker.
    apply spend_runs.
    run_step; [auto with dig|]. destruct a as [[ins outs] var]. auto with dig.
Qed.

Lemma spends_decoratorBody d dn s args st : spends (one d) st (decoratorBody d dn s args st).2.
Proof.
  unfold decoratorBody.
  apply spends_bind; [apply (runs_getScope spend True)|]. intros sc st1 [-> _]%getScope_Ret.
  apply spends_then; [apply spends_invoke|]. intros results st2.
  apply spend_runs.
  run_step; [apply base_zoom; intros; apply skel_eq_any, (ExtractList_runs skel_eq)|].
  apply runs_modifyS. split; [by apply (building_modDcor (Q := built))|]. exists [].
  split; [by rewrite app_nil_r|]. intros e. unfold dcalls. simpl. rewrite Nat.add_0_r. by apply ready_set.
Qed.

(** ** Nested calls *)

Section step.
Context (R : callees).
Context (HC : ∀ st n c, runs spend True (callC R n c) st).
Context (HD : ∀ st d s, dstate st d ≠ Some decoratorOnStack → runs spend True (callD R d s) st).

Lemma spend_BuildList pl c st : runs spend True (BuildList R pl c) st.
Proof.
  apply (runs_BuildList R st (λ _, True) (λ _, True) (λ s, skeleton s = skeleton st) spend);
    auto using spend_preorder.
  - intros. apply base_group, _.
  - intros s s' Hs Hb. by rewrite (sp_skel _ _ _ Hb).
Qed.

(** A decorator that is ready pays for its call. *)
Lemma spend_CallD d s st :
  dstate st d ≠ Some decoratorOnStack → spend st (decoratorNode_Call R d s st).2.
Proof.
  intros Hno. unfold decoratorNode_Call.
  destruct (st_dcors st !! d) as [dn|] eqn:Hd;
    [|unfold getDcor, mbind, SM_bind; simpl; by rewrite Hd].
  assert (getDcor d st = (Ret dn, st)) as Hget by (unfold getDcor, mbind, SM_bind; simpl; by rewrite Hd).
  rewrite (bind_step _ _ _ _ _ Hget). case_decide as Hcalled; [reflexivity|].
  set (st1 := upd_dcors (alter (set_state decoratorOnStack) d) st).
  rewrite (bind_step _ _ st () st1) by done.
  match goal with |- spend _ (?m st1).2 => assert (spends (one d) st1 (m st1).2) as Hm end.
  { apply spends_bind; [apply spend_runs, runs_wrapErr; auto with dig|]. intros _ st2 _.
    apply spends_bind; [apply spend_runs, runs_wrapErr, spend_BuildList|]. intros args st3 _.
    apply spends_bind.
    { apply spend_runs, runs_callBefore; [apply _|]. intros; apply base_log; by destruct ev; naive_solver. }
    intros _ st4 _. apply spends_bind; [apply (runs_getScope spend True)|]. intros ns st5 _.
    apply spends_deferCallback, spends_deferRecover, spends_decoratorBody. }
  revert Hm. match goal with |- _ → spend _ ?x => generalize x end.
  intros st' [Hk (new & Ht & Hnew)]. split; [rewrite Hk; by apply (building_modDcor (Q := built))|].
  exists new. split; [done|]. intros e. specialize (Hnew e). unfold one in Hnew.
  assert (ready st d = 1) as Hready.
  { unfold ready, dstate in *. rewrite Hd in *. simpl in *. rewrite decide_False; [done|].
    intros [H|H]; congruence. }
  destruct (decide (e = d)) as [->|Hne].
  - assert (ready st1 d = 0) by (by eapply ready_started). simpl in *. lia.
  - assert (ready st1 e <= ready st e) by (by apply ready_set). simpl in *. lia.
Qed.
End step.

Lemma knot_spend fuel :
  (∀ st n c, runs spend True (callC (knot fuel) n c) st) ∧
  (∀ st d s, dstate st d ≠ Some decoratorOnStack → runs spend True (callD (knot fuel) d s) st).
Proof.
  induction fuel as [|fuel [IHC IHD]].
  - split; intros; simpl; by apply runs_liftO; [apply _|].
  - split; intros; simpl.
    + apply calls_Call; [apply _|]. intros. by apply spend_BuildList.
    + split; [done|]. by apply spend_CallD.
Qed.

(** ** Programs *)

(** Every decorator has been called at most once, and not at all while it is ready. *)
Definition dcors_once (st : store) : Prop := ∀ d, dcalls d (st_trace st) + ready st d <= 1.

Definition keeps_once (a b : store) : Prop := dcors_once a → dcors_once b.

#[export] Instance keeps_once_preorder : PreOrder keeps_once.
Proof. split; [by intros a Ha|]. intros a b c Hab Hbc Ha. by apply Hbc, Hab. Qed.

Lemma keeps_once_same a b : st_trace b = st_trace a → st_dcors b = st_dcors a → keeps_once a b.
Proof. intros Ht Hd Ha d. unfold ready, dstate. rewrite Ht, Hd. apply Ha. Qed.

Lemma keeps_once_spend a b : spend a b → keeps_once a b.
Proof.
  intros [_ (new & Ht & Hnew)] Ha d. rewrite Ht, dcalls_app. specialize (Ha d). specialize (Hnew d).
  simpl in Hnew. lia.
Qed.

#[export] Instance keeps_once_registering : registering keeps_once.
Proof.
  split; [apply _|..].
  - intros s f st _. by apply keeps_once_same.
  - intros a b Ht _ _ Hd. by apply keeps_once_same.
  - intros cn st _. by apply keeps_once_same.
  - intros dn st _ Ha d. specialize (Ha d). unfold ready, dstate in *. simpl.
    destruct (decide (d < length (st_dcors st))) as [Hlt|Hge].
    + by rewrite lookup_app_l.
    + rewrite (lookup_ge_None_2 (st_dcors st)) in Ha by lia. simpl in Ha.
      case_decide; lia.
Qed.

Lemma once_Invoke fuel s function opts st : runs keeps_once True (Invoke fuel s function opts) st.
Proof.
  unfold Invoke, failM. destruct (TypeOf function) as [ftype|]; [|auto with dig].
  destruct function as [|t|f|t r]; try (by auto with dig). case_decide; [auto with dig|].
  run_step; [apply reg_newParamList, _|]. run_step; [apply runs_wrapErr; auto with dig|].
  run_step; [apply reg_verifyAcyclic, _|]. apply (runs_sub _ _ spend); [exact keeps_once_spend|].
  destruct (knot_spend fuel) as [HC HD].
  run_step; [by apply runs_wrapErr, spend_BuildList|]. run_step; [auto with dig|].
  apply runs_deferRecover; [apply _|]. unfold invokeBody.
  run_step; [case_match; [apply runs_modifyS, (spend_quiet _ _ []); by rewrite ?app_nil_r|auto with dig]|].
  run_step; [auto with dig|].
  run_step; [apply runs_invoke_with; [apply _|]; intros; by apply base_log|].
  destruct (last _) as [v|]; [|auto with dig]. run_step; [auto with dig|].
  destruct (isError _); [destruct (value_error v)|]; auto with dig.
Qed.

Lemma run_op_once o st : wf_store st → op_ok o st → dcors_once st → dcors_once (run_op o st).2.
Proof.
  assert (∀ {A} (m : M A) st, ((_ ← m; mret ()) st).2 = (m st).2) as Hbind.
  { intros A m st'. unfold mbind, SM_bind. by destruct (m st') as [[]]. }
  intros Hwf Hok. destruct o as [opts|s nm|s c opts|s d opts|fuel s f opts]; simpl in *.
  - rewrite Hbind. unfold New.
    rewrite (bind_step newScope _ st (length (st_scopes st)) (newScope st).2) by done.
    rewrite (bind_step _ _ _ _ _ (forEach_modScope opts _ applyOption _)). by apply keeps_once_same.
  - rewrite Hbind. destruct (Scope_Scope_wf s nm st Hwf Hok) as (ch & st' & -> & _ & _ & Hr & _).
    apply keeps_once_same; apply Hr.
  - apply (reg_Provide keeps_once). intros. apply reg_provideBody; [apply _|]. intros.
    apply runs_modifyS. by apply keeps_once_same.
  - apply (reg_Decorate keeps_once).
  - apply once_Invoke.
Qed.
End decorators.

(** C5: decorators run at most once.  In every program, whatever scopes, decorators and
    exports it uses and however its calls end, the history has at most one call of each
    decorator, also if that call failed or is nested in itself, and none while the
    decorator is ready. *)
Theorem decorators_at_most_once `{E : Env} st d :
  reachable st →
  dcalls d (st_trace st) <= 1 ∧
  (dstate st d = Some decoratorReady → dcalls d (st_trace st) = 0).
Proof.
  intros Hr. assert (wf_store st ∧ dcors_once st) as [_ Ho].
  { induction Hr as [|o st _ [Hwf Ho] Hok]; [split; [apply emptyStore_wf|by intros e]|].
    split; [by apply run_op_wf|by apply run_op_once]. }
  specialize (Ho d). split; [lia|]. intros Hd. unfold ready in Ho. rewrite Hd in Ho.
  rewrite decide_False in Ho by naive_solver. lia.
Qed.

(** ** Examples *)

Section decorators_example.
#[local] Existing Instance plainEnv.

(** A decorator [func(A, B) A] that needs itself through [func(A) B], used twice. *)
Definition onceOps : list op :=
  [OpNew []; OpProvide 0 (fn 40 1) []; OpProvide 0 (fn 41 2) []; OpDecorate 0 (fn 60 3) [];
   OpInvoke 10 0 (fn 44 4) []; OpInvoke 10 0 (fn 43 5) []].

Lemma decorators_at_most_once_witness :
  dcalls 0 (st_trace (run_ops onceOps emptyStore)) = 1 ∧
  dcalls 0 (st_trace (run_ops onceOps emptyStore)) <= 1 ∧
  (dstate (run_ops onceOps emptyStore) 0 = Some decoratorReady →
   dcalls 0 (st_trace (run_ops onceOps emptyStore)) = 0).
Proof.
  split; [vm_compute; reflexivity|].
  apply (decorators_at_most_once (run_ops onceOps emptyStore) 0).
  apply run_ops_reachable; [constructor|vm_compute; reflexivity].
Defined.
End decorators_example.
