(* ===== verification/CallLog.v ===== *)
(** * The container refines the log of its calls

    The abstract state of a container is its registrations and the log of the calls
    made to the user's functions.  What the scopes cache, and which constructors
    are marked as called, is no state of its own: replaying the log gives it back.
    The file defines the replay and shows that every operation keeps the caches
    equal to it. *)

From S2P Require Import Prelude Digraph GoLib GoTypes DigReflect Errors Group InOut.
From S2P Require Import Values DotTypes Result Store Options Scenario Param Call ResultProofs.
From S2P Require Import Deps Building ParamProofs Provide Decorate ProvideProofs Invoke.
From S2P Require Import Invariants Reachable Registering.

Open Scope string_scope.
Open Scope list_scope.

(** ** The abstract state of a scope *)

Record caches := mkCaches {
  c_values : gmap key value;
  c_decoratedValues : gmap key value;
  c_groups : gmap key (list value);
  c_decoratedGroups : gmap key value
}.

Definition noCaches : caches := mkCaches ∅ ∅ ∅ ∅.

Definition cachesOf (sc : Scope) : caches :=
  mkCaches (values sc) (decoratedValues sc) (groups sc) (decoratedGroups sc).

#[export] Instance caches_writer : containerWriter caches := {|
  setValue name t v := modifyS (λ c,
    mkCaches (<[valueKey name t := v]> (c_values c)) (c_decoratedValues c) (c_groups c)
             (c_decoratedGroups c));
  setDecoratedValue name t v := modifyS (λ c,
    mkCaches (c_values c) (<[valueKey name t := v]> (c_decoratedValues c)) (c_groups c)
             (c_decoratedGroups c));
  submitGroupedValue name t v := modifyS (λ c,
    mkCaches (c_values c) (c_decoratedValues c)
      (<[groupKey name t := default [] (c_groups c !! groupKey name t) ++ [v]]> (c_groups c))
      (c_decoratedGroups c));
  submitDecoratedGroupedValue name t v := modifyS (λ c,
    mkCaches (c_values c) (c_decoratedValues c) (c_groups c)
             (<[groupKey name t := v]> (c_decoratedGroups c)))
|}.

(** ** Replaying the log *)

(** Go through a log, event by event, with the part of the log before each. *)
Fixpoint foldLog {X} (step : list event → event → X → X) (pre evs : list event) (x : X) : X :=
  match evs with
  | [] => x
  | ev :: evs => foldLog step (pre ++ [ev]) evs (step pre ev x)
  end.

Section replay.
Context `{E : Env} (st : store).

(** What a call in the log added to the caches of scope [s].  A constructor adds
    nothing when it panicked or returned an error; a decorator that returned an
    error has added what came before the error. *)
Definition replayEvent (s : nat) (pre : list event) (ev : event) (c : caches) : caches :=
  match ev with
  | EvCall (ByCtor n) f args =>
      match st_ctors st !! n, env_call pre f args with
      | Some cn, Returned vs =>
          if decide (cn_s cn = s) then
            match ExtractList (cn_resultList cn) false vs newStagingContainerWriter with
            | (Ret _, receiver) => (Commit receiver c).2
            | _ => c
            end
          else c
      | _, _ => c
      end
  | EvCall (ByDcor d) f args =>
      match st_dcors st !! d, env_call pre f args with
      | Some dn, Returned vs =>
          if decide (dn_s dn = s) then (ExtractList (dn_results dn) true vs c).2 else c
      | _, _ => c
      end
  | _ => c
  end.

(** The caches of scope [s] after the whole log. *)
Definition replay (s : nat) : caches := foldLog (replayEvent s) [] (st_trace st) noCaches.

(** Does the log have a call of constructor [n] that returned without an error? *)
Definition replayCalled (n : nat) (pre : list event) (ev : event) (b : bool) : bool :=
  match ev with
  | EvCall (ByCtor m) f args =>
      b || (bool_decide (m = n) &&
            match st_ctors st !! n, env_call pre f args with
            | Some cn, Returned vs =>
                match ExtractList (cn_resultList cn) false vs newStagingContainerWriter with
                | (Ret _, _) => true
                | _ => false
                end
            | _, _ => false
            end)
  | _ => b
  end.

Definition logCalled (n : nat) : bool := foldLog (replayCalled n) [] (st_trace st) false.

(** Does the log have a call of decorator [d] that returned without an error? *)
Definition replayDecorated (d : nat) (pre : list event) (ev : event) (b : bool) : bool :=
  match ev with
  | EvCall (ByDcor e) f args =>
      b || (bool_decide (e = d) &&
            match st_dcors st !! d, env_call pre f args with
            | Some dn, Returned vs =>
                match ExtractList (dn_results dn) true vs noCaches with
                | (Ret _, _) => true
                | _ => false
                end
            | _, _ => false
            end)
  | _ => b
  end.

Definition logDecorated (d : nat) : bool := foldLog (replayDecorated d) [] (st_trace st) false.
End replay.

Definition dn_called (dn : decoratorNode) : bool := bool_decide (dn_state dn = decoratorCalled).

Lemma foldLog_snoc {X} (step : list event → event → X → X) pre evs ev x :
  foldLog step pre (evs ++ [ev]) x = step (pre ++ evs) ev (foldLog step pre evs x).
Proof.
  revert pre x; induction evs as [|e evs IH]; intros pre x; simpl; [by rewrite app_nil_r|].
  by rewrite IH, <-app_assoc.
Qed.

Lemma foldLog_ext {X} (f g : list event → event → X → X) pre evs x :
  (∀ pre ev x, ev ∈ evs → f pre ev x = g pre ev x) → foldLog f pre evs x = foldLog g pre evs x.
Proof.
  revert pre x; induction evs as [|e evs IH]; intros pre x H; simpl; [done|].
  rewrite H by set_solver. apply IH. intros. apply H. set_solver.
Qed.

(** ** Writing to a scope is writing to its caches *)

Section writers.
Context `{TT : TypeTable}.

(** [m] on a scope and [m'] on its caches end alike and agree. *)
Definition mirrors {A} (m : SM Scope A) (m' : SM caches A) : Prop :=
  ∀ sc, (m sc).1 = (m' (cachesOf sc)).1 ∧ cachesOf (m sc).2 = (m' (cachesOf sc)).2.

Lemma mirrors_bind {A B} (m : SM Scope A) m' (f : A → SM Scope B) f' :
  mirrors m m' → (∀ a, mirrors (f a) (f' a)) → mirrors (m ≫= f) (m' ≫= f').
Proof.
  intros Hm Hf sc. destruct (Hm sc) as [H1 H2]. unfold mbind, SM_bind.
  destruct (m sc) as [r sc1], (m' (cachesOf sc)) as [r' c1]. simpl in *. subst r' c1.
  destruct r; [apply Hf|done..].
Qed.

Lemma mirrors_liftO {A} (o : outcome A) : mirrors (liftO o) (liftO o).
Proof. done. Qed.

Lemma mirrors_forEach {A} (l : list A) (f : A → SM Scope ()) f' :
  (∀ x, x ∈ l → mirrors (f x) (f' x)) → mirrors (forEach l f) (forEach l f').
Proof.
  induction l as [|x l IH]; intros H; [done|]. rewrite !forEach_cons.
  apply mirrors_bind; [apply H; set_solver|]. intros _. apply IH. intros. apply H. set_solver.
Qed.

Lemma mirrors_setValue n t v : mirrors (setValue n t v) (setValue n t v).
Proof. by intros []. Qed.
Lemma mirrors_setDecoratedValue n t v : mirrors (setDecoratedValue n t v) (setDecoratedValue n t v).
Proof. by intros []. Qed.
Lemma mirrors_submit n t v : mirrors (submitGroupedValue n t v) (submitGroupedValue n t v).
Proof. by intros []. Qed.
Lemma mirrors_submitDecorated n t v :
  mirrors (submitDecoratedGroupedValue n t v) (submitDecoratedGroupedValue n t v).
Proof. by intros []. Qed.
Hint Resolve mirrors_bind mirrors_liftO mirrors_forEach mirrors_setValue mirrors_setDecoratedValue
  mirrors_submit mirrors_submitDecorated : core.

Lemma Extract_mirrors r decorated v : mirrors (Extract r decorated v) (Extract r decorated v).
Proof.
  revert v; induction r as [n t As|g t fl As|t fs IH|rl] using result_ind'; intros v;
    cbn [Extract resultSingle_Extract resultGrouped_Extract].
  - destruct decorated; [auto|]. apply mirrors_bind; auto.
  - destruct (_ && _); [apply mirrors_bind; auto|]. destruct decorated; [auto|].
    apply mirrors_bind; [apply mirrors_liftO|auto].
  - apply mirrors_forEach. intros f Hf. apply mirrors_bind; [apply mirrors_liftO|]. intros w.
    rewrite Forall_forall in IH. by apply IH.
  - apply mirrors_liftO.
Qed.

Lemma ExtractList_mirrors rl decorated vs :
  mirrors (ExtractList rl decorated vs) (ExtractList rl decorated vs).
Proof.
  unfold ExtractList. generalize 0. induction vs as [|v vs IH]; intros i; simpl.
  { apply mirrors_liftO. }
  apply mirrors_bind; [apply mirrors_liftO|]. intros idx. case_decide.
  - apply mirrors_bind; [apply mirrors_liftO|]. intros r.
    apply mirrors_bind; [apply Extract_mirrors|auto].
  - destruct (value_error v); [apply mirrors_liftO|auto].
Qed.

Lemma Commit_mirrors sr : mirrors (Commit sr) (Commit sr).
Proof. apply mirrors_bind; [auto|]. intros _. apply mirrors_forEach. auto. Qed.

(** How extraction ends does not depend on what is cached. *)
Definition blind {A} (m : SM caches A) : Prop := ∀ c c', (m c).1 = (m c').1.

Lemma blind_bind {A B} (m : SM caches A) (f : A → SM caches B) :
  blind m → (∀ a, blind (f a)) → blind (m ≫= f).
Proof.
  intros Hm Hf c c'. specialize (Hm c c'). unfold mbind, SM_bind.
  destruct (m c) as [r c1], (m c') as [r' c1']. simpl in Hm. subst r'. destruct r; [apply Hf|done..].
Qed.

Lemma blind_liftO {A} (o : outcome A) : blind (liftO o).
Proof. done. Qed.

Lemma blind_forEach {A} (l : list A) (f : A → SM caches ()) :
  (∀ x, x ∈ l → blind (f x)) → blind (forEach l f).
Proof.
  induction l as [|x l IH]; intros H; [done|]. rewrite forEach_cons.
  apply blind_bind; [apply H; set_solver|]. intros _. apply IH. intros. apply H. set_solver.
Qed.

Lemma Extract_blind r v : blind (Extract r true v).
Proof.
  revert v; induction r as [n t As|g t fl As|t fs IH|rl] using result_ind'; intros v; try done.
  cbn [Extract]. apply blind_forEach. intros f Hf. apply blind_bind; [apply blind_liftO|]. intros w.
  rewrite Forall_forall in IH. by apply IH.
Qed.

Lemma ExtractList_blind rl vs : blind (ExtractList rl true vs).
Proof.
  unfold ExtractList. generalize 0. induction vs as [|v vs IH]; intros i; [done|]. simpl.
  apply blind_bind; [apply blind_liftO|]. intros idx. case_decide.
  - apply blind_bind; [apply blind_liftO|]. intros r. apply blind_bind; [apply Extract_blind|auto].
  - destruct (value_error v); [apply blind_liftO|auto].
Qed.
End writers.

(** ** What the replay depends on *)

Section refinement.
Context `{E : Env}.

(** A call in the log is one of a registered node, whose scope exists. *)
Definition known (st : store) (ev : event) : Prop :=
  match ev with
  | EvCall (ByCtor n) f _ =>
      ∃ cn, st_ctors st !! n = Some cn ∧ cn_s cn < length (st_scopes st) ∧ cn_ctor cn = f
  | EvCall (ByDcor d) f _ =>
      ∃ dn, st_dcors st !! d = Some dn ∧ dn_s dn < length (st_scopes st) ∧ dn_dcor dn = f
  | _ => True
  end.

(** The registered nodes are still there, with their scopes and results. *)
Record keeps (a b : store) : Prop := {
  keeps_scopes : length (st_scopes a) <= length (st_scopes b);
  keeps_ctors : ∀ n cn, st_ctors a !! n = Some cn →
    ∃ cn', st_ctors b !! n = Some cn' ∧ cn_s cn' = cn_s cn ∧
           cn_resultList cn' = cn_resultList cn ∧ cn_ctor cn' = cn_ctor cn;
  keeps_dcors : ∀ d dn, st_dcors a !! d = Some dn →
    ∃ dn', st_dcors b !! d = Some dn' ∧ dn_s dn' = dn_s dn ∧
           dn_results dn' = dn_results dn ∧ dn_dcor dn' = dn_dcor dn
}.

#[export] Instance keeps_preorder : PreOrder keeps.
Proof.
  split; [split; [done|naive_solver..]|].
  intros a b c [L1 C1 D1] [L2 C2 D2]. split; [lia|..].
  - intros n cn Hn. destruct (C1 n cn Hn) as (cn1 & H1 & <- & <- & <-). by apply C2.
  - intros d dn Hd. destruct (D1 d dn Hd) as (dn1 & H1 & <- & <- & <-). by apply D2.
Qed.

Lemma keeps_skel a b : skeleton b = skeleton a → keeps a b.
Proof.
  intros Hk. split.
  - by rewrite (scopes_length _ _ Hk).
  - intros n cn Hn. destruct (ctor_same a b n cn (eq_sym Hk) Hn) as (cn' & Hn' & Hs).
    exists cn'. split; [done|]. by injection Hs.
  - intros d dn Hd. destruct (dcor_same a b d dn (eq_sym Hk) Hd) as (dn' & Hd' & Hs).
    exists dn'. split; [done|]. destruct dn, dn'. by injection Hs.
Qed.

Lemma known_keeps a b ev : keeps a b → known a ev → known b ev.
Proof.
  intros [HL HC HD]. destruct ev as [| [n|d|] f args|]; simpl; try done.
  - intros (cn & Hn & Hs & Hf). destruct (HC n cn Hn) as (cn' & Hn' & Hs' & _ & Hf').
    exists cn'. rewrite Hs', Hf'. by auto with lia.
  - intros (dn & Hd & Hs & Hf). destruct (HD d dn Hd) as (dn' & Hd' & Hs' & _ & Hf').
    exists dn'. rewrite Hs', Hf'. by auto with lia.
Qed.

Lemma replayEvent_keeps a b s pre ev c :
  keeps a b → known a ev → replayEvent b s pre ev c = replayEvent a s pre ev c.
Proof.
  intros [HL HC HD]. destruct ev as [| [n|d|] f args|]; simpl; try done.
  - intros (cn & Hn & _). destruct (HC n cn Hn) as (cn' & Hn' & Hs & Hr & _). by rewrite Hn, Hn', Hs, Hr.
  - intros (dn & Hd & _). destruct (HD d dn Hd) as (dn' & Hd' & Hs & Hr & _). by rewrite Hd, Hd', Hs, Hr.
Qed.

Lemma replayCalled_keeps a b n pre ev x :
  keeps a b → known a ev → replayCalled b n pre ev x = replayCalled a n pre ev x.
Proof.
  intros [HL HC HD]. destruct ev as [| [m|d|] f args|]; simpl; try done.
  intros (cn & Hm & _). case_bool_decide as Hn; [|done]. subst m.
  destruct (HC n cn Hm) as (cn' & Hn' & _ & Hr & _). by rewrite Hm, Hn', Hr.
Qed.

Lemma replayDecorated_keeps a b d pre ev x :
  keeps a b → known a ev → replayDecorated b d pre ev x = replayDecorated a d pre ev x.
Proof.
  intros [HL HC HD]. destruct ev as [| [m|e|] f args|]; simpl; try done.
  intros (dn & He & _). case_bool_decide as Hd; [|done]. subst e.
  destruct (HD d dn He) as (dn' & Hd' & _ & Hr & _). by rewrite He, Hd', Hr.
Qed.

(** ** The refinement *)

(** The caches of every scope and the marks of the constructors and decorators are what
    the log says; nothing is a dry run. *)
Record refines (st : store) : Prop := {
  ref_caches : ∀ s sc, st_scopes st !! s = Some sc → cachesOf sc = replay st s;
  ref_called : ∀ n cn, st_ctors st !! n = Some cn → cn_called cn = logCalled st n;
  ref_decorated : ∀ d dn, st_dcors st !! d = Some dn → dn_called dn = logDecorated st d;
  ref_known : Forall (known st) (st_trace st);
  ref_live : Forall (λ sc, sc_invokerFn sc = defaultInvokerFn) (st_scopes st)
}.

Lemma replay_keeps a b s :
  refines a → keeps a b → st_trace b = st_trace a → replay b s = replay a s.
Proof.
  intros Ha Hk Ht. unfold replay. rewrite Ht. apply foldLog_ext. intros pre ev c Hev.
  apply replayEvent_keeps; [done|]. pose proof (ref_known a Ha) as H. rewrite Forall_forall in H. auto.
Qed.

Lemma logCalled_keeps a b n :
  refines a → keeps a b → st_trace b = st_trace a → logCalled b n = logCalled a n.
Proof.
  intros Ha Hk Ht. unfold logCalled. rewrite Ht. apply foldLog_ext. intros pre ev c Hev.
  apply replayCalled_keeps; [done|]. pose proof (ref_known a Ha) as H. rewrite Forall_forall in H. auto.
Qed.

Lemma logDecorated_keeps a b d :
  refines a → keeps a b → st_trace b = st_trace a → logDecorated b d = logDecorated a d.
Proof.
  intros Ha Hk Ht. unfold logDecorated. rewrite Ht. apply foldLog_ext. intros pre ev c Hev.
  apply replayDecorated_keeps; [done|]. pose proof (ref_known a Ha) as H. rewrite Forall_forall in H. auto.
Qed.

(** A node or scope without events in the log. *)
Lemma replay_fresh st s :
  refines st → length (st_scopes st) <= s → replay st s = noCaches.
Proof.
  intros Hst Hs. pose proof (ref_known st Hst) as Hk. unfold replay.
  rewrite (foldLog_ext _ (λ _ _ c, c)).
  - generalize (@nil event). induction (st_trace st); simpl; auto. inversion Hk; auto.
  - intros pre ev c Hev. rewrite Forall_forall in Hk. specialize (Hk ev Hev).
    destruct ev as [| [n|d|] f args|]; simpl in *; try done.
    + destruct Hk as (cn & -> & Hn & _). destruct (env_call _ _ _); [|done]. by rewrite decide_False by lia.
    + destruct Hk as (dn & -> & Hd & _). destruct (env_call _ _ _); [|done]. by rewrite decide_False by lia.
Qed.

Lemma logCalled_fresh st n :
  refines st → length (st_ctors st) <= n → logCalled st n = false.
Proof.
  intros Hst Hn. unfold logCalled. rewrite (foldLog_ext _ (λ _ _ b, b)).
  - generalize (@nil event). induction (st_trace st); simpl; auto.
  - intros pre ev b _. destruct ev as [| [m|d|] f args|]; simpl; try done.
    rewrite (lookup_ge_None_2 _ _ Hn), andb_false_r. apply orb_false_r.
Qed.

Lemma logDecorated_fresh st d : length (st_dcors st) <= d → logDecorated st d = false.
Proof.
  intros Hd. unfold logDecorated. rewrite (foldLog_ext _ (λ _ _ b, b)).
  - generalize (@nil event). induction (st_trace st); simpl; auto.
  - intros pre ev b _. destruct ev as [| [m|e|] f args|]; simpl; try done.
    rewrite (lookup_ge_None_2 _ _ Hd), andb_false_r. apply orb_false_r.
Qed.

(** *** Steps without calls *)

Definition shown (sc : Scope) : caches * invokerFn := (cachesOf sc, sc_invokerFn sc).

Record quiet (a b : store) : Prop := {
  quiet_trace : st_trace b = st_trace a;
  quiet_keeps : keeps a b;
  quiet_scopes : shown <$> st_scopes b = shown <$> st_scopes a;
  quiet_ctors : ∃ l, st_ctors b = st_ctors a ++ l ∧ Forall (λ cn, cn_called cn = false) l;
  quiet_dcors : ∃ l, dn_called <$> st_dcors b = (dn_called <$> st_dcors a) ++ l ∧
                     Forall (λ c, c = false) l
}.

Lemma quiet_ctors_same a b :
  st_ctors b = st_ctors a → ∃ l, st_ctors b = st_ctors a ++ l ∧ Forall (λ cn, cn_called cn = false) l.
Proof. intros ->. exists []. by rewrite app_nil_r. Qed.
Lemma quiet_dcors_same a b :
  dn_called <$> st_dcors b = dn_called <$> st_dcors a →
  ∃ l, dn_called <$> st_dcors b = (dn_called <$> st_dcors a) ++ l ∧ Forall (λ c, c = false) l.
Proof. intros ->. exists []. by rewrite app_nil_r. Qed.
Hint Resolve quiet_ctors_same quiet_dcors_same : core.

#[export] Instance quiet_preorder : PreOrder quiet.
Proof.
  split; [intros a; split; [done|reflexivity|done|auto..]|].
  intros a b c [T1 K1 S1 (l1 & C1 & F1) (m1 & D1 & G1)] [T2 K2 S2 (l2 & C2 & F2) (m2 & D2 & G2)].
  split; [congruence|by etrans|congruence|exists (l1 ++ l2)|exists (m1 ++ m2)].
  - split; [by rewrite C2, C1, app_assoc|by apply Forall_app].
  - split; [by rewrite D2, D1, app_assoc|by apply Forall_app].
Qed.

Lemma quiet_called a b n cn :
  quiet a b → st_ctors b !! n = Some cn → cn_called cn = default false (cn_called <$> st_ctors a !! n).
Proof.
  intros [_ _ _ (l & -> & Hl) _] [->|[Hn Hl']]%lookup_app_Some; [done|].
  rewrite (lookup_ge_None_2 _ _ Hn). exact (Forall_lookup_1 _ _ _ _ Hl Hl').
Qed.

Lemma quiet_decorated a b d dn :
  quiet a b → st_dcors b !! d = Some dn → dn_called dn = default false (dn_called <$> st_dcors a !! d).
Proof.
  intros [_ _ _ _ (l & Hl & Hf)] Hd. apply (f_equal (lookup d)) in Hl.
  rewrite list_lookup_fmap, Hd in Hl. simpl in Hl.
  symmetry in Hl. apply lookup_app_Some in Hl as [Hl|[Hge Hl]].
  - rewrite list_lookup_fmap in Hl. by rewrite Hl.
  - rewrite length_fmap in Hge. rewrite (lookup_ge_None_2 _ _ Hge).
    exact (Forall_lookup_1 _ _ _ _ Hf Hl).
Qed.

Lemma quiet_refines a b : quiet a b → refines a → refines b.
Proof.
  intros Hq Ha. pose proof (quiet_called a b) as Hc. pose proof (quiet_decorated a b) as Hdc.
  destruct (id Hq) as [Ht Hk Hs _ _]. split.
  - intros s sc Hsc. rewrite (replay_keeps a b s Ha Hk Ht).
    apply (f_equal (lookup s)) in Hs. rewrite !list_lookup_fmap, Hsc in Hs.
    destruct (st_scopes a !! s) as [sa|] eqn:Hsa; [|done]. injection Hs as Hv Hd Hg Hdg _.
    rewrite <-(ref_caches a Ha s sa Hsa). unfold cachesOf. congruence.
  - intros n cn Hn. rewrite (logCalled_keeps a b n Ha Hk Ht), (Hc n cn) by done.
    destruct (st_ctors a !! n) as [cn0|] eqn:H0; simpl; [by apply (ref_called a Ha)|].
    symmetry. apply logCalled_fresh; [done|]. by apply lookup_ge_None.
  - intros d dn Hd. rewrite (logDecorated_keeps a b d Ha Hk Ht), (Hdc d dn) by done.
    destruct (st_dcors a !! d) as [dn0|] eqn:H0; simpl; [by apply (ref_decorated a Ha)|].
    symmetry. apply logDecorated_fresh. by apply lookup_ge_None.
  - rewrite Ht. eapply Forall_impl; [apply (ref_known a Ha)|]. intros ev. by apply known_keeps.
  - apply Forall_lookup. intros s sc Hsc. apply (f_equal (lookup s)) in Hs.
    rewrite !list_lookup_fmap, Hsc in Hs. destruct (st_scopes a !! s) as [sa|] eqn:Hsa; [|done].
    injection Hs as _ _ _ _ ->. exact (Forall_lookup_1 _ _ _ _ (ref_live a Ha) Hsa).
Qed.

(** Changes of what the replay does not look at. *)
Lemma quiet_scope s f st :
  (∀ sc, st_scopes st !! s = Some sc → shown (f sc) = shown sc) →
  quiet st (upd_scopes (alter f s) st).
Proof.
  intros Hf. split; simpl.
  - done.
  - split; simpl; [by rewrite length_alter|naive_solver..].
  - apply list_eq. intros i. rewrite !list_lookup_fmap.
    destruct (decide (i = s)) as [->|Hi].
    + rewrite list_lookup_alter_eq. destruct (st_scopes st !! s); simpl; [by rewrite Hf by done|done].
    + by rewrite list_lookup_alter_ne by done.
  - auto.
  - auto.
Qed.

Lemma quiet_same a b :
  st_trace b = st_trace a → st_scopes b = st_scopes a → st_ctors b = st_ctors a →
  st_dcors b = st_dcors a → quiet a b.
Proof.
  intros Ht Hs Hc Hd. split; [done| |by rewrite Hs|auto|rewrite Hd; auto].
  split; rewrite ?Hs, ?Hc, ?Hd; [done|naive_solver..].
Qed.

Lemma quiet_newCtor cn st :
  cn_called cn = false → quiet st (upd_ctors (λ l, l ++ [cn]) st).
Proof.
  intros Hc. split; simpl; [done|split; simpl|done| |by apply (quiet_dcors_same st st)].
  - done.
  - intros n cn0 Hn. exists cn0. split; [by apply lookup_app_l_Some|done].
  - naive_solver.
  - exists [cn]. auto.
Qed.

Lemma quiet_newDcor dn st :
  dn_state dn = decoratorReady → quiet st (upd_dcors (λ l, l ++ [dn]) st).
Proof.
  intros Hdn. split; simpl; [done|split; simpl|done|by apply (quiet_ctors_same st st)|].
  - done.
  - naive_solver.
  - intros d dn0 Hd. exists dn0. split; [by apply lookup_app_l_Some|done].
  - rewrite fmap_app. exists [dn_called dn]. split; [done|]. unfold dn_called. rewrite Hdn. by constructor.
Qed.

Lemma keeps_setState d q st : keeps st (upd_dcors (alter (set_state q) d) st).
Proof.
  split; simpl; [done|naive_solver|]. intros e dn He. destruct (decide (e = d)) as [->|Hne].
  - exists (set_state q dn). rewrite list_lookup_alter_eq, He. by destruct dn.
  - exists dn. by rewrite list_lookup_alter_ne by done.
Qed.

(** A decorator that has not returned yet is entered. *)
Lemma quiet_enter d dn st :
  st_dcors st !! d = Some dn → dn_state dn ≠ decoratorCalled →
  quiet st (upd_dcors (alter (set_state decoratorOnStack) d) st).
Proof.
  intros Hd Hdn. split; [done|apply keeps_setState|done|by apply (quiet_ctors_same st st)|].
  apply quiet_dcors_same. simpl. eapply fmap_alter_at; [done|]. unfold dn_called.
  rewrite !bool_decide_false; [done|done|by destruct dn].
Qed.
End refinement.
#[export] Hint Resolve quiet_preorder : dig.

(** ** What a constructor provided stays *)

Definition more_values (c c' : caches) : Prop :=
  ∀ k, is_Some (c_values c !! k) → is_Some (c_values c' !! k).

#[export] Instance more_values_preorder : PreOrder more_values.
Proof. split; [by intros c k|]. intros a b c H1 H2 k Hk. by apply H2, H1. Qed.

#[export] Instance caches_runs : writer_runs caches more_values.
Proof.
  split; intros n t v c; apply runs_modifyS; intros k Hk; simpl; try done.
  destruct (decide (valueKey n t = k)) as [<-|Hne];
    [by rewrite lookup_insert_eq|by rewrite lookup_insert_ne].
Qed.

Definition more_decorated (c c' : caches) : Prop :=
  ∀ k, is_Some (c_decoratedValues c !! k) → is_Some (c_decoratedValues c' !! k).

#[export] Instance more_decorated_preorder : PreOrder more_decorated.
Proof. split; [by intros c k|]. intros a b c H1 H2 k Hk. by apply H2, H1. Qed.

#[export] Instance caches_decorated : writer_runs caches more_decorated.
Proof.
  split; intros n t v c; apply runs_modifyS; intros k Hk; simpl; try done.
  destruct (decide (valueKey n t = k)) as [<-|Hne];
    [by rewrite lookup_insert_eq|by rewrite lookup_insert_ne].
Qed.

(** A decorator that returns writes every single value it decorates. *)
Lemma Extract_decorates `{TypeTable} r v (c c' : caches) n t As :
  resultSingle n t As ∈ result_leaves r → Extract r true v c = (Ret (), c') →
  is_Some (c_decoratedValues c' !! valueKey n t).
Proof.
  revert v c c'; induction r as [n' t' As'|g ty fl As'|ty fs IH|rl IH] using result_ind';
    intros v c c'; simpl.
  - intros [= <- <- <-]%list_elem_of_singleton [= <-]. simpl. by rewrite lookup_insert_eq.
  - by intros ?%list_elem_of_singleton.
  - intros (f & Hf & Hk)%elem_of_concat_map Hloop.
    eapply (forEach_round more_decorated False) in Hloop as (w1 & w2 & H1 & H2); [| |done].
    2: { intros. run_step; [apply runs_orPanic; apply _|]. apply (Extract_runs more_decorated). }
    apply bind_Ret in H1 as (fv & w1' & _ & H1). apply H2.
    rewrite Forall_forall in IH. by eapply IH.
  - by intros _ [=].
Qed.

Section kept.
Context `{E : Env}.

Lemma replayEvent_more_decorated st s pre ev c : more_decorated c (replayEvent st s pre ev c).
Proof.
  destruct ev as [| [n|d|] f args|]; simpl; try reflexivity.
  - destruct (st_ctors st !! n); [|reflexivity]. destruct (env_call _ _ _); [|reflexivity].
    case_decide; [|reflexivity]. destruct (ExtractList _ _ _ _) as [[] sr]; try reflexivity.
    exact (proj2 (CommitIn_runs more_decorated _ _ c)).
  - destruct (st_dcors st !! d); [|reflexivity]. destruct (env_call _ _ _); [|reflexivity].
    case_decide; [|reflexivity]. exact (proj2 (ExtractList_runs more_decorated _ _ _ c)).
Qed.

(** The single values that a decorator decorates are there once it has returned. *)
Lemma called_decorated st d dn opts sc n t As :
  refines st → st_dcors st !! d = Some dn → dn_state dn = decoratorCalled →
  (∃ ins outs var, FuncSig (fv_type (dn_dcor dn)) = Some (ins, outs, var)) →
  newResultList (fv_type (dn_dcor dn)) opts = Ret (dn_results dn) →
  st_scopes st !! dn_s dn = Some sc →
  resultSingle n t As ∈ result_leaves (resultList_ (dn_results dn)) →
  is_Some (decoratedValues sc !! valueKey n t).
Proof.
  intros Hst Hd Hc (ins & outs & var & Hsig) Hnew Hsc (r & Hr & Hk)%elem_of_concat_map.
  change (decoratedValues sc) with (c_decoratedValues (cachesOf sc)). rewrite (ref_caches st Hst _ _ Hsc).
  pose proof (ref_decorated st Hst _ _ Hd) as Hlog. unfold dn_called in Hlog.
  rewrite bool_decide_true in Hlog by done. symmetry in Hlog. pose proof (ref_known st Hst) as Hkn.
  unfold replay, logDecorated in *. revert Hlog Hkn.
  induction (st_trace st) as [|ev tr IH] using rev_ind; intros Hlog Hkn; [done|].
  apply Forall_app in Hkn as [Hkn Hev]. apply Forall_cons in Hev as [Hev _].
  rewrite foldLog_snoc in Hlog. rewrite foldLog_snoc. simpl app in *.
  set (b := foldLog (replayDecorated st d) [] tr false) in *.
  destruct b eqn:Hb; [by apply replayEvent_more_decorated, IH|].
  destruct ev as [| [m|e|] f args|]; simpl in *; try done. case_bool_decide; [subst e|done].
  destruct Hev as (dn' & Hd' & _ & Hf). simplify_eq. rewrite Hd in *. simpl in *.
  destruct (env_call tr (dn_dcor dn) args) as [vs|] eqn:Henv; [|done]. rewrite decide_True by done.
  set (c := foldLog _ _ _ _). pose proof (ExtractList_blind (dn_results dn) vs c noCaches) as Hend.
  destruct (ExtractList _ _ _ noCaches) as [[[]| | |] c0]; try done.
  destruct (ExtractList (dn_results dn) true vs c) as [r' c'] eqn:Hex. simpl in *. subst r'.
  destruct (env_call_typed tr (dn_dcor dn) args vs ins outs var Hsig Henv) as [Hty _].
  eapply (ExtractList_reaches more_decorated true (λ c, is_Some (c_decoratedValues c !! valueKey n t)));
    [intros c1 c2 H1 H2; by apply H2|by eapply newResultList_table| | |done|done].
  - apply (f_equal length) in Hty. by rewrite !length_fmap in Hty.
  - intros v c1 c2 Hx. by eapply Extract_decorates.
Qed.

Lemma replayEvent_more st s pre ev c : more_values c (replayEvent st s pre ev c).
Proof.
  destruct ev as [| [n|d|] f args|]; simpl; try reflexivity.
  - destruct (st_ctors st !! n); [|reflexivity]. destruct (env_call _ _ _); [|reflexivity].
    case_decide; [|reflexivity]. destruct (ExtractList _ _ _ _) as [[] sr]; try reflexivity.
    exact (proj2 (CommitIn_runs more_values _ _ c)).
  - destruct (st_dcors st !! d); [|reflexivity]. destruct (env_call _ _ _); [|reflexivity].
    case_decide; [|reflexivity]. exact (proj2 (ExtractList_runs more_values _ _ _ c)).
Qed.

Lemma Commit_value sr k v c :
  k = valueKey (k_name k) (k_t k) → sw_values sr !! k = Some v →
  is_Some (c_values (Commit sr c).2 !! k).
Proof.
  intros Hk Hv. unfold Commit, CommitIn, mbind, SM_bind.
  set (set1 := λ kv : key * value, setValue (W := caches) (k_name kv.1) (k_t kv.1) kv.2).
  destruct (forEach_total (map_to_list (sw_values sr)) set1 ltac:(intros; by eexists) c) as [c1 H1].
  rewrite H1. destruct (forEach_round more_values False (map_to_list (sw_values sr)) set1 (k, v) c c1) as (s1 & s2 & H2 & H3);
    [intros x s; apply setValue_runs|by apply elem_of_map_to_list|done|].
  match goal with |- is_Some (c_values (forEach ?l ?f c1).2 !! _) =>
    destruct (runs_forEach more_values False (λ _, True) (λ _ _ _ _, I) l f c1 I) as [_ Hr] end.
  { intros x s _ _. apply (runs_forEach more_values False (λ _, True)); try done.
    intros. apply submitGroupedValue_runs. }
  apply Hr, H3. injection H2 as <-. simpl. rewrite <-Hk. by rewrite lookup_insert_eq.
Qed.

(** The keys of a constructor that is marked as called have values in its scope. *)
Lemma called_values st n cn opts sc k :
  refines st → st_ctors st !! n = Some cn → cn_called cn = true →
  (∃ ins outs var, FuncSig (fv_type (cn_ctor cn)) = Some (ins, outs, var)) →
  newResultList (fv_type (cn_ctor cn)) opts = Ret (cn_resultList cn) →
  st_scopes st !! cn_s cn = Some sc → k ∈ value_keys (resultList_ (cn_resultList cn)) →
  is_Some (values sc !! k).
Proof.
  intros Hst Hn Hc (ins & outs & var & Hsig) Hnew Hsc Hk.
  change (values sc) with (c_values (cachesOf sc)). rewrite (ref_caches st Hst _ _ Hsc).
  rewrite (ref_called st Hst _ _ Hn) in Hc. pose proof (ref_known st Hst) as Hkn.
  unfold replay, logCalled in *. revert Hc Hkn.
  induction (st_trace st) as [|ev tr IH] using rev_ind; intros Hc Hkn; [done|].
  apply Forall_app in Hkn as [Hkn Hev]. apply Forall_cons in Hev as [Hev _].
  rewrite foldLog_snoc in Hc. rewrite foldLog_snoc. simpl app in *.
  set (b := foldLog (replayCalled st n) [] tr false) in *.
  destruct b eqn:Hb; [by apply replayEvent_more, IH|].
  destruct ev as [| [m|d|] f args|]; simpl in *; try done. case_bool_decide; [subst m|done].
  destruct Hev as (cn' & Hn' & _ & Hf). simplify_eq. rewrite Hn in *. simpl in *.
  destruct (env_call tr (cn_ctor cn) args) as [vs|] eqn:Henv; [|done].
  destruct (ExtractList _ _ _ _) as [[[]| | |] sr] eqn:Hex; try done. rewrite decide_True by done.
  destruct (env_call_typed tr (cn_ctor cn) args vs ins outs var Hsig Henv) as [Hty _].
  destruct (ExtractList_covers opts outs (cn_resultList cn) vs newStagingContainerWriter sr k)
    as [v Hv]; [by eapply newResultList_table| |done|done|].
  { apply (f_equal length) in Hty. by rewrite !length_fmap in Hty. }
  assert (staging_keys sr) as [Hkeys _] by (by eapply ExtractList_keys).
  eapply Commit_value; [by eapply Hkeys|done].
Qed.
End kept.

(** ** Registration calls nothing *)

Section registration.
Context `{E : Env}.

#[export] Instance quiet_registering : registering quiet.
Proof.
  split; [apply _| |exact quiet_same|exact quiet_newCtor|exact quiet_newDcor].
  intros s f st Hf. apply quiet_scope. intros sc _. specialize (Hf sc). unfold kept in Hf.
  unfold shown, cachesOf. congruence.
Qed.

Lemma quiet_modScope F s f st :
  (∀ sc, shown (f sc) = shown sc) → runs quiet F (modScope s f) st.
Proof. intros Hf. apply runs_modifyS, quiet_scope. auto. Qed.

Lemma quiet_Provide s c opts st : runs quiet True (Provide s c opts) st.
Proof.
  apply reg_Provide; [apply _|]. intros. apply reg_provideBody; [apply _|].
  intros. apply quiet_modScope. by intros [].
Qed.
End registration.

(** ** Calls *)

Section calls.
Context `{E : Env}.

(** One more event: the caches and the marks change as its replay says. *)
Lemma refines_event st st' ev :
  refines st → known st ev → keeps st st' → st_trace st' = st_trace st ++ [ev] →
  (∀ s sc', st_scopes st' !! s = Some sc' → ∃ sc, st_scopes st !! s = Some sc ∧
     cachesOf sc' = replayEvent st s (st_trace st) ev (cachesOf sc) ∧
     sc_invokerFn sc' = sc_invokerFn sc) →
  (∀ n cn', st_ctors st' !! n = Some cn' → ∃ cn, st_ctors st !! n = Some cn ∧
     cn_called cn' = replayCalled st n (st_trace st) ev (cn_called cn)) →
  (∀ d dn', st_dcors st' !! d = Some dn' → ∃ dn, st_dcors st !! d = Some dn ∧
     dn_called dn' = replayDecorated st d (st_trace st) ev (dn_called dn)) →
  refines st'.
Proof.
  intros Hst Hev Hk Ht Hs Hc Hd.
  assert (Forall (known st) (st_trace st ++ [ev])) as Hkn.
  { apply Forall_app. split; [apply Hst|by constructor]. }
  assert (∀ e, e ∈ st_trace st ++ [ev] → known st e) as Hkn' by (by apply Forall_forall).
  split.
  - intros s sc' Hsc'. destruct (Hs s sc' Hsc') as (sc & Hsc & -> & _).
    rewrite (ref_caches st Hst s sc Hsc). unfold replay. rewrite Ht.
    rewrite (foldLog_ext (replayEvent st' s) (replayEvent st s)); [by rewrite foldLog_snoc|].
    intros. apply replayEvent_keeps; auto.
  - intros n cn' Hn'. destruct (Hc n cn' Hn') as (cn & Hn & ->).
    rewrite (ref_called st Hst n cn Hn). unfold logCalled. rewrite Ht.
    rewrite (foldLog_ext (replayCalled st' n) (replayCalled st n)); [by rewrite foldLog_snoc|].
    intros. apply replayCalled_keeps; auto.
  - intros d dn' Hd'. destruct (Hd d dn' Hd') as (dn & Hdn & ->).
    rewrite (ref_decorated st Hst d dn Hdn). unfold logDecorated. rewrite Ht.
    rewrite (foldLog_ext (replayDecorated st' d) (replayDecorated st d)); [by rewrite foldLog_snoc|].
    intros. apply replayDecorated_keeps; auto.
  - rewrite Ht. eapply Forall_impl; [exact Hkn|]. intros e. by apply known_keeps.
  - apply Forall_lookup. intros s sc' Hsc'. destruct (Hs s sc' Hsc') as (sc & Hsc & _ & ->).
    exact (Forall_lookup_1 _ _ _ _ (ref_live st Hst) Hsc).
Qed.

(** An event that adds nothing. *)
Lemma refines_log st ev :
  refines st → known st ev →
  (∀ s c, replayEvent st s (st_trace st) ev c = c) →
  (∀ n b, replayCalled st n (st_trace st) ev b = b) →
  (∀ d b, replayDecorated st d (st_trace st) ev b = b) →
  refines (upd_trace (λ tr, tr ++ [ev]) st).
Proof.
  intros Hst Hev Hs Hc Hd. eapply refines_event; [done|done| |done|..]; simpl.
  - split; simpl; [done|naive_solver..].
  - intros s sc Hsc. exists sc. by rewrite Hs.
  - intros n cn Hn. exists cn. by rewrite Hc.
  - intros d dn Hdn. exists dn. by rewrite Hd.
Qed.

Lemma defaultInvoker_cases who f args st :
  (∃ r, defaultInvoker who f args st = (r, st) ∧ ∀ vs, r ≠ Ret vs) ∨
  defaultInvoker who f args st =
    (match env_call (st_trace st) f args with
     | Returned vs => Ret vs
     | Panicked id quoted => Panic_ (PUser id quoted)
     end, upd_trace (λ tr, tr ++ [EvCall who f args]) st).
Proof.
  unfold defaultInvoker, mbind, SM_bind, liftO.
  destruct (checkCall f args) as [[]|e|p|]; [right|by left; eexists..].
  simpl. by destruct (env_call _ _ _).
Qed.

(** What follows a call of constructor [n] in the log. *)
Lemma storeResults_refines n cn cn' f args vs st :
  st_ctors st !! n = Some cn' → cn_s cn' = cn_s cn → cn_resultList cn' = cn_resultList cn →
  cn_ctor cn' = f →
  cn_s cn < length (st_scopes st) → env_call (st_trace st) f args = Returned vs → refines st →
  refines (storeResults n cn vs (upd_trace (λ tr, tr ++ [EvCall (ByCtor n) f args]) st)).2.
Proof.
  intros Hn Hs Hr Hf Hlt Henv Hst. set (ev := EvCall (ByCtor n) f args).
  assert (known st ev) as Hev by (exists cn'; by rewrite Hs).
  assert (∀ m b, replayCalled st m (st_trace st) ev b =
            b || (bool_decide (n = m) &&
                  match ExtractList (cn_resultList cn) false vs newStagingContainerWriter with
                  | (Ret _, _) => true | _ => false end)) as Hcalled.
  { intros m b. simpl. case_bool_decide as Hm; [subst m|done]. by rewrite Hn, Henv, Hr. }
  assert (∀ s c, replayEvent st s (st_trace st) ev c =
            if decide (cn_s cn = s) then
              match ExtractList (cn_resultList cn) false vs newStagingContainerWriter with
              | (Ret _, sr) => (Commit sr c).2 | _ => c end
            else c) as Hreplay.
  { intros s c. simpl. by rewrite Hn, Henv, Hs, Hr. }
  unfold storeResults.
  destruct (ExtractList _ _ _ _) as [[u|e|p|] sr] eqn:Hex;
    [|apply refines_log; [done|done|intros s c; rewrite Hreplay; by case_decide|
                          intros m b; rewrite Hcalled; by rewrite andb_false_r, orb_false_r|done]..].
  destruct (lookup_lt_is_Some_2 _ _ Hlt) as [sc Hsc].
  unfold mbind, SM_bind, zoomScope. cbn [st_scopes upd_trace]. rewrite Hsc.
  destruct (Commit_mirrors sr sc) as [_ Hcm].
  destruct (CommitIn_Scope (map_to_list (sw_values sr)) (map_to_list (sw_groups sr)) sc) as [sc' Hcommit].
  unfold Commit in *. rewrite Hcommit in *. simpl in Hcm.
  eapply (refines_event st _ ev); [done|done| |done|..].
  - split; simpl; [by rewrite length_insert| |naive_solver].
    intros m cm Hm. rewrite list_lookup_alter. case_decide; [|naive_solver]. subst m. rewrite Hm.
    eexists. by destruct cm.
  - intros s sc0 Hs0. simpl in Hs0. destruct (decide (cn_s cn = s)) as [<-|Hne].
    + rewrite list_lookup_insert_eq in Hs0 by done. injection Hs0 as <-. exists sc.
      split; [done|]. split; [by rewrite Hreplay, decide_True|].
      pose proof (CommitIn_runs skel_eq (map_to_list (sw_values sr)) (map_to_list (sw_groups sr)) sc)
        as [_ [Hskel _]]. rewrite Hcommit in Hskel. by injection Hskel.
    + rewrite list_lookup_insert_ne in Hs0 by done. exists sc0. split; [done|].
      by rewrite Hreplay, decide_False.
  - intros m cm Hm. simpl in Hm. rewrite list_lookup_alter in Hm. case_decide as Hnm.
    + subst m. rewrite Hn in Hm. injection Hm as <-. exists cn'. split; [done|].
      rewrite Hcalled, bool_decide_true by done. by rewrite orb_true_r.
    + exists cm. split; [done|]. rewrite Hcalled, bool_decide_false by done. by rewrite orb_false_r.
  - intros d dn Hd. by exists dn.
Qed.

Lemma constructorBody_refines n cn cn' c args st :
  st_ctors st !! n = Some cn' → cn_s cn' = cn_s cn → cn_resultList cn' = cn_resultList cn →
  cn_ctor cn' = cn_ctor cn →
  cn_s cn < length (st_scopes st) → refines st → refines (constructorBody n cn c args st).2.
Proof.
  intros Hn Hs Hr Hf Hlt Hst. unfold constructorBody, getScope, mbind, SM_bind. simpl.
  destruct (st_scopes st !! c) as [sc|] eqn:Hc; simpl; [|done].
  rewrite (Forall_lookup_1 _ _ _ _ (ref_live st Hst) Hc). simpl.
  destruct (defaultInvoker_cases (ByCtor n) (cn_ctor cn) args st) as [(r & -> & Hr')| ->].
  - destruct r; [by destruct (Hr' a)|done..].
  - destruct (env_call _ _ _) as [vs|id q] eqn:Henv; simpl.
    + by eapply storeResults_refines.
    + apply refines_log; [done|exists cn'; by rewrite Hs|intros s c'|intros m b|done]; simpl; rewrite Henv.
      * by destruct (st_ctors st !! n).
      * destruct (st_ctors st !! m); by destruct b, (bool_decide (n = m)).
Qed.

Lemma decoratorBody_refines d dn dn' s args st :
  st_dcors st !! d = Some dn' → dn_s dn' = dn_s dn → dn_results dn' = dn_results dn →
  dn_dcor dn' = dn_dcor dn →
  dn_s dn < length (st_scopes st) → refines st → refines (decoratorBody d dn s args st).2.
Proof.
  intros Hd Hs Hr Hf Hlt Hst. unfold decoratorBody, getScope, mbind, SM_bind. simpl.
  destruct (st_scopes st !! s) as [sc|] eqn:Hc; simpl; [|done].
  rewrite (Forall_lookup_1 _ _ _ _ (ref_live st Hst) Hc). simpl.
  destruct (defaultInvoker_cases (ByDcor d) (dn_dcor dn) args st) as [(r & -> & Hr')| ->].
  { destruct r; [by destruct (Hr' a)|done..]. }
  set (ev := EvCall (ByDcor d) (dn_dcor dn) args).
  assert (known st ev) as Hev by (exists dn'; by rewrite Hs).
  destruct (env_call _ _ _) as [vs|id q] eqn:Henv; simpl.
  2: { apply refines_log; [done|done|simpl; intros; rewrite Henv; by destruct (st_dcors st !! d)|done|].
       intros e b. simpl. rewrite Henv. by destruct (st_dcors st !! e), b, (bool_decide (d = e)). }
  destruct (lookup_lt_is_Some_2 _ _ Hlt) as [sc0 Hsc0]. unfold zoomScope. cbn [st_scopes upd_trace].
  rewrite Hsc0. destruct (ExtractList_mirrors (dn_results dn) true vs sc0) as [Hend Hcm].
  rewrite (ExtractList_blind _ _ _ noCaches) in Hend.
  pose proof (ExtractList_runs skel_eq (dn_results dn) true vs sc0) as [_ [Hskel _]].
  destruct (ExtractList (dn_results dn) true vs sc0) as [r sc']. simpl in Hcm, Hskel, Hend.
  assert (∀ e b, replayDecorated st e (st_trace st) ev b =
            b || (bool_decide (d = e) && match r with Ret _ => true | _ => false end)) as Hdeco.
  { intros e b. simpl. case_bool_decide as He; [subst e|done]. rewrite Hd, Henv, Hr, Hend.
    by destruct (ExtractList _ _ _ noCaches) as [[] ?]. }
  assert (∀ f, keeps st (upd_dcors f st) →
    (∀ e dn2, f (st_dcors st) !! e = Some dn2 → ∃ dn1, st_dcors st !! e = Some dn1 ∧
       dn_called dn2 = replayDecorated st e (st_trace st) ev (dn_called dn1)) →
    refines (upd_dcors f (upd_scopes <[dn_s dn := sc']> (upd_trace (λ tr, tr ++ [ev]) st)))) as Hfin.
  { intros g [_ _ HgD] Hg. eapply (refines_event st _ ev); [done|done| |done|..]; simpl.
    - split; simpl; [by rewrite length_insert|naive_solver|done].
    - intros s1 sc1 Hs1. rewrite Hd, Henv, Hs, Hr. destruct (decide (dn_s dn = s1)) as [<-|Hne].
      + rewrite list_lookup_insert_eq in Hs1 by done. injection Hs1 as <-. exists sc0.
        split; [done|]. split; [done|]. by injection Hskel.
      + rewrite list_lookup_insert_ne in Hs1 by done. by exists sc1.
    - intros n cn Hn. by exists cn.
    - exact Hg. }
  assert ((∀ u, r ≠ Ret u) → refines (upd_scopes <[dn_s dn := sc']> (upd_trace (λ tr, tr ++ [ev]) st)))
    as Hfail.
  { intros Hno. apply (Hfin id); [by split; [|naive_solver..]|]. intros e dn1 Hdn1. exists dn1.
    split; [done|]. rewrite Hdeco. destruct r; [by destruct (Hno a)|by rewrite andb_false_r, orb_false_r..]. }
  destruct r; [|by apply Hfail..]. apply Hfin; [apply keeps_setState|]. intros e dn2 Hdn2.
  rewrite list_lookup_alter in Hdn2. case_decide as Hde.
  - subst e. rewrite Hd in Hdn2. injection Hdn2 as <-. exists dn'. split; [done|].
    rewrite Hdeco, bool_decide_true by done. rewrite orb_true_r. by destruct dn'.
  - exists dn2. split; [done|]. rewrite Hdeco, bool_decide_false by done. by rewrite orb_false_r.
Qed.
End calls.

(** ** Building keeps the refinement *)

Definition rep `{Env} (a b : store) : Prop :=
  skeleton b = skeleton a ∧ (refines a → refines b).

#[export] Instance rep_preorder `{Env} : PreOrder rep.
Proof. split; [by split|]. intros a b c [? ?] [? ?]. split; [congruence|auto]. Qed.
#[export] Hint Resolve rep_preorder : dig.

Section building.
Context `{E : Env}.

Lemma rep_log_free ev st :
  (∀ who f args, ev ≠ EvCall who f args) → rep st (upd_trace (λ tr, tr ++ [ev]) st).
Proof.
  intros Hev. split; [done|]. intros Hst. destruct ev as [|who f args|]; [|by destruct (Hev who f args)|];
    by apply refines_log.
Qed.

Lemma rep_enter d dn st :
  st_dcors st !! d = Some dn → dn_state dn ≠ decoratorCalled →
  rep st (upd_dcors (alter (set_state decoratorOnStack) d) st).
Proof.
  intros Hd Hdn. split; [|by eapply quiet_refines, quiet_enter].
  by apply (building_skel (Q := built)), building_modDcor.
Qed.

Lemma rep_zoomGroup s name t st : runs rep True (zoomScope s (getValueGroup name t)) st.
Proof.
  split; [done|]. split; [apply (eff_skel (λ _, True)), (runs_zoomGroup _ True)|].
  unfold zoomScope. destruct (st_scopes st !! s) as [sc|] eqn:Hs; [|done].
  destruct (runs_getValueGroup True name t sc) as [_ Hr].
  destruct (getValueGroup name t sc) as [r sc']. simpl in *. apply quiet_refines.
  split; simpl; [done|split; simpl; [by rewrite length_insert|naive_solver..]| |
    by apply (quiet_ctors_same st st)|by apply (quiet_dcors_same st st)].
  rewrite list_fmap_insert. assert (shown sc' = shown sc) as ->.
  { destruct sc, sc'. unfold rand_eq in Hr. simpl in Hr. by injection Hr; intros; subst. }
  rewrite <-list_fmap_insert. by rewrite list_insert_id.
Qed.

Section step.
Context (R : callees).
Context (HC : ∀ st n c, runs rep True (callC R n c) st).
Context (HD : ∀ st d s, runs rep True (callD R d s) st).

Lemma rep_BuildList pl c st : runs rep True (BuildList R pl c) st.
Proof.
  apply (runs_BuildList R st (λ _, True) (λ _, True) (λ s, skeleton s = skeleton st) rep);
    auto using rep_zoomGroup.
  intros s s' Hs [Hk _]. congruence.
Qed.

Lemma rep_Call n c st : runs rep True (constructorNode_Call R n c) st.
Proof.
  unfold constructorNode_Call. read. destruct (cn_called a); [auto with dig|].
  run_step; [apply runs_wrapErr; auto with dig|].
  run_step; [apply runs_wrapErr, rep_BuildList|].
  run_step; [apply runs_callBefore; [apply _|apply rep_log_free]|].
  read. apply runs_deferCallback; [apply _|apply rep_log_free|].
  apply runs_deferRecover; [apply _|]. split; [done|]. split.
  { exact (built_skel _ _ (proj2 (calls_constructorBody built True _ _ _ _ _))). }
  assert (skeleton st = skeleton s1) as Hk by (destruct HR0, HR1, HR2; congruence).
  destruct (ctor_same _ _ _ _ Hk Hrun) as (cn' & Hn' & Hs).
  apply constructorBody_refines with cn'; [done|by injection Hs..|].
  by eapply lookup_lt_Some.
Qed.

Lemma rep_CallD d s st : runs rep True (decoratorNode_Call R d s) st.
Proof.
  unfold decoratorNode_Call. read. case_decide; [auto with dig|].
  run_step; [by apply runs_modifyS; eapply rep_enter|].
  run_step; [apply runs_wrapErr; auto with dig|].
  run_step; [apply runs_wrapErr, rep_BuildList|].
  run_step; [apply runs_callBefore; [apply _|apply rep_log_free]|].
  read. apply runs_deferCallback; [apply _|apply rep_log_free|].
  apply runs_deferRecover; [apply _|]. split; [done|]. split.
  { exact (built_skel _ _ (proj2 (calls_decoratorBody built True _ _ _ _ _))). }
  assert (skeleton st = skeleton s3) as Hk by (destruct HR0, HR1, HR2, HR3; congruence).
  destruct (dcor_same _ _ _ _ Hk Hrun) as (dn' & Hd' & Hs).
  apply decoratorBody_refines with dn'; [done|destruct a, dn'; by injection Hs..|].
  by eapply lookup_lt_Some.
Qed.
End step.

Lemma knot_rep fuel :
  (∀ st n c, runs rep True (callC (knot fuel) n c) st) ∧
  (∀ st d s, runs rep True (callD (knot fuel) d s) st).
Proof.
  induction fuel as [|fuel [IHC IHD]].
  - split; intros; simpl; by apply runs_liftO; [apply _|].
  - split; intros; [by apply rep_Call|by apply rep_CallD].
Qed.
End building.

(** ** Every operation keeps the refinement *)

Definition ref_step `{Env} (a b : store) : Prop := refines a → refines b.

#[export] Instance ref_step_preorder `{Env} : PreOrder ref_step.
Proof. by split; unfold ref_step; [intros a|intros a b c; auto]. Qed.
#[export] Hint Resolve ref_step_preorder : dig.

(** The options that leave the container making real calls. *)
Definition option_live (o : Option_) : bool :=
  match o with dryRunOption dry => negb dry | _ => true end.

Definition op_live (o : op) : bool :=
  match o with OpNew opts => forallb option_live opts | _ => true end.

Section operations.
Context `{E : Env}.

Lemma runs_quiet {A} (m : M A) st : runs quiet True m st → runs ref_step True m st.
Proof. apply runs_sub. intros a b Hq Ha. by eapply quiet_refines. Qed.

Lemma runs_rep {A} (m : M A) st : runs rep True m st → runs ref_step True m st.
Proof. apply runs_sub. by intros a b [_ H]. Qed.

Lemma ref_newScope st : runs ref_step True newScope st.
Proof.
  unfold newScope. read. run_step; [|auto with dig]. apply runs_modifyS.
  set (sc := mkScope _ _ _ _ _ _ _ _ _ _ _ _ _ _ _ _ _). intros Hst.
  assert (keeps st (upd_scopes (λ l, l ++ [sc]) st)) as Hk.
  { split; simpl; [rewrite length_app; lia|naive_solver..]. }
  split; simpl.
  - intros s sc' [Hs|[Hs Hs']]%lookup_app_Some.
    + rewrite (replay_keeps st) by done. by apply ref_caches.
    + apply list_lookup_singleton_Some in Hs' as [_ <-].
      rewrite (replay_keeps st) by done. symmetry. by apply replay_fresh.
  - intros n cn Hn. rewrite (logCalled_keeps st) by done. by apply ref_called.
  - intros d dn Hd. rewrite (logDecorated_keeps st) by done. by apply ref_decorated.
  - eapply Forall_impl; [apply (ref_known st Hst)|]. intros ev. by apply known_keeps.
  - apply Forall_app. split; [apply (ref_live st Hst)|by repeat constructor].
Qed.

Lemma ref_New opts st : forallb option_live opts = true → runs ref_step True (New opts) st.
Proof.
  intros Hopts. unfold New. run_step; [apply ref_newScope|]. run_step; [|auto with dig].
  apply (runs_forEach ref_step True (λ _, True)); [done|done|]. intros o st' Ho _.
  rewrite forallb_forall in Hopts. specialize (Hopts o (proj1 (list_elem_of_In _ _) Ho)).
  apply runs_modifyS. intros Hst. eapply quiet_refines, Hst. apply quiet_scope. intros sc Hsc.
  pose proof (Forall_lookup_1 _ _ _ _ (ref_live _ Hst) Hsc) as Hl.
  destruct o as [| | | |[]], sc; try done. unfold shown in *. simpl in *. by subst.
Qed.

Lemma ref_Scope s name st : runs ref_step True (Scope_Scope s name) st.
Proof.
  unfold Scope_Scope. run_step; [apply ref_newScope|]. read. rename Hrun0 into Hpar.
  run_step.
  { apply runs_modifyS. intros Hst. eapply quiet_refines, Hst. apply quiet_scope. intros sc Hsc.
    pose proof (Forall_lookup_1 _ _ _ _ (ref_live _ Hst) Hsc) as Hl.
    pose proof (Forall_lookup_1 _ _ _ _ (ref_live _ Hst) Hpar) as Hp.
    unfold shown. simpl. by rewrite Hl, Hp. }
  run_step.
  { apply (runs_forEach ref_step True (λ _, True)); [done|done|]. intros w st' _ _.
    run_step; [apply runs_quiet, (reg_set_gh quiet)|]. destruct w; [|auto with dig].
    unfold CopyOrder. read. apply runs_quiet, runs_modifyS. by apply quiet_same. }
  run_step; [|auto with dig]. apply runs_quiet, quiet_modScope. by intros [].
Qed.

Lemma ref_Invoke fuel s f opts st : runs ref_step True (Invoke fuel s f opts) st.
Proof.
  unfold Invoke, failM. destruct (TypeOf f); [|auto with dig].
  destruct f as [| |f|]; try (by auto with dig). case_decide; [auto with dig|].
  run_step; [apply runs_quiet, (reg_newParamList quiet)|].
  run_step; [apply runs_wrapErr; auto with dig|].
  run_step; [apply runs_quiet, (reg_verifyAcyclic quiet)|].
  destruct (knot_rep fuel) as [HC HD].
  run_step; [by apply runs_wrapErr, runs_rep, rep_BuildList|].
  run_step; [auto with dig|]. apply runs_deferRecover; [apply _|]. unfold invokeBody. cbv zeta.
  run_step; [destruct (io_Info _); [apply runs_quiet, (reg_infos quiet)|auto with dig]|].
  run_step; [auto with dig|].
  run_step; [apply runs_invoke_with; [apply _|]; intros st' Hst'; by apply refines_log|].
  destruct (last _); [|auto with dig]. run_step; [auto with dig|].
  repeat case_match; auto with dig.
Qed.

Lemma run_op_refines o st : op_live o = true → refines st → refines (run_op o st).2.
Proof.
  intros Ho. assert (runs ref_step True (run_op o) st) as [_ H]; [|exact H].
  destruct o as [opts|s nm|s c opts|s d opts|fuel s f opts]; simpl in *.
  - run_step; [by apply ref_New|auto with dig].
  - run_step; [apply ref_Scope|auto with dig].
  - apply runs_quiet, quiet_Provide.
  - apply runs_quiet, (reg_Decorate quiet).
  - apply ref_Invoke.
Qed.

Lemma run_ops_refines os st : forallb op_live os = true → refines st → refines (run_ops os st).
Proof.
  revert st; induction os as [|o os IH]; intros st Hos Hst; [done|]. simpl in Hos.
  apply andb_true_iff in Hos as [Ho Hos]. by apply IH, run_op_refines.
Qed.

Lemma emptyStore_refines : refines emptyStore.
Proof. split; [done|done|done|constructor..]. Qed.
End operations.

(** C7: the container refines its log.  Whatever calls a program makes on containers
    (none made for dry runs), and however they end, the values, the decorated values
    and the value groups every scope holds are exactly what replaying the log of
    calls gives, each constructor's results committed all at once or not at all,
    and a constructor or decorator is marked as called exactly if the log has a call of
    it that returned without an error. *)
Theorem container_refines_log `{E : Env} os :
  forallb op_live os = true →
  let st := run_ops os emptyStore in
  (∀ s sc, st_scopes st !! s = Some sc → cachesOf sc = replay st s) ∧
  (∀ n cn, st_ctors st !! n = Some cn → cn_called cn = logCalled st n) ∧
  (∀ d dn, st_dcors st !! d = Some dn → dn_state dn = decoratorCalled ↔ logDecorated st d = true).
Proof.
  intros Hos st. destruct (run_ops_refines os emptyStore Hos emptyStore_refines) as [H1 H2 H3 _ _].
  split; [done|]. split; [done|]. intros d dn Hd. unfold st.
  rewrite <-(H3 d dn Hd). unfold dn_called. by rewrite bool_decide_eq_true.
Qed.

(** ** An example *)

Section log_example.
#[local] Existing Instance plainEnv.

(** Members of a value group, a decorator of [A] in a child scope, and two
    invocations there. *)
Definition logOps : list op :=
  [OpNew []; OpProvide 0 (fn 51 1) []; OpProvide 0 (fn 40 2) []; OpScope 0 "child";
   OpDecorate 1 (fn 59 3) []; OpProvide 0 (fn 41 4) []; OpInvoke 6 1 (fn 43 5) [];
   OpInvoke 6 1 (fn 50 6) []].

Lemma container_refines_log_witness :
  length (st_trace (run_ops logOps emptyStore)) = 5 ∧
  (∀ s sc, st_scopes (run_ops logOps emptyStore) !! s = Some sc →
     cachesOf sc = replay (run_ops logOps emptyStore) s) ∧
  size (c_values (replay (run_ops logOps emptyStore) 0)) = 1 ∧
  size (c_decoratedValues (replay (run_ops logOps emptyStore) 1)) = 1.
Proof.
  split; [vm_compute; reflexivity|]. split; [|split; vm_compute; reflexivity].
  apply (container_refines_log logOps). reflexivity.
Defined.
End log_example.
