(* ===== verification/Offers.v ===== *)
(** * The providers of a key provide it (provide.go)

    A constructor that is registered for a value key provides a value under that key,
    in the scope where it is registered, unless a value group has an empty name: the
    key of such a group is the key of a plain value. *)

From S2P Require Import Prelude Digraph GoLib GoTypes DigReflect Errors Group InOut.
From S2P Require Import Values DotTypes Result Store Options Scenario Param Call ResultProofs.
From S2P Require Import Deps Building ParamProofs Provide Decorate ProvideProofs Invoke.
From S2P Require Import Invariants Reachable Registering CallLog.

Open Scope string_scope.
Open Scope list_scope.

(** No value group of a constructor has an empty name. *)
Definition groups_named (st : store) : Prop :=
  ∀ n cn k, st_ctors st !! n = Some cn → k ∈ group_keys (resultList_ (cn_resultList cn)) →
            k_group k ≠ "".

Definition offers (st : store) (s : nat) (k : key) (n : nat) : Prop :=
  ∃ cn, st_ctors st !! n = Some cn ∧ cn_s cn = s ∧ k ∈ value_keys (resultList_ (cn_resultList cn)).

Definition providers_offer (st : store) : Prop :=
  ∀ s sc k n, st_scopes st !! s = Some sc → k_group k = "" → n ∈ getProviders sc k → offers st s k n.

Record offer_step (a b : store) : Prop := {
  offer_keeps : keeps a b;
  offer_ok : groups_named b → providers_offer a → providers_offer b
}.

Lemma groups_named_keeps a b : keeps a b → groups_named b → groups_named a.
Proof.
  intros Hk Hb n cn k Hn Hin. destruct (keeps_ctors _ _ Hk n cn Hn) as (cn' & Hn' & _ & Hr & _).
  apply (Hb n cn' k); [done|]. by rewrite Hr.
Qed.

Lemma offers_keeps a b s k n : keeps a b → offers a s k n → offers b s k n.
Proof.
  intros Hk (cn & Hn & Hs & Hin). destruct (keeps_ctors _ _ Hk n cn Hn) as (cn' & Hn' & Hs' & Hr & _).
  exists cn'. by rewrite Hs', Hr.
Qed.

#[export] Instance offer_step_preorder : PreOrder offer_step.
Proof.
  split; [by split|]. intros a b c [K1 O1] [K2 O2]. split; [by etrans|].
  intros Hc Ha. apply O2; [done|]. apply O1; [by eapply groups_named_keeps|done].
Qed.
#[export] Hint Resolve offer_step_preorder : dig.

(** Every scope has providers that it, or no scope, had before. *)
Lemma offer_same a b :
  keeps a b →
  (∀ s sc k, st_scopes b !! s = Some sc → getProviders sc k = [] ∨
     ∃ sa, st_scopes a !! s = Some sa ∧ getProviders sc k = getProviders sa k) →
  offer_step a b.
Proof.
  intros Hk Hs. split; [done|]. intros _ Ha s sc k n Hsc Hg Hn.
  destruct (Hs s sc k Hsc) as [H|(sa & Hsa & H)]; rewrite H in Hn; [by apply elem_of_nil in Hn|].
  eapply offers_keeps; [done|]. by apply (Ha s sa).
Qed.

Lemma keeps_same a b :
  length (st_scopes b) = length (st_scopes a) → st_ctors b = st_ctors a → st_dcors b = st_dcors a →
  keeps a b.
Proof. intros Hl Hc Hd. split; rewrite ?Hl, ?Hc, ?Hd; [done|naive_solver..]. Qed.

(** One scope gets other providers. *)
Lemma offer_providers s f st :
  (∀ sc k n, groups_named st → st_scopes st !! s = Some sc → k_group k = "" →
     n ∈ getProviders (f sc) k → n ∈ getProviders sc k ∨ offers st s k n) →
  offer_step st (upd_scopes (alter f s) st).
Proof.
  intros Hf. split; [by apply keeps_same; simpl; rewrite ?length_alter|].
  intros Hb Ha s' sc' k n Hs' Hg Hn. simpl in Hs'. rewrite list_lookup_alter in Hs'.
  case_decide as Heq; [subst s'|by apply (Ha s' sc')].
  destruct (st_scopes st !! s) as [sc|] eqn:Hs; [|done]. injection Hs' as <-.
  destruct (Hf sc k n Hb eq_refl Hg Hn) as [?|?]; [by apply (Ha s sc)|done].
Qed.

#[export] Instance offer_registering : registering offer_step.
Proof.
  split; [apply _|..].
  - intros s f st Hf. apply offer_providers. intros sc k n _ _ _ Hn. left.
    specialize (Hf sc). unfold kept in Hf. unfold getProviders in *.
    assert (providers (f sc) = providers sc) as <- by congruence. done.
  - intros a b _ Hs Hc Hd. apply offer_same; [by apply keeps_same; rewrite ?Hs|].
    rewrite Hs. intros s sc k Hsc. right. by exists sc.
  - intros cn st Hc. apply offer_same; [apply (quiet_newCtor cn st Hc)|].
    intros s sc k Hsc. right. by exists sc.
  - intros dn st Hdn. apply offer_same; [apply (quiet_newDcor dn st Hdn)|].
    intros s sc k Hsc. right. by exists sc.
Qed.

Lemma offer_skel a b : skeleton b = skeleton a → offer_step a b.
Proof.
  intros Hk. apply offer_same; [by apply keeps_skel|]. intros s sc k Hsc. right.
  destruct (scope_same b a s sc Hk Hsc) as (sa & Hsa & Heq). exists sa. split; [done|].
  unfold getProviders. by injection Heq as _ -> _ _ _ _ _ _ _ _ _.
Qed.

Section operations.
Context `{E : Env}.

Lemma newConstructorNode_at ctor s s0 o st n st' :
  newConstructorNode ctor s s0 o st = (Ret n, st') →
  ∃ cn, st_ctors st' !! n = Some cn ∧ cn_s cn = s.
Proof.
  unfold newConstructorNode. intros H.
  apply bind_Ret in H as (pl & s1 & _ & H). apply bind_Ret in H as (rl & s2 & _ & H).
  apply bind_Ret in H as (or & s3 & _ & H). apply bind_Ret in H as (s3' & s4 & [= <- <-] & H).
  apply bind_Ret in H as ([] & s5 & [= <-] & H). apply bind_Ret in H as ([] & s6 & Hg & [= <- <-]).
  match type of Hg with newGraphNode ?s ?w ?o ?st = _ =>
    destruct (reg_newGraphNode quiet s w o st) as [_ Hq] end.
  rewrite Hg in Hq. destruct Hq as [_ _ _ (l & Hl & _)]. simpl in Hl. rewrite Hl.
  rewrite <-app_assoc, lookup_app_r, Nat.sub_diag by done. simpl. by eexists.
Qed.

(** The node [n] is registered with results [rl] in scope [s]. *)
Definition node_at (n s : nat) (rl : resultList) (st : store) : Prop :=
  ∃ cn, st_ctors st !! n = Some cn ∧ cn_s cn = s ∧ cn_resultList cn = rl.

Lemma node_at_keeps n s rl a b : node_at n s rl a → offer_step a b → node_at n s rl b.
Proof.
  intros (cn & Hn & <- & <-) [Hk _]. destruct (keeps_ctors _ _ Hk n cn Hn) as (cn' & ? & ? & ? & _).
  by exists cn'.
Qed.

(** A value key of a node without nameless groups is the key of a value. *)
Lemma node_value_key n s rl k st :
  groups_named st → node_at n s rl st → k_group k = "" →
  k ∈ value_keys (resultList_ rl) ∨ k ∈ group_keys (resultList_ rl) →
  k ∈ value_keys (resultList_ rl).
Proof.
  intros Hg (cn & Hn & _ & Hr) Hk [|Hin]; [done|]. exfalso. rewrite <-Hr in Hin.
  by apply (Hg n cn k Hn Hin).
Qed.

Lemma offer_addProviders n s rl keys st :
  node_at n s rl st →
  (∀ k, k ∈ keys → k ∈ value_keys (resultList_ rl) ∨ k ∈ group_keys (resultList_ rl)) →
  runs offer_step True (addProviders s n keys) st.
Proof.
  intros Hn Hkeys. apply (runs_forEach offer_step True (node_at n s rl)); [apply node_at_keeps|done|].
  intros k st1 Hk Hn1. apply runs_modifyS, offer_providers. intros sc k' m Hg Hs Hk' Hm.
  unfold getProviders in *. destruct sc; simpl in *. destruct (decide (k = k')) as [<-|Hne].
  - rewrite lookup_insert_eq in Hm. simpl in Hm. apply elem_of_app in Hm as [?|Hm]; [by left|right].
    apply list_elem_of_singleton in Hm as ->. pose proof (node_value_key n s rl k st1) as Hv.
    destruct Hn1 as (cn & Hcn & Hcs & Hr). exists cn. rewrite Hr. split_and!; [done|done|].
    apply Hv; auto. by exists cn.
  - rewrite lookup_insert_ne in Hm by done. by left.
Qed.

Lemma offer_verifyScopes n s rl old l st :
  node_at n s rl st →
  (∀ k ns, (k, ns) ∈ old →
     (k ∈ value_keys (resultList_ rl) ∧ ns = []) ∨ k ∈ group_keys (resultList_ rl)) →
  runs offer_step True (verifyScopes old l) st.
Proof.
  intros Hn Hold. apply (runs_forEach offer_step True (node_at n s rl)); [apply node_at_keeps|done|].
  intros s1 st1 _ Hn1. run_step; [auto with dig|].
  assert (node_at n s rl s0) as Hn2 by (by eapply node_at_keeps). read.
  destruct (deferAcyclicVerification _); [auto with dig|].
  run_step; [by apply (reg_checkAcyclic offer_step)|].
  assert (node_at n s rl s2) as Hn3 by (by eapply node_at_keeps).
  destruct a1; [|auto with dig]. run_step; [|run_step; auto with dig].
  apply (runs_forEach offer_step True (node_at n s rl)); [apply node_at_keeps|done|].
  intros [k ns] st2 Hk Hn4. apply runs_modifyS, offer_providers. intros sc k' m Hg Hs Hk' Hm.
  unfold getProviders in *. destruct sc; simpl in *. destruct (decide (k = k')) as [<-|Hne].
  - rewrite lookup_insert_eq in Hm. simpl in Hm. exfalso. destruct (Hold k ns Hk) as [[_ ->]|Hin].
    + by apply elem_of_nil in Hm.
    + destruct Hn4 as (cn & Hcn & _ & <-). by apply (Hg n cn k).
  - rewrite lookup_insert_ne in Hm by done. by left.
Qed.

Lemma offer_provideBody ctor opts s s0 l st :
  runs offer_step True (provideBody ctor opts s s0 l) st.
Proof.
  unfold provideBody, failM. run_step; [by apply (reg_newConstructorNode offer_step)|].
  apply newConstructorNode_at in Hrun as (cn & Hn & Hs). read. simplify_eq. read.
  run_step; [by apply runs_liftO; [apply _|]|]. rename a into n, a0 into keys.
  unfold liftO in Hrun. injection Hrun as Hfind <-.
  pose proof (findAndValidateResults_ok (providerLocations s1 (cn_s cn)) (cn_resultList cn)) as Hok.
  rewrite Hfind in Hok. destruct Hok as (Hkeys & _ & Hfree).
  assert (node_at n (cn_s cn) (cn_resultList cn) s1) as Hat by (by exists cn).
  case_decide; [auto with dig|]. read. rename Hrun into Hsc.
  run_step.
  { eapply offer_addProviders; [done|]. intros k Hk. by apply Hkeys, elem_of_elements. }
  run_step; [|run_step; [auto with dig|destruct (po_Info _); auto with dig]].
  eapply offer_verifyScopes; [by eapply node_at_keeps|]. intros k ns Hin.
  apply list_elem_of_fmap in Hin as (k' & [= -> ->] & Hk'%elem_of_elements%Hkeys).
  destruct Hk' as [Hv|Hg]; [left|by right]. split; [done|].
  eapply providerLocations_nil; [done|]. by apply Hfree.
Qed.

Lemma offer_Provide s c opts st : runs offer_step True (Provide s c opts) st.
Proof. apply reg_Provide; [apply _|]. intros. apply offer_provideBody. Qed.

Lemma runs_built {A} (m : M A) st : runs built True m st → runs offer_step True m st.
Proof. apply runs_sub. intros a b [Hk _ _]. by apply offer_skel. Qed.

Lemma offer_Invoke fuel s f opts st : runs offer_step True (Invoke fuel s f opts) st.
Proof.
  unfold Invoke, failM. destruct (TypeOf f); [|auto with dig].
  destruct f as [| |f|]; try (by auto with dig). case_decide; [auto with dig|].
  run_step; [by apply (reg_newParamList offer_step)|].
  run_step; [apply runs_wrapErr; auto with dig|].
  run_step; [by apply (reg_verifyAcyclic offer_step)|].
  destruct (knot_built built fuel) as [HC HD].
  run_step; [apply runs_wrapErr, runs_built, (built_BuildList built _ HC HD)|].
  run_step; [auto with dig|]. apply runs_deferRecover; [apply _|]. unfold invokeBody. cbv zeta.
  run_step; [destruct (io_Info _); auto with dig|]. run_step; [auto with dig|].
  run_step; [apply runs_invoke_with; [apply _|]; intros; by apply offer_skel|].
  destruct (last _); [|auto with dig]. run_step; [auto with dig|].
  repeat case_match; auto with dig.
Qed.

Lemma offer_newScope st : runs offer_step True newScope st.
Proof.
  unfold newScope. read. run_step; [|auto with dig]. apply runs_modifyS, offer_same.
  - split; simpl; [rewrite length_app; lia|naive_solver..].
  - intros s sc k [Hs|[Hs Hs']]%lookup_app_Some; [right; by exists sc|left].
    by apply list_lookup_singleton_Some in Hs' as [_ <-].
Qed.

Lemma offer_run_op o st : runs offer_step True (run_op o) st.
Proof.
  destruct o as [opts|s nm|s c opts|s d opts|fuel s f opts]; simpl.
  - run_step; [|auto with dig]. unfold New. run_step; [apply offer_newScope|].
    run_step; [|auto with dig]. apply (runs_forEach offer_step True (λ _, True)); try done.
    intros o st' _ _. apply runs_modifyS, offer_providers. intros sc k n _ _ _ Hn. left.
    by destruct o as [| | | |[]], sc.
  - run_step; [|auto with dig]. unfold Scope_Scope. run_step; [apply offer_newScope|]. read.
    run_step; [apply runs_modifyS, offer_providers; by left|].
    run_step; [|run_step; [|auto with dig]; apply runs_modifyS, offer_providers; intros []; by left].
    apply (runs_forEach offer_step True (λ _, True)); try done. intros w st' _ _.
    run_step; [auto with dig|]. destruct w; [|auto with dig]. unfold CopyOrder. read.
    apply runs_modifyS. by apply registering_same.
  - apply offer_Provide.
  - by apply (reg_Decorate offer_step).
  - apply offer_Invoke.
Qed.

Lemma run_ops_offer os st : offer_step st (run_ops os st).
Proof.
  revert st; induction os as [|o os IH]; intros st; [reflexivity|]. simpl.
  etrans; [exact (proj2 (offer_run_op o st))|apply IH].
Qed.

(** In every program without nameless groups. *)
Lemma program_offers os :
  groups_named (run_ops os emptyStore) → providers_offer (run_ops os emptyStore).
Proof. intros Hg. apply (run_ops_offer os emptyStore); [done|]. by intros s sc k n. Qed.
End operations.
