(* ===== verification/ScopeTree.v ===== *)
(** * The tree of scopes (scope.go)

    [ancestors] and [subscopes] are the two walks over the tree that lookups and
    registrations use; on a well-formed store they are converse, and both visit
    every scope once. *)

From S2P Require Import Prelude Digraph GoLib GoTypes DigReflect Errors Group InOut.
From S2P Require Import Values DotTypes Result Store Scenario Param Call ResultProofs.
From S2P Require Import Options Deps Building ParamProofs Provide Decorate ProvideProofs Invoke.
From S2P Require Import Invariants Reachable.

Open Scope string_scope.
Open Scope list_scope.

Section tree.
Context (st : store) (Hwf : wf_store st).
Let scs : list Scope := st_scopes st.

(** ** Ancestors *)

Lemma ancestors_from_enough fuel fuel' s :
  s < fuel → s < fuel' → ancestors_from scs fuel (Some s) = ancestors_from scs fuel' (Some s).
Proof.
  revert fuel' s; induction fuel as [|fuel IH]; intros [|fuel'] s H H'; try lia. simpl.
  destruct (scs !! s) as [sc|] eqn:Hs; [|done]. f_equal.
  destruct (parentScope sc) as [p|] eqn:Hp; [|by destruct fuel, fuel'].
  destruct (wf_parent _ Hwf _ _ _ Hs Hp) as [Hlt _]. apply IH; lia.
Qed.

(** The recursive equation of the walk. *)
Lemma ancestors_eq s sc :
  scs !! s = Some sc →
  ancestors scs s = s :: match parentScope sc with Some p => ancestors scs p | None => [] end.
Proof.
  intros Hs. unfold ancestors. simpl. rewrite Hs. f_equal.
  destruct (parentScope sc) as [p|] eqn:Hp; [|by destruct s].
  destruct (wf_parent _ Hwf _ _ _ Hs Hp) as [Hlt _].
  exact (ancestors_from_enough s (S p) p Hlt (Nat.lt_succ_diag_r p)).
Qed.

Lemma ancestors_none s : scs !! s = None → ancestors scs s = [].
Proof. intros Hs. unfold ancestors. simpl. by rewrite Hs. Qed.

(** Induction along the parents. *)
Lemma parent_ind (P : nat → Prop) :
  (∀ s, scs !! s = None → P s) →
  (∀ s sc, scs !! s = Some sc → (∀ p, parentScope sc = Some p → P p) → P s) → ∀ s, P s.
Proof.
  intros Hnone Hsome s. induction s as [s IH] using lt_wf_ind.
  destruct (scs !! s) as [sc|] eqn:Hs; [|auto]. eapply Hsome; [done|]. intros p Hp.
  apply IH. by destruct (wf_parent _ Hwf _ _ _ Hs Hp).
Qed.

Lemma ancestors_self s : s < length scs → s ∈ ancestors scs s.
Proof.
  intros [sc Hs]%lookup_lt_is_Some. rewrite (ancestors_eq s sc Hs). set_solver.
Qed.

Lemma ancestors_le s x : x ∈ ancestors scs s → x <= s.
Proof.
  induction s as [s Hs|s sc Hs IH] using parent_ind; [rewrite ancestors_none by done; set_solver|].
  rewrite (ancestors_eq s sc Hs). intros [->|Hx]%elem_of_cons; [done|].
  destruct (parentScope sc) as [p|] eqn:Hp; [|set_solver].
  destruct (wf_parent _ Hwf _ _ _ Hs Hp) as [Hlt _]. specialize (IH p eq_refl Hx). lia.
Qed.

Lemma ancestors_trans a b c : a ∈ ancestors scs b → b ∈ ancestors scs c → a ∈ ancestors scs c.
Proof.
  intros Hab. induction c as [c Hc|c sc Hc IH] using parent_ind;
    [rewrite (ancestors_none c) by done; set_solver|].
  rewrite (ancestors_eq c sc Hc). intros [->|Hb]%elem_of_cons.
  - by rewrite <- (ancestors_eq c sc Hc).
  - destruct (parentScope sc) as [p|]; [|set_solver]. apply elem_of_cons. right. by apply IH.
Qed.

(** Two ancestors of a scope are comparable. *)
Lemma ancestors_linear a b c :
  a ∈ ancestors scs c → b ∈ ancestors scs c → a ∈ ancestors scs b ∨ b ∈ ancestors scs a.
Proof.
  induction c as [c Hc|c sc Hc IH] using parent_ind;
    [rewrite ancestors_none by done; set_solver|].
  intros Ha Hb. rewrite (ancestors_eq c sc Hc) in Ha, Hb.
  apply elem_of_cons in Ha as [->|Ha], Hb as [->|Hb].
  - left. apply ancestors_self. by eapply lookup_lt_Some.
  - right. rewrite (ancestors_eq c sc Hc). by apply elem_of_cons; right.
  - left. rewrite (ancestors_eq c sc Hc). by apply elem_of_cons; right.
  - destruct (parentScope sc) as [p|]; [|set_solver]. by apply (IH p).
Qed.

Lemma child_ancestor s sc c :
  scs !! s = Some sc → c ∈ childScopes sc → s ∈ ancestors scs c ∧ s < c.
Proof.
  intros Hs Hc. destruct (wf_children _ Hwf _ _ _ Hs Hc) as (Hlt & cc & Hcc & Hp).
  split; [|done]. rewrite (ancestors_eq c cc Hcc), Hp. apply elem_of_cons. right.
  apply ancestors_self. by eapply lookup_lt_Some.
Qed.

(** Below [s] but not [s] itself: below one of its children. *)
Lemma ancestors_child s sc x :
  scs !! s = Some sc → s ∈ ancestors scs x →
  x = s ∨ ∃ c, c ∈ childScopes sc ∧ c ∈ ancestors scs x.
Proof.
  intros Hs. induction x as [x Hx|x sx Hx IH] using parent_ind;
    [rewrite ancestors_none by done; set_solver|].
  rewrite (ancestors_eq x sx Hx). intros [->|Hin]%elem_of_cons; [by left|]. right.
  destruct (parentScope sx) as [p|] eqn:Hp; [|set_solver].
  destruct (IH p eq_refl Hin) as [->|(c & Hc & Hcp)].
  - destruct (wf_parent _ Hwf _ _ _ Hx Hp) as (_ & pc & Hpc & Hxc).
    assert (pc = sc) as -> by (subst scs; congruence). exists x. split; [done|set_solver].
  - exists c. split; [done|]. apply elem_of_cons. by right.
Qed.

(** ** Subscopes *)

Lemma appendSubscopes_app fuel dest s :
  appendSubscopes scs fuel dest s = dest ++ appendSubscopes scs fuel [] s.
Proof.
  revert dest s; induction fuel as [|fuel IH]; intros dest s; simpl; [by rewrite app_nil_r|].
  destruct (scs !! s) as [sc|]; [|by rewrite app_nil_r].
  assert (∀ l a b, foldl (appendSubscopes scs fuel) (a ++ b) l =
                   a ++ foldl (appendSubscopes scs fuel) b l) as Hfold.
  { induction l as [|c l IHl]; intros a b; simpl; [done|].
    by rewrite (IH (a ++ b)), (IH b), <- app_assoc, IHl. }
  by rewrite Hfold.
Qed.

Lemma appendSubscopes_eq fuel s sc :
  scs !! s = Some sc →
  appendSubscopes scs (S fuel) [] s =
  s :: concat (map (appendSubscopes scs fuel []) (childScopes sc)).
Proof.
  intros Hs. simpl. rewrite Hs.
  assert (∀ l acc, foldl (appendSubscopes scs fuel) acc l =
                   acc ++ concat (map (appendSubscopes scs fuel []) l)) as Hfold.
  { induction l as [|c l IH]; intros acc; simpl; [by rewrite app_nil_r|].
    by rewrite IH, appendSubscopes_app, <- app_assoc. }
  by rewrite Hfold.
Qed.

Lemma appendSubscopes_elem fuel s x :
  s < length scs → length scs - s <= fuel →
  x ∈ appendSubscopes scs fuel [] s ↔ s ∈ ancestors scs x.
Proof.
  revert s; induction fuel as [|fuel IH]; intros s Hs Hf; [lia|].
  destruct (lookup_lt_is_Some_2 _ _ Hs) as [sc Hsc].
  rewrite (appendSubscopes_eq _ _ _ Hsc), elem_of_cons, elem_of_concat_map.
  assert (∀ c, c ∈ childScopes sc → c < length scs ∧ s ∈ ancestors scs c ∧ s < c) as Hch.
  { intros c Hc. destruct (wf_children _ Hwf _ _ _ Hsc Hc) as (_ & cc & Hcc & _).
    split; [by eapply lookup_lt_Some|]. by eapply child_ancestor. }
  split.
  - intros [->|(c & Hc & Hx)]; [by apply ancestors_self|].
    destruct (Hch c Hc) as (Hcl & Hsc' & Hlt). apply IH in Hx; [|done|lia].
    by eapply ancestors_trans.
  - intros Hx. destruct (ancestors_child _ _ _ Hsc Hx) as [->|(c & Hc & Hcx)]; [by left|right].
    destruct (Hch c Hc) as (Hcl & _ & Hlt). exists c. split; [done|]. apply IH; [done|lia|done].
Qed.

(** Different children have nothing below them in common. *)
Lemma siblings_disjoint s sc c c' x :
  scs !! s = Some sc → c ∈ childScopes sc → c' ∈ childScopes sc →
  c ∈ ancestors scs x → c' ∈ ancestors scs x → c = c'.
Proof.
  intros Hs. revert c c'.
  assert (∀ c c', c ∈ childScopes sc → c' ∈ childScopes sc → c ∈ ancestors scs c' → c = c') as H.
  { intros c c' Hc Hc' Hin. destruct (wf_children _ Hwf _ _ _ Hs Hc') as (_ & cc & Hcc & Hp).
    rewrite (ancestors_eq c' cc Hcc), Hp in Hin. apply elem_of_cons in Hin as [->|Hin]; [done|].
    apply ancestors_le in Hin. destruct (child_ancestor _ _ _ Hs Hc). lia. }
  intros c c' Hc Hc' H1 H2. destruct (ancestors_linear _ _ _ H1 H2); [auto|symmetry; auto].
Qed.

Lemma appendSubscopes_NoDup fuel s :
  s < length scs → length scs - s <= fuel → NoDup (appendSubscopes scs fuel [] s).
Proof.
  revert s; induction fuel as [|fuel IH]; intros s Hs Hf; [lia|].
  destruct (lookup_lt_is_Some_2 _ _ Hs) as [sc Hsc]. rewrite (appendSubscopes_eq _ _ _ Hsc).
  assert (∀ c, c ∈ childScopes sc → c < length scs ∧ s < c) as Hch.
  { intros c Hc. destruct (wf_children _ Hwf _ _ _ Hsc Hc) as (? & cc & Hcc & _).
    split; [by eapply lookup_lt_Some|done]. }
  constructor.
  - rewrite elem_of_concat_map. intros (c & Hc & Hin). destruct (Hch c Hc).
    apply appendSubscopes_elem, ancestors_le in Hin; lia.
  - pose proof (wf_nodup _ Hwf _ _ Hsc) as Hnd.
    assert (∀ l, NoDup l → l ⊆ childScopes sc →
              NoDup (concat (map (appendSubscopes scs fuel []) l))) as Hall; [|by apply Hall].
    induction l as [|c l IHl]; intros Hl Hsub; simpl; [constructor|].
    apply NoDup_cons in Hl as [Hcl Hl]. assert (c ∈ childScopes sc) as Hc by set_solver.
    destruct (Hch c Hc). apply NoDup_app. split; [apply IH; lia|].
    split; [|apply IHl; [done|set_solver]]. intros x Hx. rewrite elem_of_concat_map.
    intros (c' & Hc' & Hx'). assert (c' ∈ childScopes sc) as Hc'' by set_solver.
    destruct (Hch c' Hc''). apply appendSubscopes_elem in Hx, Hx'; [|lia..].
    rewrite (siblings_disjoint _ _ _ _ _ Hsc Hc Hc'' Hx Hx') in Hcl. done.
Qed.
End tree.

(** C25: the two walks over the tree of scopes agree.  In a well-formed container
    [subscopes] of an existing scope lists exactly the scopes that have it among
    their [ancestors], each once, the scope itself included. *)
Theorem subscopes_ancestors st s :
  wf_store st → s < length (st_scopes st) →
  NoDup (subscopes (st_scopes st) s) ∧
  ∀ x, x ∈ subscopes (st_scopes st) s ↔ s ∈ ancestors (st_scopes st) x.
Proof.
  intros Hwf Hs. unfold subscopes. split; [apply appendSubscopes_NoDup; [done..|lia]|].
  intros x. apply appendSubscopes_elem; [done..|lia].
Qed.

Lemma subscopes_ancestors_witness :
  NoDup (subscopes (st_scopes exampleStore) 0) ∧
  ∀ x, x ∈ subscopes (st_scopes exampleStore) 0 ↔ 0 ∈ ancestors (st_scopes exampleStore) x.
Proof. apply (subscopes_ancestors exampleStore 0 exampleStore_wf). vm_compute. lia. Defined.
