(* ===== verification/Reading.v ===== *)
(** * Reading the parameters of a function (param.go, graph.go, scope.go)

    [newParamList] adds a node for every value group a function consumes, to the graph
    of the scope and of all scopes below.  The file gives the exact effect of
    [newGraphNode] on the tree of scopes, and shows what reading parameters changes
    and which nodes the consumed groups get. *)

From S2P Require Import Prelude Digraph GoLib GoTypes DigReflect Errors Group InOut.
From S2P Require Import Values DotTypes Result Store Scenario Param Call ResultProofs.
From S2P Require Import Options Deps Building ParamProofs Provide Decorate ProvideProofs Invoke.
From S2P Require Import Invariants Reachable ScopeTree.

Open Scope string_scope.
Open Scope list_scope.

(** ** Scopes whose graphs have grown *)

(** The scope with more nodes in its graph. *)
Definition extended (sc : Scope) (ws : list graphNode) : Scope :=
  set_gh (λ g, mkGraphHolder (gh_nodes g ++ ws) (gh_snap g)) sc.

Lemma extended_nil sc : extended sc [] = sc.
Proof. destruct sc as [????????????? [] ???]. unfold extended. simpl. by rewrite app_nil_r. Qed.

Lemma extended_app sc ws ws' : extended (extended sc ws) ws' = extended sc (ws ++ ws').
Proof. destruct sc. unfold extended. simpl. by rewrite app_assoc. Qed.

(** The scopes of [l] are changed by [f]. *)
Definition onScopes (l : list nat) (f : Scope → Scope) (scs : list Scope) : list Scope :=
  imap (λ x sc, if decide (x ∈ l) then f sc else sc) scs.

Lemma onScopes_lookup l f scs x :
  onScopes l f scs !! x = (λ sc, if decide (x ∈ l) then f sc else sc) <$> scs !! x.
Proof. apply list_lookup_imap. Qed.

Lemma onScopes_length l f scs : length (onScopes l f scs) = length scs.
Proof. apply length_imap. Qed.

Lemma onScopes_nil f scs : onScopes [] f scs = scs.
Proof. apply list_eq. intros x. rewrite onScopes_lookup. by destruct (scs !! x). Qed.

Lemma onScopes_id l f scs : (∀ sc, f sc = sc) → onScopes l f scs = scs.
Proof.
  intros Hf. apply list_eq. intros x. rewrite onScopes_lookup. destruct (scs !! x) as [sc|]; [|done].
  simpl. rewrite Hf. by case_decide.
Qed.

Lemma onScopes_compose l f g scs : onScopes l g (onScopes l f scs) = onScopes l (g ∘ f) scs.
Proof.
  apply list_eq. intros x. rewrite !onScopes_lookup. destruct (scs !! x) as [sc|]; [|done].
  simpl. by case_decide.
Qed.

Lemma onScopes_cons x l f scs :
  x ∉ l → onScopes l f (alter f x scs) = onScopes (x :: l) f scs.
Proof.
  intros Hx. apply list_eq. intros y. rewrite !onScopes_lookup, list_lookup_alter.
  destruct (decide (x = y)) as [<-|Hne]; destruct (scs !! _) as [sc|]; try done; simpl; f_equal;
    destruct (decide _), (decide _); try done; set_solver.
Qed.

(** A loop that changes every scope of [l] once. *)
Lemma forEach_onScopes l f st :
  NoDup l → forEach l (λ x, modScope x f) st = (Ret (), upd_scopes (onScopes l f) st).
Proof.
  intros Hl. revert st; induction Hl as [|x l Hx _ IH]; intros st.
  - unfold upd_scopes. rewrite onScopes_nil. by destruct st.
  - rewrite forEach_cons. rewrite (bind_step (modScope x f) _ st () (upd_scopes (alter f x) st)) by done.
    rewrite IH. unfold upd_scopes. simpl. by rewrite onScopes_cons.
Qed.

(** The scopes of [l] with more nodes in their graphs. *)
Definition marked (l : list nat) (ws : list graphNode) : list Scope → list Scope :=
  onScopes l (λ sc, extended sc ws).

Lemma marked_lookup l ws scs x :
  marked l ws scs !! x = (λ sc, if decide (x ∈ l) then extended sc ws else sc) <$> scs !! x.
Proof. apply onScopes_lookup. Qed.

Lemma marked_length l ws scs : length (marked l ws scs) = length scs.
Proof. apply onScopes_length. Qed.

Lemma marked_nil l scs : marked l [] scs = scs.
Proof. apply onScopes_id, extended_nil. Qed.

Lemma marked_app l ws ws' scs : marked l ws' (marked l ws scs) = marked l (ws ++ ws') scs.
Proof.
  unfold marked. rewrite onScopes_compose. apply imap_ext. intros x sc _. case_decide; [|done].
  apply extended_app.
Qed.

(** ** The walk over the scopes below *)

(** Scopes come before their children. *)
Record tree (scs : list Scope) : Prop := {
  tree_children : ∀ s sc c, scs !! s = Some sc → c ∈ childScopes sc → s < c ∧ c < length scs;
  tree_nodup : ∀ s, s < length scs → NoDup (subscopes scs s);
  tree_below : ∀ s x, s < length scs → x ∈ subscopes scs s → x < length scs
}.

Lemma wf_tree st : wf_store st → tree (st_scopes st).
Proof.
  intros Hwf. split.
  - intros s sc c Hs Hc. destruct (wf_children _ Hwf _ _ _ Hs Hc) as (Hlt & cc & Hcc & _).
    split; [done|by eapply lookup_lt_Some].
  - intros s Hs. apply appendSubscopes_NoDup; [done..|lia].
  - intros s x Hs Hx. apply appendSubscopes_elem in Hx; [|done..|lia].
    destruct (st_scopes st !! x) as [sc|] eqn:Hsc; [by eapply lookup_lt_Some|].
    rewrite ancestors_none in Hx by done. by apply elem_of_nil in Hx.
Qed.

Lemma appendSubscopes_enough scs fuel fuel' dest s :
  tree scs → s < length scs → length scs - s <= fuel → length scs - s <= fuel' →
  appendSubscopes scs fuel dest s = appendSubscopes scs fuel' dest s.
Proof.
  intros Ht. revert fuel' dest s; induction fuel as [|fuel IH]; intros [|fuel'] dest s Hs H H'; try lia.
  simpl. destruct (scs !! s) as [sc|] eqn:Hsc; [|done].
  assert (∀ c, c ∈ childScopes sc → s < c ∧ c < length scs) as Hc by (intros; by eapply tree_children).
  revert Hc. generalize (dest ++ [s]).
  induction (childScopes sc) as [|c l IHl]; intros acc Hc; simpl; [done|].
  destruct (Hc c); [set_solver|]. rewrite (IH fuel') by lia. apply IHl. intros. apply Hc. set_solver.
Qed.

Definition same_children (a b : list Scope) : Prop := childScopes <$> b = childScopes <$> a.

#[export] Instance same_children_preorder : PreOrder same_children.
Proof. split; [done|]. intros a b c Hab Hbc. unfold same_children in *. congruence. Qed.

Lemma same_children_length a b : same_children a b → length b = length a.
Proof. intros H. by rewrite <- (length_fmap childScopes), H, length_fmap. Qed.

Lemma same_children_lookup a b x :
  same_children a b → childScopes <$> b !! x = childScopes <$> a !! x.
Proof. intros H. by rewrite <- !list_lookup_fmap, H. Qed.

Lemma same_children_on l f scs :
  (∀ sc, childScopes (f sc) = childScopes sc) → same_children scs (onScopes l f scs).
Proof.
  intros Hf. apply list_eq. intros x. rewrite !list_lookup_fmap, onScopes_lookup.
  destruct (scs !! x) as [sc|]; [|done]. simpl. case_decide; [by rewrite Hf|done].
Qed.

Lemma same_children_marked l ws scs : same_children scs (marked l ws scs).
Proof. apply same_children_on. by intros []. Qed.

Lemma appendSubscopes_same a b fuel dest s :
  same_children a b → appendSubscopes b fuel dest s = appendSubscopes a fuel dest s.
Proof.
  intros H. revert dest s; induction fuel as [|fuel IH]; intros dest s; [done|]. simpl.
  pose proof (same_children_lookup a b s H) as Hs.
  destruct (a !! s) as [x|], (b !! s) as [y|]; try done. injection Hs as ->.
  generalize (dest ++ [s]). induction (childScopes x) as [|c l IHl]; intros acc; simpl; [done|].
  by rewrite IH, IHl.
Qed.

Lemma subscopes_same a b s : same_children a b → subscopes b s = subscopes a s.
Proof.
  intros H. unfold subscopes. rewrite (same_children_length _ _ H). by apply appendSubscopes_same.
Qed.

Lemma tree_same a b : same_children a b → tree a → tree b.
Proof.
  intros H [Hc Hn Hb]. pose proof (same_children_length _ _ H) as Hl. split.
  - intros s sc c Hs Hin. pose proof (same_children_lookup a b s H) as Hss. rewrite Hs in Hss.
    destruct (a !! s) as [sa|] eqn:Ha; [|done]. injection Hss as Hss. rewrite Hss in Hin.
    rewrite Hl. by eapply Hc.
  - intros s. rewrite Hl, (subscopes_same a b) by done. apply Hn.
  - intros s x. rewrite Hl, (subscopes_same a b) by done. apply Hb.
Qed.

(** ** New nodes *)

(** One scope gets the node, and its order is recorded. *)
Definition addNode (w : graphNode) (o x : nat) : M () :=
  sc ← getScope x;
  _ ← modScope x (set_gh (λ _, (NewNode (gh sc) w).1));
  modifyS (upd_orders (alter <[x := (NewNode (gh sc) w).2]> o)).

Definition children_kept (a b : store) : Prop := same_children (st_scopes a) (st_scopes b).

#[export] Instance children_kept_preorder : PreOrder children_kept.
Proof.
  split; [intros a; unfold children_kept; reflexivity|].
  intros a b c Hab Hbc. unfold children_kept in *. by etransitivity.
Qed.
#[local] Hint Resolve children_kept_preorder : dig.

Lemma addNode_children F w o x st : runs children_kept F (addNode w o x) st.
Proof.
  unfold addNode. read. run_step; [|by apply runs_modifyS].
  apply runs_modifyS. unfold children_kept, same_children. simpl.
  apply fmap_alter_same. by intros [].
Qed.

(** Loops that agree on the states they meet. *)
Lemma forEach_agree {A} (f g : A → M ()) (I : store → Prop) l st :
  (∀ x s, x ∈ l → I s → f x s = g x s ∧ I (g x s).2) → I st → forEach l f st = forEach l g st.
Proof.
  revert st; induction l as [|x l IH]; intros st H HI; [done|]. rewrite !forEach_cons.
  destruct (H x st) as [Hx HI']; [set_solver|done|]. unfold mbind, SM_bind. rewrite Hx.
  destruct (g x st) as [[u|e|p|] s1]; try done. apply IH; [|done]. intros y s Hy. apply H. set_solver.
Qed.

Lemma forEach_concat_map {A B} (h : A → list B) (f : B → M ()) l st :
  forEach (concat (map h l)) f st = forEach l (λ x, forEach (h x) f) st.
Proof.
  revert st; induction l as [|x l IH]; intros st; [done|]. rewrite forEach_cons. simpl.
  rewrite forEach_app. unfold mbind, SM_bind. destruct (forEach (h x) f st) as [[u|e|p|] s1]; [apply IH|done..].
Qed.

Section nodes.
Context (w : graphNode) (o : nat).

Lemma addNode_eq x sc st :
  st_scopes st !! x = Some sc →
  addNode w o x st =
  (Ret (), upd_orders (alter <[x := length (gh_nodes (gh sc))]> o)
             (upd_scopes (alter (λ sc, extended sc [w]) x) st)).
Proof.
  intros Hx. unfold addNode, getScope, mbind, SM_bind. simpl. rewrite Hx. simpl.
  unfold modScope, modifyS, upd_orders, upd_scopes. simpl. do 2 f_equal.
  apply list_eq. intros y. rewrite !list_lookup_alter. case_decide; [|done]. subst y.
  rewrite Hx. simpl. by destruct sc.
Qed.

(** The recursion over the tree is a loop over [subscopes]. *)
Lemma newGraphNode_flat fuel s st :
  tree (st_scopes st) → s < length (st_scopes st) → length (st_scopes st) - s <= fuel →
  newGraphNode_ fuel s w o st = forEach (appendSubscopes (st_scopes st) fuel [] s) (addNode w o) st.
Proof.
  revert s st; induction fuel as [|fuel IH]; intros s st Ht Hs Hf; [lia|].
  destruct (lookup_lt_is_Some_2 _ _ Hs) as [sc Hsc].
  pose proof (addNode_eq s sc st Hsc) as Hadd. set (st1 := upd_orders _ _) in Hadd.
  assert (newGraphNode_ (S fuel) s w o st =
          forEach (childScopes sc) (λ cs, newGraphNode_ fuel cs w o) st1) as ->.
  { pose proof (f_equal snd Hadd) as Hst. revert Hst. cbn [newGraphNode_].
    unfold addNode, getScope, mbind, SM_bind. simpl. rewrite Hsc. simpl. by intros ->. }
  rewrite (appendSubscopes_eq st fuel s sc Hsc), forEach_cons, (bind_step _ _ _ _ _ Hadd).
  rewrite forEach_concat_map. apply (forEach_agree _ _ (children_kept st)).
  - intros c s' Hc Hkept. pose proof (same_children_length _ _ Hkept) as Hlen.
    destruct (tree_children _ Ht s sc c Hsc Hc) as [Hlt Hcl].
    rewrite <- (appendSubscopes_same _ _ fuel [] c Hkept). rewrite IH; [|by eapply tree_same|lia..].
    split; [done|]. etransitivity; [exact Hkept|].
    apply (runs_forEach children_kept True (λ _, True)); try done. intros. apply addNode_children.
  - pose proof (addNode_children True w o s st) as [_ Hkept]. by rewrite Hadd in Hkept.
Qed.

(** The orders of the new node in the scopes of [l]. *)
Fixpoint ordersFor (scs : list Scope) (l : list nat) (m : gmap nat nat) : gmap nat nat :=
  match l with
  | [] => m
  | x :: l =>
      ordersFor scs l (<[x := match scs !! x with
                              | Some sc => length (gh_nodes (gh sc))
                              | None => 0
                              end]> m)
  end.

Lemma ordersFor_other scs l m x : x ∉ l → ordersFor scs l m !! x = m !! x.
Proof.
  revert m; induction l as [|y l IH]; intros m Hx; [done|]. simpl.
  rewrite IH by set_solver. apply lookup_insert_ne. set_solver.
Qed.

Lemma ordersFor_lookup scs l m x sc :
  NoDup l → x ∈ l → scs !! x = Some sc → ordersFor scs l m !! x = Some (length (gh_nodes (gh sc))).
Proof.
  intros Hl Hx Hs. revert m; induction Hl as [|y l Hy _ IH]; intros m; [by apply elem_of_nil in Hx|].
  simpl. apply elem_of_cons in Hx as [->|Hx]; [|by apply IH].
  rewrite ordersFor_other by done. by rewrite lookup_insert_eq, Hs.
Qed.

Lemma ordersFor_ext a b l m :
  (∀ x, x ∈ l → a !! x = b !! x) → ordersFor a l m = ordersFor b l m.
Proof.
  revert m; induction l as [|x l IH]; intros m H; [done|]. simpl. rewrite (H x) by set_solver.
  apply IH. intros y Hy. apply H. set_solver.
Qed.

Definition noted (l : list nat) (st : store) : store :=
  upd_orders (alter (ordersFor (st_scopes st) l) o) (upd_scopes (marked l [w]) st).

Lemma addNodes_eq l st :
  NoDup l → (∀ x, x ∈ l → x < length (st_scopes st)) →
  forEach l (addNode w o) st = (Ret (), noted l st).
Proof.
  intros Hl. revert st; induction Hl as [|x l Hx _ IH]; intros st Hlt.
  - unfold noted, upd_orders, upd_scopes. simpl. unfold marked. rewrite onScopes_nil, list_alter_id by done.
    by destruct st.
  - destruct (lookup_lt_is_Some_2 _ _ (Hlt x ltac:(set_solver))) as [sc Hsc].
    rewrite forEach_cons, (bind_step _ _ _ _ _ (addNode_eq x sc st Hsc)).
    rewrite IH; [|intros y Hy; simpl; rewrite length_alter; apply Hlt; set_solver].
    unfold noted, upd_orders, upd_scopes. simpl. unfold marked. rewrite onScopes_cons by done. do 2 f_equal.
    rewrite list_alter_alter_eq. apply list_alter_ext; [|done]. intros m Hm. simpl. rewrite Hsc.
    apply ordersFor_ext. intros y Hy. rewrite list_lookup_alter_ne; [done|]. by intros ->.
Qed.

(** [newGraphNode]: every scope at and below [s] gets the node, once. *)
Lemma newGraphNode_eq s st :
  tree (st_scopes st) → s < length (st_scopes st) →
  newGraphNode s w o st = (Ret (), noted (subscopes (st_scopes st) s) st).
Proof.
  intros Ht Hs. unfold newGraphNode. rewrite (bind_step getS _ st st st) by done.
  rewrite newGraphNode_flat by (done || lia). unfold subscopes.
  rewrite (appendSubscopes_enough (st_scopes st) _ (length (st_scopes st))) by (done || lia).
  apply addNodes_eq; [by apply (tree_nodup _ Ht)|]. intros x. by apply (tree_below _ Ht).
Qed.
End nodes.

(** ** Reading parameters *)

(** The value groups a parameter consumes. *)
Fixpoint param_groups (p : param) : list paramGroupedSlice :=
  match p with
  | PSingle _ => []
  | PGrouped pt => [pt]
  | PObject _ fs => concat (map (λ f, param_groups (pof_Param f)) fs)
  end.

(** A value group that is consumed as a slice. *)
Definition slice_node `{TypeTable} (w : graphNode) : Prop :=
  match w with WGroup pt => is_Some (Elem (pt_Type pt)) | WCtor _ => False end.

Lemma orderIn_prefix a b o s :
  st_orders a `prefix_of` st_orders b → o < length (st_orders a) → orderIn b o s = orderIn a o s.
Proof. intros [l Hl] Ho. unfold orderIn. by rewrite Hl, lookup_app_l. Qed.

Section reading.
Context `{E : Env} (c : nat).

(** The scope exists, in a tree of scopes. *)
Definition placed (st : store) : Prop := tree (st_scopes st) ∧ c < length (st_scopes st).

(** Reading parameters for scope [c] adds nodes for value groups at and below it, and
    fresh [orders] maps. *)
Record ext (a b : store) : Prop := {
  ext_ctors : st_ctors b = st_ctors a;
  ext_dcors : st_dcors b = st_dcors a;
  ext_infos : st_infos b = st_infos a;
  ext_trace : st_trace b = st_trace a;
  ext_orders : st_orders a `prefix_of` st_orders b;
  ext_scopes : ∃ ws, Forall slice_node ws ∧
    st_scopes b = marked (subscopes (st_scopes a) c) ws (st_scopes a)
}.

#[export] Instance ext_preorder : PreOrder ext.
Proof.
  split.
  - intros a. split; try done. exists []. by rewrite marked_nil.
  - intros a b d [? ? ? ? ? (ws & Hws & Hs)] [? ? ? ? ? (ws' & Hws' & Hs')].
    split; [congruence..|by etransitivity|]. exists (ws ++ ws'). split; [by apply Forall_app|].
    rewrite Hs', Hs, (subscopes_same (st_scopes a)) by apply same_children_marked. apply marked_app.
Qed.

Lemma placed_ext a b : placed a → ext a b → placed b.
Proof.
  intros [Ht Hc] [_ _ _ _ _ (ws & _ & Hs)]. split; rewrite Hs.
  - eapply tree_same; [apply same_children_marked|done].
  - by rewrite marked_length.
Qed.

(** The value groups of a parameter have the nodes their orders name. *)
Definition groups_ok (st : store) (p : param) : Prop := ∀ sc pt,
  st_scopes st !! c = Some sc → pt ∈ param_groups p →
  pt_orders pt < length (st_orders st) ∧
  gh_nodes (gh sc) !! orderIn st (pt_orders pt) c = Some (WGroup pt).

Lemma groups_ok_grow a b sca scb ws p :
  st_scopes a !! c = Some sca → st_scopes b !! c = Some scb →
  gh_nodes (gh scb) = gh_nodes (gh sca) ++ ws → st_orders a `prefix_of` st_orders b →
  groups_ok a p → groups_ok b p.
Proof.
  intros Ha Hb Hn Ho Hg sc pt Hsc Hpt. destruct (Hg sca pt Ha Hpt) as [Hlt Hnode].
  assert (sc = scb) as -> by congruence.
  split; [apply prefix_length in Ho; lia|].
  rewrite (orderIn_prefix a b) by done. rewrite Hn. by apply lookup_app_l_Some.
Qed.

Lemma subscopes_self scs s : s < length scs → s ∈ subscopes scs s.
Proof.
  intros Hs. unfold subscopes. destruct (length scs) as [|n] eqn:Hl; [lia|]. simpl.
  destruct (lookup_lt_is_Some_2 scs s) as [sc Hsc]; [lia|]. rewrite Hsc.
  assert (∀ l acc, s ∈ acc → s ∈ foldl (appendSubscopes scs n) acc l) as H.
  { assert (∀ fuel acc x, s ∈ acc → s ∈ appendSubscopes scs fuel acc x) as Happ.
    { induction fuel as [|fuel IH]; intros acc x Hin; simpl; [done|]. destruct (scs !! x) as [sx|]; [|done].
      assert (s ∈ acc ++ [x]) as Hin' by set_solver. revert Hin'. generalize (acc ++ [x]).
      induction (childScopes sx) as [|y l IHl]; intros acc' Hin'; simpl; auto. }
    induction l as [|x l IHl]; intros acc Hin; simpl; auto. }
  apply H. set_solver.
Qed.

(** What happened to the scope itself. *)
Lemma ext_scope a b sc : placed a → ext a b → st_scopes a !! c = Some sc →
  ∃ ws, Forall slice_node ws ∧ st_scopes b !! c = Some (extended sc ws).
Proof.
  intros [_ Hc] [_ _ _ _ _ (ws & Hws & Hs)] Hsc. exists ws. split; [done|].
  rewrite Hs, marked_lookup, Hsc. simpl. case_decide as H; [done|].
  exfalso. by apply H, subscopes_self.
Qed.

Lemma groups_ok_ext a b p : placed a → ext a b → groups_ok a p → groups_ok b p.
Proof.
  intros Ha Hab. destruct (lookup_lt_is_Some_2 _ _ (proj2 Ha)) as [sc Hsc].
  destruct (ext_scope a b sc Ha Hab Hsc) as (ws & _ & Hb).
  eapply groups_ok_grow; [exact Hsc|exact Hb|by destruct sc|apply Hab].
Qed.
(** A computation that extends the store; what it returns satisfies [Q]. *)
Definition reads {A} (Q : A → store → Prop) (m : M A) (st : store) : Prop :=
  ext st (m st).2 ∧ ∀ a st', m st = (Ret a, st') → Q a st'.

Lemma reads_bind {A B} (Q1 : A → store → Prop) (Q : B → store → Prop) m f st :
  reads Q1 m st → (∀ a st1, Q1 a st1 → ext st st1 → reads Q (f a) st1) → reads Q (m ≫= f) st.
Proof.
  intros [He HQ] Hf. unfold reads, mbind, SM_bind.
  destruct (m st) as [[a|e|p|] s1] eqn:Hm; simpl in *; try done.
  destruct (Hf a s1 (HQ a s1 eq_refl) He) as [He' HQ']. split; [by etransitivity|done].
Qed.

Lemma reads_still {A} (Q : A → store → Prop) m st :
  (m st).2 = st → (∀ a, (m st).1 = Ret a → Q a st) → reads Q m st.
Proof.
  intros Hs HQ. unfold reads. destruct (m st) as [r s1] eqn:Hm. simpl in *. subst s1.
  split; [reflexivity|]. intros a st' [= -> ->]. by apply HQ.
Qed.

Lemma reads_fail {A} (Q : A → store → Prop) msg st : reads Q (failM msg) st.
Proof. by apply reads_still. Qed.
Lemma reads_throw {A} (Q : A → store → Prop) e st : reads Q (throw e) st.
Proof. by apply reads_still. Qed.
Lemma reads_mret {A} (Q : A → store → Prop) a st : Q a st → reads Q (mret a) st.
Proof. intros HQ. apply reads_still; [done|]. by intros ? [= <-]. Qed.
Lemma reads_wrapErr {A} (Q : A → store → Prop) f m st : reads Q m st → reads Q (wrapErr f m) st.
Proof.
  unfold reads, wrapErr. destruct (m st) as [[a|e|p|] s1]; simpl; [done|..]; by intros [? _].
Qed.
#[local] Hint Resolve reads_fail reads_throw reads_mret : core.

(** A node for a value group. *)
Lemma newGroup_ext pt st :
  placed st → is_Some (Elem (pt_Type pt)) → pt_orders pt = length (st_orders st) →
  ∃ st', newGraphNode c (WGroup pt) (pt_orders pt) (upd_orders (λ l, l ++ [∅]) st) = (Ret (), st') ∧
    ext st st' ∧ groups_ok st' (PGrouped pt).
Proof.
  intros [Ht Hc] Hel Ho. set (st1 := upd_orders (λ l, l ++ [∅]) st).
  rewrite newGraphNode_eq by done. set (st2 := noted _ _ _ st1). exists st2. split; [done|].
  assert (st_orders st2 = st_orders st ++ [ordersFor (st_scopes st) (subscopes (st_scopes st) c) ∅])
    as Hord by (simpl; by rewrite Ho, alter_app_r_alt, Nat.sub_diag by done).
  split.
  - split; try done; [rewrite Hord; by eexists|]. exists [WGroup pt]. split; [by repeat constructor|done].
  - intros sc pt' Hsc ->%list_elem_of_singleton. destruct (lookup_lt_is_Some_2 _ _ Hc) as [sc0 Hsc0].
    assert (orderIn st2 (pt_orders pt) c = length (gh_nodes (gh sc0))) as ->.
    { unfold orderIn. rewrite Hord, Ho, lookup_app_r, Nat.sub_diag by done. simpl.
      by rewrite (ordersFor_lookup _ _ _ c sc0);
        [|by apply (tree_nodup _ Ht)|by apply subscopes_self|done]. }
    rewrite Hord, Ho, length_app. split; [simpl; lia|].
    simpl in Hsc. rewrite marked_lookup, Hsc0 in Hsc. simpl in Hsc.
    case_decide as Hin; [|by destruct Hin; apply subscopes_self]. injection Hsc as <-.
    destruct sc0; simpl. by rewrite lookup_app_r, Nat.sub_diag.
Qed.

Lemma newParamGroupedSlice_reads f st :
  placed st → reads (λ pt st', groups_ok st' (PGrouped pt)) (newParamGroupedSlice f c) st.
Proof.
  intros Hp. unfold newParamGroupedSlice.
  apply (reads_bind (λ _ s, s = st)); [by apply reads_still|]. intros g ? -> _.
  set (st1 := upd_orders (λ l, l ++ [∅]) st). set (o := length (st_orders st)).
  assert (ext st st1) as Hext.
  { split; try done; [by exists [∅]|]. exists []. by rewrite marked_nil. }
  unfold reads. rewrite (bind_step newOrders _ st o st1) by done.
  assert (∀ m : M paramGroupedSlice, reads (λ pt st', groups_ok st' (PGrouped pt)) m st1 →
    ext st (m st1).2 ∧ ∀ a st', m st1 = (Ret a, st') → groups_ok st' (PGrouped a)) as Hgo.
  { intros m [He HQ]. split; [by etransitivity|done]. }
  case_decide as Hkind; [by apply Hgo|]. destruct (g_Flatten g); [by apply Hgo|].
  case_decide; [by apply Hgo|]. destruct (isFieldOptional f).1; [by apply Hgo|].
  set (pg := mkParamGrouped (g_Name g) (f_Type f) (g_Soft g) o).
  destruct (newGroup_ext pg st) as (st2 & Hnode & Hext2 & Hok); [done| |done|].
  { simpl. revert Hkind. unfold Kind, Elem. by destruct (under _ _). }
  rewrite (bind_step _ _ _ _ _ Hnode). split; [done|]. by intros a st' [= <- <-].
Qed.

Definition fields_ok (st : store) (fs : list paramObjectField) : Prop :=
  ∀ f, f ∈ fs → groups_ok st (pof_Param f).

Lemma newParamObjectFields_reads new ign t i fs st :
  (∀ t' s, placed s → reads (λ p s', groups_ok s' p) (new t' c) s) → placed st →
  reads (λ fs' st', fields_ok st' fs') (newParamObjectFields new ign t i fs c) st.
Proof.
  intros Hnew. revert i st; induction fs as [|f fs IH]; intros i st Hone; simpl.
  { apply reads_mret. intros f. set_solver. }
  case_decide; [by apply IH|]. destruct (_ && _); [by apply IH|].
  apply (reads_bind (λ pof s, groups_ok s (pof_Param pof))).
  - apply reads_wrapErr. unfold newParamObjectField.
    apply (reads_bind (λ p s, groups_ok s p)).
    + case_decide; [auto|]. case_decide; [|by apply Hnew].
      apply (reads_bind (λ pt s, groups_ok s (PGrouped pt))); [by apply newParamGroupedSlice_reads|auto].
    + intros p s1 Hp _. apply (reads_bind (λ p s, groups_ok s p)); [|auto].
      destruct p as [ps|pt|t' fs']; [|auto..]. destruct (isFieldOptional f) as [opt [err|]]; [auto|].
      apply reads_mret. intros sc' pt. set_solver.
  - intros pof s1 Hpof He. pose proof (placed_ext _ _ Hone He) as Hone1.
    apply (reads_bind (λ fs' s, fields_ok s fs' ∧ groups_ok s (pof_Param pof))).
    + destruct (IH (S i) s1 Hone1) as [He2 HQ]. split; [done|].
      intros fs' s2 Hr. split; [by apply HQ|]. rewrite Hr in He2. by eapply groups_ok_ext.
    + intros fs' s2 [H1 H2] _. apply reads_mret.
      intros f' [->|Hf']%elem_of_cons; [done|by apply H1].
Qed.

Lemma newParam__reads fuel t st :
  placed st → reads (λ p st', groups_ok st' p) (newParam_ fuel t c) st.
Proof.
  revert t st; induction fuel as [|fuel IH]; intros t st Hone; simpl; [by apply reads_still|].
  destruct (_ || _ || _); [auto|]. destruct (typeEmbeds t _inType).
  - unfold newParamObject. destruct (ignoreUnexportedOf _) as [ign [err|]]; [auto|].
    apply (reads_bind (λ fs s, fields_ok s fs)); [by apply newParamObjectFields_reads|].
    intros fs s1 Hfs _. apply reads_mret. intros sc' pt Hsc'. simpl.
    intros (f & Hf & Hpt)%elem_of_concat_map. by apply (Hfs f).
  - destruct (typeEmbeds _ _); [auto|]. destruct (ptrTo _ _); [auto|].
    apply reads_mret. intros sc' pt. set_solver.
Qed.

Lemma newParams_reads i l st :
  placed st → reads (λ ps s, ∀ p, p ∈ ps → groups_ok s p) (newParams i l c) st.
Proof.
  revert i st; induction l as [|t l IH]; intros i st Hone; simpl.
  { apply reads_mret. set_solver. }
  apply (reads_bind (λ p s, groups_ok s p)); [by apply reads_wrapErr, newParam__reads|].
  intros p s1 Hp He. pose proof (placed_ext _ _ Hone He) as Hone1.
  apply (reads_bind (λ ps s, (∀ p, p ∈ ps → groups_ok s p) ∧ groups_ok s p)).
  - destruct (IH (S i) s1 Hone1) as [He2 HQ]. split; [done|].
    intros ps s2 Hr. split; [by apply HQ|]. rewrite Hr in He2. by eapply groups_ok_ext.
  - intros ps s2 [H1 H2] _. apply reads_mret. intros q [->|?]%elem_of_cons; auto.
Qed.

(** Reading the parameters of a function: every value group among them has its
    node in the graph. *)
Lemma newParamList_reads ctype st :
  placed st →
  reads (λ pl st', ∀ p, p ∈ pl_Params pl → groups_ok st' p) (newParamList ctype c) st.
Proof.
  intros Hone. unfold newParamList.
  apply (reads_bind (λ _ s, s = st)); [by apply reads_still; destruct (FuncSig ctype)|].
  intros [[ins outs] var] ? -> _. apply (reads_bind (λ ps s, ∀ p, p ∈ ps → groups_ok s p)); [|auto].
  by apply newParams_reads.
Qed.
End reading.
