(* ===== verification/ProvideSpec.v ===== *)
(** * What a successful registration does (provide.go, decorate.go)

    The exact effect of [Provide] and [Decorate] on every scope of the tree when they
    return without an error. *)

From S2P Require Import Prelude Digraph GoLib GoTypes DigReflect Errors Group InOut.
From S2P Require Import Values DotTypes Result Store Scenario Param Call ResultProofs.
From S2P Require Import Options Deps Building ParamProofs CallProofs Provide Decorate ProvideProofs Invoke.
From S2P Require Import Invariants Reachable ScopeTree Reading.

Open Scope string_scope.
Open Scope list_scope.

Section provide.
Context `{E : Env}.

(** ** The new constructor node *)

(** The store after [newConstructorNode]: the nodes [ws] of the value groups the
    constructor consumes, then its own. *)
Record new_node (st st' : store) (s n : nat) (ws : list graphNode) (cn : constructorNode) : Prop := {
  nn_index : n = length (st_ctors st);
  nn_ctors : st_ctors st' = st_ctors st ++ [cn];
  nn_dcors : st_dcors st' = st_dcors st;
  nn_infos : st_infos st' = st_infos st;
  nn_trace : st_trace st' = st_trace st;
  nn_scopes : st_scopes st' = marked (subscopes (st_scopes st) s) (ws ++ [WCtor n]) (st_scopes st);
  nn_groups : Forall slice_node ws;
  nn_orders : st_orders st `prefix_of` st_orders st';
  nn_order_lt : cn_orders cn < length (st_orders st');
  nn_order : ∀ sc, st_scopes st !! s = Some sc →
    orderIn st' (cn_orders cn) s = length (gh_nodes (gh sc) ++ ws);
  nn_params : ∀ p, p ∈ pl_Params (cn_paramList cn) → groups_ok s st' p
}.

(** The fields of the node that come from the call. *)
Record made_by (ctor : funcval) (s origS : nat) (opts : constructorOptions) (cn : constructorNode)
    : Prop := {
  made_ctor : cn_ctor cn = ctor;
  made_s : cn_s cn = s;
  made_origS : cn_origS cn = origS;
  made_called : cn_called cn = false;
  made_id : cn_id cn = fv_ptr ctor;
  made_location : cn_location cn = match co_Location opts with
                                   | Some l => Some l
                                   | None => InspectFunc ctor
                                   end;
  made_callback : cn_callback cn = co_Callback opts;
  made_before : cn_beforeCallback cn = co_BeforeCallback opts;
  made_results : newResultList (fv_type ctor)
    (mkResultOptions (co_ResultName opts) (co_ResultGroup opts) (co_ResultAs opts)) =
    Ret (cn_resultList cn)
}.

Lemma newConstructorNode_spec ctor s origS opts st :
  placed s st →
  match newConstructorNode ctor s origS opts st with
  | (Ret n, st') => ∃ ws cn, new_node st st' s n ws cn ∧ made_by ctor s origS opts cn
  | (_, st') => ext s st st'
  end.
Proof.
  intros Hp. unfold newConstructorNode. destruct (newParamList_reads s (fv_type ctor) st Hp) as [He HQ].
  unfold mbind, SM_bind at 1. destruct (newParamList _ _ _) as [[pl|e|p|] s1]; try done.
  simpl in He. specialize (HQ pl s1 eq_refl).
  unfold SM_bind at 1, liftO. destruct (newResultList _ _) as [rl|e|p|] eqn:Hrl; try done.
  pose proof (placed_ext _ _ _ Hp He) as [Ht1 Hl1].
  unfold newOrders, SM_bind, mbind, SM_bind, getS, modifyS, mret, SM_ret. cbv beta iota zeta.
  rewrite newGraphNode_eq by done.
  match goal with |- context [mkConstructorNode ?a ?b ?c ?d ?e ?f ?g ?h ?i ?j ?k] =>
    set (cn := mkConstructorNode a b c d e f g h i j k) end.
  set (st3 := noted _ _ _ _).
  destruct (ext_scopes _ _ _ He) as (ws & Hws & Hs1). exists ws, cn. split; [|by split].
  assert (subscopes (st_scopes s1) s = subscopes (st_scopes st) s) as Hsub.
  { rewrite Hs1. apply subscopes_same, same_children_marked. }
  assert (st_orders st3 = st_orders s1 ++ [ordersFor (st_scopes s1) (subscopes (st_scopes s1) s) ∅])
    as Hord by (simpl; by rewrite alter_app_r_alt, Nat.sub_diag by done).
  assert (st_scopes st3 = marked (subscopes (st_scopes st) s) (ws ++ [WCtor (length (st_ctors st))])
            (st_scopes st)) as Hsc3.
  { simpl. by rewrite Hsub, Hs1, marked_app, (ext_ctors _ _ _ He). }
  assert (st_orders s1 `prefix_of` st_orders st3) as Hpre by (rewrite Hord; by eexists).
  split; [exact (f_equal length (ext_ctors _ _ _ He))|..]; try done.
  - simpl. by rewrite (ext_ctors _ _ _ He).
  - exact (ext_dcors _ _ _ He).
  - exact (ext_infos _ _ _ He).
  - exact (ext_trace _ _ _ He).
  - rewrite Hsc3. simpl. by rewrite (ext_ctors _ _ _ He).
  - etransitivity; [apply He|done].
  - rewrite Hord, length_app. simpl. lia.
  - intros sc Hsc. destruct Hp as [Ht Hl].
    assert (st_scopes s1 !! s = Some (extended sc ws)) as Hsc1.
    { rewrite Hs1, marked_lookup, Hsc. simpl. case_decide as Hin; [done|].
      by destruct Hin; apply subscopes_self. }
    unfold orderIn. rewrite Hord. simpl. rewrite lookup_app_r, Nat.sub_diag by done. simpl.
    rewrite (ordersFor_lookup _ _ _ s (extended sc ws));
      [by destruct sc|by apply (tree_nodup _ Ht1)|by apply subscopes_self|done].
  - intros p Hin. destruct (lookup_lt_is_Some_2 _ _ Hl1) as [sc1 Hsc1].
    eapply (groups_ok_grow s s1 _ sc1 (extended sc1 [WCtor (length (st_ctors s1))]));
      [done| |by destruct sc1|done|by apply HQ].
    simpl. rewrite marked_lookup, Hsc1. simpl. case_decide as Hns; [done|].
    by destruct Hns; apply subscopes_self.
Qed.
(** ** The check of the scopes *)

(** A scope whose check has passed, or is left for the first [Invoke]. *)
Definition verified (sc : Scope) : Scope :=
  set_isVerifiedAcyclic (negb (deferAcyclicVerification sc)) sc.

Lemma verifyScopes_eq old l a b :
  NoDup l → verifyScopes old l a = (Ret (), b) → b = upd_scopes (onScopes l verified) a.
Proof.
  intros Hl. revert a; induction Hl as [|s l Hs _ IH]; intros a; unfold verifyScopes.
  { intros [= <-]. unfold upd_scopes. rewrite onScopes_nil. by destruct a. }
  rewrite forEach_cons, bind_Ret. intros ([] & s1 & H1 & Hrest). apply IH in Hrest as ->.
  cut (s1 = upd_scopes (alter verified s) a).
  { intros ->. unfold upd_scopes. simpl. by rewrite onScopes_cons. }
  apply bind_Ret in H1 as ([] & s2 & [= <-] & H1).
  apply bind_Ret in H1 as (sc & s3 & H3 & H1). apply getScope_Ret in H3 as [-> Hsc].
  simpl in Hsc. rewrite list_lookup_alter_eq in Hsc.
  destruct (st_scopes a !! s) as [sa|] eqn:Hsa; [|done]. injection Hsc as <-.
  assert (∀ v, negb (deferAcyclicVerification sa) = v →
    upd_scopes (alter (set_isVerifiedAcyclic v) s) a = upd_scopes (alter verified s) a) as Hv.
  { intros v Hv. unfold upd_scopes. f_equal. apply list_eq. intros i. rewrite !list_lookup_alter.
    case_decide; [subst i|done]. rewrite Hsa. simpl. unfold verified. by rewrite Hv. }
  destruct (deferAcyclicVerification (set_isVerifiedAcyclic false sa)) eqn:Hdef.
  - injection H1 as <-. apply Hv. destruct sa; simpl in *. by rewrite Hdef.
  - apply bind_Ret in H1 as (r & s4 & H4 & H1).
    pose proof (checkAcyclic_still s (upd_scopes (alter (set_isVerifiedAcyclic false) s) a)) as Hst.
    rewrite H4 in Hst. simpl in Hst. subst s4. destruct r as [c|].
    { apply bind_Ret in H1 as ([] & s5 & _ & H1). by apply bind_Ret in H1 as (? & ? & _ & [=]). }
    injection H1 as <-. rewrite <- (Hv true); [|destruct sa; simpl in *; by rewrite Hdef].
    unfold upd_scopes. simpl. rewrite list_alter_alter_eq. f_equal. apply list_alter_ext; [|done].
    by intros [].
Qed.

(** ** The providers *)

Lemma withProvider_get n keys sc k :
  NoDup keys →
  getProviders (withProvider n keys sc) k =
  if decide (k ∈ keys) then getProviders sc k ++ [n] else getProviders sc k.
Proof.
  intros Hk. unfold withProvider. revert sc; induction Hk as [|x keys Hx _ IH]; intros sc; [done|].
  simpl. rewrite IH. destruct sc; unfold getProviders; simpl.
  destruct (decide (k = x)) as [->|Hne].
  - rewrite lookup_insert_eq. rewrite decide_False, decide_True by set_solver. done.
  - rewrite lookup_insert_ne by done. destruct (decide (k ∈ keys)).
    + by rewrite decide_True by set_solver.
    + by rewrite decide_False by set_solver.
Qed.

(** Everything but the providers. *)
Lemma withProvider_eq n keys sc :
  ∃ m, withProvider n keys sc = set_providers (λ _, m) sc.
Proof.
  unfold withProvider. revert sc; induction keys as [|k keys IH]; intros sc; simpl.
  - exists (providers sc). by destruct sc.
  - destruct (IH (set_providers (λ m, <[k := default [] (m !! k) ++ [n]]> m) sc)) as [m ->].
    exists m. by destruct sc.
Qed.
(** ** The whole registration *)

(** What [provide] makes of scope [x]: the constructor goes to scope [s], its node to
    the graphs of the scopes [l], behind the nodes [ws] of the groups it consumes. *)
Definition provideIn (l : list nat) (s n : nat) (keys : list key) (ws : list graphNode) (x : nat)
    (sc : Scope) : Scope :=
  let sc' := extended (set_gh Snapshot sc) (ws ++ [WCtor n]) in
  if decide (x = s) then set_nodes (λ ns, ns ++ [n]) (verified (withProvider n keys sc'))
  else if decide (x ∈ l) then verified sc'
  else sc.

(** The constructor [cn] is registered as number [n] for [keys] in scope [s]. *)
Record provide_done (st st' : store) (s n : nat) (keys : list key) (ws : list graphNode)
    (cn : constructorNode) : Prop := {
  pd_index : n = length (st_ctors st);
  pd_ctors : st_ctors st' = st_ctors st ++ [cn];
  pd_dcors : st_dcors st' = st_dcors st;
  pd_trace : st_trace st' = st_trace st;
  pd_scopes : st_scopes st' = imap (provideIn (subscopes (st_scopes st) s) s n keys ws) (st_scopes st);
  pd_groups : Forall slice_node ws;
  pd_orders : st_orders st `prefix_of` st_orders st';
  pd_order_lt : cn_orders cn < length (st_orders st');
  pd_order : ∀ sc, st_scopes st !! s = Some sc →
    orderIn st' (cn_orders cn) s = length (gh_nodes (gh sc) ++ ws);
  pd_params : ∀ p, p ∈ pl_Params (cn_paramList cn) → groups_ok s st' p;
  pd_keys : ∀ k, k ∈ keys ↔ k ∈ value_keys (resultList_ (cn_resultList cn)) ∨
                            k ∈ group_keys (resultList_ (cn_resultList cn));
  pd_nodup : NoDup keys;
  pd_some : keys ≠ [];
  pd_fresh : ∀ k sc, k ∈ value_keys (resultList_ (cn_resultList cn)) →
    st_scopes st !! s = Some sc → getProviders sc k = []
}.

(** The graphs are the same up to the snapshots. *)
Lemma groups_ok_nodes c a b p :
  (gh_nodes ∘ gh <$> st_scopes b !! c) = (gh_nodes ∘ gh <$> st_scopes a !! c) →
  st_orders b = st_orders a → groups_ok c a p → groups_ok c b p.
Proof.
  intros Hg Ho Ha sc pt Hsc Hpt. rewrite Hsc in Hg. destruct (st_scopes a !! c) as [sa|] eqn:Hsa; [|done].
  injection Hg as Hg. unfold orderIn. rewrite Hg, Ho. by apply (Ha sa pt).
Qed.

(** The last steps of [provideBody], after the new node. *)
Lemma provided_from st s1 st' s n keys ws cn :
  let l := subscopes (st_scopes st) s in
  placed s st → new_node (upd_scopes (onScopes l (set_gh Snapshot)) st) s1 s n ws cn →
  st_scopes st' = alter (set_nodes (λ ns, ns ++ [n])) s
                    (onScopes l verified (alter (withProvider n keys) s (st_scopes s1))) →
  st_ctors st' = st_ctors s1 → st_dcors st' = st_dcors s1 → st_trace st' = st_trace s1 →
  st_orders st' = st_orders s1 → NoDup keys → keys ≠ [] →
  (∀ k, k ∈ keys ↔ k ∈ value_keys (resultList_ (cn_resultList cn)) ∨
                   k ∈ group_keys (resultList_ (cn_resultList cn))) →
  (∀ k sc, k ∈ value_keys (resultList_ (cn_resultList cn)) → st_scopes s1 !! s = Some sc →
     getProviders sc k = []) →
  provide_done st st' s n keys ws cn.
Proof.
  intros l [Ht Hl] Hnn Hs Hc Hd Htr Ho Hnd Hne Hkeys Hfree.
  set (st0 := upd_scopes _ st) in Hnn.
  assert (subscopes (st_scopes st0) s = l) as Hsub.
  { apply subscopes_same, same_children_on. by intros []. }
  assert (∀ x, st_scopes s1 !! x = (λ sc, if decide (x ∈ l)
            then extended (set_gh Snapshot sc) (ws ++ [WCtor n]) else sc) <$> st_scopes st !! x) as Hs1.
  { intros x. rewrite (nn_scopes _ _ _ _ _ _ Hnn), Hsub. unfold st0, marked. simpl.
    by rewrite onScopes_compose, onScopes_lookup. }
  assert (s ∈ l) as Hin by (by apply subscopes_self).
  destruct (lookup_lt_is_Some_2 _ _ Hl) as [sc Hsc].
  assert (st_scopes s1 !! s = Some (extended (set_gh Snapshot sc) (ws ++ [WCtor n]))) as Hsc1.
  { rewrite Hs1, Hsc. simpl. by rewrite decide_True. }
  assert (st_scopes st' !! s = Some (provideIn l s n keys ws s sc)) as Hscs.
  { rewrite Hs, list_lookup_alter_eq, onScopes_lookup, list_lookup_alter_eq, Hsc1. simpl.
    unfold provideIn. by rewrite !decide_True by done. }
  split; try done; try (by rewrite ?Hc, ?Hd, ?Htr, ?Ho; apply Hnn).
  - apply list_eq. intros x. rewrite list_lookup_imap. destruct (decide (x = s)) as [->|Hx].
    { by rewrite Hscs, Hsc. }
    rewrite Hs, list_lookup_alter_ne, onScopes_lookup, list_lookup_alter_ne, Hs1 by done.
    destruct (st_scopes st !! x) as [sx|]; [|done]. simpl. unfold provideIn. fold l.
    rewrite (decide_False (P := x = s)) by done. by destruct (decide (x ∈ l)).
  - intros sc' Hsc'. assert (sc' = sc) as -> by congruence.
    unfold orderIn. rewrite Ho. fold (orderIn s1 (cn_orders cn) s).
    rewrite (nn_order _ _ _ _ _ _ Hnn (set_gh Snapshot sc)).
    + by destruct sc as [????????????? [] ???].
    + unfold st0. simpl. rewrite onScopes_lookup, Hsc. simpl. by rewrite decide_True.
  - intros p Hp. eapply groups_ok_nodes; [|exact Ho|by apply (nn_params _ _ _ _ _ _ Hnn)].
    rewrite Hscs, Hsc1. simpl. f_equal. unfold provideIn. rewrite decide_True by done.
    destruct (withProvider_eq n keys (extended (set_gh Snapshot sc) (ws ++ [WCtor n]))) as [m ->].
    by destruct sc.
  - intros k sc' Hk Hsc'. assert (sc' = sc) as -> by congruence.
    rewrite <- (Hfree k _ Hk Hsc1). by destruct sc.
Qed.

(** The introspection record of the call, if it was asked for. *)
Definition filled (info : option positive) (cn : constructorNode) (m : gmap positive Store.info) :=
  match info with
  | None => m
  | Some p => <[p := ProvideInfo (cn_id cn) (inputsOf (paramList_DotParam (cn_paramList cn)))
                       (outputsOf (DotResult (resultList_ (cn_resultList cn))))]> m
  end.

Lemma provideBody_spec ctor opts s s0 st st' :
  let l := subscopes (st_scopes st) s in
  placed s st →
  provideBody ctor opts s s0 l (upd_scopes (onScopes l (set_gh Snapshot)) st) = (Ret (), st') →
  ∃ n keys ws cn, provide_done st st' s n keys ws cn ∧
    made_by ctor s s0 (mkConstructorOptions (po_Name opts) (po_Group opts) (po_As opts)
                         (po_Location opts) (po_Callback opts) (po_BeforeCallback opts)) cn ∧
    st_infos st' = filled (po_Info opts) cn (st_infos st).
Proof.
  intros l Hp. set (st0 := upd_scopes (onScopes l (set_gh Snapshot)) st). unfold provideBody, failM.
  assert (same_children (st_scopes st) (st_scopes st0)) as Hsame by (apply same_children_on; by intros []).
  assert (subscopes (st_scopes st0) s = l) as Hsub by (by apply subscopes_same).
  assert (placed s st0) as Hp0.
  { destruct Hp as [Ht Hl]. split; [by eapply tree_same|]. by rewrite (same_children_length _ _ Hsame). }
  pose proof (tree_nodup _ (proj1 Hp) s (proj2 Hp)) as Hnd. fold l in Hnd.
  rewrite bind_Ret. intros (n & s1 & H1 & H).
  match type of H1 with newConstructorNode _ _ _ ?o _ = _ =>
    pose proof (newConstructorNode_spec ctor s s0 o st0 Hp0) as Hnew end.
  rewrite H1 in Hnew. destruct Hnew as (ws & cn & Hnn & Hmade).
  apply bind_Ret in H as (cn' & s2 & H2 & H). apply getCtor_Ret in H2 as [-> Hcn'].
  rewrite (nn_ctors _ _ _ _ _ _ Hnn), (nn_index _ _ _ _ _ _ Hnn), lookup_app_r, Nat.sub_diag in Hcn' by done.
  injection Hcn' as <-.
  apply bind_Ret in H as (? & s3 & [= <- <-] & H).
  apply bind_Ret in H as (keys & s4 & Hk & H). unfold liftO in Hk. injection Hk as Hk <-.
  pose proof (findAndValidateResults_ok (providerLocations s1 s) (cn_resultList cn)) as Hok.
  rewrite Hk in Hok. destruct Hok as (Hkeys & _ & Hfree). case_decide as Hne; [done|].
  apply bind_Ret in H as (sc & s5 & H5 & H). apply getScope_Ret in H5 as [-> Hsc].
  apply bind_Ret in H as ([] & s6 & H6 & H). unfold addProviders in H6.
  rewrite forEach_modScope in H6. injection H6 as <-. fold (withProvider n (elements keys)) in H.
  apply bind_Ret in H as ([] & s7 & H7 & H). apply verifyScopes_eq in H7 as ->; [|done].
  apply bind_Ret in H as ([] & s8 & [= <-] & H).
  exists n, (elements keys), ws, cn. split.
  2: { split; [done|]. pose proof (nn_infos _ _ _ _ _ _ Hnn) as Hi. unfold filled.
       by destruct (po_Info opts); injection H as <-; simpl; rewrite Hi. }
  assert (st_scopes st' = alter (set_nodes (λ ns, ns ++ [n])) s
            (onScopes l verified (alter (withProvider n (elements keys)) s (st_scopes s1))) ∧
          st_ctors st' = st_ctors s1 ∧ st_dcors st' = st_dcors s1 ∧ st_trace st' = st_trace s1 ∧
          st_orders st' = st_orders s1) as (Hs & Hc & Hd & Htr & Ho).
  { by destruct (po_Info opts); injection H as <-. }
  apply (provided_from st s1); try done.
  - apply NoDup_elements.
  - intros Hnil. by apply Hne, leibniz_equiv, elements_empty_inv.
  - intros k. by rewrite elem_of_elements.
  - intros k sc' Hk' Hsc'. assert (sc' = sc) as -> by congruence.
    eapply providerLocations_nil; [done|auto].
Qed.

Lemma provideTarget_lt st s opts :
  wf_store st → s < length (st_scopes st) → provideTarget st s opts < length (st_scopes st).
Proof.
  intros Hwf Hs. unfold provideTarget. destruct (po_Exported _); [|done].
  apply rootScope_from_lt; [done|]. intros. by eapply wf_parent_lt.
Qed.

(** The options of the call, as the node gets them. *)
Definition nodeOptions (opts : list ProvideOption) : constructorOptions :=
  let p := foldl (λ p o, applyProvideOption o p) noProvideOptions opts in
  mkConstructorOptions (po_Name p) (po_Group p) (po_As p) (po_Location p) (po_Callback p)
    (po_BeforeCallback p).

Definition infoOption (opts : list ProvideOption) : option positive :=
  po_Info (foldl (λ p o, applyProvideOption o p) noProvideOptions opts).

(** A [Provide] that returns nil has registered the constructor. *)
Lemma Provide_provided s constructor opts st st' :
  placed (provideTarget st s opts) st → Provide s constructor opts st = (Ret (), st') →
  ∃ f n keys ws cn, constructor = IFunc f ∧
    provide_done st st' (provideTarget st s opts) n keys ws cn ∧
    made_by f (provideTarget st s opts) s (nodeOptions opts) cn ∧
    st_infos st' = filled (infoOption opts) cn (st_infos st).
Proof.
  intros Hp. unfold Provide, failM. destruct (TypeOf constructor) as [t|]; [|done].
  destruct constructor as [|t'|f|t' r]; try done. case_decide; [done|]. cbv zeta.
  rewrite bind_Ret. intros ([] & s1 & [= _ <-] & Hw%wrapErr_Ret). exists f.
  unfold provide in Hw. apply bind_Ret in Hw as (? & s2 & [= <- <-] & Hw).
  fold (provideTarget st s opts) in Hw. cbv zeta in Hw.
  rewrite (bind_step _ _ _ _ _ (forEach_onScopes _ _ st (tree_nodup _ (proj1 Hp) _ (proj2 Hp)))) in Hw.
  unfold observe in Hw. destruct (provideBody _ _ _ _ _ _) as [[[]|e|p|] s3] eqn:Hb; try done.
  - injection Hw as <-. apply provideBody_spec in Hb as (n & keys & ws & cn & H1 & H2 & H3); [|done].
    by exists n, keys, ws, cn.
  - by apply bind_Ret in Hw as (? & ? & _ & [=]).
Qed.
End provide.

(** ** The orders *)

(** Orders are added, decorators are not touched. *)
Definition orders_grow (a b : store) : Prop :=
  st_orders a `prefix_of` st_orders b ∧ st_dcors b = st_dcors a.

#[export] Instance orders_grow_preorder : PreOrder orders_grow.
Proof.
  split; [by intros a; split|]. intros a b c [Hab Hd] [Hbc Hd']. split; [by etransitivity|congruence].
Qed.
#[local] Hint Resolve orders_grow_preorder : dig.

Section orders.
Context `{E : Env}.

Lemma orders_modifyS F f st : 
  (∀ s, st_orders (f s) = st_orders s ∧ st_dcors (f s) = st_dcors s) → runs orders_grow F (modifyS f) st.
Proof. intros Hf. apply runs_modifyS. unfold orders_grow. by destruct (Hf st) as [-> ->]. Qed.
#[local] Hint Extern 1 (runs orders_grow _ (modifyS _) _) => by apply orders_modifyS : dig.
#[local] Hint Extern 1 (runs orders_grow _ (modScope _ _) _) => by apply orders_modifyS : dig.
#[local] Hint Extern 1 (runs orders_grow _ (match ?x with None => _ | Some _ => _ end) _) =>
  destruct x : dig.

Lemma orders_scopes {A} F (l : list A) s (f : A → Scope → Scope) st :
  runs orders_grow F (forEach l (λ x, modScope (s x) (f x))) st.
Proof. apply (runs_forEach orders_grow F (λ _, True)); auto with dig. Qed.

Lemma orders_verifyScopes old l st : runs orders_grow True (verifyScopes old l) st.
Proof.
  apply (runs_forEach orders_grow True (λ _, True)); auto. intros s st1 _ _.
  run_step; [auto with dig|]. run_step; [auto with dig|].
  destruct (deferAcyclicVerification _); [auto with dig|].
  run_step; [split; [done|]; by rewrite checkAcyclic_still|].
  destruct a1; [|auto with dig]. run_step; [apply orders_scopes|]. run_step; auto with dig.
Qed.

(** [provide] never changes an [orders] map or a decorator that exists. *)
Lemma orders_Provide s constructor opts st :
  placed (provideTarget st s opts) st → runs orders_grow True (Provide s constructor opts) st.
Proof.
  intros Hp. unfold Provide, failM. destruct (TypeOf constructor) as [t|]; [|auto with dig].
  destruct constructor as [|t'|f|t' r]; try (by auto with dig). case_decide; [auto with dig|]. cbv zeta.
  run_step; [by apply runs_liftO; [apply _|]|]. unfold liftO in Hrun. injection Hrun as _ <-.
  apply runs_wrapErr. unfold provide. run_step; [auto with dig|]. injection Hrun as <- <-.
  fold (provideTarget st s opts). cbv zeta.
  pose proof (forEach_onScopes _ (set_gh Snapshot) st (tree_nodup _ (proj1 Hp) _ (proj2 Hp))) as Hsnap.
  run_step; [by apply orders_scopes|]. rewrite Hsnap in Hrun. injection Hrun as _ <-.
  set (t1 := provideTarget st s opts) in *. set (st1 := upd_scopes _ st).
  assert (placed t1 st1) as Hp1.
  { destruct Hp as [Ht Hl]. split; [|by simpl; rewrite onScopes_length].
    eapply tree_same; [|exact Ht]. apply same_children_on. by intros []. }
  apply runs_observe; [apply _| |].
  - unfold provideBody, failM. run_step.
    { split; [done|]. match goal with |- context [newConstructorNode ?f ?s ?s0 ?o ?st] =>
        pose proof (newConstructorNode_spec f s s0 o st Hp1) as Hn end.
      unfold orders_grow. destruct (newConstructorNode _ _ _ _ _) as [[n|e|p|] s2]; simpl;
        [destruct Hn as (ws & cn & Hn & _)|..]; split; by apply Hn. }
    run_step; [auto with dig|]. run_step; [auto with dig|]. run_step; [by apply runs_liftO; [apply _|]|].
    case_decide; [auto with dig|]. run_step; [auto with dig|].
    run_step; [by apply orders_scopes|]. run_step; [apply orders_verifyScopes|].
    run_step; auto with dig.
  - intros res s2 _ _ _. destruct res; try (by apply runs_liftO; [apply _|]).
    run_step; [by apply orders_scopes|auto with dig].
Qed.
End orders.

(** ** The effect on a scope *)

(** The fields that registering a constructor leaves alone. *)
Definition aside (sc : Scope) :=
  (sc_name sc, decorators sc, decoratedValues sc, values sc, groups sc, decoratedGroups sc,
   deferAcyclicVerification sc, recoverFromPanics sc, sc_invokerFn sc, parentScope sc, childScopes sc,
   sc_rand sc, clockSrc sc).

Lemma provideIn_aside l s n keys ws x sc : aside (provideIn l s n keys ws x sc) = aside sc.
Proof.
  unfold provideIn. destruct (withProvider_eq n keys (extended (set_gh Snapshot sc) (ws ++ [WCtor n])))
    as [m ->].
  destruct sc; repeat case_decide; reflexivity.
Qed.

Lemma provideIn_providers l s n keys ws x sc k :
  NoDup keys →
  getProviders (provideIn l s n keys ws x sc) k =
  if decide (x = s ∧ k ∈ keys) then getProviders sc k ++ [n] else getProviders sc k.
Proof.
  intros Hk. set (sc' := extended (set_gh Snapshot sc) (ws ++ [WCtor n])).
  assert (∀ sx, getProviders (verified sx) k = getProviders sx k) as Hv by (by intros []).
  assert (∀ f sx, getProviders (set_nodes f sx) k = getProviders sx k) as Hn by (by intros ? []).
  assert (getProviders sc' k = getProviders sc k) as Hs' by (by destruct sc).
  unfold provideIn. fold sc'. destruct (decide (x = s)) as [->|Hx].
  - rewrite Hn, Hv, withProvider_get, Hs' by done.
    destruct (decide (k ∈ keys)); [rewrite decide_True|rewrite decide_False]; naive_solver.
  - rewrite (decide_False (P := x = s ∧ _)) by naive_solver. case_decide; [by rewrite Hv|done].
Qed.

Lemma provideIn_nodes l s n keys ws x sc :
  nodes (provideIn l s n keys ws x sc) = if decide (x = s) then nodes sc ++ [n] else nodes sc.
Proof.
  unfold provideIn. destruct (withProvider_eq n keys (extended (set_gh Snapshot sc) (ws ++ [WCtor n])))
    as [m ->].
  destruct sc; repeat case_decide; reflexivity.
Qed.

Lemma provideIn_gh l s n keys ws x sc :
  s ∈ l →
  gh_nodes (gh (provideIn l s n keys ws x sc)) =
  if decide (x ∈ l) then gh_nodes (gh sc) ++ ws ++ [WCtor n] else gh_nodes (gh sc).
Proof.
  intros Hs. unfold provideIn.
  destruct (withProvider_eq n keys (extended (set_gh Snapshot sc) (ws ++ [WCtor n]))) as [m ->].
  destruct (decide (x = s)) as [->|]; [rewrite decide_True by done|case_decide];
    by destruct sc as [????????????? [] ???].
Qed.

(** The scopes that were checked are verified again, unless their check is deferred. *)
Lemma provideIn_verified l s n keys ws x sc :
  s ∈ l →
  isVerifiedAcyclic (provideIn l s n keys ws x sc) =
  if decide (x ∈ l) then negb (deferAcyclicVerification sc) else isVerifiedAcyclic sc.
Proof.
  intros Hs. unfold provideIn.
  destruct (withProvider_eq n keys (extended (set_gh Snapshot sc) (ws ++ [WCtor n]))) as [m ->].
  destruct (decide (x = s)) as [->|]; [rewrite decide_True by done|case_decide]; by destruct sc.
Qed.

Lemma provideIn_snap l s n keys ws x sc :
  s ∈ l →
  gh_snap (gh (provideIn l s n keys ws x sc)) =
  if decide (x ∈ l) then Z.of_nat (length (gh_nodes (gh sc))) else gh_snap (gh sc).
Proof.
  intros Hs. unfold provideIn.
  destruct (withProvider_eq n keys (extended (set_gh Snapshot sc) (ws ++ [WCtor n]))) as [m ->].
  destruct (decide (x = s)) as [->|]; [rewrite decide_True by done|case_decide];
    by destruct sc as [????????????? [] ???].
Qed.


Section provide_example.
#[local] Existing Instance plainEnv.

(** [func() A] is exported from a child scope. *)
Definition exportedOps : list op := [OpNew []; OpScope 0 "child"].

End provide_example.
