(* ===== verification/ProvideErrors.v ===== *)
(** * What a failed registration leaves behind (provide.go)

    The exact effect of a [Provide] that returns an error, on every scope of the tree.
    [provide] rolls the graphs back, but when the cycle check fails it restores the
    providers of the scope in which it found the cycle, which need not be the scope it
    added the constructor to. *)

From S2P Require Import Prelude Digraph GoLib GoTypes DigReflect Errors Group InOut.
From S2P Require Import Values DotTypes Result Store Scenario Param Call ResultProofs.
From S2P Require Import Options Deps Building ParamProofs CallProofs Provide Decorate ProvideProofs Invoke.
From S2P Require Import Invariants Reachable ScopeTree Reading ProvideSpec.

Open Scope string_scope.
Open Scope list_scope.

(** ** One scope *)

(** The same scope, but for its providers and its verification. *)
Definition settled (a b : Scope) : Prop :=
  aside b = aside a ∧ nodes b = nodes a ∧ gh b = gh a.

#[export] Instance settled_preorder : PreOrder settled.
Proof.
  split; [done|]. intros a b c (H1 & H2 & H3) (H4 & H5 & H6). unfold settled.
  by rewrite H4, H5, H6.
Qed.

Lemma withoutProvider_settled old sc : settled sc (withoutProvider old sc).
Proof.
  unfold withoutProvider. revert sc; induction old as [|ko old IH]; intros sc; [done|]. simpl.
  etransitivity; [|apply IH]. by destruct sc.
Qed.

Lemma withProvider_settled n ks sc : settled sc (withProvider n ks sc).
Proof. destruct (withProvider_eq n ks sc) as [m ->]. by destruct sc. Qed.

Lemma verified_settled b sc : settled sc (set_isVerifiedAcyclic b sc).
Proof. by destruct sc. Qed.

Lemma withoutProvider_get (g : key → list nat) keys sc k :
  getProviders (withoutProvider ((λ k, (k, g k)) <$> keys) sc) k =
  if decide (k ∈ keys) then g k else getProviders sc k.
Proof.
  unfold withoutProvider. revert sc; induction keys as [|x keys IH]; intros sc; [done|].
  rewrite fmap_cons. simpl. rewrite IH. destruct (decide (k ∈ keys)) as [Hk|Hk].
  - by rewrite decide_True by set_solver.
  - destruct sc; unfold getProviders; simpl. destruct (decide (k = x)) as [->|Hne].
    + by rewrite lookup_insert_eq, decide_True by set_solver.
    + rewrite lookup_insert_ne by done. rewrite decide_False; [done|].
      by rewrite not_elem_of_cons.
Qed.

(** A scope whose graph goes back to the snapshot: what was added to it, and to the
    scope by [f], which leaves the graph alone. *)
Lemma rollback_back f ws sc :
  (∀ sc, settled sc (f sc)) →
  let sc' := set_gh Rollback (f (extended (set_gh Snapshot sc) ws)) in
  aside sc' = aside sc ∧ nodes sc' = nodes sc ∧ gh_nodes (gh sc') = gh_nodes (gh sc) ∧
  ∀ k, getProviders sc' k = getProviders (f (extended (set_gh Snapshot sc) ws)) k.
Proof.
  intros Hf. destruct (Hf (extended (set_gh Snapshot sc) ws)) as (Ha & Hn & Hg).
  destruct (f _) as [nm pv dc nd dv vs gr dg rd iv df rc inv g pa ch ck]. simpl in *.
  destruct sc as [nm' pv' dc' nd' dv' vs' gr' dg' rd' iv' df' rc' inv' [gn gs] pa' ch' ck']. simpl in *.
  split_and!; [exact Ha|done| |done]. subst g. unfold Rollback. simpl.
  rewrite decide_False by lia. simpl. by rewrite Nat2Z.id, take_app_length.
Qed.

Lemma alter_lookup (f : Scope → Scope) (y : nat) (scs : list Scope) (x : nat) :
  alter f y scs !! x = (λ sc, if decide (x = y) then f sc else sc) <$> scs !! x.
Proof.
  destruct (decide (x = y)) as [->|Hne].
  - rewrite list_lookup_alter_eq. by destruct (scs !! y).
  - rewrite list_lookup_alter_ne by done. by destruct (scs !! x).
Qed.

Section errors.
Context `{E : Env}.

(** ** The check *)

(** The check fails in the scope [bad]; the scopes before it have passed. *)
Lemma verifyScopes_fails old l a e b :
  NoDup l → verifyScopes old l a = (Err e, b) →
  ∃ pre bad post, l = pre ++ bad :: post ∧ IsCycleDetected (Some e) = true ∧
    b = upd_scopes (λ scs, alter (λ sc, withoutProvider old (set_isVerifiedAcyclic false sc)) bad
                             (onScopes pre verified scs)) a.
Proof.
  intros Hl. revert a; induction Hl as [|s l Hs Hl IH]; intros a; [done|].
  unfold verifyScopes. rewrite forEach_cons, bind_Err. intros [H|([] & s1 & H1 & Hrest)].
  - exists [], s, l. split; [done|].
    apply bind_Err in H as [[=]|([] & s1 & [= <-] & H)].
    apply bind_Err in H as [H|(sc & s2 & H2 & H)]; [by apply getScope_Err in H|].
    apply getScope_Ret in H2 as [-> _]. destruct (deferAcyclicVerification sc); [done|].
    apply bind_Err in H as [H|([cycle|] & s3 & H3 & H)]; [by apply checkAcyclic_Err in H| |done].
    pose proof (checkAcyclic_still s (upd_scopes (alter (set_isVerifiedAcyclic false) s) a)) as Hst.
    rewrite H3 in Hst. simpl in Hst. subst s3.
    pose proof (forEach_modScope old s (λ ko, set_providers <[ko.1 := ko.2]>)) as Hloop.
    apply bind_Err in H as [H|([] & s4 & H4 & H)]; [by rewrite Hloop in H|].
    rewrite Hloop in H4. injection H4 as <-.
    apply bind_Err in H as [[=]|(? & s5 & [= <- <-] & [= <- <-])]. split; [done|].
    unfold upd_scopes. simpl. by rewrite list_alter_alter_eq, onScopes_nil.
  - assert (verifyScopes old [s] a = (Ret (), s1)) as Hone.
    { unfold verifyScopes. rewrite forEach_cons. by rewrite (bind_step _ _ _ _ _ H1). }
    apply verifyScopes_eq in Hone as ->; [|apply NoDup_singleton].
    apply IH in Hrest as (pre & bad & post & -> & He & ->).
    exists (s :: pre), bad, post. split; [done|]. split; [done|]. unfold upd_scopes. simpl. f_equal. f_equal.
    rewrite <-(onScopes_cons s pre) by set_solver.
    by rewrite <-(onScopes_cons s []), onScopes_nil by set_solver.
Qed.

(** ** The body of [provide] *)

(** What it may leave, when it fails, of the scopes [l] at and below [t]: the graph of each
    has grown by [ws], and each was changed by [f]. *)
Record body_fails (st st' : store) (t : nat) (l : list nat) (f : nat → Scope → Scope)
    (ws : list graphNode) : Prop := {
  bf_ctors : st_ctors st `prefix_of` st_ctors st';
  bf_dcors : st_dcors st' = st_dcors st;
  bf_infos : st_infos st' = st_infos st;
  bf_trace : st_trace st' = st_trace st;
  bf_length : length (st_scopes st') = length (st_scopes st);
  bf_scopes : ∀ x, st_scopes st' !! x =
    (λ sc, if decide (x ∈ l) then f x (extended (set_gh Snapshot sc) ws) else sc) <$> st_scopes st !! x
}.

(** How [f] changes scope [x] when the cycle is found in [bad]. *)
Definition afterCycle (t n : nat) (keys : list key) (old : key → list nat) (pre : list nat) (bad x : nat)
    (sc : Scope) : Scope :=
  let sc1 := if decide (x = t) then withProvider n keys sc else sc in
  let sc2 := if decide (x ∈ pre) then verified sc1 else sc1 in
  if decide (x = bad)
  then withoutProvider ((λ k, (k, old k)) <$> keys) (set_isVerifiedAcyclic false sc2) else sc2.

Lemma afterCycle_settled t n keys old pre bad x sc :
  settled sc (afterCycle t n keys old pre bad x sc).
Proof.
  unfold afterCycle.
  assert (settled sc (if decide (x = t) then withProvider n keys sc else sc)) as H1
    by (case_decide; [apply withProvider_settled|done]).
  set (sc1 := if decide (x = t) then _ else _) in *.
  assert (settled sc1 (if decide (x ∈ pre) then verified sc1 else sc1)) as H2
    by (case_decide; [apply verified_settled|done]).
  set (sc2 := if decide (x ∈ pre) then _ else _) in *.
  etransitivity; [exact H1|]. etransitivity; [exact H2|]. case_decide; [|done].
  etransitivity; [apply (verified_settled false)|apply withoutProvider_settled].
Qed.

Lemma afterCycle_get t n keys old pre bad x sc k :
  NoDup keys →
  getProviders (afterCycle t n keys old pre bad x sc) k =
  if decide (k ∈ keys) then
    if decide (x = bad) then old k
    else if decide (x = t) then getProviders sc k ++ [n] else getProviders sc k
  else getProviders sc k.
Proof.
  intros Hnd. unfold afterCycle.
  assert (∀ b sx, getProviders (set_isVerifiedAcyclic b sx) k = getProviders sx k) as Hv by (by intros ? []).
  set (sc1 := if decide (x = t) then _ else _).
  assert (getProviders sc1 k = if decide (k ∈ keys) then
            if decide (x = t) then getProviders sc k ++ [n] else getProviders sc k
          else getProviders sc k) as H1.
  { unfold sc1. destruct (decide (x = t)); [by apply withProvider_get|by case_decide]. }
  set (sc2 := if decide (x ∈ pre) then _ else _).
  assert (getProviders sc2 k = getProviders sc1 k) as H2 by (unfold sc2; destruct (decide (x ∈ pre)); [apply Hv|done]).
  destruct (decide (x = bad)) as [->|Hne].
  - rewrite withoutProvider_get, Hv, H2, H1. by destruct (decide (k ∈ keys)).
  - by rewrite H2, H1.
Qed.

Lemma provideBody_fails ctor opts t s0 st st' e :
  let l := subscopes (st_scopes st) t in
  placed t st →
  provideBody ctor opts t s0 l (upd_scopes (onScopes l (set_gh Snapshot)) st) = (Err e, st') →
  ∃ f ws, body_fails st st' t l f ws ∧
    ((∀ x sc, f x sc = sc) ∨
     ∃ keys pre bad post sct, l = pre ++ bad :: post ∧ IsCycleDetected (Some e) = true ∧ keys ≠ [] ∧
       NoDup keys ∧ st_scopes st !! t = Some sct ∧
       f = afterCycle t (length (st_ctors st)) keys (getProviders sct) pre bad).
Proof.
  intros l Hp. set (st0 := upd_scopes (onScopes l (set_gh Snapshot)) st). unfold provideBody, failM.
  assert (same_children (st_scopes st) (st_scopes st0)) as Hsame by (apply same_children_on; by intros []).
  assert (subscopes (st_scopes st0) t = l) as Hsub by (by apply subscopes_same).
  assert (placed t st0) as Hp0.
  { destruct Hp as [Ht Hl]. split; [by eapply tree_same|]. by rewrite (same_children_length _ _ Hsame). }
  assert (∀ s1 ws, st_scopes s1 = marked (subscopes (st_scopes st0) t) ws (st_scopes st0) →
    ∀ x, st_scopes s1 !! x = (λ sc, if decide (x ∈ l) then extended (set_gh Snapshot sc) ws else sc)
                              <$> st_scopes st !! x) as Hmarked.
  { intros s1 ws -> x. rewrite Hsub. unfold st0, marked. simpl. by rewrite onScopes_compose, onScopes_lookup. }
  rewrite bind_Err. match goal with |- context [newConstructorNode _ _ _ ?o _] =>
    pose proof (newConstructorNode_spec ctor t s0 o st0 Hp0) as Hnew end.
  intros [H|(n & s1 & H1 & H)].
  { rewrite H in Hnew. destruct (ext_scopes _ _ _ Hnew) as (ws & _ & Hws).
    exists (λ _ sc, sc), ws. split; [|by left].
    destruct Hnew as [Hc Hd Hi Ht _ _]. split; try done; [by rewrite Hc| |by apply Hmarked].
    rewrite Hws. unfold marked, st0. simpl. by rewrite !onScopes_length. }
  rewrite H1 in Hnew. destruct Hnew as (ws & cn & Hnn & _).
  assert (body_fails st s1 t l (λ _ sc, sc) (ws ++ [WCtor n])) as Hbase.
  { destruct Hnn. split; try done; [by rewrite nn_ctors; eexists| |by apply Hmarked].
    rewrite nn_scopes. unfold marked, st0. simpl. by rewrite !onScopes_length. }
  apply bind_Err in H as [H|(cn' & s2 & H2 & H)]; [by apply getCtor_Err in H|].
  apply getCtor_Ret in H2 as [-> _].
  apply bind_Err in H as [[=]|(? & ? & [= <- <-] & H)].
  apply bind_Err in H as [[= _ <-]|(keys & s3 & [= _ <-] & H)]; [by eauto|].
  case_decide as Hne; [injection H as _ <-; by eauto|].
  apply bind_Err in H as [H|(sc & s4 & H4 & H)]; [by apply getScope_Err in H|].
  apply getScope_Ret in H4 as [-> Hsc].
  pose proof (forEach_modScope (elements keys) t
                (λ k, set_providers (λ m, <[k := default [] (m !! k) ++ [n]]> m)) s1) as Hadd.
  apply bind_Err in H as [H|([] & s5 & H5 & H)]; [unfold addProviders in H; by rewrite Hadd in H|].
  unfold addProviders in H5. rewrite Hadd in H5. injection H5 as <-. clear Hadd.
  fold (withProvider n (elements keys)) in H.
  apply bind_Err in H as [H|(? & s6 & _ & H)].
  2: { apply bind_Err in H as [[=]|(? & s7 & _ & H)]. by destruct (po_Info opts). }
  apply verifyScopes_fails in H as (pre & bad & post & Hl & He & ->);
    [|by apply (tree_nodup _ (proj1 Hp)), Hp].
  assert (t ∈ l) as Ht by (by apply subscopes_self; apply Hp).
  destruct (lookup_lt_is_Some_2 _ _ (proj2 Hp)) as [sct Hsct].
  assert (sc = extended (set_gh Snapshot sct) (ws ++ [WCtor n])) as ->.
  { rewrite (bf_scopes _ _ _ _ _ _ Hbase t), Hsct in Hsc. simpl in Hsc.
    rewrite decide_True in Hsc by done. by injection Hsc. }
  exists (afterCycle t n (elements keys) (getProviders sct) pre bad), (ws ++ [WCtor n]). split.
  - destruct Hbase. split; try done; simpl.
    { by rewrite length_alter, onScopes_length, length_alter. }
    intros x.
    rewrite alter_lookup, onScopes_lookup, alter_lookup, bf_scopes0.
    destruct (st_scopes st !! x) as [sx|]; [|done]. simpl. f_equal. unfold afterCycle.
    assert (∀ ws', (λ k, (k, getProviders (extended (set_gh Snapshot sct) ws') k)) <$> elements keys =
                   (λ k, (k, getProviders sct k)) <$> elements keys) as Hold.
    { intros ws'. apply list_fmap_ext. intros _ k _. by destruct sct. }
    rewrite Hold. destruct (decide (x ∈ l)) as [Hx|Hx].
    + by destruct (decide (x = t)), (decide (x ∈ pre)), (decide (x = bad)).
    + assert ((x ∉ pre) ∧ x ≠ t ∧ x ≠ bad) as (Hn1 & Hn2 & Hn3).
      { assert (x ∉ pre ++ bad :: post) as Hx' by (by rewrite <-Hl).
        rewrite not_elem_of_app, not_elem_of_cons in Hx'. split_and!; [apply Hx'|by intros ->|apply Hx']. }
      by rewrite !decide_False by done.
  - right. exists (elements keys), pre, bad, post, sct. split_and!; try done.
    + intros Hnil. by apply Hne, leibniz_equiv, elements_empty_inv.
    + apply NoDup_elements.
    + by rewrite (nn_index _ _ _ _ _ _ Hnn).
Qed.

(** [Provide], on an error. *)
Lemma Provide_fails s constructor opts st st' e :
  placed (provideTarget st s opts) st → Provide s constructor opts st = (Err e, st') →
  let t := provideTarget st s opts in
  let l := subscopes (st_scopes st) t in
  st' = st ∨
  ∃ e1 st1 f ws, body_fails st st1 t l f ws ∧ st' = upd_scopes (onScopes l (set_gh Rollback)) st1 ∧
    (IsCycleDetected (Some e1) = true → IsCycleDetected (Some e) = true) ∧
    ((∀ x sc, f x sc = sc) ∨
     ∃ keys pre bad post sct, l = pre ++ bad :: post ∧ IsCycleDetected (Some e1) = true ∧ keys ≠ [] ∧
       NoDup keys ∧ st_scopes st !! t = Some sct ∧
       f = afterCycle t (length (st_ctors st)) keys (getProviders sct) pre bad).
Proof.
  intros Hp H t l. unfold Provide, failM in H.
  destruct (TypeOf constructor) as [ty|]; [|left; by injection H].
  destruct constructor as [|t'|f|t' r]; try (left; by injection H). case_decide; [left; by injection H|].
  cbv zeta in H. apply bind_Err in H as [H|([] & s1 & [= _ <-] & H)].
  { left. unfold liftO in H. by injection H. }
  right. unfold wrapErr in H. destruct (provide _ _ _ st) as [r1 s1] eqn:Hpr.
  destruct r1 as [|e1| |]; simpl in H; try done. injection H as <- <-.
  unfold provide in Hpr. apply bind_Err in Hpr as [[=]|(? & s2 & [= <- <-] & Hw)].
  fold (provideTarget st s opts) in Hw. cbv zeta in Hw. fold t in Hw. fold l in Hw.
  pose proof (tree_nodup _ (proj1 Hp) _ (proj2 Hp)) as Hnd. fold t in Hnd. fold l in Hnd.
  rewrite (bind_step _ _ _ _ _ (forEach_onScopes _ _ st Hnd)) in Hw.
  unfold observe in Hw. destruct (provideBody _ _ _ _ _ _) as [[[]|e2|p|] s3] eqn:Hb; try done.
  rewrite (bind_step _ _ _ _ _ (forEach_onScopes _ _ s3 Hnd)) in Hw. injection Hw as -> <-.
  apply provideBody_fails in Hb as (g & ws & Hbf & Hcase); [|done].
  exists e1, s3, g, ws. split_and!; try done.
Qed.
End errors.


(** ** An example *)

Section provide_error_example.
#[local] Existing Instance plainEnv.

(** A child scope has [func(B) A]; [func(A) B] is then refused by the root, because the
    child's graph has a cycle. *)
Definition childFirst : store :=
  run_ops [OpNew []; OpScope 0 "child"; OpProvide 1 (fn 42 1) []] emptyStore.

End provide_error_example.
