(* ===== verification/DecorateSpec.v ===== *)
(** * What Decorate does (decorate.go)

    The exact effect of [Decorate] on every scope, when it returns nil and when it
    returns an error: the keys before the one that is already decorated stay
    registered. *)

From S2P Require Import Prelude Digraph GoLib GoTypes DigReflect Errors Group InOut.
From S2P Require Import Values DotTypes Result Store Scenario Param Call ResultProofs.
From S2P Require Import Options Deps Building ParamProofs CallProofs Provide Decorate ProvideProofs Invoke.
From S2P Require Import Invariants Reachable ScopeTree Reading.

Open Scope string_scope.
Open Scope list_scope.

(** ** The loop over the keys *)

(** The decorators after the loop, and the key that was decorated already. *)
Fixpoint decorating (d : nat) (keys : list key) (m : gmap key nat) : gmap key nat * option key :=
  match keys with
  | [] => (m, None)
  | k :: keys =>
      match m !! k with
      | Some _ => (m, Some k)
      | None => decorating d keys (<[k := d]> m)
      end
  end.

Lemma decorating_None d keys m :
  (decorating d keys m).2 = None →
  NoDup keys ∧ (∀ k, k ∈ keys → m !! k = None) ∧
  ∀ k, (decorating d keys m).1 !! k = if decide (k ∈ keys) then Some d else m !! k.
Proof.
  revert m; induction keys as [|x keys IH]; intros m; simpl.
  { intros _. split; [constructor|]. split; [set_solver|done]. }
  destruct (m !! x) as [d'|] eqn:Hx; [done|]. intros (Hnd & Hfree & Hm)%IH.
  assert (x ∉ keys) as Hnot by (intros Hin; specialize (Hfree x Hin); by rewrite lookup_insert_eq in Hfree).
  split; [by constructor|]. split.
  - intros k [->|Hk]%elem_of_cons; [done|]. rewrite <- (Hfree k Hk).
    symmetry. apply lookup_insert_ne. by intros ->.
  - intros k. rewrite Hm. destruct (decide (k = x)) as [->|Hne].
    + rewrite decide_False, (decide_True (P := x ∈ x :: keys)) by set_solver. by rewrite lookup_insert_eq.
    + rewrite lookup_insert_ne by done. repeat case_decide; set_solver.
Qed.

Lemma decorating_Some d keys m x :
  (decorating d keys m).2 = Some x →
  ∃ pre post, keys = pre ++ x :: post ∧ (is_Some (m !! x) ∨ x ∈ pre) ∧
    ∀ k, (decorating d keys m).1 !! k = if decide (k ∈ pre) then Some d else m !! k.
Proof.
  revert m; induction keys as [|y keys IH]; intros m; simpl; [done|].
  destruct (m !! y) as [d'|] eqn:Hy; simpl.
  { intros [= ->]. exists [], keys. split; [done|]. split; [left; by eexists|done]. }
  intros (pre & post & -> & Hx & Hm)%IH. exists (y :: pre), post. split; [done|]. split.
  - destruct Hx as [Hx|]; [|right; set_solver]. destruct (decide (x = y)) as [->|Hne]; [right; set_solver|].
    rewrite lookup_insert_ne in Hx by done. by left.
  - intros k. rewrite Hm. destruct (decide (k = y)) as [->|Hne].
    + rewrite (decide_True (P := y ∈ y :: pre)) by set_solver. by rewrite lookup_insert_eq; case_decide.
    + rewrite lookup_insert_ne by done. repeat case_decide; set_solver.
Qed.

(** Two changes of a scope that agree on it. *)
Lemma alter_agree (f g : Scope → Scope) (s : nat) sc (scs : list Scope) :
  scs !! s = Some sc → f sc = g sc → alter f s scs = alter g s scs.
Proof.
  intros Hs Hfg. apply list_eq. intros i. rewrite !list_lookup_alter. case_decide; [subst i|done].
  rewrite Hs. simpl. by rewrite Hfg.
Qed.

(** What [Decorate] leaves alone in a scope. *)
Definition undecorated_part (sc : Scope) :=
  (sc_name sc, providers sc, nodes sc, decoratedValues sc, values sc, groups sc, decoratedGroups sc,
   deferAcyclicVerification sc, recoverFromPanics sc, sc_invokerFn sc, parentScope sc, childScopes sc).

Section decorate.
Context `{E : Env}.

(** One round of the loop. *)
Lemma addDecorators_cons s d dtype k keys st sc :
  st_scopes st !! s = Some sc →
  match decorators sc !! k with
  | Some _ => ∃ e, addDecorators s d dtype (k :: keys) st = (Err e, st)
  | None => addDecorators s d dtype (k :: keys) st =
            addDecorators s d dtype keys (upd_scopes (alter (set_decorators <[k := d]>) s) st)
  end.
Proof.
  intros Hs. unfold addDecorators. rewrite forEach_cons.
  assert (getScope s st = (Ret sc, st)) as Hget by (unfold getScope, mbind, SM_bind; simpl; by rewrite Hs).
  destruct (decorators sc !! k) as [d'|] eqn:Hk.
  - eexists. unfold mbind, SM_bind. by rewrite Hget, Hk.
  - rewrite (bind_step _ _ st () (upd_scopes (alter (set_decorators <[k := d]>) s) st)); [done|].
    by rewrite (bind_step _ _ _ _ _ Hget), Hk.
Qed.

Lemma addDecorators_eq s d dtype keys st sc :
  st_scopes st !! s = Some sc →
  let r := decorating d keys (decorators sc) in
  (addDecorators s d dtype keys st).2 = upd_scopes (alter (set_decorators (λ _, r.1)) s) st ∧
  match r.2 with
  | None => (addDecorators s d dtype keys st).1 = Ret ()
  | Some _ => ∃ e, (addDecorators s d dtype keys st).1 = Err e
  end.
Proof.
  assert (∀ st sc, st_scopes st !! s = Some sc →
    st = upd_scopes (alter (set_decorators (λ _, decorators sc)) s) st) as Hid.
  { intros st' sc' Hs. unfold upd_scopes. destruct st'; simpl in *. f_equal.
    rewrite (alter_agree _ id s sc') by (done || by destruct sc'). by rewrite list_alter_id. }
  revert st sc; induction keys as [|k keys IH]; intros st sc Hs; cbn [decorating]; [by split; [apply Hid|]|].
  pose proof (addDecorators_cons s d dtype k keys st sc Hs) as Hstep.
  destruct (decorators sc !! k) as [d'|] eqn:Hk.
  { destruct Hstep as [e ->]. by split; [apply Hid|eexists]. }
  rewrite Hstep. set (sc1 := set_decorators <[k := d]> sc).
  destruct (IH (upd_scopes (alter (set_decorators <[k := d]>) s) st) sc1) as [H1 H2].
  { simpl. by rewrite list_lookup_alter_eq, Hs. }
  assert (decorators sc1 = <[k := d]> (decorators sc)) as Hd by (by destruct sc). rewrite Hd in H1, H2.
  split; [|exact H2]. etransitivity; [exact H1|]. unfold upd_scopes. simpl. f_equal.
  rewrite list_alter_alter_eq. apply (alter_agree _ _ s sc _ Hs). by destruct sc.
Qed.

(** The node of the decorator; its groups get nodes like those of a constructor. *)
Lemma newDecoratorNode_spec f s opts st :
  placed s st →
  match newDecoratorNode (IFunc f) s opts st with
  | (Ret d, st') => ∃ st1 dn, ext s st st1 ∧ st' = upd_dcors (λ l, l ++ [dn]) st1 ∧
      d = length (st_dcors st) ∧ dn_dcor dn = f ∧ dn_s dn = s ∧ dn_state dn = decoratorReady
  | (_, st') => ext s st st'
  end.
Proof.
  intros Hp. unfold newDecoratorNode. destruct (newParamList_reads s (fv_type f) st Hp) as [He _].
  unfold mbind, SM_bind at 1. destruct (newParamList _ _ _) as [[pl|e|p|] s1]; try done.
  simpl in He. unfold SM_bind at 1, liftO. destruct (newResultList _ _) as [rl|e|p|]; try done.
  eexists s1, _. split; [done|]. split; [done|]. by rewrite <- (ext_dcors _ _ _ He).
Qed.

(** The scopes after parameters were read and the keys [ks] decorated. *)
Lemma decorated_scopes s st st1 st' d (ks : list key) sc m x sx :
  placed s st → ext s st st1 → st_scopes st !! s = Some sc →
  st_scopes st' = alter (set_decorators (λ _, m)) s (st_scopes st1) →
  (∀ k, m !! k = if decide (k ∈ ks) then Some d else decorators sc !! k) →
  st_scopes st !! x = Some sx →
  ∃ sx', st_scopes st' !! x = Some sx' ∧ undecorated_part sx' = undecorated_part sx ∧
    gh_nodes (gh sx) `prefix_of` gh_nodes (gh sx') ∧
    ∀ k, decorators sx' !! k = if decide (x = s ∧ k ∈ ks) then Some d else decorators sx !! k.
Proof.
  intros Hp [_ _ _ _ _ (ws & _ & Hs1)] Hsc Hs' Hm Hx.
  set (sx1 := if decide (x ∈ subscopes (st_scopes st) s) then extended sx ws else sx).
  assert (st_scopes st1 !! x = Some sx1) as Hx1 by (by rewrite Hs1, marked_lookup, Hx).
  assert (undecorated_part sx1 = undecorated_part sx ∧ decorators sx1 = decorators sx ∧
          gh_nodes (gh sx) `prefix_of` gh_nodes (gh sx1)) as (Hu & Hd & Hg).
  { unfold sx1. case_decide; [|done]. split; [by destruct sx|]. split; [by destruct sx|].
    destruct sx. simpl. by eexists. }
  rewrite Hs', list_lookup_alter, Hx1. case_decide as Hxs.
  - subst x. assert (sx = sc) as -> by congruence. exists (set_decorators (λ _, m) sx1).
    split; [by rewrite Hx1|].
    split; [rewrite <- Hu; by destruct sx1|]. split; [by destruct sx1|]. intros k.
    assert (decorators (set_decorators (λ _, m) sx1) = m) as -> by (by destruct sx1). rewrite Hm.
    repeat case_decide; naive_solver.
  - exists sx1. split; [done|]. split; [done|]. split; [done|]. intros k. rewrite Hd.
    case_decide as Hxk; [|done]. by destruct Hxk as [-> _].
Qed.

(** The keys [ks] have been decorated by the new decorator, and nothing else. *)
Definition decoratedBy (st st' : store) (s : nat) (ks : list key) : Prop :=
  st_ctors st' = st_ctors st ∧ st_trace st' = st_trace st ∧
  ∀ x sx, st_scopes st !! x = Some sx →
    ∃ sx', st_scopes st' !! x = Some sx' ∧ undecorated_part sx' = undecorated_part sx ∧
      gh_nodes (gh sx) `prefix_of` gh_nodes (gh sx') ∧
      ∀ k, decorators sx' !! k =
           if decide (x = s ∧ k ∈ ks) then Some (length (st_dcors st)) else decorators sx !! k.

Lemma decoratedBy_ext s st st' : ext s st st' → placed s st → decoratedBy st st' s [].
Proof.
  intros He Hp. destruct (lookup_lt_is_Some_2 _ _ (proj2 Hp)) as [sc Hsc].
  split; [apply He|]. split; [apply He|]. intros x sx Hx.
  destruct (ext_scopes _ _ _ He) as (ws & _ & Hs1).
  exists (if decide (x ∈ subscopes (st_scopes st) s) then extended sx ws else sx).
  split; [by rewrite Hs1, marked_lookup, Hx|].
  assert (∀ k, (if decide (x = s ∧ k ∈ []) then Some (length (st_dcors st)) else decorators sx !! k) =
               decorators sx !! k) as Hno.
  { intros k. rewrite decide_False; [done|]. intros [_ Hin]. by apply elem_of_nil in Hin. }
  destruct (decide (x ∈ _)); (split; [by destruct sx|]); (split; [destruct sx; simpl; solve [reflexivity|by eexists]|]);
    intros k; rewrite Hno; by destruct sx.
Qed.

(** How the loop over the keys ends. *)
Lemma addDecorators_spec s st st1 dtype keys sc dn :
  placed s st → ext s st st1 → st_scopes st !! s = Some sc →
  let st2 := upd_dcors (λ l, l ++ [dn]) st1 in
  match addDecorators s (length (st_dcors st)) dtype keys st2 with
  | (Ret _, st') => NoDup keys ∧ (∀ k, k ∈ keys → decorators sc !! k = None) ∧
      st_dcors st' = st_dcors st ++ [dn] ∧ decoratedBy st st' s keys
  | (Err _, st') => ∃ pre k post, keys = pre ++ k :: post ∧ (is_Some (decorators sc !! k) ∨ k ∈ pre) ∧
      st_dcors st' = st_dcors st ++ [dn] ∧ decoratedBy st st' s pre
  | _ => False
  end.
Proof.
  intros Hp He Hsc st2. destruct (ext_scope s _ _ sc Hp He Hsc) as (ws & _ & Hsc1).
  assert (decorators (extended sc ws) = decorators sc) as Hd by (by destruct sc).
  destruct (addDecorators_eq s (length (st_dcors st)) dtype keys st2 (extended sc ws) Hsc1) as [Hs Hr].
  rewrite Hd in Hs, Hr. destruct (addDecorators _ _ _ _ _) as [r st']. simpl in Hs, Hr. subst st'.
  assert (∀ ks, (∀ k, (decorating (length (st_dcors st)) keys (decorators sc)).1 !! k =
            if decide (k ∈ ks) then Some (length (st_dcors st)) else decorators sc !! k) →
    decoratedBy st (upd_scopes (alter (set_decorators (λ _,
      (decorating (length (st_dcors st)) keys (decorators sc)).1)) s) st2) s ks) as Hby.
  { intros ks Hks. split; [apply He|]. split; [apply He|]. intros x sx Hx. by eapply decorated_scopes. }
  destruct (decorating _ _ _).2 as [k|] eqn:Hdec.
  - destruct Hr as [e ->]. apply decorating_Some in Hdec as (pre & post & Hkeys & Hk & Hm).
    exists pre, k, post. split; [done|]. split; [done|]. split; [|by apply Hby].
    simpl. by rewrite (ext_dcors _ _ _ He).
  - rewrite Hr. apply decorating_None in Hdec as (Hnd & Hfree & Hm). split; [done|]. split; [done|].
    split; [|by apply Hby]. simpl. by rewrite (ext_dcors _ _ _ He).
Qed.

End decorate.


(** ** Examples *)

Section decorate_example.
#[local] Existing Instance plainEnv.

(** [B] is decorated, then [A]. *)
Definition decoratedOps : list op := [OpNew []; OpDecorate 0 (fn 57 1) []].
Definition decoratedStore : store := run_ops decoratedOps emptyStore.

Lemma decoratedStore_wf : wf_store decoratedStore.
Proof. apply run_ops_wf; [apply emptyStore_wf|vm_compute; reflexivity]. Qed.

End decorate_example.
