(* ===== verification/Soundness.v ===== *)
(** * The cycle check makes Invoke safe (graph.go, invoke.go)

    [Provide] and [Invoke] look for cycles in a graph of constructors and value
    groups; [Invoke] then recurses along the parameters of constructors.  For a
    container with one scope and no decorators, whose recorded orders are those of
    the graph, the check is enough: if it passes, the recursion ends. *)

From S2P Require Import Prelude Digraph GoLib GoTypes DigReflect Errors Group InOut.
From S2P Require Import Values DotTypes Result Store Scenario Param Call ResultProofs.
From S2P Require Import Options Deps Building ParamProofs Provide Decorate ProvideProofs Invoke.
From S2P Require Import Invariants Reachable ScopeTree Reading.

Open Scope string_scope.
Open Scope list_scope.

Section single.
Context `{E : Env} (st : store) (sc : Scope).
Context (Hscopes : st_scopes st = [sc]) (Hnodec : decorators sc = ∅).

(** A constructor that provides something. *)
Definition registered (n : nat) : Prop := ∃ k, n ∈ getProviders sc k.

(** The orders recorded for the providers and for the value groups they consume are
    those of their nodes in the graph. *)
Record orders_ok : Prop := {
  orders_ctor : ∀ n, registered n → gh_nodes (gh sc) !! ctorOrder st 0 n = Some (WCtor n);
  orders_group : ∀ n cn p pt, registered n → st_ctors st !! n = Some cn →
    p ∈ pl_Params (cn_paramList cn) → pt ∈ param_groups p →
    ∃ pt', gh_nodes (gh sc) !! orderIn st (pt_orders pt) 0 = Some (WGroup pt') ∧
           pt_Group pt' = pt_Group pt ∧ pt_Type pt' = pt_Type pt
}.

Let ancestors_0 : ancestors (st_scopes st) 0 = [0].
Proof. by rewrite Hscopes. Qed.

Let all_providers k : getAllProviders (st_scopes st) 0 k = getProviders sc k.
Proof. unfold getAllProviders. rewrite ancestors_0, Hscopes. simpl. by rewrite app_nil_r. Qed.

Let key_deps_0 k soft y :
  y ∈ key_deps (st_scopes st) k soft 0 → ∃ n, y = inl n ∧ n ∈ getProviders sc k.
Proof.
  unfold key_deps. rewrite Hscopes. simpl. rewrite Hnodec, lookup_empty. simpl.
  destruct soft; [set_solver|]. intros (n & -> & Hn)%list_elem_of_fmap. by exists n.
Qed.

(** A dependency of a parameter is the target of an edge of the graph, or is behind
    the node of a value group. *)
Lemma param_deps_edges p y :
  y ∈ param_deps st 0 p →
  ∃ n, y = inl n ∧ registered n ∧
    (ctorOrder st 0 n ∈ getParamOrder st 0 p ∨
     ∃ pt el, pt ∈ param_groups p ∧ orderIn st (pt_orders pt) 0 ∈ getParamOrder st 0 p ∧
              Elem (pt_Type pt) = Some el ∧ n ∈ getProviders sc (groupKey (pt_Group pt) el)).
Proof.
  induction p as [ps|pt|t fs IH] using param_ind'; simpl.
  - rewrite ancestors_0. simpl. rewrite app_nil_r. intros (n & -> & Hn)%key_deps_0.
    exists n. split; [done|]. split; [by eexists|]. left.
    unfold getAllValueProviders. rewrite all_providers. by apply list_elem_of_fmap_2.
  - destruct (Elem (pt_Type pt)) as [el|] eqn:Hel; [|set_solver].
    rewrite ancestors_0. simpl. rewrite app_nil_r. intros (n & -> & Hn)%key_deps_0.
    exists n. split; [done|]. split; [by eexists|]. right. exists pt, el. set_solver.
  - intros (f & Hf & Hy)%elem_of_concat_map. rewrite Forall_forall in IH.
    destruct (IH f Hf Hy) as (n & -> & Hr & [Ho|(pt & el & Hpt & Ho & Hel & Hn)]);
      exists n; (split; [done|]); (split; [done|]).
    + left. apply elem_of_concat_map. by exists f.
    + right. exists pt, el. rewrite !elem_of_concat_map. eauto 10.
Qed.

Lemma max_depth (l : list node) :
  (∀ y, y ∈ l → ∃ h, dep_depth h st y = true) → ∃ h, forallb (dep_depth h st) l = true.
Proof.
  induction l as [|y l IH]; intros Hl; [by exists 0|].
  destruct (Hl y) as [h1 H1]; [set_solver|]. destruct IH as [h2 H2]; [set_solver|].
  exists (h1 `max` h2). simpl. apply andb_true_iff. split; [by eapply dep_depth_mono; [|exact H1]; lia|].
  rewrite forallb_forall in *. intros z Hz. eapply dep_depth_mono; [|by apply H2]. lia.
Qed.

Lemma param_deps_elsewhere c p : c ≠ 0 → param_deps st c p = [].
Proof.
  intros Hc. assert (ancestors (st_scopes st) c = []) as Ha.
  { unfold ancestors. simpl. rewrite Hscopes. destruct c; [done|]. by rewrite lookup_ge_None_2 by (simpl; lia). }
  induction p as [ps|pt|t fs IH] using param_ind'; simpl.
  - by rewrite Ha.
  - rewrite Ha. by destruct (Elem _).
  - induction IH as [|f fs Hf _ IHf]; simpl; [done|]. by rewrite Hf, IHf.
Qed.

Lemma list_deps_registered c pl y : y ∈ list_deps st c pl → ∃ n, y = inl n ∧ registered n.
Proof.
  intros (p & _ & Hy)%elem_of_concat_map. destruct (decide (c = 0)) as [->|Hc].
  - destruct (param_deps_edges p y Hy) as (n & -> & Hr & _). eauto.
  - rewrite param_deps_elsewhere in Hy by done. set_solver.
Qed.

(** Every registered constructor has bounded dependencies. *)
Definition registered_bounded : Prop :=
  ∀ n, registered n → ∃ h, dep_depth h st (inl n) = true.

(** Then so has every other node. *)
Lemma all_bounded : registered_bounded → ∃ h, deps_bounded (S h) st = true.
Proof.
  intros Hreg.
  assert (∀ x, ∃ h, dep_depth h st x = true) as Hall.
  { intros x. destruct (max_depth (node_deps st x)) as [h Hh]; [|by exists (S h)].
    intros y Hy. assert (∃ n, y = inl n ∧ registered n) as (n & -> & Hn); [|by apply Hreg].
    destruct x as [n|d]; simpl in Hy.
    - destruct (st_ctors st !! n); [by eapply list_deps_registered|set_solver].
    - destruct (st_dcors st !! d); [|set_solver].
      apply list_elem_of_filter in Hy as [_ Hy]. by eapply list_deps_registered. }
  destruct (max_depth (all_nodes st)) as [h Hh]; [auto|]. exists h.
  unfold deps_bounded. rewrite forallb_forall in *. intros y Hy.
  eapply dep_depth_mono; [|by apply Hh]. lia.
Qed.

Context (Hwf : wf_store st) (Hord : orders_ok).

(** Along the graph, every registered constructor has bounded dependencies. *)
Lemma registered_depth u :
  reaches_fin (scopeGraph st 0) u →
  (∀ n, registered n → ctorOrder st 0 n = u → ∃ h, dep_depth h st (inl n) = true) ∧
  (∀ pt el n, gh_nodes (gh sc) !! u = Some (WGroup pt) → Elem (pt_Type pt) = Some el →
     n ∈ getProviders sc (groupKey (pt_Group pt) el) → ∃ h, dep_depth h st (inl n) = true).
Proof.
  induction 1 as [u _ IH]. split.
  - intros n Hreg Hu. pose proof (orders_ctor Hord n Hreg) as Hnode. rewrite Hu in Hnode.
    assert (n < length (st_ctors st)) as [cn Hcn]%lookup_lt_is_Some.
    { destruct Hreg as [k Hk]. eapply (wf_providers _ Hwf 0 sc); [by rewrite Hscopes|done]. }
    assert (cn_origS cn = 0) as Horig.
    { pose proof (wf_origins _ Hwf n cn Hcn) as Ho. rewrite Hscopes in Ho. simpl in Ho. lia. }
    assert (∀ p v, p ∈ pl_Params (cn_paramList cn) → v ∈ getParamOrder st 0 p →
                   edge (scopeGraph st 0) u v) as Hedge.
    { intros p v Hp Hv. exists (concat (map (getParamOrder st 0) (pl_Params (cn_paramList cn)))).
      split; [|apply elem_of_concat_map; by exists p]. simpl. unfold EdgesFrom_gh.
      rewrite Hscopes. simpl. rewrite Hnode. simpl. by rewrite Hcn. }
    destruct (max_depth (node_deps st (inl n))) as [h Hh]; [|by exists (S h)].
    intros y. simpl. rewrite Hcn, Horig. intros (p & Hp & Hy)%elem_of_concat_map.
    destruct (param_deps_edges p y Hy) as (n' & -> & Hreg' & [Ho|(pt & el & Hpt & Ho & Hel & Hn')]).
    + by apply (proj1 (IH _ (Hedge _ _ Hp Ho))).
    + destruct (orders_group Hord n cn p pt Hreg Hcn Hp Hpt) as (pt' & Hpt' & Hg & Ht).
      apply (proj2 (IH _ (Hedge _ _ Hp Ho)) pt' el); [done|congruence|congruence].
  - intros pt el n Hnode Hel Hn.
    assert (edge (scopeGraph st 0) u (ctorOrder st 0 n)) as Hedge;
      [|apply (proj1 (IH _ Hedge)); [by eexists|done]].
    exists (ctorOrder st 0 <$> getProviders sc (groupKey (pt_Group pt) el)).
    split; [|by apply list_elem_of_fmap_2]. simpl. unfold EdgesFrom_gh.
    rewrite Hscopes. simpl. rewrite Hnode. simpl. rewrite Hel. simpl.
    unfold getAllGroupProviders. rewrite <- Hscopes. by rewrite all_providers.
Qed.

Lemma acyclic_registered :
  (∀ j, j < Order (scopeGraph st 0) → reaches_fin (scopeGraph st 0) j) → registered_bounded.
Proof.
  intros Hfin n Hn. pose proof (orders_ctor Hord n Hn) as Hnode.
  apply (registered_depth (ctorOrder st 0 n)); [|done|done]. apply Hfin. simpl.
  rewrite Hscopes. simpl. by eapply lookup_lt_Some.
Qed.
End single.
