(* ===== verification/RootContainer.v ===== *)
(** * Programs with one scope (provide.go, invoke.go, graph.go)

    A program that makes one container and only calls [Provide] and [Invoke] on it.
    The orders recorded for its constructors and value groups are always those of
    their graph nodes, the graph never has an edge that leads nowhere, and the flag
    [isVerifiedAcyclic] is only set when no constructor depends on itself: the
    checks of the code are enough for every [Invoke] to end. *)

From S2P Require Import Prelude Digraph GoLib GoTypes DigReflect Errors Group InOut.
From S2P Require Import Values DotTypes Result Store Scenario Param Call ResultProofs.
From S2P Require Import Options Deps Building ParamProofs CallProofs Provide Decorate.
From S2P Require Import ProvideProofs Invoke Fuel Invariants Reachable CallLog ScopeTree Reading.
From S2P Require Import ProvideSpec Soundness.

Open Scope string_scope.
Open Scope list_scope.

(** ** Stores with one scope, and how reading parameters extends them *)

Definition one (st : store) (sc : Scope) : Prop :=
  st_scopes st = [sc] ∧ childScopes sc = [].

Lemma one_placed st sc : one st sc → placed 0 st.
Proof.
  intros [Hs Hc]. unfold placed. rewrite Hs. split; [|simpl; lia].
  assert (∀ s, s < length [sc] → subscopes [sc] s = [0]) as Hsub.
  { intros [|s] H; [|simpl in H; lia]. unfold subscopes. simpl. by rewrite Hc. }
  split.
  - intros [|s] sc' c Hsc Hin; [|done]. injection Hsc as <-. rewrite Hc in Hin. by apply elem_of_nil in Hin.
  - intros s H. rewrite Hsub by done. apply NoDup_singleton.
  - intros s x H. rewrite Hsub by done. intros ->%list_elem_of_singleton. simpl. lia.
Qed.

Lemma one_marked st sc ws : one st sc →
  marked (subscopes (st_scopes st) 0) ws (st_scopes st) = [extended sc ws].
Proof. intros [-> Hc]. unfold subscopes. simpl. rewrite Hc. done. Qed.

(** A new node of the graph. *)
Lemma newGraphNode_root w o st sc : one st sc →
  newGraphNode 0 w o st =
  (Ret (), upd_orders (alter <[0 := length (gh_nodes (gh sc))]> o)
             (upd_scopes (λ _, [extended sc [w]]) st)).
Proof.
  intros Hone. destruct (one_placed _ _ Hone) as [Ht Hc]. rewrite newGraphNode_eq by done.
  unfold noted, upd_orders, upd_scopes. rewrite (one_marked _ sc) by done. simpl. do 2 f_equal.
  apply list_alter_ext; [|done]. intros m Hm. destruct Hone as [-> Hch]. unfold subscopes. simpl.
  by rewrite Hch.
Qed.

(** What reading parameters does to the one scope. *)
Lemma ext_one `{E : Env} a b sc : one a sc → ext 0 a b →
  st_ctors b = st_ctors a ∧ st_orders a `prefix_of` st_orders b ∧
  ∃ ws, one b (extended sc ws) ∧ Forall slice_node ws.
Proof.
  intros Ha [Hc _ _ _ Ho (ws & Hws & Hs)]. split_and!; [done..|]. exists ws. split; [|done].
  rewrite (one_marked _ sc) in Hs by done. split; [done|]. destruct Ha as [_ Ha]. by destruct sc.
Qed.

(** ** The invariant of the root *)

Section root.
Context `{E : Env}.

(** Constructors stay as they are, up to the flag [called]. *)
Definition ctors_kept (a b : store) : Prop := ∀ n cn, st_ctors a !! n = Some cn →
  ∃ cn', st_ctors b !! n = Some cn' ∧ skel_ctor cn' = skel_ctor cn.

(** A node of the graph whose edges stay inside it. *)
Definition node_ok (st : store) (w : graphNode) : Prop :=
  match w with
  | WCtor n => ∃ cn, st_ctors st !! n = Some cn ∧
                     ∀ p, p ∈ pl_Params (cn_paramList cn) → groups_ok 0 st p
  | WGroup pt => is_Some (Elem (pt_Type pt))
  end.

Record ordered (st : store) (sc : Scope) : Prop := {
  ord_ctor : ∀ n, registered sc n → ∃ cn, st_ctors st !! n = Some cn ∧
    cn_orders cn < length (st_orders st) ∧
    gh_nodes (gh sc) !! orderIn st (cn_orders cn) 0 = Some (WCtor n);
  ord_nodes : Forall (node_ok st) (gh_nodes (gh sc))
}.

(** The graph of [b] has the nodes of [a], then [ws]; the providers are the same. *)
Record grown (a b : store) (sca scb : Scope) (ws : list graphNode) : Prop := {
  grown_a : st_scopes a = [sca];
  grown_b : st_scopes b = [scb];
  grown_providers : ∀ k, getProviders scb k = getProviders sca k;
  grown_nodes : gh_nodes (gh scb) = gh_nodes (gh sca) ++ ws;
  grown_ctors : ctors_kept a b;
  grown_orders : st_orders a `prefix_of` st_orders b
}.

Lemma node_ok_grown a b sca scb ws w : grown a b sca scb ws → node_ok a w → node_ok b w.
Proof.
  intros Hg. destruct w as [n|pt]; [|done]. intros (cn & Hcn & Hp).
  destruct (grown_ctors _ _ _ _ _ Hg n cn Hcn) as (cn' & Hcn' & Hs). exists cn'. split; [done|].
  injection Hs as _ _ _ -> _ _ _ _ _ _. intros p Hin.
  eapply (groups_ok_grow 0 a b sca scb); [by rewrite (grown_a _ _ _ _ _ Hg)|
    by rewrite (grown_b _ _ _ _ _ Hg)|apply Hg..|by apply Hp].
Qed.

Lemma ordered_grown a b sca scb ws :
  grown a b sca scb ws → Forall (node_ok b) ws → ordered a sca → ordered b scb.
Proof.
  intros Hg Hws [Hc Hn]. split.
  - intros n [k Hk]. rewrite (grown_providers _ _ _ _ _ Hg) in Hk.
    destruct (Hc n) as (cn & Hcn & Hlt & Hnode); [by exists k|].
    destruct (grown_ctors _ _ _ _ _ Hg n cn Hcn) as (cn' & Hcn' & Hs). exists cn'.
    injection Hs as _ _ _ _ _ Hord _ _ _ _. rewrite Hord. split; [done|].
    pose proof (grown_orders _ _ _ _ _ Hg) as Ho. split; [apply prefix_length in Ho; lia|].
    rewrite (orderIn_prefix a b) by done. rewrite (grown_nodes _ _ _ _ _ Hg).
    by apply lookup_app_l_Some.
  - rewrite (grown_nodes _ _ _ _ _ Hg). apply Forall_app. split; [|done].
    eapply Forall_impl; [exact Hn|]. intros w. by eapply node_ok_grown.
Qed.

Section ordered.
Context (st : store) (sc : Scope) (Hone : one st sc) (Hord : ordered st sc).

Let Hsc : st_scopes st = [sc] := proj1 Hone.
Let Hsc0 : st_scopes st !! 0 = Some sc.
Proof. by rewrite Hsc. Qed.

Lemma root_providers k : getAllProviders (st_scopes st) 0 k = getProviders sc k.
Proof.
  rewrite Hsc. unfold getAllProviders. simpl. by rewrite app_nil_r.
Qed.

Lemma order_lt n : registered sc n → ctorOrder st 0 n < length (gh_nodes (gh sc)).
Proof.
  intros Hn. destruct (ord_ctor _ _ Hord n Hn) as (cn & Hcn & _ & Hnode).
  unfold ctorOrder. rewrite Hcn. by eapply lookup_lt_Some.
Qed.

Lemma getParamOrder_lt p v :
  groups_ok 0 st p → v ∈ getParamOrder st 0 p → v < length (gh_nodes (gh sc)).
Proof.
  induction p as [ps|pt|t fs IH] using param_ind'; intros Hg; simpl.
  - unfold getAllValueProviders. rewrite root_providers.
    intros (n & -> & Hn)%list_elem_of_fmap. apply order_lt. by eexists.
  - intros ->%list_elem_of_singleton. destruct (Hg sc pt Hsc0) as [_ Hnode]; [simpl; set_solver|].
    by eapply lookup_lt_Some.
  - intros (f & Hf & Hv)%elem_of_concat_map. rewrite Forall_forall in IH.
    apply (IH f Hf); [|done]. intros sc' pt Hsc' Hpt. apply Hg; [done|]. simpl.
    apply elem_of_concat_map. eauto.
Qed.

(** No edge of the graph leads nowhere. *)
Lemma ordered_wf_graph : wf_graph (scopeGraph st 0).
Proof.
  intros u. simpl. unfold EdgesFrom_gh. rewrite Hsc. simpl.
  intros [w Hw]%lookup_lt_is_Some. rewrite Hw. simpl.
  pose proof (Forall_lookup_1 _ _ _ _ (ord_nodes _ _ Hord) Hw) as Hok. destruct w as [n|pt].
  - destruct Hok as (cn & -> & Hp). simpl. eexists. split; [done|].
    intros v (p & Hin & Hv)%elem_of_concat_map. by eapply getParamOrder_lt; [apply Hp|].
  - destruct Hok as [el ->]. simpl. eexists. split; [done|].
    unfold getAllGroupProviders. rewrite <- Hsc, root_providers.
    intros v (n & -> & Hn)%list_elem_of_fmap. apply order_lt. by eexists.
Qed.

Lemma ordered_orders_ok : orders_ok st sc.
Proof.
  split.
  - intros n Hn. destruct (ord_ctor _ _ Hord n Hn) as (cn & Hcn & _ & Hnode).
    unfold ctorOrder. by rewrite Hcn.
  - intros n cn p pt Hn Hcn Hp Hpt. destruct (ord_ctor _ _ Hord n Hn) as (cn' & Hcn' & _ & Hnode).
    assert (cn' = cn) as -> by congruence.
    destruct (Forall_lookup_1 _ _ _ _ (ord_nodes _ _ Hord) Hnode) as (cn' & Hcn'' & Hok).
    assert (cn' = cn) as -> by congruence.
    destruct (Hok p Hp sc pt Hsc0 Hpt) as [_ ?]. eauto.
Qed.

(** When the search finds no cycle, the dependencies of the constructors end. *)
Lemma checked_bounded c :
  wf_store st → decorators sc = ∅ →
  IsAcyclic (scopeGraph st 0) = Done (true, c) → registered_bounded st sc.
Proof.
  intros Hwf Hd Hc. destruct (IsAcyclic_total _ ordered_wf_graph) as (b & c' & Hr & Hb).
  rewrite Hc in Hr. injection Hr as <- <-. destruct Hb as [_ Hfin].
  apply acyclic_registered; try done. by apply ordered_orders_ok.
Qed.
End ordered.

Lemma param_deps_grown a b sca scb ws c p :
  grown a b sca scb ws → decorators sca = ∅ → decorators scb = ∅ →
  param_deps b c p = param_deps a c p.
Proof.
  intros Hg Hda Hdb. pose proof (grown_a _ _ _ _ _ Hg) as Ha. pose proof (grown_b _ _ _ _ _ Hg) as Hb.
  assert (∀ k soft s, key_deps (st_scopes b) k soft s = key_deps (st_scopes a) k soft s) as Hkey.
  { intros k soft [|s]; unfold key_deps; rewrite Ha, Hb; simpl; [|done].
    rewrite Hda, Hdb, !lookup_empty. by rewrite (grown_providers _ _ _ _ _ Hg). }
  assert (ancestors (st_scopes b) c = ancestors (st_scopes a) c) as Hanc.
  { rewrite Ha, Hb. destruct c as [|c]; [done|]. unfold ancestors. simpl. done. }
  induction p as [ps|pt|t fs IH] using param_ind'; simpl.
  - rewrite Hanc. f_equal. apply map_ext. auto.
  - destruct (Elem (pt_Type pt)); [|done]. rewrite Hanc. f_equal. apply map_ext. auto.
  - f_equal. by apply Forall_fmap_ext_1.
Qed.

Lemma bounded_grown a b sca scb ws :
  grown a b sca scb ws → decorators sca = ∅ → decorators scb = ∅ →
  ordered a sca → registered_bounded a sca → registered_bounded b scb.
Proof.
  intros Hg Hda Hdb Hord Hb n Hn.
  assert (∀ m, registered scb m → registered sca m) as Hback.
  { intros m [k Hk]. exists k. by rewrite <- (grown_providers _ _ _ _ _ Hg). }
  destruct (Hb n (Hback n Hn)) as [h Hh]. exists h. revert n Hn Hh.
  induction h as [|h IH]; intros n Hn Hh; [done|]. simpl in Hh |- *.
  destruct (ord_ctor _ _ Hord n (Hback n Hn)) as (cn & Hcn & _).
  destruct (grown_ctors _ _ _ _ _ Hg n cn Hcn) as (cn' & Hcn' & Hs).
  rewrite Hcn in Hh. rewrite Hcn'. injection Hs as _ _ _ Hpl _ _ _ Horig _ _. rewrite Hpl, Horig.
  assert (list_deps b (cn_origS cn) (cn_paramList cn) =
          list_deps a (cn_origS cn) (cn_paramList cn)) as Hdeps.
  { unfold list_deps. f_equal. apply map_ext. intros p. by eapply param_deps_grown. }
  rewrite Hdeps, forallb_forall in *. intros y Hy. pose proof Hy as Hy'.
  apply list_elem_of_In in Hy'. rewrite <- Hdeps in Hy'.
  destruct (list_deps_registered b scb (grown_b _ _ _ _ _ Hg) Hdb _ _ _ Hy') as (m & -> & Hm).
  apply IH; [done|]. by apply Hh.
Qed.

(** What holds of the container between two calls. *)
Record root_inv (st : store) (sc : Scope) : Prop := {
  root_one : one st sc;
  root_undecorated : decorators sc = ∅;
  root_ordered : ordered st sc;
  root_verified : isVerifiedAcyclic sc = true → registered_bounded st sc
}.

Lemma root_grown a b sca scb ws :
  root_inv a sca → grown a b sca scb ws → childScopes scb = [] → decorators scb = ∅ →
  (isVerifiedAcyclic scb = true → isVerifiedAcyclic sca = true) →
  Forall (node_ok b) ws → root_inv b scb.
Proof.
  intros [Hone Hd Hord Hv] Hg Hch Hdb Hvb Hws. split; [|done|by eapply ordered_grown|].
  - split; [apply Hg|done].
  - intros H. eapply (bounded_grown a b); eauto.
Qed.
End root.

(** ** Provide *)

Section provide.
Context `{E : Env}.

(** The store after [newConstructorNode]: the nodes of the value groups the
    constructor consumes, then its own. *)
Record new_ctor (st st' : store) (sc : Scope) (n : nat) (ws : list graphNode)
    (cn : constructorNode) : Prop := {
  nc_index : n = length (st_ctors st);
  nc_scope : st_scopes st' = [extended sc (ws ++ [WCtor n])];
  nc_groups : Forall slice_node ws;
  nc_ctors : st_ctors st' = st_ctors st ++ [cn];
  nc_orders : st_orders st `prefix_of` st_orders st';
  nc_order_lt : cn_orders cn < length (st_orders st');
  nc_order : orderIn st' (cn_orders cn) 0 = length (gh_nodes (gh sc) ++ ws);
  nc_params : ∀ p, p ∈ pl_Params (cn_paramList cn) → groups_ok 0 st' p
}.

Lemma newConstructorNode_root ctor origS opts st sc :
  one st sc →
  match newConstructorNode ctor 0 origS opts st with
  | (Ret n, st') => ∃ ws cn, new_ctor st st' sc n ws cn
  | (_, st') => ext 0 st st'
  end.
Proof.
  intros Hone. pose proof (newConstructorNode_spec ctor 0 origS opts st (one_placed _ _ Hone)) as H.
  destruct (newConstructorNode _ _ _ _ _) as [[n|e|p|] st']; try done.
  destruct H as (ws & cn & Hnn & _). exists ws, cn. destruct Hone as [Hsc Hch] eqn:Hone'.
  split; try (by apply Hnn).
  - rewrite <- (one_marked st sc) by done. apply Hnn.
  - apply (nn_order _ _ _ _ _ _ Hnn). by rewrite Hsc.
Qed.

Lemma new_ctor_grown st st' sc n ws cn :
  one st sc → new_ctor st st' sc n ws cn →
  grown st st' sc (extended sc (ws ++ [WCtor n])) (ws ++ [WCtor n]) ∧
  Forall (node_ok st') (ws ++ [WCtor n]).
Proof.
  intros [Hsc _] []. split.
  - split; try done; [by destruct sc..|]. intros m cm Hm. exists cm. split; [|done].
    rewrite nc_ctors0. by apply lookup_app_l_Some.
  - apply Forall_app. split.
    + eapply Forall_impl; [exact nc_groups0|]. by intros [].
    + constructor; [|done]. exists cn. split; [|done].
      rewrite nc_ctors0, nc_index0. by rewrite lookup_app_r, Nat.sub_diag.
Qed.

Lemma withProvider_registered n ks sc :
  gh (withProvider n ks sc) = gh sc ∧
  ∀ m, registered (withProvider n ks sc) m → m = n ∨ registered sc m.
Proof.
  unfold withProvider. revert sc; induction ks as [|k ks IH]; intros sc; simpl; [by split; [|by right]|].
  destruct (IH (set_providers (λ m, <[k := default [] (m !! k) ++ [n]]> m) sc)) as [Hg Hr].
  split; [rewrite Hg; by destruct sc|]. intros m Hm. destruct (Hr m Hm) as [|[k' Hk']]; [by left|].
  destruct sc; unfold registered, getProviders in *; simpl in *.
  destruct (decide (k = k')) as [<-|Hne]; [|rewrite lookup_insert_ne in Hk' by done; eauto].
  rewrite lookup_insert_eq in Hk'. simpl in Hk'.
  apply elem_of_app in Hk' as [?| ->%list_elem_of_singleton]; eauto.
Qed.

(** A constructor whose node is in the graph may become a provider. *)
Lemma ordered_provider st st' sc scb n cn :
  st_scopes st = [sc] → st_scopes st' = [scb] →
  st_ctors st' = st_ctors st → st_orders st' = st_orders st → gh scb = gh sc →
  (∀ m, registered scb m → m = n ∨ registered sc m) →
  st_ctors st !! n = Some cn → cn_orders cn < length (st_orders st) →
  gh_nodes (gh sc) !! orderIn st (cn_orders cn) 0 = Some (WCtor n) →
  ordered st sc → ordered st' scb.
Proof.
  intros Hsc Hsc' Hc Ho Hgh Hreg Hn Hlt Hnode [H1 H2].
  assert (∀ o, orderIn st' o 0 = orderIn st o 0) as Hord by (intros; unfold orderIn; by rewrite Ho).
  split.
  - intros m Hm. rewrite Hc, Hgh, Ho. destruct (Hreg m Hm) as [->|Hm'].
    + exists cn. by rewrite Hord.
    + destruct (H1 m Hm') as (cm & ? & ? & ?). exists cm. by rewrite Hord.
  - rewrite Hgh. eapply Forall_impl; [exact H2|]. intros [m|pt]; simpl; [|done].
    intros (cm & Hcm & Hp). exists cm. rewrite Hc. split; [done|]. intros p Hin sc0 pt Hsc0 Hpt.
    rewrite Hsc' in Hsc0. injection Hsc0 as <-. rewrite Hgh, Hord, Ho. apply (Hp p Hin); [by rewrite Hsc|done].
Qed.

(** The check of the one scope. *)
Lemma verifyScopes_root old st sc :
  one st sc → wf_graph (scopeGraph st 0) →
  match verifyScopes old [0] st with
  | (Ret _, st') => ∃ v, st' = upd_scopes (λ _, [set_isVerifiedAcyclic v sc]) st ∧
                         (v = true → ∃ c, IsAcyclic (scopeGraph st 0) = Done (true, c))
  | (Err _, st') => st' = upd_scopes (λ _, [withoutProvider old (set_isVerifiedAcyclic false sc)]) st
  | _ => False
  end.
Proof.
  intros [Hsc _] Hwf. unfold verifyScopes. rewrite forEach_cons, forEach_nil.
  set (st1 := upd_scopes (λ _, [set_isVerifiedAcyclic false sc]) st).
  assert (∀ f s l, st_scopes s = [l] → upd_scopes (alter f 0) s = upd_scopes (λ _, [f l]) s) as Halter.
  { intros f s l Hs. unfold upd_scopes. by rewrite Hs. }
  assert (IsAcyclic (scopeGraph st1 0) = IsAcyclic (scopeGraph st 0)) as Hsame.
  { apply agree_IsAcyclic. split; [|done..]. simpl. rewrite Hsc. by destruct sc. }
  unfold mbind at 1, SM_bind at 1.
  rewrite (bind_step (modScope 0 _) _ st () st1) by (unfold modScope, modifyS; by rewrite (Halter _ _ _ Hsc)).
  rewrite (bind_step (getScope 0) _ st1 (set_isVerifiedAcyclic false sc) st1) by done.
  destruct (deferAcyclicVerification _); [by exists false|].
  destruct (IsAcyclic_total _ Hwf) as ([|] & c & Hr & _); rewrite Hr in Hsame.
  - rewrite (bind_step (checkAcyclic 0) _ st1 None st1)
      by (unfold checkAcyclic, mbind, SM_bind; simpl; by rewrite Hsame).
    exists true. split; [|eauto]. unfold st1, upd_scopes. simpl. by destruct sc.
  - rewrite (bind_step (checkAcyclic 0) _ st1 (Some c) st1)
      by (unfold checkAcyclic, mbind, SM_bind; simpl; by rewrite Hsame).
    rewrite (bind_step _ _ _ _ _ (forEach_modScope old 0 (λ ko, set_providers <[ko.1 := ko.2]>) st1)).
    done.
Qed.

(** Steps that leave providers, graph and orders alone. *)
Lemma grown_same a b sca scb :
  st_scopes a = [sca] → st_scopes b = [scb] → (∀ k, getProviders scb k = getProviders sca k) →
  gh_nodes (gh scb) = gh_nodes (gh sca) → ctors_kept a b → st_orders b = st_orders a → grown a b sca scb [].
Proof.
  intros Ha Hb Hp Hg Hc Ho. split; try done; [by rewrite app_nil_r, Hg|by rewrite Ho].
Qed.

Lemma ctors_kept_eq a b : st_ctors b = st_ctors a → ctors_kept a b.
Proof. intros H n cn Hn. exists cn. by rewrite H. Qed.

Lemma root_same a b sca scb :
  root_inv a sca → st_scopes b = [scb] → skel_scope scb = skel_scope sca →
  gh_nodes (gh scb) = gh_nodes (gh sca) →
  isVerifiedAcyclic scb = isVerifiedAcyclic sca → ctors_kept a b → st_orders b = st_orders a →
  root_inv b scb.
Proof.
  intros Hi Hb Hs Hg Hv Hc Ho. pose proof (f_equal providers Hs) as Hp. simpl in Hp.
  eapply (root_grown a b sca scb []); try done.
  - apply grown_same; try done; [apply Hi|]. intros k. unfold getProviders. by rewrite Hp.
  - rewrite <- (proj2 (root_one _ _ Hi)). exact (f_equal childScopes Hs).
  - rewrite <- (root_undecorated _ _ Hi). exact (f_equal decorators Hs).
  - by rewrite Hv.
Qed.

Lemma ext_grown a b sc : one a sc → ext 0 a b →
  ∃ ws, grown a b sc (extended sc ws) ws ∧ Forall (node_ok b) ws.
Proof.
  intros Hone He. destruct (ext_one _ _ _ Hone He) as (Hc & Ho & ws & [Hb _] & Hws). exists ws. split.
  - split; try done; [apply Hone|by destruct sc..|by apply ctors_kept_eq].
  - eapply Forall_impl; [exact Hws|]. by intros [].
Qed.

Lemma extended_same sc ws :
  childScopes (extended sc ws) = childScopes sc ∧ decorators (extended sc ws) = decorators sc ∧
  isVerifiedAcyclic (extended sc ws) = isVerifiedAcyclic sc ∧
  gh_snap (gh (extended sc ws)) = gh_snap (gh sc).
Proof. by destruct sc. Qed.

Lemma root_extended a b sc ws :
  root_inv a sc → grown a b sc (extended sc ws) ws → Forall (node_ok b) ws →
  root_inv b (extended sc ws).
Proof.
  intros Hi Hg Hws. destruct (extended_same sc ws) as (H1 & H2 & H3 & _).
  eapply root_grown; try done.
  - rewrite H1. apply Hi.
  - rewrite H2. apply Hi.
  - by rewrite H3.
Qed.

(** What a rejected constructor leaves before the graph is rolled back. *)
Definition rejected (st st' : store) (sc : Scope) : Prop := ∃ scb ws,
  grown st st' sc scb ws ∧ childScopes scb = [] ∧ decorators scb = ∅ ∧
  gh_snap (gh scb) = gh_snap (gh sc) ∧
  (isVerifiedAcyclic scb = true → isVerifiedAcyclic sc = true).

Lemma rejected_extended st st' sc ws :
  root_inv st sc → grown st st' sc (extended sc ws) ws → rejected st st' sc.
Proof.
  intros Hi Hg. destruct (extended_same sc ws) as (H1 & H2 & H3 & H4).
  exists (extended sc ws), ws. split_and!; try done.
  - rewrite H1. apply Hi.
  - rewrite H2. apply Hi.
  - by rewrite H3.
Qed.

Lemma withProvider_same n ks sc :
  childScopes (withProvider n ks sc) = childScopes sc ∧
  decorators (withProvider n ks sc) = decorators sc.
Proof.
  unfold withProvider. revert sc; induction ks as [|k ks IH]; intros sc; simpl; [done|].
  destruct (IH (set_providers (λ m, <[k := default [] (m !! k) ++ [n]]> m) sc)) as [-> ->].
  by destruct sc.
Qed.

Lemma withoutProvider_unverified old sc :
  isVerifiedAcyclic sc = false → isVerifiedAcyclic (withoutProvider old sc) = false.
Proof.
  unfold withoutProvider. revert sc; induction old as [|x l IH]; intros sc H; simpl; [done|].
  apply IH. by destruct sc.
Qed.

(** The end of [provide]: the new node becomes the provider of [keys], and the
    graph is checked. *)
Definition commitProvider (n : nat) (keys : list key) (sc : Scope) : M () :=
  _ ← addProviders 0 n keys;
  _ ← verifyScopes ((λ k, (k, getProviders sc k)) <$> keys) [0];
  modScope 0 (set_nodes (λ l, l ++ [n])).

Section commit_provider.
Context (n : nat) (cn : constructorNode) (keys : list key) (st : store) (sc : Scope).
Context (Hi : root_inv st sc) (Hwf : wf_store st) (Hn : st_ctors st !! n = Some cn).
Context (Hlt : cn_orders cn < length (st_orders st)).
Context (Hnode : gh_nodes (gh sc) !! orderIn st (cn_orders cn) 0 = Some (WCtor n)).

Let scp : Scope := withProvider n keys sc.
Let st1 : store := upd_scopes (λ _, [scp]) st.

Lemma addProviders_root : addProviders 0 n keys st = (Ret (), st1) ∧ wf_store st1.
Proof.
  destruct (root_one _ _ Hi) as [Hsc _].
  assert (addProviders 0 n keys st = (Ret (), st1)) as Hadd.
  { unfold addProviders. rewrite forEach_modScope. unfold st1, upd_scopes. by rewrite Hsc. }
  split; [done|]. pose proof (lookup_lt_Some _ _ _ Hn) as Hlt'.
  destruct (grow_addProviders 0 n keys st) as [_ Hg]; [split_and!; [done|rewrite Hsc; simpl; lia|lia]|].
  rewrite Hadd in Hg. by apply Hg.
Qed.

(** The node is in its place, whatever else changes. *)
Lemma provider_ordered st' scb :
  st_scopes st' = [scb] → st_ctors st' = st_ctors st → st_orders st' = st_orders st →
  providers scb = providers scp → gh scb = gh scp → ordered st' scb.
Proof.
  destruct Hi as [[Hsc Hch] Hd Hord Hv]. destruct (withProvider_registered n keys sc) as [Hgh Hreg].
  intros H1 H2 H3 H4 H5. eapply (ordered_provider st st' sc scb n cn); try done.
  - unfold scp in H5. congruence.
  - intros m [k Hk]. apply Hreg. exists k. unfold getProviders in *. fold scp. by rewrite <- H4.
Qed.

Lemma commitProvider_root :
  match commitProvider n keys sc st with
  | (Ret _, st') => ∃ sc', root_inv st' sc'
  | (Err _, st') => ∃ scb, grown st st' sc scb [] ∧ childScopes scb = [] ∧ decorators scb = ∅ ∧
      gh scb = gh sc ∧ isVerifiedAcyclic scb = false
  | _ => False
  end.
Proof.
  destruct addProviders_root as [Hadd Hwf1]. pose proof provider_ordered as Hordered.
  pose proof Hi as [Hone Hd Hord Hv]. pose proof Hone as [Hsc Hch].
  unfold commitProvider. rewrite (bind_step _ _ _ _ _ Hadd).
  destruct (withProvider_same n keys sc) as [Hchp Hdp]. fold scp in Hchp, Hdp.
  rewrite Hch in Hchp. rewrite Hd in Hdp.
  assert (ordered st1 scp) as Hord1 by (by apply Hordered).
  assert (one st1 scp) as Hone1 by done.
  pose proof (verifyScopes_root ((λ k, (k, getProviders sc k)) <$> keys) st1 scp Hone1
                (ordered_wf_graph st1 scp Hone1 Hord1)) as Hver.
  unfold mbind, SM_bind. destruct (verifyScopes _ _ _) as [[u|e|p|] st2]; try done.
  - destruct Hver as (v & -> & Hc). simpl.
    set (scv := set_nodes (λ l, l ++ [n]) (set_isVerifiedAcyclic v scp)).
    assert (childScopes scv = childScopes scp ∧ decorators scv = decorators scp ∧
            providers scv = providers scp ∧ gh scv = gh scp ∧ isVerifiedAcyclic scv = v)
      as (E1 & E2 & E3 & E4 & E5) by (subst scv; by destruct scp).
    exists scv. split; [by split; [|congruence]|congruence|by apply Hordered|].
    rewrite E5. intros ->. destruct Hc as [c Hc]; [done|].
    eapply (bounded_grown st1 _ scp scv []); try done; [|congruence|].
    + apply grown_same; try done; [|congruence|by apply ctors_kept_eq].
      intros k. unfold getProviders. by rewrite E3.
    + by eapply checked_bounded.
  - subst st2. destruct (restored_view n keys sc) as [Hview Hgh']. fold scp in Hview, Hgh'.
    eexists. split.
    { apply grown_same; [done|done|apply Hview|by rewrite Hgh'|by apply ctors_kept_eq|done]. }
    split_and!; [rewrite (view_children _ _ Hview); done|rewrite (view_decorators _ _ Hview); done|
      exact Hgh'|]. apply withoutProvider_unverified. by destruct scp.
Qed.
End commit_provider.

Lemma commitProvider_then {A} n keys sc (m : M A) st :
  (_ ← addProviders 0 n keys;
   _ ← verifyScopes ((λ k, (k, getProviders sc k)) <$> keys) [0];
   _ ← modScope 0 (set_nodes (λ l, l ++ [n])); m) st =
  (commitProvider n keys sc ≫= λ _, m) st.
Proof.
  unfold commitProvider, mbind, SM_bind. destruct (addProviders _ _ _ st) as [[] s1]; [|done..].
  by destruct (verifyScopes _ _ s1) as [[] s2].
Qed.

Lemma grown_trans_nil a b c sca scb scc ws :
  grown a b sca scb ws → grown b c scb scc [] → grown a c sca scc ws.
Proof.
  intros [H1 H2 H3 H4 H5 H6] [G1 G2 G3 G4 G5 G6]. split; try done.
  - intros k. by rewrite G3.
  - by rewrite G4, app_nil_r.
  - intros n cn Hn. destruct (H5 n cn Hn) as (cn1 & Hn1 & ?).
    destruct (G5 n cn1 Hn1) as (cn2 & ? & ?). exists cn2. split; [done|congruence].
  - by etransitivity.
Qed.

Lemma provideBody_root ctor opts st sc :
  root_inv st sc → wf_store st →
  match provideBody ctor opts 0 0 [0] st with
  | (NoFuel, _) => False
  | (Err _, st') => rejected st st' sc
  | (_, st') => ∃ sc', root_inv st' sc'
  end.
Proof.
  intros Hi Hwf. pose proof (root_one _ _ Hi) as Hone. pose proof Hone as [Hsc Hch].
  unfold provideBody, failM.
  set (co := mkConstructorOptions _ _ _ _ _ _).
  destruct (grow_newConstructorNode ctor 0 0 co st) as [Hends Hgrow];
    [split_and!; [done|rewrite Hsc; simpl; lia|lia]|rewrite Hsc; simpl; lia|].
  pose proof (newConstructorNode_root ctor 0 co st sc Hone) as Hnew.
  unfold mbind at 1, SM_bind at 1.
  destruct (newConstructorNode _ _ _ _ _) as [[n|e|p|] s1]; simpl in Hends, Hgrow; [|..|by apply Hends].
  2: { destruct (ext_grown _ _ _ Hone Hnew) as (ws & Hg & _). by eapply rejected_extended. }
  2: { destruct (ext_grown _ _ _ Hone Hnew) as (ws & Hg & Hok). eexists. by eapply root_extended. }
  destruct Hnew as (ws & cn & Hnc). destruct (new_ctor_grown _ _ _ _ _ _ Hone Hnc) as [Hg Hok].
  pose proof (root_extended _ _ _ _ Hi Hg Hok) as Hi1. pose proof (rejected_extended _ _ _ _ Hi Hg) as Hrej.
  destruct (Hgrow Hwf) as (Hwf1 & _). destruct Hnc.
  set (sc1 := extended sc (ws ++ [WCtor n])) in *.
  assert (st_ctors s1 !! n = Some cn) as Hn.
  { rewrite nc_ctors0, nc_index0. by rewrite lookup_app_r, Nat.sub_diag. }
  rewrite (bind_step (getCtor n) _ s1 cn s1)
    by (unfold getCtor, mbind, SM_bind; simpl; by rewrite Hn).
  rewrite (bind_step getS _ s1 s1 s1) by done. unfold mbind at 1, SM_bind at 1, liftO.
  unfold findAndValidateResults. destruct (cv_err _); [done|]. case_decide; [done|].
  rewrite (bind_step (getScope 0) _ s1 sc1 s1)
    by (unfold getScope, mbind, SM_bind; simpl; by rewrite nc_scope0).
  match goal with |- context [addProviders 0 n ?ks] =>
    pose proof (commitProvider_root n cn ks s1 sc1 Hi1 Hwf1 Hn nc_order_lt0) as Hcommit end.
  match type of Hcommit with ?P → _ => assert P as Hnode end.
  { rewrite nc_order0. subst sc1. destruct sc; simpl. rewrite app_assoc.
    by rewrite lookup_app_r, Nat.sub_diag. }
  specialize (Hcommit Hnode). cbv zeta. rewrite commitProvider_then.
  unfold mbind at 1, SM_bind at 1. destruct (commitProvider _ _ _ _) as [[u|e|p|] s2]; try done.
  - destruct Hcommit as [sc2 Hi2]. destruct (po_Info opts); [|by exists sc2]. exists sc2.
    apply (root_same s2 _ sc2); try done; [apply Hi2|by apply ctors_kept_eq].
  - destruct Hcommit as (scb & Hgb & H1 & H2 & H3 & H4).
    destruct (extended_same sc (ws ++ [WCtor n])) as (_ & _ & _ & Hsnap).
    exists scb, (ws ++ [WCtor n]). split; [|split_and!; [done..|by rewrite H3|by rewrite H4]].
    by eapply grown_trans_nil.
Qed.

Lemma root_snapshot st sc :
  root_inv st sc →
  root_inv (upd_scopes (alter (set_gh Snapshot) 0) st) (set_gh Snapshot sc).
Proof.
  intros Hi. destruct (root_one _ _ Hi) as [Hsc _].
  apply (root_same st _ sc); try done; simpl; try (by rewrite Hsc); try (by destruct sc).
  by apply ctors_kept_eq.
Qed.

(** A rejected constructor is rolled back to the snapshot. *)
Lemma root_rollback st st' sc :
  root_inv st sc → gh_snap (gh sc) = Z.of_nat (length (gh_nodes (gh sc))) → rejected st st' sc →
  ∃ sc', root_inv (upd_scopes (alter (set_gh Rollback) 0) st') sc'.
Proof.
  intros Hi Hsnap (scb & ws & Hg & Hch & Hd & Hs & Hv). exists (set_gh Rollback scb).
  assert (gh_nodes (Rollback (gh scb)) = gh_nodes (gh sc)) as Hroll.
  { unfold Rollback. rewrite Hs, Hsnap, decide_False by lia. simpl.
    by rewrite Nat2Z.id, (grown_nodes _ _ _ _ _ Hg), take_app_length. }
  eapply (root_grown st _ sc _ []); [done| |by destruct scb..|done].
  split; [apply Hi|simpl; by rewrite (grown_b _ _ _ _ _ Hg)| | |apply Hg|apply Hg].
  - intros k. rewrite <- (grown_providers _ _ _ _ _ Hg). by destruct scb.
  - rewrite app_nil_r, <- Hroll. by destruct scb.
Qed.

Lemma root_target st sc (exported : bool) :
  root_inv st sc → wf_store st → (if exported then rootScope (st_scopes st) 0 else 0) = 0.
Proof.
  intros Hi Hwf. destruct (root_one _ _ Hi) as [Hsc _]. destruct exported; [|done].
  rewrite Hsc. unfold rootScope. simpl. destruct (parentScope sc) as [p|] eqn:Hp; [|done].
  destruct (wf_parent _ Hwf 0 sc p); [by rewrite Hsc|done|lia].
Qed.

Lemma root_subscopes st sc : root_inv st sc → subscopes (st_scopes st) 0 = [0].
Proof.
  intros Hi. destruct (root_one _ _ Hi) as [Hsc Hch]. apply subscopes_childless.
  exists sc. by rewrite Hsc.
Qed.

Lemma Provide_root constructor opts st sc :
  root_inv st sc → wf_store st → ∃ sc', root_inv (Provide 0 constructor opts st).2 sc'.
Proof.
  intros Hi Hwf. unfold Provide, failM. destruct (TypeOf constructor) as [t|]; [|by exists sc].
  destruct constructor as [|t'|f|t' r]; try (by exists sc). case_decide; [by exists sc|]. cbv zeta.
  set (o := foldl _ _ _). unfold mbind, SM_bind, liftO.
  destruct (Validate o) as [[]|e|p|]; try (by exists sc).
  unfold wrapErr. enough (∃ sc', root_inv (provide 0 f o st).2 sc') as [sc' H'].
  { exists sc'. by destruct (provide 0 f o st). }
  unfold provide. rewrite (bind_step getS _ st st st) by done. cbv zeta.
  rewrite (root_target st sc), (root_subscopes st sc) by done.
  rewrite (bind_step _ _ _ _ _ (forEach_modScope [0] 0 (λ _, set_gh Snapshot) st)). simpl.
  pose proof (root_snapshot st sc Hi) as Hi1.
  set (st1 := upd_scopes (alter (set_gh Snapshot) 0) st) in *.
  change (upd_scopes (alter (λ sc0, set_gh Snapshot sc0) 0) st) with st1.
  assert (wf_store st1) as Hwf1.
  { destruct (grow_set_gh 0 Snapshot st (λ _ _ H, H)) as [? _]; done. }
  pose proof (provideBody_root f o st1 _ Hi1 Hwf1) as Hbody. unfold observe.
  destruct (provideBody _ _ _ _ _ _) as [[u|e|p|] st2]; try done.
  eapply root_rollback; [exact Hi1| |exact Hbody]. by destruct sc.
Qed.
End provide.

(** ** Invoke *)

Section invoke.
Context `{E : Env}.

Lemma root_ext a b sc : root_inv a sc → ext 0 a b → ∃ sc', root_inv b sc'.
Proof.
  intros Hi He. destruct (ext_grown _ _ _ (root_one _ _ Hi) He) as (ws & Hg & Hok).
  eexists. by eapply root_extended.
Qed.

Lemma root_framed a b sc : root_inv a sc → framed a b → ∃ sc', root_inv b sc'.
Proof.
  intros Hi [Hb Ho Hg]. destruct (root_one _ _ Hi) as [Hsc _]. pose proof (built_skel _ _ Hb) as Hk.
  pose proof (scopes_length _ _ Hk) as Hlen. rewrite Hsc in Hlen.
  destruct (st_scopes b) as [|scb [|? ?]] eqn:Hscb; try done. exists scb.
  destruct (scope_same _ _ 0 scb Hk) as (sk & Hsk & Hsame); [by rewrite Hscb|].
  rewrite Hsc in Hsk, Hg. injection Hsk as <-. injection Hg as Hgh Hv.
  apply (root_same a b sc scb); try done; [congruence|].
  intros n cn Hn. destruct (ctor_same _ _ _ _ (eq_sym Hk) Hn) as (cn' & ? & ?). eauto.
Qed.

(** The check before the first invocation; afterwards the constructors have bounded
    dependencies. *)
Lemma verifyAcyclic_root st sc :
  root_inv st sc → wf_store st →
  match verifyAcyclic 0 st with
  | (Ret _, st') => ∃ sc', root_inv st' sc' ∧ registered_bounded st' sc'
  | (r, st') => r ≠ NoFuel ∧ st' = st
  end.
Proof.
  intros Hi Hwf. pose proof Hi as [Hone Hd Hord Hv]. pose proof Hone as [Hsc Hch].
  unfold verifyAcyclic.
  rewrite (bind_step (getScope 0) _ st sc st) by (unfold getScope, mbind, SM_bind; simpl; by rewrite Hsc).
  destruct (isVerifiedAcyclic sc) eqn:Hver; [exists sc; by auto|].
  pose proof (ordered_wf_graph st sc Hone Hord) as Hg.
  destruct (IsAcyclic_total _ Hg) as ([|] & c & Hr & _).
  - rewrite (bind_step (checkAcyclic 0) _ st None st)
      by (unfold checkAcyclic, mbind, SM_bind; simpl; by rewrite Hr).
    pose proof (checked_bounded st sc Hone Hord c Hwf Hd Hr) as Hb.
    exists (set_isVerifiedAcyclic true sc). simpl.
    assert (grown st (upd_scopes (alter (set_isVerifiedAcyclic true) 0) st) sc
                  (set_isVerifiedAcyclic true sc) []) as Hgr.
    { apply grown_same; try done; [simpl; by rewrite Hsc|by destruct sc|by destruct sc|].
      by apply ctors_kept_eq. }
    assert (decorators (set_isVerifiedAcyclic true sc) = ∅) as Hd' by (by destruct sc).
    assert (registered_bounded (upd_scopes (alter (set_isVerifiedAcyclic true) 0) st)
              (set_isVerifiedAcyclic true sc)) as Hb' by (by eapply bounded_grown).
    split; [|done]. split; [|done|by eapply ordered_grown|done].
    split; [apply Hgr|by destruct sc].
  - rewrite (bind_step (checkAcyclic 0) _ st (Some c) st)
      by (unfold checkAcyclic, mbind, SM_bind; simpl; by rewrite Hr). done.
Qed.

Lemma framed_invokeBody s f pl args opts st :
  runs framed True (invokeBody s f pl args opts) st.
Proof.
  assert (∀ {A} (m : M A) st, (m st).2 = st → runs framed True m st) as Hstill.
  { intros A m st' H. split; [done|]. rewrite H. reflexivity. }
  unfold invokeBody. run_step.
  { case_match; [apply runs_modifyS; split; [by apply (eff_built (λ _, True)), eff_quiet|done..]|by apply Hstill]. }
  run_step; [apply Hstill, getScope_still|].
  run_step; [apply runs_invoke_with; [apply _|]; intros; apply building_log|].
  destruct (last _) as [v|]; [|by apply Hstill].
  run_step; [by apply Hstill; destruct (value_Type v)|].
  destruct (isError _); [destruct (value_error v)|]; by apply Hstill.
Qed.

Lemma Invoke_root fuel function opts st sc :
  root_inv st sc → wf_store st → ∃ sc', root_inv (Invoke fuel 0 function opts st).2 sc'.
Proof.
  intros Hi Hwf. unfold Invoke, failM. destruct (TypeOf function) as [t|]; [|by exists sc].
  destruct function as [|t'|f|t' r]; try (by exists sc). case_decide; [by exists sc|].
  destruct (newParamList_reads 0 t st (one_placed _ _ (root_one _ _ Hi))) as [He _].
  destruct (runs_newParamList (λ _, True) st Hwf t 0 st eq_refl) as [_ Heff].
  unfold mbind at 1, SM_bind at 1. destruct (newParamList _ _ _) as [r1 s1]. simpl in He, Heff.
  destruct (root_ext _ _ _ Hi He) as [sc1 Hi1].
  assert (wf_store s1) as Hwf1 by (eapply wf_skel; [apply Heff|done]).
  destruct r1 as [pl|e|p|]; try (by exists sc1).
  destruct (runs_shallowCheck eq False 0 pl s1) as [_ Hsh].
  unfold mbind at 1, SM_bind at 1, wrapErr at 1.
  destruct (shallowCheckDependencies _ _ _) as [r2 s2]. simpl in Hsh. subst s2.
  destruct r2 as [u|e|p|]; try (by exists sc1). simpl.
  pose proof (verifyAcyclic_root s1 sc1 Hi1 Hwf1) as Hver.
  unfold mbind at 1, SM_bind at 1. destruct (verifyAcyclic _ _) as [[u'|e|p|] s3];
    [|destruct Hver as [_ ->]; by exists sc1..]. destruct Hver as (sc3 & Hi3 & _).
  match goal with |- context [(?m s3).2] => assert (runs framed True m s3) as [_ Hf] end.
  { run_step; [apply runs_wrapErr, (built_BuildList framed); by apply (knot_built framed)|].
    run_step; [split; [done|]; rewrite getScope_still; reflexivity|].
    apply runs_deferRecover; [apply _|]. apply framed_invokeBody. }
  by eapply root_framed.
Qed.
End invoke.

(** ** Programs *)

Section programs.
Context `{E : Env}.

(** The stores of a program that makes one container and calls [Provide] and
    [Invoke] on it, whatever way the calls end. *)
Inductive root_program : store → Prop :=
| rp_new opts : root_program (New opts emptyStore).2
| rp_provide constructor opts st :
    root_program st → root_program (Provide 0 constructor opts st).2
| rp_invoke fuel function opts st :
    root_program st → (Invoke fuel 0 function opts st).1 ≠ NoFuel →
    root_program (Invoke fuel 0 function opts st).2.

Lemma New_root opts : ∃ sc, root_inv (New opts emptyStore).2 sc.
Proof.
  unfold New. rewrite (bind_step newScope _ emptyStore 0 (newScope emptyStore).2) by done.
  pose proof (forEach_modScope opts 0 applyOption (newScope emptyStore).2) as Hloop.
  rewrite (bind_step _ _ _ _ _ Hloop). simpl.
  match goal with |- context [_ ++ [?s]] => set (fresh := s) end.
  exists (foldl (λ sc o, applyOption o sc) fresh opts).
  assert (∀ l sc, let sc' := foldl (λ sc o, applyOption o sc) sc l in
            providers sc' = providers sc ∧ gh sc' = gh sc ∧ childScopes sc' = childScopes sc ∧
            decorators sc' = decorators sc) as Hopts.
  { induction l as [|o l IH]; intros sc; simpl; [done|].
    destruct (IH (applyOption o sc)) as (-> & -> & -> & ->). by destruct sc, o. }
  destruct (Hopts opts fresh) as (H1 & H2 & H3 & H4).
  assert (∀ n, ¬ registered (foldl (λ sc o, applyOption o sc) fresh opts) n) as Hreg.
  { intros n [k Hk]. unfold getProviders in Hk. rewrite H1 in Hk. set_solver. }
  split; [done|by rewrite H4| |intros _ n Hn; by apply Hreg in Hn].
  split; [intros n Hn; by apply Hreg in Hn|]. rewrite H2. constructor.
Qed.

Lemma root_program_inv st : root_program st → wf_store st ∧ ∃ sc, root_inv st sc.
Proof.
  induction 1 as [opts|c opts st _ [Hwf [sc Hi]]|fuel f opts st _ [Hwf [sc Hi]] _].
  - split; [apply New_wf, emptyStore_wf|apply New_root].
  - assert (0 < length (st_scopes st)) as H0 by (destruct (root_one _ _ Hi) as [-> _]; simpl; lia).
    split; [|by eapply Provide_root]. by apply (run_op_wf (OpProvide 0 c opts)).
  - assert (0 < length (st_scopes st)) as H0 by (destruct (root_one _ _ Hi) as [-> _]; simpl; lia).
    split; [|by eapply Invoke_root]. by apply (run_op_wf (OpInvoke fuel 0 f opts)).
Qed.

(** If the check passes, no chain of dependencies goes on for ever. *)
Lemma root_bounded t st sc :
  root_inv st sc → wf_store st →
  ∃ h, ∀ pl s1 s2, newParamList t 0 st = (Ret pl, s1) → verifyAcyclic 0 s1 = (Ret (), s2) →
                   deps_bounded (S h) st = true.
Proof.
  intros Hi Hwf. destruct (newParamList_reads 0 t st (one_placed _ _ (root_one _ _ Hi))) as [He _].
  destruct (runs_newParamList (λ _, True) st Hwf t 0 st eq_refl) as [_ Heff].
  destruct (newParamList t 0 st) as [r1 s1]. simpl in He, Heff.
  destruct (root_ext _ _ _ Hi He) as [sc1 Hi1].
  assert (wf_store s1) as Hwf1 by (eapply wf_skel; [apply Heff|done]).
  pose proof (verifyAcyclic_root s1 sc1 Hi1 Hwf1) as Hver.
  destruct (runs_verifyAcyclic (λ _, True) False 0 s1) as [_ Heff3].
  destruct (verifyAcyclic 0 s1) as [[[]|e|p|] s3] eqn:Hv; simpl in Heff3;
    [|by exists 0; intros ? ? ? [= _ <-]; rewrite Hv..].
  destruct Hver as (sc3 & Hi3 & Hb).
  destruct (all_bounded s3 sc3) as [h Hh]; [apply Hi3..|exact Hb|]. exists h. intros _ _ _ _ _.
  rewrite <- Hh. apply deps_bounded_same.
  by rewrite (eff_skel _ _ _ Heff3), (eff_skel _ _ _ Heff).
Qed.

(** The constructors of the store. *)
Definition in_store (st : store) (y : node) : Prop :=
  match y with inl n => n < length (st_ctors st) | inr _ => True end.

Lemma param_deps_in_store st c p y : wf_store st → y ∈ param_deps st c p → in_store st y.
Proof.
  intros Hwf.
  assert (∀ k soft l, y ∈ concat (map (key_deps (st_scopes st) k soft) l) → in_store st y) as Hk.
  { intros k soft l (s & _ & Hy)%elem_of_concat_map. unfold key_deps in Hy.
    destruct (st_scopes st !! s) as [sc|] eqn:Hs; [|by apply elem_of_nil in Hy].
    apply elem_of_app in Hy as [(d & -> & _)%list_elem_of_fmap|Hy]; [done|].
    destruct soft; [by apply elem_of_nil in Hy|]. apply list_elem_of_fmap in Hy as (n & -> & Hn).
    by eapply (wf_providers _ Hwf). }
  induction p as [ps|pt|t fs IH] using param_ind'; simpl; [apply Hk|destruct (Elem _); [apply Hk|set_solver]|].
  intros (f & Hf & Hy)%elem_of_concat_map. rewrite Forall_forall in IH. by apply (IH f).
Qed.

Lemma list_deps_in_store st c pl y : wf_store st → y ∈ list_deps st c pl → in_store st y.
Proof. intros Hwf (p & _ & Hy)%elem_of_concat_map. by eapply param_deps_in_store. Qed.

Lemma list_reach_in_store st c pl y : wf_store st → list_reach st c pl y → in_store st y.
Proof.
  intros Hwf (x & Hx & Hr). apply list_deps_in_store in Hx; [|done].
  induction Hr as [x|x z y Hz _ IH]; [done|]. apply IH. destruct x as [n|d]; simpl in Hz.
  - destruct (st_ctors st !! n); [by eapply list_deps_in_store|set_solver].
  - destruct (st_dcors st !! d); [|set_solver].
    apply list_elem_of_filter in Hz as [_ Hz]. by eapply list_deps_in_store.
Qed.

Lemma root_Invoke_runs st sc function opts :
  root_inv st sc → wf_store st →
  ∃ h, runs (eff (in_store st)) False (Invoke h 0 function opts) st.
Proof.
  intros Hi Hwf. unfold Invoke, failM.
  destruct (TypeOf function) as [t|]; [|exists 0; auto with dig].
  destruct (root_bounded t st sc Hi Hwf) as [h Hh]. exists (S h).
  destruct function as [|t'|f|t' r]; try (by auto with dig). case_decide; [auto with dig|].
  run_step; [by apply (runs_newParamList _ st)|]. rename a into pl.
  run_step; [apply runs_wrapErr; auto with dig|]. run_step; [apply runs_verifyAcyclic|].
  assert (s0 = s) as ->.
  { destruct (runs_shallowCheck eq False 0 pl s) as [_ Hs]. unfold wrapErr in Hrun0.
    destruct (shallowCheckDependencies _ _ _) as [[] ?]; simpl in *; congruence. }
  destruct a0. specialize (Hh pl s s1 Hrun). destruct a. specialize (Hh Hrun1).
  run_step.
  { apply runs_wrapErr, (runs_weaken (list_reach st 0 pl)); [intros z; by apply list_reach_in_store|].
    apply (BuildList_runs st (S h)); [apply Hwf|done| |].
    - by rewrite (eff_skel _ _ _ HR1), (eff_skel _ _ _ HR).
    - intros y _. apply dep_depth_all; [lia|done]. }
  run_step; [auto with dig|]. apply runs_deferRecover; [apply _|]. apply runs_invokeBody.
Qed.

(** *** Constructors succeed once *)

(** Only constructors of the store have been called. *)
Definition logged (st : store) : Prop :=
  ∀ n fn args, EvCall (ByCtor n) fn args ∈ st_trace st → n < length (st_ctors st).

Lemma once_quiet a b : quiet a b → logged a → once a → once b ∧ logged b.
Proof.
  intros [Ht _ _ (l & Hc & _)] Hl Ho. split.
  - intros pre post n fn args cn Htr Hn Hs. rewrite Ht in Htr.
    assert (n < length (st_ctors a)) as Hlt by (apply (Hl n fn args); rewrite Htr; set_solver).
    rewrite Hc, lookup_app_l in Hn by done.
    destruct (Ho pre post n fn args cn Htr Hn Hs) as [Hcall Hpost]. split; [|done].
    unfold called in *. by rewrite Hc, lookup_app_l.
  - intros n fn args. rewrite Ht, Hc, length_app. intros H%Hl. lia.
Qed.

Lemma once_eff a b : eff (in_store a) a b → logged a → once a → once b ∧ logged b.
Proof.
  intros He Hl Ho. split; [by apply He|]. destruct (eff_trace _ _ _ He) as (new & Ht & Hnew).
  intros n fn args. rewrite Ht, (ctors_length _ _ (eff_skel _ _ _ He)).
  intros [H|H]%elem_of_app; [by eapply Hl|]. rewrite Forall_forall in Hnew.
  by destruct (Hnew _ H) as [? _].
Qed.

Lemma root_program_once st : root_program st → once st ∧ logged st.
Proof.
  induction 1 as [opts|c opts st _ [Ho Hl]|fuel f opts st Hp [Ho Hl] Hn].
  - assert (st_trace (New opts emptyStore).2 = []) as Ht.
    { unfold New. rewrite (bind_step newScope _ emptyStore 0 (newScope emptyStore).2) by done.
      by rewrite (bind_step _ _ _ _ _ (forEach_modScope opts 0 applyOption _)). }
    split; [|intros n fn args; rewrite Ht; set_solver].
    intros pre post n fn args cn Htr. rewrite Ht in Htr. by destruct pre.
  - destruct (quiet_Provide 0 c opts st) as [_ Hs]. by eapply once_quiet.
  - destruct (root_program_inv st Hp) as [Hwf [sc Hi]].
    destruct (root_Invoke_runs st sc f opts Hi Hwf) as [h [Hh He]].
    rewrite (Invoke_agree fuel h 0 f opts st Hn Hh). by eapply once_eff.
Qed.
End programs.

(** C2: dig terminates.  In a program that makes one container and calls [Provide]
    and [Invoke] on it in any order, whatever its constructors do and whether or
    not the cycle check is deferred, every [Invoke] has an answer that does not
    depend on the bound of the model: it returns, returns an error (a cycle
    included) or panics. *)
Theorem root_Invoke_total `{E : Env} st function opts :
  root_program st →
  ∃ h r st', r ≠ NoFuel ∧ ∀ fuel, h <= fuel → Invoke fuel 0 function opts st = (r, st').
Proof.
  intros Hp. destruct (root_program_inv st Hp) as [Hwf [sc Hi]].
  destruct (root_Invoke_runs st sc function opts Hi Hwf) as [h [Hh _]].
  destruct (Invoke h 0 function opts st) as [r st'] eqn:Hr. exists h, r, st'.
  split; [by intros ->; apply Hh|]. intros fuel Hle. rewrite <- Hr in Hh |- *.
  apply Invoke_more; [done|exact Hh].
Qed.

(** C18: The dependency graph of such a program is sound at every moment: each edge
    leads to a node of the graph, so the search never indexes out of range, and the
    order recorded for a provider is that of its own node. *)
Theorem root_graph_sound `{E : Env} st :
  root_program st →
  wf_graph (scopeGraph st 0) ∧
  ∀ k n sc, st_scopes st !! 0 = Some sc → n ∈ getProviders sc k →
    gh_nodes (gh sc) !! ctorOrder st 0 n = Some (WCtor n).
Proof.
  intros Hp. destruct (root_program_inv st Hp) as [_ [sc [Hone _ Hord _]]].
  split; [by eapply ordered_wf_graph|]. intros k n sc' Hsc' Hn.
  rewrite (proj1 Hone) in Hsc'. injection Hsc' as <-.
  apply (orders_ctor _ _ (ordered_orders_ok _ _ Hone Hord)). by exists k.
Qed.

(** C1: every constructor runs at most once, over the whole life of the container.  In
    a program that makes one container and calls [Provide] and [Invoke] on it, once
    a call of a constructor has returned its results without an error, it is marked
    as called and no later call of it is in the history of calls. *)
Theorem root_at_most_once `{E : Env} st pre post n fn args cn :
  root_program st →
  st_trace st = pre ++ EvCall (ByCtor n) fn args :: post → st_ctors st !! n = Some cn →
  succeeded (cn_resultList cn) pre fn args →
  called st n = true ∧ Forall (λ ev, is_ctor_call n ev = false) post.
Proof. intros Hp. destruct (root_program_once st Hp) as [Ho _]. apply Ho. Qed.

(** C17: a successful [Provide] in such a program leaves no cycle, unless the check was
    deferred. *)
Theorem root_Provide_acyclic `{E : Env} st constructor opts st' sc :
  root_program st → Provide 0 constructor opts st = (Ret (), st') →
  st_scopes st' !! 0 = Some sc → deferAcyclicVerification sc = false →
  acyclic (scopeGraph st' 0).
Proof.
  intros Hp Hr Hsc Hd.
  assert (root_program st') as Hp' by (pose proof (rp_provide constructor opts st Hp) as H; by rewrite Hr in H).
  destruct (root_program_inv st' Hp') as [_ [sc' [Hone _ Hord _]]].
  destruct (root_program_inv st Hp) as [Hwf [sc0 Hi]].
  destruct (Provide_checked _ _ _ _ _ Hr 0) with sc as [c Hc]; [|done|done|].
  { unfold provideTarget. rewrite (root_target st sc0), (root_subscopes st sc0) by done. by left. }
  destruct (IsAcyclic_total _ (ordered_wf_graph st' sc' Hone Hord)) as (b & c' & Hb & Hres).
  rewrite Hc in Hb. injection Hb as <- <-. apply reaches_fin_acyclic, Hres.
Qed.

(** ** Examples *)

Section root_example.
#[local] Existing Instance plainEnv.

(** [func() A], then [func(A)] is invoked, then [func(A) B] is provided. *)
Definition rootStore0 : store := (Provide 0 (fn 40 1) [] (New [] emptyStore).2).2.
Definition rootStore1 : store := (Invoke 5 0 (fn 43 2) [] rootStore0).2.
Definition rootStore2 : store := (Provide 0 (fn 41 3) [] rootStore1).2.

Lemma rootStore1_program : root_program rootStore1.
Proof. apply rp_invoke; [apply rp_provide, rp_new|vm_compute; discriminate]. Qed.

Lemma rootStore2_program : root_program rootStore2.
Proof. apply rp_provide, rootStore1_program. Qed.

Lemma root_Invoke_total_witness :
  ∃ h r st', r ≠ NoFuel ∧ ∀ fuel, h <= fuel → Invoke fuel 0 (fn 44 4) [] rootStore2 = (r, st').
Proof. apply (root_Invoke_total rootStore2 (fn 44 4) [] rootStore2_program). Defined.

Lemma root_graph_sound_witness :
  wf_graph (scopeGraph rootStore2 0) ∧
  ∀ k n sc, st_scopes rootStore2 !! 0 = Some sc → n ∈ getProviders sc k →
    gh_nodes (gh sc) !! ctorOrder rootStore2 0 n = Some (WCtor n).
Proof. apply (root_graph_sound rootStore2 rootStore2_program). Defined.

Lemma root_at_most_once_witness :
  called rootStore2 0 = true ∧
  Forall (λ ev, is_ctor_call 0 ev = false) (tail (st_trace rootStore2)).
Proof.
  apply (root_at_most_once rootStore2 [] (tail (st_trace rootStore2)) 0
           (mkFuncval (TDef 40) 1 1) [] (default (mkConstructorNode (mkFuncval (TDef 40) 1 1) None 1
              false (mkParamList (TDef 40) []) (mkResultList (TDef 40) [] []) 0 0 0 None None)
              (st_ctors rootStore2 !! 0)) rootStore2_program).
  - vm_compute. reflexivity.
  - vm_compute. reflexivity.
  - exists (match env_call [] (mkFuncval (TDef 40) 1 1) [] with Returned vs => vs | Panicked _ _ => [] end).
    split; vm_compute; reflexivity.
Defined.

Lemma root_Provide_acyclic_witness : acyclic (scopeGraph rootStore2 0).
Proof.
  apply (root_Provide_acyclic rootStore1 (fn 41 3) [] rootStore2
           (default blankScope (st_scopes rootStore2 !! 0)) rootStore1_program).
  - vm_compute. reflexivity.
  - vm_compute. reflexivity.
  - vm_compute. reflexivity.
Defined.

Lemma Invoke_fuel_irrelevant_witness :
  Invoke 7 0 (fn 43 2) [] rootStore0 = Invoke 5 0 (fn 43 2) [] rootStore0.
Proof.
  apply (Invoke_fuel_irrelevant 5 7 0 (fn 43 2) [] rootStore0); [vm_compute; discriminate|left; lia].
Defined.
End root_example.
