(* ===== verification/Scoped.v ===== *)
(** * Programs with child scopes and decorators

    A program may open child scopes, decorate values and provide constructors in any
    scope, as long as no constructor is exported out of its scope and the cycle check
    is not deferred.  Constructors then only depend on constructors of their own scope
    and of the scopes above; the check of [Provide] covers the former, the tree of
    scopes the latter.  So no chain of constructors goes on for ever, and every
    [Invoke] ends. *)

From Stdlib Require Import Wellfounded.
From S2P Require Import Prelude Digraph GoLib GoTypes DigReflect Errors Group InOut.
From S2P Require Import Values DotTypes Result Store Scenario Param Call ResultProofs.
From S2P Require Import Options Deps Building ParamProofs CallProofs Provide Decorate ProvideProofs Invoke.
From S2P Require Import Fuel Invariants Reachable Nesting Registering CallLog ScopeTree Reading ProvideSpec.
From S2P Require Import Soundness RootContainer.

Open Scope string_scope.
Open Scope list_scope.

Section scoped.
Context `{E : Env}.

(** ** Dependencies inside a scope *)

(** The constructors of a scope that a parameter may call. *)
Fixpoint own_deps (sc : Scope) (p : param) : list nat :=
  match p with
  | PSingle ps => getProviders sc (valueKey (ps_Name ps) (ps_Type ps))
  | PGrouped pt =>
      match Elem (pt_Type pt) with
      | Some el => getProviders sc (groupKey (pt_Group pt) el)
      | None => []
      end
  | PObject _ fs => concat (map (λ f, own_deps sc (pof_Param f)) fs)
  end.

(** Constructor [n] of the scope depends on its constructor [m]. *)
Definition own_dep (st : store) (sc : Scope) (m n : nat) : Prop :=
  registered sc n ∧ ∃ cn p, st_ctors st !! n = Some cn ∧ p ∈ pl_Params (cn_paramList cn) ∧
                            m ∈ own_deps sc p.

Lemma own_deps_registered sc p m : m ∈ own_deps sc p → registered sc m.
Proof.
  induction p as [ps|pt|t fs IH] using param_ind'; simpl.
  - by eexists.
  - destruct (Elem _); [by eexists|set_solver].
  - intros (f & Hf & Hm)%elem_of_concat_map. rewrite Forall_forall in IH. by eapply IH.
Qed.

Lemma own_deps_providers a b p :
  (∀ k, getProviders b k = getProviders a k) → own_deps b p = own_deps a p.
Proof.
  intros H. induction p as [ps|pt|t fs IH] using param_ind'; simpl; [done| |].
  - destruct (Elem _); [done|]. done.
  - induction IH as [|f fs Hf _ IHf]; simpl; [done|]. by rewrite Hf, IHf.
Qed.

(** A constructor that a parameter may call from scope [s] is one of its own, or of a
    scope above. *)
Lemma param_deps_own st s sc p m :
  wf_store st → st_scopes st !! s = Some sc → inl m ∈ param_deps st s p →
  m ∈ own_deps sc p ∨ ∃ a sa, a < s ∧ st_scopes st !! a = Some sa ∧ registered sa m.
Proof.
  intros Hwf Hs.
  assert (∀ k soft, inl m ∈ concat (map (key_deps (st_scopes st) k soft) (ancestors (st_scopes st) s)) →
    m ∈ getProviders sc k ∨ ∃ a sa, a < s ∧ st_scopes st !! a = Some sa ∧ registered sa m) as Hk.
  { intros k soft (a & Ha & Hm)%elem_of_concat_map. unfold key_deps in Hm.
    destruct (st_scopes st !! a) as [sa|] eqn:Hsa; [|by apply elem_of_nil in Hm].
    assert (m ∈ getProviders sa k) as Hin.
    { apply elem_of_app in Hm as [(? & [=] & _)%list_elem_of_fmap|Hm].
      destruct soft; [by apply elem_of_nil in Hm|]. by apply list_elem_of_fmap in Hm as (? & [= ->] & ?). }
    destruct (decide (a = s)) as [->|Hne]; [left; congruence|]. right. exists a, sa.
    split; [|split; [done|by eexists]]. apply ancestors_le in Ha; [lia|done]. }
  induction p as [ps|pt|t fs IH] using param_ind'; simpl.
  - apply Hk.
  - destruct (Elem _); [apply Hk|set_solver].
  - intros (f & Hf & Hm)%elem_of_concat_map. rewrite Forall_forall in IH.
    destruct (IH f Hf Hm); [left|by right]. apply elem_of_concat_map. eauto.
Qed.

(** ** The invariant *)

(** A constructor that resolves its parameters from the scope, whose node and those of
    the groups it consumes are where their orders say. *)
Definition ctor_placed (st : store) (s : nat) (sc : Scope) (n : nat) : Prop :=
  ∃ cn, st_ctors st !! n = Some cn ∧ cn_origS cn = s ∧ cn_orders cn < length (st_orders st) ∧
    gh_nodes (gh sc) !! orderIn st (cn_orders cn) s = Some (WCtor n) ∧
    ∀ p, p ∈ pl_Params (cn_paramList cn) → groups_ok s st p.

Record scope_ok (st : store) (s : nat) (sc : Scope) : Prop := {
  so_defer : deferAcyclicVerification sc = false;
  so_ctor : ∀ n, registered sc n → ctor_placed st s sc n;
  so_wf : well_founded (own_dep st sc)
}.

Definition scopes_ok (st : store) : Prop :=
  ∀ s sc, st_scopes st !! s = Some sc → scope_ok st s sc.

Section bounded.
Context (st : store) (Hwf : wf_store st) (Hok : scopes_ok st).

Lemma max_ctor_depth (l : list nat) :
  (∀ y, y ∈ l → ∃ h, ctor_depth h st y = true) → ∃ h, forallb (ctor_depth h st) l = true.
Proof.
  induction l as [|y l IH]; intros Hl; [by exists 0|].
  destruct (Hl y) as [h1 H1]; [set_solver|]. destruct IH as [h2 H2]; [set_solver|].
  exists (h1 `max` h2). simpl. apply andb_true_iff.
  split; [by eapply ctor_depth_mono; [|exact H1]; lia|].
  rewrite forallb_forall in *. intros z Hz. eapply ctor_depth_mono; [|by apply H2]. lia.
Qed.

(** Whatever the constructor of a scope depends on comes earlier. *)
Lemma scoped_depth s sc n :
  st_scopes st !! s = Some sc → registered sc n → ∃ h, ctor_depth h st n = true.
Proof.
  revert sc n; induction s as [s IHs] using lt_wf_ind; intros sc n Hs.
  destruct (Hok s sc Hs) as [_ Hctor Hacc]. induction n as [n IHn] using (well_founded_ind Hacc).
  intros Hn. destruct (Hctor n Hn) as (cn & Hcn & Horig & _).
  destruct (max_ctor_depth (ctor_deps st n)) as [h Hh]; [|by exists (S h)].
  intros m Hm. apply elem_of_ctor_deps in Hm. simpl in Hm. rewrite Hcn, Horig in Hm.
  apply elem_of_concat_map in Hm as (p & Hp & Hm).
  destruct (param_deps_own st s sc p m Hwf Hs Hm) as [Hown|(a & sa & Ha & Hsa & Hreg)].
  - apply IHn; [|by eapply own_deps_registered]. split; [done|]. by exists cn, p.
  - by eapply IHs.
Qed.

Lemma ctor_deps_registered n m :
  m ∈ ctor_deps st n → ∃ s sc, st_scopes st !! s = Some sc ∧ registered sc m.
Proof.
  intros Hm%elem_of_ctor_deps. simpl in Hm.
  destruct (st_ctors st !! n) as [cn|] eqn:Hcn; [|by apply elem_of_nil in Hm].
  apply elem_of_concat_map in Hm as (p & Hp & Hm).
  destruct (lookup_lt_is_Some_2 _ _ (wf_origins _ Hwf n cn Hcn)) as [sc Hsc].
  destruct (param_deps_own st _ sc p m Hwf Hsc Hm) as [Hown|(a & sa & _ & Hsa & Hreg)]; [|eauto].
  exists (cn_origS cn), sc. split; [done|by eapply own_deps_registered].
Qed.

Lemma scoped_bounded : ∃ h, 0 < h ∧ ctors_bounded h st = true.
Proof.
  assert (∀ n, ∃ h, ctor_depth h st n = true) as Hall.
  { intros n. destruct (max_ctor_depth (ctor_deps st n)) as [h Hh]; [|by exists (S h)].
    intros m (s & sc & Hsc & Hreg)%ctor_deps_registered. by eapply scoped_depth. }
  destruct (max_ctor_depth (seq 0 (length (st_ctors st)))) as [h Hh]; [auto|].
  exists (S h). split; [lia|]. unfold ctors_bounded. rewrite forallb_forall in *. intros n Hn.
  eapply ctor_depth_mono; [|by apply Hh]. lia.
Qed.
End bounded.

(** ** Calls that register no constructor *)

(** The scope has the same providers and a larger graph. *)
Record scope_grows (a b : Scope) : Prop := {
  sg_providers : ∀ k, getProviders b k = getProviders a k;
  sg_defer : deferAcyclicVerification b = deferAcyclicVerification a;
  sg_nodes : gh_nodes (gh a) `prefix_of` gh_nodes (gh b)
}.

#[export] Instance scope_grows_preorder : PreOrder scope_grows.
Proof.
  split; [by intros a; split|]. intros a b c [] []. split; [congruence..|by etransitivity].
Qed.

(** A scope without constructors. *)
Definition bare (sc : Scope) : Prop :=
  (∀ k, getProviders sc k = []) ∧ deferAcyclicVerification sc = false.

Record calm (a b : store) : Prop := {
  calm_length : length (st_scopes a) <= length (st_scopes b);
  calm_scopes : ∀ x sb, st_scopes b !! x = Some sb →
    (∃ sa, st_scopes a !! x = Some sa ∧ scope_grows sa sb) ∨ bare sb;
  calm_ctors : ctors_kept a b;
  calm_orders_le : length (st_orders a) <= length (st_orders b);
  calm_orders : ∀ o x, o < length (st_orders a) → x < length (st_scopes a) →
    orderIn b o x = orderIn a o x
}.

#[export] Instance calm_preorder : PreOrder calm.
Proof.
  split.
  - intros a. split; try done; [|intros n cn Hn; eauto]. intros x sb Hx. left. exists sb. done.
  - intros a b c [L1 S1 C1 M1 O1] [L2 S2 C2 M2 O2]. split; [lia| | |lia|].
    + intros x sc Hx. destruct (S2 x sc Hx) as [(sb & Hb & Hg)|]; [|by right].
      destruct (S1 x sb Hb) as [(sa & Ha & Hg')|[Hp Hd]].
      * left. exists sa. split; [done|by etransitivity].
      * right. split; [intros k; by rewrite (sg_providers _ _ Hg)|by rewrite (sg_defer _ _ Hg)].
    + intros n cn Hn. destruct (C1 n cn Hn) as (cn1 & Hn1 & E1).
      destruct (C2 n cn1 Hn1) as (cn2 & Hn2 & E2). exists cn2. split; [done|congruence].
    + intros o x Ho Hx. rewrite O2, O1 by lia. done.
Qed.

#[local] Hint Resolve calm_preorder : dig.

(** A scope keeps its invariant while its graph grows and orders are added. *)
Lemma scope_ok_grows a b x sa sb :
  st_scopes a !! x = Some sa → st_scopes b !! x = Some sb → scope_grows sa sb → ctors_kept a b →
  length (st_orders a) <= length (st_orders b) →
  (∀ o, o < length (st_orders a) → orderIn b o x = orderIn a o x) →
  scope_ok a x sa → scope_ok b x sb.
Proof.
  intros Ha Hb Hg Hc Hle Ho [Hd Hctor Hacc].
  assert (∀ n, registered sb n → registered sa n) as Hreg.
  { intros n [k Hk]. exists k. by rewrite <- (sg_providers _ _ Hg). }
  split; [by rewrite (sg_defer _ _ Hg)| |].
  - intros n Hn%Hreg. destruct (Hctor n Hn) as (cn & Hcn & Horig & Hlt & Hnode & Hgr).
    destruct (Hc n cn Hcn) as (cn' & Hcn' & Hs).
    injection Hs as _ _ _ Hpl _ Hord _ Horig' _ _. exists cn'. rewrite Hpl, Hord, Horig'.
    split; [done|]. split; [done|]. split; [lia|]. rewrite Ho by done.
    split; [by eapply prefix_lookup_Some, Hg|]. intros p Hp sc pt Hsc Hpt.
    assert (sc = sb) as -> by congruence. destruct (Hgr p Hp sa pt Ha Hpt) as [Hlt' Hnode'].
    split; [lia|]. rewrite Ho by done. by eapply prefix_lookup_Some, Hg.
  - apply (wf_incl _ _ (own_dep a sa)); [|exact Hacc]. intros m n (Hn%Hreg & cn' & p & Hcn' & Hp & Hm).
    destruct (Hctor n Hn) as (cn & Hcn & _). destruct (Hc n cn Hcn) as (cn2 & Hcn2 & Hs).
    assert (cn2 = cn') as -> by congruence. injection Hs as _ _ _ Hpl _ _ _ _ _ _.
    split; [done|]. exists cn, p. rewrite <- Hpl. split; [done|]. split; [done|].
    by rewrite <- (own_deps_providers _ _ p (sg_providers _ _ Hg)).
Qed.

Lemma scopes_ok_calm a b : calm a b → scopes_ok a → scopes_ok b.
Proof.
  intros Hc Hok x sb Hb. destruct (calm_scopes _ _ Hc x sb Hb) as [(sa & Ha & Hg)|[Hno Hd]].
  - apply (scope_ok_grows a b x sa sb); [done..|apply Hc|apply Hc| |by apply Hok].
    intros o Ho. apply Hc; [done|by eapply lookup_lt_Some].
  - assert (∀ n, ¬ registered sb n) as Hreg.
    { intros n [k Hk]. rewrite Hno in Hk. by apply elem_of_nil in Hk. }
    split; [done|by intros n Hn%Hreg|]. intros n. constructor. by intros m [Hn%Hreg _].
Qed.

(** Stores with the same scopes up to what [scope_grows] ignores. *)
Lemma calm_same a b :
  Forall2 scope_grows (st_scopes a) (st_scopes b) → ctors_kept a b →
  st_orders a `prefix_of` st_orders b → calm a b.
Proof.
  intros Hs Hc Ho. split; [by rewrite (Forall2_length _ _ _ Hs)| |done|by apply prefix_length|].
  - intros x sb Hb. left. destruct (Forall2_lookup_r _ _ _ _ _ Hs Hb) as (sa & Ha & Hg). eauto.
  - intros o x Hlt _. by apply orderIn_prefix.
Qed.

Lemma calm_scope s f st :
  (∀ sc, scope_grows sc (f sc)) → calm st (upd_scopes (alter f s) st).
Proof.
  intros Hf. apply calm_same; [|by apply ctors_kept_eq|done]. simpl.
  apply Forall2_same_length_lookup. split; [by rewrite length_alter|]. intros i x y Hx Hy.
  rewrite list_lookup_alter in Hy. case_decide; [subst i|]; rewrite Hx in Hy; injection Hy as <-;
    [apply Hf|reflexivity].
Qed.

Lemma calm_ext c a b : ext c a b → calm a b.
Proof.
  intros [Hc _ _ _ Ho (ws & _ & Hs)]. apply calm_same; [|by apply ctors_kept_eq|done].
  rewrite Hs. apply Forall2_same_length_lookup. split; [by rewrite marked_length|].
  intros i x y Hx Hy. rewrite marked_lookup, Hx in Hy. injection Hy as <-. case_decide; [|reflexivity].
  destruct x. split; [done..|]. simpl. by eexists.
Qed.

Lemma calm_framed a b : framed a b → calm a b.
Proof.
  intros [Hb Ho Hg]. pose proof (built_skel _ _ Hb) as Hk. apply calm_same; [| |by rewrite Ho].
  - apply Forall2_same_length_lookup. split; [by rewrite (scopes_length _ _ Hk)|]. intros i x y Hx Hy.
    destruct (scope_same _ _ i y Hk Hy) as (sk & Hsk & Hsame). assert (sk = x) as -> by congruence.
    apply (f_equal (lookup i)) in Hg. rewrite !list_lookup_fmap, Hx, Hy in Hg. injection Hg as Hgh _.
    injection Hsame as _ Hp _ _ Hd _ _ _ _ _ _. split; [|done|by rewrite Hgh].
    intros k. unfold getProviders. congruence.
  - intros n cn Hn. destruct (ctor_same _ _ _ _ (eq_sym Hk) Hn) as (cn' & ? & ?). eauto.
Qed.

(** ** The cycle check *)

Section checked.
Context (st : store) (s : nat) (sc : Scope).
Context (Hwf : wf_store st) (Hs : st_scopes st !! s = Some sc).
Context (Hctor : ∀ n, registered sc n → ctor_placed st s sc n).

Let visible m k : m ∈ getProviders sc k → m ∈ getAllProviders (st_scopes st) s k.
Proof.
  intros Hm. apply elem_of_concat_map. exists s.
  split; [apply ancestors_self; [done|by eapply lookup_lt_Some]|by rewrite Hs].
Qed.

Lemma own_deps_edges p m :
  m ∈ own_deps sc p →
  ctorOrder st s m ∈ getParamOrder st s p ∨
  ∃ pt el, pt ∈ param_groups p ∧ orderIn st (pt_orders pt) s ∈ getParamOrder st s p ∧
           Elem (pt_Type pt) = Some el ∧ m ∈ getProviders sc (groupKey (pt_Group pt) el).
Proof.
  induction p as [ps|pt|t fs IH] using param_ind'; simpl.
  - intros Hm. left. by apply list_elem_of_fmap_2, visible.
  - destruct (Elem _) as [el|] eqn:Hel; [|set_solver]. intros Hm. right. exists pt, el. set_solver.
  - intros (f & Hf & Hm)%elem_of_concat_map. rewrite Forall_forall in IH.
    destruct (IH f Hf Hm) as [Ho|(pt & el & Hpt & Ho & Hel & Hn)].
    + left. apply elem_of_concat_map. by exists f.
    + right. exists pt, el. rewrite !elem_of_concat_map. eauto 10.
Qed.

Lemma placed_order n cn :
  registered sc n → st_ctors st !! n = Some cn → gh_nodes (gh sc) !! ctorOrder st s n = Some (WCtor n).
Proof.
  intros Hn Hcn. destruct (Hctor n Hn) as (cn' & Hcn' & _ & _ & Hg & _). unfold ctorOrder. by rewrite Hcn'.
Qed.

(** Along the graph, the dependencies inside the scope come to an end. *)
Lemma reaches_own u :
  reaches_fin (scopeGraph st s) u →
  (∀ n, registered sc n → ctorOrder st s n = u → Acc (own_dep st sc) n) ∧
  (∀ pt el n, gh_nodes (gh sc) !! u = Some (WGroup pt) → Elem (pt_Type pt) = Some el →
     n ∈ getProviders sc (groupKey (pt_Group pt) el) → Acc (own_dep st sc) n).
Proof.
  induction 1 as [u _ IH]. split.
  - intros n Hreg Hu. constructor. intros m (_ & cn & p & Hcn & Hp & Hm).
    pose proof (placed_order n cn Hreg Hcn) as Hn. rewrite Hu in Hn.
    assert (∀ v, v ∈ getParamOrder st s p → edge (scopeGraph st s) u v) as Hedge.
    { intros v Hv. exists (concat (map (getParamOrder st s) (pl_Params (cn_paramList cn)))).
      split; [|apply elem_of_concat_map; by exists p]. simpl. unfold EdgesFrom_gh.
      rewrite Hs. simpl. rewrite Hn. simpl. by rewrite Hcn. }
    destruct (own_deps_edges p m Hm) as [Ho|(pt & el & Hpt & Ho & Hel & Hin)].
    + apply (proj1 (IH _ (Hedge _ Ho))); [by eapply own_deps_registered|done].
    + destruct (Hctor n Hreg) as (cn' & Hcn' & _ & _ & _ & Hgr). assert (cn' = cn) as -> by congruence.
      destruct (Hgr p Hp sc pt Hs Hpt) as [_ Hg]. by apply (proj2 (IH _ (Hedge _ Ho)) pt el).
  - intros pt el n Hg Hel Hn.
    assert (edge (scopeGraph st s) u (ctorOrder st s n)) as Hedge;
      [|apply (proj1 (IH _ Hedge)); [by eexists|done]].
    exists (ctorOrder st s <$> getAllGroupProviders (st_scopes st) s (pt_Group pt) el).
    split; [|by apply list_elem_of_fmap_2, visible].
    simpl. unfold EdgesFrom_gh. rewrite Hs. simpl. rewrite Hg. simpl. by rewrite Hel.
Qed.

(** The check covers the dependencies inside the scope. *)
Lemma checked_own :
  (∀ j, j < Order (scopeGraph st s) → reaches_fin (scopeGraph st s) j) → well_founded (own_dep st sc).
Proof.
  intros Hfin n. constructor. intros m Hmn. apply Acc_inv with n; [|done].
  destruct Hmn as (Hreg & cn & p & Hcn & _). apply (reaches_own (ctorOrder st s n)); [|done|done].
  apply Hfin. simpl. rewrite Hs. by eapply lookup_lt_Some, placed_order.
Qed.
End checked.

(** ** Provide *)

Lemma provideIn_grows l s n keys ws x sc :
  s ∈ l → x ≠ s → NoDup keys → scope_grows sc (provideIn l s n keys ws x sc).
Proof.
  intros Hl Hx Hk. split.
  - intros k. rewrite provideIn_providers by done. case_decide; naive_solver.
  - pose proof (provideIn_aside l s n keys ws x sc) as Ha. unfold aside in Ha. congruence.
  - rewrite provideIn_gh by done. case_decide; [by eexists|done].
Qed.

(** The receiving scope, up to the check. *)
Lemma provided_placed st st' s n keys ws cn sc m :
  provide_done st st' s n keys ws cn → cn_origS cn = s → st_scopes st !! s = Some sc →
  scope_ok st s sc → registered (provideIn (subscopes (st_scopes st) s) s n keys ws s sc) m →
  ctor_placed st' s (provideIn (subscopes (st_scopes st) s) s n keys ws s sc) m.
Proof.
  intros Hpd Horig Hs Hok [k Hk]. set (sc' := provideIn _ _ _ _ _ _ sc) in *.
  pose proof (pd_index _ _ _ _ _ _ _ Hpd) as Hn.
  assert (s ∈ subscopes (st_scopes st) s) as Hin by (by eapply subscopes_self, lookup_lt_Some).
  assert (gh_nodes (gh sc') = gh_nodes (gh sc) ++ ws ++ [WCtor n]) as Hgh.
  { unfold sc'. rewrite provideIn_gh by done. by case_decide. }
  assert (st_scopes st' !! s = Some sc') as Hs'.
  { by rewrite (pd_scopes _ _ _ _ _ _ _ Hpd), list_lookup_imap, Hs. }
  assert (m = n ∨ registered sc m) as [->|Hm].
  { unfold sc' in Hk. rewrite provideIn_providers in Hk by apply Hpd.
    case_decide; [apply elem_of_app in Hk as [Hk|Hk]|]; [|set_solver|]; right; by exists k. }
  - exists cn. rewrite (pd_ctors _ _ _ _ _ _ _ Hpd), Hn, lookup_app_r, Nat.sub_diag by done.
    split; [done|]. split; [done|]. split; [apply Hpd|]. split; [|apply Hpd].
    rewrite (pd_order _ _ _ _ _ _ _ Hpd sc Hs), Hgh, app_assoc, lookup_app_r, Nat.sub_diag by done.
    by rewrite Hn.
  - destruct (so_ctor _ _ _ Hok m Hm) as (cm & Hcm & Ho & Hlt & Hnode & Hgr). exists cm.
    pose proof (pd_orders _ _ _ _ _ _ _ Hpd) as Hpre. pose proof (prefix_length _ _ Hpre) as Hle.
    split; [rewrite (pd_ctors _ _ _ _ _ _ _ Hpd); by apply lookup_app_l_Some|]. split; [done|].
    split; [lia|]. rewrite (orderIn_prefix st st') by done. rewrite Hgh.
    split; [by apply lookup_app_l_Some|]. intros p Hp.
    eapply (groups_ok_grow s st st' sc sc'); [done..|]. by apply Hgr.
Qed.

Lemma Provide_scoped s constructor opts st st' :
  wf_store st → scopes_ok st → s < length (st_scopes st) → provideTarget st s opts = s →
  Provide s constructor opts st = (Ret (), st') → scopes_ok st'.
Proof.
  intros Hwf Hok Hs Ht Hr. pose proof (Provide_checked _ _ _ _ _ Hr) as Hchk. rewrite Ht in Hchk.
  assert (wf_store st') as Hwf'.
  { pose proof (run_op_wf (OpProvide s constructor opts) st Hwf Hs) as H. simpl in H. by rewrite Hr in H. }
  apply Provide_provided in Hr as (f & n & keys & ws & cn & -> & Hpd & Hmade & _);
    [|rewrite Ht; by split; [apply wf_tree|]].
  rewrite Ht in Hpd, Hmade. pose proof (made_origS _ _ _ _ _ Hmade) as Horig.
  pose proof (subscopes_self _ _ Hs) as Hin. pose proof (pd_orders _ _ _ _ _ _ _ Hpd) as Hpre.
  intros x sx Hx. pose proof Hx as Hx'. rewrite (pd_scopes _ _ _ _ _ _ _ Hpd), list_lookup_imap in Hx'.
  destruct (st_scopes st !! x) as [sc|] eqn:Hsc; [|done]. injection Hx' as <-.
  destruct (decide (x = s)) as [->|Hne].
  - assert (deferAcyclicVerification (provideIn (subscopes (st_scopes st) s) s n keys ws s sc) = false) as Hd.
    { pose proof (provideIn_aside (subscopes (st_scopes st) s) s n keys ws s sc) as Ha. unfold aside in Ha.
      pose proof (so_defer _ _ _ (Hok s sc Hsc)). congruence. }
    assert (∀ m, registered (provideIn (subscopes (st_scopes st) s) s n keys ws s sc) m →
      ctor_placed st' s (provideIn (subscopes (st_scopes st) s) s n keys ws s sc) m) as Hpl.
    { intros m. apply (provided_placed st st' s n keys ws cn); auto. }
    split; [done|done|]. destruct (Hchk s Hin _ Hx Hd) as [c Hc].
    apply (checked_own st' s); [done..|]. by eapply IsAcyclic_sound.
  - eapply (scope_ok_grows st st' x sc); [done|done|by apply provideIn_grows, Hpd| | | |by apply Hok].
    + intros m cm Hm. exists cm. split; [|done]. rewrite (pd_ctors _ _ _ _ _ _ _ Hpd).
      by apply lookup_app_l_Some.
    + by apply prefix_length.
    + intros o Ho. by apply orderIn_prefix.
Qed.

(** A rejected constructor, in a scope without children. *)
Lemma calm_Provide_Err s constructor opts st e st' :
  wf_store st → s < length (st_scopes st) → provideTarget st s opts = s → childless s st →
  Provide s constructor opts st = (Err e, st') → calm st st'.
Proof.
  intros Hwf Hs Ht Hch Hr.
  assert (untouched st st') as Hu by (eapply Provide_untouched; [by rewrite Ht|exact Hr]).
  destruct (orders_Provide s constructor opts st) as [_ Ho];
    [rewrite Ht; by split; [apply wf_tree|]|]. destruct Ho as [Ho _].
  destruct (quiet_Provide s constructor opts st) as [_ [_ _ Hsh (l & Hc & _)]].
  rewrite Hr in Ho, Hsh, Hc. simpl in Ho, Hsh, Hc. apply calm_same; [| |done].
  - pose proof (f_equal length Hsh) as Hl. rewrite !length_fmap in Hl.
    apply Forall2_same_length_lookup. split; [done|]. intros x sa sb Ha Hb.
    destruct (Hu x sa Ha) as (sb' & Hb' & Hv & Hg). assert (sb' = sb) as -> by congruence.
    split; [apply Hv|apply Hv|by rewrite Hg].
  - intros n cn Hn. exists cn. rewrite Hc. split; [by apply lookup_app_l_Some|done].
Qed.

(** ** The other calls *)

Lemma calm_New opts st : DeferAcyclicVerification ∉ opts → calm st (New opts st).2.
Proof.
  intros Hopts. unfold New.
  rewrite (bind_step newScope _ st (length (st_scopes st)) (newScope st).2) by done.
  rewrite (bind_step _ _ _ _ _ (forEach_modScope opts (length (st_scopes st)) applyOption _)). simpl.
  unfold upd_scopes. simpl. rewrite alter_app_r_alt, Nat.sub_diag by done. simpl.
  match goal with |- context [foldl _ ?s opts] => set (fresh := s) end.
  assert (∀ l sc, DeferAcyclicVerification ∉ l → bare sc →
            bare (foldl (λ sc o, applyOption o sc) sc l)) as Hb.
  { induction l as [|o l IH]; intros sc Hl Hsc; [done|]. simpl. apply IH; [set_solver|].
    destruct o; try (by destruct sc). set_solver. }
  split; simpl; try done.
  - rewrite length_app. lia.
  - intros x sb [Hx|[_ Hx]]%lookup_app_Some; [left; by exists sb|right].
    apply list_lookup_singleton_Some in Hx as [_ <-]. by apply Hb.
  - by apply ctors_kept_eq.
Qed.

Lemma calm_Scope s name st :
  wf_store st → s < length (st_scopes st) →
  (∀ par, st_scopes st !! s = Some par → deferAcyclicVerification par = false) →
  calm st (Scope_Scope s name st).2.
Proof.
  intros Hwf Hs Hd.
  destruct (Scope_Scope_wf s name st Hwf Hs) as (ch & st' & -> & _ & Hsc & Hr & Hp & _ & Hdef).
  destruct (lookup_lt_is_Some_2 _ _ Hs) as [par Hpar]. simpl. split.
  - rewrite Hsc. simpl. rewrite length_app, length_alter. lia.
  - intros x sb Hx. rewrite Hsc in Hx. simpl in Hx.
    apply lookup_app_Some in Hx as [Hx|[_ [_ <-]%list_lookup_singleton_Some]].
    + left. rewrite list_lookup_alter in Hx. case_decide; [subst x|by exists sb].
      rewrite Hpar in Hx. injection Hx as <-. exists par. split; [done|]. by destruct par; split.
    + right. split; [intros k; unfold getProviders; by rewrite Hp|].
      rewrite (Hdef par Hpar). by apply Hd.
  - by apply ctors_kept_eq, Hr.
  - by rewrite (ro_length _ _ _ Hr).
  - intros o x _ Hx. apply (ro_order _ _ _ Hr). lia.
Qed.

Lemma calm_Decorate s decorator opts st :
  placed s st → runs calm True (Decorate s decorator opts) st.
Proof.
  intros Hp. unfold Decorate, failM. cbv zeta.
  assert (∀ a b, st_scopes b = st_scopes a → st_ctors b = st_ctors a → st_orders b = st_orders a →
    calm a b) as Hsame.
  { intros a b H1 H2 H3. apply calm_same; [by rewrite H1|by apply ctors_kept_eq|by rewrite H3]. }
  run_step.
  - unfold newDecoratorNode. destruct decorator as [|t|f|t r]; try (by auto with dig).
    run_step; [split; [done|]; exact (calm_ext _ _ _ (proj1 (newParamList_reads s _ st Hp)))|].
    run_step; [by apply runs_liftO; [apply _|]|]. run_step; [auto with dig|].
    run_step; [by apply runs_modifyS, Hsame|auto with dig].
  - run_step; [auto with dig|]. run_step; [by apply runs_liftO; [apply _|]|]. run_step.
    + unfold addDecorators, failM. apply (runs_forEach calm True (λ _, True)); auto. intros k st1 _ _.
      run_step; [auto with dig|]. destruct (decorators _ !! _); [auto with dig|].
      apply runs_modifyS, calm_scope. by intros []; split.
    + destruct (do_Info _); [by apply runs_modifyS, Hsame|auto with dig].
Qed.

Lemma calm_Invoke fuel s function opts st :
  placed s st → runs calm True (Invoke fuel s function opts) st.
Proof.
  intros Hp. unfold Invoke, failM. destruct (TypeOf function) as [ftype|]; [|auto with dig].
  destruct function as [|t|f|t r]; try (by auto with dig). case_decide; [auto with dig|].
  run_step; [split; [done|]; exact (calm_ext _ _ _ (proj1 (newParamList_reads s _ st Hp)))|].
  run_step; [apply runs_wrapErr; auto with dig|].
  run_step.
  { unfold verifyAcyclic. run_step; [auto with dig|]. destruct (isVerifiedAcyclic _); [auto with dig|].
    run_step; [split; [done|]; by rewrite checkAcyclic_still|].
    case_match; [run_step; auto with dig|]. apply runs_modifyS, calm_scope. by intros []; split. }
  match goal with |- runs calm True ?m ?s3 => assert (runs framed True m s3) as Hf end.
  { run_step; [apply runs_wrapErr, (built_BuildList framed); by apply (knot_built framed)|].
    run_step; [split; [done|]; rewrite getScope_still; reflexivity|].
    apply runs_deferRecover; [apply _|]. apply framed_invokeBody. }
  eapply runs_sub; [exact calm_framed|exact Hf].
Qed.

(** ** Programs *)

(** The stores of a program that makes containers and scopes without deferring the
    cycle check, provides constructors in the scopes they stay in, and invokes
    functions anywhere; decorators are registered if [dec] says so.  Every call may
    end in any way, except that [Provide] does not panic, and does not fail in a scope
    that has children. *)
Inductive scoped_program (dec : bool) : store → Prop :=
| sp_empty : scoped_program dec emptyStore
| sp_new opts st :
    scoped_program dec st → DeferAcyclicVerification ∉ opts → scoped_program dec (New opts st).2
| sp_scope s name st :
    scoped_program dec st → s < length (st_scopes st) → scoped_program dec (Scope_Scope s name st).2
| sp_provide s constructor opts st :
    scoped_program dec st → s < length (st_scopes st) → provideTarget st s opts = s →
    (Provide s constructor opts st).1 = Ret () → scoped_program dec (Provide s constructor opts st).2
| sp_rejected s constructor opts st e :
    scoped_program dec st → s < length (st_scopes st) → provideTarget st s opts = s →
    childless s st → (Provide s constructor opts st).1 = Err e →
    scoped_program dec (Provide s constructor opts st).2
| sp_decorate s decorator opts st :
    scoped_program dec st → s < length (st_scopes st) → dec = true →
    scoped_program dec (Decorate s decorator opts st).2
| sp_invoke fuel s function opts st :
    scoped_program dec st → s < length (st_scopes st) → (Invoke fuel s function opts st).1 ≠ NoFuel →
    scoped_program dec (Invoke fuel s function opts st).2.

Lemma scoped_inv dec st : scoped_program dec st → wf_store st ∧ scopes_ok st.
Proof.
  assert (∀ {A} (m : M A) st, ((_ ← m; mret ()) st).2 = (m st).2) as Hbind.
  { intros A m st'. unfold mbind, SM_bind. by destruct (m st') as [[]]. }
  induction 1 as [|opts st _ [Hwf Hok] Ho|s nm st _ [Hwf Hok] Hs|s c opts st _ [Hwf Hok] Hs Ht Hr
    |s c opts st e _ [Hwf Hok] Hs Ht Hch Hr|s d opts st _ [Hwf Hok] Hs _|fuel s f opts st _ [Hwf Hok] Hs _].
  - split; [apply emptyStore_wf|]. by intros s sc Hsc.
  - split; [by apply New_wf|]. by eapply scopes_ok_calm, Hok; apply calm_New.
  - split; [pose proof (run_op_wf (OpScope s nm) st Hwf Hs) as H; simpl in H; by rewrite Hbind in H|].
    eapply scopes_ok_calm, Hok. apply calm_Scope; [done..|]. intros par Hpar. by apply (Hok s).
  - split; [by apply (run_op_wf (OpProvide s c opts))|].
    eapply Provide_scoped; [done..|]. rewrite <- Hr. apply surjective_pairing.
  - split; [by apply (run_op_wf (OpProvide s c opts))|]. eapply scopes_ok_calm, Hok.
    eapply calm_Provide_Err; [done..|]. rewrite <- Hr. apply surjective_pairing.
  - split; [by apply (run_op_wf (OpDecorate s d opts))|]. eapply scopes_ok_calm, Hok.
    by apply calm_Decorate; split; [apply wf_tree|].
  - split; [by apply (run_op_wf (OpInvoke fuel s f opts))|]. eapply scopes_ok_calm, Hok.
    by apply calm_Invoke; split; [apply wf_tree|].
Qed.

Lemma scoped_Invoke_runs dec st s function opts :
  scoped_program dec st → ∃ h, runs same_skeleton False (Invoke h s function opts) st.
Proof.
  intros [Hwf Hok]%scoped_inv. destruct (scoped_bounded st Hwf Hok) as (h & Hh & Hb).
  eexists. by apply (Invoke_nested h).
Qed.

(** *** Constructors succeed once *)

(** Without decorators only constructors are called. *)
Lemma undecorated_deps st c p y :
  wf_store st → st_dcors st = [] → y ∈ param_deps st c p → ∃ n, y = inl n.
Proof.
  intros Hwf Hd.
  assert (∀ k soft l, y ∈ concat (map (key_deps (st_scopes st) k soft) l) → ∃ n, y = inl n) as Hk.
  { intros k soft l (s & _ & Hy)%elem_of_concat_map. unfold key_deps in Hy.
    destruct (st_scopes st !! s) as [sc|] eqn:Hs; [|by apply elem_of_nil in Hy].
    apply elem_of_app in Hy as [Hy|Hy].
    - destruct (decorators sc !! k) as [d|] eqn:Hdk; simpl in Hy; [|by apply elem_of_nil in Hy].
      destruct (wf_decorators _ Hwf s sc k d Hs Hdk) as (dn & Hdn & _). by rewrite Hd in Hdn.
    - destruct soft; [by apply elem_of_nil in Hy|]. apply list_elem_of_fmap in Hy as (n & -> & _). eauto. }
  induction p as [ps|pt|t fs IH] using param_ind'; simpl; [apply Hk|destruct (Elem _); [apply Hk|set_solver]|].
  intros (f & Hf & Hy)%elem_of_concat_map. rewrite Forall_forall in IH. by apply (IH f).
Qed.

Lemma undecorated_depth st h n :
  wf_store st → st_dcors st = [] → ctor_depth h st n = true → dep_depth h st (inl n) = true.
Proof.
  intros Hwf Hd. revert n; induction h as [|h IH]; intros n; [done|].
  cbn [dep_depth ctor_depth]. rewrite !forallb_forall. intros H y Hy%list_elem_of_In.
  assert (∃ m, y = inl m) as [m ->].
  { simpl in Hy. destruct (st_ctors st !! n); [|by apply elem_of_nil in Hy].
    apply elem_of_concat_map in Hy as (p & _ & Hy). by eapply undecorated_deps. }
  by apply IH, H, list_elem_of_In, elem_of_ctor_deps.
Qed.

Lemma undecorated_bounded st h :
  wf_store st → st_dcors st = [] → ctors_bounded h st = true → deps_bounded h st = true.
Proof.
  intros Hwf Hd. unfold ctors_bounded, deps_bounded, all_nodes. rewrite Hd. simpl.
  rewrite app_nil_r, !forallb_forall. intros H y Hy%list_elem_of_In.
  apply list_elem_of_fmap in Hy as (n & -> & Hn%list_elem_of_In). by apply undecorated_depth, H.
Qed.

Lemma scoped_undecorated st : scoped_program false st → st_dcors st = [].
Proof.
  induction 1 as [|opts st _ Hd _|s nm st Hp Hd Hs|s c opts st Hp Hd Hs Ht _|s c opts st e Hp Hd Hs Ht _ _
    |s d opts st _ _ _ [=]|fuel s f opts st Hp Hd Hs _]; [done|..]; rewrite <- Hd.
  - unfold New. rewrite (bind_step newScope _ st (length (st_scopes st)) (newScope st).2) by done.
    by rewrite (bind_step _ _ _ _ _ (forEach_modScope opts _ applyOption _)).
  - apply scoped_inv in Hp as [Hwf _].
    destruct (Scope_Scope_wf s nm st Hwf Hs) as (ch & st' & -> & _ & _ & Hr & _). apply Hr.
  - apply scoped_inv in Hp as [Hwf _]. apply orders_Provide. rewrite Ht. by split; [apply wf_tree|].
  - apply scoped_inv in Hp as [Hwf _]. apply orders_Provide. rewrite Ht. by split; [apply wf_tree|].
  - destruct (scoped_inv _ _ Hp) as [Hwf _]. destruct (Invoke_built fuel s f opts st Hwf) as [_ Hb].
    pose proof (f_equal (length ∘ st_dcors) (built_skel _ _ Hb)) as Hl. simpl in Hl.
    rewrite !length_fmap, Hd in Hl. rewrite Hd. by apply nil_length_inv.
Qed.

Lemma once_same a b :
  st_trace b = st_trace a → st_ctors b = st_ctors a → logged a → once a → once b ∧ logged b.
Proof.
  intros Ht Hc Hl Ho. split.
  - intros pre post n fn args cn Htr Hn Hs. rewrite Ht in Htr. rewrite Hc in Hn.
    unfold called. rewrite Hc. by apply (Ho pre post n fn args cn).
  - intros n fn args. rewrite Ht, Hc. apply Hl.
Qed.

Lemma scoped_once st : scoped_program false st → once st ∧ logged st.
Proof.
  induction 1 as [|opts st _ [Ho Hl] _|s nm st Hp [Ho Hl] Hs|s c opts st Hp [Ho Hl] Hs _ _
    |s c opts st e Hp [Ho Hl] Hs _ _ _|s d opts st _ _ _ [=]|fuel s f opts st Hp [Ho Hl] Hs Hn].
  - split; [intros pre post n fn args cn Htr; by destruct pre|].
    intros n fn args H. by apply elem_of_nil in H.
  - apply (once_same st); [| |done..];
      unfold New; rewrite (bind_step newScope _ st (length (st_scopes st)) (newScope st).2) by done;
      by rewrite (bind_step _ _ _ _ _ (forEach_modScope opts _ applyOption _)).
  - apply scoped_inv in Hp as [Hwf _].
    destruct (Scope_Scope_wf s nm st Hwf Hs) as (ch & st' & -> & _ & _ & Hr & _).
    apply (once_same st); [apply Hr..|done|done].
  - destruct (quiet_Provide s c opts st) as [_ Hq]. by eapply once_quiet.
  - destruct (quiet_Provide s c opts st) as [_ Hq]. by eapply once_quiet.
  - destruct (scoped_inv _ _ Hp) as [Hwf Hok]. destruct (scoped_bounded st Hwf Hok) as (h & Hh & Hb).
    destruct (Invoke_runs (in_store st) h h s f opts st Hwf Hh) as [Hnf He]; [done| | |].
    + by apply undecorated_bounded, Hb; [|apply scoped_undecorated].
    + intros t pl st1 z _ _ Hz. by eapply list_reach_in_store.
    + rewrite (Invoke_agree fuel h s f opts st Hn Hnf). by eapply once_eff.
Qed.
End scoped.

(** C3: [Invoke] ends in programs with child scopes and decorators.  In a program that
    makes containers without deferring the cycle check, opens child scopes, provides
    constructors in any scope without exporting them, decorates whatever it likes,
    and invokes functions in any scope, in any order, such that no [Provide] panics and
    none fails in a scope that has children, every [Invoke] has an answer that does not
    depend on the bound of the model.  Findings.v shows that the conditions on exported
    constructors, deferred checks and failing [Provide]s are needed. *)
Theorem scoped_Invoke_total `{E : Env} dec st s function opts :
  scoped_program dec st →
  ∃ h r st', r ≠ NoFuel ∧ ∀ fuel, h <= fuel → Invoke fuel s function opts st = (r, st').
Proof.
  intros Hp. destruct (scoped_Invoke_runs dec st s function opts Hp) as [h [Hh _]].
  destruct (Invoke h s function opts st) as [r st'] eqn:Hr. exists h, r, st'.
  split; [by intros ->; apply Hh|]. intros fuel Hle. rewrite <- Hr in Hh |- *.
  apply Invoke_more; [done|exact Hh].
Qed.

(** C4: every constructor succeeds at most once, in any tree of scopes.  In such a
    program (no [Provide] panics, and none fails in a scope that has children) without
    decorators, once a call of a constructor has returned its results
    without an error, it is marked as called and no later call of it is in the
    history of calls, from whatever scopes its values are asked for. *)
Theorem scoped_at_most_once `{E : Env} st pre post n fn args cn :
  scoped_program false st →
  st_trace st = pre ++ EvCall (ByCtor n) fn args :: post → st_ctors st !! n = Some cn →
  succeeded (cn_resultList cn) pre fn args →
  called st n = true ∧ Forall (λ ev, is_ctor_call n ev = false) post.
Proof. intros Hp. destruct (scoped_once st Hp) as [Ho _]. apply Ho. Qed.

(** ** Examples *)

Section scoped_example.
#[local] Existing Instance plainEnv.

(** [func() A] in the root, [func(A) B] in a child scope. *)
Definition scopedStore0 : store :=
  (Provide 1 (fn 41 2) [] (Scope_Scope 0 "child" (Provide 0 (fn 40 1) [] (New [] emptyStore).2).2).2).2.

(** [func(B)] is invoked in the child, then [func(A)] in the root. *)
Definition scopedStore1 : store :=
  (Invoke 10 0 (fn 43 4) [] (Invoke 10 1 (fn 44 3) [] scopedStore0).2).2.

(** The child decorates [A] with a function of [A] and [B]. *)
Definition scopedStore2 : store := (Decorate 1 (fn 60 5) [] scopedStore0).2.

Lemma scopedStore0_program dec : scoped_program dec scopedStore0.
Proof.
  apply sp_provide; [|vm_compute; lia|vm_compute; reflexivity|vm_compute; reflexivity].
  apply (sp_scope dec 0 "child"); [|vm_compute; lia].
  apply sp_provide; [|vm_compute; lia|vm_compute; reflexivity|vm_compute; reflexivity].
  apply (sp_new dec []); [constructor|set_solver].
Qed.

Lemma scopedStore1_program : scoped_program false scopedStore1.
Proof.
  apply sp_invoke; [|vm_compute; lia|vm_compute; discriminate].
  apply sp_invoke; [|vm_compute; lia|vm_compute; discriminate]. apply scopedStore0_program.
Qed.

Lemma scopedStore2_program : scoped_program true scopedStore2.
Proof. apply sp_decorate; [apply scopedStore0_program|vm_compute; lia|reflexivity]. Qed.

Lemma scoped_Invoke_total_witness :
  ∃ h r st', r ≠ NoFuel ∧ ∀ fuel, h <= fuel → Invoke fuel 1 (fn 44 6) [] scopedStore2 = (r, st').
Proof. apply (scoped_Invoke_total true scopedStore2 1 (fn 44 6) [] scopedStore2_program). Defined.

Lemma scoped_at_most_once_witness :
  called scopedStore1 0 = true ∧
  Forall (λ ev, is_ctor_call 0 ev = false) (tail (st_trace scopedStore1)).
Proof.
  apply (scoped_at_most_once scopedStore1 [] (tail (st_trace scopedStore1)) 0
           (mkFuncval (TDef 40) 1 1) [] (default (mkConstructorNode (mkFuncval (TDef 40) 1 1) None 1
              false (mkParamList (TDef 40) []) (mkResultList (TDef 40) [] []) 0 0 0 None None)
              (st_ctors scopedStore1 !! 0)) scopedStore1_program).
  - vm_compute. reflexivity.
  - vm_compute. reflexivity.
  - exists (match env_call [] (mkFuncval (TDef 40) 1 1) [] with Returned vs => vs | Panicked _ _ => [] end).
    split; vm_compute; reflexivity.
Defined.
End scoped_example.
