(* ===== verification/Typed.v ===== *)
(** * Type soundness: values and results

    [slot v u] says that [v] can be put into a variable of type [u]: it has that
    type or a type that implements it, and so have the fields and elements inside
    it.  Results extracted from the values of a function go under keys whose types
    they fit. *)

From S2P Require Import Prelude Digraph GoLib GoTypes DigReflect Errors Group InOut.
From S2P Require Import Values DotTypes Result Store Param Call ResultProofs.

Open Scope string_scope.
Open Scope list_scope.

(** ** Values in slots *)

Section slots.
Context `{TT : TypeTable}.

Fixpoint storable (v : value) : bool :=
  let put v u := match value_Type v with Some t => assignableTo t u | None => false end in
  match v with
  | VInvalid => false
  | VZero _ => true
  | VObj t _ | VErr t _ => bool_decide (Kind t ≠ Struct) && bool_decide (Kind t ≠ Slice)
  | VStruct t fs =>
      bool_decide (Kind t = Struct) &&
      (fix go fs sfs :=
         match fs, sfs with
         | [], [] => true
         | v :: fs', f :: sfs' => put v (f_Type f) && storable v && go fs' sfs'
         | _, _ => false
         end) fs (Fields t)
  | VSlice t vs =>
      bool_decide (Kind t = Slice) &&
      match Elem t with
      | Some el => forallb (λ v, put v el && storable v) vs
      | None => false
      end
  end.

Definition slot (v : value) (u : rtype) : Prop :=
  ∃ t, value_Type v = Some t ∧ assignableTo t u = true ∧ storable v = true.

Lemma assignableTo_refl t : assignableTo t t = true.
Proof. unfold assignableTo. by rewrite bool_decide_true. Qed.

Lemma slot_put v u :
  (match value_Type v with Some t => assignableTo t u | None => false end && storable v)%bool = true
  ↔ slot v u.
Proof.
  unfold slot. rewrite andb_true_iff. destruct (value_Type v) as [t|]; naive_solver.
Qed.

Lemma storable_struct t fs :
  storable (VStruct t fs) = true ↔
  Kind t = Struct ∧ Forall2 (λ v f, slot v (f_Type f)) fs (Fields t).
Proof.
  cbn [storable]. rewrite andb_true_iff, bool_decide_eq_true. apply and_iff_compat_l.
  generalize (Fields t). induction fs as [|v fs IH]; intros [|f sfs]; try (split; [done|by inversion 1]).
  rewrite andb_true_iff, slot_put. split.
  - intros [? ?%IH]. by constructor.
  - inversion 1; subst. split; [done|]. by apply IH.
Qed.

Lemma storable_slice t vs :
  storable (VSlice t vs) = true ↔
  Kind t = Slice ∧ ∃ el, Elem t = Some el ∧ Forall (λ v, slot v el) vs.
Proof.
  cbn [storable]. rewrite andb_true_iff, bool_decide_eq_true. apply and_iff_compat_l.
  destruct (Elem t) as [el|]; [|naive_solver]. rewrite forallb_forall.
  setoid_rewrite slot_put. setoid_rewrite <-list_elem_of_In. rewrite <-Forall_forall. naive_solver.
Qed.

Lemma Kind_Slice_Elem t : Kind t = Slice → is_Some (Elem t).
Proof. unfold Kind, Elem. by destruct (under tt_decl t). Qed.
End slots.

Section value_ind.
Context (P : value → Prop).
Context (Hinv : P VInvalid) (Hzero : ∀ t, P (VZero t)) (Hobj : ∀ t id, P (VObj t id)).
Context (Hstruct : ∀ t fs, Forall P fs → P (VStruct t fs)).
Context (Hslice : ∀ t vs, Forall P vs → P (VSlice t vs)).
Context (Herr : ∀ t e, P (VErr t e)).

Fixpoint value_ind' (v : value) : P v :=
  let go := fix go vs : Forall P vs :=
    match vs with
    | [] => Forall_nil_2 _
    | v :: vs' => Forall_cons_2 P v vs' (value_ind' v) (go vs')
    end in
  match v with
  | VInvalid => Hinv
  | VZero t => Hzero t
  | VObj t id => Hobj t id
  | VStruct t fs => Hstruct t fs (go fs)
  | VSlice t vs => Hslice t vs (go vs)
  | VErr t e => Herr t e
  end.
End value_ind.

Section typed_slots.
Context `{TT : TypeTable}.

(** What a function of the user returns is storable. *)
Lemma well_typed_storable v : well_typed v = true → storable v = true.
Proof.
  induction v as [|t|t id|t fs IH|t vs IH|t e] using value_ind'; try done.
  - cbn [well_typed]. rewrite !andb_true_iff, !bool_decide_eq_true. intros [[Hk Hty] Hwt].
    apply storable_struct. split; [done|]. apply (f_equal (map id)) in Hty. rewrite !map_id in Hty.
    revert Hwt Hty. generalize (Fields t). induction IH as [|v fs Hv _ IHfs]; intros [|f sfs];
      simpl; try done. rewrite andb_true_iff. intros [Hwv Hwt] [= Hf Hty].
    constructor; [|by apply IHfs]. exists (f_Type f). auto using assignableTo_refl.
  - cbn [well_typed]. rewrite andb_true_iff, bool_decide_eq_true. intros [Hk Hwt].
    apply storable_slice. split; [done|]. destruct (Kind_Slice_Elem t Hk) as [el Hel].
    exists el. split; [done|]. rewrite forallb_forall in Hwt. rewrite Forall_forall in IH |- *.
    intros v Hv. specialize (Hwt v (proj1 (list_elem_of_In _ _) Hv)).
    rewrite andb_true_iff, bool_decide_eq_true, Hel in Hwt. destruct Hwt as [Ht Hw].
    exists el. auto using assignableTo_refl.
  - cbn [well_typed storable]. rewrite !andb_true_iff. tauto.
Qed.

Lemma typed_slot v t u : typed v t → assignableTo t u = true → slot v u.
Proof. intros [Ht Hw] Ha. exists t. auto using well_typed_storable. Qed.

Lemma slot_VZero t : slot (VZero t) t.
Proof. exists t. auto using assignableTo_refl. Qed.

(** The elements of a slice of the user. *)
Lemma Elems_slots t v el vs :
  typed v t → Kind t = Slice → Elem t = Some el → value_Elems v = Some vs → Forall (λ v, slot v el) vs.
Proof.
  intros [Ht Hw%well_typed_storable] Hk Hel Hvs.
  destruct v as [|t'|t' id|t' fs|t' ws|t' e]; cbn [value_Type value_Elems] in *; simplify_eq.
  - rewrite decide_True in Hvs by done. simplify_eq. constructor.
  - apply storable_slice in Hw as (_ & el' & Hel' & Hf). by simplify_eq.
Qed.

Lemma newStruct_storable t : Kind t = Struct → storable (newStruct t) = true.
Proof.
  intros Hk. apply storable_struct. split; [done|]. induction (Fields t) as [|f fs IH]; [constructor|].
  constructor; [apply slot_VZero|done].
Qed.

Lemma checkAssign_slot op v u : slot v u → checkAssign op v u = Ret ().
Proof. intros (t & Ht & Ha & _). unfold checkAssign. by rewrite Ht, Ha. Qed.

Lemma checkAssigns_slot op vs us : Forall2 slot vs us → checkAssigns op vs us = Ret ().
Proof.
  induction 1 as [|v u vs us Hv _ IH]; [done|]. simpl. by rewrite (checkAssign_slot _ _ _ Hv).
Qed.

(** Setting a field to a value that fits works, and the struct still fits. *)
Lemma setField_storable t fs i sf v :
  storable (VStruct t fs) = true → Fields t !! i = Some sf → slot v (f_Type sf) →
  setField (VStruct t fs) i v = Ret (VStruct t (<[i := v]> fs)) ∧
  storable (VStruct t (<[i := v]> fs)) = true.
Proof.
  intros (Hk & Hf)%storable_struct Hi Hv. simpl. rewrite Hi. simpl.
  rewrite (checkAssign_slot _ _ _ Hv). split; [done|]. apply storable_struct. split; [done|].
  rewrite <-(list_insert_id _ _ _ Hi). by apply Forall2_insert.
Qed.
End typed_slots.

(** ** Triples

    From states with the invariant [I], [m] leads to states with [I] however it
    ends, what it returns satisfies [Q], and no type check of [reflect] fails. *)

Definition ends_in {A} (Q : A → Prop) (o : outcome A) : Prop :=
  match o with Ret a => Q a | Panic_ (PIllTyped _ _ _) => False | _ => True end.

Definition triple {S A} (I : S → Prop) (m : SM S A) (Q : A → Prop) : Prop :=
  ∀ s, I s → I (m s).2 ∧ ends_in Q (m s).1.

Section triple.
Context {S : Type} (I : S → Prop).

Lemma triple_ret {A} (a : A) (Q : A → Prop) : Q a → triple I (mret a) Q.
Proof. by intros HQ s Hs. Qed.

Lemma triple_bind {A B} (m : SM S A) (f : A → SM S B) (Q : A → Prop) (P : B → Prop) :
  triple I m Q → (∀ a, Q a → triple I (f a) P) → triple I (m ≫= f) P.
Proof.
  intros Hm Hf s Hs. destruct (Hm s Hs) as [Hs' HQ]. unfold mbind, SM_bind.
  destruct (m s) as [[a|e|p|] s']; simpl in *; [by apply Hf|done..].
Qed.

Lemma triple_weaken {A} (m : SM S A) (Q P : A → Prop) :
  triple I m Q → (∀ a, Q a → P a) → triple I m P.
Proof.
  intros Hm HQ s Hs. destruct (Hm s Hs) as [? Ho]. split; [done|].
  destruct (m s) as [[a|e|p|] s']; simpl in *; auto.
Qed.

Lemma triple_getS : triple I getS I.
Proof. by intros s Hs. Qed.

Lemma triple_modifyS f (Q : () → Prop) :
  (∀ s, I s → I (f s)) → Q () → triple I (modifyS f) Q.
Proof. intros Hf HQ s Hs. split; [by apply Hf|done]. Qed.

Lemma triple_liftO {A} (o : outcome A) (Q : A → Prop) : ends_in Q o → triple I (liftO o) Q.
Proof. by intros HQ s Hs. Qed.

Lemma triple_calm {A} (o : outcome A) (Q : A → Prop) :
  calm o → (∀ a, o = Ret a → Q a) → triple I (liftO o) Q.
Proof. intros Hc HQ. apply triple_liftO. destruct o as [| |[]|]; simpl in *; auto. Qed.

Lemma triple_throw {A} e (Q : A → Prop) : triple I (throw e) Q.
Proof. by intros s Hs. Qed.

Lemma triple_panic {A} msg (Q : A → Prop) : triple I (panic msg) Q.
Proof. by intros s Hs. Qed.

Lemma triple_orPanic {A} msg (o : option A) (Q : A → Prop) :
  (∀ a, o = Some a → Q a) → triple I (orPanic msg o) Q.
Proof. intros HQ. apply triple_liftO. destruct o; simpl; auto. Qed.

Lemma triple_wrapErr {A} f (m : SM S A) Q : triple I m Q → triple I (wrapErr f m) Q.
Proof.
  intros Hm s Hs. destruct (Hm s Hs) as [Hs' HQ]. unfold wrapErr.
  by destruct (m s) as [[a|e|p|] s'].
Qed.

Lemma triple_tryErr {A} (m : SM S A) (Q : A → Prop) (P : A + error → Prop) :
  triple I m Q → (∀ a, Q a → P (inl a)) → (∀ e, P (inr e)) → triple I (tryErr m) P.
Proof.
  intros Hm H1 H2 s Hs. destruct (Hm s Hs) as [Hs' HQ]. unfold tryErr.
  destruct (m s) as [[a|e|p|] s']; simpl in *; auto.
Qed.

Lemma triple_observe {A B} (m : SM S A) (k : outcome A → SM S B) Q P :
  triple I m Q → (∀ r, ends_in Q r → triple I (k r) P) → triple I (observe m k) P.
Proof.
  intros Hm Hk s Hs. destruct (Hm s Hs) as [Hs' Hr]. unfold observe.
  destruct (m s) as [r s']. by apply Hk.
Qed.

Lemma triple_forEach {A} (l : list A) f :
  (∀ x, x ∈ l → triple I (f x) (λ _, True)) → triple I (forEach l f) (λ _, True).
Proof.
  induction l as [|x l IH]; intros Hf; [by apply triple_ret|]. rewrite forEach_cons.
  eapply triple_bind; [apply Hf; set_solver|]. intros _ _. apply IH. intros y Hy. apply Hf. set_solver.
Qed.

Lemma triple_forMap {A B} (l : list A) (f : A → SM S B) (Q : A → B → Prop) :
  (∀ x, x ∈ l → triple I (f x) (Q x)) → triple I (forMap l f) (Forall2 Q l).
Proof.
  induction l as [|x l IH]; intros Hf; [apply triple_ret; constructor|]. rewrite forMap_cons.
  eapply triple_bind; [apply Hf; set_solver|]. intros y Hy.
  eapply triple_bind; [apply IH; intros z Hz; apply Hf; set_solver|]. intros ys Hys.
  apply triple_ret. by constructor.
Qed.

Lemma triple_forMap_along {A B C} (l : list A) (ts : list C) (f : A → SM S B)
    (P : A → C → Prop) (Q : C → B → Prop) :
  Forall2 P l ts → (∀ x t, P x t → triple I (f x) (Q t)) → triple I (forMap l f) (Forall2 Q ts).
Proof.
  intros HP Hf. induction HP as [|x t l ts Hx _ IH]; [apply triple_ret; constructor|].
  rewrite forMap_cons. eapply triple_bind; [by apply Hf|]. intros y Hy.
  eapply triple_bind; [exact IH|]. intros ys Hys. apply triple_ret. by constructor.
Qed.
End triple.

Create HintDb triples discriminated.
#[export] Hint Resolve triple_ret triple_throw triple_panic triple_getS triple_modifyS
  triple_wrapErr : triples.
#[export] Hint Extern 1 (triple _ (orPanic _ _) _) => apply triple_orPanic; intros : triples.
#[export] Hint Extern 1 (triple _ (liftO _) (λ _, True)) => apply triple_liftO; done : triples.
#[export] Hint Extern 2 (triple _ (mret _) (λ _, True)) => apply triple_ret; exact I : triples.

(** One step of a computation: the postcondition of the step is found by the hints. *)
Ltac tstep := eapply triple_bind; [eauto with triples|].

(** ** Results *)

Section conforms.
Context `{TT : TypeTable}.

(** The keys of a result have types that the values of type [t] fit. *)
Fixpoint conforms (r : result) (t : rtype) : Prop :=
  match r with
  | resultSingle _ ty As => Forall (λ u, assignableTo t u = true) (ty :: As)
  | resultGrouped _ ty flatten As =>
      if flatten then Kind t = Slice ∧ Elem t = Some ty
      else Forall (λ u, assignableTo t u = true) (ty :: As)
  | resultObject _ fs =>
      Kind t = Struct ∧
      foldr (λ f P, (∃ sf, Fields t !! rof_FieldIndex f = Some sf ∧
                           conforms (rof_Result f) (f_Type sf)) ∧ P) True fs
  | resultList_ _ => False
  end.

(** No value group of the result is flattened. *)
Fixpoint unflattened (r : result) : bool :=
  match r with
  | resultSingle _ _ _ => true
  | resultGrouped _ _ flatten _ => negb flatten
  | resultObject _ fs => forallb (λ f, unflattened (rof_Result f)) fs
  | resultList_ rl => forallb unflattened (rl_Results rl)
  end.

(** What [Validate] checks of [dig.As]: pointers to interfaces. *)
Definition as_ok (As : list iface) : Prop :=
  ∀ i t el, i ∈ As → TypeOf i = Some t → Elem t = Some el → Kind el = Interface.

Lemma asTypesOf_assignable t As ts :
  as_ok As → asTypesOf t As = Ret ts →
  Forall (λ u, assignableTo t u = true ∧ Kind u = Interface) ts.
Proof.
  revert ts; induction As as [|a As IH]; intros ts Hok; cbn [asTypesOf].
  { intros [= <-]. constructor. }
  assert (as_ok As) as Hok' by (intros i ? ? ?; apply Hok; set_solver).
  rewrite outcome_bind_Ret. intros (at_ & Hat & H). rewrite outcome_bind_Ret in H.
  destruct H as (u & Hu & H). destruct (TypeOf a) as [ta|] eqn:Ha; simplify_eq/=.
  destruct (Elem at_) as [el|] eqn:Hel; simplify_eq/=.
  case_decide; [by apply IH|]. destruct (Implements t u) eqn:Hi; [|done]. simpl in H.
  apply outcome_bind_Ret in H as (rest & Hrest & [= <-]). constructor; [|by apply IH].
  assert (Kind u = Interface) as Hk by (eapply (Hok a); [set_solver|done|done]).
  split; [|done]. unfold assignableTo. rewrite Hi, (bool_decide_true (Kind u = Interface)) by done.
  by rewrite orb_true_r.
Qed.

Lemma Interface_Elem t : Kind t = Interface → Elem t = None.
Proof. unfold Kind, Elem. by destruct (under tt_decl t). Qed.

Lemma newResultSingle_conforms t opts r :
  as_ok (ro_As opts) → newResultSingle t opts = Ret r → conforms r t.
Proof.
  intros Hok. unfold newResultSingle. rewrite outcome_bind_Ret. intros (ts & Hts & H).
  pose proof (asTypesOf_assignable _ _ _ Hok Hts) as Hf.
  destruct ts as [|a ts]; simplify_eq/=.
  - repeat constructor. apply assignableTo_refl.
  - eapply Forall_impl; [exact Hf|]. by intros ? [? _].
Qed.

Lemma newResultOfGroup_conforms t opts r :
  as_ok (ro_As opts) → newResultOfGroup t opts = Ret r → conforms r t.
Proof.
  intros Hok. unfold newResultOfGroup. rewrite outcome_bind_Ret. intros (g & _ & H).
  apply outcome_bind_Ret in H as (ts & Hts & H).
  pose proof (asTypesOf_assignable _ _ _ Hok Hts) as Hf.
  assert (∃ ty As, match ts with [] => (t, []) | a :: asTypes => (a, asTypes) end = (ty, As) ∧
    Forall (λ u, assignableTo t u = true) (ty :: As) ∧ (ty = t ∨ Elem ty = None))
    as (ty & As & Heq & HAs & Hty).
  { destruct ts as [|a ts].
    - exists t, []. split_and!; [done| |by left]. repeat constructor. apply assignableTo_refl.
    - exists a, ts. split_and!; [done| |right].
      + eapply Forall_impl; [exact Hf|]. by intros ? [? _].
      + inversion Hf as [|? ? [_ ?]]. by apply Interface_Elem. }
  rewrite Heq in H. destruct (g_Soft g); [done|]. destruct (g_Flatten g); [|by simplify_eq].
  case_decide as Hk; [done|].
  apply outcome_bind_Ret in H as (ty' & Hty' & [= <-]).
  destruct Hty as [->|Hty]; [|by rewrite Hty in Hty'].
  destruct (Elem t) as [el|] eqn:Hel; simplify_eq/=. done.
Qed.

Lemma newResultGrouped_conforms f r : newResultGrouped f = Ret r → conforms r (f_Type f).
Proof.
  unfold newResultGrouped. rewrite outcome_bind_Ret. intros (g & _ & H). cbv zeta in H.
  destruct (g_Flatten g) eqn:Hf; simpl in H.
  - destruct (bool_decide _) eqn:Hk; [done|].
    apply bool_decide_eq_false, dec_stable in Hk. repeat case_match; try done.
    apply outcome_bind_Ret in H as (ty & Hty & [= <-]).
    destruct (Elem (f_Type f)) as [el|] eqn:Hel; simplify_eq/=. done.
  - repeat case_match; simplify_eq. repeat constructor. apply assignableTo_refl.
Qed.

Lemma newResult__conforms fuel t opts r :
  as_ok (ro_As opts) → newResult_ fuel t opts = Ret r → conforms r t.
Proof.
  revert t opts r; induction fuel as [|fuel IH]; intros t opts r Hok; [done|]. simpl.
  case_match; [done|]. case_match; [done|]. case_match eqn:Hout.
  - apply IsOut_struct in Hout. unfold newResultObject.
    do 2 (case_match; [done|]). rewrite outcome_bind_Ret. intros (fs & Hfs & [= <-]). simpl.
    split; [done|].
    by apply (newResultObjectFields_all conforms (λ o, as_ok (ro_As o)) (newResult_ fuel) t opts 0
                (Fields t)); eauto using newResultGrouped_conforms.
  - do 2 (case_match; [done|]). case_match; [by apply newResultOfGroup_conforms|].
    by apply newResultSingle_conforms.
Qed.
End conforms.

(** ** Writing results *)

(** A writer whose methods keep [I] for values that fit the type of their key. *)
Class writer_typed `{TypeTable} (W : Type) `{containerWriter W} (I : W → Prop) : Prop := {
  setValue_typed n t v : slot v t → triple I (setValue n t v) (λ _, True);
  setDecoratedValue_typed n t v : slot v t → triple I (setDecoratedValue n t v) (λ _, True);
  submitGroupedValue_typed n t v : slot v t → triple I (submitGroupedValue n t v) (λ _, True);
  submitDecoratedGroupedValue_typed n t v :
    slot v t → triple I (submitDecoratedGroupedValue n t v) (λ _, True)
}.

Section maps.
Context `{TT : TypeTable}.

Definition values_typed (m : gmap key value) : Prop := ∀ k v, m !! k = Some v → slot v (k_t k).
Definition groups_typed (m : gmap key (list value)) : Prop :=
  ∀ k vs, m !! k = Some vs → Forall (λ v, slot v (k_t k)) vs.

Lemma values_typed_insert m k v : values_typed m → slot v (k_t k) → values_typed (<[k := v]> m).
Proof. intros Hm Hv k' v'. rewrite lookup_insert_Some. intros [[<- <-]|[_ ?]]; auto. Qed.

Lemma groups_typed_lookup m k : groups_typed m → Forall (λ v, slot v (k_t k)) (default [] (m !! k)).
Proof. intros Hm. destruct (m !! k) eqn:Hk; [by apply Hm|constructor]. Qed.

Lemma groups_typed_snoc m k v :
  groups_typed m → slot v (k_t k) → groups_typed (<[k := default [] (m !! k) ++ [v]]> m).
Proof.
  intros Hm Hv k' vs. rewrite lookup_insert_Some. intros [[<- <-]|[_ ?]]; [|by apply Hm].
  apply Forall_app. split; [by apply groups_typed_lookup|by constructor].
Qed.

Definition staging_typed (w : stagingContainerWriter) : Prop :=
  values_typed (sw_values w) ∧ groups_typed (sw_groups w).

#[export] Instance staging_writer_typed : writer_typed stagingContainerWriter staging_typed.
Proof.
  split; intros n t v Hv; simpl; try apply triple_panic; apply triple_modifyS; try done;
    intros w [Hvs Hgs]; split; simpl; auto.
  - by apply values_typed_insert.
  - by apply groups_typed_snoc.
Qed.

Record scope_typed (sc : Scope) : Prop := {
  st_values : values_typed (values sc);
  st_decorated : values_typed (decoratedValues sc);
  st_groups : groups_typed (groups sc);
  st_decoratedGroups : values_typed (decoratedGroups sc)
}.

#[export] Instance Scope_writer_typed : writer_typed Scope scope_typed.
Proof.
  split; intros n t v Hv; simpl; apply triple_modifyS; try done; intros [] []; split; simpl in *;
    auto using values_typed_insert, groups_typed_snoc.
Qed.

Lemma fields_find (P : result → rtype → Prop) t fs f :
  foldr (λ f R, (∃ sf, Fields t !! rof_FieldIndex f = Some sf ∧
                       P (rof_Result f) (f_Type sf)) ∧ R) True fs →
  f ∈ fs → ∃ sf, Fields t !! rof_FieldIndex f = Some sf ∧ P (rof_Result f) (f_Type sf).
Proof. induction fs as [|f' fs IH]; simpl; [set_solver|]. intros [? ?] [->|?]%elem_of_cons; auto. Qed.

Context {W : Type} `{CW : containerWriter W} (I : W → Prop) `{!writer_typed W I}.

Lemma Extract_typed r t decorated v :
  conforms r t → typed v t → (decorated = true → unflattened r = true) →
  triple I (Extract r decorated v) (λ _, True).
Proof.
  revert t v; induction r as [n ty As|g ty fl As|ty fs IH|rl IH] using result_ind';
    intros t v Hc Hv Hu; simpl in Hc |- *; [| | |done].
  - assert (∀ u, u ∈ ty :: As → slot v u) as Hslot.
    { intros u Hu'. eapply typed_slot; [done|]. rewrite Forall_forall in Hc. by apply Hc. }
    destruct decorated; [apply setDecoratedValue_typed, Hslot; set_solver|].
    eapply triple_bind; [apply setValue_typed, Hslot; set_solver|]. intros _ _.
    apply triple_forEach. intros u ?. apply setValue_typed, Hslot. set_solver.
  - destruct fl.
    + destruct decorated; [by discriminate Hu|]. simpl. destruct Hc as (Hk & Hel).
      eapply triple_bind; [apply (triple_orPanic _ _ _ (λ vs, value_Elems v = Some vs)); auto|].
      intros vs Hvs. apply triple_forEach. intros x Hx. apply submitGroupedValue_typed.
      pose proof (Elems_slots t v ty vs Hv Hk Hel Hvs) as Hall. rewrite Forall_forall in Hall. auto.
    + assert (∀ u, u ∈ ty :: As → slot v u) as Hslot.
      { intros u Hu'. eapply typed_slot; [done|]. rewrite Forall_forall in Hc. by apply Hc. }
      destruct decorated; simpl; [apply submitDecoratedGroupedValue_typed, Hslot; set_solver|].
      eapply triple_bind; [apply submitGroupedValue_typed, Hslot; set_solver|]. intros _ _.
      apply triple_forEach. intros u ?. apply submitGroupedValue_typed, Hslot. set_solver.
  - destruct Hc as [Hk Hfs]. apply triple_forEach. intros f Hf.
    destruct (fields_find conforms t fs f Hfs Hf) as (sf & Hsf & Hcf).
    destruct (Field_typed t v _ sf Hk Hv Hsf) as (fv & Hfv & Hty).
    rewrite Forall_forall in IH. rewrite Hfv.
    eapply triple_bind; [apply (triple_orPanic _ _ _ (λ x, x = fv)); by intros ? [= <-]|].
    intros _ ->. eapply IH; [done|done|done|]. intros Hd. specialize (Hu Hd). simpl in Hu.
    rewrite forallb_forall in Hu. apply Hu. by apply list_elem_of_In.
Qed.

Lemma ExtractList_typed opts outs rl decorated vs :
  as_ok (ro_As opts) → table_ok opts 0 outs (rl_Results rl) (rl_resultIndexes rl) →
  Forall2 typed vs outs → (decorated = true → unflattened (resultList_ rl) = true) →
  triple I (ExtractList rl decorated vs) (λ _, True).
Proof.
  intros Hok Htab Hty Hu. unfold ExtractList.
  assert (∀ i, Forall2 typed vs (drop i outs) →
               triple I (ExtractList_from rl decorated i vs) (λ _, True)) as H; [|by apply H].
  clear Hty. induction vs as [|v vs IH]; intros i Hty; [by apply triple_ret|]. simpl.
  destruct (drop i outs) as [|t outs'] eqn:Hdrop; [by inversion Hty|].
  inversion Hty as [|? ? ? ? Hv Hvs]; subst. apply drop_cons_inv in Hdrop as [Hi Hdrop].
  destruct (table_entry _ _ _ _ _ Htab i t Hi) as (idx & Hidx & Hcase). rewrite Hidx.
  eapply triple_bind; [apply (triple_orPanic _ _ _ (λ x, x = idx)); by intros ? [= <-]|].
  intros _ ->. rewrite <-Hdrop in Hvs. destruct (isError t).
  - subst idx. simpl. destruct (value_error v); [apply triple_throw|by apply IH].
  - destruct Hcase as (Hle & r & Hr & Hnew). rewrite decide_True by done.
    rewrite Nat.sub_0_r in Hr. rewrite Hr.
    eapply triple_bind; [apply (triple_orPanic _ _ _ (λ x, x = r)); by intros ? [= <-]|].
    intros _ ->. eapply triple_bind; [|intros; by apply IH].
    eapply Extract_typed; [by eapply newResult__conforms|done|].
    intros Hd. specialize (Hu Hd). simpl in Hu. rewrite forallb_forall in Hu.
    apply Hu, list_elem_of_In. by eapply list_elem_of_lookup_2.
Qed.

Lemma Commit_typed sr : staging_typed sr → triple I (Commit sr) (λ _, True).
Proof.
  intros [Hv Hg]. unfold Commit, CommitIn. eapply triple_bind.
  - apply triple_forEach. intros [k v] Hkv%elem_of_map_to_list. apply setValue_typed. by apply Hv.
  - intros _ _. apply triple_forEach. intros [k vs] Hkv%elem_of_map_to_list.
    apply triple_forEach. intros v Hin. apply submitGroupedValue_typed.
    specialize (Hg _ _ Hkv). rewrite Forall_forall in Hg. by apply Hg.
Qed.
End maps.
