(* ===== verification/TypeSound.v ===== *)
(** * Type soundness of the container

    Every value in a scope fits the type of its key, every parameter of a
    registered function has the type of the argument it is built for, and every
    call of a user's function gets arguments that fit its parameter types. *)

From S2P Require Import Prelude Digraph GoLib GoTypes DigReflect Errors Group InOut.
From S2P Require Import Values DotTypes Dot Result Store Scenario Param Call ResultProofs.
From S2P Require Import Options Deps Building ParamProofs Provide Decorate ProvideProofs Invoke.
From S2P Require Import CallProofs Invariants Reachable Typed.

Open Scope string_scope.
Open Scope list_scope.

(** ** The invariant *)

Section invariant.
Context `{E : Env}.

(** A parameter that builds values for an argument or a field of type [t]. *)
Fixpoint param_for (p : param) (t : rtype) : Prop :=
  match p with
  | PSingle ps => ps_Type ps = t
  | PGrouped pt => pt_Type pt = t ∧ Kind t = Slice
  | PObject t' fs =>
      t' = t ∧ Kind t = Struct ∧
      foldr (λ f R, (∃ sf, Fields t !! pof_FieldIndex f = Some sf ∧
                           param_for (pof_Param f) (f_Type sf)) ∧ R) True fs
  end.

Lemma param_fields_find t fs f :
  foldr (λ f R, (∃ sf, Fields t !! pof_FieldIndex f = Some sf ∧
                       param_for (pof_Param f) (f_Type sf)) ∧ R) True fs →
  f ∈ fs → ∃ sf, Fields t !! pof_FieldIndex f = Some sf ∧ param_for (pof_Param f) (f_Type sf).
Proof. induction fs as [|f' fs IH]; simpl; [set_solver|]. intros [? ?] [->|?]%elem_of_cons; auto. Qed.

(** The arguments dig passes: the variadic one is left out. *)
Definition passed (ins : list rtype) (variadic : bool) : list rtype :=
  take (if variadic then length ins - 1 else length ins) ins.

Definition params_for (pl : paramList) (ftype : rtype) : Prop :=
  ∃ ins outs var, FuncSig ftype = Some (ins, outs, var) ∧
    Forall2 param_for (pl_Params pl) (passed ins var).

(** The runtime knows every function, so that every node has a location. *)
Definition all_located : Prop := ∀ pc, is_Some (FuncForPC pc).

Definition ctor_typed (cn : constructorNode) : Prop :=
  params_for (cn_paramList cn) (fv_type (cn_ctor cn)) ∧
  (all_located → is_Some (cn_location cn)) ∧
  ∃ opts, as_ok (ro_As opts) ∧ newResultList (fv_type (cn_ctor cn)) opts = Ret (cn_resultList cn).

Definition dcor_typed (dn : decoratorNode) : Prop :=
  params_for (dn_params dn) (fv_type (dn_dcor dn)) ∧
  (all_located → is_Some (dn_location dn)) ∧
  newResultList (fv_type (dn_dcor dn)) (mkResultOptions "" "" []) = Ret (dn_results dn) ∧
  unflattened (resultList_ (dn_results dn)) = true.

(** A call whose arguments fit the parameters of the function. *)
Definition event_typed (ev : event) : Prop :=
  match ev with
  | EvCall _ f args =>
      ∃ ins outs var, FuncSig (fv_type f) = Some (ins, outs, var) ∧
        Forall2 slot args (passed ins var)
  | _ => True
  end.

Record store_typed (st : store) : Prop := {
  sty_scopes : Forall scope_typed (st_scopes st);
  sty_ctors : Forall ctor_typed (st_ctors st);
  sty_dcors : Forall dcor_typed (st_dcors st);
  sty_trace : Forall event_typed (st_trace st)
}.

Abbreviation tri := (triple store_typed).

Lemma tri_getScope s : tri (getScope s) scope_typed.
Proof.
  eapply triple_bind; [apply triple_getS|]. intros st Hst. apply triple_orPanic.
  intros sc Hsc. eapply Forall_lookup_1; [apply Hst|done].
Qed.

Lemma tri_getCtor n : tri (getCtor n) ctor_typed.
Proof.
  eapply triple_bind; [apply triple_getS|]. intros st Hst. apply triple_orPanic.
  intros sc Hsc. eapply Forall_lookup_1; [apply Hst|done].
Qed.

Lemma tri_getDcor n : tri (getDcor n) dcor_typed.
Proof.
  eapply triple_bind; [apply triple_getS|]. intros st Hst. apply triple_orPanic.
  intros sc Hsc. eapply Forall_lookup_1; [apply Hst|done].
Qed.

Lemma tri_modScope s f :
  (∀ sc, scope_typed sc → scope_typed (f sc)) → tri (modScope s f) (λ _, True).
Proof.
  intros Hf. apply triple_modifyS; [|done]. intros st []. split; try done. simpl.
  apply Forall_alter; [done|]. auto.
Qed.

(** Updates of a scope that leave its values alone. *)
Definition leaves_values (f : Scope → Scope) : Prop :=
  ∀ sc, values (f sc) = values sc ∧ decoratedValues (f sc) = decoratedValues sc ∧
        groups (f sc) = groups sc ∧ decoratedGroups (f sc) = decoratedGroups sc.

Lemma tri_modScope_aside s f : leaves_values f → tri (modScope s f) (λ _, True).
Proof.
  intros Hf. apply tri_modScope. intros sc [H1 H2 H3 H4].
  destruct (Hf sc) as (E1 & E2 & E3 & E4).
  split; [by rewrite E1|by rewrite E2|by rewrite E3|by rewrite E4].
Qed.

Lemma tri_modCtor n : tri (modCtor n set_called) (λ _, True).
Proof.
  apply triple_modifyS; [|done]. intros st []. split; try done. simpl.
  by apply Forall_alter.
Qed.

Lemma tri_modDcor d st0 : tri (modDcor d (set_state st0)) (λ _, True).
Proof.
  apply triple_modifyS; [|done]. intros st []. split; try done. simpl.
  by apply Forall_alter.
Qed.

Lemma tri_logEvent ev : event_typed ev → tri (logEvent ev) (λ _, True).
Proof.
  intros Hev. apply triple_modifyS; [|done]. intros st []. split; try done. simpl.
  apply Forall_app. split; [done|]. by constructor.
Qed.

Lemma tri_upd_orders f : tri (modifyS (upd_orders f)) (λ _, True).
Proof. apply triple_modifyS; [|done]. by intros st []. Qed.

Lemma tri_upd_infos f : tri (modifyS (upd_infos f)) (λ _, True).
Proof. apply triple_modifyS; [|done]. by intros st []. Qed.

Lemma tri_storesToRoot s : tri (storesToRoot s) (λ _, True).
Proof. eapply triple_bind; [apply triple_getS|]. intros. by apply triple_ret. Qed.

Lemma tri_zoomScope {A} s (m : SM Scope A) Q : triple scope_typed m Q → tri (zoomScope s m) Q.
Proof.
  intros Hm st Hst. unfold zoomScope. destruct (st_scopes st !! s) as [sc|] eqn:Hs; [|by split].
  destruct (Hm sc) as [Hsc HQ]; [eapply Forall_lookup_1; [apply Hst|done]|].
  destruct (m sc) as [r sc']. simpl in *. split; [|done].
  destruct Hst. split; try done. simpl. by apply Forall_insert.
Qed.
End invariant.

Abbreviation tri := (triple store_typed).
#[export] Hint Resolve tri_getScope tri_getCtor tri_getDcor tri_modCtor tri_modDcor
  tri_upd_orders tri_upd_infos tri_storesToRoot : triples.
#[export] Hint Extern 1 (triple store_typed (modScope _ _) _) =>
  apply tri_modScope_aside; by intros [] : triples.
#[export] Hint Extern 1 (triple store_typed (logEvent _) _) => apply tri_logEvent; exact I : triples.

(** ** Reading parameter types *)

Section params.
Context `{E : Env}.

Lemma tri_newOrders : tri newOrders (λ _, True).
Proof. tstep. intros st _. tstep. intros _ _. by apply triple_ret. Qed.

Lemma tri_newGraphNode s w o : tri (newGraphNode s w o) (λ _, True).
Proof.
  unfold newGraphNode. tstep. intros st _. generalize (S (length (st_scopes st))). intros fuel.
  revert s. induction fuel as [|fuel IH]; intros s; simpl; [eauto with triples|].
  tstep. intros sc _. tstep. intros _ _. tstep. intros _ _.
  apply triple_forEach. intros c _. apply IH.
Qed.

Lemma tri_newParamGroupedSlice f c :
  tri (newParamGroupedSlice f c) (λ pt, param_for (PGrouped pt) (f_Type f)).
Proof.
  unfold newParamGroupedSlice.
  eapply triple_bind; [by apply (triple_calm _ _ (λ _, True)); [apply parseGroupString_calm|]|]. intros g _.
  eapply triple_bind; [apply tri_newOrders|]. intros o _. cbv zeta.
  case_decide as Hk; [apply triple_throw|]. repeat (case_match; [apply triple_throw|]).
  eapply triple_bind; [apply tri_newGraphNode|]. intros _ _. by apply triple_ret.
Qed.

Lemma tri_newParamObjectField new idx f c :
  (∀ f, tri (new (f_Type f) c) (λ p, param_for p (f_Type f))) →
  tri (newParamObjectField new idx f c)
      (λ pof, pof_FieldIndex pof = idx ∧ param_for (pof_Param pof) (f_Type f)).
Proof.
  intros Hnew. unfold newParamObjectField.
  eapply (triple_bind _ _ _ (λ p, param_for p (f_Type f))).
  - case_decide; [apply triple_throw|]. case_decide; [|apply Hnew].
    eapply triple_bind; [apply tri_newParamGroupedSlice|]. intros pt Hpt. by apply triple_ret.
  - intros p Hp. eapply (triple_bind _ _ _ (λ p, param_for p (f_Type f))).
    + destruct p as [ps|pt|t fs]; [|by apply triple_ret..].
      destruct (isFieldOptional f) as [optional [err|]]; [apply triple_throw|by apply triple_ret].
    + intros p' Hp'. by apply triple_ret.
Qed.

Lemma tri_newParamObjectFields new ig t i fs c :
  (∀ f, tri (new (f_Type f) c) (λ p, param_for p (f_Type f))) →
  (∀ j f, fs !! j = Some f → Fields t !! (i + j) = Some f) →
  tri (newParamObjectFields new ig t i fs c) (λ pofs,
    foldr (λ f R, (∃ sf, Fields t !! pof_FieldIndex f = Some sf ∧
                         param_for (pof_Param f) (f_Type sf)) ∧ R) True pofs).
Proof.
  intros Hnew. revert i; induction fs as [|f fs IH]; intros i Hfs; simpl; [by apply triple_ret|].
  assert (∀ j f, fs !! j = Some f → Fields t !! (S i + j) = Some f) as Hfs'.
  { intros j f' Hj. rewrite Nat.add_succ_comm. by apply Hfs. }
  case_decide; [by apply IH|]. case_match; [by apply IH|].
  eapply triple_bind; [apply triple_wrapErr, tri_newParamObjectField, Hnew|]. intros pof [Hi Hp].
  eapply triple_bind; [by apply IH|]. intros pofs Hpofs. apply triple_ret. simpl. split; [|done].
  exists f. rewrite Hi. split; [|done]. rewrite <-(Nat.add_0_r i). by apply Hfs.
Qed.

Lemma tri_newParam t c : tri (newParam t c) (λ p, param_for p t).
Proof.
  unfold newParam. generalize (S (S (tt_rank t))). intros fuel. revert t.
  induction fuel as [|fuel IH]; intros t; simpl; [by apply triple_liftO|].
  case_match; [apply triple_throw|]. case_match eqn:Hin.
  - unfold newParamObject. destruct (ignoreUnexportedOf _) as [ig [err|]]; [apply triple_throw|].
    eapply triple_bind; [apply tri_newParamObjectFields; [intros; apply IH|by intros]|].
    intros fs Hfs. apply triple_ret. simpl. split_and!; [done| |done].
    by apply IsIn_struct.
  - repeat (case_match; [apply triple_throw|]). by apply triple_ret.
Qed.

Lemma tri_newParamList ctype c : tri (newParamList ctype c) (λ pl, params_for pl ctype).
Proof.
  unfold newParamList.
  eapply triple_bind; [apply (triple_orPanic _ _ _ (λ sig, FuncSig ctype = Some sig)); auto|].
  intros [[ins outs] var] Hsig. cbv zeta. eapply (triple_bind _ _ _ (λ ps, Forall2 param_for ps (passed ins var))).
  - fold (passed ins var). generalize 0. induction (passed ins var) as [|t ts IH]; intros i; simpl;
      [apply triple_ret; constructor|].
    eapply triple_bind; [apply triple_wrapErr, tri_newParam|]. intros p Hp.
    eapply triple_bind; [apply IH|]. intros ps Hps. apply triple_ret. by constructor.
  - intros ps Hps. apply triple_ret. by exists ins, outs, var.
Qed.
End params.

(** ** Building values and calling functions *)

Section build.
Context `{E : Env} (R : callees).
Hypothesis HC : ∀ n c, tri (callC R n c) (λ _, True).
Hypothesis HD : ∀ d s, tri (callD R d s) (λ _, True).

(** What building a parameter returns: a value that fits, or the zero Value. *)
Definition built_for (t : rtype) (v : value) : Prop := is_valid v = true → slot v t.

Lemma built_slot t v : slot v t → built_for t v.
Proof. intros H _. exact H. Qed.

Lemma built_lookup (m : gmap key value) k :
  values_typed m → built_for (k_t k) (default _noValue (m !! k)).
Proof. intros Hm Hv. destruct (m !! k) eqn:Hk; [by apply Hm in Hk|done]. Qed.

Lemma firstDecorated_typed scs stores ps v :
  Forall scope_typed scs → firstDecorated scs stores ps = Some v → slot v (ps_Type ps).
Proof.
  intros Hs. induction stores as [|s stores IH]; simpl; [done|].
  destruct (scs !! s ≫= _) as [w|] eqn:Hw; [|done]. intros [= ->].
  apply bind_Some in Hw as (sc & Hsc & Hv). rewrite Forall_lookup in Hs.
  exact (st_decorated sc (Hs _ _ Hsc) _ _ Hv).
Qed.

Lemma firstDecoratedGroup_typed scs stores pt v :
  Forall scope_typed scs → firstDecoratedGroup scs stores pt = Some v → slot v (pt_Type pt).
Proof.
  intros Hs. induction stores as [|s stores IH]; simpl; [done|].
  destruct (scs !! s ≫= _) as [w|] eqn:Hw; [|done]. intros [= ->].
  apply bind_Some in Hw as (sc & Hsc & Hv). rewrite Forall_lookup in Hs.
  exact (st_decoratedGroups sc (Hs _ _ Hsc) _ _ Hv).
Qed.

Lemma findProvision_typed scs stores ps v :
  Forall scope_typed scs → findProvision scs stores ps = Cached v → slot v (ps_Type ps).
Proof.
  intros Hs. induction stores as [|s stores IH]; simpl; [done|].
  destruct (scs !! s) as [sc|] eqn:Hsc; [|done].
  destruct (getValue sc _ _) as [w|] eqn:Hw; [|by case_match]. intros [= ->].
  rewrite Forall_lookup in Hs. exact (st_values sc (Hs _ _ Hsc) _ _ Hw).
Qed.

Lemma tri_buildWithDecorators ps c :
  tri (buildWithDecorators R ps c)
      (λ o, match o with Some v => built_for (ps_Type ps) v | None => True end).
Proof.
  unfold buildWithDecorators. tstep. intros stores _. tstep. intros st _.
  destruct (findDecorator st stores ps) as [[d s]|]; [|by apply triple_ret].
  eapply triple_bind; [apply triple_wrapErr, HD|]. intros _ _. tstep. intros sc Hsc.
  apply triple_ret. exact (built_lookup _ (valueKey _ _) (st_decorated sc Hsc)).
Qed.

Lemma tri_callProviders ps ns :
  tri (callProviders R ps ns)
      (λ o, match o with Some v => built_for (ps_Type ps) v | None => True end).
Proof.
  induction ns as [|n ns IH]; simpl; [by apply triple_ret|]. tstep. intros cn _.
  eapply triple_bind; [apply (triple_tryErr _ _ (λ _, True) (λ _, True)); auto|].
  intros [u|err] _; [apply IH|]. case_match; [|apply triple_throw]. apply triple_ret.
  apply built_slot, slot_VZero.
Qed.

Lemma tri_paramSingle_Build ps c : tri (paramSingle_Build R ps c) (built_for (ps_Type ps)).
Proof.
  unfold paramSingle_Build. eapply triple_bind; [apply tri_buildWithDecorators|].
  intros [v|] Hv; [by apply triple_ret|]. tstep. intros stores _. tstep. intros st Hst.
  destruct (firstDecorated _ _ _) as [v|] eqn:Hd.
  { apply triple_ret, built_slot. eapply firstDecorated_typed; [apply Hst|done]. }
  destruct (findProvision _ _ _) as [v|s ns|] eqn:Hp.
  - apply triple_ret, built_slot. eapply findProvision_typed; [apply Hst|done].
  - eapply triple_bind; [apply tri_callProviders|]. intros [v|] Hv'; [by apply triple_ret|].
    tstep. intros sc Hsc. apply triple_ret.
    exact (built_lookup _ (valueKey _ _) (st_values sc Hsc)).
  - case_match; [apply triple_ret, built_slot, slot_VZero|]. tstep. intros. apply triple_throw.
Qed.

Lemma tri_callGroupDecorators pt c : tri (callGroupDecorators R pt c) (λ _, True).
Proof.
  unfold callGroupDecorators.
  eapply triple_bind; [by apply (triple_orPanic _ _ _ (λ _, True))|]. intros el _.
  tstep. intros stores _. apply triple_forEach. intros s _. tstep. intros sc _.
  case_match; [|by apply triple_ret]. tstep. intros dn _. case_decide; [by apply triple_ret|].
  apply triple_wrapErr, HD.
Qed.

Lemma tri_callGroupProviders pt c : tri (callGroupProviders R pt c) (λ _, True).
Proof.
  unfold callGroupProviders.
  eapply triple_bind; [by apply (triple_orPanic _ _ _ (λ _, True))|]. intros el _.
  tstep. intros stores _.
  eapply triple_bind; [apply (triple_forMap _ _ _ (λ _ _, True))|intros; by apply triple_ret].
  intros s _. tstep. intros sc _. eapply triple_bind.
  - apply triple_forEach. intros n _. tstep. intros cn _. apply triple_wrapErr, HC.
  - intros _ _. by apply triple_ret.
Qed.

Lemma tri_getValueGroup name t :
  triple scope_typed (getValueGroup name t) (Forall (λ v, slot v t)).
Proof.
  unfold getValueGroup. eapply triple_bind; [apply triple_getS|]. intros sc Hsc.
  pose proof (groups_typed_lookup (groups sc) (groupKey name t) (st_groups sc Hsc)) as Hg.
  simpl in Hg. revert Hg. generalize (default [] (groups sc !! groupKey name t)). intros items Hg.
  unfold shuffledCopy. eapply triple_bind; [apply triple_getS|]. intros sc' _.
  eapply (triple_bind _ _ _ (λ _, True)); [apply triple_modifyS; [|done]; intros [] []; by split|].
  intros _ _. eapply triple_weaken; [apply (triple_forMap _ _ _ (λ _ v, slot v t))|].
  - intros j _. apply triple_orPanic. intros v Hv. exact (Forall_lookup_1 _ _ _ _ Hg Hv).
  - intros vs. induction 1; by constructor.
Qed.

Lemma tri_paramGroupedSlice_Build pt c :
  Kind (pt_Type pt) = Slice → tri (paramGroupedSlice_Build R pt c) (built_for (pt_Type pt)).
Proof.
  intros Hk. unfold paramGroupedSlice_Build.
  eapply triple_bind; [apply tri_callGroupDecorators|]. intros _ _. tstep. intros stores _.
  tstep. intros st Hst. destruct (firstDecoratedGroup _ _ _) as [v|] eqn:Hd.
  { apply triple_ret, built_slot. eapply firstDecoratedGroup_typed; [apply Hst|done]. }
  eapply (triple_bind _ _ _ (λ _, True)).
  { case_match; [by apply triple_ret|apply tri_callGroupProviders]. }
  intros _ _. destruct (Elem (pt_Type pt)) as [el|] eqn:Hel;
    [|eapply (triple_bind _ _ _ (λ _, False)); [by apply triple_orPanic|done]].
  eapply triple_bind; [apply (triple_orPanic _ _ _ (λ x, x = el)); by intros ? [= <-]|].
  intros _ ->. tstep. intros stores' _.
  eapply triple_bind; [apply (triple_forMap _ _ _ (λ _, Forall (λ v, slot v el)))|].
  - intros s _. eapply triple_bind; [apply tri_zoomScope, tri_getValueGroup|]. intros vs Hvs.
    eapply (triple_bind _ _ _ (λ _, True)); [|intros; by apply triple_ret].
    apply triple_liftO. rewrite checkAssigns_slot; [done|]. by apply Forall2_replicate_r.
  - intros vss Hvss. apply triple_ret, built_slot. exists (pt_Type pt).
    split_and!; [done|apply assignableTo_refl|]. apply storable_slice. split; [done|].
    exists el. split; [done|]. apply Forall_concat, Forall_forall. intros vs Hvs.
    apply list_elem_of_lookup in Hvs as [j Hj].
    by destruct (Forall2_lookup_r _ _ _ _ _ Hvss Hj) as (? & _ & ?).
Qed.

(** The fields of a parameter object are set one after the other. *)
Lemma tri_buildFields t (fields : list (paramObjectField * M value)) fs0 :
  (∀ f b, (f, b) ∈ fields → ∃ sf, Fields t !! pof_FieldIndex f = Some sf ∧
                                  tri b (built_for (f_Type sf))) →
  storable (VStruct t fs0) = true →
  tri (buildFields (VStruct t fs0) fields) (λ v, slot v t).
Proof.
  revert fs0; induction fields as [|[f b] fields IH]; intros fs0 Hf Hs; cbn [buildFields].
  { apply triple_ret. exists t. auto using assignableTo_refl. }
  destruct (Hf f b) as (sf & Hsf & Hb); [set_solver|].
  eapply triple_bind; [exact Hb|]. intros v Hv.
  eapply triple_bind; [apply (triple_liftO _ _ (λ d, ∃ fs', d = VStruct t fs' ∧ storable d = true))|].
  - destruct (is_valid v) eqn:Hvalid.
    + destruct (setField_storable t fs0 _ sf v Hs Hsf (Hv Hvalid)) as [-> ?]. simpl. eauto.
    + destruct v; try done. simpl. by rewrite Hsf.
  - intros d (fs' & -> & Hs'). apply IH; [|done]. intros f' b' ?. apply Hf. set_solver.
Qed.

Lemma tri_param_Build p t c : param_for p t → tri (param_Build R p c) (built_for t).
Proof.
  revert t; induction p as [ps|pt|t' fs IH] using param_ind'; intros t; simpl.
  - intros <-. apply tri_paramSingle_Build.
  - intros [<- Hk]. by apply tri_paramGroupedSlice_Build.
  - intros (-> & Hk & Hfs). unfold paramObject_Build, newStruct.
    eapply triple_weaken; [|apply built_slot]. apply tri_buildFields; [|by apply newStruct_storable].
    intros f b Hin. assert ((f, b) ∈ map (λ f, (f, param_Build R (pof_Param f) c)) fs) as Hfb.
    { apply elem_of_app in Hin as [Hin|Hin]; by apply list_elem_of_filter in Hin as [_ ?]. }
    apply list_elem_of_In, in_map_iff in Hfb as (f' & [= -> <-] & Hf%list_elem_of_In).
    destruct (param_fields_find t fs f Hfs Hf) as (sf & Hsf & Hp).
    rewrite Forall_forall in IH. exists sf. split; [done|]. by apply IH.
Qed.

Lemma tri_BuildList pl ftype c :
  params_for pl ftype →
  tri (BuildList R pl c) (λ args, ∃ ins outs var, FuncSig ftype = Some (ins, outs, var) ∧
    Forall2 built_for (passed ins var) args).
Proof.
  intros (ins & outs & var & Hsig & Hps). eapply triple_weaken.
  - eapply (triple_forMap_along _ _ _ _ _ built_for); [exact Hps|]. intros p t Hp.
    by apply tri_param_Build.
  - intros args Hargs. by exists ins, outs, var.
Qed.
End build.

(** ** Calls *)

Section calls.
Context `{E : Env}.

(** Arguments that fit pass the checks of [reflect]. *)
Lemma checkCall_slot f args ins outs var :
  FuncSig (fv_type f) = Some (ins, outs, var) → Forall2 slot args (passed ins var) →
  checkCall f args = Ret ().
Proof.
  intros Hsig Hargs. unfold checkCall. rewrite Hsig. simpl.
  pose proof (Forall2_length _ _ _ Hargs) as Hlen. unfold passed in Hlen, Hargs.
  set (n := if var then length ins - 1 else length ins) in *.
  assert (n ≤ length ins)%nat as Hn by (destruct var; lia). rewrite length_take_le in Hlen by done.
  rewrite (proj2 (Nat.ltb_ge _ _)) by lia. rewrite (proj2 (Nat.ltb_ge n _)) by lia.
  rewrite andb_false_r. assert (forallb is_valid args = true) as ->.
  { apply forallb_forall. intros v Hv%list_elem_of_In%list_elem_of_lookup. destruct Hv as [i Hi].
    destruct (Forall2_lookup_l _ _ _ _ _ Hargs Hi) as (u & _ & t & Ht & _). by destruct v. }
  simpl. rewrite take_ge, (checkAssigns_slot _ _ _ Hargs) by lia. simpl.
  destruct (ins !! n ≫= Elem); [|done]. by rewrite drop_ge by lia.
Qed.

(** Without the zero Value among them they fit, otherwise the call is refused. *)
Lemma checkCall_built f args ins outs var :
  FuncSig (fv_type f) = Some (ins, outs, var) → Forall2 built_for (passed ins var) args →
  checkCall f args = Ret () ∧ Forall2 slot args (passed ins var) ∨
  ∃ msg, checkCall f args = Panic_ (PRuntime msg).
Proof.
  intros Hsig Hargs. destruct (forallb is_valid args) eqn:Hv.
  - left. assert (Forall2 slot args (passed ins var)); [|by eauto using checkCall_slot].
    rewrite forallb_forall in Hv. clear Hsig.
    induction Hargs as [|t v ts vs Htv _ IH]; [constructor|].
    constructor; [apply Htv, Hv; by left|]. apply IH. intros x ?. apply Hv. by right.
  - right. unfold checkCall. rewrite Hsig. simpl. rewrite Hv. destruct (Nat.ltb _ _); [eauto|]. destruct (negb var && _); eauto.
Qed.

Lemma tri_invoke_with inv who f args :
  (∃ ins outs var, FuncSig (fv_type f) = Some (ins, outs, var) ∧
     Forall2 built_for (passed ins var) args) →
  tri (invoke_with inv who f args) (λ vs, ∃ ins outs var,
    FuncSig (fv_type f) = Some (ins, outs, var) ∧ Forall2 typed vs outs).
Proof.
  intros (ins & outs & var & Hsig & Hargs).
  assert (tri (invoke_with inv who f args) (λ _, True)) as Htri.
  { destruct inv; simpl.
    - unfold defaultInvoker.
      destruct (checkCall_built f args ins outs var Hsig Hargs) as [[-> Hfit]|[msg ->]];
        [|eapply (triple_bind _ _ _ (λ _, False)); [by apply triple_liftO|done]].
      eapply (triple_bind _ _ _ (λ _, True)); [by apply triple_liftO|]. intros _ _. tstep. intros st _.
      eapply triple_bind; [apply tri_logEvent; by exists ins, outs, var|]. intros _ _.
      destruct (env_call _ _ _); [by apply triple_ret|by apply triple_liftO].
    - unfold dryInvoker. rewrite Hsig.
      eapply triple_bind; [by apply (triple_orPanic _ _ _ (λ _, True))|]. intros [[? ?] ?] _.
      by apply triple_ret. }
  intros st Hst. destruct (Htri st Hst) as [HI Hr]. split; [done|].
  destruct (invoke_with inv who f args st) as [[vs| |p|] st'] eqn:Hrun; try done. simpl.
  exists ins, outs, var. split; [done|].
  by destruct (invoke_with_Ret inv who f args st vs st' ins outs var Hsig Hrun) as (? & _).
Qed.

Lemma tri_runCallback ev : event_typed ev → tri (runCallback ev) (λ _, True).
Proof.
  intros Hev. unfold runCallback. tstep. intros st _. eapply triple_bind; [by apply tri_logEvent|].
  intros _ _. destruct (env_callback _ _) as [[]|]; [by apply triple_liftO|by apply triple_ret].
Qed.

Lemma tri_callBefore cb loc : tri (callBefore cb loc) (λ _, True).
Proof.
  destruct cb; simpl; [|by apply triple_ret].
  eapply triple_bind; [by apply (triple_orPanic _ _ _ (λ _, True))|]. intros name _. by apply tri_runCallback.
Qed.

Lemma tri_clockNow c : tri (clockNow c) (λ _, True).
Proof. unfold clockNow. tstep. intros sc _. tstep. intros st _. by apply triple_ret. Qed.

Lemma tri_deferCallback cb loc c m : tri m (λ _, True) → tri (deferCallback cb loc c m) (λ _, True).
Proof.
  intros Hm. destruct cb as [cb|]; simpl; [|done].
  eapply triple_bind; [apply tri_clockNow|]. intros start _.
  eapply triple_observe; [exact Hm|]. intros r Hr.
  assert (tri (name ← orPanic nilDeref (qualifiedName loc);
               now ← clockNow c;
               _ ← runCallback (EvCallback cb name (errOf r) (Clock.Since now start));
               liftO r) (λ _, True)) as H.
  { eapply triple_bind; [by apply (triple_orPanic _ _ _ (λ _, True))|]. intros name _.
    eapply triple_bind; [apply tri_clockNow|]. intros now _.
    eapply triple_bind; [by apply tri_runCallback|]. intros _ _. by apply triple_liftO. }
  destruct r; [exact H..|by apply triple_liftO].
Qed.

Lemma tri_deferRecover b loc m : tri m (λ _, True) → tri (deferRecover b loc m) (λ _, True).
Proof.
  intros Hm. eapply triple_observe; [exact Hm|]. intros r Hr.
  destruct r; try (by apply triple_liftO). destruct b; [apply triple_throw|by apply triple_liftO].
Qed.

Lemma tri_shallowCheck s pl : tri (shallowCheckDependencies s pl) (λ _, True).
Proof.
  unfold shallowCheckDependencies. tstep. intros sc _. tstep. intros st _. cbv zeta.
  case_match; [by apply triple_ret|apply triple_throw].
Qed.

Lemma tri_storeResults n cn results :
  ctor_typed cn →
  (∃ ins outs var, FuncSig (fv_type (cn_ctor cn)) = Some (ins, outs, var) ∧ Forall2 typed results outs) →
  tri (storeResults n cn results) (λ _, True).
Proof.
  intros (_ & _ & opts & Hok & Hnew) (ins & outs & var & Hsig & Hty). unfold storeResults.
  pose proof (newResultList_table _ _ _ _ _ _ Hsig Hnew) as Htab.
  destruct (ExtractList_typed staging_typed opts outs (cn_resultList cn) false results Hok Htab Hty
              ltac:(done) newStagingContainerWriter) as [Hst Hr].
  { split; intros k ?; unfold newStagingContainerWriter; simpl; by rewrite lookup_empty. }
  destruct (ExtractList _ _ _ _) as [[u|err|p|] receiver]; simpl in Hst, Hr;
    [|apply triple_throw|by apply triple_liftO..].
  eapply triple_bind; [apply tri_zoomScope, Commit_typed; [apply _|done]|]. intros _ _. apply tri_modCtor.
Qed.

Section callees.
Context (R : callees).
Hypothesis HC : ∀ n c, tri (callC R n c) (λ _, True).
Hypothesis HD : ∀ d s, tri (callD R d s) (λ _, True).

Lemma tri_constructorNode_Call n c : tri (constructorNode_Call R n c) (λ _, True).
Proof.
  unfold constructorNode_Call. tstep. intros cn Hcn. case_match; [by apply triple_ret|].
  eapply triple_bind; [apply triple_wrapErr, tri_shallowCheck|]. intros _ _.
  eapply triple_bind; [apply triple_wrapErr, tri_BuildList; [done|done|apply Hcn]|]. intros args Hargs.
  eapply triple_bind; [apply tri_callBefore|]. intros _ _. tstep. intros ns _.
  apply tri_deferCallback, tri_deferRecover. unfold constructorBody. tstep. intros sc _.
  eapply triple_bind; [by apply tri_invoke_with|]. intros results Hres. by apply tri_storeResults.
Qed.

Lemma tri_decoratorNode_Call d s : tri (decoratorNode_Call R d s) (λ _, True).
Proof.
  unfold decoratorNode_Call. tstep. intros dn Hdn. case_decide; [by apply triple_ret|].
  tstep. intros _ _.
  eapply triple_bind; [apply triple_wrapErr, tri_shallowCheck|]. intros _ _.
  eapply triple_bind; [apply triple_wrapErr, tri_BuildList; [done|done|apply Hdn]|]. intros args Hargs.
  eapply triple_bind; [apply tri_callBefore|]. intros _ _. tstep. intros ns _.
  apply tri_deferCallback, tri_deferRecover. unfold decoratorBody. tstep. intros sc _.
  eapply triple_bind; [by apply tri_invoke_with|]. intros results (ins & outs & var & Hsig & Hty).
  destruct Hdn as (_ & _ & Hnew & Hu).
  eapply triple_bind; [apply tri_zoomScope|].
  - eapply (ExtractList_typed scope_typed (mkResultOptions "" "" []));
      [by intros i ? ? ?%elem_of_nil|by eapply newResultList_table|done|done].
  - intros _ _. apply tri_modDcor.
Qed.
End callees.

Lemma tri_knot fuel :
  (∀ n c, tri (callC (knot fuel) n c) (λ _, True)) ∧ (∀ d s, tri (callD (knot fuel) d s) (λ _, True)).
Proof.
  induction fuel as [|fuel [IHC IHD]]; simpl.
  - split; intros; by apply triple_liftO.
  - split; intros; [by apply tri_constructorNode_Call|by apply tri_decoratorNode_Call].
Qed.
End calls.

(** ** Registration *)

Section registration.
Context `{E : Env}.

Lemma validateAs_ok As : validateAs As = Ret () → as_ok As.
Proof.
  induction As as [|i As IH]; simpl; [by intros _ ? ? ? ?%elem_of_nil|].
  intros H j t el [->|Hj]%elem_of_cons Ht Hel.
  - rewrite Ht in H. case_decide; [done|]. rewrite Hel in H. simpl in H. by case_decide.
  - destruct (TypeOf i) as [t'|]; [|done]. case_decide; [done|].
    apply outcome_bind_Ret in H as (u & _ & H). case_decide; [done|]. by apply (IH H j t).
Qed.

Lemma Validate_as_ok o : Validate o = Ret () → as_ok (po_As o).
Proof. unfold Validate. repeat (case_match; [done|]). apply validateAs_ok. Qed.

Lemma location_known loc (f : funcval) :
  all_located → is_Some (match loc with Some l => Some l | None => InspectFunc f end).
Proof.
  intros Hall. destruct loc; [done|]. unfold InspectFunc, InspectFuncPC.
  destruct (Hall (fv_ptr f)) as [[[name file] l] ->]. by destruct (splitFuncName name).
Qed.

Lemma tri_newConstructorNode ctor s origS opts :
  as_ok (co_ResultAs opts) → tri (newConstructorNode ctor s origS opts) (λ _, True).
Proof.
  intros Hok. unfold newConstructorNode.
  eapply triple_bind; [apply tri_newParamList|]. intros params Hps.
  eapply triple_bind; [apply triple_calm; [apply newResultList_calm|intros rl Hrl; exact Hrl]|]. intros results Hrl. cbv zeta.
  eapply triple_bind; [apply tri_newOrders|]. intros o _. tstep. intros st _.
  eapply (triple_bind _ _ _ (λ _, True)).
  - apply triple_modifyS; [|done]. intros st0 []. split; try done. simpl.
    apply Forall_app. split; [done|]. constructor; [|constructor].
    split_and!; [exact Hps|apply location_known|]. eexists. by split; [|exact Hrl].
  - intros _ _. eapply triple_bind; [apply tri_newGraphNode|]. intros _ _. by apply triple_ret.
Qed.

Lemma tri_checkAcyclic s : tri (checkAcyclic s) (λ _, True).
Proof.
  unfold checkAcyclic. tstep. intros st _. destruct (IsAcyclic _) as [[[] ?]| |];
    eauto with triples.
Qed.

Lemma tri_verifyScopes old scs : tri (verifyScopes old scs) (λ _, True).
Proof.
  apply triple_forEach. intros s _. tstep. intros _ _. tstep. intros sc _.
  case_match; [by apply triple_ret|]. eapply triple_bind; [apply tri_checkAcyclic|].
  intros [cycle|] _; [|eauto with triples].
  eapply triple_bind; [apply triple_forEach; intros; eauto with triples|]. intros _ _.
  tstep. intros st _. apply triple_throw.
Qed.

Lemma tri_provideBody ctor opts s s0 scs :
  as_ok (po_As opts) → tri (provideBody ctor opts s s0 scs) (λ _, True).
Proof.
  intros Hok. unfold provideBody. eapply triple_bind; [by apply tri_newConstructorNode|]. intros n _.
  tstep. intros cn _. tstep. intros st _.
  eapply triple_bind; [by apply (triple_calm _ _ (λ _, True)); [apply findAndValidateResults_calm|]|].
  intros keys _.
  case_decide; [apply triple_throw|]. tstep. intros sc _. cbv zeta.
  eapply triple_bind; [apply triple_forEach; intros; eauto with triples|]. intros _ _.
  eapply triple_bind; [apply tri_verifyScopes|]. intros _ _. tstep. intros _ _.
  case_match; [eauto with triples|by apply triple_ret].
Qed.

Lemma tri_Provide s constructor opts : tri (Provide s constructor opts) (λ _, True).
Proof.
  unfold Provide. case_match; [|apply triple_throw]. destruct constructor as [|t'|ctor|t' repr];
    try apply triple_throw. case_decide; [apply triple_throw|]. cbv zeta.
  eapply triple_bind; [apply triple_calm; [apply Validate_calm|intros u Hu; exact Hu]|]. intros [] Hv.
  apply triple_wrapErr. unfold provide. tstep. intros st _. cbv zeta.
  eapply triple_bind; [apply triple_forEach; intros; eauto with triples|]. intros _ _.
  eapply triple_observe; [by apply tri_provideBody, Validate_as_ok|].
  intros [u|err|p|] Hr; try (by apply triple_liftO).
  eapply triple_bind; [apply triple_forEach; intros; eauto with triples|]. intros _ _.
  apply triple_throw.
Qed.

(** A decorator that does not flatten what it returns. *)
Definition decorator_plain (decorator : iface) : bool :=
  match decorator with
  | IFunc f => match newResultList (fv_type f) (mkResultOptions "" "" []) with
               | Ret rl => unflattened (resultList_ rl)
               | _ => true
               end
  | _ => true
  end.

Lemma tri_Decorate s decorator opts :
  decorator_plain decorator = true → tri (Decorate s decorator opts) (λ _, True).
Proof.
  intros Hplain. unfold Decorate. cbv zeta. eapply (triple_bind _ _ _ (λ _, True)).
  - unfold newDecoratorNode. destruct decorator as [|t|f|t r]; try apply triple_panic.
    eapply triple_bind; [apply tri_newParamList|]. intros pl Hpl.
    eapply triple_bind; [apply triple_calm; [apply newResultList_calm|intros rl Hrl; exact Hrl]|]. intros rl Hrl.
    tstep. intros st _. eapply (triple_bind _ _ _ (λ _, True)); [|intros; by apply triple_ret].
    apply triple_modifyS; [|done]. intros st0 []. split; try done. simpl.
    apply Forall_app. split; [done|]. constructor; [|constructor].
    split_and!; [exact Hpl|exact (location_known None f)|exact Hrl|]. simpl in Hplain. by rewrite Hrl in Hplain.
  - intros d _. tstep. intros dn _.
    eapply triple_bind; [by apply (triple_calm _ _ (λ _, True)); [apply findResultKeys_calm|]|].
    intros keys _.
    eapply (triple_bind _ _ _ (λ _, True)); [|intros; case_match; eauto with triples].
    apply triple_forEach. intros k _. tstep. intros sc _.
    case_match; [apply triple_throw|eauto with triples].
Qed.

Lemma tri_verifyAcyclic s : tri (verifyAcyclic s) (λ _, True).
Proof.
  unfold verifyAcyclic. tstep. intros sc _. case_match; [by apply triple_ret|].
  eapply triple_bind; [apply tri_checkAcyclic|]. intros [cycle|] _; [|eauto with triples].
  tstep. intros st _. apply triple_throw.
Qed.

Lemma tri_Invoke fuel s function opts : tri (Invoke fuel s function opts) (λ _, True).
Proof.
  destruct (tri_knot fuel) as [HC HD]. unfold Invoke. case_match eqn:Hty; [|apply triple_throw].
  destruct function as [|t'|f|t' r']; try apply triple_throw. simplify_eq/=.
  case_decide; [apply triple_throw|].
  eapply triple_bind; [apply tri_newParamList|]. intros pl Hpl.
  eapply triple_bind; [apply triple_wrapErr, tri_shallowCheck|]. intros _ _.
  eapply triple_bind; [apply tri_verifyAcyclic|].
  intros _ _. eapply triple_bind; [exact (triple_wrapErr _ _ _ _ (tri_BuildList _ HC HD _ _ s Hpl))|].
  intros args Hargs.
  tstep. intros sc _. apply tri_deferRecover. unfold invokeBody. cbv zeta.
  eapply (triple_bind _ _ _ (λ _, True)); [case_match; eauto with triples|]. intros _ _.
  tstep. intros sc' _. eapply triple_bind; [by apply tri_invoke_with|]. intros vs _.
  case_match; [|by apply triple_ret].
  eapply triple_bind; [by apply (triple_orPanic _ _ _ (λ _, True))|]. intros t _.
  repeat case_match; eauto with triples.
Qed.

Lemma tri_newScope : tri newScope (λ _, True).
Proof.
  unfold newScope. tstep. intros st _. eapply (triple_bind _ _ _ (λ _, True));
    [|intros; by apply triple_ret].
  apply triple_modifyS; [|done]. intros st0 []. split; try done. simpl.
  apply Forall_app. split; [done|]. constructor; [|constructor].
  split; intros k v; simpl; by rewrite lookup_empty.
Qed.

Lemma tri_New opts : tri (New opts) (λ _, True).
Proof.
  unfold New. eapply triple_bind; [apply tri_newScope|]. intros s _.
  eapply triple_bind; [apply triple_forEach|intros; by apply triple_ret].
  intros o _. apply tri_modScope_aside. by intros []; destruct o.
Qed.

Lemma tri_Scope_Scope s name : tri (Scope_Scope s name) (λ _, True).
Proof.
  unfold Scope_Scope. eapply triple_bind; [apply tri_newScope|]. intros child _.
  tstep. intros par _. tstep. intros _ _. eapply (triple_bind _ _ _ (λ _, True)).
  - apply triple_forEach. intros node _. tstep. intros _ _. destruct node; [|by apply triple_ret].
    unfold CopyOrder. tstep. intros cn _. apply triple_modifyS; [|done]. by intros st [].
  - intros _ _. tstep. intros _ _. by apply triple_ret.
Qed.

(** A call on a container that does not register a flattening decorator. *)
Definition op_plain (o : op) : bool :=
  match o with OpDecorate _ d _ => decorator_plain d | _ => true end.

Lemma tri_run_op o : op_plain o = true → tri (run_op o) (λ _, True).
Proof.
  intros Hp. destruct o as [opts|s nm|s c opts|s d opts|fuel s f opts]; simpl in *.
  - eapply triple_bind; [apply tri_New|]. intros; by apply triple_ret.
  - eapply triple_bind; [apply tri_Scope_Scope|]. intros; by apply triple_ret.
  - apply tri_Provide.
  - by apply tri_Decorate.
  - apply tri_Invoke.
Qed.

Lemma run_ops_typed os st :
  forallb op_plain os = true → store_typed st → store_typed (run_ops os st).
Proof.
  revert st; induction os as [|o os IH]; intros st Hos Hst; [done|]. simpl in Hos.
  apply andb_true_iff in Hos as [Ho Hos]. by apply IH, tri_run_op.
Qed.

Lemma emptyStore_typed : store_typed emptyStore.
Proof. by split; constructor. Qed.
End registration.

(** C8: Type soundness.  Whatever calls a program makes on containers, as long as no
    decorator it registers flattens a value group: every value, decorated value
    and member of a value group in a scope fits the type of its key; every call of
    a constructor, a decorator or an invoked function got one argument for each of
    its parameters (the variadic one apart) that fits its type, down to the fields
    of parameter objects and the elements of value groups; and no further call of
    the program fails a type check of [reflect] behind [Set], [Append] and
    [Call]. *)
Theorem type_soundness `{E : Env} os :
  forallb op_plain os = true →
  let st := run_ops os emptyStore in
  (∀ s sc, st_scopes st !! s = Some sc →
     (∀ k v, values sc !! k = Some v ∨ decoratedValues sc !! k = Some v ∨
             decoratedGroups sc !! k = Some v → slot v (k_t k)) ∧
     (∀ k vs v, groups sc !! k = Some vs → v ∈ vs → slot v (k_t k))) ∧
  (∀ who f args, EvCall who f args ∈ st_trace st →
     ∃ ins outs var, FuncSig (fv_type f) = Some (ins, outs, var) ∧
       Forall2 slot args (passed ins var)) ∧
  (∀ o rop t u, op_plain o = true → (run_op o st).1 ≠ Panic_ (PIllTyped rop t u)).
Proof.
  intros Hos st. pose proof (run_ops_typed os emptyStore Hos emptyStore_typed) as Hst.
  fold st in Hst. split_and!.
  - intros s sc Hsc. destruct Hst as [Hs _ _ _]. rewrite Forall_lookup in Hs.
    destruct (Hs s sc Hsc) as [H1 H2 H3 H4]. split.
    + intros k v [?|[?|?]]; [by apply H1|by apply H2|by apply H4].
    + intros k vs v Hk Hv. specialize (H3 k vs Hk). rewrite Forall_forall in H3. by apply H3.
  - intros who f args Hev. destruct Hst as [_ _ _ Ht]. rewrite Forall_forall in Ht. exact (Ht _ Hev).
  - intros o rop t u Ho Hp. destruct (tri_run_op o Ho st Hst) as [_ Hr]. by rewrite Hp in Hr.
Qed.

(** ** Examples *)

Section typed_example.
#[local] Existing Instance plainEnv.

(** Two members of a value group, a decorator of [A], and a consumer of the
    group. *)
Definition typedOps : list op :=
  [OpNew []; OpProvide 0 (fn 51 1) []; OpProvide 0 (fn 40 2) []; OpDecorate 0 (fn 59 3) [];
   OpProvide 0 (fn 41 4) []; OpProvide 0 (fn 48 7) [Group_ "g,flatten"];
   OpInvoke 6 0 (fn 44 5) []; OpInvoke 6 0 (fn 50 6) []].

Lemma type_soundness_witness :
  length (st_trace (run_ops typedOps emptyStore)) = 7 ∧
  ∀ who f args, EvCall who f args ∈ st_trace (run_ops typedOps emptyStore) →
    ∃ ins outs var, FuncSig (fv_type f) = Some (ins, outs, var) ∧
      Forall2 slot args (passed ins var).
Proof.
  split; [vm_compute; reflexivity|].
  apply (type_soundness typedOps). vm_compute. reflexivity.
Defined.
End typed_example.
