(* ===== verification/Progress.v ===== *)
(** * A complete container serves every Invoke (param.go, constructor.go, decorate.go,
    invoke.go)

    When every registered constructor and decorator finds its required parameters, the
    chains of dependencies are bounded and the user's functions neither panic nor
    return errors, then [Invoke] succeeds: no parameter is ever built as the zero Value,
    no check fails on the way and no constructor or decorator is skipped. *)

From S2P Require Import Prelude Digraph GoLib GoTypes DigReflect Errors Group InOut.
From S2P Require Import Values DotTypes Result Store Options Scenario Param Call ResultProofs.
From S2P Require Import Deps Building ParamProofs CallProofs Provide Decorate ProvideProofs.
From S2P Require Import Invoke Invariants Reachable Registering CallLog Offers Typed TypeSound.

Open Scope string_scope.
Open Scope list_scope.

(** ** The setting *)

(** Some scope has [n] among its providers. *)
Definition in_use (st : store) (n : nat) : Prop :=
  ∃ s sc k, st_scopes st !! s = Some sc ∧ n ∈ getProviders sc k.

(** The required parameters have providers in scope [c] or above. *)
Definition supplied (st : store) (c : nat) (pl : paramList) : Prop :=
  ∀ p ps, p ∈ pl_Params pl → ps ∈ required p →
          getAllValueProviders (st_scopes st) c (ps_Name ps) (ps_Type ps) ≠ [].

(** Some scope has [d] among its decorators. *)
Definition decorating (st : store) (d : nat) : Prop :=
  ∃ s sc k, st_scopes st !! s = Some sc ∧ decorators sc !! k = Some d.

(** Every constructor and decorator that can be asked for finds what it needs. *)
Definition complete (st : store) : Prop :=
  (∀ n cn, in_use st n → st_ctors st !! n = Some cn →
           supplied st (cn_origS cn) (cn_paramList cn)) ∧
  (∀ d dn, decorating st d → st_dcors st !! d = Some dn → supplied st (dn_s dn) (dn_params dn)).

(** No value group that a decorator returns has an empty name. *)
Definition decorations_named (st : store) : Prop :=
  ∀ d dn g t fl As, st_dcors st !! d = Some dn →
    resultGrouped g t fl As ∈ result_leaves (resultList_ (dn_results dn)) → g ≠ "".

(** The function [f] of the user neither panics nor returns an error. *)
Definition well_behaved `{Env} (f : funcval) : Prop :=
  ∀ tr args, ∃ vs, env_call tr f args = Returned vs ∧ Forall (λ v, value_error v = None) vs.

(** So do the functions of all constructors and decorators in use, and no callback
    panics. *)
Definition all_behave `{Env} (st : store) : Prop :=
  (∀ tr ev, env_callback tr ev = None) ∧
  (∀ n cn, in_use st n → st_ctors st !! n = Some cn → well_behaved (cn_ctor cn)) ∧
  (∀ d dn, decorating st d → st_dcors st !! d = Some dn → well_behaved (dn_dcor dn)).

Record served `{Env} (K : store) : Prop := {
  sv_wf : wf_store K;
  sv_offer : providers_offer K;
  sv_named : decorations_named K;
  sv_complete : complete K;
  sv_behaved : all_behave K
}.

(** The states of a run that builds parameters in [K]. *)
Record good `{Env} (K st : store) : Prop := {
  good_skel : skeleton st = skeleton K;
  good_log : refines st;
  good_typed : store_typed st
}.

(** What building does to the store: a decorator that runs keeps running. *)
Record inner (a b : store) : Prop := {
  inner_built : built a b;
  inner_stack : ∀ d, dstate a d = Some decoratorOnStack → dstate b d = Some decoratorOnStack
}.

#[export] Instance inner_preorder : PreOrder inner.
Proof. split; [by split|]. intros a b c [? ?] [? ?]. split; [by etrans|auto]. Qed.

Lemma eff_inner `{E : Env} D a b : eff D a b → inner a b.
Proof. intros He. split; [by eapply eff_built|apply He]. Qed.

Section progress.
Context `{E : Env} (K : store) (HK : served K).

(** [m] returns from [st]. *)
Definition wins {A} (m : M A) (st : store) (Q : A → store → Prop) : Prop :=
  ∃ a st', m st = (Ret a, st') ∧ good K st' ∧ inner st st' ∧ Q a st'.

Lemma wins_ret {A} (a : A) st (Q : A → store → Prop) : good K st → Q a st → wins (mret a) st Q.
Proof. intros HG HQ. exists a, st. split_and!; [done..|reflexivity|done]. Qed.

Lemma wins_bind {A B} (m : M A) (f : A → M B) st Q (P : B → store → Prop) :
  wins m st Q → (∀ a st', good K st' → inner st st' → Q a st' → wins (f a) st' P) →
  wins (m ≫= f) st P.
Proof.
  intros (a & s1 & Hm & HG & Hb & HQ) Hf.
  destruct (Hf a s1 HG Hb HQ) as (b & s2 & Hf' & HG' & Hb' & HP).
  exists b, s2. rewrite (bind_step _ _ _ _ _ Hm). split_and!; [done|done|by etrans|done].
Qed.

(** A step that leaves the state alone. *)
Lemma wins_step {A B} (m : M A) (f : A → M B) a st (P : B → store → Prop) :
  m st = (Ret a, st) → wins (f a) st P → wins (m ≫= f) st P.
Proof. intros Hm. unfold wins. by rewrite (bind_step _ _ _ _ _ Hm). Qed.

Lemma wins_weaken {A} (m : M A) st (Q P : A → store → Prop) :
  wins m st Q → (∀ a st', good K st' → Q a st' → P a st') → wins m st P.
Proof. intros (a & s1 & ? & ? & ? & ?) HP. exists a, s1. split_and!; auto. Qed.

Lemma wins_wrapErr {A} g (m : M A) st Q : wins m st Q → wins (wrapErr g m) st Q.
Proof. intros (a & s1 & Hm & H). exists a, s1. unfold wrapErr. by rewrite Hm. Qed.

Lemma wins_tryErr {A} (m : M A) st (Q : A → store → Prop) :
  wins m st Q → wins (tryErr m) st (λ r s, ∃ a, r = inl a ∧ Q a s).
Proof.
  intros (a & s1 & Hm & HG & Hb & HQ). exists (inl a), s1. unfold tryErr. rewrite Hm.
  split_and!; [done..|]. by exists a.
Qed.

(** Loops, with what stays true of the states along them. *)
Section loops.
Context (P : store → Prop) (P_stable : ∀ a b, P a → inner a b → P b).

Lemma wins_forEach {A} (l : list A) f st :
  good K st → P st → (∀ x s, x ∈ l → good K s → P s → wins (f x) s (λ _ _, True)) →
  wins (forEach l f) st (λ _ _, True).
Proof.
  revert st; induction l as [|x l IH]; intros st HG HP Hf; [by apply wins_ret|].
  rewrite forEach_cons. eapply wins_bind; [apply Hf; [set_solver|done|done]|].
  intros _ s1 HG1 Hi _. apply IH; [done|by eapply P_stable|]. intros. apply Hf; set_solver.
Qed.

Lemma wins_forMap {A B} (l : list A) (f : A → M B) st (Q : B → Prop) :
  good K st → P st → (∀ x s, x ∈ l → good K s → P s → wins (f x) s (λ b _, Q b)) →
  wins (forMap l f) st (λ bs _, Forall Q bs).
Proof.
  revert st; induction l as [|x l IH]; intros st HG HP Hf; [by apply wins_ret|].
  rewrite forMap_cons. eapply wins_bind; [apply Hf; [set_solver|done|done]|]. intros b s1 HG1 Hi Hb.
  eapply wins_bind; [apply IH; [done|by eapply P_stable|]; intros; apply Hf; set_solver|].
  intros bs s2 HG2 _ Hbs. apply wins_ret; [done|by constructor].
Qed.
End loops.

(** What is known of the types of the result. *)
Lemma wins_typed {A} (m : M A) st (Q : A → store → Prop) (T : A → Prop) :
  good K st → tri m T → wins m st Q → wins m st (λ a s, Q a s ∧ T a).
Proof.
  intros HG Ht (a & s1 & Hm & HG1 & Hb & HQ). exists a, s1. split_and!; try done.
  destruct (Ht st (good_typed _ _ HG)) as [_ H]. by rewrite Hm in H.
Qed.

(** *** What good states share with [K] *)

Section facts.
Context (st : store) (HG : good K st).

Lemma good_wf : wf_store st.
Proof. eapply wf_skel; [apply HG|apply HK]. Qed.

Lemma good_ancestors c : ancestors (st_scopes st) c = ancestors (st_scopes K) c.
Proof.
  rewrite <-(ancestors_skel (st_scopes st)), <-(ancestors_skel (st_scopes K)).
  exact (f_equal (λ x, ancestors (st_scopes x) c) (good_skel _ _ HG)).
Qed.

Lemma good_key_deps k soft s : key_deps (st_scopes st) k soft s = key_deps (st_scopes K) k soft s.
Proof.
  rewrite <-(key_deps_skel (st_scopes st)), <-(key_deps_skel (st_scopes K)).
  exact (f_equal (λ x, key_deps (st_scopes x) k soft s) (good_skel _ _ HG)).
Qed.

Lemma good_scope s sc : st_scopes st !! s = Some sc →
  ∃ sk, st_scopes K !! s = Some sk ∧ ∀ k, getProviders sc k = getProviders sk k.
Proof.
  intros Hs. destruct (scope_same st K s sc (good_skel _ _ HG) Hs) as (sk & Hk & Heq).
  exists sk. split; [done|]. intros k. unfold getProviders.
  by injection Heq as _ -> _ _ _ _ _ _ _ _ _.
Qed.

Lemma good_in_use s sc k n : st_scopes st !! s = Some sc → n ∈ getProviders sc k → in_use K n.
Proof.
  intros Hs Hn. destruct (good_scope s sc Hs) as (sk & Hk & Hp). exists s, sk, k. by rewrite <-Hp.
Qed.

Lemma good_ctor n : in_use K n → ∃ cn, st_ctors st !! n = Some cn.
Proof.
  intros (s & sc & k & Hs & Hn). apply lookup_lt_is_Some.
  rewrite (ctors_length _ _ (good_skel _ _ HG)). by eapply (wf_providers _ (sv_wf _ HK)).
Qed.

Lemma good_decorating s sc k d : st_scopes st !! s = Some sc → decorators sc !! k = Some d → decorating K d.
Proof.
  intros Hs Hd. destruct (scope_same st K s sc (good_skel _ _ HG) Hs) as (sk & Hk & Heq).
  exists s, sk, k. split; [done|]. rewrite <-Hd. exact (f_equal (λ x, decorators x !! k) Heq).
Qed.

Lemma good_dcor_typed d dn : st_dcors st !! d = Some dn → dcor_typed dn.
Proof. exact (Forall_lookup_1 _ _ _ _ (sty_dcors _ (good_typed _ _ HG))). Qed.

Lemma good_ctor_typed n cn : st_ctors st !! n = Some cn → ctor_typed cn.
Proof. exact (Forall_lookup_1 _ _ _ _ (sty_ctors _ (good_typed _ _ HG))). Qed.

(** A provider that was called left a value. *)
Lemma good_value s sc k n :
  st_scopes st !! s = Some sc → k_group k = "" → n ∈ getProviders sc k → called st n = true →
  is_Some (values sc !! k).
Proof.
  intros Hs Hg Hn Hc. destruct (good_scope s sc Hs) as (sk & Hk & Hp). rewrite Hp in Hn.
  pose proof (sv_offer _ HK s sk k n Hk Hg Hn) as Ho.
  destruct (offers_keeps K st s k n (keeps_skel _ _ (good_skel _ _ HG)) Ho) as (cn & Hcn & <- & Hv).
  destruct (good_ctor_typed n cn Hcn) as ((ins & outs & var & Hsig & _) & _ & opts & _ & Hnew).
  unfold called in Hc. rewrite Hcn in Hc.
  eapply (called_values st n cn opts); eauto. apply HG.
Qed.

(** A decorator that was called left a value. *)
Lemma good_decorated s sc k d :
  st_scopes st !! s = Some sc → k_group k = "" → decorators sc !! k = Some d →
  dstate st d = Some decoratorCalled → is_Some (decoratedValues sc !! k).
Proof.
  intros Hs Hg Hd Hc. destruct (wf_decorators _ good_wf s sc k d Hs Hd) as (dn & Hdn & <- & r & Hr & Hk).
  destruct (dcor_same st K d dn (good_skel _ _ HG) Hdn) as (dk & Hdk & Heq).
  assert (dn_results dn = dn_results dk) as Hrs by exact (f_equal dn_results (eq_sym Heq)).
  destruct r as [n t As|g t fl As| |]; simpl in Hk; try done.
  - subst k. destruct (good_dcor_typed d dn Hdn) as ((ins & outs & var & Hsig & _) & _ & Hnew & _).
    unfold dstate in Hc. rewrite Hdn in Hc. injection Hc as Hc.
    apply (called_decorated st d dn (mkResultOptions "" "" []) sc n t As);
      [apply HG|done|done|by exists ins, outs, var|done..].
  - destruct Hk as [el ->]. simpl in Hg. subst g. exfalso. rewrite Hrs in Hr.
    by apply (sv_named _ HK d dk "" t fl As Hdk Hr).
Qed.
End facts.

Lemma getScope_at s sc st : st_scopes st !! s = Some sc → getScope s st = (Ret sc, st).
Proof. intros Hs. unfold getScope, mbind, SM_bind. simpl. by rewrite Hs. Qed.
Lemma getCtor_at n cn st : st_ctors st !! n = Some cn → getCtor n st = (Ret cn, st).
Proof. intros Hs. unfold getCtor, mbind, SM_bind. simpl. by rewrite Hs. Qed.

Lemma getDcor_at d dn st : st_dcors st !! d = Some dn → getDcor d st = (Ret dn, st).
Proof. intros Hs. unfold getDcor, mbind, SM_bind. simpl. by rewrite Hs. Qed.

(** *** Building parameters, given the nested calls *)

(** Calling a node of [D] succeeds. *)
Definition calls_win (R : callees) (D : node → Prop) : Prop :=
  (∀ st n cn, good K st → in_use K n → D (inl n) → st_ctors st !! n = Some cn →
     wins (callC R n (cn_origS cn)) st (λ _ s, called s n = true)) ∧
  (∀ st d dn, good K st → decorating K d → D (inr d) → st_dcors st !! d = Some dn →
     dn_state dn ≠ decoratorOnStack →
     wins (callD R d (dn_s dn)) st (λ _ s, dstate s d = Some decoratorCalled)).

(** The parameters of a node are built while the decorators of [O] run. *)
Definition running (O : nat → Prop) (st : store) : Prop :=
  ∀ d, O d → dstate st d = Some decoratorOnStack.

Lemma running_stable O a b : running O a → inner a b → running O b.
Proof. intros Ha Hi d Hd. by apply Hi, Ha. Qed.

Section build.
Context (R : callees) (D : node → Prop) (HR : calls_win R D) (O : nat → Prop).
Context (TC : ∀ n c, tri (callC R n c) (λ _, True)) (TD : ∀ d s, tri (callD R d s) (λ _, True)).

Lemma wins_callProviders ps ns st :
  good K st → (∀ n, n ∈ ns → in_use K n ∧ D (inl n)) →
  wins (callProviders R ps ns) st (λ r s, r = None ∧ ∀ n, n ∈ ns → called s n = true).
Proof.
  revert st; induction ns as [|n ns IH]; intros st HG Hns; simpl.
  { apply wins_ret; [done|]. split; [done|]. by intros n ?%elem_of_nil. }
  destruct (Hns n) as [Hu HD]; [set_solver|]. destruct (good_ctor st HG n Hu) as [cn Hcn].
  eapply wins_step; [by apply getCtor_at|].
  eapply wins_bind; [by apply wins_tryErr, HR|]. intros r s2 HG2 _ (u & -> & Hc).
  destruct (IH s2 HG2) as (r & s3 & Hrun & HG3 & Hb3 & -> & Hall); [intros; apply Hns; set_solver|].
  exists None, s3. split_and!; [done..|]. intros m [->|Hm]%elem_of_cons; [|by apply Hall].
  by apply (built_called _ _ (inner_built _ _ Hb3)).
Qed.

(** Everything [p] may call in scope [c] is covered by [D], or is running. *)
Definition covered (c : nat) (p : param) : Prop :=
  ∀ y, y ∈ param_deps K c p → D y ∨ ∃ d, y = inr d ∧ O d.

Lemma covered_ctor c p n : covered c p → inl n ∈ param_deps K c p → D (inl n).
Proof. intros Hc Hn. by destruct (Hc _ Hn) as [|(d & ? & _)]. Qed.

Lemma covered_dcor c p d st :
  covered c p → running O st → dstate st d ≠ Some decoratorOnStack → inr d ∈ param_deps K c p → D (inr d).
Proof. intros Hc HO Hd Hin. destruct (Hc _ Hin) as [|(e & [= <-] & He)]; [done|]. by destruct Hd; apply HO. Qed.

Lemma key_dep_provider st c s sc k n :
  good K st → s ∈ ancestors (st_scopes K) c → st_scopes st !! s = Some sc →
  n ∈ getProviders sc k → inl n ∈ concat (map (key_deps (st_scopes K) k false)
                                               (ancestors (st_scopes K) c)).
Proof.
  intros HG Hs Hsc Hn. apply elem_of_concat_map. exists s. split; [done|].
  rewrite <-(good_key_deps st HG). unfold key_deps. rewrite Hsc, elem_of_app. right.
  by apply list_elem_of_fmap_2.
Qed.

Lemma key_dep_decorator st c s sc k soft d :
  good K st → s ∈ ancestors (st_scopes K) c → st_scopes st !! s = Some sc →
  decorators sc !! k = Some d → inr d ∈ concat (map (key_deps (st_scopes K) k soft)
                                                    (ancestors (st_scopes K) c)).
Proof.
  intros HG Hs Hsc Hd. apply elem_of_concat_map. exists s. split; [done|].
  rewrite <-(good_key_deps st HG). unfold key_deps. rewrite Hsc, Hd. by left.
Qed.

(** A scope above [c] that offers the key makes the search succeed. *)
Lemma findProvision_scope scs stores ps s ns :
  findProvision scs stores ps = Provided s ns →
  ∃ sc, scs !! s = Some sc ∧ ns = getValueProviders sc (ps_Name ps) (ps_Type ps) ∧ ns ≠ [].
Proof.
  induction stores as [|s0 stores IH]; simpl; [done|]. destruct (scs !! s0) as [sc0|] eqn:Hs0; [|done].
  destruct (getValue sc0 _ _); [done|]. destruct (getValueProviders sc0 _ _) as [|n ns0] eqn:Hp; [done|].
  intros [= <- <-]. exists sc0. by rewrite Hp.
Qed.

Lemma findProvision_cached scs stores ps v :
  findProvision scs stores ps = Cached v →
  ∃ s sc, scs !! s = Some sc ∧ values sc !! valueKey (ps_Name ps) (ps_Type ps) = Some v.
Proof.
  induction stores as [|s0 stores IH]; simpl; [done|]. destruct (scs !! s0) as [sc0|] eqn:Hs0; [|done].
  destruct (getValue sc0 _ _) as [w|] eqn:Hw; [intros [= ->]; eauto|].
  destruct (getValueProviders sc0 _ _); done.
Qed.

Lemma slot_valid v t : slot v t → is_valid v = true.
Proof. intros (u & Hu & _). by destruct v. Qed.

Lemma good_value_valid st s sc k v :
  good K st → st_scopes st !! s = Some sc → values sc !! k = Some v → is_valid v = true.
Proof.
  intros HG Hs Hv. pose proof (Forall_lookup_1 _ _ _ _ (sty_scopes _ (good_typed _ _ HG)) Hs) as Hty.
  eapply slot_valid. by apply (st_values sc Hty).
Qed.

Lemma good_decorated_valid st s sc k v :
  good K st → st_scopes st !! s = Some sc → decoratedValues sc !! k = Some v → is_valid v = true.
Proof.
  intros HG Hs Hv. pose proof (Forall_lookup_1 _ _ _ _ (sty_scopes _ (good_typed _ _ HG)) Hs) as Hty.
  eapply slot_valid. by apply (st_decorated sc Hty).
Qed.

Lemma firstDecorated_Some scs stores ps v :
  firstDecorated scs stores ps = Some v →
  ∃ s sc, scs !! s = Some sc ∧ decoratedValues sc !! valueKey (ps_Name ps) (ps_Type ps) = Some v.
Proof.
  induction stores as [|s stores IH]; simpl; [done|]. destruct (scs !! s) as [sc|] eqn:Hs; simpl; [|done].
  destruct (getDecoratedValue sc _ _) as [w|] eqn:Hw; [|done]. intros [= ->]. by exists s, sc.
Qed.

(** The scope in which a decorator was found has it. *)
Lemma findDecorator_scope st stores ps d s :
  findDecorator st stores ps = Some (d, s) →
  ∃ sc dn, st_scopes st !! s = Some sc ∧ decorators sc !! valueKey (ps_Name ps) (ps_Type ps) = Some d ∧
           st_dcors st !! d = Some dn ∧ dn_state dn ≠ decoratorOnStack ∧ s ∈ stores.
Proof.
  induction stores as [|s0 stores IH]; simpl; [done|].
  assert (findDecorator st stores ps = Some (d, s) → ∃ sc dn, st_scopes st !! s = Some sc ∧
    decorators sc !! valueKey (ps_Name ps) (ps_Type ps) = Some d ∧ st_dcors st !! d = Some dn ∧
    dn_state dn ≠ decoratorOnStack ∧ s ∈ s0 :: stores) as Hnext.
  { intros (sc & dn & ? & ? & ? & ? & ?)%IH. exists sc, dn. split_and!; try done. by right. }
  destruct (st_scopes st !! s0) as [sc|] eqn:Hs; simpl; [|done].
  unfold getValueDecorator, getDecorators.
  destruct (decorators sc !! _) as [d'|] eqn:Hd; [|done].
  destruct (st_dcors st !! d') as [dn|] eqn:Hdn; [|done]. case_decide; [done|].
  intros [= -> ->]. exists sc, dn. split_and!; try done. by left.
Qed.

Lemma wins_buildWithDecorators ps c st :
  good K st → running O st → covered c (PSingle ps) →
  wins (buildWithDecorators R ps c) st (λ r _, ∀ v, r = Some v → is_valid v = true).
Proof.
  intros HG HO Hcov. unfold buildWithDecorators.
  apply (wins_step _ _ (ancestors (st_scopes st) c)); [done|]. apply (wins_step _ _ st); [done|].
  destruct (findDecorator _ _ _) as [[d s]|] eqn:Hf; [|by apply wins_ret].
  destruct (findDecorator_scope _ _ _ _ _ Hf) as (sc & dn & Hs & Hd & Hdn & Hno & Hin).
  destruct (wf_decorators _ (good_wf st HG) s sc _ d Hs Hd) as (dn' & Hdn' & Hds & _).
  assert (dn' = dn) as -> by congruence. subst s.
  rewrite (good_ancestors st HG) in Hin.
  assert (D (inr d)) as HD.
  { eapply covered_dcor; [done|done| |by eapply key_dep_decorator].
    unfold dstate. rewrite Hdn. simpl. congruence. }
  eapply wins_bind; [apply wins_wrapErr, HR; [done|by eapply good_decorating|done..]|].
  intros [] s1 HG1 Hi1 Hcalled.
  destruct (scope_same st s1 _ sc (eq_sym (built_skel _ _ (inner_built _ _ Hi1))) Hs) as (sc1 & Hs1 & Heq).
  eapply wins_step; [by apply getScope_at|]. apply wins_ret; [done|]. intros v [= <-].
  destruct (good_decorated s1 HG1 (dn_s dn) sc1 (valueKey (ps_Name ps) (ps_Type ps)) d) as [w Hw]; [done|done| |done|].
  - rewrite <-Hd. exact (f_equal (λ x, decorators x !! valueKey (ps_Name ps) (ps_Type ps)) Heq).
  - unfold getDecoratedValue. rewrite Hw. simpl. by eapply good_decorated_valid.
Qed.

Lemma wins_paramSingle ps c st :
  good K st → running O st → covered c (PSingle ps) →
  (ps_Optional ps = false → getAllValueProviders (st_scopes K) c (ps_Name ps) (ps_Type ps) ≠ []) →
  wins (paramSingle_Build R ps c) st (λ v _, is_valid v = true).
Proof.
  intros HG0 HO0 Hcov Hav. unfold paramSingle_Build.
  eapply wins_bind; [by apply wins_buildWithDecorators|]. intros found st1 HG _ Hfound.
  clear st HG0 HO0. rename st1 into st. destruct found as [v|]; [apply wins_ret; auto|]. clear Hfound.
  apply (wins_step _ _ (ancestors (st_scopes st) c)); [done|]. apply (wins_step _ _ st); [done|].
  destruct (firstDecorated _ _ _) as [v|] eqn:Hfd.
  { apply firstDecorated_Some in Hfd as (s & sc & Hs & Hv). apply wins_ret; [done|].
    by eapply good_decorated_valid. }
  destruct (findProvision _ _ _) as [v|s ns|] eqn:Hf.
  - apply findProvision_cached in Hf as (s & sc & Hs & Hv). apply wins_ret; [done|].
    by eapply good_value_valid.
  - destruct (findProvision_scope _ _ _ _ _ Hf) as (sc & Hs & Hns & Hne).
    apply findProvision_Provided in Hf as [Hin _]. rewrite (good_ancestors st HG) in Hin.
    eapply wins_bind; [apply wins_callProviders; [done|]|].
    { intros n Hn. subst ns. split; [by eapply good_in_use|].
      eapply covered_ctor; [done|]. by eapply key_dep_provider. }
    intros r s1 HG1 Hi1 [-> Hall].
    destruct (scope_same st s1 s sc (eq_sym (built_skel _ _ (inner_built _ _ Hi1))) Hs) as (sc1 & Hs1 & Heq).
    eapply wins_step; [by apply getScope_at|]. apply wins_ret; [done|].
    destruct ns as [|n ns]; [done|].
    destruct (good_value s1 HG1 s sc1 (valueKey (ps_Name ps) (ps_Type ps)) n) as [v Hv]; [done|done| |by apply Hall; left|].
    + change (n ∈ getValueProviders sc1 (ps_Name ps) (ps_Type ps)).
      assert (getValueProviders sc1 (ps_Name ps) (ps_Type ps) = n :: ns) as ->; [|by left].
      rewrite Hns. unfold getValueProviders, getProviders. by injection Heq as _ -> _ _ _ _ _ _ _ _ _.
    + unfold getValue. rewrite Hv. simpl. by eapply good_value_valid.
  - destruct (ps_Optional ps) eqn:Hopt; [by apply wins_ret|]. exfalso. apply Hav; [done|].
    apply findProvision_unprovided in Hf. rewrite <-Hf. symmetry.
    by apply getAllProviders_same, good_skel.
Qed.

Lemma ancestors_exist scs c s : s ∈ ancestors scs c → ∃ sc, scs !! s = Some sc.
Proof.
  unfold ancestors. generalize (S c), (Some c). intros fuel. induction fuel as [|fuel IH];
    intros [i|]; simpl; try (by intros ?%elem_of_nil).
  destruct (scs !! i) as [sc|] eqn:Hi; [|by intros ?%elem_of_nil].
  intros [->|Hs]%elem_of_cons; [by exists sc|by eapply IH].
Qed.

Lemma good_exists st c s : good K st → s ∈ ancestors (st_scopes K) c → ∃ sc, st_scopes st !! s = Some sc.
Proof. intros HG Hs. rewrite <-(good_ancestors st HG) in Hs. by eapply ancestors_exist. Qed.

Lemma wins_callGroupDecorators pt c st el :
  good K st → running O st → Elem (pt_Type pt) = Some el → covered c (PGrouped pt) →
  wins (callGroupDecorators R pt c) st (λ _ _, True).
Proof.
  intros HG HO Hel Hcov. unfold callGroupDecorators. rewrite Hel.
  apply (wins_step _ _ el); [done|]. apply (wins_step _ _ (ancestors (st_scopes st) c)); [done|].
  rewrite (good_ancestors st HG).
  apply (wins_forEach (running O) (running_stable O)); [done|done|]. intros s s1 Hs HG1 HO1.
  rewrite elem_of_reverse in Hs. destruct (good_exists s1 c s HG1 Hs) as [sc Hsc].
  eapply wins_step; [by apply getScope_at|]. unfold getGroupDecorator, getDecorators.
  destruct (decorators sc !! _) as [d|] eqn:Hd; [|by apply wins_ret].
  destruct (wf_decorators _ (good_wf s1 HG1) s sc _ d Hsc Hd) as (dn & Hdn & <- & _).
  eapply wins_step; [by apply getDcor_at|]. case_decide as Hon; [by apply wins_ret|].
  apply wins_wrapErr. eapply wins_weaken; [apply HR; [done|by eapply good_decorating| |done..]|done].
  apply (covered_dcor c (PGrouped pt) d s1); [done|done| |].
  - unfold dstate. rewrite Hdn. simpl. congruence.
  - simpl. rewrite Hel. by eapply key_dep_decorator.
Qed.

Lemma wins_callGroupProviders pt c st el :
  good K st → Elem (pt_Type pt) = Some el → pt_Soft pt = false → covered c (PGrouped pt) →
  wins (callGroupProviders R pt c) st (λ _ _, True).
Proof.
  intros HG Hel Hsoft Hcov. unfold callGroupProviders. rewrite Hel.
  apply (wins_step _ _ el); [done|]. apply (wins_step _ _ (ancestors (st_scopes st) c)); [done|].
  rewrite (good_ancestors st HG).
  eapply wins_bind;
    [apply (wins_forMap (λ _, True) (λ _ _ _ _, I) _ _ _ (λ _, True)); [done|done|]|intros; by apply wins_ret].
  intros s s1 Hs HG1 _. destruct (good_exists s1 c s HG1 Hs) as [sc Hsc].
  eapply wins_step; [by apply getScope_at|]. cbv zeta.
  eapply wins_bind; [apply (wins_forEach (λ _, True) (λ _ _ _ _, I)); [done|done|]|intros; by apply wins_ret].
  intros n s2 Hn HG2 _. pose proof (good_in_use s1 HG1 s sc _ n Hsc Hn) as Hu.
  destruct (good_ctor s2 HG2 n Hu) as [cn Hcn]. eapply wins_step; [by apply getCtor_at|].
  apply wins_wrapErr. eapply wins_weaken; [apply HR; try done|done]. eapply covered_ctor; [done|]. simpl.
  rewrite Hel, Hsoft. by apply (key_dep_provider s1 c s sc).
Qed.

Lemma firstDecoratedGroup_valid st pt stores v :
  good K st → firstDecoratedGroup (st_scopes st) stores pt = Some v → is_valid v = true.
Proof.
  intros HG. induction stores as [|s stores IH]; simpl; [done|].
  destruct (st_scopes st !! s) as [sc|] eqn:Hs; simpl; [|done].
  destruct (getDecoratedValueGroup sc _ _) as [w|] eqn:Hw; [|done]. intros [= ->].
  pose proof (Forall_lookup_1 _ _ _ _ (sty_scopes _ (good_typed _ _ HG)) Hs) as Hty.
  eapply slot_valid. by apply (st_decoratedGroups sc Hty).
Qed.

(** The members of a group in one scope. *)
Lemma wins_getValueGroup name el s st :
  good K st → (∃ sc, st_scopes st !! s = Some sc) →
  wins (zoomScope s (getValueGroup name el)) st (λ vs _, Forall (λ v, slot v el) vs).
Proof.
  intros HG [sc Hs].
  destruct (rep_zoomGroup s name el st) as [_ [Hk Href]].
  pose proof (proj2 (runs_zoomGroup (λ _, True) True s name el st)) as Hb%eff_inner.
  destruct (tri_zoomScope s _ _ (tri_getValueGroup name el) st (good_typed _ _ HG)) as [Hty Hend].
  destruct (getValueGroup_ok name el sc) as (l & Hl & _).
  assert (∃ s1, zoomScope s (getValueGroup name el) st = (Ret l, s1)) as [s1 H1].
  { unfold zoomScope. rewrite Hs, Hl. by eexists. }
  rewrite H1 in *. exists l, s1. split_and!; [done| |done|done].
  split; [|by apply Href, HG|done]. simpl in Hk. by rewrite Hk, (good_skel _ _ HG).
Qed.

Lemma wins_paramGrouped pt c st :
  good K st → running O st → Kind (pt_Type pt) = Slice → covered c (PGrouped pt) →
  wins (paramGroupedSlice_Build R pt c) st (λ v _, is_valid v = true).
Proof.
  intros HG HO Hk Hcov. unfold paramGroupedSlice_Build.
  destruct (Kind_Slice_Elem _ Hk) as [el Hel].
  eapply wins_bind; [by eapply wins_callGroupDecorators|]. intros _ s1 HG1 _ _.
  apply (wins_step _ _ (ancestors (st_scopes s1) c)); [done|]. apply (wins_step _ _ s1); [done|].
  destruct (firstDecoratedGroup _ _ _) as [items|] eqn:Hfd.
  { apply wins_ret; [done|]. by eapply firstDecoratedGroup_valid. }
  eapply (wins_bind _ _ _ (λ _ _, True)).
  { destruct (pt_Soft pt) eqn:Hsoft; [by apply wins_ret|]. by eapply wins_callGroupProviders. }
  intros _ s2 HG2 _ _. rewrite Hel. apply (wins_step _ _ el); [done|].
  apply (wins_step _ _ (ancestors (st_scopes s2) c)); [done|]. rewrite (good_ancestors s2 HG2).
  eapply wins_bind; [|intros; by apply wins_ret].
  apply (wins_forMap (λ _, True) (λ _ _ _ _, I) _ _ _ (λ _, True)); [done|done|]. intros s s3 Hs HG3 _.
  eapply wins_bind; [apply wins_getValueGroup; [done|by eapply good_exists]|].
  intros vs s4 HG4 _ Hvs. apply (wins_step _ _ ()); [|by apply wins_ret].
  unfold liftO. rewrite checkAssigns_slot; [done|]. by apply Forall2_replicate_r.
Qed.

Lemma wins_buildFields t (fields : list (paramObjectField * M value)) fs0 st :
  good K st → running O st → storable (VStruct t fs0) = true →
  (∀ f b, (f, b) ∈ fields → ∃ sf, Fields t !! pof_FieldIndex f = Some sf ∧
     ∀ s, good K s → running O s → wins b s (λ v _, slot v (f_Type sf))) →
  wins (buildFields (VStruct t fs0) fields) st (λ v _, is_valid v = true).
Proof.
  revert fs0 st; induction fields as [|[f b] fields IH]; intros fs0 st HG HO Hs Hf; cbn [buildFields].
  { by apply wins_ret. }
  destruct (Hf f b) as (sf & Hsf & Hb); [set_solver|].
  eapply wins_bind; [by apply Hb|]. intros v s1 HG1 Hi1 Hv.
  destruct (setField_storable t fs0 _ sf v Hs Hsf Hv) as [Hset Hs'].
  eapply wins_step; [unfold liftO; by rewrite Hset|]. apply IH; [done|by eapply running_stable|done|].
  intros f' b' ?. apply Hf. set_solver.
Qed.

(** The required parameters inside [p] have providers. *)
Definition available_in (c : nat) (p : param) : Prop :=
  ∀ ps, ps ∈ required p → getAllValueProviders (st_scopes K) c (ps_Name ps) (ps_Type ps) ≠ [].

Lemma wins_param p t c st :
  good K st → running O st → param_for p t → covered c p → available_in c p →
  wins (param_Build R p c) st (λ v _, slot v t).
Proof.
  revert t st; induction p as [ps|pt|t' fs IH] using param_ind'; intros t st HG HO Hp Hcov Hav.
  all: eapply (wins_weaken _ _ (λ v _, is_valid v = true ∧ built_for t v));
    [apply (wins_typed _ _ (λ v _, is_valid v = true)); [done|by apply tri_param_Build|]|
     intros v s1 _ [Hv Hb]; by apply Hb].
  - apply wins_paramSingle; [done|done|done|]. intros Ho. apply Hav. simpl. rewrite Ho. by left.
  - destruct Hp as [<- Hk]. by apply wins_paramGrouped.
  - destruct Hp as (-> & Hk & Hfs). cbn [param_Build]. unfold paramObject_Build, newStruct.
    apply wins_buildFields; [done|done|by apply newStruct_storable|]. intros f b Hin.
    assert ((f, b) ∈ map (λ f, (f, param_Build R (pof_Param f) c)) fs) as Hin'.
    { apply elem_of_app in Hin as [Hin|Hin]; by apply list_elem_of_filter in Hin as [_ ?]. }
    apply list_elem_of_In, in_map_iff in Hin' as (f' & [= -> <-] & Hf%list_elem_of_In).
    destruct (param_fields_find t fs f Hfs Hf) as (sf & Hsf & Hpf).
    exists sf. split; [done|]. intros s HGs HOs. rewrite Forall_forall in IH. apply (IH f); [done..| |].
    + intros n Hn. apply Hcov. simpl. apply elem_of_concat_map. eauto.
    + intros ps Hps. apply Hav. simpl. apply elem_of_concat_map. eauto.
Qed.

Lemma wins_BuildList pl ftype c st :
  good K st → running O st → params_for pl ftype →
  (∀ y, y ∈ list_deps K c pl → D y ∨ ∃ d, y = inr d ∧ O d) → supplied K c pl →
  wins (BuildList R pl c) st (λ args _, ∃ ins outs var, FuncSig ftype = Some (ins, outs, var) ∧
    Forall2 slot args (passed ins var)).
Proof.
  intros HG HO (ins & outs & var & Hsig & Hps) Hcov Hav. unfold BuildList.
  eapply (wins_weaken _ _ (λ args _, Forall2 slot args (passed ins var)));
    [|intros args s _ H; by exists ins, outs, var].
  assert (∀ p, p ∈ pl_Params pl → covered c p ∧ available_in c p) as Hall.
  { intros p Hp. split; [intros n Hn|by intros ps; apply Hav].
    apply Hcov, elem_of_concat_map. eauto. }
  clear Hcov Hav Hsig. revert st HG HO. induction Hps as [|p t ps ts Hp _ IH]; intros st HG HO.
  { by apply wins_ret. }
  rewrite forMap_cons. destruct (Hall p) as [Hc Ha]; [set_solver|].
  eapply wins_bind; [by apply wins_param|]. intros v s1 HG1 Hi1 Hv.
  eapply wins_bind; [apply IH; [intros; apply Hall; set_solver|done|by eapply running_stable]|].
  intros vs s2 HG2 _ Hvs.
  apply wins_ret; [done|by constructor].
Qed.
End build.

(** *** Calls *)

Lemma wins_log ev st :
  (∀ who f args, ev ≠ EvCall who f args) → good K st → wins (logEvent ev) st (λ _ _, True).
Proof.
  intros Hev HG. exists (), (upd_trace (λ tr, tr ++ [ev]) st). split_and!;
    [done| |by split; [apply (building_log (Q := built))|]|done].
  destruct (rep_log_free ev st Hev) as [Hk Href]. split.
  - by rewrite Hk, (good_skel _ _ HG).
  - apply Href, HG.
  - apply (tri_logEvent ev); [|apply HG]. by destruct ev as [|who f args|]; [|destruct (Hev who f args)|].
Qed.

Lemma runCallback_at ev st : runCallback ev st = (Ret (), upd_trace (λ tr, tr ++ [ev]) st).
Proof.
  unfold runCallback, mbind, SM_bind. simpl. destruct (sv_behaved _ HK) as (Hcb & _). by rewrite Hcb.
Qed.

Lemma wins_callBefore cb loc st : good K st → is_Some loc → wins (callBefore cb loc) st (λ _ _, True).
Proof.
  intros HG [f ->]. destruct cb as [cb|]; simpl; [|by apply wins_ret].
  eapply wins_step; [done|]. unfold wins. rewrite runCallback_at. by apply wins_log.
Qed.

Lemma supplied_shallow c pl st :
  good K st → c < length (st_scopes K) → supplied K c pl →
  shallowCheckDependencies c pl st = (Ret (), st).
Proof.
  intros HG Hc Hs. rewrite <-(scopes_length _ _ (good_skel _ _ HG)) in Hc.
  destruct (lookup_lt_is_Some_2 _ _ Hc) as [sc Hsc].
  destruct (shallowCheckDependencies_ok c pl st sc Hsc) as (Hst & [_ Hok] & _).
  destruct (shallowCheckDependencies c pl st) as [r s]. simpl in *. subst s.
  rewrite Hok; [done|]. intros p ps Hp Hps. left. intros Hnil. apply (Hs p ps Hp Hps).
  rewrite <-Hnil. symmetry. by apply getAllProviders_same, good_skel.
Qed.

Lemma deferCallback_wins cb loc c (m : M ()) st st' sc sc' :
  is_Some loc → st_scopes st !! c = Some sc → st_scopes st' !! c = Some sc' →
  m st = (Ret (), st') →
  ∃ s2, deferCallback cb loc c m st = (Ret (), s2) ∧ st_dcors s2 = st_dcors st'.
Proof.
  intros [f ->] Hc Hc' Hm. destruct cb as [cb|]; simpl; [|by exists st'].
  assert (∀ s x, st_scopes s !! c = Some x → clockNow c s = (Ret (env_now (clockSrc x) (st_trace s)), s))
    as Hclock.
  { intros s x Hx. unfold clockNow. rewrite (bind_step _ _ _ _ _ (getScope_at c x s Hx)). done. }
  rewrite (bind_step _ _ _ _ _ (Hclock st sc Hc)). unfold observe. rewrite Hm.
  rewrite (bind_step _ _ st' (fn_Package f +:+ "." +:+ fn_Name f) st') by done.
  rewrite (bind_step _ _ _ _ _ (Hclock st' sc' Hc')).
  rewrite (bind_step _ _ _ _ _ (runCallback_at _ _)). by eexists.
Qed.

Section call.
Context (Hloc : all_located).

Lemma first_error_none outs vs : Forall (λ v, value_error v = None) vs → first_error outs vs = None.
Proof.
  intros Hvs. unfold first_error. revert outs. induction Hvs as [|v vs Hv _ IH]; intros [|t outs];
    simpl; try done. rewrite Hv. destruct (isError t); apply IH.
Qed.

Lemma constructorBody_wins n cn c args st sc ins outs var :
  good K st → st_scopes st !! c = Some sc → cn_s cn < length (st_scopes st) → ctor_typed cn →
  well_behaved (cn_ctor cn) →
  FuncSig (fv_type (cn_ctor cn)) = Some (ins, outs, var) → Forall2 slot args (passed ins var) →
  ∃ st', constructorBody n cn c args st = (Ret (), st').
Proof.
  intros HG Hc Hs (_ & _ & opts & _ & Hnew) Hwb Hsig Hargs. unfold constructorBody.
  rewrite (bind_step _ _ _ _ _ (getScope_at c sc st Hc)).
  rewrite (Forall_lookup_1 _ _ _ _ (ref_live st (good_log _ _ HG)) Hc). simpl.
  unfold defaultInvoker, mbind, SM_bind, liftO. rewrite (checkCall_slot _ _ _ _ _ Hsig Hargs). simpl.
  destruct (Hwb (st_trace st) args) as (vs & Henv & Hvs). rewrite Henv. simpl.
  destruct (ExtractList_from_total false opts (cn_resultList cn) outs 0 outs vs
              newStagingContainerWriter) as [w Hw];
    [by eapply newResultList_table|done|by eapply typed_results|].
  unfold storeResults, ExtractList. rewrite Hw, (first_error_none _ _ Hvs). unfold mbind, SM_bind, zoomScope.
  destruct (lookup_lt_is_Some_2 _ _ Hs) as [ns Hns]. simpl. rewrite Hns. unfold Commit.
  destruct (CommitIn_Scope (map_to_list (sw_values w)) (map_to_list (sw_groups w)) ns) as [ns' ->].
  by eexists.
Qed.

Lemma decoratorBody_wins d dn s args st sc ins outs var :
  good K st → st_scopes st !! s = Some sc → dn_s dn < length (st_scopes st) → dcor_typed dn →
  well_behaved (dn_dcor dn) →
  FuncSig (fv_type (dn_dcor dn)) = Some (ins, outs, var) → Forall2 slot args (passed ins var) →
  ∃ st', decoratorBody d dn s args st = (Ret (), st').
Proof.
  intros HG Hc Hs (_ & _ & Hnew & _) Hwb Hsig Hargs. unfold decoratorBody.
  rewrite (bind_step _ _ _ _ _ (getScope_at s sc st Hc)).
  rewrite (Forall_lookup_1 _ _ _ _ (ref_live st (good_log _ _ HG)) Hc). simpl.
  unfold defaultInvoker, mbind, SM_bind, liftO. rewrite (checkCall_slot _ _ _ _ _ Hsig Hargs). simpl.
  destruct (Hwb (st_trace st) args) as (vs & Henv & Hvs). rewrite Henv. simpl.
  unfold zoomScope. destruct (lookup_lt_is_Some_2 _ _ Hs) as [ns Hns]. simpl. rewrite Hns.
  destruct (ExtractList_from_total true (mkResultOptions "" "" []) (dn_results dn) outs 0 outs vs ns)
    as [w Hw]; [by eapply newResultList_table|done|by eapply typed_results|].
  unfold ExtractList. rewrite Hw, (first_error_none _ _ Hvs). by eexists.
Qed.

Lemma decoratorBody_called d dn s args st st' :
  decoratorBody d dn s args st = (Ret (), st') →
  ∃ l, st_dcors st' = alter (set_state decoratorCalled) d l.
Proof.
  unfold decoratorBody. intros H. apply bind_Ret in H as (sc & s1 & _ & H).
  apply bind_Ret in H as (vs & s2 & _ & H). apply bind_Ret in H as ([] & s3 & _ & H).
  injection H as <-. by eexists.
Qed.

(** What the calls keep, however they end. *)
Lemma good_kept st (c : M ()) :
  good K st → runs built True c st → runs rep True c st → tri c (λ _, True) → good K (c st).2.
Proof.
  intros HG [_ Hb] [_ [_ Hr]] Ht. split.
  - by rewrite (built_skel _ _ Hb), (good_skel _ _ HG).
  - apply Hr, HG.
  - apply Ht, HG.
Qed.

Lemma knot_good_ctor fuel n c st : good K st → good K (callC (knot fuel) n c st).2.
Proof.
  intros HG. apply good_kept; [done|apply (knot_built built fuel)|apply (knot_rep fuel)|apply (tri_knot fuel)].
Qed.

Lemma knot_good_dcor fuel d s st : good K st → good K (callD (knot fuel) d s st).2.
Proof.
  intros HG. apply good_kept; [done|apply (knot_built built fuel)|apply (knot_rep fuel)|apply (tri_knot fuel)].
Qed.

(** What the store knows of a constructor or decorator that may be asked for. *)
Lemma in_use_ctor st n cn :
  good K st → in_use K n → st_ctors st !! n = Some cn →
  cn_origS cn < length (st_scopes K) ∧ cn_s cn < length (st_scopes K) ∧
  supplied K (cn_origS cn) (cn_paramList cn) ∧ well_behaved (cn_ctor cn).
Proof.
  intros HG Hu Hcn. destruct (ctor_same st K n cn (good_skel _ _ HG) Hcn) as (ck & Hck & Heq).
  assert (cn_origS cn = cn_origS ck ∧ cn_s cn = cn_s ck ∧ cn_paramList cn = cn_paramList ck ∧
          cn_ctor cn = cn_ctor ck) as (-> & -> & -> & ->) by (by injection Heq).
  split_and!; [by eapply (wf_origins _ (sv_wf _ HK))|by eapply (wf_homes _ (sv_wf _ HK))|..].
  - by eapply (proj1 (sv_complete _ HK)).
  - by eapply (proj1 (proj2 (sv_behaved _ HK))).
Qed.

Lemma decorating_dcor st d dn :
  good K st → decorating K d → st_dcors st !! d = Some dn →
  dn_s dn < length (st_scopes K) ∧ supplied K (dn_s dn) (dn_params dn) ∧ well_behaved (dn_dcor dn).
Proof.
  intros HG Hu Hdn. destruct (dcor_same st K d dn (good_skel _ _ HG) Hdn) as (dk & Hdk & Heq).
  replace (dn_s dn) with (dn_s dk) by exact (f_equal dn_s Heq).
  replace (dn_params dn) with (dn_params dk) by exact (f_equal dn_params Heq).
  replace (dn_dcor dn) with (dn_dcor dk) by exact (f_equal dn_dcor Heq).
  split_and!.
  - destruct Hu as (s & sc & k & Hs & Hd).
    destruct (wf_decorators _ (sv_wf _ HK) s sc k d Hs Hd) as (dk' & Hdk' & <- & _).
    simplify_eq. by eapply lookup_lt_Some.
  - by eapply (proj2 (sv_complete _ HK)).
  - by eapply (proj2 (proj2 (sv_behaved _ HK))).
Qed.

Section one_call.
Context (fuel : nat) (D : node → Prop) (HR : calls_win (knot fuel) D).

(** The arguments of a node, its deferred functions and its body. *)
Lemma node_wins O (fn : funcval) loc pl c home bcb cb (body : list value → M ()) st :
  good K st → running O st → is_Some loc → params_for pl (fv_type fn) →
  c < length (st_scopes K) → home < length (st_scopes K) → supplied K c pl →
  (∀ y, y ∈ list_deps K c pl → D y ∨ ∃ d, y = inr d ∧ O d) →
  (∀ args s ins outs var, good K s → inner st s → FuncSig (fv_type fn) = Some (ins, outs, var) →
     Forall2 slot args (passed ins var) →
     ∃ s', body args s = (Ret (), s') ∧ length (st_scopes s') = length (st_scopes s)) →
  ∃ s1 s2 s3 args,
    good K s1 ∧ inner st s1 ∧ body args s1 = (Ret (), s2) ∧ st_dcors s3 = st_dcors s2 ∧
    (_ ← wrapErr (errMissingDependencies loc) (shallowCheckDependencies c pl);
     args ← wrapErr (errArgumentsFailed loc) (BuildList (knot fuel) pl c);
     _ ← callBefore bcb loc;
     ns ← getScope home;
     deferCallback cb loc c (deferRecover (recoverFromPanics ns) loc (body args))) st = (Ret (), s3).
Proof.
  intros HG HO Hl Hps Hc Hh Hsup Hdeps Hbody.
  rewrite (bind_step _ _ st () st); [|unfold wrapErr; by rewrite supplied_shallow].
  destruct (tri_knot fuel) as [TC TD].
  destruct (wins_BuildList (knot fuel) D HR O TC TD pl _ c st HG HO Hps Hdeps Hsup)
    as (args & s1 & Hargs & HG1 & Hi1 & ins & outs & var & Hsig & Hslots).
  rewrite (bind_step _ _ st args s1); [|unfold wrapErr; by rewrite Hargs].
  destruct (wins_callBefore bcb loc s1 HG1 Hl) as ([] & s2 & Hbef & HG2 & Hi2 & _).
  rewrite (bind_step _ _ _ _ _ Hbef).
  pose proof (scopes_length _ _ (good_skel _ _ HG2)) as Hlen. rewrite <-Hlen in Hc, Hh.
  destruct (lookup_lt_is_Some_2 _ _ Hh) as [ns Hns]. destruct (lookup_lt_is_Some_2 _ _ Hc) as [oc Hoc].
  rewrite (bind_step _ _ _ _ _ (getScope_at _ _ _ Hns)).
  destruct (Hbody args s2 ins outs var) as (s3 & Hrun & Hlen3); [done|by etrans|done|done|].
  assert (∃ oc', st_scopes s3 !! c = Some oc') as [oc' Hoc'].
  { apply lookup_lt_is_Some. by rewrite Hlen3. }
  destruct (deferCallback_wins cb loc c (deferRecover (recoverFromPanics ns) loc (body args))
              s2 s3 oc oc' Hl Hoc Hoc') as (s4 & Hdef & Hd4).
  { unfold deferRecover, observe. by rewrite Hrun. }
  exists s2, s3, s4, args. split_and!; [done|by etrans|done..].
Qed.

(** A constructor whose dependencies can be built is called, or has been. *)
Lemma wins_Call n cn st :
  good K st → in_use K n → st_ctors st !! n = Some cn →
  (∀ y, y ∈ list_deps K (cn_origS cn) (cn_paramList cn) → D y) →
  inner st (callC (knot (S fuel)) n (cn_origS cn) st).2 →
  wins (callC (knot (S fuel)) n (cn_origS cn)) st (λ _ s, called s n = true).
Proof.
  intros HG Hu Hcn HD Hi. pose proof (knot_good_ctor (S fuel) n (cn_origS cn) st HG) as HG'.
  simpl in *. destruct (cn_called cn) eqn:Hcalled.
  { exists (), st. unfold constructorNode_Call. rewrite (bind_step _ _ _ _ _ (getCtor_at _ _ _ Hcn)).
    rewrite Hcalled. split_and!; [done|done|reflexivity|]. unfold called. by rewrite Hcn. }
  destruct (in_use_ctor st n cn HG Hu Hcn) as (Ho & Hs & Hsup & Hwb).
  pose proof (good_ctor_typed st HG n cn Hcn) as Hty. destruct (id Hty) as (Hps & Hl & _).
  destruct (node_wins (λ _, False) (cn_ctor cn) (cn_location cn) (cn_paramList cn) (cn_origS cn) (cn_s cn)
    (cn_beforeCallback cn) (cn_callback cn) (constructorBody n cn (cn_origS cn)) st)
    as (s1 & s2 & s3 & args & _ & _ & _ & _ & Hrun);
    [done|by intros ? []|by apply Hl|done..|intros y Hy; left; by apply HD| |].
  { intros args s ins outs var HGs _ Hsig Hslots.
    assert (∃ oc, st_scopes s !! cn_origS cn = Some oc) as [oc Hoc].
    { apply lookup_lt_is_Some. by rewrite (scopes_length _ _ (good_skel _ _ HGs)). }
    destruct (constructorBody_wins n cn (cn_origS cn) args s oc ins outs var) as [s' Hb]; try done.
    { by rewrite (scopes_length _ _ (good_skel _ _ HGs)). }
    exists s'. split; [done|]. pose proof (proj2 (calls_constructorBody built True n cn (cn_origS cn) args s)) as Hbu.
    rewrite Hb in Hbu. exact (scopes_length _ _ (built_skel _ _ Hbu)). }
  assert (constructorNode_Call (knot fuel) n (cn_origS cn) st = (Ret (), s3)) as Hcall.
  { unfold constructorNode_Call. rewrite (bind_step _ _ _ _ _ (getCtor_at _ _ _ Hcn)). by rewrite Hcalled. }
  rewrite Hcall in *. exists (), s3. split_and!; [done..|].
  destruct Hty as ((ins & outs & var & Hsig & _) & _ & opts & _ & Hnew).
  destruct (constructorNode_Call_Ret (knot fuel) n _ cn opts st s3 ins outs var Hsig Hnew Hcn Hcalled Hcall)
    as [_ [l Hl']].
  destruct (good_ctor s3 HG' n Hu) as [cn' Hcn']. unfold called. rewrite Hcn'. rewrite Hl' in Hcn'.
  apply set_called_lookup in Hcn' as (? & _ & _ & _ & Hc). auto.
Qed.

(** A decorator that is entered. *)
Lemma good_enter st d dn :
  good K st → st_dcors st !! d = Some dn → dn_state dn ≠ decoratorCalled →
  good K (upd_dcors (alter (set_state decoratorOnStack) d) st).
Proof.
  intros HG Hd Hn. split.
  - rewrite <-(good_skel _ _ HG). by apply (building_skel (Q := built)), building_modDcor.
  - eapply quiet_refines; [by eapply quiet_enter|apply HG].
  - apply (tri_modDcor d decoratorOnStack), HG.
Qed.

Lemma wins_CallD d dn st :
  good K st → decorating K d → st_dcors st !! d = Some dn →
  (∀ y, y ∈ list_deps K (dn_s dn) (dn_params dn) → y ≠ inr d → D y) →
  inner st (callD (knot (S fuel)) d (dn_s dn) st).2 →
  wins (callD (knot (S fuel)) d (dn_s dn)) st (λ _ s, dstate s d = Some decoratorCalled).
Proof.
  intros HG Hu Hdn HD Hi. pose proof (knot_good_dcor (S fuel) d (dn_s dn) st HG) as HG'.
  simpl in *. destruct (decide (dn_state dn = decoratorCalled)) as [Hcalled|Hcalled].
  { exists (), st. unfold decoratorNode_Call. rewrite (bind_step _ _ _ _ _ (getDcor_at _ _ _ Hdn)).
    destruct (decide _); [|done]. split_and!; [done|done|reflexivity|].
    unfold dstate. rewrite Hdn. simpl. congruence. }
  destruct (decorating_dcor st d dn HG Hu Hdn) as (Hs & Hsup & Hwb).
  pose proof (good_dcor_typed st HG d dn Hdn) as Hty. destruct (id Hty) as (Hps & Hl & _).
  set (st1 := upd_dcors (alter (set_state decoratorOnStack) d) st).
  pose proof (good_enter st d dn HG Hdn Hcalled) as HG1. fold st1 in HG1.
  destruct (node_wins (λ e, e = d) (dn_dcor dn) (dn_location dn) (dn_params dn) (dn_s dn) (dn_s dn)
    (dn_beforeCallback dn) (dn_callback dn) (decoratorBody d dn (dn_s dn)) st1)
    as (s1 & s2 & s3 & args & HGs1 & Hi1 & Hbody & Hd3 & Hrun); try done.
  { intros e ->. unfold dstate, st1. simpl. by rewrite list_lookup_alter_eq, Hdn. }
  { by apply Hl. }
  { intros y Hy. destruct (decide (y = inr d)) as [->|Hne]; [right; by exists d|left; by apply HD]. }
  { intros args s ins outs var HGs _ Hsig Hslots.
    assert (dn_s dn < length (st_scopes s)) as Hlt by (by rewrite (scopes_length _ _ (good_skel _ _ HGs))).
    destruct (lookup_lt_is_Some_2 _ _ Hlt) as [sc Hsc].
    destruct (decoratorBody_wins d dn (dn_s dn) args s sc ins outs var) as (s' & Hb); try done.
    exists s'. split; [done|]. pose proof (proj2 (calls_decoratorBody built True d dn (dn_s dn) args s)) as Hbu.
    rewrite Hb in Hbu. exact (scopes_length _ _ (built_skel _ _ Hbu)). }
  assert (decoratorNode_Call (knot fuel) d (dn_s dn) st = (Ret (), s3)) as Hcall.
  { unfold decoratorNode_Call. rewrite (bind_step _ _ _ _ _ (getDcor_at _ _ _ Hdn)).
    destruct (decide _); [done|]. by rewrite (bind_step _ _ st () st1). }
  rewrite Hcall in *. simpl in HG', Hi. exists (), s3. split_and!; [done..|]. unfold dstate. rewrite Hd3.
  apply decoratorBody_called in Hbody as [l Hl2].
  destruct (dcor_same st s3 d dn) as (dn3 & Hdn3 & _);
    [by rewrite (good_skel _ _ HG'), (good_skel _ _ HG)|done|].
  rewrite Hd3, Hl2 in Hdn3. rewrite Hl2. rewrite list_lookup_alter_eq in *.
  destruct (l !! d) as [x|]; [|done]. by destruct x.
Qed.
End one_call.

Lemma knot_wins h fuel : h <= fuel → calls_win (knot fuel) (λ y, dep_depth h K y = true).
Proof.
  revert fuel; induction h as [|h IH]; intros fuel Hle; [by split|].
  destruct fuel as [|fuel]; [lia|]. specialize (IH fuel ltac:(lia)).
  destruct (knot_runs K (S h) (S fuel) (wf_homes _ (sv_wf _ HK)) Hle) as [RC RD]. split.
  - intros st n cn HG Hu Hdep Hcn. apply (wins_Call fuel _ IH); try done.
    + intros y Hy. simpl in Hdep. destruct (ctor_same st K n cn (good_skel _ _ HG) Hcn) as (ck & Hck & Heq).
      rewrite Hck, forallb_forall in Hdep. apply Hdep, list_elem_of_In.
      by injection Heq as _ _ _ -> _ _ _ -> _ _.
    + by eapply eff_inner, RC; [|apply HG|].
  - intros st d dn HG Hu Hdep Hdn Hno. apply (wins_CallD fuel _ IH); try done.
    + intros y Hy Hne. simpl in Hdep. destruct (dcor_same st K d dn (good_skel _ _ HG) Hdn) as (dk & Hdk & Heq).
      rewrite Hdk, forallb_forall in Hdep. apply Hdep, list_elem_of_In, list_elem_of_filter.
      split; [done|]. replace (dn_s dk) with (dn_s dn) by exact (f_equal dn_s (eq_sym Heq)).
      by replace (dn_params dk) with (dn_params dn) by exact (f_equal dn_params (eq_sym Heq)).
    + eapply eff_inner, RD; [done|apply HG|]. unfold dstate. rewrite Hdn. simpl. congruence.
Qed.

(** The invoked function is called with the arguments, and nothing after it. *)
Lemma invokeBody_wins s f pl args opts st sc ins outs var :
  well_behaved f → good K st → st_scopes st !! s = Some sc → FuncSig (fv_type f) = Some (ins, outs, var) →
  Forall2 slot args (passed ins var) →
  ∃ st', invokeBody s f pl args opts st = (Ret (), st') ∧
         last (st_trace st') = Some (EvCall ByInvoke f args).
Proof.
  intros Hwb HG Hs Hsig Hargs. unfold invokeBody. cbv zeta.
  set (info := match io_Info _ with Some _ => _ | None => _ end).
  assert (∃ s1, info st = (Ret (), s1) ∧ st_scopes s1 = st_scopes st) as (s1 & Hinfo & Hs1).
  { subst info. destruct (io_Info _); by eexists. }
  rewrite (bind_step _ _ _ _ _ Hinfo). rewrite <-Hs1 in Hs.
  rewrite (bind_step _ _ _ _ _ (getScope_at _ _ _ Hs)).
  rewrite Hs1 in Hs. rewrite (Forall_lookup_1 _ _ _ _ (ref_live st (good_log _ _ HG)) Hs). simpl.
  unfold defaultInvoker, mbind, SM_bind, liftO. rewrite (checkCall_slot _ _ _ _ _ Hsig Hargs). simpl.
  destruct (Hwb (st_trace s1) args) as (vs & Henv & Hvs). rewrite Henv. simpl.
  exists (upd_trace (λ tr, tr ++ [EvCall ByInvoke f args]) s1). split; [|simpl; apply last_snoc].
  pose proof (typed_results _ _ _ _ _ _ _ Hsig Henv) as Hty.
  destruct (last vs) as [v|] eqn:Hlast; [|done]. apply last_Some in Hlast as [vs' ->].
  apply Forall_app in Hvs as [_ Hv]. apply Forall_cons in Hv as [Hv _].
  apply Forall2_app_inv_l in Hty as (o1 & o2 & _ & Hty & _). inversion Hty as [|? t ? ? [Ht _]]; subst.
  unfold orPanic, or_panic, liftO. rewrite Ht. simpl. rewrite Hv. by destruct (isError t).
Qed.
End call.

(** A step of [Invoke] before the first call. *)
Lemma good_quiet st st' :
  good K st → skeleton st' = skeleton st → quiet st st' → store_typed st' → good K st'.
Proof.
  intros HG Hk Hq Ht. split; [by rewrite Hk, (good_skel _ _ HG)|by eapply quiet_refines; [|apply HG]|done].
Qed.

Lemma good_newParamList t s pl st st' :
  good K st → newParamList t s st = (Ret pl, st') → good K st' ∧ params_for pl t.
Proof.
  intros HG Hrun. destruct (runs_newParamList (λ _, True) st (good_wf st HG) t s st eq_refl) as [_ He].
  pose proof (proj2 (reg_newParamList quiet t s st)) as Hq.
  destruct (tri_newParamList t s st (good_typed _ _ HG)) as [Ht Hp]. rewrite Hrun in *.
  split; [|exact Hp]. by apply (good_quiet st); [|apply He|..].
Qed.

Lemma good_verifyAcyclic s st : good K st → good K (verifyAcyclic s st).2.
Proof.
  intros HG. apply (good_quiet st); [done|..].
  - apply (runs_verifyAcyclic (λ _, True) True s st).
  - apply (reg_verifyAcyclic quiet s st).
  - apply (tri_verifyAcyclic s st), HG.
Qed.
End progress.

(** The container after the operations [os], as the proofs above want it. *)
Lemma program_served `{E : Env} os :
  let st := run_ops os emptyStore in
  forallb op_plain os = true → forallb op_live os = true → ops_ok os emptyStore = true →
  groups_named st → decorations_named st → complete st → all_behave st →
  served st ∧ good st st.
Proof.
  intros st Hp Hl Hok Hg Hd Hc Hwb. split; split; try done.
  - by apply run_ops_wf; [apply emptyStore_wf|].
  - by apply program_offers.
  - by apply run_ops_refines; [|apply emptyStore_refines].
  - by apply run_ops_typed; [|apply emptyStore_typed].
Qed.

(** C9: a complete container serves every [Invoke].  After any calls of [New] without
    [DryRun], [Scope], [Provide], [Decorate] and [Invoke] that left no nameless value
    group, no decorator that flattens, and every constructor and decorator with providers
    for its required parameters, no chain of dependencies being longer than [h], in a
    program whose functions the Go runtime knows: when the invoked
    function too has providers for its required parameters, the cycle check passes,
    neither it nor a registered constructor or decorator panics or returns an error, and
    no callback panics, then [Invoke] returns without an error, and the last thing it did is to call the
    function with an argument that fits each of its parameters. *)
Theorem Invoke_succeeds `{E : Env} os h fuel s f pl st1 opts :
  let st := run_ops os emptyStore in
  all_located →
  forallb op_plain os = true → forallb op_live os = true → ops_ok os emptyStore = true →
  groups_named st → decorations_named st → complete st → all_behave st → well_behaved f →
  0 < h → h <= fuel → deps_bounded h st = true →
  Kind (fv_type f) = FuncKind → s < length (st_scopes st) →
  newParamList (fv_type f) s st = (Ret pl, st1) → supplied st s pl →
  (verifyAcyclic s st1).1 = Ret () →
  ∃ st' args ins outs var,
    Invoke fuel s (IFunc f) opts st = (Ret (), st') ∧
    last (st_trace st') = Some (EvCall ByInvoke f args) ∧
    FuncSig (fv_type f) = Some (ins, outs, var) ∧ Forall2 slot args (passed ins var).
Proof.
  intros st Hloc Hp Hl Hok Hg Hd Hc Hwb Hwf Hh Hle Hb Hk Hs Hpl Hsup Hver.
  destruct (program_served os Hp Hl Hok Hg Hd Hc Hwb) as [HK HG]. fold st in HK, HG.
  destruct (good_newParamList st HK _ _ _ _ _ HG Hpl) as [HG1 Hps].
  pose proof (good_verifyAcyclic st s st1 HG1) as HG2.
  destruct (verifyAcyclic s st1) as [r st2] eqn:Hver2. simpl in Hver, HG2. subst r.
  destruct (tri_knot fuel) as [TC TD].
  destruct (wins_BuildList st HK (knot fuel) (λ y, dep_depth h st y = true)
              (knot_wins st HK Hloc h fuel Hle) (λ _, False) TC TD pl (fv_type f) s st2 HG2)
    as (args & st3 & Hargs & HG3 & _ & ins & outs & var & Hsig & Hslots);
    [by intros ? []|done|intros; left; by apply dep_depth_all|done|].
  pose proof Hs as Hs3. rewrite <-(scopes_length _ _ (good_skel _ _ HG3)) in Hs3.
  destruct (lookup_lt_is_Some_2 _ _ Hs3) as [sc Hsc].
  destruct (invokeBody_wins st s f pl args opts st3 sc ins outs var Hwf HG3 Hsc Hsig Hslots)
    as (st4 & Hbody & Hlast).
  exists st4, args, ins, outs, var. split_and!; [|done..].
  unfold Invoke. cbn [TypeOf]. case_match; [done|].
  rewrite (bind_step _ _ _ _ _ Hpl).
  rewrite (bind_step _ _ st1 () st1); [|unfold wrapErr; by rewrite (supplied_shallow st)].
  rewrite (bind_step _ _ _ _ _ Hver2).
  rewrite (bind_step _ _ st2 args st3); [|unfold wrapErr; by rewrite Hargs].
  rewrite (bind_step _ _ _ _ _ (getScope_at _ _ _ Hsc)). unfold deferRecover, observe.
  rewrite Hbody. by destruct (recoverFromPanics sc).
Qed.

(** ** Checking a concrete container *)

Definition suppliedb (st : store) (c : nat) (pl : paramList) : bool :=
  forallb (λ p, forallb (λ ps, negb (bool_decide (getAllValueProviders (st_scopes st) c (ps_Name ps) (ps_Type ps) = [])))
                        (required p)) (pl_Params pl).

Lemma suppliedb_ok st c pl : suppliedb st c pl = true → supplied st c pl.
Proof.
  unfold suppliedb. intros H p ps Hp Hps Hnil. rewrite forallb_forall in H.
  specialize (H p (proj1 (list_elem_of_In _ _) Hp)). rewrite forallb_forall in H.
  specialize (H ps (proj1 (list_elem_of_In _ _) Hps)). by rewrite Hnil in H.
Qed.

Lemma completeb_ok st :
  forallb (λ cn, suppliedb st (cn_origS cn) (cn_paramList cn)) (st_ctors st) &&
  forallb (λ dn, suppliedb st (dn_s dn) (dn_params dn)) (st_dcors st) = true → complete st.
Proof.
  rewrite andb_true_iff, !forallb_forall. intros [HC HD]. split.
  - intros n cn _ Hn. apply suppliedb_ok, HC, list_elem_of_In. by eapply list_elem_of_lookup_2.
  - intros d dn _ Hd. apply suppliedb_ok, HD, list_elem_of_In. by eapply list_elem_of_lookup_2.
Qed.

Lemma decorations_namedb_ok st :
  forallb (λ dn, forallb (λ r, match r with
                               | resultGrouped g _ _ _ => negb (bool_decide (g = ""))
                               | _ => true
                               end) (result_leaves (resultList_ (dn_results dn)))) (st_dcors st) = true →
  decorations_named st.
Proof.
  rewrite forallb_forall. intros H d dn g t fl As Hd Hr Hg.
  specialize (H dn (proj1 (list_elem_of_In _ _) (list_elem_of_lookup_2 _ _ _ Hd))).
  rewrite forallb_forall in H. specialize (H _ (proj1 (list_elem_of_In _ _) Hr)). simpl in H.
  by rewrite Hg in H.
Qed.

Lemma groups_namedb_ok st :
  forallb (λ cn, forallb (λ k, negb (bool_decide (k_group k = "")))
                         (group_keys (resultList_ (cn_resultList cn)))) (st_ctors st) = true →
  groups_named st.
Proof.
  rewrite forallb_forall. intros H n cn k Hn Hk Hnil.
  specialize (H cn (proj1 (list_elem_of_In _ _) (list_elem_of_lookup_2 _ _ _ Hn))).
  rewrite forallb_forall in H. specialize (H k (proj1 (list_elem_of_In _ _) Hk)).
  by rewrite Hnil in H.
Qed.

(** ** Examples *)

Section progress_example.
#[local] Existing Instance plainEnv.

(** The functions of [plainEnv] return the same values however they are called. *)
Definition behaves (f : funcval) : bool :=
  match env_call [] f [] with
  | Returned vs => forallb (λ v, match value_error v with None => true | Some _ => false end) vs
  | Panicked _ _ => false
  end.

Lemma behaves_ok f : behaves f = true → well_behaved f.
Proof.
  intros Hf tr args. change (env_call tr f args) with (env_call [] f []). unfold behaves in Hf.
  destruct (env_call [] f []) as [vs|]; [|done]. exists vs. split; [done|].
  apply Forall_forall. intros v Hv%list_elem_of_In. rewrite forallb_forall in Hf.
  specialize (Hf v Hv). by destruct (value_error v).
Qed.

Lemma store_behaves st :
  forallb (λ cn, behaves (cn_ctor cn)) (st_ctors st) &&
  forallb (λ dn, behaves (dn_dcor dn)) (st_dcors st) = true → all_behave st.
Proof.
  rewrite andb_true_iff, !forallb_forall. intros [HC HD]. split_and!; [done|..].
  - intros n cn _ Hn. apply behaves_ok, HC, list_elem_of_In. by eapply list_elem_of_lookup_2.
  - intros d dn _ Hd. apply behaves_ok, HD, list_elem_of_In. by eapply list_elem_of_lookup_2.
Qed.

(** A group [g] of [A], an [A], a [B] made from it, a decorator of [A] that needs the [A]
    it decorates, one of the group, and a first consumer. *)
Definition servedOps : list op :=
  [OpNew []; OpProvide 0 (fn 51 1) []; OpProvide 0 (fn 40 2) []; OpScope 0 "child";
   OpProvide 0 (fn 41 4) []; OpProvide 0 (fn 46 5) [Name "b"]; OpDecorate 0 (fn 59 8) [];
   OpDecorate 1 (fn 63 9) []; OpInvoke 6 0 (fn 50 6) []].

Local Notation servedStore := (run_ops servedOps emptyStore).

Lemma servedOps_supplied :
  complete servedStore ∧ groups_named servedStore ∧ decorations_named servedStore.
Proof.
  split; [apply completeb_ok|split; [apply groups_namedb_ok|apply decorations_namedb_ok]];
    vm_compute; reflexivity.
Qed.

Lemma servedOps_behaved : all_behave servedStore.
Proof. apply store_behaves. vm_compute. reflexivity. Qed.

(** [func(B)] is invoked in the child. *)
Lemma Invoke_succeeds_witness :
  length (st_dcors servedStore) = 2 ∧
  ∃ st' args ins outs var,
    Invoke 5 1 (fn 44 7) [] servedStore = (Ret (), st') ∧
    last (st_trace st') = Some (EvCall ByInvoke (mkFuncval (TDef 44) 7 7) args) ∧
    FuncSig (TDef 44) = Some (ins, outs, var) ∧ Forall2 slot args (passed ins var).
Proof.
  split; [vm_compute; reflexivity|].
  apply (Invoke_succeeds servedOps 5 5 1 (mkFuncval (TDef 44) 7 7)
           (mkParamList (TDef 44) [PSingle (mkParamSingle "" false tB)])
           (newParamList (TDef 44) 1 servedStore).2 []).
  - intros pc. by eexists.
  - vm_compute. reflexivity.
  - vm_compute. reflexivity.
  - vm_compute. reflexivity.
  - exact (proj1 (proj2 servedOps_supplied)).
  - exact (proj2 (proj2 servedOps_supplied)).
  - exact (proj1 servedOps_supplied).
  - exact servedOps_behaved.
  - apply behaves_ok. vm_compute. reflexivity.
  - lia.
  - lia.
  - vm_compute. reflexivity.
  - vm_compute. reflexivity.
  - vm_compute. lia.
  - vm_compute. reflexivity.
  - apply suppliedb_ok. vm_compute. reflexivity.
  - vm_compute. reflexivity.
Defined.
End progress_example.
