(* ===== verification/Visualize.v ===== *)
(** * Visualizing a container (visualize.go, and [updateGraph] of error.go)

    [createGraph] reads the constructors of a scope and its descendants into a
    DOT graph, [updateGraph] marks in it what an error says has failed and prunes
    the rest, [visualizeGraph] prints it.  The store is only read; the writer is
    the string returned. *)

From S2P Require Import Prelude GoLib GoTypes DigReflect Errors Values DotTypes Dot.
From S2P Require Import Result Store Param.

Open Scope string_scope.
Open Scope list_scope.

(** ** What an error says about the graph *)

(** The node of a key, as the [updateGraph] methods build it. *)
Definition keyResult (k : key) : dotResult :=
  newDotResult (mkNode (k_t k) (k_name k) (k_group k)).

(** The [updateGraph] methods of the errors that implement [errVisualizer]. *)
Definition paramSingle_updateGraph (k : key) (id : positive) : SM dotGraph () :=
  modifyS (FailNodes [keyResult k] id).
Definition paramGroup_updateGraph (k : key) (id : positive) : SM dotGraph () :=
  FailGroupNodes (k_group k) (k_t k) id.
Definition missingResults (missing : list missingType) : list dotResult :=
  map (λ mt, keyResult (mt_Key mt)) missing.

Definition error_updateGraph (e : error) : SM dotGraph () :=
  match e with
  | errParamSingleFailed k _ id => paramSingle_updateGraph k id
  | errParamGroupFailed k _ id => paramGroup_updateGraph k id
  | errMissingTypes missing => modifyS (AddMissingNodes (missingResults missing))
  | _ => mret ()
  end.

(** The first loop of [updateGraph]: the errors of the chain that can be shown,
    outermost first. *)
Definition errVisualizers (err : error) : list error :=
  List.filter isErrVisualizer (chain_of err).

Definition updateGraph (err : error) : SM dotGraph () :=
  match errVisualizers err with
  | [] => mret ()
  | errs => _ ← forEach (reverse errs) error_updateGraph; modifyS PruneSuccess
  end.

(** ** The graph of a container *)

Definition newDotCtor (n : constructorNode) : SM dotGraph dotCtor :=
  loc ← orPanic nilDeref (cn_location n);
  mret (mkDotCtor (fn_Name loc) (fn_Package loc) (fn_File loc) (fn_Line loc) (cn_id n)
          [] [] [] noError).

Section create.
Context `{TT : TypeTable}.

Definition addNode (st : store) (i : nat) : SM dotGraph () :=
  n ← orPanic nilDeref (st_ctors st !! i);
  c ← newDotCtor n;
  AddCtor c (paramList_DotParam (cn_paramList n)) (DotResult (resultList_ (cn_resultList n))).

(** [Scope.addNodes]; the scopes below one form a tree, so that the number of
    scopes bounds the recursion. *)
Fixpoint addNodes (fuel : nat) (st : store) (s : nat) : SM dotGraph () :=
  match fuel with
  | O => liftO NoFuel
  | S fuel =>
      sc ← orPanic nilDeref (st_scopes st !! s);
      _ ← forEach (nodes sc) (addNode st);
      forEach (childScopes sc) (addNodes fuel st)
  end.

(** [createGraph]. *)
Definition createGraph (st : store) (s : nat) : outcome dotGraph :=
  let '(r, dg) := addNodes (length (st_scopes st)) st s NewGraph in
  _ ← r; Ret dg.
End create.

(** ** Printing *)

Record visualizeOptions := mkVisualizeOptions { vo_VisualizeError : option error }.

Inductive VisualizeOption := visualizeErrorOption (err : option error).

Definition VisualizeError (err : option error) : VisualizeOption := visualizeErrorOption err.

Definition applyVisualizeOption (o : VisualizeOption) (opt : visualizeOptions)
    : visualizeOptions :=
  match o with visualizeErrorOption err => mkVisualizeOptions err end.

Section print.
Context `{TT : TypeTable}.

Definition nl : string := String newline "".
Definition tb : string := String tab "".

Definition visualizeGroup (g : dotGroup) : string :=
  tb +:+ Quote (dotGroup_String g) +:+ " [" +:+ dotGroup_Attributes g +:+ "];" +:+ nl +:+
  String.concat "" (map (λ r,
    tb +:+ Quote (dotGroup_String g) +:+ " -> " +:+ Quote (dotResult_String r) +:+ ";" +:+ nl)
    (dg_Results g)).

(** The groups a constructor consumes are read through the arena. *)
Definition visualizeCtor (dg : dotGraph) (index : nat) (c : dotCtor) : string :=
  let i := Itoa index in
  tb +:+ "subgraph cluster_" +:+ i +:+ " {" +:+ nl +:+
  (if decide (dc_Package c ≠ "")
   then tb +:+ tb +:+ "label = " +:+ Quote (dc_Package c) +:+ ";" +:+ nl else "") +:+
  tb +:+ tb +:+ "constructor_" +:+ i +:+ " [shape=plaintext label=" +:+ Quote (dc_Name c) +:+
  "];" +:+ nl +:+
  (if decide (dc_ErrorType c ≠ noError)
   then tb +:+ tb +:+ "color=" +:+ Color (dc_ErrorType c) +:+ ";" +:+ nl else "") +:+
  String.concat "" (map (λ r,
    tb +:+ tb +:+ Quote (dotResult_String r) +:+ " [" +:+ dotResult_Attributes r +:+ "];" +:+ nl)
    (dc_Results c)) +:+
  tb +:+ "}" +:+ nl +:+
  String.concat "" (map (λ p,
    tb +:+ "constructor_" +:+ i +:+ " -> " +:+ Quote (dotParam_String p) +:+
    " [ltail=cluster_" +:+ i +:+ (if dp_Optional p then " style=dashed" else "") +:+ "];" +:+ nl)
    (dc_Params c)) +:+
  String.concat "" (map (λ g,
    tb +:+ "constructor_" +:+ i +:+ " -> " +:+ Quote (dotGroup_String g) +:+
    " [ltail=cluster_" +:+ i +:+ "];" +:+ nl)
    (omap (λ gp, groupArena dg !! gp) (dc_GroupParams c))).

Definition failedLine (color : string) (f : dotResult) : string :=
  tb +:+ Quote (dotResult_String f) +:+ " [color=" +:+ color +:+ "];" +:+ nl.

Definition visualizeGraph (dg : dotGraph) : string :=
  "digraph {" +:+ nl +:+ tb +:+ "rankdir=RL;" +:+ nl +:+ tb +:+ "graph [compound=true];" +:+ nl +:+
  String.concat "" (map visualizeGroup (omap (λ g, groupArena dg !! g) (Groups dg))) +:+
  String.concat "" (imap (visualizeCtor dg) (omap (λ c, ctorArena dg !! c) (Ctors dg))) +:+
  String.concat "" (map (failedLine "orange") (TransitiveFailures (Failed dg))) +:+
  String.concat "" (map (failedLine "red") (RootCauses (Failed dg))) +:+
  "}".

(** [Visualize] on the scope of a container. *)
Definition Visualize (st : store) (c : nat) (opts : list VisualizeOption) : outcome string :=
  dg ← createGraph st c;
  let options := foldl (λ opt o, applyVisualizeOption o opt) (mkVisualizeOptions None) opts in
  match vo_VisualizeError options with
  | None => Ret (visualizeGraph dg)
  | Some err =>
      let '(r, dg) := updateGraph err dg in
      _ ← r; Ret (visualizeGraph dg)
  end.
End print.
