(* ===== verification/Text.v ===== *)
(** * The text of containers and options

    [String] of scopes, constructors and options (scope.go, constructor.go,
    container.go, provide.go, decorate.go, invoke.go, visualize.go).  The text of
    addresses and of the user's values, and the order in which Go ranges over a map,
    are arguments. *)

From S2P Require Import Prelude Digraph GoLib GoTypes DigReflect Errors Group InOut.
From S2P Require Import Values DotTypes Result Store Options Scenario Param Call ResultProofs.
From S2P Require Import Deps Building ParamProofs Provide Decorate ProvideProofs Invoke Container.
From S2P Require Import Invariants Reachable Dot Visualize.

Open Scope string_scope.
Open Scope list_scope.

(** [fmt.Fprintln]: the operands with blanks between them, and a newline. *)
Definition Fprintln (l : list string) : string := Join " " l +:+ String newline "".

Definition tab : string := String (Ascii.ascii_of_nat 9) "".

(** ** Options *)

Section options.
Context (rand_ptr : randSource → string) (clock_text : nat → string) (info_ptr : positive → string).

Definition deferAcyclicVerification_String : string := "DeferAcyclicVerification()".
Definition recoverFromPanics_String : string := "RecoverFromPanics()".
Definition setRand_String (r : randSource) : string := "setRand(" +:+ rand_ptr r +:+ ")".
Definition setClock_String (c : nat) : string := "setClock(" +:+ clock_text c +:+ ")".
Definition dryRun_String (dry : bool) : string := "DryRun(" +:+ bool_String dry +:+ ")".

Definition fillProvideInfo_String (info : positive) : string :=
  "FillProvideInfo(" +:+ info_ptr info +:+ ")".
Definition fillDecorateInfo_String (info : positive) : string :=
  "FillDecorateInfo(" +:+ info_ptr info +:+ ")".
Definition fillInvokeInfo_String (info : positive) : string :=
  "FillInvokeInfo(" +:+ info_ptr info +:+ ")".
End options.

Definition visualizeError_String `{TypeTable} (err : option error) : string :=
  "VisualizeError(" +:+ match err with Some e => error_Format false e | None => "<nil>" end +:+ ")".

(** ** Scopes *)

Section scopes.
Context `{TT : TypeTable} (value_text : value → string).

Definition constructorNode_String (cn : constructorNode) : string :=
  "deps: " +:+ paramList_String (cn_paramList cn) +:+ ", ctor: " +:+ TypeString (fv_type (cn_ctor cn)).

(** The lines of one key of a map. *)
Definition provider_lines (st : store) (sc : Scope) (k : key) : list string :=
  omap (λ n, (λ cn, Fprintln [tab; key_String k; "->"; constructorNode_String cn]) <$> st_ctors st !! n)
       (getProviders sc k).
Definition value_lines (sc : Scope) (k : key) : list string :=
  (λ v, Fprintln [tab; key_String k; "=>"; value_text v]) <$> option_list (values sc !! k).
Definition group_lines (sc : Scope) (k : key) : list string :=
  (λ v, Fprintln [tab; key_String k; "=>"; value_text v]) <$> default [] (groups sc !! k).

(** [Scope.String], when the maps of providers, values and groups are ranged over in
    the orders [ps], [vs] and [gs]. *)
Definition Scope_lines (st : store) (sc : Scope) (ps vs gs : list key) : list string :=
  [Fprintln ["nodes: {"]] ++ concat (map (provider_lines st sc) ps) ++ [Fprintln ["}"]] ++
  [Fprintln ["values: {"]] ++ concat (map (value_lines sc) vs) ++ concat (map (group_lines sc) gs) ++
  [Fprintln ["}"]].

Definition Scope_String (st : store) (sc : Scope) (ps vs gs : list key) : string :=
  foldr String.append "" (Scope_lines st sc ps vs gs).

Definition Container_String (st : store) (c : Container) (ps vs gs : list key) : string :=
  match st_scopes st !! c_scope c with
  | Some sc => Scope_String st sc ps vs gs
  | None => ""
  end.

(** The orders do not matter to what is shown: the text has the same lines. *)
Lemma Scope_lines_perm st sc ps vs gs ps' vs' gs' :
  ps ≡ₚ ps' → vs ≡ₚ vs' → gs ≡ₚ gs' →
  Scope_lines st sc ps vs gs ≡ₚ Scope_lines st sc ps' vs' gs'.
Proof.
  assert (∀ (f : key → list string) l l', l ≡ₚ l' → concat (map f l) ≡ₚ concat (map f l')) as Hf.
  { intros f l l'. induction 1; simpl; [done|by f_equiv|by rewrite !app_assoc, (comm (++) (f _))|by etrans]. }
  intros Hp Hv Hg. unfold Scope_lines.
  by rewrite (Hf _ _ _ Hp), (Hf _ _ _ Hv), (Hf _ _ _ Hg).
Qed.
End scopes.

Section text_example.
#[local] Existing Instance plainEnv.

(** The container with [func() A] and [func(A) B] once [B] has been built, and an empty
    one. *)
Example Scope_String_example :
  let st := builtStore in
  Scope_lines (λ _, "x") st (default blankScope (st_scopes st !! 0))
              [valueKey "" tA; valueKey "" tB] [valueKey "" tB; valueKey "" tA] [] =
  Fprintln <$> [["nodes: {"]; [tab; "main.A"; "->"; "deps: [], ctor: func"];
                [tab; "main.B"; "->"; "deps: [main.A], ctor: func"]; ["}"];
                ["values: {"]; [tab; "main.B"; "=>"; "x"]; [tab; "main.A"; "=>"; "x"]; ["}"]].
Proof. vm_compute. reflexivity. Qed.
End text_example.
