(* ===== verification/DotProofs.v ===== *)
(** * Properties of the DOT graph

    [dot_wf] is the invariant of a graph under construction: the groups hold
    exactly the grouped results of the constructors, each under its index, and the
    index of consumers is complete.  On such a graph pruning keeps exactly what
    failed and leaves no dangling reference. *)

From S2P Require Import Prelude GoLib GoTypes DigReflect Errors Values DotTypes Dot.

Open Scope list_scope.

(** ** Pruning

    What removing the results [R] does to a constructor, to a group and to the
    whole graph. *)

Definition strip (R : list dotResult) (c : dotCtor) : dotCtor :=
  setParams (filter (λ p, param_nodeKey p ∉ result_nodeKey <$> R) (dc_Params c)) c.

#[export] Instance dotResult_eq_dec : EqDecision dotResult.
Proof. solve_decision. Defined.

Definition stripGroup (R : list dotResult) (g : dotGroup) : dotGroup :=
  setResults (filter (λ r, r ∉ R) (dg_Results g)) g.

Definition stripped (R : list dotResult) (m : gmap positive nat) (dg : dotGraph) : dotGraph :=
  mkDotGraph (strip R <$> ctorArena dg) (stripGroup R <$> groupArena dg) (Ctors dg) m
    (Groups dg) (groupMap dg) (consumers dg) (Failed dg).

(** What pruning relies on. *)
Record prunable (dg : dotGraph) : Prop := {
  pr_consumers : ∀ i c p, ctorArena dg !! i = Some c → p ∈ dc_Params c →
    ∃ l, consumers dg !! param_nodeKey p = Some l ∧ i ∈ l;
  pr_groupMap : ∀ k g,
    groupMap dg !! k = Some g ↔ group_nodeKey <$> groupArena dg !! g = Some k;
  pr_results : ∀ g gr r, groupArena dg !! g = Some gr → r ∈ dg_Results gr →
    result_nodeKey r = group_nodeKey gr ∧ n_Group (dr_Node r) ≠ ""%string
}.

(** A loop that applies an idempotent update at every listed position. *)
Lemma foldl_alter_lookup {A} (f : A → A) (l : list nat) (a : list A) j :
  (∀ x, f (f x) = f x) →
  foldl (λ a i, alter f i a) a l !! j = (if decide (j ∈ l) then f else id) <$> a !! j.
Proof.
  intros Hf. revert a; induction l as [|i l IH]; intros a; simpl.
  { by destruct (a !! j). }
  rewrite IH. destruct (decide (i = j)) as [->|Hne].
  - rewrite list_lookup_alter_eq. rewrite (decide_True (P := j ∈ j :: l)) by set_solver.
    destruct (decide (j ∈ l)), (a !! j); simpl; rewrite ?Hf; done.
  - rewrite list_lookup_alter_ne by done.
    destruct (decide (j ∈ l)), (decide (j ∈ i :: l)); try done; exfalso; set_solver.
Qed.

Lemma fmap_fixed {A} (f : A → A) (l : list A) :
  (∀ i x, l !! i = Some x → f x = x) → f <$> l = l.
Proof.
  intros H. apply list_eq. intros j. rewrite list_lookup_fmap.
  destruct (l !! j) eqn:Hj; simpl; [|done]. by rewrite (H j _ Hj).
Qed.

Lemma foldl_alter_fmap {A} (f : A → A) (l : list nat) (a : list A) :
  (∀ x, f (f x) = f x) → (∀ i x, a !! i = Some x → i ∉ l → f x = x) →
  foldl (λ a i, alter f i a) a l = f <$> a.
Proof.
  intros Hf Hl. apply list_eq. intros j. rewrite foldl_alter_lookup, list_lookup_fmap by done.
  destruct (a !! j) eqn:Hj; simpl; [|done]. destruct (decide _); [done|]. by rewrite Hl with j _.
Qed.

Lemma foldl_upd_ctor f l dg :
  foldl (λ dg i, upd_ctor i f dg) dg l =
  mkDotGraph (foldl (λ a i, alter f i a) (ctorArena dg) l) (groupArena dg) (Ctors dg)
    (ctorMap dg) (Groups dg) (groupMap dg) (consumers dg) (Failed dg).
Proof. revert dg; induction l as [|i l IH]; intros dg; simpl; [by destruct dg|]. by rewrite IH. Qed.

Lemma filter_id {A} (P : A → Prop) `{∀ x, Decision (P x)} (l : list A) :
  (∀ x, x ∈ l → P x) → filter P l = l.
Proof.
  induction l as [|x l IH]; intros HP; [done|]. rewrite filter_cons_True by set_solver.
  by rewrite IH by set_solver.
Qed.

Lemma setParams_id c : setParams (dc_Params c) c = c.
Proof. by destruct c. Qed.

Lemma setResults_id g : setResults (dg_Results g) g = g.
Proof. by destruct g. Qed.

Lemma removeParam_idemp k c : removeParam k (removeParam k c) = removeParam k c.
Proof.
  unfold removeParam. destruct c; unfold setParams; simpl. f_equal.
  apply filter_id. intros p. by rewrite list_elem_of_filter; intros [? _].
Qed.

Lemma strip_cons r R c : strip R (removeParam (result_nodeKey r) c) = strip (r :: R) c.
Proof.
  unfold strip, removeParam. destruct c; unfold setParams; simpl. f_equal.
  rewrite list_filter_filter. apply list_filter_iff. intros p. set_solver.
Qed.

Lemma strip_app R R' c : strip R' (strip R c) = strip (R ++ R') c.
Proof.
  unfold strip. destruct c; unfold setParams; simpl. f_equal.
  rewrite list_filter_filter. apply list_filter_iff. intros p. set_solver.
Qed.

Lemma stripGroup_app R R' g : stripGroup R' (stripGroup R g) = stripGroup (R ++ R') g.
Proof.
  unfold stripGroup. destruct g; unfold setResults; simpl. f_equal.
  rewrite list_filter_filter. apply list_filter_iff. intros p. set_solver.
Qed.

Lemma strip_nil c : strip [] c = c.
Proof. unfold strip. rewrite filter_id by set_solver. apply setParams_id. Qed.

Lemma stripGroup_nil g : stripGroup [] g = g.
Proof. unfold stripGroup. rewrite filter_id by set_solver. apply setResults_id. Qed.

Lemma stripped_nil dg : stripped [] (ctorMap dg) dg = dg.
Proof.
  unfold stripped. destruct dg; simpl.
  f_equal; apply fmap_fixed; auto using strip_nil, stripGroup_nil.
Qed.

Lemma stripped_stripped R R' m m' dg :
  stripped R' m' (stripped R m dg) = stripped (R ++ R') m' dg.
Proof.
  unfold stripped; simpl. f_equal; rewrite <-list_fmap_compose; apply list_fmap_ext;
    intros; simpl; auto using strip_app, stripGroup_app.
Qed.

Lemma prunable_stripped R m dg : prunable dg → prunable (stripped R m dg).
Proof.
  intros [Hc Hm Hr]; split; unfold stripped; simpl.
  - intros i c p. rewrite list_lookup_fmap, fmap_Some. intros (c0 & Hi & ->).
    unfold strip; simpl. rewrite list_elem_of_filter. intros [_ ?]. eauto.
  - intros k g. rewrite Hm, list_lookup_fmap. by destruct (groupArena dg !! g).
  - intros g gr r. rewrite list_lookup_fmap, fmap_Some. intros (g0 & Hi & ->).
    unfold stripGroup; simpl. rewrite list_elem_of_filter. intros [_ ?].
    destruct (Hr _ _ _ Hi H). done.
Qed.

(** One round of each loop. *)
Lemma pruneCtorParams_round r dg :
  prunable dg →
  foldl (λ dg ctor, upd_ctor ctor (removeParam (result_nodeKey r)) dg) dg
    (default [] (consumers dg !! result_nodeKey r)) =
  mkDotGraph (removeParam (result_nodeKey r) <$> ctorArena dg) (groupArena dg) (Ctors dg)
    (ctorMap dg) (Groups dg) (groupMap dg) (consumers dg) (Failed dg).
Proof.
  intros Hp. rewrite foldl_upd_ctor. f_equal.
  apply foldl_alter_fmap; [apply removeParam_idemp|]. intros i c Hi Hn.
  unfold removeParam. rewrite filter_id; [apply setParams_id|].
  intros p Hin Heq. destruct (pr_consumers dg Hp i c p Hi Hin) as (l & Hl & ?).
  rewrite <-Heq in Hl. rewrite Hl in Hn. done.
Qed.

Lemma removeResult_strip r g :
  (∀ r', r' ∈ dg_Results g → result_nodeKey r' = result_nodeKey r) →
  removeResult r g = stripGroup [r] g.
Proof.
  intros Hk. unfold removeResult, stripGroup. f_equal.
  revert Hk. generalize (dg_Results g). intros l.
  induction l as [|x l IH]; intros Hk; [done|]. rewrite !filter_cons, IH by set_solver.
  assert (Hx : dr_GroupIndex r ≠ dr_GroupIndex x ↔ x ∉ [r]).
  { rewrite list_elem_of_singleton. split; [congruence|]. intros Hne Heq. apply Hne.
    specialize (Hk x (list_elem_of_here _ _)). destruct r as [[]], x as [[]].
    unfold result_nodeKey, node_nodeKey in Hk. simpl in *. congruence. }
  destruct (decide _), (decide _); tauto.
Qed.

Lemma alter_fmap {A} (f : A → A) i (a : list A) :
  (∀ j x, a !! j = Some x → j ≠ i → f x = x) → alter f i a = f <$> a.
Proof.
  intros H. apply list_eq. intros j. rewrite list_lookup_fmap.
  destruct (decide (i = j)) as [->|?]; [by rewrite list_lookup_alter_eq|].
  rewrite list_lookup_alter_ne by done. destruct (a !! j) eqn:Hj; simpl; [|done].
  by rewrite H with j _.
Qed.

Lemma stripGroup_other r g :
  (∀ r', r' ∈ dg_Results g → r' ≠ r) → stripGroup [r] g = g.
Proof. intros H. unfold stripGroup. rewrite filter_id by set_solver. apply setResults_id. Qed.

Lemma pruneGroupResults_round r dg :
  prunable dg →
  (let k := result_nodeKey r in
   if decide (k_group k = ""%string) then dg
   else match groupMap dg !! k with
        | Some g => upd_group g (removeResult r) dg
        | None => dg
        end) =
  mkDotGraph (ctorArena dg) (stripGroup [r] <$> groupArena dg) (Ctors dg)
    (ctorMap dg) (Groups dg) (groupMap dg) (consumers dg) (Failed dg).
Proof.
  intros Hp. simpl.
  assert (Hother : (∀ g gr, groupArena dg !! g = Some gr → r ∉ dg_Results gr) →
    dg = mkDotGraph (ctorArena dg) (stripGroup [r] <$> groupArena dg) (Ctors dg)
      (ctorMap dg) (Groups dg) (groupMap dg) (consumers dg) (Failed dg)).
  { intros H. destruct dg as [ca ga]; simpl in *. f_equal. symmetry.
    apply fmap_fixed. intros i x Hi. apply stripGroup_other. intros r' Hr' ->. by eapply H. }
  destruct (decide _) as [He|He].
  { apply Hother. intros g gr Hg Hr. by destruct (pr_results dg Hp g gr r Hg Hr). }
  destruct (groupMap dg !! result_nodeKey r) as [g|] eqn:Hg.
  - unfold upd_group. f_equal. apply (pr_groupMap dg Hp) in Hg as Hk.
    apply fmap_Some in Hk as (gr & Hgr & Hk).
    rewrite <-alter_fmap with (i := g).
    + apply list_eq. intros j. destruct (decide (g = j)) as [->|?];
        [|by rewrite !list_lookup_alter_ne]. rewrite !list_lookup_alter_eq, Hgr. simpl.
      rewrite removeResult_strip; [done|]. intros r' Hr'.
      destruct (pr_results dg Hp _ _ _ Hgr Hr'). congruence.
    + intros j x Hj Hne. apply stripGroup_other. intros r' Hr' ->.
      destruct (pr_results dg Hp _ _ _ Hj Hr') as [Hx _].
      apply Hne. assert (Hj' : groupMap dg !! result_nodeKey r = Some j).
      { apply (pr_groupMap dg Hp). rewrite Hj. simpl. congruence. }
      congruence.
  - apply Hother. intros g gr Hgr Hr. destruct (pr_results dg Hp _ _ _ Hgr Hr) as [Hx _].
    assert (groupMap dg !! result_nodeKey r = Some g); [|congruence].
    apply (pr_groupMap dg Hp). rewrite Hgr. simpl. congruence.
Qed.

Lemma pruneCtorParams_spec c dg :
  prunable dg →
  pruneCtorParams c dg =
  mkDotGraph (strip (dc_Results c) <$> ctorArena dg) (groupArena dg) (Ctors dg)
    (ctorMap dg) (Groups dg) (groupMap dg) (consumers dg) (Failed dg).
Proof.
  unfold pruneCtorParams. generalize (dc_Results c). intros R. revert dg.
  induction R as [|r R IH]; intros dg Hp; cbn [foldl].
  { destruct dg; simpl. f_equal. symmetry. apply fmap_fixed. auto using strip_nil. }
  rewrite pruneCtorParams_round by done. rewrite IH; simpl.
  - f_equal. rewrite <-list_fmap_compose. apply list_fmap_ext. intros. apply strip_cons.
  - destruct Hp as [Hc Hm Hr]; split; [|done|done]. simpl. intros i c' p.
    rewrite list_lookup_fmap, fmap_Some. intros (c0 & Hi & ->). simpl.
    rewrite list_elem_of_filter. intros [_ ?]. eauto.
Qed.

Lemma pruneGroupResults_spec c dg :
  prunable dg →
  pruneGroupResults c dg =
  mkDotGraph (ctorArena dg) (stripGroup (dc_Results c) <$> groupArena dg) (Ctors dg)
    (ctorMap dg) (Groups dg) (groupMap dg) (consumers dg) (Failed dg).
Proof.
  unfold pruneGroupResults. generalize (dc_Results c). intros R. revert dg.
  induction R as [|r R IH]; intros dg Hp; cbn [foldl].
  { destruct dg; simpl. f_equal. symmetry. apply fmap_fixed. auto using stripGroup_nil. }
  rewrite pruneGroupResults_round by done. rewrite IH; simpl.
  - f_equal. rewrite <-list_fmap_compose. apply list_fmap_ext. intros.
    apply (stripGroup_app [r]).
  - destruct (prunable_stripped [r] (ctorMap dg) dg Hp) as [_ Hm Hr].
    destruct Hp as [Hc _ _]. split; [exact Hc|exact Hm|exact Hr].
Qed.

Lemma prune_round c dg :
  prunable dg →
  deleteCtor (dc_ID c) (pruneGroupResults c (pruneCtorParams c dg)) =
  stripped (dc_Results c) (delete (dc_ID c) (ctorMap dg)) dg.
Proof.
  intros Hp. rewrite pruneCtorParams_spec, pruneGroupResults_spec; [done| |done].
  destruct (prunable_stripped (dc_Results c) (ctorMap dg) dg Hp) as [Hc _ _].
  destruct Hp as [_ Hm Hr]. split; [exact Hc|exact Hm|exact Hr].
Qed.

(** Which constructors and groups have failed, and the results that go. *)
Definition ctorFailed (failed : gset positive) (dg : dotGraph) (i : nat) : bool :=
  match ctorArena dg !! i with Some c => bool_decide (dc_ID c ∈ failed) | None => false end.

Definition groupFailed (failed : gset nodeKey) (dg : dotGraph) (g : nat) : bool :=
  match groupArena dg !! g with
  | Some gr => bool_decide (group_nodeKey gr ∈ failed)
  | None => false
  end.

Definition removedResults (failed : gset positive) (dg : dotGraph) (cs : list nat)
    : list dotResult :=
  concat (map (λ i, if ctorFailed failed dg i then []
                    else from_option dc_Results [] (ctorArena dg !! i)) cs).

Lemma ctorFailed_stripped failed R m dg i :
  ctorFailed failed (stripped R m dg) i = ctorFailed failed dg i.
Proof. unfold ctorFailed; simpl. rewrite list_lookup_fmap. by destruct (ctorArena dg !! i). Qed.

Lemma removedResults_stripped failed R m dg cs :
  removedResults failed (stripped R m dg) cs = removedResults failed dg cs.
Proof.
  unfold removedResults. f_equal. apply map_ext. intros i. rewrite ctorFailed_stripped. simpl.
  rewrite list_lookup_fmap. by destruct (ctorArena dg !! i).
Qed.

Lemma pruneCtors_loop_spec failed cs dg :
  prunable dg →
  ∃ m, pruneCtors_loop failed cs dg =
       (List.filter (ctorFailed failed dg) cs, stripped (removedResults failed dg cs) m dg).
Proof.
  revert dg; induction cs as [|i cs IH]; intros dg Hp; simpl.
  { exists (ctorMap dg). by rewrite stripped_nil. }
  change (removedResults failed dg (i :: cs)) with
    ((if ctorFailed failed dg i then [] else from_option dc_Results [] (ctorArena dg !! i)) ++
     removedResults failed dg cs).
  destruct (ctorFailed failed dg i) eqn:Hf; unfold ctorFailed in Hf;
    destruct (ctorArena dg !! i) as [c|] eqn:Hi; try done; simpl; [| |by apply IH].
  - apply bool_decide_eq_true in Hf. rewrite decide_True by done.
    destruct (IH dg Hp) as (m & ->). by exists m.
  - apply bool_decide_eq_false in Hf. rewrite decide_False, prune_round by done.
    destruct (IH (stripped (dc_Results c) (delete (dc_ID c) (ctorMap dg)) dg)) as (m & ->);
      [by apply prunable_stripped|].
    exists m. rewrite stripped_stripped, removedResults_stripped. f_equal.
    apply filter_ext. intros j. apply ctorFailed_stripped.
Qed.

(** Deleting the keys of the groups that have not failed. *)
Lemma pruneGroups_loop_spec failed gs dg :
  ∃ m, pruneGroups_loop failed gs dg =
         (List.filter (groupFailed failed dg) gs,
          mkDotGraph (ctorArena dg) (groupArena dg) (Ctors dg) (ctorMap dg) (Groups dg) m
            (consumers dg) (Failed dg)) ∧
       ∀ k, is_Some (m !! k) ↔ is_Some (groupMap dg !! k) ∧
         (k ∈ failed ∨ ∀ g gr, g ∈ gs → groupArena dg !! g = Some gr → group_nodeKey gr ≠ k).
Proof.
  revert dg; induction gs as [|i gs IH]; intros dg; simpl.
  { exists (groupMap dg). split; [by destruct dg|]. set_solver. }
  destruct (groupFailed failed dg i) eqn:Hf; unfold groupFailed in Hf;
    destruct (groupArena dg !! i) as [gr|] eqn:Hi; try done; simpl.
  - apply bool_decide_eq_true in Hf. rewrite decide_True by done.
    destruct (IH dg) as (m & -> & Hm). exists m. split; [done|]. intros k. rewrite Hm.
    split; intros [Hk [?|Hg]]; split; auto.
    + destruct (decide (k = group_nodeKey gr)) as [->|]; [auto|]. right.
      intros g gr' [->|?]%elem_of_cons ?; [congruence|eauto].
    + right. intros g gr' ? ?. apply (Hg g); set_solver.
  - apply bool_decide_eq_false in Hf. rewrite decide_False by done.
    destruct (IH (mkDotGraph (ctorArena dg) (groupArena dg) (Ctors dg) (ctorMap dg) (Groups dg)
      (delete (group_nodeKey gr) (groupMap dg)) (consumers dg) (Failed dg))) as (m & -> & Hm).
    exists m. split; [done|]. intros k. rewrite Hm. simpl.
    destruct (decide (k = group_nodeKey gr)) as [->|Hne].
    + rewrite lookup_delete_eq. split; [intros [[] ]; done|].
      intros [? [?|Hg]]; [done|]. by destruct (Hg i gr); [set_solver|..].
    + rewrite lookup_delete_ne by done. split; intros [Hk [?|Hg]]; split; auto.
      * right. intros g gr' [->|?]%elem_of_cons ?; [congruence|eauto].
      * right. intros g gr' ? ?. apply (Hg g); set_solver.
  - destruct (IH dg) as (m & -> & Hm). exists m. split; [done|]. intros k. rewrite Hm.
    split; intros [Hk [?|Hg]]; split; auto; right; intros g gr' Hin Hgr; apply (Hg g gr');
      try done; [|set_solver]. apply elem_of_cons in Hin as [->|?]; [congruence|done].
Qed.

Lemma pruneCtorGroupParams_spec dg :
  pruneCtorGroupParams dg =
  mkDotGraph
    (foldl (λ a i, alter (λ c,
       setGroupParams (List.filter (groupPresent dg) (dc_GroupParams c)) c) i a)
       (ctorArena dg) (Ctors dg))
    (groupArena dg) (Ctors dg) (ctorMap dg) (Groups dg) (groupMap dg) (consumers dg) (Failed dg).
Proof.
  unfold pruneCtorGroupParams. rewrite <-foldl_upd_ctor. generalize (Ctors dg). intros cs.
  assert (H : ∀ dg', groupArena dg' = groupArena dg → groupMap dg' = groupMap dg →
    foldl (λ dg i, upd_ctor i (λ c,
      setGroupParams (List.filter (groupPresent dg) (dc_GroupParams c)) c) dg) dg' cs =
    foldl (λ dg' i, upd_ctor i (λ c,
      setGroupParams (List.filter (groupPresent dg) (dc_GroupParams c)) c) dg') dg' cs);
    [|by apply H].
  induction cs as [|i cs IH]; intros dg' Ha Hm; simpl; [done|].
  rewrite IH by done. f_equal. unfold upd_ctor. f_equal. unfold groupPresent. by rewrite Ha, Hm.
Qed.

(** ** The invariant of a graph that has not been pruned *)

Definition grouped (r : dotResult) : Prop := n_Group (dr_Node r) ≠ ""%string.

(** [extra] are results already put into their groups whose constructor has not
    been added yet. *)
Record dot_inv (extra : list dotResult) (dg : dotGraph) : Prop := {
  dw_Ctors : Ctors dg = seq 0 (length (ctorArena dg));
  dw_Groups : Groups dg = seq 0 (length (groupArena dg));
  dw_ctorMap : ∀ id i, ctorMap dg !! id = Some i → dc_ID <$> ctorArena dg !! i = Some id;
  dw_groupMap : ∀ k g,
    groupMap dg !! k = Some g ↔ group_nodeKey <$> groupArena dg !! g = Some k;
  dw_consumers : ∀ i c p, ctorArena dg !! i = Some c → p ∈ dc_Params c →
    ∃ l, consumers dg !! param_nodeKey p = Some l ∧ i ∈ l;
  dw_groupParams : ∀ i c g, ctorArena dg !! i = Some c → g ∈ dc_GroupParams c →
    g < length (groupArena dg);
  dw_results : ∀ g gr j r, groupArena dg !! g = Some gr → dg_Results gr !! j = Some r →
    dr_GroupIndex r = j ∧ result_nodeKey r = group_nodeKey gr ∧ grouped r;
  dw_members : filter grouped (concat (map dc_Results (ctorArena dg)) ++ extra) ≡ₚ
               concat (map dg_Results (groupArena dg))
}.

Abbreviation dot_wf := (dot_inv []).

Lemma dot_wf_prunable dg : dot_wf dg → prunable dg.
Proof.
  intros [_ _ _ Hm Hc _ Hr _]. split; [done|done|].
  intros g gr r Hg [j Hj]%list_elem_of_lookup_1. by destruct (Hr g gr j r Hg Hj) as (_ & ? & ?).
Qed.

(** A grouped result is in the group of its key, under its index. *)
Lemma dot_wf_member dg i c r :
  dot_wf dg → ctorArena dg !! i = Some c → r ∈ dc_Results c → grouped r →
  ∃ g gr, groupMap dg !! result_nodeKey r = Some g ∧ groupArena dg !! g = Some gr ∧
          dg_Results gr !! dr_GroupIndex r = Some r.
Proof.
  intros Hwf Hi Hr Hg.
  assert (Hin : r ∈ concat (map dg_Results (groupArena dg))).
  { rewrite <-(dw_members [] dg Hwf), app_nil_r, list_elem_of_filter, elem_of_concat_map. split; [done|].
    exists c. split; [by eapply list_elem_of_lookup_2|done]. }
  apply elem_of_concat_map in Hin as (gr & [g Hgr]%list_elem_of_lookup & Hrl).
  apply list_elem_of_lookup in Hrl as [j Hj].
  destruct (dw_results [] dg Hwf g gr j r Hgr Hj) as (-> & Hk & _).
  exists g, gr. split_and!; [|done|done]. apply (dw_groupMap [] dg Hwf). rewrite Hgr. simpl. congruence.
Qed.

(** A result of a group is a result of a constructor. *)
Lemma dot_wf_owner dg g gr r :
  dot_wf dg → groupArena dg !! g = Some gr → r ∈ dg_Results gr →
  ∃ i c, i ∈ Ctors dg ∧ ctorArena dg !! i = Some c ∧ r ∈ dc_Results c.
Proof.
  intros Hwf Hgr Hr.
  assert (Hin : r ∈ concat (map dg_Results (groupArena dg))).
  { apply elem_of_concat_map. exists gr. split; [by eapply list_elem_of_lookup_2|done]. }
  rewrite <-(dw_members [] dg Hwf), app_nil_r, list_elem_of_filter, elem_of_concat_map in Hin.
  destruct Hin as (_ & c & [i Hi]%list_elem_of_lookup & Hrc). exists i, c.
  split_and!; [|done|done]. rewrite (dw_Ctors [] dg Hwf), elem_of_seq.
  apply lookup_lt_Some in Hi. lia.
Qed.

(** What is left of a failed constructor. *)
Definition prunedCtor (dg : dotGraph) (c : dotCtor) : dotCtor :=
  setGroupParams
    (List.filter (groupFailed (failed_groups (Failed dg)) dg) (dc_GroupParams c))
    (strip (removedResults (failed_ctors (Failed dg)) dg (Ctors dg)) c).

Lemma groupFailed_stripped failed R m dg g :
  groupFailed failed (stripped R m dg) g = groupFailed failed dg g.
Proof. unfold groupFailed; simpl. rewrite list_lookup_fmap. by destruct (groupArena dg !! g). Qed.

Lemma List_filter_idemp {A} (f : A → bool) l :
  List.filter f (List.filter f l) = List.filter f l.
Proof. induction l as [|x l IH]; simpl; [done|]. destruct (f x) eqn:Hx; simpl; rewrite ?Hx; congruence. Qed.

(** After the group map is pruned, the groups present are the failed ones. *)
Lemma groupPresent_pruned failed R m gm dg g :
  dot_wf dg → g < length (groupArena dg) →
  (∀ k, is_Some (gm !! k) ↔ is_Some (groupMap dg !! k) ∧
     (k ∈ failed ∨ ∀ g gr, g ∈ Groups dg → (stripGroup R <$> groupArena dg) !! g = Some gr →
                           group_nodeKey gr ≠ k)) →
  groupPresent (mkDotGraph m (stripGroup R <$> groupArena dg) (Ctors dg) (ctorMap dg)
                  (Groups dg) gm (consumers dg) (Failed dg)) g = groupFailed failed dg g.
Proof.
  intros Hwf Hg Hgm. apply lookup_lt_is_Some_2 in Hg as [gr Hgr].
  assert (Hs : (stripGroup R <$> groupArena dg) !! g = Some (stripGroup R gr))
    by (rewrite list_lookup_fmap; by rewrite Hgr).
  unfold groupPresent, groupFailed. cbn [groupArena groupMap]. rewrite Hs, Hgr.
  change (group_nodeKey (stripGroup R gr)) with (group_nodeKey gr).
  apply bool_decide_ext. rewrite Hgm. split.
  - intros [_ [?|Hn]]; [done|]. destruct (Hn g (stripGroup R gr)); [|done|done].
    rewrite (dw_Groups [] dg Hwf). apply elem_of_seq. apply lookup_lt_Some in Hgr. lia.
  - intros Hf. split; [|by left]. exists g. apply (dw_groupMap [] dg Hwf). by rewrite Hgr.
Qed.

(** The graph after pruning, field by field. *)
Lemma PruneSuccess_eq dg :
  dot_wf dg →
  let R := removedResults (failed_ctors (Failed dg)) dg (Ctors dg) in
  Ctors (PruneSuccess dg) = List.filter (ctorFailed (failed_ctors (Failed dg)) dg) (Ctors dg) ∧
  Groups (PruneSuccess dg) = List.filter (groupFailed (failed_groups (Failed dg)) dg) (Groups dg) ∧
  Failed (PruneSuccess dg) = Failed dg ∧
  groupArena (PruneSuccess dg) = (stripGroup R <$> groupArena dg) ∧
  ∀ i c, i ∈ Ctors (PruneSuccess dg) → ctorArena dg !! i = Some c →
    ctorArena (PruneSuccess dg) !! i = Some (prunedCtor dg c).
Proof.
  intros Hwf R. pose proof (dot_wf_prunable dg Hwf) as Hp.
  unfold PruneSuccess, pruneCtors, pruneGroups.
  destruct (pruneCtors_loop_spec (failed_ctors (Failed dg)) (Ctors dg) dg Hp) as (m & ->).
  fold R. cbn -[pruneCtorGroupParams pruneGroups_loop].
  match goal with |- context [pruneGroups_loop ?f ?gs ?d] => set (d1 := d);
    destruct (pruneGroups_loop_spec f gs d1) as (gm & -> & Hgm) end.
  rewrite pruneCtorGroupParams_spec. cbn -[ctorFailed groupFailed groupPresent].
  assert (Hgf : ∀ g, groupFailed (failed_groups (Failed dg)) d1 g =
                     groupFailed (failed_groups (Failed dg)) dg g).
  { intros g. apply (groupFailed_stripped _ R m). }
  split_and!; [done|by apply filter_ext|done|done|].
  intros i c Hi Hc. rewrite foldl_alter_lookup, decide_True, list_lookup_fmap, Hc; [|done|].
  - simpl. f_equal. unfold prunedCtor, strip, setGroupParams, setParams; simpl. f_equal.
    apply filter_ext_in. intros g Hg%list_elem_of_In.
    rewrite <-groupPresent_pruned with (R := R) (gm := gm) (m := ctorArena dg);
      [done|done|by eapply (dw_groupParams [] dg Hwf)|exact Hgm].
  - intros x. unfold setGroupParams; simpl. f_equal. apply List_filter_idemp.
Qed.

Lemma elem_of_removedResults failed dg cs r :
  r ∈ removedResults failed dg cs ↔
  ∃ i c, i ∈ cs ∧ ctorArena dg !! i = Some c ∧ dc_ID c ∉ failed ∧ r ∈ dc_Results c.
Proof.
  unfold removedResults. rewrite elem_of_concat_map. split.
  - intros (i & Hi & Hr). unfold ctorFailed in Hr. destruct (ctorArena dg !! i) as [c|] eqn:Hc.
    + case_bool_decide; [set_solver|]. exists i, c. auto.
    + set_solver.
  - intros (i & c & Hi & Hc & Hf & Hr). exists i. split; [done|]. unfold ctorFailed. rewrite Hc.
    by rewrite bool_decide_false by done.
Qed.

Lemma elem_of_kept_ctor failed dg i :
  i ∈ List.filter (ctorFailed failed dg) (Ctors dg) ↔
  i ∈ Ctors dg ∧ ∃ c, ctorArena dg !! i = Some c ∧ dc_ID c ∈ failed.
Proof.
  rewrite list_elem_of_In, filter_In, <-list_elem_of_In. unfold ctorFailed.
  destruct (ctorArena dg !! i) as [c|]; [rewrite bool_decide_eq_true|]; naive_solver.
Qed.

(** C27: pruning leaves no dangling reference.  In the pruned graph of a
    well-formed one, every constructor shown has failed; the groups it consumes
    are shown; no parameter of it is the result of a constructor that is gone; and
    every result shown in a group belongs to a constructor that is shown. *)
Theorem PruneSuccess_closed dg :
  dot_wf dg →
  let dg' := PruneSuccess dg in
  (∀ i, i ∈ Ctors dg' → ∃ c, ctorArena dg' !! i = Some c ∧ dc_ID c ∈ failed_ctors (Failed dg) ∧
     (∀ g, g ∈ dc_GroupParams c → g ∈ Groups dg') ∧
     ∀ p j cj r, p ∈ dc_Params c → j ∈ Ctors dg → j ∉ Ctors dg' → ctorArena dg !! j = Some cj →
       r ∈ dc_Results cj → result_nodeKey r ≠ param_nodeKey p) ∧
  (∀ g, g ∈ Groups dg' → ∃ gr, groupArena dg' !! g = Some gr ∧
     group_nodeKey gr ∈ failed_groups (Failed dg) ∧
     ∀ r, r ∈ dg_Results gr → ∃ i c, i ∈ Ctors dg' ∧ ctorArena dg' !! i = Some c ∧
       r ∈ dc_Results c).
Proof.
  intros Hwf. cbv zeta. destruct (PruneSuccess_eq dg Hwf) as (HC & HG & _ & Ha & Hc).
  rewrite HC in Hc. rewrite HC, HG, Ha. split.
  - intros i Hi. destruct (proj1 (elem_of_kept_ctor _ _ _) Hi) as (_ & c & Hci & Hf).
    exists (prunedCtor dg c). split_and!; [by apply Hc|done| |].
    + intros g Hg. cbn in Hg. rewrite list_elem_of_In, filter_In, <-list_elem_of_In in Hg.
      destruct Hg as [Hg Hgf]. rewrite list_elem_of_In, filter_In, <-list_elem_of_In.
      split; [|done]. rewrite (dw_Groups [] dg Hwf), elem_of_seq.
      pose proof (dw_groupParams [] dg Hwf i c g Hci Hg). lia.
    + intros p j cj r Hp Hj Hn Hcj Hr Heq. cbn in Hp. apply list_elem_of_filter in Hp as [Hp _].
      apply Hp, list_elem_of_fmap. exists r. split; [done|].
      apply elem_of_removedResults. exists j, cj. split_and!; [done|done| |done].
      intros Hjf. apply Hn, elem_of_kept_ctor. eauto.
  - intros g Hg. rewrite list_elem_of_In, filter_In, <-list_elem_of_In in Hg.
    destruct Hg as [_ Hgf]. unfold groupFailed in Hgf.
    destruct (groupArena dg !! g) as [gr|] eqn:Hgr; [|done]. apply bool_decide_eq_true in Hgf.
    exists (stripGroup (removedResults (failed_ctors (Failed dg)) dg (Ctors dg)) gr).
    rewrite list_lookup_fmap, Hgr. split_and!; [done|done|]. intros r.
    cbn. rewrite list_elem_of_filter. intros [Hn Hr].
    destruct (dot_wf_owner dg g gr r Hwf Hgr Hr) as (i & c & Hi & Hci & Hrc).
    assert (Hk : i ∈ List.filter (ctorFailed (failed_ctors (Failed dg)) dg) (Ctors dg)).
    { apply elem_of_kept_ctor. split; [done|]. exists c. split; [done|].
      destruct (decide (dc_ID c ∈ failed_ctors (Failed dg))); [done|]. destruct Hn.
      apply elem_of_removedResults. eauto 10. }
    exists i, (prunedCtor dg c). split_and!; [done|by apply Hc|done].
Qed.
