(* ===== verification/DotBuild.v ===== *)
(** * Building the DOT graph keeps its invariant *)

From S2P Require Import Prelude GoLib GoTypes DigReflect Errors Values DotTypes Dot.
From S2P Require Import DotProofs.

Open Scope list_scope.

(** Groups are only added while a constructor is read. *)
Record dot_grows (dg dg' : dotGraph) : Prop := {
  dgr_ctorArena : ctorArena dg' = ctorArena dg;
  dgr_Ctors : Ctors dg' = Ctors dg;
  dgr_ctorMap : ctorMap dg' = ctorMap dg;
  dgr_consumers : consumers dg' = consumers dg;
  dgr_Failed : Failed dg' = Failed dg;
  dgr_groups : length (groupArena dg) <= length (groupArena dg');
  dgr_groupMap : groupMap dg ⊆ groupMap dg'
}.

#[export] Instance dot_grows_preorder : PreOrder dot_grows.
Proof.
  split; [done|]. intros a b c [] []; split; try congruence; [lia|]. by etrans.
Qed.

Lemma dot_wf_NewGraph : dot_wf NewGraph.
Proof. split; try done; simpl; set_solver. Qed.

Lemma getGroup_spec X k dg :
  dot_inv X dg → k_name k = ""%string →
  ∃ g dg', getGroup k dg = (Ret g, dg') ∧ dot_inv X dg' ∧ dot_grows dg dg' ∧
           groupMap dg' !! k = Some g.
Proof.
  intros [HC HG HcM HgM Hcs Hgp Hr Hm] Hk.
  unfold getGroup, getS, modifyS, mbind, SM_bind, mret, SM_ret.
  destruct (groupMap dg !! k) as [g|] eqn:Hg; [by exists g, dg|].
  eexists _, _. split; [done|].
  assert (Hkey : group_nodeKey (NewGroup k) = k) by (destruct k; simpl in *; by subst).
  split_and!; [split; simpl; try done| |by simpl; rewrite lookup_insert_eq].
  - by rewrite HG, length_app, Nat.add_1_r, seq_S.
  - intros k' g. rewrite fmap_Some. setoid_rewrite lookup_snoc_Some.
    rewrite lookup_insert_Some, HgM, fmap_Some. split.
    + intros [[<- <-]|[Hne (gr & Hgr & ->)]]; eauto.
      exists gr. split; [|done]. left. split; [by eapply lookup_lt_Some|done].
    + intros (gr & [[_ Hgr]|[-> <-]] & ->); [right|left; by rewrite Hkey].
      split; [|eauto]. intros ->. assert (is_Some (groupMap dg !! group_nodeKey gr)) as []; [|congruence].
      exists g. apply HgM. by rewrite Hgr.
  - rewrite length_app; simpl. intros i c g Hi Hg'. specialize (Hgp i c g Hi Hg'). lia.
  - intros g gr j r [[_ Hgr]|[_ <-]]%lookup_snoc_Some; [by eapply Hr|done].
  - rewrite map_app, concat_app. simpl. by rewrite !app_nil_r.
  - split; simpl; try done; [rewrite length_app; simpl; lia|]. by apply insert_subseteq.
Qed.

Lemma concat_alter_snoc {A B} (R : A → list B) f g (a : list A) x y :
  a !! g = Some x → R (f x) = R x ++ [y] →
  concat (map R (alter f g a)) ≡ₚ concat (map R a) ++ [y].
Proof.
  intros Hg Hf. revert g Hg; induction a as [|z a IH]; intros [|g] Hg; simplify_eq/=.
  - rewrite Hf. rewrite <-!app_assoc. apply Permutation_app_head. by rewrite Permutation_app_comm.
  - rewrite <-app_assoc. apply Permutation_app_head. by apply IH.
Qed.

Lemma addToGroup_spec X r dg :
  dot_inv X dg → grouped r → n_Name (dr_Node r) = ""%string →
  ∃ r' dg', addToGroup r dg = (Ret r', dg') ∧ dr_Node r' = dr_Node r ∧
            dot_inv (X ++ [r']) dg' ∧ dot_grows dg dg'.
Proof.
  intros Hi Hg Hn. unfold addToGroup.
  destruct (getGroup_spec X (mkKey (n_Type (dr_Node r)) "" (n_Group (dr_Node r))) dg Hi eq_refl)
    as (g & dg1 & Hget & [HC HG HcM HgM Hcs Hgp Hr Hm] & Hgrow & Hk).
  apply HgM in Hk as (gr & Hgr & Hk)%fmap_Some.
  rewrite (bind_step _ _ _ _ _ Hget). unfold getS, orPanic, liftO, or_panic, modifyS, mbind,
    SM_bind, mret, SM_ret. rewrite Hgr.
  eexists _, _. split; [done|]. split; [done|]. split.
  - split; simpl; rewrite ?length_alter; try done.
    + intros k' g'. rewrite HgM. destruct (decide (g = g')) as [<-|?];
        [rewrite list_lookup_alter_eq|by rewrite list_lookup_alter_ne]. by rewrite Hgr.
    + intros g' gr' j r'. destruct (decide (g = g')) as [<-|?];
        [|rewrite list_lookup_alter_ne by done; apply Hr].
      rewrite list_lookup_alter_eq, Hgr. intros [= <-]. simpl.
      intros [[_ Hj]|[-> <-]]%lookup_snoc_Some; [exact (Hr g gr j r' Hgr Hj)|]. split_and!; [done| |done].
      unfold result_nodeKey, node_nodeKey. simpl. rewrite Hn. by rewrite Hk.
    + etrans; [|symmetry; eapply concat_alter_snoc; [exact Hgr|reflexivity]]. rewrite <-Hm.
      rewrite app_assoc, (filter_app _ (_ ++ X)), filter_cons_True by done. done.
  - etrans; [done|]. split; simpl; try done. by rewrite length_alter.
Qed.

Lemma dot_inv_ungrouped X r dg : dot_inv X dg → ¬ grouped r → dot_inv (X ++ [r]) dg.
Proof.
  intros [HC HG HcM HgM Hcs Hgp Hr Hm] Hg. split; try done.
  rewrite app_assoc, (filter_app _ (_ ++ X)), filter_cons_False by done. by rewrite app_nil_r.
Qed.

(** Grouped results carry no name. *)
Definition results_named (rs : list dotResult) : Prop :=
  ∀ r, r ∈ rs → grouped r → n_Name (dr_Node r) = ""%string.

Lemma groupResults_spec X rs dg :
  dot_inv X dg → results_named rs →
  ∃ rs' dg', groupResults rs dg = (Ret rs', dg') ∧ dr_Node <$> rs' = dr_Node <$> rs ∧
             dot_inv (X ++ rs') dg' ∧ dot_grows dg dg'.
Proof.
  revert X dg. induction rs as [|r rs IH]; intros X dg Hi Hn; unfold groupResults.
  { exists [], dg. by rewrite forMap_nil, app_nil_r. }
  rewrite forMap_cons. fold (groupResults rs).
  assert (∃ r' dg', (if decide (n_Group (dr_Node r) ≠ ""%string) then addToGroup r else mret r) dg
     = (Ret r', dg') ∧ dr_Node r' = dr_Node r ∧ dot_inv (X ++ [r']) dg' ∧ dot_grows dg dg')
    as (r' & dg1 & Hr & Hnode & Hi1 & Hg1).
  { destruct (decide _) as [Hg|Hg].
    - apply addToGroup_spec; [done|done|]. apply Hn; [set_solver|done].
    - exists r, dg. split_and!; [done|done| |done]. by apply dot_inv_ungrouped. }
  destruct (IH (X ++ [r']) dg1 Hi1) as (rs' & dg2 & Hrs & Hnodes & Hi2 & Hg2).
  { intros x ?. apply Hn. set_solver. }
  exists (r' :: rs'), dg2. rewrite (bind_step _ _ _ _ _ Hr), (bind_step _ _ _ _ _ Hrs).
  split_and!; [done| | |by etrans].
  - rewrite !fmap_cons. congruence.
  - by rewrite <-app_assoc in Hi2.
Qed.

Section add.
Context `{TT : TypeTable}.

(** A consumed value group: a parameter of slice type and the group of its
    elements. *)
Definition group_param (dg : dotGraph) (p : dotParam) (g : nat) : Prop :=
  ∃ el, Elem (n_Type (dp_Node p)) = Some el ∧
        groupMap dg !! mkKey el "" (n_Group (dp_Node p)) = Some g.

Definition params_slices (ps : list dotParam) : Prop :=
  ∀ p, p ∈ ps → n_Group (dp_Node p) ≠ ""%string → is_Some (Elem (n_Type (dp_Node p))).

Definition ungroupedParams (ps : list dotParam) : list dotParam :=
  filter (λ p, n_Group (dp_Node p) = ""%string) ps.
Definition groupedParams (ps : list dotParam) : list dotParam :=
  filter (λ p, n_Group (dp_Node p) ≠ ""%string) ps.

Lemma group_param_grows dg dg' ps gs :
  dot_grows dg dg' → Forall2 (group_param dg) ps gs → Forall2 (group_param dg') ps gs.
Proof.
  intros Hg Hf. eapply Forall2_impl; [exact Hf|]. intros p g (el & ? & Hk). exists el. split; [done|].
  eapply lookup_weaken; [done|apply Hg].
Qed.

Lemma splitParams_spec X ps dg :
  dot_inv X dg → params_slices ps →
  ∃ gs dg', splitParams ps dg = (Ret (ungroupedParams ps, gs), dg') ∧
            dot_inv X dg' ∧ dot_grows dg dg' ∧ Forall2 (group_param dg') (groupedParams ps) gs.
Proof.
  revert dg; induction ps as [|p ps IH]; intros dg Hi Hs; simpl.
  { exists [], dg. split_and!; [done|done|done|constructor]. }
  assert (Hs' : params_slices ps) by (intros q ?; apply Hs; set_solver).
  unfold ungroupedParams, groupedParams. rewrite !filter_cons.
  destruct (decide (n_Group (dp_Node p) = ""%string)) as [He|He].
  - destruct (IH dg Hi Hs') as (gs & dg' & Hps & Hi' & Hg & Hf). exists gs, dg'.
    rewrite (bind_step _ _ _ _ _ Hps). rewrite decide_False by tauto. done.
  - destruct (Hs p) as [el Hel]; [set_solver|done|]. rewrite Hel, decide_True by done.
    destruct (getGroup_spec X (mkKey el "" (n_Group (dp_Node p))) dg Hi eq_refl)
      as (g & dg1 & Hget & Hi1 & Hg1 & Hk).
    destruct (IH dg1 Hi1 Hs') as (gs & dg' & Hps & Hi' & Hg & Hf). exists (g :: gs), dg'.
    unfold orPanic, or_panic, liftO. unfold mbind at 1, SM_bind at 1. cbv beta iota.
    rewrite (bind_step _ _ _ _ _ Hget), (bind_step _ _ _ _ _ Hps).
    split_and!; [done|done|by etrans|]. constructor; [|done]. exists el. split; [done|].
    eapply lookup_weaken; [done|apply Hg].
Qed.

(** The index of consumers grows by the new constructor. *)
Lemma consumers_add (i : nat) ps (m : gmap nodeKey (list nat)) :
  let m' := foldl (λ m p, <[param_nodeKey p := default [] (m !! param_nodeKey p) ++ [i]]> m) m ps in
  (∀ k l, m !! k = Some l → ∃ l', m' !! k = Some l' ∧ l ⊆ l') ∧
  (∀ p, p ∈ ps → ∃ l', m' !! param_nodeKey p = Some l' ∧ i ∈ l').
Proof.
  revert m; induction ps as [|p ps IH]; intros m; simpl.
  { split; [|set_solver]. intros k l ?. by exists l. }
  destruct (IH (<[param_nodeKey p := default [] (m !! param_nodeKey p) ++ [i]]> m)) as [H1 H2].
  split.
  - intros k l Hk. destruct (decide (param_nodeKey p = k)) as [<-|?].
    + destruct (H1 (param_nodeKey p) (l ++ [i])) as (l' & ? & ?).
      { by rewrite lookup_insert_eq, Hk. } exists l'. split; [done|set_solver].
    + apply H1. by rewrite lookup_insert_ne.
  - intros q [->|?]%elem_of_cons; [|auto].
    destruct (H1 (param_nodeKey p) (default [] (m !! param_nodeKey p) ++ [i])) as (l' & ? & ?).
    { by rewrite lookup_insert_eq. } exists l'. split; [done|set_solver].
Qed.

(** The constructor that [AddCtor] leaves in the graph. *)
Record ctor_added (c : dotCtor) (ps : list dotParam) (rs : list dotResult)
    (dg : dotGraph) (c' : dotCtor) : Prop := {
  ca_location : dc_Name c' = dc_Name c ∧ dc_Package c' = dc_Package c ∧
                dc_File c' = dc_File c ∧ dc_Line c' = dc_Line c;
  ca_ID : dc_ID c' = dc_ID c;
  ca_Params : dc_Params c' = ungroupedParams ps;
  ca_GroupParams : Forall2 (group_param dg) (groupedParams ps) (dc_GroupParams c');
  ca_Results : dr_Node <$> dc_Results c' = dr_Node <$> rs
}.

Lemma dot_wf_addCtor dg c ps gs rs :
  dot_inv rs dg → dc_Params c = ungroupedParams ps → dc_GroupParams c = gs → dc_Results c = rs →
  Forall2 (group_param dg) (groupedParams ps) gs →
  dot_wf (mkDotGraph (ctorArena dg ++ [c]) (groupArena dg) (Ctors dg ++ [length (ctorArena dg)])
    (<[dc_ID c := length (ctorArena dg)]> (ctorMap dg)) (Groups dg) (groupMap dg)
    (foldl (λ m p, <[param_nodeKey p :=
                     default [] (m !! param_nodeKey p) ++ [length (ctorArena dg)]]> m)
           (consumers dg) ps) (Failed dg)).
Proof.
  intros [HC HG HcM HgM Hcs Hgp Hr Hm] Hps Hgs Hrs Hf.
  destruct (consumers_add (length (ctorArena dg)) ps (consumers dg)) as [Hold Hnew].
  split; simpl; try done.
  - by rewrite HC, length_app, Nat.add_1_r, seq_S.
  - intros id i [[<- <-]|[? Hi]]%lookup_insert_Some; [by rewrite list_lookup_middle|].
    apply HcM in Hi as (c0 & Hi & ->)%fmap_Some. by rewrite (lookup_app_l_Some _ _ _ _ Hi).
  - intros i c0 p [[_ Hi]|[-> <-]]%lookup_snoc_Some Hp.
    + destruct (Hcs i c0 p Hi Hp) as (l & Hl & ?). destruct (Hold _ _ Hl) as (l' & ? & ?). eauto.
    + apply Hnew. rewrite Hps in Hp. by apply list_elem_of_filter in Hp as [_ ?].
  - intros i c0 g [[_ Hi]|[-> <-]]%lookup_snoc_Some Hg; [by eapply Hgp|]. rewrite Hgs in Hg.
    apply list_elem_of_lookup in Hg as [j Hj].
    destruct (Forall2_lookup_r _ _ _ _ _ Hf Hj) as (p & _ & el & _ & Hk).
    apply HgM in Hk as (gr & Hgr & _)%fmap_Some. by eapply lookup_lt_Some.
  - rewrite map_app, concat_app. simpl. by rewrite Hrs, !app_nil_r.
Qed.

Lemma AddCtor_spec c ps rs dg :
  dot_wf dg → params_slices ps → results_named rs →
  ∃ c' dg', AddCtor c ps rs dg = (Ret (), dg') ∧ dot_wf dg' ∧ Failed dg' = Failed dg ∧
            groupMap dg ⊆ groupMap dg' ∧
            ctorArena dg' = ctorArena dg ++ [c'] ∧ ctor_added c ps rs dg' c'.
Proof.
  intros Hwf Hps Hrs. unfold AddCtor.
  destruct (splitParams_spec [] ps dg Hwf Hps) as (gs & dg1 & Hs & Hi1 & Hg1 & Hf).
  destruct (groupResults_spec [] rs dg1 Hi1 Hrs) as (rs' & dg2 & Hr & Hnodes & Hi2 & Hg2).
  rewrite (bind_step _ _ _ _ _ Hs), (bind_step _ _ _ _ _ Hr). unfold modifyS.
  pose proof (group_param_grows _ _ _ _ Hg2 Hf) as Hf'. pose proof (transitivity Hg1 Hg2) as Hg.
  eexists _, _. split; [done|]. split_and!.
  - by eapply dot_wf_addCtor.
  - apply Hg.
  - apply Hg.
  - simpl. by rewrite (dgr_ctorArena _ _ Hg).
  - by split.
Qed.
End add.
