(* ===== verification/VisualizeProofs.v ===== *)
(** * What is drawn: [createGraph] and [updateGraph] *)

From S2P Require Import Prelude Digraph GoLib GoTypes DigReflect Errors Group InOut.
From S2P Require Import Values DotTypes Dot Result Store Scenario Param Call ResultProofs.
From S2P Require Import Options Deps Building ParamProofs Provide Decorate ProvideProofs Invoke.
From S2P Require Import Invariants Reachable ScopeTree Typed TypeSound Visualize.
From S2P Require Import DotProofs DotBuild.

Open Scope string_scope.
Open Scope list_scope.

Lemma DotResult_named r : results_named (DotResult r).
Proof.
  unfold results_named, grouped.
  induction r as [n t As|g t f As|t fs IH|rl IH] using result_ind'; cbn [DotResult]; unfold resultSingle_DotResult, resultGrouped_DotResult; intros x.
  - intros [y [-> _]]%list_elem_of_fmap. done.
  - intros [y [-> _]]%list_elem_of_fmap. done.
  - intros (f & Hf & Hx)%elem_of_concat_map. rewrite Forall_forall in IH. by eapply IH.
  - intros (r & Hr & Hx)%elem_of_concat_map. rewrite Forall_forall in IH. by eapply IH.
Qed.

Lemma concat_singletons {A} (l : list A) : concat (map (λ x, [x]) l) = l.
Proof. induction l as [|x l IH]; simpl; [done|]. by rewrite IH. Qed.

(** ** [createGraph] *)

Section create.
Context `{TT : TypeTable}.

(** A constructor that can be drawn: its location is known and the value groups
    it consumes are slices. *)
Definition drawable (st : store) (i : nat) : Prop :=
  ∃ cn, st_ctors st !! i = Some cn ∧ is_Some (cn_location cn) ∧
        params_slices (paramList_DotParam (cn_paramList cn)).

(** A constructor of the graph shows a constructor of the container. *)
Definition drawn (st : store) (dg : dotGraph) (i : nat) (c : dotCtor) : Prop :=
  ∃ cn loc, st_ctors st !! i = Some cn ∧ cn_location cn = Some loc ∧
    ctor_added (mkDotCtor (fn_Name loc) (fn_Package loc) (fn_File loc) (fn_Line loc) (cn_id cn)
                  [] [] [] noError)
      (paramList_DotParam (cn_paramList cn)) (DotResult (resultList_ (cn_resultList cn))) dg c.

(** The computation [m] draws the constructors [l], one after the other. *)
Definition draws (st : store) (m : SM dotGraph ()) (l : list nat) : Prop :=
  ∀ dg, dot_wf dg → ∃ cs dg', m dg = (Ret (), dg') ∧ dot_wf dg' ∧ Failed dg' = Failed dg ∧
    groupMap dg ⊆ groupMap dg' ∧ ctorArena dg' = ctorArena dg ++ cs ∧
    Forall2 (drawn st dg') l cs.

Lemma drawn_grows st dg dg' l cs :
  groupMap dg ⊆ groupMap dg' → Forall2 (drawn st dg) l cs → Forall2 (drawn st dg') l cs.
Proof.
  intros Hg Hf. eapply Forall2_impl; [exact Hf|].
  intros i c (cn & loc & ? & ? & [? ? ? Hgp ?]). exists cn, loc. split_and!; [done|done|].
  split; try done. eapply Forall2_impl; [exact Hgp|].
  intros p g (el & ? & ?). exists el. split; [done|]. by eapply lookup_weaken.
Qed.

Lemma draws_mret st : draws st (mret ()) [].
Proof. intros dg Hwf. exists [], dg. by rewrite app_nil_r. Qed.

Lemma draws_bind st m f l1 l2 :
  draws st m l1 → draws st f l2 → draws st (_ ← m; f) (l1 ++ l2).
Proof.
  intros Hm Hf dg Hwf. destruct (Hm dg Hwf) as (cs1 & dg1 & H1 & Hwf1 & HF1 & Hg1 & Ha1 & Hd1).
  destruct (Hf dg1 Hwf1) as (cs2 & dg2 & H2 & Hwf2 & HF2 & Hg2 & Ha2 & Hd2).
  exists (cs1 ++ cs2), dg2. rewrite (bind_step _ _ _ _ _ H1). split_and!; try done.
  - congruence.
  - by etrans.
  - by rewrite Ha2, Ha1, app_assoc.
  - apply Forall2_app; [by eapply drawn_grows|done].
Qed.

Lemma draws_forEach st {A} (l : list A) (f : A → SM dotGraph ()) g :
  (∀ x, x ∈ l → draws st (f x) (g x)) → draws st (forEach l f) (concat (map g l)).
Proof.
  induction l as [|x l IH]; intros H; [apply draws_mret|].
  rewrite forEach_cons. simpl. apply draws_bind; [apply H; set_solver|].
  apply IH. intros y ?. apply H. set_solver.
Qed.

Lemma draws_addNode st i : drawable st i → draws st (addNode st i) [i].
Proof.
  intros (cn & Hcn & [loc Hloc] & Hs) dg Hwf. unfold addNode, newDotCtor.
  destruct (AddCtor_spec
    (mkDotCtor (fn_Name loc) (fn_Package loc) (fn_File loc) (fn_Line loc) (cn_id cn)
       [] [] [] noError)
    (paramList_DotParam (cn_paramList cn)) (DotResult (resultList_ (cn_resultList cn))) dg
    Hwf Hs (DotResult_named _)) as (c' & dg' & Hadd & Hwf' & HF & Hg & Ha & Hc).
  exists [c'], dg'. rewrite Hcn.
  unfold orPanic, liftO, or_panic, mbind, SM_bind, mret, SM_ret. rewrite Hloc.
  split_and!; try done.
  constructor; [|constructor]. exists cn, loc. done.
Qed.

(** The constructors of a scope and of its descendants, in the order of the
    walk. *)
Definition scopeNodes (st : store) (l : list nat) : list nat :=
  concat (map (λ s, from_option nodes [] (st_scopes st !! s)) l).

Lemma scopeNodes_cons st s l :
  scopeNodes st (s :: l) = from_option nodes [] (st_scopes st !! s) ++ scopeNodes st l.
Proof. done. Qed.

Lemma scopeNodes_concat st (ls : list (list nat)) :
  scopeNodes st (concat ls) = concat (map (scopeNodes st) ls).
Proof.
  induction ls as [|l ls IH]; simpl; [done|]. unfold scopeNodes in *.
  by rewrite map_app, concat_app, IH.
Qed.

Lemma draws_addNodes st (Hwf : wf_store st) fuel s :
  s < length (st_scopes st) → length (st_scopes st) <= s + fuel →
  (∀ i, i ∈ scopeNodes st (appendSubscopes (st_scopes st) fuel [] s) → drawable st i) →
  draws st (addNodes fuel st s) (scopeNodes st (appendSubscopes (st_scopes st) fuel [] s)).
Proof.
  revert s; induction fuel as [|fuel IH]; intros s Hs Hf Hd; [lia|].
  apply lookup_lt_is_Some in Hs as [sc Hsc].
  rewrite (appendSubscopes_eq st fuel s sc Hsc), scopeNodes_cons, scopeNodes_concat, map_map, Hsc
    in Hd |- *. cbn [addNodes from_option] in Hd |- *. rewrite Hsc.
  change (draws st (_ ← forEach (nodes sc) (addNode st); forEach (childScopes sc) (addNodes fuel st))
    (nodes sc ++ concat (map (λ x, scopeNodes st (appendSubscopes (st_scopes st) fuel [] x))
                             (childScopes sc)))).
  apply draws_bind.
  - rewrite <-(concat_singletons (nodes sc)) at 2. apply draws_forEach. intros i Hi.
    apply draws_addNode, Hd, elem_of_app. by left.
  - apply draws_forEach. intros c Hc. destruct (wf_children st Hwf s sc c Hsc Hc) as (Hlt & cc & Hcc & _).
    apply IH; [by eapply lookup_lt_Some|lia|]. intros i Hi. apply Hd. apply elem_of_app. right.
    apply elem_of_concat_map. eauto.
Qed.

Lemma createGraph_ok st s :
  wf_store st → s < length (st_scopes st) →
  (∀ i, i ∈ scopeNodes st (subscopes (st_scopes st) s) → drawable st i) →
  ∃ dg, createGraph st s = Ret dg ∧ dot_wf dg ∧ Failed dg = Failed NewGraph ∧
        Forall2 (drawn st dg) (scopeNodes st (subscopes (st_scopes st) s)) (ctorArena dg).
Proof.
  intros Hwf Hs Hd.
  destruct (draws_addNodes st Hwf (length (st_scopes st)) s Hs (Nat.le_add_l _ _) Hd
              NewGraph dot_wf_NewGraph) as (cs & dg & Hadd & Hdg & HF & _ & Ha & Hf).
  exists dg. unfold createGraph. rewrite Hadd. simpl in Ha. subst cs. done.
Qed.

(** C28: the graph of a container.  If the constructors registered in a scope of a
    well-formed container and below it can be drawn, [createGraph] returns a
    well-formed graph without failures that shows exactly these constructors, in
    the order of the walk over the scopes: with their location, their plain
    parameters, the value groups they consume and their results. *)
Theorem createGraph_spec st s :
  wf_store st → s < length (st_scopes st) →
  (∀ i, i ∈ scopeNodes st (subscopes (st_scopes st) s) → drawable st i) →
  ∃ dg, createGraph st s = Ret dg ∧ dot_wf dg ∧ Failed dg = Failed NewGraph ∧
        Forall2 (drawn st dg) (scopeNodes st (subscopes (st_scopes st) s)) (ctorArena dg).
Proof. apply createGraph_ok. Qed.
End create.

(** ** [updateGraph] *)

(** The nodes, the constructor and the group an error of the chain says have
    failed. *)
Definition ctorResults (dg : dotGraph) (id : positive) : option (list dotResult) :=
  ctorMap dg !! id ≫= λ i, dc_Results <$> ctorArena dg !! i.

Definition failedBy (dg : dotGraph) (e : error) : list dotResult :=
  match e with
  | errParamSingleFailed k _ _ => [keyResult k]
  | errParamGroupFailed k _ id =>
      filter (λ r, n_Type (dr_Node r) = k_t k ∧ n_Group (dr_Node r) = k_group k)
             (default [] (ctorResults dg id))
  | errMissingTypes missing => missingResults missing
  | _ => []
  end.

Definition failedCtors (dg : dotGraph) (e : error) : gset positive :=
  match e with
  | errParamSingleFailed _ _ id => {[id]}
  | errParamGroupFailed _ _ id => if ctorMap dg !! id is Some _ then {[id]} else ∅
  | _ => ∅
  end.

Definition failedGroups (dg : dotGraph) (e : error) : gset nodeKey :=
  match e with
  | errParamGroupFailed k _ id =>
      if ctorMap dg !! id is Some _ then {[mkKey (k_t k) "" (k_group k)]} else ∅
  | _ => ∅
  end.

(** How a failure enters the lists of a graph. *)
Definition addFailure (rs : list dotResult) (cs : gset positive) (gs : gset nodeKey)
    (f : FailedNodes) : FailedNodes :=
  if decide (RootCauses f = [])
  then mkFailed rs (TransitiveFailures f) (cs ∪ failed_ctors f) (gs ∪ failed_groups f)
  else mkFailed (RootCauses f) (TransitiveFailures f ++ rs)
         (cs ∪ failed_ctors f) (gs ∪ failed_groups f).

(** The part of a graph that marking failures does not change. *)
Definition same_ctors (dg dg' : dotGraph) : Prop :=
  Ctors dg' = Ctors dg ∧ ctorMap dg' = ctorMap dg ∧ consumers dg' = consumers dg ∧
  setCtorError noError <$> ctorArena dg' = setCtorError noError <$> ctorArena dg.

Lemma failNodes_eq b rs f :
  failNodes b rs f =
  if b then mkFailed (RootCauses f ++ rs) (TransitiveFailures f) (failed_ctors f) (failed_groups f)
  else mkFailed (RootCauses f) (TransitiveFailures f ++ rs) (failed_ctors f) (failed_groups f).
Proof.
  unfold failNodes. revert f; induction rs as [|r rs IH]; intros f; simpl.
  - rewrite !app_nil_r. by destruct f, b.
  - rewrite IH. destruct b; simpl; by rewrite <-app_assoc.
Qed.

Lemma addFailure_eq dg cs gs rs f :
  f = mkFailed (RootCauses (Failed dg)) (TransitiveFailures (Failed dg))
        (cs ∪ failed_ctors (Failed dg)) (gs ∪ failed_groups (Failed dg)) →
  failNodes (noRootCause dg) rs f = addFailure rs cs gs (Failed dg).
Proof.
  intros ->. rewrite failNodes_eq. unfold noRootCause, addFailure. simpl.
  case_bool_decide as H; [|by rewrite decide_False]. rewrite decide_True by done. by rewrite H.
Qed.

Lemma ctorArena_same i e (a : list dotCtor) :
  setCtorError noError <$> alter (setCtorError e) i a = setCtorError noError <$> a.
Proof.
  apply list_eq. intros j. rewrite !list_lookup_fmap.
  destruct (decide (i = j)) as [->|]; [rewrite list_lookup_alter_eq|by rewrite list_lookup_alter_ne].
  by destruct (a !! j).
Qed.

Lemma same_ctors_lookup dg dg' i c' :
  same_ctors dg dg' → ctorArena dg' !! i = Some c' →
  ∃ c, ctorArena dg !! i = Some c ∧ setCtorError noError c' = setCtorError noError c.
Proof.
  intros (_ & _ & _ & Ha) Hi. apply (f_equal (.!! i)) in Ha.
  rewrite !list_lookup_fmap, Hi in Ha.
  destruct (ctorArena dg !! i) as [c|]; [|done]. exists c. split; [done|]. by apply (inj Some).
Qed.

Lemma map_through {A B} (f : A → A) (R : A → B) (a b : list A) :
  (∀ x, R (f x) = R x) → f <$> a = f <$> b → map R a = map R b.
Proof.
  intros HR. revert b; induction a as [|x a IH]; intros [|y b] Hab; try done; simpl.
  rewrite !fmap_cons in Hab. injection Hab as Hx Hl. f_equal; [|by apply IH].
  by rewrite <-(HR x), Hx, HR.
Qed.

(** Marking failures keeps the invariant. *)
Lemma dot_wf_same dg dg' :
  dot_wf dg → same_ctors dg dg' → Groups dg' = Groups dg → groupMap dg' = groupMap dg →
  setGroupError noError <$> groupArena dg' = setGroupError noError <$> groupArena dg →
  dot_wf dg'.
Proof.
  intros [HC HG HcM HgM Hcs Hgp Hr Hm] Hs HG' HM' Hga. pose proof Hs as (HC' & HcM' & Hcs' & Ha).
  assert (Hlg : ∀ g gr', groupArena dg' !! g = Some gr' → ∃ gr, groupArena dg !! g = Some gr ∧
            setGroupError noError gr' = setGroupError noError gr).
  { intros g gr' Hg. apply (f_equal (.!! g)) in Hga. rewrite !list_lookup_fmap, Hg in Hga.
    destruct (groupArena dg !! g) as [gr|]; [|done]. exists gr. split; [done|]. by apply (inj Some). }
  pose proof (f_equal length Ha) as Hla. pose proof (f_equal length Hga) as Hlga.
  rewrite !length_fmap in Hla. rewrite !length_fmap in Hlga.
  split.
  - by rewrite HC', Hla.
  - by rewrite HG', Hlga.
  - intros id i. rewrite HcM'. intros Hi. apply HcM in Hi.
    apply (f_equal (λ l, dc_ID <$> l !! i)) in Ha. rewrite !list_lookup_fmap in Ha.
    destruct (ctorArena dg' !! i), (ctorArena dg !! i); simpl in *; congruence.
  - intros k g. rewrite HM', HgM. apply (f_equal (λ l, group_nodeKey <$> l !! g)) in Hga.
    rewrite !list_lookup_fmap in Hga.
    destruct (groupArena dg' !! g), (groupArena dg !! g); simpl in *; try done.
    unfold group_nodeKey in *. simpl in *. split; congruence.
  - intros i c' p Hi Hp. destruct (same_ctors_lookup _ _ _ _ Hs Hi) as (c & Hc & Heq).
    rewrite Hcs'. apply (Hcs i c); [done|]. injection Heq as _ _ _ _ _ Hps _ _. by rewrite <-Hps.
  - intros i c' g Hi Hp. destruct (same_ctors_lookup _ _ _ _ Hs Hi) as (c & Hc & Heq).
    rewrite Hlga. apply (Hgp i c); [done|]. injection Heq as _ _ _ _ _ _ Hgs _. by rewrite <-Hgs.
  - intros g gr' j r Hg Hj. destruct (Hlg g gr' Hg) as (gr & Hgr & Heq).
    injection Heq as Ht Hn Hrs. rewrite Hrs in Hj. unfold group_nodeKey. rewrite Ht, Hn. eauto.
  - rewrite (map_through (setCtorError noError) dc_Results _ _ (λ _, eq_refl) Ha).
    by rewrite (map_through (setGroupError noError) dg_Results _ _ (λ _, eq_refl) Hga).
Qed.

Lemma mark_ctor i e dg :
  dot_wf dg → dot_wf (upd_ctor i (setCtorError e) dg) ∧
              same_ctors dg (upd_ctor i (setCtorError e) dg).
Proof.
  intros Hwf. assert (Hs : same_ctors dg (upd_ctor i (setCtorError e) dg))
    by (split_and!; [done..|apply ctorArena_same]). split; [by eapply (dot_wf_same dg)|done].
Qed.

Lemma mark_group g e dg :
  dot_wf dg → dot_wf (upd_group g (setGroupError e) dg) ∧
              same_ctors dg (upd_group g (setGroupError e) dg).
Proof.
  intros Hwf. split; [|done]. eapply (dot_wf_same dg); try done. simpl.
  apply list_eq. intros j. rewrite !list_lookup_fmap.
  destruct (decide (g = j)) as [->|]; [rewrite list_lookup_alter_eq|by rewrite list_lookup_alter_ne].
  by destruct (groupArena dg !! j).
Qed.

(** What an error reads of the graph is what marking keeps. *)
Lemma ctorResults_same dg dg' id : same_ctors dg dg' → ctorResults dg' id = ctorResults dg id.
Proof.
  intros (_ & HcM & _ & Ha). unfold ctorResults. rewrite HcM.
  destruct (ctorMap dg !! id) as [i|]; [|done]. simpl.
  apply (f_equal (λ l, dc_Results <$> l !! i)) in Ha. rewrite !list_lookup_fmap in Ha.
  destruct (ctorArena dg' !! i), (ctorArena dg !! i); simpl in *; congruence.
Qed.

Lemma failed_same dg dg' e :
  same_ctors dg dg' →
  failedBy dg' e = failedBy dg e ∧ failedCtors dg' e = failedCtors dg e ∧
  failedGroups dg' e = failedGroups dg e.
Proof.
  intros Hs. pose proof Hs as (_ & HcM & _). unfold failedBy, failedCtors, failedGroups.
  destruct e; rewrite ?(ctorResults_same _ _ _ Hs), ?HcM; done.
Qed.

#[export] Instance same_ctors_preorder : PreOrder same_ctors.
Proof.
  split; [done|]. intros a b c (H1 & H2 & H3 & H4) (H1' & H2' & H3' & H4').
  split_and!; congruence.
Qed.

Lemma dot_wf_getGroup k dg :
  dot_wf dg → k_name k = "" →
  ∃ g dg', getGroup k dg = (Ret g, dg') ∧ dot_wf dg' ∧ same_ctors dg dg' ∧ Failed dg' = Failed dg.
Proof.
  intros Hwf Hk. destruct (getGroup_spec [] k dg Hwf Hk) as (g & dg' & Hget & Hwf' & [] & _).
  exists g, dg'. split_and!; try done. split_and!; congruence.
Qed.

Lemma FailGroupNodes_spec k id dg :
  dot_wf dg →
  ∃ dg', FailGroupNodes (k_group k) (k_t k) id dg = (Ret (), dg') ∧ dot_wf dg' ∧
    same_ctors dg dg' ∧
    Failed dg' = addFailure
      (filter (λ r, n_Type (dr_Node r) = k_t k ∧ n_Group (dr_Node r) = k_group k)
              (default [] (ctorResults dg id)))
      (if ctorMap dg !! id is Some _ then {[id]} else ∅)
      (if ctorMap dg !! id is Some _ then {[mkKey (k_t k) "" (k_group k)]} else ∅) (Failed dg).
Proof.
  intros Hwf. unfold FailGroupNodes.
  destruct (dot_wf_getGroup (mkKey (k_t k) "" (k_group k)) dg Hwf eq_refl)
    as (g & dg1 & Hget & Hwf1 & Hs1 & HF1).
  unfold getS. unfold mbind at 1, SM_bind at 1. cbv beta iota.
  rewrite (bind_step _ _ _ _ _ Hget). unfold ctorResults.
  destruct (ctorMap dg !! id) as [i|] eqn:Hid; simpl.
  - pose proof (dw_ctorMap [] dg Hwf id i Hid) as (c & Hc & _)%fmap_Some. rewrite Hc.
    unfold orPanic, liftO, or_panic, modifyS, mbind, SM_bind. eexists. split; [done|].
    set (dg2 := upd_failed _ dg1). set (dg3 := upd_group g _ dg2).
    assert (Hwf2 : dot_wf dg2) by (by eapply (dot_wf_same dg1)).
    destruct (mark_group g (errorTypeOf (noRootCause dg)) dg2 Hwf2) as [Hwf3 Hs3].
    destruct (mark_ctor i (errorTypeOf (noRootCause dg)) dg3 Hwf3) as [Hwf4 Hs4].
    split_and!; [done| |].
    + etrans; [exact Hs1|]. etrans; [|exact Hs4]. exact Hs3.
    + simpl. apply addFailure_eq. unfold markGroup, markCtor. simpl. by rewrite HF1.
  - exists dg1. split_and!; [done|done|done|]. rewrite HF1. unfold addFailure.
    destruct (Failed dg) as [R T cs gs]; simpl. rewrite app_nil_r, !(left_id_L ∅ (∪)).
    by destruct (decide (R = [])) as [->|].
Qed.

(** One error of the chain. *)
Lemma error_updateGraph_spec e dg :
  dot_wf dg → isErrVisualizer e = true →
  ∃ dg', error_updateGraph e dg = (Ret (), dg') ∧ dot_wf dg' ∧ same_ctors dg dg' ∧
         Failed dg' = addFailure (failedBy dg e) (failedCtors dg e) (failedGroups dg e) (Failed dg).
Proof.
  intros Hwf He. destruct e as [| | | | | |k r id|k r id|missing| | |]; try done;
    cbn [error_updateGraph failedBy failedCtors failedGroups paramSingle_updateGraph
         paramGroup_updateGraph].
  - eexists. split; [done|]. unfold FailNodes. cbv zeta.
    set (dg1 := upd_failed _ dg). assert (Hs1 : same_ctors dg dg1) by done.
    assert (Hwf1 : dot_wf dg1) by (by eapply dot_wf_same).
    assert (HF : Failed dg1 = addFailure [keyResult k] {[id]} ∅ (Failed dg)).
    { apply (addFailure_eq dg). unfold markCtor. f_equal. set_solver. }
    destruct (ctorMap dg1 !! id) as [i|]; [|done].
    destruct (mark_ctor i (errorTypeOf (noRootCause dg)) dg1 Hwf1) as [? ?].
    split_and!; [done|by etrans|done].
  - exact (FailGroupNodes_spec k id dg Hwf).
  - eexists. split; [done|]. unfold AddMissingNodes.
    split_and!; [by eapply (dot_wf_same dg)|done|]. apply addFailure_eq.
    rewrite !(left_id_L ∅ (∪)). by destruct (Failed dg).
Qed.

(** The blocks of failed nodes, innermost error first: the first block that is not
    empty has the root causes, what follows the transitive failures. *)
Fixpoint classify (bs : list (list dotResult)) : list dotResult * list dotResult :=
  match bs with
  | [] => ([], [])
  | [] :: bs => classify bs
  | b :: bs => (b, concat bs)
  end.

(** The failures after marking all of a list of errors. *)
Lemma addFailure_fold dg es f :
  let f' := foldl (λ f e, addFailure (failedBy dg e) (failedCtors dg e) (failedGroups dg e) f)
              f es in
  (RootCauses f', TransitiveFailures f') =
    match RootCauses f with
    | [] => let '(R, T) := classify (map (failedBy dg) es) in (R, TransitiveFailures f ++ T)
    | R => (R, TransitiveFailures f ++ concat (map (failedBy dg) es))
    end ∧
  failed_ctors f' = failed_ctors f ∪ ⋃ map (failedCtors dg) es ∧
  failed_groups f' = failed_groups f ∪ ⋃ map (failedGroups dg) es.
Proof.
  revert f; induction es as [|e es IH]; intros f; simpl.
  { rewrite app_nil_r, !(right_id_L ∅ (∪)). by destruct (RootCauses f). }
  destruct (IH (addFailure (failedBy dg e) (failedCtors dg e) (failedGroups dg e) f))
    as (HR & HC & HG). cbv zeta in *. rewrite HR, HC, HG. clear.
  unfold addFailure. destruct (decide (RootCauses f = [])) as [Hf|Hf]; simpl.
  - rewrite Hf. split_and!; [|set_solver|set_solver]. by destruct (failedBy dg e).
  - split_and!; [|set_solver|set_solver]. destruct (RootCauses f); [done|].
    by rewrite <-app_assoc.
Qed.

Lemma forEach_updateGraph es dg :
  dot_wf dg → Forall (λ e, isErrVisualizer e = true) es →
  ∃ dg', forEach es error_updateGraph dg = (Ret (), dg') ∧ dot_wf dg' ∧ same_ctors dg dg' ∧
    Failed dg' = foldl (λ f e, addFailure (failedBy dg e) (failedCtors dg e)
                                 (failedGroups dg e) f) (Failed dg) es.
Proof.
  intros Hwf Hes. revert dg Hwf. induction Hes as [|e es He Hes IH]; intros dg Hwf.
  { by exists dg. }
  destruct (error_updateGraph_spec e dg Hwf He) as (dg1 & H1 & Hwf1 & Hs1 & HF1).
  destruct (IH dg1 Hwf1) as (dg2 & H2 & Hwf2 & Hs2 & HF2).
  exists dg2. rewrite forEach_cons, (bind_step _ _ _ _ _ H1). split_and!; [done|done|by etrans|].
  rewrite HF2, HF1. simpl. generalize (addFailure (failedBy dg e) (failedCtors dg e)
    (failedGroups dg e) (Failed dg)). clear -Hs1. induction es as [|x es IH]; intros f; simpl; [done|].
  destruct (failed_same dg dg1 x Hs1) as (-> & -> & ->). apply IH.
Qed.

Lemma ctorFailed_same failed dg dg' i :
  same_ctors dg dg' → ctorFailed failed dg' i = ctorFailed failed dg i.
Proof.
  intros (_ & _ & _ & Ha). unfold ctorFailed.
  apply (f_equal (λ l, dc_ID <$> l !! i)) in Ha. rewrite !list_lookup_fmap in Ha.
  destruct (ctorArena dg' !! i), (ctorArena dg !! i); simpl in *; try done.
  injection Ha as Ha. apply bool_decide_ext. by rewrite Ha.
Qed.

Lemma errVisualizers_ok err : Forall (λ e, isErrVisualizer e = true) (reverse (errVisualizers err)).
Proof.
  apply Forall_reverse, Forall_forall. intros e. unfold errVisualizers.
  rewrite list_elem_of_In, filter_In. tauto.
Qed.

(** C26: the picture of an error.  On a well-formed graph without failures,
    [updateGraph] returns.  If the chain of the error has something to show, the
    root causes are the nodes of the innermost error that names any, the nodes of
    the errors around it are transitive failures, from the inside out; the
    constructors left are exactly those the errors name, in their order, and every
    group left is named by one of the errors.  Otherwise the graph is unchanged. *)
Theorem updateGraph_spec err dg :
  dot_wf dg → Failed dg = Failed NewGraph →
  let vs := reverse (errVisualizers err) in
  ∃ dg', updateGraph err dg = (Ret (), dg') ∧
    if CanVisualizeError (Some err) then
      (RootCauses (Failed dg'), TransitiveFailures (Failed dg')) = classify (map (failedBy dg) vs) ∧
      Ctors dg' = List.filter (ctorFailed (⋃ map (failedCtors dg) vs) dg) (Ctors dg) ∧
      ∀ g, g ∈ Groups dg' → ∃ gr, groupArena dg' !! g = Some gr ∧
        group_nodeKey gr ∈ ⋃ map (failedGroups dg) vs
    else dg' = dg.
Proof.
  intros Hwf HF. cbv zeta. unfold updateGraph, CanVisualizeError.
  assert (existsb isErrVisualizer (chain_of err) = match errVisualizers err with [] => false | _ => true end) as ->.
  { unfold errVisualizers. induction (chain_of err) as [|e l IH]; [done|]. simpl.
    by destruct (isErrVisualizer e). }
  destruct (errVisualizers err) as [|e0 es0] eqn:Hes; [by exists dg|].
  rewrite <-Hes. clear e0 es0 Hes. set (vs := reverse (errVisualizers err)).
  destruct (forEach_updateGraph vs dg Hwf (errVisualizers_ok err)) as (dg1 & H1 & Hwf1 & Hs1 & HF1).
  exists (PruneSuccess dg1). rewrite (bind_step _ _ _ _ _ H1). split; [done|].
  destruct (PruneSuccess_eq dg1 Hwf1) as (HC & HG & HFp & Ha & _).
  destruct (addFailure_fold dg vs (Failed dg)) as (HR & Hcs & Hgs). cbv zeta in HR, Hcs, Hgs.
  rewrite <-HF1, HF in HR, Hcs, Hgs. simpl in HR, Hcs, Hgs. rewrite (left_id_L ∅ (∪)) in Hcs.
  rewrite (left_id_L ∅ (∪)) in Hgs.
  split_and!.
  - rewrite HFp, HR. by destruct (classify _).
  - rewrite HC, Hcs, (proj1 Hs1). apply filter_ext. intros i. by apply ctorFailed_same.
  - intros g Hg. rewrite HG, Hgs, list_elem_of_In, filter_In, <-list_elem_of_In in Hg.
    destruct Hg as [_ Hgf]. unfold groupFailed in Hgf. rewrite Ha, list_lookup_fmap.
    destruct (groupArena dg1 !! g) as [gr|]; [|done]. apply bool_decide_eq_true in Hgf. eauto.
Qed.

(** ** Every container of a program can be drawn *)

Section programs.
Context `{E : Env}.

Lemma param_for_slices p t : param_for p t → params_slices (DotParam p).
Proof.
  revert t; induction p as [ps|pt|t' fs IH] using param_ind'; intros t; simpl.
  - intros _ q ->%list_elem_of_singleton. done.
  - intros [Ht Hk] q ->%list_elem_of_singleton _. apply Kind_Slice_Elem. simpl. by rewrite Ht.
  - intros (_ & _ & Hfs). induction fs as [|f fs IHfs]; simpl in *; [by intros q ?%elem_of_nil|].
    destruct Hfs as [(sf & _ & Hf) Hfs]. apply Forall_cons in IH as [IHf IH].
    intros q [Hq|Hq]%elem_of_app; [by eapply IHf|by eapply IHfs].
Qed.

Lemma params_for_slices pl t : params_for pl t → params_slices (paramList_DotParam pl).
Proof.
  intros (ins & outs & var & _ & Hps). unfold paramList_DotParam.
  induction Hps as [|p u ps us Hp _ IH]; simpl; [by intros q ?%elem_of_nil|].
  intros q [Hq|Hq]%elem_of_app; [by eapply param_for_slices|by apply IH].
Qed.

Lemma program_drawable st l i :
  all_located → store_typed st → wf_store st → i ∈ scopeNodes st l → drawable st i.
Proof.
  intros Hall Hty Hwf Hi. unfold scopeNodes in Hi. apply list_elem_of_In, in_concat in Hi as (ns & Hns & Hi).
  apply in_map_iff in Hns as (s & <- & _). destruct (st_scopes st !! s) as [sc|] eqn:Hs; [|done].
  apply list_elem_of_In in Hi. pose proof (wf_nodes _ Hwf s sc i Hs Hi) as [cn Hcn]%lookup_lt_is_Some_2.
  destruct (Forall_lookup_1 _ _ _ _ (sty_ctors st Hty) Hcn) as (Hps & Hloc & _).
  exists cn. split_and!; [done|by apply Hloc|by eapply params_for_slices].
Qed.

Lemma updateGraph_ends err dg : dot_wf dg → ∃ dg', updateGraph err dg = (Ret (), dg').
Proof.
  intros Hwf. unfold updateGraph. destruct (errVisualizers err) as [|e0 es0] eqn:Hes; [by exists dg|].
  rewrite <-Hes. destruct (forEach_updateGraph _ dg Hwf (errVisualizers_ok err)) as (dg1 & H1 & _).
  exists (PruneSuccess dg1). by rewrite (bind_step _ _ _ _ _ H1).
Qed.

(** C29: drawing never fails.  Whatever calls a program made on containers (no decorator
    flattens a value group, and the runtime knows the program's functions),
    [Visualize] returns a text for each of its scopes, with or without an error to
    show. *)
Theorem Visualize_total os s opts :
  all_located → forallb op_plain os = true → ops_ok os emptyStore = true →
  let st := run_ops os emptyStore in
  s < length (st_scopes st) → ∃ text, Visualize st s opts = Ret text.
Proof.
  intros Hall Hos Hok st Hs. pose proof (run_ops_wf os emptyStore emptyStore_wf Hok) as Hwf.
  pose proof (run_ops_typed os emptyStore Hos emptyStore_typed) as Hty. fold st in Hwf, Hty.
  destruct (createGraph_ok st s Hwf Hs) as (dg & Hdg & Hdw & _).
  { intros i. by apply program_drawable. }
  unfold Visualize. rewrite Hdg. simpl. destruct (vo_VisualizeError _) as [err|]; [|by eexists].
  destruct (updateGraph_ends err dg Hdw) as [dg' ->]. simpl. by eexists.
Qed.
End programs.

(** ** An example *)

Section picture.
#[local] Existing Instance plainEnv.

(** [func() OutG], [func(InG) B] and [func() A] in a container, [func(B) C] in a
    child scope, and what an [Invoke] of [func(C)] reports when the member of the
    group fails. *)
Definition pictureStore : store :=
  run_ops [OpNew []; OpProvide 0 (fn 51 1) []; OpProvide 0 (fn 46 2) []; OpScope 0 "child";
           OpProvide 1 (fn 52 3) []; OpProvide 0 (fn 40 4) []] emptyStore.

Definition pictureError : error :=
  errArgumentsFailed None
    (errParamSingleFailed (valueKey "" tC)
       (errArgumentsFailed None
          (errParamSingleFailed (valueKey "" tB)
             (errArgumentsFailed None
                (errParamGroupFailed (groupKey "g" tA)
                   (errConstructorFailed None (UserError 7 "boom" None)) 1)) 2)) 3).

Definition pictureGraph : dotGraph :=
  match createGraph pictureStore 0 with Ret dg => dg | _ => NewGraph end.

Lemma pictureStore_wf : wf_store pictureStore.
Proof. apply run_ops_wf; [apply emptyStore_wf|vm_compute; reflexivity]. Qed.

Definition drawable_dec (st : store) (i : nat) : bool :=
  match st_ctors st !! i with
  | Some cn => bool_decide (is_Some (cn_location cn)) &&
               forallb (λ p, bool_decide (n_Group (dp_Node p) = "") ||
                             bool_decide (is_Some (Elem (n_Type (dp_Node p)))))
                       (paramList_DotParam (cn_paramList cn))
  | None => false
  end.

Lemma drawable_decide st i : drawable_dec st i = true → drawable st i.
Proof.
  unfold drawable_dec, drawable. destruct (st_ctors st !! i) as [cn|]; [|done].
  intros [Hl Hp]%andb_true_iff. apply bool_decide_eq_true in Hl. exists cn. split_and!; [done|done|].
  intros p Hin Hg. rewrite forallb_forall in Hp. specialize (Hp p (proj1 (list_elem_of_In _ _) Hin)).
  apply orb_true_iff in Hp as [?%bool_decide_eq_true|?%bool_decide_eq_true]; done.
Qed.

Lemma pictureStore_drawable i :
  i ∈ scopeNodes pictureStore (subscopes (st_scopes pictureStore) 0) → drawable pictureStore i.
Proof.
  assert (forallb (drawable_dec pictureStore)
            (scopeNodes pictureStore (subscopes (st_scopes pictureStore) 0)) = true) as H
    by (vm_compute; reflexivity).
  rewrite forallb_forall in H. intros Hi%list_elem_of_In. by apply drawable_decide, H.
Qed.

Lemma pictureGraph_ok : dot_wf pictureGraph ∧ Failed pictureGraph = Failed NewGraph.
Proof.
  destruct (createGraph_ok pictureStore 0 pictureStore_wf) as (dg & Hdg & Hwf & HF & _);
    [vm_compute; lia|exact pictureStore_drawable|]. unfold pictureGraph.
  rewrite Hdg. exact (conj Hwf HF).
Qed.

Lemma Visualize_total_witness :
  ∃ text, Visualize (run_ops typedOps emptyStore) 0 [VisualizeError (Some pictureError)] = Ret text.
Proof.
  apply (Visualize_total typedOps 0 [VisualizeError (Some pictureError)]).
  - intros pc. by eexists.
  - vm_compute. reflexivity.
  - vm_compute. reflexivity.
  - vm_compute. lia.
Defined.

Lemma createGraph_spec_witness :
  ∃ dg, createGraph pictureStore 0 = Ret dg ∧ dot_wf dg ∧ Failed dg = Failed NewGraph ∧
        Forall2 (drawn pictureStore dg)
          (scopeNodes pictureStore (subscopes (st_scopes pictureStore) 0)) (ctorArena dg).
Proof.
  apply (createGraph_spec pictureStore 0 pictureStore_wf);
    [vm_compute; lia|exact pictureStore_drawable].
Defined.

Lemma updateGraph_spec_witness :
  ∃ dg', updateGraph pictureError pictureGraph = (Ret (), dg') ∧
    RootCauses (Failed dg') = [mkDotResult (mkNode tA "" "g") 0] ∧
    TransitiveFailures (Failed dg') =
      [keyResult (valueKey "" tB); keyResult (valueKey "" tC)] ∧
    Ctors dg' = [0; 1; 3].
Proof.
  destruct (updateGraph_spec pictureError pictureGraph (proj1 pictureGraph_ok)
              (proj2 pictureGraph_ok)) as (dg' & Hu & HR & HC & _).
  exists dg'. split; [exact Hu|]. vm_compute in HR, HC. injection HR as HR1 HR2.
  split_and!; [exact HR1|exact HR2|exact HC].
Defined.

(** The graph with the member of the group marked as failed. *)
Definition markedGraph : dotGraph := (FailGroupNodes "g" tA 1 pictureGraph).2.

Lemma markedGraph_wf : dot_wf markedGraph.
Proof.
  destruct (FailGroupNodes_spec (groupKey "g" tA) 1 pictureGraph (proj1 pictureGraph_ok))
    as (dg' & Hf & Hwf & _).
  apply (f_equal snd) in Hf. cbn [snd k_group k_t groupKey] in Hf. unfold markedGraph.
  rewrite Hf. exact Hwf.
Qed.

Lemma PruneSuccess_closed_witness :
  Ctors (PruneSuccess markedGraph) = [0] ∧
  ∃ gr, groupArena (PruneSuccess markedGraph) !! 0 = Some gr ∧
    ∀ r, r ∈ dg_Results gr → ∃ i c, i ∈ Ctors (PruneSuccess markedGraph) ∧
      ctorArena (PruneSuccess markedGraph) !! i = Some c ∧ r ∈ dc_Results c.
Proof.
  split; [vm_compute; reflexivity|].
  destruct (PruneSuccess_closed markedGraph markedGraph_wf) as [_ Hg].
  destruct (Hg 0) as (gr & Hgr & _ & Hr); [|eauto].
  apply list_elem_of_In. vm_compute. by left.
Defined.

(** The picture itself, line by line. *)
Definition line (s : string) : string := s +:+ nl.
Definition q (s : string) : string := String dquote (s +:+ String dquote "").

Example picture_of_error :
  Visualize pictureStore 0 [VisualizeError (Some pictureError)] = Ret (
    line "digraph {" +:+
    line (tb +:+ "rankdir=RL;") +:+
    line (tb +:+ "graph [compound=true];") +:+
    line (tb +:+ q "[type=main.A group=g]" +:+
          " [shape=diamond label=<main.A<BR /><FONT POINT-SIZE=" +:+ q "10" +:+
          ">Group: g</FONT>> color=red];") +:+
    line (tb +:+ q "[type=main.A group=g]" +:+ " -> " +:+ q "main.A[group=g]0" +:+ ";") +:+
    line (tb +:+ "subgraph cluster_0 {") +:+
    line (tb +:+ tb +:+ "label = " +:+ q "main" +:+ ";") +:+
    line (tb +:+ tb +:+ "constructor_0 [shape=plaintext label=" +:+ q "f1" +:+ "];") +:+
    line (tb +:+ tb +:+ "color=red;") +:+
    line (tb +:+ tb +:+ q "main.A[group=g]0" +:+ " [label=<main.A<BR /><FONT POINT-SIZE=" +:+
          q "10" +:+ ">Group: g</FONT>>];") +:+
    line (tb +:+ "}") +:+
    line (tb +:+ "subgraph cluster_1 {") +:+
    line (tb +:+ tb +:+ "label = " +:+ q "main" +:+ ";") +:+
    line (tb +:+ tb +:+ "constructor_1 [shape=plaintext label=" +:+ q "f2" +:+ "];") +:+
    line (tb +:+ tb +:+ "color=orange;") +:+
    line (tb +:+ tb +:+ q "main.B" +:+ " [label=<main.B>];") +:+
    line (tb +:+ "}") +:+
    line (tb +:+ "constructor_1 -> " +:+ q "[type=main.A group=g]" +:+ " [ltail=cluster_1];") +:+
    line (tb +:+ "subgraph cluster_2 {") +:+
    line (tb +:+ tb +:+ "label = " +:+ q "main" +:+ ";") +:+
    line (tb +:+ tb +:+ "constructor_2 [shape=plaintext label=" +:+ q "f3" +:+ "];") +:+
    line (tb +:+ tb +:+ "color=orange;") +:+
    line (tb +:+ tb +:+ q "main.C" +:+ " [label=<main.C>];") +:+
    line (tb +:+ "}") +:+
    line (tb +:+ "constructor_2 -> " +:+ q "main.B" +:+ " [ltail=cluster_2];") +:+
    line (tb +:+ q "main.B" +:+ " [color=orange];") +:+
    line (tb +:+ q "main.C" +:+ " [color=orange];") +:+
    line (tb +:+ q "main.A[group=g]0" +:+ " [color=red];") +:+
    "}").
Proof. vm_compute. reflexivity. Qed.
End picture.
