(* ===== verification/Causes.v ===== *)
(** * Where the errors of Invoke come from (error.go, constructor.go, decorate.go,
    param.go, invoke.go)

    An error that [Invoke] returns is a chain of wrapped errors.  [blames] says
    what such a chain means: every link names a parameter and the constructor or
    decorator that failed to deliver it, the parameters belong to the link before,
    and the end of the chain is an error or panic of a function that was called
    during this [Invoke], or a type nothing provides.  [ends] is the
    post-condition logic for the errors and panics of a run. *)

From S2P Require Import Prelude Digraph GoLib GoTypes DigReflect Errors Group InOut.
From S2P Require Import Values Clock DotTypes Result Store Scenario Options Param Call ResultProofs.
From S2P Require Import Deps Building ParamProofs Provide Decorate Invoke Invariants Reachable.

Open Scope string_scope.
Open Scope list_scope.

(** ** What the user's functions did *)

Section causes.
Context `{E : Env} (K : store).

(** Since the state [K] the function [fn] was called, and did [res]. *)
Definition answered (tr : list event) (who : caller) (fn : funcval) (res : callres) : Prop :=
  ∃ pre args post, tr = pre ++ EvCall who fn args :: post ∧
                   st_trace K `prefix_of` pre ∧ env_call pre fn args = res.

(** A dry run does not call functions but takes zero values for their results, and
    the zero value of a concrete error type is an error. *)
Definition dry_error (e : error) : Prop :=
  (∃ s sc, st_scopes K !! s = Some sc ∧ sc_invokerFn sc = dryInvokerFn) ∧
  ∃ t, value_error (VZero t) = Some e.

(** The function [fn] returned the error [e]. *)
Definition returned (tr : list event) (who : caller) (fn : funcval) (e : error) : Prop :=
  (∃ vs v, answered tr who fn (Returned vs) ∧ v ∈ vs ∧ value_error v = Some e) ∨ dry_error e.

(** Under a call of [fn] code panicked with [p]: the function itself, or [reflect]
    and the runtime around it. *)
Definition panicked (tr : list event) (who : caller) (fn : funcval) (p : panicval) : Prop :=
  match p with
  | PUser id q => answered tr who fn (Panicked id q)
  | _ => True
  end.

(** ** What an error of a node says *)

(** The single and grouped parameters inside a parameter. *)
Fixpoint leaves (p : param) : list param :=
  match p with
  | PObject _ fs => concat (map (λ f, leaves (pof_Param f)) fs)
  | _ => [p]
  end.

(** The function of a node, its location, where its parameters are resolved, and
    the scope that says whether panics are recovered. *)
Definition node_is (x : node) (who : caller) (fn : funcval) (loc : option Func)
    (pl : paramList) (c home : nat) : Prop :=
  match x with
  | inl n => who = ByCtor n ∧ ∃ cn, st_ctors K !! n = Some cn ∧ fn = cn_ctor cn ∧
             loc = cn_location cn ∧ pl = cn_paramList cn ∧ c = cn_origS cn ∧ home = cn_s cn
  | inr d => who = ByDcor d ∧ ∃ dn, st_dcors K !! d = Some dn ∧ fn = dn_dcor dn ∧
             loc = dn_location dn ∧ pl = dn_params dn ∧ c = dn_s dn ∧ home = dn_s dn
  end.

Definition recovers (s : nat) : Prop :=
  ∃ sc, st_scopes K !! s = Some sc ∧ recoverFromPanics sc = true.

(** Where an error arises: in the call of a node, or while the parameters [pl] are
    built in scope [c]. *)
Inductive site :=
| AtNode (x : node)
| AtParams (c : nat) (pl : paramList).

(** A missing type is the type of a required parameter among [pl] that nothing
    provides in the scope [c] and above. *)
Definition unprovided (c : nat) (pl : paramList) (mt : missingType) : Prop :=
  ∃ ps, PSingle ps ∈ concat (map leaves (pl_Params pl)) ∧ ps_Optional ps = false ∧
        mt_Key mt = valueKey (ps_Name ps) (ps_Type ps) ∧
        getAllValueProviders (st_scopes K) c (ps_Name ps) (ps_Type ps) = [].

(** Where a call of a node looks for its missing parameters: the scope a constructor
    was provided to, a scope in which the decorator is registered. *)
Definition checked_in (x : node) (s : nat) : Prop :=
  match x with
  | inl n => ∃ cn, st_ctors K !! n = Some cn ∧ s = cn_origS cn
  | inr d => ∃ sc k, st_scopes K !! s = Some sc ∧ decorators sc !! k = Some d
  end.

Inductive blames (tr : list event) : site → error → Prop :=
| blames_missing x who fn loc pl c home s l :
    node_is x who fn loc pl c home → checked_in x s →
    l ≠ [] → Forall (unprovided s pl) l →
    blames tr (AtNode x) (errMissingDependencies loc (errMissingTypes l))
| blames_arguments x who fn loc pl c home e :
    node_is x who fn loc pl c home → blames tr (AtParams c pl) e →
    blames tr (AtNode x) (errArgumentsFailed loc e)
| blames_constructor n who fn loc pl c home e :
    node_is (inl n) who fn loc pl c home → returned tr who fn e →
    blames tr (AtNode (inl n)) (errConstructorFailed loc e)
| blames_decorator d who fn loc pl c home e :
    node_is (inr d) who fn loc pl c home → returned tr who fn e →
    blames tr (AtNode (inr d)) e
| blames_panic x who fn loc pl c home p :
    node_is x who fn loc pl c home → recovers home → panicked tr who fn p →
    blames tr (AtNode x) (PanicError loc p)
| blames_type c pl mt :
    unprovided c pl mt →
    blames tr (AtParams c pl) (errMissingTypes [mt])
| blames_single c pl ps y e i :
    PSingle ps ∈ concat (map leaves (pl_Params pl)) → y ∈ param_deps K c (PSingle ps) →
    blames tr (AtNode y) e →
    blames tr (AtParams c pl) (errParamSingleFailed (valueKey (ps_Name ps) (ps_Type ps)) e i)
| blames_group c pl pt el y e i :
    PGrouped pt ∈ concat (map leaves (pl_Params pl)) → Elem (pt_Type pt) = Some el →
    y ∈ param_deps K c (PGrouped pt) → blames tr (AtNode y) e →
    blames tr (AtParams c pl) (errParamGroupFailed (groupKey (pt_Group pt) el) e i).

(** *** Errors about the signature of a function *)

Inductive input_error : error → Prop :=
| input_leaf msg : input_error (errInvalidInput msg None)
| input_option o : input_error (errInvalidGroupOption o)
| input_bool tag : input_error (parseBoolError tag)
| input_wrap msg e : input_error e → input_error (errInvalidInput msg (Some e)).

(** The errors of [Invoke] on a function in scope [s]. *)
Inductive invoke_error (s : nat) (function : iface) (tr : list event) : error → Prop :=
| invoke_input e : input_error e → invoke_error s function tr e
| invoke_missing f pl st1 l :
    function = IFunc f → newParamList (fv_type f) s K = (Ret pl, st1) →
    l ≠ [] → Forall (unprovided s pl) l →
    invoke_error s function tr (errMissingDependencies (InspectFunc f) (errMissingTypes l))
| invoke_cycle msg f pl st1 cycle :
    function = IFunc f → newParamList (fv_type f) s K = (Ret pl, st1) →
    IsAcyclic (scopeGraph st1 s) = Done (false, cycle) →
    invoke_error s function tr (errInvalidInput msg (Some (cycleDetectedError st1 s cycle)))
| invoke_arguments f pl st1 e :
    function = IFunc f → newParamList (fv_type f) s K = (Ret pl, st1) →
    blames tr (AtParams s pl) e →
    invoke_error s function tr (errArgumentsFailed (InspectFunc f) e)
| invoke_returned f e :
    function = IFunc f → returned tr ByInvoke f e → invoke_error s function tr e
| invoke_panic f p :
    function = IFunc f → recovers s → panicked tr ByInvoke f p →
    invoke_error s function tr (PanicError (InspectFunc f) p).

(** ** The logic *)

(** The states of this [Invoke]. *)
Definition kept (st : store) : Prop :=
  st_trace K `prefix_of` st_trace st ∧ skeleton st = skeleton K.

(** An error of the run satisfies [Q] and a panic satisfies [U], on the calls made
    by then. *)
Definition ends {A} (Q : list event → error → Prop) (U : list event → panicval → Prop)
    (m : M A) (st : store) : Prop :=
  kept st →
  kept (m st).2 ∧
  match (m st).1 with
  | Err e => Q (st_trace (m st).2) e
  | Panic_ p => U (st_trace (m st).2) p
  | _ => True
  end.

Definition not_user (p : panicval) : Prop := match p with PUser _ _ => False | _ => True end.

(** Nothing is said of a panic that is not recovered: it is not an error. *)
Definition any_panic (_ : list event) (_ : panicval) : Prop := True.

Lemma any_panic_lib tr p : not_user p → any_panic tr p.
Proof. done. Qed.

(** Computations of the library that return no error. *)
Definition tame {A} (o : outcome A) : Prop :=
  match o with Err _ => False | Panic_ p => not_user p | _ => True end.
End causes.

Section logic.
Context `{E : Env} (K : store).
Context (Q : list event → error → Prop) (U : list event → panicval → Prop).
Context (U_lib : ∀ tr p, not_user p → U tr p).

Lemma ends_still {A} (m : M A) st : (m st).2 = st → tame (m st).1 → ends K Q U m st.
Proof.
  intros H1 H2 Hk. rewrite H1. split; [done|]. destruct (m st).1; simpl in *; auto. done.
Qed.

Lemma ends_mret {A} (a : A) st : ends K Q U (mret a) st.
Proof. by apply ends_still. Qed.
Lemma ends_getS st : ends K Q U getS st.
Proof. by apply ends_still. Qed.
Lemma ends_orPanic {A} msg (o : option A) st : ends K Q U (orPanic msg o) st.
Proof. by apply ends_still; destruct o. Qed.
Lemma ends_liftO {A} (o : outcome A) st : tame o → ends K Q U (liftO o) st.
Proof. intros. by apply ends_still. Qed.
Lemma ends_panic {A} p st : (∀ tr, U tr p) → ends K Q U (liftO (Panic_ p) : M A) st.
Proof. intros H Hk. split; [done|]. simpl. auto. Qed.
Lemma ends_throw {A} e st : (kept K st → Q (st_trace st) e) → ends K Q U (throw e : M A) st.
Proof. intros H Hk. split; [done|]. simpl. auto. Qed.
Lemma ends_modifyS f st : (kept K st → kept K (f st)) → ends K Q U (modifyS f) st.
Proof. intros H Hk. split; [|done]. simpl. auto. Qed.

Lemma ends_bind {A B} (m : M A) (f : A → M B) st :
  ends K Q U m st →
  (∀ a st', m st = (Ret a, st') → kept K st → kept K st' → ends K Q U (f a) st') →
  ends K Q U (m ≫= f) st.
Proof.
  intros Hm Hf Hk. destruct (Hm Hk) as [H1 H2]. unfold mbind, SM_bind.
  destruct (m st) as [[a|e|p|] s1] eqn:Hr; simpl in *; [|done..].
  by apply (Hf a s1).
Qed.

Lemma ends_wrapErr {A} g (m : M A) st :
  ends K (λ tr e, Q tr (g e)) U m st → ends K Q U (wrapErr g m) st.
Proof.
  intros Hm Hk. destruct (Hm Hk) as [H1 H2]. unfold wrapErr.
  by destruct (m st) as [[a|e|p|] s1].
Qed.

Lemma ends_tryErr {A} Q' (m : M A) st : ends K Q' U m st → ends K Q U (tryErr m) st.
Proof.
  intros Hm Hk. destruct (Hm Hk) as [H1 H2]. unfold tryErr.
  by destruct (m st) as [[a|e|p|] s1].
Qed.

Lemma ends_forEach {A} (l : list A) (f : A → M ()) st :
  (∀ x st, x ∈ l → kept K st → ends K Q U (f x) st) → ends K Q U (forEach l f) st.
Proof.
  revert st; induction l as [|x l IH]; intros st H; [apply ends_mret|]. rewrite forEach_cons.
  intros Hk. revert Hk. apply ends_bind.
  - intros Hk. by apply H; [left|..].
  - intros _ st' _ _ _. apply IH. intros y st'' Hy. apply H. by right.
Qed.

Lemma ends_forMap {A B} (l : list A) (f : A → M B) st :
  (∀ x st, x ∈ l → kept K st → ends K Q U (f x) st) → ends K Q U (forMap l f) st.
Proof.
  revert st; induction l as [|x l IH]; intros st H; [apply ends_mret|]. rewrite forMap_cons.
  apply ends_bind; [intros Hk; by apply H; [left|..]|]. intros y st' _ _ _.
  apply ends_bind; [|intros; apply ends_mret]. apply IH. intros z st'' Hz. apply H. by right.
Qed.

(** A run that keeps the skeleton and logs at most events, known otherwise. *)
Lemma ends_eff {A} D (m : M A) st :
  runs (eff D) True m st → tame (m st).1 → ends K Q U m st.
Proof.
  intros [_ [Hs (new & Ht & _)]] Hm [Hp Hk]. split.
  - split; [rewrite Ht; by apply prefix_app_r|congruence].
  - destruct (m st).1; simpl in *; auto. done.
Qed.
End logic.

Lemma ends_weaken `{E : Env} K (Q Q' : list event → error → Prop)
    (U U' : list event → panicval → Prop) {A} (m : M A) st :
  (∀ tr e, Q tr e → Q' tr e) → (∀ tr p, U tr p → U' tr p) →
  ends K Q U m st → ends K Q' U' m st.
Proof.
  intros HQ HU Hm Hk. destruct (Hm Hk) as [H1 H2]. split; [done|].
  destruct (m st).1; auto.
Qed.

Lemma tryErr_inr {A} (m : M A) e st st' : tryErr m st = (Ret (inr e), st') → m st = (Err e, st').
Proof. unfold tryErr. destruct (m st) as [[]]; intros [=]; by subst. Qed.

#[export] Hint Resolve ends_mret ends_getS ends_orPanic : causes.

(** One step of a computation. *)
Ltac estep :=
  match goal with
  | |- ends _ _ _ (_ ≫= _) _ =>
      apply ends_bind; [|let a := fresh "a" in let s := fresh "s" in let Hr := fresh "Hrun" in
        let Hk := fresh "Hk" in let Hk' := fresh "Hk" in intros a s Hr Hk Hk']
  | |- ends _ _ _ (wrapErr _ _) _ => apply ends_wrapErr
  end.

(** ** Steps that cannot fail *)

Section reading.
Context `{E : Env} (K : store).
Context (Q : list event → error → Prop) (U : list event → panicval → Prop).
Context (U_lib : ∀ tr p, not_user p → U tr p).

Lemma ends_getScope s st : ends K Q U (getScope s) st.
Proof. unfold getScope. estep; auto with causes. Qed.
Lemma ends_getCtor s st : ends K Q U (getCtor s) st.
Proof. unfold getCtor. estep; auto with causes. Qed.
Lemma ends_getDcor s st : ends K Q U (getDcor s) st.
Proof. unfold getDcor. estep; auto with causes. Qed.
Lemma ends_storesToRoot s st : ends K Q U (storesToRoot s) st.
Proof. unfold storesToRoot. estep; auto with causes. Qed.
Lemma ends_clockNow s st : ends K Q U (clockNow s) st.
Proof. unfold clockNow. estep; [apply ends_getScope|]. estep; auto with causes. Qed.

Lemma tame_bind {A B} (m : outcome A) (f : A → outcome B) :
  tame m → (∀ a, m = Ret a → tame (f a)) → tame (m ≫= f).
Proof. destruct m; simpl; naive_solver. Qed.
Lemma tame_or_panic {A} msg (o : option A) : tame (or_panic msg o).
Proof. by destruct o. Qed.
Lemma tame_checkAssign op v u : tame (checkAssign op v u).
Proof. unfold checkAssign. by repeat case_match. Qed.
Lemma tame_checkAssigns op vs us : tame (checkAssigns op vs us).
Proof.
  revert us; induction vs as [|v vs IH]; intros [|u us]; simpl; try done.
  apply tame_bind; [apply tame_checkAssign|auto].
Qed.
Lemma tame_setField dest i v : tame (setField dest i v).
Proof.
  destruct dest; try done. simpl. apply tame_bind; [apply tame_or_panic|]. intros f _.
  apply tame_bind; [apply tame_checkAssign|done].
Qed.
Lemma tame_checkCall fn args : tame (checkCall fn args).
Proof.
  unfold checkCall. apply tame_bind; [apply tame_or_panic|]. intros [[ins outs] var] _.
  destruct (Nat.ltb _ _); [done|]. destruct (negb var && _); [done|].
  destruct (negb (forallb _ _)); [done|].
  apply tame_bind; [apply tame_checkAssigns|]. intros _ _.
  case_match; [apply tame_checkAssigns|done].
Qed.

Lemma kept_log st ev : kept K st → kept K (upd_trace (λ tr, tr ++ [ev]) st).
Proof. intros [Hp Hk]. split; [by apply prefix_app_r|done]. Qed.

Lemma kept_quiet st st' :
  st_trace st' = st_trace st → skeleton st' = skeleton st → kept K st → kept K st'.
Proof. intros Ht Hs [Hp Hk]. split; [by rewrite Ht|congruence]. Qed.

Lemma ends_logEvent ev st : ends K Q U (logEvent ev) st.
Proof. apply ends_modifyS, kept_log. Qed.

Lemma ends_runCallback ev st : (∀ tr p, U tr p) → ends K Q U (runCallback ev) st.
Proof.
  intros HU. unfold runCallback. estep; [auto with causes|]. estep; [apply ends_logEvent|].
  destruct (env_callback _ _) as [[id q]|]; [|auto with causes]. by apply ends_panic.
Qed.

Lemma ends_callBefore cb loc st : (∀ tr p, U tr p) → ends K Q U (callBefore cb loc) st.
Proof.
  intros HU. destruct cb; simpl; [|auto with causes]. estep; [auto with causes|by apply ends_runCallback].
Qed.

Lemma forMap_orPanic_tame {A B} msg (g : A → option B) (l : list A) (sc : Scope) :
  tame (forMap l (λ j, orPanic msg (g j)) sc).1.
Proof.
  induction l as [|j l IH]; [done|]. rewrite forMap_cons. unfold mbind, SM_bind, orPanic, liftO at 1.
  destruct (g j); simpl; [|done]. unfold mbind, SM_bind, orPanic, liftO in IH.
  destruct (forMap l _ sc) as [[]]; done.
Qed.

Lemma ends_zoomGroup s name t st : ends K Q U (zoomScope s (getValueGroup name t)) st.
Proof.
  apply (ends_eff _ _ _ U_lib (λ _, True)); [apply runs_zoomGroup|]. unfold zoomScope.
  destruct (st_scopes st !! s) as [sc|]; [|done].
  unfold getValueGroup, shuffledCopy, mbind, SM_bind. simpl.
  pose proof (forMap_orPanic_tame "index out of range"
    (λ j, default [] (groups sc !! groupKey name t) !! j)
    (env_perm (sc_rand sc) (length (default [] (groups sc !! groupKey name t))))
    (set_rand (λ r, mkRand (rand_seed r) (S (rand_draws r))) sc)) as Ht.
  destruct (forMap _ _ _) as [r sc']. exact Ht.
Qed.

(** What the shallow check finds missing. *)
Lemma required_leaves p ps : ps ∈ required p → PSingle ps ∈ leaves p ∧ ps_Optional ps = false.
Proof.
  induction p as [q|pt|t fs IH] using param_ind'; simpl; [|set_solver|].
  - destruct (ps_Optional q) eqn:Hq; [set_solver|]. intros ->%list_elem_of_singleton.
    by rewrite list_elem_of_singleton.
  - rewrite Forall_forall in IH. intros (f & Hf & Hin)%elem_of_concat_map.
    destruct (IH f Hf Hin). split; [|done]. apply elem_of_concat_map. eauto.
Qed.

Lemma missing_unprovided st c pl sc :
  kept K st →
  Forall (unprovided K c pl)
    (concat (map (λ d, newErrMissingTypes sc (valueKey (ps_Name d) (ps_Type d)))
                 (findMissingDependencies (st_scopes st) c sc (pl_Params pl)))).
Proof.
  intros [_ Hk]. apply Forall_forall. intros mt (ps & Hps & Hmt)%elem_of_concat_map.
  apply list_elem_of_singleton in Hmt as ->.
  apply elem_of_concat_map in Hps as (p & Hp & [Hr Hn]%missingOf_spec).
  apply required_leaves in Hr as [Hl Ho]. exists ps. split_and!; [|done|done|].
  - apply elem_of_concat_map. eauto.
  - unfold getAllValueProviders. rewrite <-(getAllProviders_same K st) by done.
    destruct (getAllProviders _ _ _) eqn:Hps; [done|]. destruct Hn. left.
    unfold getAllValueProviders. by rewrite Hps.
Qed.

(** The shallow check fails with a list of missing types. *)
Lemma ends_shallowCheck c pl st :
  (∀ tr l, l ≠ [] → Forall (unprovided K c pl) l → Q tr (errMissingTypes l)) →
  ends K Q U (shallowCheckDependencies c pl) st.
Proof.
  intros HQ. unfold shallowCheckDependencies. estep; [apply ends_getScope|].
  estep; [auto with causes|]. injection Hrun0 as <- <-.
  pose proof (missing_unprovided s c pl a Hk0) as Hm.
  case_match; [by apply ends_mret|]. apply ends_throw. intros _. by apply HQ.
Qed.

(** ** Reading parameters *)

Context (HQ : ∀ tr e, input_error e → Q tr e).

Lemma ends_failM {A} msg st : ends K Q U (failM msg : M A) st.
Proof. apply ends_throw. intros _. apply HQ. constructor. Qed.
End reading.

#[export] Hint Resolve ends_getScope ends_getCtor ends_getDcor ends_storesToRoot ends_clockNow
  ends_zoomGroup ends_failM ends_logEvent : causes.
#[export] Hint Resolve tame_checkAssigns tame_setField tame_checkCall : causes.
#[export] Hint Extern 2 (ends _ _ _ (liftO _) _) => apply ends_liftO : causes.

(** One step that only reads the store. *)
Ltac eread := estep; [by auto with causes|]; read_step.

(** ** Reading the parameters of a function *)

Section params.
Context `{E : Env} (K : store) (U : list event → panicval → Prop).
Context (U_lib : ∀ tr p, not_user p → U tr p).

Let Q (_ : list event) (e : error) : Prop := input_error e.
Let Q_fail {A} msg st : ends K Q U (failM msg : M A) st.
Proof. by apply ends_failM. Qed.
Hint Resolve Q_fail : causes.

Lemma ends_newGraphNode_ fuel s pt o st : ends K Q U (newGraphNode_ fuel s (WGroup pt) o) st.
Proof.
  revert s st; induction fuel as [|fuel IH]; intros s st; [by apply ends_liftO|]. simpl.
  eread. rename Hrun into Hs. estep.
  - apply ends_modifyS, kept_quiet; [done|]. unfold skeleton. simpl. f_equal.
    eapply fmap_alter_at; [done|]. destruct a as [??????????????? g ??].
    unfold skel_scope, ctor_nodes. simpl. by rewrite filter_app, app_nil_r.
  - estep; [by apply ends_modifyS, kept_quiet|]. apply ends_forEach; auto.
Qed.

Lemma ends_newParamGroupedSlice f c st : ends K Q U (newParamGroupedSlice f c) st.
Proof.
  unfold newParamGroupedSlice, newOrders. estep.
  { destruct (parseGroupString_spec (TagGet (f_Tag f) _groupTag)) as (? & ? & _ & ->).
    destruct (list_find _ _) as [[i o]|]; [|by apply ends_liftO].
    apply (ends_throw K Q U (errInvalidGroupOption o)). constructor. }
  estep; [eread; estep; [by apply ends_modifyS, kept_quiet|auto with causes]|].
  repeat (case_match; [by auto with causes|]).
  estep; [unfold newGraphNode; eread; apply ends_newGraphNode_|auto with causes].
Qed.

Lemma boolTag_error f tag err : (boolTag f tag).2 = Some err → input_error err.
Proof. unfold boolTag. repeat case_match; intros [=]; subst. do 2 constructor. Qed.

Lemma ends_newParamObjectField new idx f c st :
  (∀ t st, ends K Q U (new t c) st) → ends K Q U (newParamObjectField new idx f c) st.
Proof.
  intros Hnew. unfold newParamObjectField. estep.
  - case_decide; [auto with causes|]. case_decide; [|auto].
    estep; [apply ends_newParamGroupedSlice|auto with causes].
  - estep; [|auto with causes]. destruct a as [ps| |]; [|auto with causes..].
    destruct (isFieldOptional f) as [opt [err|]] eqn:Ho; [|auto with causes].
    apply ends_throw. intros _. apply (boolTag_error f _optionalTag).
    unfold isFieldOptional in Ho. by rewrite Ho.
Qed.

Lemma ends_newParamObjectFields new ign t i fs c st :
  (∀ t st, ends K Q U (new t c) st) →
  ends K Q U (newParamObjectFields new ign t i fs c) st.
Proof.
  intros Hnew. revert i st; induction fs as [|f fs IH]; intros i st; simpl; [auto with causes|].
  do 2 (case_match; [auto|]). estep; [estep|estep; auto with causes].
  apply (ends_weaken K Q _ U U); [intros tr e He; by constructor|done|].
  by apply ends_newParamObjectField.
Qed.

Lemma ends_newParam_ fuel t c st : ends K Q U (newParam_ fuel t c) st.
Proof.
  revert t st; induction fuel as [|fuel IH]; intros t st; [by apply ends_liftO|]. simpl.
  case_match; [auto with causes|]. case_match.
  - unfold newParamObject. destruct (ignoreUnexportedOf _) as [ign [err|]] eqn:Hi.
    + apply ends_throw. intros _. unfold ignoreUnexportedOf in Hi.
      destruct (list_find _ _) as [[j f]|]; [|done].
      apply (boolTag_error f _ignoreUnexportedTag). unfold isIgnoreUnexportedSet in Hi. by rewrite Hi.
    + estep; [by apply ends_newParamObjectFields|auto with causes].
  - repeat (case_match; [by auto with causes|]). auto with causes.
Qed.

Lemma ends_newParamList ctype c st : ends K Q U (newParamList ctype c) st.
Proof.
  unfold newParamList. eread. destruct a as [[ins outs] variadic]. estep; [|auto with causes].
  clear Hrun Hk Hk0. generalize 0, (take (if variadic then length ins - 1 else length ins) ins).
  intros i l. revert i st. induction l as [|t l IH]; intros i st; simpl; [auto with causes|].
  estep; [estep|estep; auto with causes].
  apply (ends_weaken K Q _ U U); [intros tr e He; by constructor|done|].
  apply ends_newParam_.
Qed.
End params.

(** ** Calling the user's functions *)

(** Writers whose methods return no errors. *)
Class writer_tame (W : Type) `{containerWriter W} : Prop := {
  setValue_tame n t v w : tame (setValue n t v w).1;
  setDecoratedValue_tame n t v w : tame (setDecoratedValue n t v w).1;
  submitGroupedValue_tame n t v w : tame (submitGroupedValue n t v w).1;
  submitDecoratedGroupedValue_tame n t v w : tame (submitDecoratedGroupedValue n t v w).1
}.

#[export] Instance staging_tame : writer_tame stagingContainerWriter.
Proof. by split. Qed.
#[export] Instance Scope_tame : writer_tame Scope.
Proof. by split. Qed.

Section extract.
Context `{TT : TypeTable} {W : Type} `{CW : containerWriter W} `{!writer_tame W}.

(** A run over a writer fails only with errors in [Q], and never with a panic of
    the user. *)
Definition fails (Q : error → Prop) {A} (m : SM W A) : Prop :=
  ∀ w, match (m w).1 with Err e => Q e | Panic_ p => not_user p | _ => True end.

Context (Q : error → Prop).

Lemma fails_tame {A} (m : SM W A) : (∀ w, tame (m w).1) → fails Q m.
Proof. intros H w. specialize (H w). by destruct (m w).1. Qed.

Lemma fails_bind {A B} (m : SM W A) (f : A → SM W B) :
  fails Q m → (∀ a, fails Q (f a)) → fails Q (m ≫= f).
Proof.
  intros Hm Hf w. specialize (Hm w). unfold mbind, SM_bind.
  destruct (m w) as [[a|e|p|] w']; [apply Hf|done..].
Qed.

Lemma fails_forEach {A} (l : list A) (f : A → SM W ()) :
  (∀ x, x ∈ l → fails Q (f x)) → fails Q (forEach l f).
Proof.
  induction l as [|x l IH]; intros H; [by intros w|]. rewrite forEach_cons.
  apply fails_bind; [apply H; by left|]. intros _. apply IH. intros y Hy. apply H. by right.
Qed.

Lemma fails_orPanic {A} msg (o : option A) : fails Q (orPanic msg o).
Proof. apply fails_tame. intros w. by destruct o. Qed.

Lemma fails_Extract r decorated v : fails Q (Extract r decorated v).
Proof.
  revert v; induction r as [n t As|g t fl As|t fs IH|rl IH] using result_ind'; intros v; simpl.
  - destruct decorated; [apply fails_tame, setDecoratedValue_tame|].
    apply fails_bind; [apply fails_tame, setValue_tame|]. intros _.
    apply fails_forEach. intros x _. apply fails_tame, setValue_tame.
  - destruct decorated; simpl; [apply fails_tame, submitDecoratedGroupedValue_tame|].
    destruct fl; simpl; (apply fails_bind; [|intros a; apply fails_forEach; intros x _]);
      try apply fails_orPanic; apply fails_tame, submitGroupedValue_tame.
  - apply fails_forEach. intros f Hf. rewrite Forall_forall in IH.
    apply fails_bind; [apply fails_orPanic|]. intros fv. by apply IH.
  - by intros w.
Qed.

Lemma fails_ExtractList_from rl decorated i vs :
  (∀ v e, v ∈ vs → value_error v = Some e → Q e) → fails Q (ExtractList_from rl decorated i vs).
Proof.
  revert i; induction vs as [|v vs IH]; intros i HQ; simpl; [by intros w|].
  assert (∀ j, fails Q (ExtractList_from rl decorated j vs)) as Hrest.
  { intros j. apply IH. intros v' e Hv. apply HQ. by right. }
  apply fails_bind; [apply fails_orPanic|]. intros idx. case_decide.
  - apply fails_bind; [apply fails_orPanic|]. intros r.
    apply fails_bind; [apply fails_Extract|auto].
  - destruct (value_error v) as [err|] eqn:He; [|auto]. intros w. simpl.
    apply (HQ v); [by left|done].
Qed.

Lemma fails_CommitIn vs gs : fails Q (CommitIn vs gs).
Proof.
  unfold CommitIn. apply fails_bind; [|intros _]; apply fails_forEach; intros kv _.
  - apply fails_tame, setValue_tame.
  - apply fails_forEach. intros v _. apply fails_tame, submitGroupedValue_tame.
Qed.
End extract.

Lemma answered_mono `{E : Env} K tr evs who fn res :
  answered K tr who fn res → answered K (tr ++ evs) who fn res.
Proof.
  intros (pre & args & post & -> & Hp & Hr). exists pre, args, (post ++ evs).
  by rewrite <- app_assoc.
Qed.

Lemma returned_mono `{E : Env} K tr evs who fn e :
  returned K tr who fn e → returned K (tr ++ evs) who fn e.
Proof.
  intros [(vs & v & H & ? & ?)|?]; [left|by right]. exists vs, v. auto using answered_mono.
Qed.

Lemma panicked_mono `{E : Env} K tr evs who fn p :
  panicked K tr who fn p → panicked K (tr ++ evs) who fn p.
Proof. destruct p; simpl; auto using answered_mono. Qed.

Section calls.
Context `{E : Env} (K : store) (who : caller) (fn : funcval) (loc : option Func).

Lemma panicked_lib tr p : not_user p → panicked K tr who fn p.
Proof. by destruct p. Qed.
Hint Resolve panicked_lib any_panic_lib : causes.

Lemma scope_dry s sc st :
  kept K st → st_scopes st !! s = Some sc → sc_invokerFn sc = dryInvokerFn →
  ∃ sk, st_scopes K !! s = Some sk ∧ sc_invokerFn sk = dryInvokerFn.
Proof.
  intros [_ Hk] Hs Hd. destruct (scope_same _ _ _ _ Hk Hs) as (sk & ? & Hsame). exists sk.
  split; [done|]. rewrite <- Hd. exact (f_equal sc_invokerFn Hsame).
Qed.

(** The errors among the results of a call were returned by it. *)
Lemma invoke_with_returned s sc args st vs st' :
  kept K st → st_scopes st !! s = Some sc →
  invoke_with (sc_invokerFn sc) who fn args st = (Ret vs, st') →
  ∀ v e, v ∈ vs → value_error v = Some e → returned K (st_trace st') who fn e.
Proof.
  intros Hk Hs. destruct (sc_invokerFn sc) eqn:Hinv; simpl.
  - unfold defaultInvoker, mbind, SM_bind, liftO. simpl.
    destruct (checkCall fn args) as [[]| | |]; try done. simpl.
    destruct (env_call _ _ _) as [ws|] eqn:Hcall; [|done]. intros [= <- <-] v e Hv He.
    left. exists ws, v. split; [|done]. exists (st_trace st), args, []. by destruct Hk.
  - unfold dryInvoker. rewrite bind_Ret. intros ([[ins outs] var] & s1 & H1 & H2) v e Hv He.
    apply orPanic_Ret in H1 as [-> _]. injection H2 as <- <-. right.
    destruct (scope_dry s sc st Hk Hs Hinv) as (sk & ? & ?). split; [by exists s, sk|].
    apply list_elem_of_fmap in Hv as (t & -> & _). by exists t.
Qed.

Lemma ends_invoke_with Q inv args st :
  ends K Q (λ tr p, panicked K tr who fn p) (invoke_with inv who fn args) st.
Proof.
  destruct inv; simpl.
  - unfold defaultInvoker. estep; [auto with causes|]. eread.
    estep; [apply ends_logEvent|]. destruct (env_call _ _ _) as [vs|id q] eqn:Hcall; [auto with causes|].
    intros Hk'. split; [done|]. simpl. injection Hrun0 as _ <-. simpl.
    exists (st_trace s), args, []. destruct Hk1 as [Hp _]. done.
  - unfold dryInvoker. eread. destruct a as [[ins outs] var]. auto with causes.
Qed.

Lemma ends_zoomScope Q U s {A} (m : SM Scope A) st :
  (∀ tr p, not_user p → U tr p) → (∀ sc, runs skel_eq False m sc) →
  fails (Q (st_trace st)) m → ends K Q U (zoomScope s m) st.
Proof.
  intros HU Hm Hf Hk.
  destruct (runs_zoomScope (λ _, True) False s m st Hm) as [_ [Hs (new & Ht & _)]].
  revert Hs Ht. unfold zoomScope. destruct (st_scopes st !! s) as [sc|]; [|by intros; split; [|apply HU]].
  specialize (Hf sc). destruct (m sc) as [r sc']. simpl in *. intros Hs Ht. split.
  - by apply (kept_quiet K st).
  - destruct r; auto.
Qed.

(** The deferred functions: the error is what the body returned, or a recovered
    panic. *)
Lemma ends_deferRecover (Q : list event → error → Prop) b m st :
  (b = true → ∀ tr p, panicked K tr who fn p → Q tr (PanicError loc p)) →
  ends K Q (λ tr p, panicked K tr who fn p) m st →
  ends K Q (λ tr p, panicked K tr who fn p) (deferRecover b loc m) st.
Proof.
  intros HQ Hm Hk. destruct (Hm Hk) as [H1 H2]. unfold deferRecover, observe.
  destruct (m st) as [[a|e|p|] s1]; simpl in *; try done. destruct b; simpl; auto.
Qed.

Lemma ends_deferCallback (Q : list event → error → Prop) cb c m st :
  (∀ tr evs e, Q tr e → Q (tr ++ evs) e) →
  ends K Q any_panic m st → ends K Q any_panic (deferCallback cb loc c m) st.
Proof.
  intros HQ Hm. destruct cb as [cb|]; simpl; [|done]. estep; [auto with causes|].
  apply clockNow_Ret in Hrun as ->. destruct (Hm Hk) as [H1 H2]. intros _. unfold observe.
  destruct (m st) as [r s1]. simpl in *.
  assert (ends K Q any_panic
            (name ← orPanic nilDeref (qualifiedName loc); now ← clockNow c;
             _ ← runCallback (EvCallback cb name (errOf r) (Since now a)); liftO r) s1) as Hend.
  { eread. estep; [auto with causes|]. apply clockNow_Ret in Hrun0 as ->.
    estep; [by apply ends_runCallback|]. destruct a2. apply runCallback_Ret in Hrun0 as ->.
    intros Hk'. split; [done|]. simpl. destruct r; simpl in *; auto. }
  destruct r; try (by apply Hend). done.
Qed.
End calls.
#[export] Hint Resolve panicked_lib any_panic_lib : causes.

(** ** Building parameters *)

Section build.
Context `{E : Env} (K : store) (R : callees).
Context (HC : ∀ st n cn, st_ctors st !! n = Some cn →
  ends K (λ tr, blames K tr (AtNode (inl n))) any_panic (callC R n (cn_origS cn)) st).
Context (HD : ∀ st d s, checked_in K (inr d) s →
  ends K (λ tr, blames K tr (AtNode (inr d))) any_panic (callD R d s) st).
Context (c : nat) (pl : paramList).

Let Q (tr : list event) (e : error) : Prop := blames K tr (AtParams c pl) e.
Let inside (p : param) : Prop := p ∈ concat (map leaves (pl_Params pl)).
Abbreviation ends_ok := (ends K Q any_panic).

(** What the searches find in a state of the run are dependencies of the parameter. *)
Let dep_kept st s p k soft y :
  kept K st → s ∈ ancestors (st_scopes st) c → y ∈ key_deps (st_scopes st) k soft s →
  param_deps st c p = concat (map (key_deps (st_scopes st) k soft) (ancestors (st_scopes st) c)) →
  y ∈ param_deps K c p.
Proof.
  intros [_ Hk] Hs Hy Hp. rewrite <- (param_deps_same K st) by done. rewrite Hp.
  apply elem_of_concat_map. eauto.
Qed.

Lemma decorator_checked st d s k soft :
  kept K st → inr d ∈ key_deps (st_scopes st) k soft s → checked_in K (inr d) s.
Proof.
  intros [_ Hk] Hd. unfold key_deps in Hd. destruct (st_scopes st !! s) as [sc|] eqn:Hs; [|set_solver].
  destruct (scope_same st K s sc Hk Hs) as (sk & Hsk & Heq). exists sk, k. split; [done|].
  assert (decorators sk = decorators sc) as -> by (by injection Heq).
  apply elem_of_app in Hd as [Hd|Hd].
  - destruct (decorators sc !! k); [|set_solver]. simpl in Hd. apply list_elem_of_singleton in Hd. congruence.
  - destruct soft; [set_solver|]. by apply list_elem_of_fmap in Hd as (? & ? & _).
Qed.

Lemma ends_callProviders ps ns st :
  inside (PSingle ps) → (∀ n, n ∈ ns → inl n ∈ param_deps K c (PSingle ps)) →
  ends_ok (callProviders R ps ns) st.
Proof.
  intros Hin. revert st; induction ns as [|n ns IH]; intros st Hns; simpl; [auto with causes|].
  eread. estep; [by eapply ends_tryErr, HC|]. destruct a0 as [u|err].
  - apply IH. intros m Hm. apply Hns. by right.
  - apply tryErr_inr in Hrun0. destruct (HC st n a Hrun Hk1) as [_ Herr].
    rewrite Hrun0 in Herr. simpl in Herr. case_match; [auto with causes|].
    apply ends_throw. intros _. eapply blames_single; [done| |done]. apply Hns. by left.
Qed.

Lemma ends_buildWithDecorators ps st :
  inside (PSingle ps) → ends_ok (buildWithDecorators R ps c) st.
Proof.
  intros Hin. unfold buildWithDecorators. do 2 eread.
  destruct (findDecorator _ _ _) as [[d ds]|] eqn:Hf; [|auto with causes].
  apply findDecorator_Some in Hf as (Hs & _ & Hd). estep; [|eread; auto with causes].
  estep. eapply ends_weaken; [|done|by eapply HD, decorator_checked]. intros tr e He.
  eapply blames_single; [done| |exact He]. by eapply dep_kept.
Qed.

Lemma ends_paramSingle ps st : inside (PSingle ps) → ends_ok (paramSingle_Build R ps c) st.
Proof.
  intros Hin. unfold paramSingle_Build. estep; [by apply ends_buildWithDecorators|].
  destruct a as [v|]; [auto with causes|]. do 2 eread.
  destruct (firstDecorated _ _ _); [auto with causes|].
  destruct (findProvision _ _ _) as [v|s' ns|] eqn:Hf; [auto with causes| |].
  - apply findProvision_Provided in Hf as [Hs' Hns]. estep.
    + apply ends_callProviders; [done|]. intros n Hn. by eapply dep_kept; [| |by apply Hns|].
    + destruct a; [auto with causes|]. eread. auto with causes.
  - destruct (ps_Optional ps) eqn:Ho; [auto with causes|]. eread. apply ends_throw. intros _.
    apply blames_type. exists ps. split_and!; [done|done|done|].
    rewrite <-(findProvision_unprovided _ _ _ Hf). symmetry. by apply getAllProviders_same, Hk0.
Qed.

Let group_kept st s pt el y :
  kept K st → Elem (pt_Type pt) = Some el → s ∈ ancestors (st_scopes st) c →
  y ∈ key_deps (st_scopes st) (groupKey (pt_Group pt) el) (pt_Soft pt) s →
  y ∈ param_deps K c (PGrouped pt).
Proof. intros Hk Hel Hs Hy. eapply dep_kept; [done..|]. simpl. by rewrite Hel. Qed.

Let ancestors_kept st st' : kept K st → kept K st' →
  ancestors (st_scopes st) c = ancestors (st_scopes st') c.
Proof.
  intros [_ H1] [_ H2]. rewrite <- (ancestors_skel (st_scopes st)), <- (ancestors_skel (st_scopes st')).
  change (ancestors (st_scopes (skeleton st)) c = ancestors (st_scopes (skeleton st')) c).
  by rewrite H1, H2.
Qed.

Lemma ends_callGroupDecorators pt st :
  inside (PGrouped pt) → ends_ok (callGroupDecorators R pt c) st.
Proof.
  intros Hin. unfold callGroupDecorators. eread. rename Hrun into Hel, a into el. eread.
  apply ends_forEach; [auto with causes|]. intros ds s1 Hds Hk3.
  rewrite elem_of_reverse, (ancestors_kept _ s1) in Hds by done. eread.
  destruct (getGroupDecorator _ _ _) as [d|] eqn:Hd; [|auto with causes]. eread.
  case_decide; [auto with causes|].
  assert (inr d ∈ key_deps (st_scopes s1) (groupKey (pt_Group pt) el) (pt_Soft pt) ds) as Hdep.
  { unfold key_deps. rewrite Hrun. unfold getGroupDecorator, getDecorators in Hd.
    rewrite Hd. by left. }
  estep. eapply ends_weaken; [|done|by eapply HD, decorator_checked]. intros tr e He.
  eapply blames_group; [done..| |exact He]. by eapply (group_kept s1 ds).
Qed.

Lemma ends_callGroupProviders pt st :
  pt_Soft pt = false → inside (PGrouped pt) → ends_ok (callGroupProviders R pt c) st.
Proof.
  intros Hsoft Hin. unfold callGroupProviders. eread. rename Hrun into Hel. eread.
  estep; [|auto with causes]. apply ends_forMap; [auto with causes|]. intros ds s1 Hds Hk3.
  rewrite (ancestors_kept _ s1) in Hds by done. eread. estep; [|auto with causes].
  apply ends_forEach; [auto with causes|]. intros n s2 Hn Hk6. eread. estep.
  eapply ends_weaken; [|done|by apply HC]. intros tr e He.
  eapply blames_group; [done..| |exact He]. eapply (group_kept s1 ds); [done..|].
  unfold key_deps. rewrite Hrun, Hsoft, elem_of_app. right. by apply list_elem_of_fmap_2.
Qed.

Lemma ends_paramGrouped pt st : inside (PGrouped pt) → ends_ok (paramGroupedSlice_Build R pt c) st.
Proof.
  intros Hin. unfold paramGroupedSlice_Build. estep; [by apply ends_callGroupDecorators|].
  do 2 eread. case_match; [auto with causes|]. estep.
  { destruct (pt_Soft pt) eqn:Hs; [auto with causes|by apply ends_callGroupProviders]. }
  do 2 eread. estep; [|auto with causes]. apply ends_forMap; [auto with causes|].
  intros s1 st1 _ _. estep; [auto with causes|]. estep; auto with causes.
Qed.

Lemma ends_buildFields dest fields st :
  (∀ fb st, fb ∈ fields → ends_ok fb.2 st) → ends_ok (buildFields dest fields) st.
Proof.
  revert dest st; induction fields as [|[f b] fields IH]; intros dest st H; simpl; [auto with causes|].
  estep; [apply (H (f, b)); by left|]. estep; [auto with causes|]. apply IH.
  intros fb st' Hf. apply H. by right.
Qed.

Lemma ends_param p st : (∀ q, q ∈ leaves p → inside q) → ends_ok (param_Build R p c) st.
Proof.
  revert st; induction p as [ps|pt|t fs IH] using param_ind'; intros st Hin; simpl.
  - apply ends_paramSingle, Hin. by left.
  - apply ends_paramGrouped, Hin. by left.
  - unfold paramObject_Build. apply ends_buildFields. intros fb st' Hfb.
    assert (fb ∈ map (λ f, (f, param_Build R (pof_Param f) c)) fs) as Hf
      by (apply elem_of_app in Hfb as [[_ ?]%list_elem_of_filter|[_ ?]%list_elem_of_filter]; done).
    apply list_elem_of_fmap in Hf as (f & -> & Hf). rewrite Forall_forall in IH. simpl.
    apply IH; [done|]. intros q Hq. apply Hin. simpl. apply elem_of_concat_map. eauto.
Qed.

Lemma ends_BuildList st : ends_ok (BuildList R pl c) st.
Proof.
  apply ends_forMap; [auto with causes|]. intros p st' Hp _. apply ends_param. intros q Hq.
  apply elem_of_concat_map. eauto.
Qed.
End build.

(** ** Calling nodes *)

Section nodes.
Context `{E : Env} (K : store).

Lemma node_ctor st n cn :
  kept K st → st_ctors st !! n = Some cn →
  node_is K (inl n) (ByCtor n) (cn_ctor cn) (cn_location cn) (cn_paramList cn) (cn_origS cn) (cn_s cn).
Proof.
  intros [_ Hk] Hn. destruct (ctor_same _ _ _ _ Hk Hn) as (ck & Hck & Hsame).
  split; [done|]. exists ck. destruct cn, ck. by inversion Hsame; subst.
Qed.

Lemma node_dcor st d dn :
  kept K st → st_dcors st !! d = Some dn →
  node_is K (inr d) (ByDcor d) (dn_dcor dn) (dn_location dn) (dn_params dn) (dn_s dn) (dn_s dn).
Proof.
  intros [_ Hk] Hd. destruct (dcor_same _ _ _ _ Hk Hd) as (dk & Hdk & Hsame).
  split; [done|]. exists dk. destruct dn, dk. by inversion Hsame; subst.
Qed.

Lemma recovers_kept st s sc :
  kept K st → st_scopes st !! s = Some sc → recoverFromPanics sc = true → recovers K s.
Proof.
  intros [_ Hk] Hs Hr. destruct (scope_same _ _ _ _ Hk Hs) as (sk & ? & Hsame). exists sk.
  split; [done|]. rewrite <- Hr. exact (f_equal recoverFromPanics Hsame).
Qed.

Lemma blames_mono tr evs x e : blames K tr x e → blames K (tr ++ evs) x e.
Proof.
  induction 1; try (by econstructor).
  - eapply blames_constructor; eauto using returned_mono.
  - eapply blames_decorator; eauto using returned_mono.
  - eapply blames_panic; eauto using panicked_mono.
Qed.

(** The results of a constructor: the errors among them, or a panic. *)
Lemma ends_constructorBody n cn c args st :
  node_is K (inl n) (ByCtor n) (cn_ctor cn) (cn_location cn) (cn_paramList cn) (cn_origS cn)
          (cn_s cn) →
  ends K (λ tr, blames K tr (AtNode (inl n))) (λ tr p, panicked K tr (ByCtor n) (cn_ctor cn) p)
       (constructorBody n cn c args) st.
Proof.
  intros Hnode. unfold constructorBody. eread. estep; [apply ends_invoke_with|].
  pose proof (invoke_with_returned K _ _ _ _ _ _ _ _ Hk Hrun Hrun0) as Hret.
  unfold storeResults.
  pose proof (fails_ExtractList_from (λ e, returned K (st_trace s) (ByCtor n) (cn_ctor cn) e)
    (cn_resultList cn) false 0 a0 Hret newStagingContainerWriter) as Hfail.
  unfold ExtractList. destruct (ExtractList_from _ _ _ _ _) as [[u|e|p|] w]; simpl in Hfail.
  - estep.
    + apply ends_zoomScope; [auto using panicked_lib| |apply fails_CommitIn].
      intros sc. apply (CommitIn_runs skel_eq).
    + apply ends_modifyS, kept_quiet; [done|]. unfold skeleton. simpl.
      by rewrite (fmap_alter_same skel_ctor set_called).
  - apply ends_throw. intros _. by eapply blames_constructor.
  - intros Hk'. split; [done|]. by apply panicked_lib.
  - by intros Hk'.
Qed.

Lemma ends_decoratorBody d dn s args st :
  node_is K (inr d) (ByDcor d) (dn_dcor dn) (dn_location dn) (dn_params dn) (dn_s dn) (dn_s dn) →
  ends K (λ tr, blames K tr (AtNode (inr d))) (λ tr p, panicked K tr (ByDcor d) (dn_dcor dn) p)
       (decoratorBody d dn s args) st.
Proof.
  intros Hnode. unfold decoratorBody. eread. estep; [apply ends_invoke_with|].
  pose proof (invoke_with_returned K _ _ _ _ _ _ _ _ Hk Hrun Hrun0) as Hret. estep.
  - apply ends_zoomScope; [auto using panicked_lib| |].
    + intros sc. apply (ExtractList_runs skel_eq).
    + apply fails_ExtractList_from. intros v e Hv He. eapply blames_decorator; eauto.
  - apply ends_modifyS, kept_quiet; [done|]. unfold skeleton. simpl.
    by rewrite (fmap_alter_same skel_dcor (set_state decoratorCalled)).
Qed.
End nodes.

(** ** The recursion, and Invoke *)

Section knot.
Context `{E : Env} (K : store).

Definition blames_calls (R : callees) : Prop :=
  (∀ st n cn, st_ctors st !! n = Some cn →
     ends K (λ tr, blames K tr (AtNode (inl n))) any_panic (callC R n (cn_origS cn)) st) ∧
  (∀ st d s, checked_in K (inr d) s →
     ends K (λ tr, blames K tr (AtNode (inr d))) any_panic (callD R d s) st).

(** The end of a call: the deferred functions around the body. *)
Lemma ends_body x who fn loc pl c home cb s sc st (m : M ()) :
  node_is K x who fn loc pl c home → kept K st → st_scopes st !! home = Some sc →
  ends K (λ tr, blames K tr (AtNode x)) (λ tr p, panicked K tr who fn p) m st →
  ends K (λ tr, blames K tr (AtNode x)) any_panic
       (deferCallback cb loc s (deferRecover (recoverFromPanics sc) loc m)) st.
Proof.
  intros Hnode Hk Hs Hm. apply ends_deferCallback; [intros; by apply blames_mono|].
  eapply (ends_weaken K); [intros tr e He; exact He|done|]. apply (ends_deferRecover K who fn); [|done].
  intros Hr tr p Hp. eapply blames_panic; [done| |done]. by eapply recovers_kept.
Qed.

Lemma ends_constructorNode_Call R n cn st :
  blames_calls R → st_ctors st !! n = Some cn →
  ends K (λ tr, blames K tr (AtNode (inl n))) any_panic
       (constructorNode_Call R n (cn_origS cn)) st.
Proof.
  intros [HC HD] Hn. unfold constructorNode_Call. eread. rewrite Hn in Hrun. injection Hrun as <-.
  pose proof (node_ctor K _ _ _ Hk Hn) as Hnode.
  assert (checked_in K (inl n) (cn_origS cn)) as Hs.
  { destruct Hnode as [_ (ck & Hck & _ & _ & _ & Ho & _)]. by exists ck. }
  destruct (cn_called cn); [auto with causes|].
  estep; [estep; apply ends_shallowCheck; [apply any_panic_lib|]; intros; by eapply blames_missing|].
  estep.
  { estep. eapply ends_weaken; [|done|by apply ends_BuildList].
    intros tr e He. by eapply blames_arguments. }
  estep; [by apply ends_callBefore|]. eread. eapply ends_body; [done..|]. by apply ends_constructorBody.
Qed.

Lemma ends_decoratorNode_Call R d s st :
  blames_calls R → checked_in K (inr d) s →
  ends K (λ tr, blames K tr (AtNode (inr d))) any_panic (decoratorNode_Call R d s) st.
Proof.
  intros [HC HD] Hs. unfold decoratorNode_Call. eread. rename a into dn.
  pose proof (node_dcor K _ _ _ Hk Hrun) as Hnode. case_decide; [auto with causes|].
  estep.
  { apply ends_modifyS, kept_quiet; [done|]. unfold skeleton. simpl.
    by rewrite (fmap_alter_same skel_dcor (set_state decoratorOnStack)). }
  estep; [estep; apply ends_shallowCheck; [apply any_panic_lib|]; intros; by eapply blames_missing|].
  estep.
  { estep. eapply ends_weaken; [|done|by apply ends_BuildList].
    intros tr e He. by eapply blames_arguments. }
  estep; [by apply ends_callBefore|]. eread. eapply ends_body; [done..|]. by apply ends_decoratorBody.
Qed.

Lemma knot_blames fuel : blames_calls (knot fuel).
Proof.
  induction fuel as [|fuel IH]; simpl.
  - split; intros; by apply ends_liftO; [apply any_panic_lib|].
  - split; intros; [by apply ends_constructorNode_Call|by apply ends_decoratorNode_Call].
Qed.

Lemma checkAcyclic_Some s st cycle st' :
  checkAcyclic s st = (Ret (Some cycle), st') →
  st' = st ∧ IsAcyclic (scopeGraph st s) = Done (false, cycle).
Proof.
  unfold checkAcyclic, mbind, SM_bind. simpl.
  destruct (IsAcyclic _) as [[[] c]| |]; try done. by intros [= -> ->].
Qed.

Lemma shallowCheck_same f c pl st st' :
  wrapErr f (shallowCheckDependencies c pl) st = (Ret (), st') → st' = st.
Proof.
  unfold wrapErr. destruct (shallowCheckDependencies c pl st) as [r s] eqn:Hr.
  destruct r; try done. destruct a. intros [= <-]. unfold shallowCheckDependencies, getScope, mbind, SM_bind in Hr.
  simpl in Hr. destruct (st_scopes st !! c); simpl in Hr; [|done]. destruct (concat _); by injection Hr.
Qed.

Lemma ends_verifyAcyclic Q U s st :
  (∀ tr p, not_user p → U tr p) →
  (∀ tr msg cycle, IsAcyclic (scopeGraph st s) = Done (false, cycle) →
     Q tr (errInvalidInput msg (Some (cycleDetectedError st s cycle)))) →
  ends K Q U (verifyAcyclic s) st.
Proof.
  intros HU HQ. unfold verifyAcyclic. eread. case_match; [auto with causes|]. estep.
  - unfold checkAcyclic. eread.
    destruct (IsAcyclic _) as [[[] cyc]| |]; [auto with causes..| |by apply ends_liftO].
    by apply (ends_liftO _ _ _ HU (Panic_ (PRuntime "index out of range"))).
  - destruct a0 as [cycle|].
    { apply checkAcyclic_Some in Hrun0 as [-> Hcycle]. eread. apply ends_throw. intros _. by apply HQ. }
    apply ends_modifyS.
    apply kept_quiet; [done|]. unfold skeleton. simpl.
    rewrite (fmap_alter_same skel_scope (set_isVerifiedAcyclic true)); [done|by intros []].
Qed.

Lemma ends_invokeBody s f pl args opts st :
  ends K (λ tr e, returned K tr ByInvoke f e) (λ tr p, panicked K tr ByInvoke f p)
       (invokeBody s f pl args opts) st.
Proof.
  unfold invokeBody. estep; [case_match; [by apply ends_modifyS, kept_quiet|auto with causes]|].
  eread. estep; [apply ends_invoke_with|].
  pose proof (invoke_with_returned K _ _ _ _ _ _ _ _ Hk1 Hrun0 Hrun1) as Hret.
  destruct (last a1) as [v|] eqn:Hv; [|auto with causes]. eread.
  destruct (isError _); [|auto with causes]. destruct (value_error v) as [err|] eqn:He; [|auto with causes].
  apply ends_throw. intros _. apply (Hret v); [by apply last_Some_elem_of|done].
Qed.

Lemma ends_Invoke fuel s function opts :
  ends K (invoke_error K s function) any_panic (Invoke fuel s function opts) K.
Proof.
  assert (∀ A msg st, ends K (invoke_error K s function) any_panic (failM msg : M A) st) as Hfail.
  { intros. apply ends_failM. intros. by constructor. }
  unfold Invoke. destruct (TypeOf function) as [ftype|] eqn:Hty; [|auto].
  destruct function as [|t|f|t r]; try done; [|auto..]. injection Hty as <-.
  case_decide; [auto|]. estep.
  { eapply ends_weaken; [|done|apply ends_newParamList, any_panic_lib]. intros. by constructor. }
  estep; [estep; apply ends_shallowCheck; [apply any_panic_lib|]; intros; by eapply invoke_missing|].
  destruct a0. apply shallowCheck_same in Hrun0 as ->.
  estep; [apply ends_verifyAcyclic; [apply any_panic_lib|]; intros; by eapply invoke_cycle|].
  destruct (knot_blames fuel) as [HC HD]. estep.
  { estep. eapply ends_weaken; [|done|by apply ends_BuildList].
    intros tr e He. by eapply invoke_arguments. }
  eread. eapply (ends_weaken K).
  { intros tr e He. exact He. }
  { intros tr p Hp. exact I. }
  apply (ends_deferRecover K ByInvoke f).
  - intros Hr tr p Hp. apply invoke_panic; [done| |done]. by eapply recovers_kept.
  - eapply ends_weaken; [| |apply ends_invokeBody]; [|done]. intros. by eapply invoke_returned.
Qed.
End knot.

(** ** The root cause *)

Section root.
Context `{E : Env} (K : store) (tr : list event).

(** What can be at the end of the chain. *)
Inductive root_cause : error → Prop :=
| root_returned who fn e : returned K tr who fn e → root_cause e
| root_panic loc who fn p : panicked K tr who fn p → root_cause (PanicError loc p)
| root_missing c pl l : l ≠ [] → Forall (unprovided K c pl) l → root_cause (errMissingTypes l)
| root_cycle path name : root_cause (errCycleDetected path name)
| root_input msg : root_cause (errInvalidInput msg None)
| root_option o : root_cause (errInvalidGroupOption o)
| root_bool tag : root_cause (parseBoolError tag).

(** [e] is [c] under errors of the package. *)
Definition under (c e : error) : Prop :=
  ∃ ds, chain_of e = ds ++ chain_of c ∧ Forall (λ d, isDigError d = true) ds.

Lemma under_refl c : under c c.
Proof. by exists []. Qed.

Lemma under_step c e e' : isDigError e' = true → Unwrap e' = Some e → under c e → under c e'.
Proof.
  intros Hd Hu (ds & Hc & Hds). exists (e' :: ds). split; [|by constructor].
  by rewrite chain_of_Unwrap, Hu, Hc.
Qed.

Hint Constructors root_cause : causes.
Hint Resolve under_refl : causes.
Hint Extern 1 (under _ _) => eapply under_step; [reflexivity|reflexivity|] : causes.

Lemma blames_root x e : blames K tr x e → ∃ c, under c e ∧ root_cause c.
Proof.
  induction 1 as [| ? ? ? ? ? ? ? ? ? ? (c & ? & ?)| | | |c pl mt ?|? ? ? ? ? ? ? ? ? (c & ? & ?)
                  |? ? ? ? ? ? ? ? ? ? ? (c & ? & ?)]; eauto 6 with causes.
Qed.

Lemma input_root e : input_error e → ∃ c, under c e ∧ root_cause c.
Proof. induction 1 as [| | |msg e _ (c & ? & ?)]; eauto with causes. Qed.

Lemma invoke_root s function e : invoke_error K s function tr e → ∃ c, under c e ∧ root_cause c.
Proof.
  destruct 1 as [e He| |msg f pl st1 cycle|f pl st1 e _ _ He| |];
    [by apply input_root|eauto 7 with causes|..].
  - exists (cycleDetectedError st1 s cycle). split; [auto with causes|constructor].
  - apply blames_root in He as (c & ? & ?). eauto with causes.
  - eauto with causes.
  - eauto with causes.
Qed.

(** [RootCause] finds it, unless an error of the user wraps one of the package. *)
Lemma root_found c e :
  (∀ who fn u, returned K tr who fn u → Forall (λ d, isDigError d = false) (chain_of u)) →
  under c e → root_cause c → RootCause (Some e) = Some (Some c).
Proof.
  intros Huser (ds & Hc & Hds) Hroot. unfold RootCause. rewrite RootCause_loop_spec by lia.
  f_equal. rewrite Hc, chain_of_Unwrap.
  assert (isDigError c = true ∧ Unwrap c = None ∨
          Forall (λ d, isDigError d = false) (chain_of c)) as [[Hd ->]|Hn].
  { destruct Hroot; [right; eauto|..]; try (left; split; reflexivity); right; by repeat constructor. }
  - apply root_of_all_dig. apply Forall_app. auto using Forall_cons, Forall_nil.
  - rewrite chain_of_Unwrap in Hn. inversion Hn; subst. by apply root_of_dig_prefix.
Qed.
End root.

(** C10: an error of [Invoke] tells what went wrong during this [Invoke].  It is an
    error about the signature of the function, a cycle, missing dependencies of the
    function, an error or (if the scope recovers) a panic of the function, or it says
    which parameter could not be built and blames the call of a constructor or
    decorator the parameter depends on, and so on along the chain, down to a function
    that was called and returned the error or panicked, or to the types of required
    parameters that nothing provides.
    [RootCause] returns what is at the end of the chain, if no error that a function
    of the user returned wraps an error of the package. *)
Theorem Invoke_error_cause `{E : Env} fuel s function opts st e st' :
  Invoke fuel s function opts st = (Err e, st') →
  invoke_error st s function (st_trace st') e ∧
  ((∀ who fn u, returned st (st_trace st') who fn u →
                Forall (λ d, isDigError d = false) (chain_of u)) →
   ∃ c, RootCause (Some e) = Some (Some c) ∧ root_cause st (st_trace st') c).
Proof.
  intros Hrun. destruct (ends_Invoke st fuel s function opts) as [_ He]; [by split|].
  rewrite Hrun in He. simpl in He. split; [done|]. intros Huser.
  apply invoke_root in He as (c & Hu & Hc). exists c. split; [by eapply root_found|done].
Qed.

(** ** An example *)

(** [func() (A, error)] with identity 9 returns an error, [func(A) B] needs its
    value. *)
Definition brokenEnv : Env := mkEnv scenarioTable (λ _ f _,
  if decide (fv_id f = 9%positive)
  then Returned [VObj tA 99; VErr _errType (UserError 1 "failed" None)] else Returned []).

Definition brokenStore : store :=
  run_ops (E := brokenEnv) [OpNew []; OpProvide 0 (fn 45 9) []; OpProvide 0 (fn 41 2) []] emptyStore.

Lemma VZero_error `{TypeTable} t u : value_error (VZero t) = Some u → u = UserError 0 "<nil>" None.
Proof. simpl. repeat case_match; by intros [=]. Qed.

Lemma broken_user_errors K tr who fn u :
  returned (E := brokenEnv) K tr who fn u → Forall (λ d, isDigError d = false) (chain_of u).
Proof.
  intros [(vs & v & (pre & args & post & _ & _ & Hcall) & Hv & Hu)|[_ [t ->%VZero_error]]];
    [|by repeat constructor].
  simpl in Hcall. unfold typedCall in Hcall.
  assert (v = VObj tA 99 ∨ v = VErr _errType (UserError 1 "failed" None) ∨ ∃ t, v = VZero t) as Hcases.
  { destruct (FuncSig _) as [[[ins outs] var]|]; [|injection Hcall as <-; by apply not_elem_of_nil in Hv].
    assert (v ∈ VZero <$> outs → ∃ t, v = VZero t) as Hz.
    { intros (t & -> & _)%list_elem_of_fmap. by exists t. }
    destruct (decide _); destruct (results_ok _ _); injection Hcall as <-; auto.
    - apply elem_of_cons in Hv as [->|[->|[]%not_elem_of_nil]%elem_of_cons]; auto.
    - by apply not_elem_of_nil in Hv. }
  destruct Hcases as [->|[->|[t ->]]].
  - by vm_compute in Hu.
  - injection Hu as <-. by repeat constructor.
  - apply VZero_error in Hu as ->. by repeat constructor.
Qed.

Lemma Invoke_error_cause_witness :
  ∃ e st', Invoke (E := brokenEnv) 3 0 (fn 44 3) [] brokenStore = (Err e, st') ∧
  invoke_error (E := brokenEnv) brokenStore 0 (fn 44 3) (st_trace st') e ∧
  ∃ c, RootCause (Some e) = Some (Some c) ∧ root_cause (E := brokenEnv) brokenStore (st_trace st') c.
Proof.
  destruct (Invoke (E := brokenEnv) 3 0 (fn 44 3) [] brokenStore) as [r st'] eqn:Hr.
  destruct r as [u|e|p|]; [exfalso; vm_compute in Hr; discriminate Hr| |
    exfalso; vm_compute in Hr; discriminate Hr..].
  exists e, st'. split; [reflexivity|].
  destruct (Invoke_error_cause (E := brokenEnv) 3 0 (fn 44 3) [] brokenStore e st' Hr) as [He Hc].
  split; [exact He|]. apply Hc. intros who f u. apply broken_user_errors.
Defined.
