(* ===== verification/Divergence.v ===== *)
(** * When Invoke does not return

    The converse of the termination theorems: constructors that need each other first,
    and that the cycle check does not report, make [Invoke] recurse without end.
    [first_call] follows a parameter to the constructor whose call comes first. *)

From S2P Require Import Prelude Digraph GoLib GoTypes DigReflect Errors Group InOut.
From S2P Require Import Values DotTypes Result Store Scenario Options Param Call ResultProofs.
From S2P Require Import Deps Building ParamProofs Provide Decorate Invoke Invariants Reachable.

Open Scope string_scope.
Open Scope list_scope.

Section divergence.
Context `{E : Env}.

(** ** The first call *)

(** No scope decorates the value group. *)
Definition group_undecorated (st : store) (stores : list nat) (g : string) (el : rtype) : bool :=
  forallb (λ s, match st_scopes st !! s with
                | Some sc => match getGroupDecorator sc g el with None => true | Some _ => false end
                | None => false
                end) stores.

(** The constructor that building a parameter in scope [c] calls first, if building has to
    call one before anything else happens: nothing is decorated or cached. *)
Definition first_single (st : store) (c : nat) (ps : paramSingle) : option nat :=
  let stores := ancestors (st_scopes st) c in
  match findDecorator st stores ps, firstDecorated (st_scopes st) stores ps,
        findProvision (st_scopes st) stores ps with
  | None, None, Provided _ ns => head ns
  | _, _, _ => None
  end.

Definition first_grouped (st : store) (c : nat) (pt : paramGroupedSlice) : option nat :=
  let stores := ancestors (st_scopes st) c in
  el ← Elem (pt_Type pt);
  if group_undecorated st stores (pt_Group pt) el && negb (pt_Soft pt) then
    match firstDecoratedGroup (st_scopes st) stores pt with
    | None => head (getAllGroupProviders (st_scopes st) c (pt_Group pt) el)
    | Some _ => None
    end
  else None.

Fixpoint first_call (st : store) (c : nat) (p : param) : option nat :=
  match p with
  | PSingle ps => first_single st c ps
  | PGrouped pt => first_grouped st c pt
  | PObject _ fs =>
      (fix go fs := match fs with
                    | [] => None
                    | f :: fs' => if isSoftGroup (pof_Param f) then go fs'
                                  else first_call st c (pof_Param f)
                    end) fs
  end.

Definition first_of (st : store) (c : nat) (pl : paramList) : option nat :=
  head (pl_Params pl) ≫= first_call st c.

(** Every constructor of [X] has not been called, passes the shallow check, and first of
    all calls a constructor of [X]. *)
Definition self_feeding (st : store) (X : list nat) : bool :=
  forallb (λ n, match st_ctors st !! n with
                | Some cn =>
                    negb (cn_called cn) &&
                    match shallowCheckDependencies (cn_origS cn) (cn_paramList cn) st with
                    | (Ret _, _) => true
                    | _ => false
                    end &&
                    match first_of st (cn_origS cn) (cn_paramList cn) with
                    | Some m => bool_decide (m ∈ X)
                    | None => false
                    end
                | None => false
                end) X.

(** ** A call that exhausts its bound exhausts the bound of what makes it *)

Section build.
Context (R : callees) (st : store) (m : nat) (cm : constructorNode).
Context (Hm : st_ctors st !! m = Some cm).
Context (Hcall : callC R m (cn_origS cm) st = (NoFuel, st)).

Lemma bind_NoFuel {A B} (k : M A) (f : A → M B) s s' :
  k s = (NoFuel, s') → (k ≫= f) s = (NoFuel, s').
Proof. intros H. unfold mbind, SM_bind. by rewrite H. Qed.

Let getCtor_m : getCtor m st = (Ret cm, st).
Proof. unfold getCtor, mbind, SM_bind. simpl. by rewrite Hm. Qed.

Lemma single_forever ps c :
  first_single st c ps = Some m → paramSingle_Build R ps c st = (NoFuel, st).
Proof.
  unfold first_single. intros Hf. unfold paramSingle_Build, buildWithDecorators.
  destruct (findDecorator _ _ _) as [|] eqn:Hd; [done|].
  destruct (firstDecorated _ _ _) as [|] eqn:Hv; [done|].
  destruct (findProvision _ _ _) as [|s' ns|] eqn:Hp; try done. destruct ns as [|n ns]; [done|].
  injection Hf as ->.
  rewrite (bind_step _ _ st None st).
  2: { rewrite (bind_step _ _ st (ancestors (st_scopes st) c) st) by done.
       rewrite (bind_step _ _ st st st) by done. by rewrite Hd. }
  rewrite (bind_step _ _ st (ancestors (st_scopes st) c) st) by done.
  rewrite (bind_step _ _ st st st) by done. rewrite Hv, Hp. apply bind_NoFuel. simpl.
  rewrite (bind_step _ _ _ _ _ getCtor_m). apply bind_NoFuel. unfold tryErr. by rewrite Hcall.
Qed.

Lemma decorators_skipped stores g el (f : nat → nat → M ()) :
  group_undecorated st stores g el = true →
  forEach stores (λ s, sc ← getScope s;
    match getGroupDecorator sc g el with None => mret () | Some d => f s d end) st = (Ret (), st).
Proof.
  unfold group_undecorated. induction stores as [|s stores IH]; [done|]. cbn [forallb].
  rewrite andb_true_iff. intros [Hs Hrest]. rewrite forEach_cons.
  destruct (st_scopes st !! s) as [sc|] eqn:Hsc; [|done].
  rewrite (bind_step _ _ st () st); [by apply IH|].
  rewrite (bind_step _ _ st sc st) by (unfold getScope, mbind, SM_bind; simpl; by rewrite Hsc).
  by destruct (getGroupDecorator sc g el).
Qed.

Lemma providers_forever stores g el :
  head (concat (map (λ i, match st_scopes st !! i with
                          | Some sc => getProviders sc (groupKey g el)
                          | None => []
                          end) stores)) = Some m →
  Forall (λ s, is_Some (st_scopes st !! s)) stores →
  forMap stores (λ s,
    sc ← getScope s;
    let ns := getGroupProviders sc g el in
    _ ← forEach ns (λ n,
          cn ← getCtor n;
          wrapErr (λ err, errParamGroupFailed (groupKey g el) err (cn_id cn))
                  (callC R n (cn_origS cn)));
    mret (length ns)) st = (NoFuel, st).
Proof.
  intros Hh Hall. induction Hall as [|s stores [sc Hsc] Hall IH]; [done|]. simpl in Hh. rewrite Hsc in Hh.
  rewrite forMap_cons.
  assert (getScope s st = (Ret sc, st)) as Hg by (unfold getScope, mbind, SM_bind; simpl; by rewrite Hsc).
  destruct (getProviders sc (groupKey g el)) as [|n ns] eqn:Hp.
  - rewrite (bind_step _ _ st 0 st); [by apply bind_NoFuel, IH|].
    rewrite (bind_step _ _ _ _ _ Hg). unfold getGroupProviders. by rewrite Hp.
  - injection Hh as ->. apply bind_NoFuel. rewrite (bind_step _ _ _ _ _ Hg).
    unfold getGroupProviders. rewrite Hp. apply bind_NoFuel. rewrite forEach_cons. apply bind_NoFuel.
    rewrite (bind_step _ _ _ _ _ getCtor_m). unfold wrapErr. by rewrite Hcall.
Qed.

Lemma grouped_forever pt c :
  first_grouped st c pt = Some m → paramGroupedSlice_Build R pt c st = (NoFuel, st).
Proof.
  unfold first_grouped. set (stores := ancestors (st_scopes st) c).
  destruct (Elem (pt_Type pt)) as [el|] eqn:Hel; [|done]. simpl.
  destruct (group_undecorated st stores (pt_Group pt) el) eqn:Hu; [|done].
  destruct (pt_Soft pt) eqn:Hsoft; [done|]. simpl.
  destruct (firstDecoratedGroup _ _ _) as [|] eqn:Hv; [done|]. intros Hh.
  assert (Forall (λ s, is_Some (st_scopes st !! s)) stores) as Hall.
  { apply Forall_forall. intros s Hs. unfold group_undecorated in Hu. rewrite forallb_forall in Hu.
    specialize (Hu s (proj1 (list_elem_of_In _ _) Hs)). by destruct (st_scopes st !! s). }
  assert (group_undecorated st (reverse stores) (pt_Group pt) el = true) as Hu'.
  { unfold group_undecorated in *. rewrite forallb_forall in *. intros s Hs. apply Hu.
    apply list_elem_of_In. apply list_elem_of_In in Hs. by apply elem_of_reverse. }
  unfold paramGroupedSlice_Build, callGroupDecorators, callGroupProviders.
  rewrite Hel, Hsoft, (bind_step _ _ st () st).
  2: { rewrite (bind_step _ _ st el st) by done. rewrite (bind_step _ _ st stores st) by done.
       by apply decorators_skipped. }
  rewrite (bind_step _ _ st stores st) by done. rewrite (bind_step _ _ st st st) by done. rewrite Hv.
  apply bind_NoFuel. rewrite (bind_step _ _ st el st) by done.
  rewrite (bind_step _ _ st stores st) by done. apply bind_NoFuel. by apply providers_forever.
Qed.

Lemma param_forever p c : first_call st c p = Some m → param_Build R p c st = (NoFuel, st).
Proof.
  induction p as [ps|pt|t fs IH] using param_ind'; [apply single_forever|apply grouped_forever|].
  intros Hf. simpl. unfold paramObject_Build.
  assert (∃ f rest, filter (λ fb : paramObjectField * M value, negb (isSoftGroup (pof_Param fb.1)))
            (map (λ f, (f, param_Build R (pof_Param f) c)) fs) = (f, param_Build R (pof_Param f) c) :: rest ∧
            param_Build R (pof_Param f) c st = (NoFuel, st)) as (f & rest & -> & Hb).
  { revert Hf. induction IH as [|f fs Hf _ IHfs]; [done|]. simpl. rewrite filter_cons. simpl.
    destruct (isSoftGroup (pof_Param f)); simpl; [apply IHfs|]. intros Hm'. eexists f, _. split; [done|by apply Hf]. }
  by apply bind_NoFuel.
Qed.

Lemma BuildList_forever pl c : first_of st c pl = Some m → BuildList R pl c st = (NoFuel, st).
Proof.
  unfold first_of, BuildList. destruct (pl_Params pl) as [|p ps]; [done|]. intros Hf.
  rewrite forMap_cons. by apply bind_NoFuel, param_forever.
Qed.
End build.

(** ** The recursion *)

Lemma self_feeding_at st X n :
  self_feeding st X = true → n ∈ X →
  ∃ cn, st_ctors st !! n = Some cn ∧ cn_called cn = false ∧
    shallowCheckDependencies (cn_origS cn) (cn_paramList cn) st = (Ret (), st) ∧
    ∃ m, first_of st (cn_origS cn) (cn_paramList cn) = Some m ∧ m ∈ X.
Proof.
  intros HX Hn. unfold self_feeding in HX. rewrite forallb_forall in HX.
  specialize (HX n (proj1 (list_elem_of_In _ _) Hn)).
  destruct (st_ctors st !! n) as [cn|]; [|done]. exists cn. split; [done|].
  apply andb_true_iff in HX as [HX Hf]. apply andb_true_iff in HX as [Hc Hs].
  apply negb_true_iff in Hc. split; [done|]. split.
  - assert (∀ c pl, (shallowCheckDependencies c pl st).2 = st) as Hstill.
    { intros c pl. unfold shallowCheckDependencies, getScope, mbind, SM_bind. simpl.
      destruct (st_scopes st !! c); simpl; [|done]. by destruct (concat _). }
    specialize (Hstill (cn_origS cn) (cn_paramList cn)).
    destruct (shallowCheckDependencies _ _ st) as [[[]|e|p|] s]; simpl in *; try done. by subst s.
  - destruct (first_of _ _ _) as [m|]; [|done]. exists m. split; [done|]. by apply bool_decide_eq_true in Hf.
Qed.

Lemma call_forever st X fuel n cn :
  self_feeding st X = true → n ∈ X → st_ctors st !! n = Some cn →
  callC (knot fuel) n (cn_origS cn) st = (NoFuel, st).
Proof.
  intros HX. revert n cn; induction fuel as [|fuel IH]; intros n cn Hn Hcn; [done|].
  destruct (self_feeding_at st X n HX Hn) as (cn' & Hcn' & Hcalled & Hs & m & Hf & Hm). simplify_eq.
  destruct (self_feeding_at st X m HX Hm) as (cm & Hcm & _). simpl. unfold constructorNode_Call.
  rewrite (bind_step _ _ st cn st) by (unfold getCtor, mbind, SM_bind; simpl; by rewrite Hcn).
  rewrite Hcalled, (bind_step _ _ st () st) by (unfold wrapErr; by rewrite Hs).
  apply bind_NoFuel. unfold wrapErr. by rewrite (BuildList_forever (knot fuel) st m cm Hcm (IH m cm Hm Hcm)).
Qed.

Lemma Invoke_forever X fuel s f opts pl st st1 st2 m :
  newParamList (fv_type f) s st = (Ret pl, st1) →
  shallowCheckDependencies s pl st1 = (Ret (), st1) →
  verifyAcyclic s st1 = (Ret (), st2) →
  self_feeding st2 X = true → first_of st2 s pl = Some m → m ∈ X →
  (Invoke fuel s (IFunc f) opts st).1 = NoFuel.
Proof.
  intros Hpl Hs Hv HX Hf Hm. unfold Invoke. simpl.
  destruct (decide _) as [Hk|_].
  { exfalso. apply Hk. revert Hpl. unfold newParamList, FuncSig, Kind. by destruct (under _ _). }
  rewrite (bind_step _ _ _ _ _ Hpl), (bind_step _ _ st1 () st1) by (unfold wrapErr; by rewrite Hs).
  rewrite (bind_step _ _ _ _ _ Hv).
  destruct (self_feeding_at st2 X m HX Hm) as (cm & Hcm & _).
  erewrite bind_NoFuel; [done|]. unfold wrapErr.
  by rewrite (BuildList_forever (knot fuel) st2 m cm Hcm (call_forever st2 X fuel m cm HX Hm Hcm)).
Qed.
End divergence.


(** ** An example *)

Section divergence_example.
#[local] Existing Instance plainEnv.

(** [func(B) A] and [func(D) C] are exported from two sibling scopes, which
    privately provide [func(C) B] and [func(A) D]: no graph has a cycle. *)
Definition exportOps : list op :=
  [OpNew []; OpScope 0 "one"; OpScope 0 "two";
   OpProvide 1 (fn 42 1) [Export true]; OpProvide 1 (fn 53 2) [];
   OpProvide 2 (fn 54 3) [Export true]; OpProvide 2 (fn 55 4) []].
Definition exportStore : store := run_ops exportOps emptyStore.

End divergence_example.
