(* ===== verification/Findings.v ===== *)
(** * Behaviour the sources do not intend

    Concrete programs, evaluated: each theorem of this file exhibits a run in which
    the container does something its comments, documentation or error handling
    say it does not. *)

From S2P Require Import Prelude Digraph GoLib GoTypes DigReflect Errors Group InOut.
From S2P Require Import Values DotTypes Result Store Scenario Param Call ResultProofs.
From S2P Require Import Options Deps Building ParamProofs CallProofs Provide Decorate.
From S2P Require Import ProvideProofs Invoke Invariants Reachable Divergence.

Open Scope string_scope.
Open Scope list_scope.

#[local] Existing Instance plainEnv.

(** ** A false cycle in child scopes *)

(** [func(B) C], [func(InG) B], and a child scope: no cycle anywhere. *)
Definition falseCycle : store :=
  run_ops [OpNew []; OpProvide 0 (fn 52 1) []; OpProvide 0 (fn 46 2) []; OpScope 0 "child"]
          emptyStore.

(** [Scope.Scope] copies the orders of constructors to the child but not those of
    consumed value groups: in the child the value group takes order 0, which is
    another node, and [Invoke] reports a cycle that does not exist. *)
Theorem child_scope_false_cycle :
  deps_bounded 3 falseCycle = true ∧
  (Invoke 3 0 (fn 44 3) [] falseCycle).1 = Ret () ∧
  match (Invoke 3 1 (fn 44 3) [] falseCycle).1 with
  | Err e => IsCycleDetected (Some e) = true
  | _ => False
  end.
Proof. vm_compute. auto. Qed.

(** ** A failed Provide that stays registered *)

(** A child scope with [func(B) A]. *)
Definition childProvides : store :=
  run_ops [OpNew []; OpScope 0 "child"; OpProvide 1 (fn 42 1) []] emptyStore.

Definition providersOf (st : store) (s : nat) (k : key) : list nat :=
  match st_scopes st !! s with Some sc => getProviders sc k | None => [] end.

(** [provide] restores the providers of the scope in which it found the cycle, not
    those of the scope it added to: after the error the root still has the
    rejected constructor. *)
Theorem failed_provide_registered :
  match Provide 0 (fn 41 2) [] childProvides with
  | (Err e, st') =>
      IsCycleDetected (Some e) = true ∧
      providersOf childProvides 0 (valueKey "" tB) = [] ∧
      providersOf st' 0 (valueKey "" tB) = [1]
  | _ => False
  end.
Proof. vm_compute. auto. Qed.

(** The refused constructor is a provider without a node in the graph of the root: the
    next constructor, [func(D) C], takes its order.  When [func(B) A] is then provided to
    the root, the check follows the edge to [func(D) C] and passes. *)
Definition refusedOps : list op :=
  [OpNew []; OpScope 0 "child"; OpProvide 1 (fn 42 1) []; OpProvide 0 (fn 41 2) [];
   OpProvide 0 (fn 54 3) []; OpProvide 0 (fn 42 4) []].
Definition refusedStore : store := run_ops refusedOps emptyStore.

(** [Invoke] of [func(A)] goes round between [func(B) A] and the refused [func(A) B], whatever
    the bound on nested calls. *)
Theorem refused_constructor_recurses fuel opts :
  (λ r, match r with Ret _ => true | _ => false end) <$> outcomes refusedOps emptyStore =
    [true; true; true; false; true; true] ∧
  (Invoke fuel 0 (fn 43 5) opts refusedStore).1 = NoFuel.
Proof.
  split; [vm_compute; reflexivity|].
  eapply (Invoke_forever [1; 3] _ _ _ _ _ refusedStore refusedStore refusedStore 3);
    try (vm_compute; reflexivity). vm_compute. right. left.
Qed.

(** ** A cycle across sibling scopes *)

(** C39: every registration of [exportOps] succeeds (Divergence.v), but the first
    constructor depends on itself through constructors of two sibling scopes: no graph has
    the cycle, and whatever the bound on nested calls, invoking [func(A)] exhausts it. *)
Theorem exported_cycle_undetected fuel opts :
  Forall (λ r, r = Ret ()) (outcomes exportOps emptyStore) ∧
  (∀ h, dep_depth h exportStore (inl 0) = false) ∧
  (Invoke fuel 0 (fn 43 5) opts exportStore).1 = NoFuel.
Proof.
  split; [vm_compute; repeat constructor|]. split.
  2: { eapply (Invoke_forever [0; 1; 2; 3] _ _ _ _ _ exportStore exportStore exportStore 0);
         try (vm_compute; reflexivity). vm_compute. left. }
  intros h. destruct (dep_depth h exportStore (inl 0)) eqn:Hh; [|done].
  apply below_irrefl in Hh. exfalso. apply Hh. exists (inl 1). split; [vm_compute; left|].
  eapply (reach_step _ _ (inl 2)); [vm_compute; left|].
  eapply (reach_step _ _ (inl 3)); [vm_compute; left|].
  eapply (reach_step _ _ (inl 0)); [vm_compute; left|constructor].
Qed.

(** ** A cycle that a child scope misses *)

(** With a deferred check, [func() A] and [func(InG) OutG], which feeds the value group
    it consumes, are provided; then a child scope is made. *)
Definition hiddenOps : list op :=
  [OpNew [DeferAcyclicVerification]; OpProvide 0 (fn 40 1) []; OpProvide 0 (fn 62 2) [];
   OpScope 0 "child"].
Definition hiddenStore : store := run_ops hiddenOps emptyStore.


(** ** A panic where an error is due *)

(** [dig.Group("g,flatten")] with [dig.As(new(interface{}))] on [func() []A]: the
    element type is taken of the interface. *)
Theorem flatten_as_panics :
  match (Provide 0 (fn 48 1) [Group_ "g,flatten"; As [IOther (TPtr tAny) ""]]
                 (New [] emptyStore).2).1 with
  | Panic_ _ => True
  | _ => False
  end.
Proof. vm_compute. exact I. Qed.

(** ** Decorate is not atomic *)

(** [B] is decorated; then a decorator of [A] and [B] is rejected. *)
Definition decoratedB : store :=
  run_ops [OpNew []; OpDecorate 0 (fn 57 1) []] emptyStore.

(** The key before the conflict stays decorated by the rejected decorator. *)
Theorem failed_decorate_registered :
  match Decorate 0 (fn 58 2) [] decoratedB with
  | (Err _, st') => (λ sc, decorators sc !! valueKey "" tA) <$> (st_scopes st' !! 0) = Some (Some 1)
  | _ => False
  end.
Proof. vm_compute. reflexivity. Qed.

(** ** A constructor called twice *)

(** [func() A], [func(A) B], and a decorator [func(A, B) A]: building the
    decorated [A] for [func(A) B] calls [func(A) B]. *)
Definition reentrant : store :=
  run_ops [OpNew []; OpProvide 0 (fn 40 1) []; OpProvide 0 (fn 41 2) [];
           OpDecorate 0 (fn 60 3) []] emptyStore.

(** The constructor is called a second time by the call it is part of. *)
Theorem constructor_called_twice :
  match Invoke 10 0 (fn 44 4) [] reentrant with
  | (Ret (), st') =>
      length (filter (λ ev, is_ctor_call 1 ev = true) (st_trace st')) = 2
  | _ => False
  end.
Proof. vm_compute. reflexivity. Qed.

(** ** The value of a failed decorator *)

(** The decorator [func(A) (A, error)] with identity 9 returns a value and an
    error. *)
Definition failing : list event → funcval → list value → callres := λ tr f args,
  if decide (fv_id f = 9%positive) then
    Returned [VObj tA 99; VErr _errType (UserError 1 "failed" None)]
  else @env_call plainEnv tr f args.
Definition failingEnv : Env := mkEnv scenarioTable failing.

Definition failedOnce : store :=
  run_ops (E := failingEnv)
    [OpNew []; OpProvide 0 (fn 40 1) []; OpDecorate 0 (fn 47 9) [];
     OpInvoke 10 0 (fn 43 2) []] emptyStore.

(** The first [Invoke] reports the error of the decorator.  The decorator stays on
    the stack for good: the second one skips it and hands out the value that came
    with the error. *)
Theorem failed_decorator_value_used :
  match (Invoke (E := failingEnv) 10 0 (fn 43 2) []
           (run_ops (E := failingEnv) [OpNew []; OpProvide 0 (fn 40 1) [];
                                       OpDecorate 0 (fn 47 9) []] emptyStore)).1 with
  | Err e => RootCause (Some e) = Some (Some (UserError 1 "failed" None))
  | _ => False
  end ∧
  match Invoke (E := failingEnv) 10 0 (fn 43 3) [] failedOnce with
  | (Ret (), st') => last (st_trace st') =
      Some (EvCall ByInvoke (mkFuncval (TDef 43) 3 3) [VObj tA 99])
  | _ => False
  end.
Proof. split; vm_compute; reflexivity. Qed.

(** ** A decorator that flattens *)

(** [func() OutG] submits to the group [g] of [A]; the decorator [func(InG) OutFl]
    returns a field [\[\]\[\]A] tagged [group:"g,flatten"]. *)
Definition flattenOps : list op :=
  [OpNew []; OpProvide 0 (fn 51 1) []; OpDecorate 0 (fn 61 2) []].

(** [Decorate] accepts a result with the option [flatten]: [findResultKeys] takes it
    for a decorator of the whole group.  [Extract] ignores the option for decorators
    and stores the [\[\]\[\]A] as the decorated group of [A]; every function that
    consumes the group panics when its field [\[\]A] is set. *)
Theorem flatten_decorator_panics :
  outcomes flattenOps emptyStore = [Ret (); Ret (); Ret ()] ∧
  (Invoke 5 0 (fn 50 3) [] (run_ops flattenOps emptyStore)).1 =
    Panic_ (PIllTyped RSet (TSlice (TSlice tA)) (TSlice tA)).
Proof. split; vm_compute; reflexivity. Qed.

(** ** A value group without a name *)

(** [func() \[\]A] is provided with [Group(",flatten")]. *)
Definition namelessOps : list op := [OpNew []; OpProvide 0 (fn 48 1) [Group_ ",flatten"]].

(** The group has the key of a plain [A]: [Invoke] of [func(A)] finds its provider
    and calls it, but the value was submitted to the group, and the function is
    called with the zero Value. *)
Theorem nameless_group_panics :
  outcomes namelessOps emptyStore = [Ret (); Ret ()] ∧
  (Invoke 5 0 (fn 43 2) [] (run_ops namelessOps emptyStore)).1 =
    Panic_ (PRuntime "reflect: Call using zero Value argument").
Proof. split; vm_compute; reflexivity. Qed.
